(* ===== verification/_CoqProject ===== *)
-Q . S2P
Prelude.v
Core.v
Store.v
Capabilities.v
Pardosa.v
PgnoStore.v
PgnoShared.v
Projection.v
PgnoOpen.v
Merger.v
Agent.v
Scheduler.v
PgnoBridge.v
Durable.v
Pacing.v
WorkQueue.v
Budget.v
WorkerPool.v
Pipeline.v
Chars.v
Lock.v
Signature.v
Web.v
Pages.v
Session.v
Updates.v
Server.v
Traffic.v
Api.v
Lint.v
Source.v
