(* ===== verification/Prelude.v ===== *)
(** * Cherry-pit: a verification development

    Cherry-pit is a set of Rust crates for event-sourced applications: an event
    store port with its envelopes, a command merger that owns the write side of
    an aggregate, policies that react to events, durable schedules, projections
    with their checkpoints, a work queue with the regulators that pace it, run
    locks and atomic files, and the HTTP and WebSocket surfaces that serve pages
    and take commands.  This library translates the crates' own logic into Rocq functions and step
    relations and proves what makes each part correct.

    ** How the parts interact

    Everything that writes goes through the [EventStore] port: [load], [create]
    and [append] on streams of envelopes, with an optimistic check of the last
    sequence and three kinds of failure (retryable, terminal, and a failure
    after which nobody knows whether the write landed).  The merger writes
    commands' events and publishes them on an [EventBus]; [App] moves published
    envelopes through a bounded channel to the policies; the durable scheduler
    uses two stores, one for its own stream and one for the target of a
    schedule; a projection folds what a store loads.  The port's contract is the
    class [EventStoreLaws] of [Store]: the merger, the scheduler, the projection
    driver and the converting stores are proved against it, and the in-memory
    store, the pgno store and the converting stores discharge it; the scheduler's own
    port is the class [EventSchedulerLaws] of [Scheduler].  The crate
    [cherry-pit-wq] stands beside this: a deduplicating queue, a pool of workers
    that take jobs from it, and gates that admit or delay them.  The crate
    [cherry-pit-storage] keeps a process alone on its files.  The crate
    [cherry-pit-web] is the edge: a request passes the layers, its path is
    normalised, and a page cache, a rendered projection or a consumer's command
    router answers it; a WebSocket session pushes the updates of a broadcast
    channel for as long as its client answers pings.

    ** Files

    All source paths are under [src/crates/].

    - [Prelude] : machine integers kept at their width ([checked_add],
      [saturating_sub], [wrapping_sub], ... with the width's maximum as an
      argument), Rust's [Result] with the [?] operator, decimal printing, sorting
      by a key, the generic lemmas and the tactics of the other files.
    - [Core] : [cherry-pit-core/src/aggregate_id.rs], [correlation.rs],
      [error.rs], [event.rs].  Identifiers, correlation pairs, the error types
      with their retry category and text, the envelope and its validation.
    - [Store] : [cherry-pit-core/src/store.rs], [bus.rs], [testing.rs].  The two
      ports as records of operations, the contract, [InMemory] (the in-memory
      event store), [InMemoryProjectionStore], the fake bus, and [Conformance]
      (the harness every store of the workspace is run through).
    - [Capabilities] : the event-history and listing traits of
      [cherry-pit-core/src/store.rs], their contracts, and the in-memory store as an
      implementation of both.
    - [Pardosa] : what the pgno adapters use of the [pardosa] crates, which are
      not in the repository: a file session as a record of operations
      ([FileWriterSession]) with its documented behaviour as a class
      ([SessionLaws]), the adapter that opens files ([AdapterLaws]), and
      [LogSession], a concrete session with a script of faults, which keeps the
      laws.
    - [PgnoStore] : [pardosa-cherry-pit-test-support/src/lib.rs], the event
      store over a pardosa file ([Pgno]); [PgnoShared] : its calls as threads that
      interleave between their critical sections, with the aggregate mutexes.
    - [Projection] : [cherry-pit-projection/src/lib.rs], [write_cell.rs] and
      [cherry-pit-core/src/checkpoint.rs] in [Driver];
      [pardosa-cherry-pit-projection/src/lib.rs] in [ProjectionStore].
    - [PgnoOpen] : [create_pgno] and [open_pgno] of both pardosa stores.
    - [Merger] : [cherry-pit-merger/src/].  The three persist modes, the routing
      index, the sequence tracker, and the channel with its task as a transition
      system.
    - [Agent] : [cherry-pit-app/src/error.rs], [dead_letter.rs], [dispatch.rs],
      [app.rs] and, in [InProcessEventBus], [event_bus.rs].
    - [Scheduler] : [cherry-pit-core/src/scheduler.rs] (events, replay) and
      [cherry-pit-app/src/scheduler.rs] (the driver).
    - [PgnoBridge] : [pardosa-cherry-pit-test-support/src/scheduler_store.rs]
      ([SchedulerDto]) and [serde_bridge.rs] ([SerdeDto]), with the common
      wrapper [Bridge] over any store.
    - [Durable] : these parts together: the driver of [Scheduler] over its store
      and a target store on pgno files, with processes that stop anywhere and open
      the files again.
    - [Pacing] : [cherry-pit-wq/src/token_bucket.rs] ([TokenBucket]),
      [backoff.rs] ([Backoff]), [rate_limit.rs] and the wait loop of
      [worker_pool.rs] ([RateLimit]).
    - [WorkQueue] : [cherry-pit-wq/src/work_queue.rs] and
      [cherry-pit-core/src/work.rs]; the batch barrier in [BatchTracker].
    - [Budget] : [cherry-pit-wq/src/budget.rs], the gate with its election and the
      optional policy, as atomic steps of any number of threads.
    - [WorkerPool] : [cherry-pit-wq/src/worker_pool.rs], [regulator.rs], one worker
      at a time; [Pipeline] : the pool, workers that interleave with producers, the
      queue of [WorkQueue], the gate of [Budget], the observer and the receiver of
      the outcomes.
    - [Chars] : text as lists of Unicode scalar values, with the operations of
      [str] and the integer parsers that the following files use.
    - [Lock] : [cherry-pit-storage/src/error.rs], [fs.rs], [lock.rs], as a monad
      over one path, temporary files with what they hold and what of it is synced,
      and a script of faults, and as interleaved file-system steps;
      in [Recovery] the evidence of [cherry-pit-gateway/src/recovery.rs].
    - [Signature] : [cherry-pit-storage/src/signature.rs].
    - [Web] : [cherry-pit-web/src/middleware/]: [Path], [WsAuth], [TraceContext],
      [Negotiation] (encodings and entity tags), [ErrorMap] and [Trace].
    - [Pages] : the page cache and the fallback of [serve/], the page entries and
      the reads of [projection/].
    - [Session] : the WebSocket sessions of [projection/handlers.rs]
      ([ProjectionWs]) and [serve/runtime.rs] ([ServeWs]) and the permits they
      hold ([Pool]).
    - [Updates] : the update events of [serve/state.rs] and [projection/state.rs]
      and their way through the broadcast channel to the clients.
    - [Server] : the builders of [serve/config.rs] and [projection/config.rs], the
      layers, the routers of [projection/mod.rs] and [serve/runtime.rs] with the
      consumer's routes that they merge, and the start of the latter; [Traffic] :
      the routers that these functions build under load, with the requests in
      flight and the open sessions that hold their permits.
    - [Api] : the command surface, [router.rs], [command_router.rs], with the
      consumer's routes.
    - [Lint] : [non-exhaustive-check/src/main.rs].
    - [Source] : [cherry-pit-app/src/projection_source.rs] and the in-memory
      projection, from a history to the page a client reads.

    ** How code becomes definitions

    A method that takes [&mut self] or locks its state is a function from the
    state to the new state and the result.  What the source draws from outside
    (UUIDs, clocks) is in the state as a source ([World]).  Code whose atomic
    steps other threads can interleave with (the token bucket's
    compare-and-swap, the queue's insert and send, the budget's election, the
    barrier's notification, the merger's channel) is a step relation whose
    program counters hold what a thread has read so far, and its theorems are
    invariants of [rtc step].  A panic the code can raise is [None].  The text of
    errors is modelled, so that what is wrapped is not lost.

    ** What the theorems show

    - Envelopes and stores: [validate_stream] decides exactly the valid streams
      and reports the first bad envelope; every reachable in-memory store has
      valid streams that only grow; create and load round trip; append is a
      compare on the length; the in-memory store passes its harness; the causal
      chain terminates and goes from a root cause to the event asked for.  The pgno store and the converting stores keep the same
      contract over any session or inner store, whatever write fails or is lost;
      concurrent calls on the pgno store are linearizable and all of them end; and
      a file that is opened again shows what was written to it.
    - Merger: one command has exactly the effect of its mode, or none; the task
      serialises concurrent commands; wherever it stops, the command it was handling
      has written all its events or none, and a lost reply is never reported as a
      definite failure.
    - App: the dispatcher routes each failure by its category; the channel
      delivers in order and at most once; the bus calls each handler once.
    - Scheduler: at most one fire per schedule and one delivery per fire, over
      any run with any failures; a recovery pass that reports leaves nothing due;
      on files this survives any number of restarts, of processes that stop between
      two operations or in the middle of one.  The driver keeps the contract of the
      scheduler port.
    - Projections: a live cell equals a replay unless a write was indeterminate;
      a persist has one of its documented outcomes, and one below the stored
      checkpoint is refused with both numbers; a checkpoint always has a snapshot.
    - Work queue: no duplicates, no overflow, first in first out under any
      interleaving; the barrier releases nobody early and loses no wake-up, and a
      completion too many is the one that panics.
    - Pacing and budget: at most the generated tokens plus one burst in any
      window; computed waits suffice and are bounded; the counter stays under the
      limit, the election has one owner even if a policy panics or a caller goes
      away, nobody is refused without a cancellation or a policy's refusal, and a
      reported usage is what the limit and the counter were during the call.
    - Worker pool: one outcome per executed job, settlements match admissions,
      and the fixed loop is an instance of the regulated one; in the whole pool every
      accepted job is queued, with one worker, or has its one outcome, a worker
      that ends takes at most one job with it, every execution has a permit, and a
      worker that cannot go on waits for something named.
    - Storage: with whole calls at most one holder owns the lock until a forced
      acquisition, an expired or dead lock or an unreadable file lets another take
      it; under any interleaving of file-system steps a lock that nobody reclaims
      stays its owner's; a write puts the new bytes at the path, whole and synced,
      or leaves it, by which call fails; equal snapshots, and only those, have the
      same canonical text.
    - Web edge: a normalised path never leaves the cache's name space; an accepted
      WebSocket origin has the authority of the host; a page is served as it was
      stored, in an encoding the client takes; every response carries the
      security headers; a router is built unless a limit, the policy or a merged
      route makes it panic; probes are never shed, the requests inside the limit
      exactly when all permits are in use, and no permit is lost.
    - WebSocket sessions: a client that answers no ping in time is gone within the
      deadline and the bound of one send; updates arrive in order, and none is
      missing without a notice; permits and open sessions add up to the cap.
    - Command surface: a request that the consumer does not answer itself changes
      nothing but what one dispatch of its command does, and what it reports as
      created, now or as the replay of an earlier request with the same idempotency
      key, can be read back.  From a
      history the projection surface serves exactly the pages rendered from it.
    - Builders and lint: a builder lets exactly the well-formed configurations
      through; the lint, from its arguments to its exit status, reports every open
      error enum that some build without tests may compile by its cfg attributes,
      and nothing else.

    A few theorems state what the code does where its documentation says
    otherwise: a budget waiter that registers after the notification stays parked, a
    permit taken between the two stores of a replenishment is forgotten,
    a deduplicated job can be lost to a full queue, a completion after a drain
    wraps the counter, an executor that panics when it is polled ends its worker
    without an outcome, a new bucket can be short of a token, two processes can
    hold one lock after a race of release and acquire, a serving session whose
    send waits outlives its deadline, and a router can panic on a configuration
    its builder let through.

    ** Parameters and hypotheses

    Code outside the repository is a parameter: the pardosa session
    ([SessionLaws]), serde and pardosa codecs ([JsonCodecLaws], [CodecsLaws]:
    decoding inverts encoding), [derive_fiber_id] (injective), jiff's range check
    [from_nanosecond], the printing of UUIDs.  [v7_source] says that the UUIDs a
    process draws are distinct and not nil.  User code (arms, policies, decoders,
    projections, executors) is a parameter without laws, except
    [faithful_decoder] of [Scheduler]: a decoded caller event carries the
    identifier of its schedule, and [RouterContract] of [Api]: what a dispatch does
    to the store is a sequence of its operations, and an aggregate that it reports
    as created was created by it or, under an idempotency key, by an earlier
    dispatch with that key.  Of the crates
    behind the web and storage code the model takes the digest, the codec
    (decompression inverts compression), percent-decoding, JSON and UUID parsing,
    [HeaderValue::from_str] ([header_value_law]: it takes visible ASCII, space and
    tab), the body-limit layer ([body_limit_law]: a request that declares no body
    passes), the broadcast channel ([delivers]: in order, with a notice for what a
    slow receiver missed), JSON printing ([json_law]: it is read back), the routes
    that axum does not merge ([conflict]), and the file system and [syn] of the
    lint.  From axum the model takes in addition that [get] serves [HEAD] without the
    body, that a second fallback makes [Router::merge] panic, and that a merge of two
    routers without a fallback keeps the default one of the second, outside the
    layers of the first.  Of the operating system it takes that a rename installs
    what the file holds and that a standard file keeps no bytes back.  Each of these has a concrete instance, used by
    the witness of the theorems that assume it.

    ** Bounds and fuel

    [InMemory.causal_chain] has fuel because its loop in the source has no bound:
    one round more than the length of the stream suffices on every store whose
    causation identifiers were known when written.  [Lint.Cfg.parse] recurses into
    token trees with the weight of its input as fuel, and [parse_total] shows that
    this is enough.  The attempts of [Lock.acquire_with_clock] are the source's own
    bound.  Counters of 64
    bits overflow in the model where they do in the source; theorems that need
    room say so ([next_id s < U64_MAX], stream lengths within [U64_MAX]), and
    [Pgno.bounded] turns the pgno store into an instance of the port for runs of
    fewer than 2^64 calls.

    ** Not modelled

    Poisoned session mutexes, log lines (but for the hooks of the HTTP tracing layer),
    serde derives and metrics; the traits of the core crate that no code implements
    (purging, hash chains); what the crates
    behind the parameters do inside: sockets, the run of axum, pardosa files, JSON
    text, Rust syntax.  Atomics are sequentially consistent. *)

From stdpp Require Export base gmap strings list numbers pretty relations.
From Stdlib Require Export ZArith Lia.

#[global] Open Scope Z_scope.

(** ** Machine integers

    Unsigned integers are elements of [Z]; a value of width [w] lies in
    [0, 2^w).  The operations below are the standard library's. *)

Definition U8_MAX : Z := 2 ^ 8 - 1.
Definition U16_MAX : Z := 2 ^ 16 - 1.
Definition U32_MAX : Z := 2 ^ 32 - 1.
Definition U64_MAX : Z := 2 ^ 64 - 1.
Definition U128_MAX : Z := 2 ^ 128 - 1.
Definition I64_MIN : Z := - 2 ^ 63.
Definition I64_MAX : Z := 2 ^ 63 - 1.
(** The targets of the workspace are 64-bit: [usize] is [u64]. *)
Definition USIZE_MAX : Z := U64_MAX.

(** [x.checked_add(y)] at the width whose maximum is [m]. *)
Definition checked_add (m x y : Z) : option Z :=
  if x + y <=? m then Some (x + y) else None.

(** [x.saturating_add(y)], [x.saturating_sub(y)], [x.saturating_mul(y)]. *)
Definition saturating_add (m x y : Z) : Z := Z.min m (x + y).
Definition saturating_sub (x y : Z) : Z := Z.max 0 (x - y).
Definition saturating_mul (m x y : Z) : Z := Z.min m (x * y).

(** [u64::try_from(x).unwrap_or(u64::MAX)] on a non-negative [x]. *)
Definition clamp (m x : Z) : Z := Z.min m x.

(** [x.fetch_sub(1)] on an atomic: wraps around at zero. *)
Definition wrapping_sub (m x y : Z) : Z := (x - y) mod (m + 1).
Definition wrapping_add (m x y : Z) : Z := (x + y) mod (m + 1).

(** [x.div_ceil(y)] for positive [y]. *)
Definition div_ceil (x y : Z) : Z := (x + y - 1) / y.

(** [NonZeroU64::new]. *)
Definition NonZeroU64_new (x : Z) : option Z := if x =? 0 then None else Some x.

(** The values of [NonZeroU64]. *)
Definition nz64 (x : Z) : Prop := 1 <= x <= U64_MAX.

#[global] Instance nz64_dec x : Decision (nz64 x).
Proof. unfold nz64. apply _. Defined.

(** ** Results *)

(** Rust's [Result<A, E>]. *)
Inductive result (A E : Type) : Type :=
| Ok (a : A)
| Err (e : E).
Arguments Ok {A E} a.
Arguments Err {A E} e.

#[global] Instance result_eq_dec {A E} `{EqDecision A, EqDecision E} :
  EqDecision (result A E).
Proof. solve_decision. Defined.

Declare Scope result_scope.
Delimit Scope result_scope with result.

(** The [?] operator. *)
Definition rbind {A B E} (r : result A E) (k : A -> result B E) : result B E :=
  match r with Ok a => k a | Err e => Err e end.

Notation "'let?' x ':=' r 'in' k" := (rbind r (fun x => k))
  (at level 10, x name, r at level 100, k at level 200) : result_scope.
Notation "'let?' ''' p ':=' r 'in' k" := (rbind r (fun x => match x with p => k end))
  (at level 10, p pattern, r at level 100, k at level 200) : result_scope.
Notation "'guard?' b 'else' e 'in' k" := (if (b : bool) then k else Err e)
  (at level 10, b at level 100, e at level 100, k at level 200) : result_scope.

Definition map_err {A E F} (f : E -> F) (r : result A E) : result A F :=
  match r with Ok a => Ok a | Err e => Err (f e) end.
Definition map_ok {A B E} (f : A -> B) (r : result A E) : result B E :=
  match r with Ok a => Ok (f a) | Err e => Err e end.
(** [o.ok_or(e)]. *)
Definition ok_or {A E} (o : option A) (e : E) : result A E :=
  match o with Some a => Ok a | None => Err e end.
Definition is_ok {A E} (r : result A E) : bool :=
  match r with Ok _ => true | Err _ => false end.

(** [iter.map(f).collect::<Result<Vec<_>, _>>()]: stops at the first error. *)
Fixpoint traverse {A B E} (f : A -> result B E) (l : list A) : result (list B) E :=
  match l with
  | [] => Ok []
  | x :: l' => match f x with
               | Ok y => match traverse f l' with
                         | Ok ys => Ok (y :: ys)
                         | Err e => Err e
                         end
               | Err e => Err e
               end
  end.

(** ** Lists *)

(** [iter.find(p)]. *)
Fixpoint find_first {A} (p : A -> bool) (l : list A) : option A :=
  match l with
  | [] => None
  | x :: l' => if p x then Some x else find_first p l'
  end.

(** [vec.sort_by_key(key)]: a stable sort. *)
Fixpoint insert_by_key {A} (key : A -> Z) (x : A) (l : list A) : list A :=
  match l with
  | [] => [x]
  | y :: l' => if key x <=? key y then x :: l else y :: insert_by_key key x l'
  end.
Fixpoint sort_by_key {A} (key : A -> Z) (l : list A) : list A :=
  match l with
  | [] => []
  | x :: l' => insert_by_key key x (sort_by_key key l')
  end.

(** ** Strings *)

(** Decimal rendering of an unsigned integer ([{}] of a [u64]). *)
Definition show_Z (n : Z) : string := pretty n.

(** ** Automation *)

(** Splits the conditionals and matches that block a computation, turning the
    boolean tests of the code into propositions. *)
Ltac inv_ok :=
  repeat match goal with
  | H : Ok _ = Ok _ |- _ => injection H as H; subst
  | H : Err _ = Err _ |- _ => injection H as H; subst
  | H : Ok _ = Err _ |- _ => discriminate H
  | H : Err _ = Ok _ |- _ => discriminate H
  | H : Some _ = Some _ |- _ => injection H as H; subst
  | H : Some _ = None |- _ => discriminate H
  | H : None = Some _ |- _ => discriminate H
  | H : (_, _) = (_, _) |- _ => injection H as H; subst
  end.

Ltac to_prop :=
  repeat match goal with
  | H : (_ =? _) = true |- _ => apply Z.eqb_eq in H
  | H : (_ =? _) = false |- _ => apply Z.eqb_neq in H
  | H : (_ <? _) = true |- _ => apply Z.ltb_lt in H
  | H : (_ <? _) = false |- _ => apply Z.ltb_ge in H
  | H : (_ <=? _) = true |- _ => apply Z.leb_le in H
  | H : (_ <=? _) = false |- _ => apply Z.leb_gt in H
  | H : (_ && _)%bool = true |- _ => apply andb_true_iff in H as [? ?]
  | H : (_ || _)%bool = false |- _ => apply orb_false_iff in H as [? ?]
  | H : negb _ = true |- _ => apply negb_true_iff in H
  | H : negb _ = false |- _ => apply negb_false_iff in H
  | H : bool_decide _ = true |- _ => apply bool_decide_eq_true in H
  | H : bool_decide _ = false |- _ => apply bool_decide_eq_false in H
  end.

(** One case analysis on a scrutinee of the goal or of a hypothesis. *)
Ltac break_match :=
  match goal with
  | |- context [match ?x with _ => _ end] => destruct x eqn:?
  | H : context [match ?x with _ => _ end] |- _ => destruct x eqn:?
  end.

Ltac crush := repeat (break_match; simplify_eq/=; to_prop; try done; try lia).

Create HintDb cherry.

(** ** Generic lemmas *)

Lemma checked_add_Some m x y z :
  checked_add m x y = Some z <-> z = x + y /\ x + y <= m.
Proof. unfold checked_add. destruct (Z.leb_spec (x + y) m); naive_solver lia. Qed.

Lemma checked_add_None m x y : checked_add m x y = None <-> m < x + y.
Proof. unfold checked_add. destruct (Z.leb_spec (x + y) m); naive_solver lia. Qed.

Lemma wrapping_sub_small m x y : 0 <= y <= x -> x <= m -> wrapping_sub m x y = x - y.
Proof. intros. unfold wrapping_sub. apply Z.mod_small. lia. Qed.

Lemma NonZeroU64_new_Some x y : NonZeroU64_new x = Some y <-> x = y /\ x <> 0.
Proof. unfold NonZeroU64_new. destruct (Z.eqb_spec x 0); naive_solver. Qed.

Lemma div_ceil_spec x y : 0 < y -> 0 <= x -> x <= div_ceil x y * y < x + y.
Proof.
  intros Hy Hx. unfold div_ceil.
  pose proof (Z.div_mod (x + y - 1) y ltac:(lia)).
  pose proof (Z.mod_pos_bound (x + y - 1) y Hy). nia.
Qed.

Lemma rbind_ok {A B E} (r : result A E) (k : A -> result B E) b :
  rbind r k = Ok b <-> exists a, r = Ok a /\ k a = Ok b.
Proof. destruct r; simpl; naive_solver. Qed.

Lemma rbind_err {A B E} (r : result A E) (k : A -> result B E) e :
  rbind r k = Err e <-> r = Err e \/ exists a, r = Ok a /\ k a = Err e.
Proof. destruct r; simpl; naive_solver. Qed.

Lemma traverse_ok {A B E} (f : A -> result B E) l ys :
  traverse f l = Ok ys <-> Forall2 (fun x y => f x = Ok y) l ys.
Proof.
  revert ys. induction l as [|x l IH]; intros ys; simpl.
  - split; [intros [= <-]; constructor | inversion 1; done].
  - split.
    + destruct (f x) eqn:Hf; [|done]. destruct (traverse f l) eqn:Ht; [|done].
      intros [= <-]. constructor; [done|]. by apply IH.
    + inversion 1 as [|? y ? ys' Hf Ht]; subst. rewrite Hf.
      apply IH in Ht. by rewrite Ht.
Qed.

Lemma traverse_total {A B E} (f : A -> result B E) (g : A -> B) l :
  Forall (fun x => f x = Ok (g x)) l -> traverse f l = Ok (map g l).
Proof. induction 1 as [|x l Hx Hl IH]; simpl; [done|]. by rewrite Hx, IH. Qed.

Lemma find_first_Some {A} (p : A -> bool) l x :
  find_first p l = Some x -> x ∈ l /\ p x = true.
Proof.
  induction l as [|y l IH]; simpl; [done|].
  destruct (p y) eqn:Hp; [|set_solver]. intros [= <-]. split; [set_solver|done].
Qed.

Lemma find_first_None {A} (p : A -> bool) l :
  find_first p l = None <-> Forall (fun x => p x = false) l.
Proof.
  induction l as [|y l IH]; simpl; [naive_solver|].
  rewrite Forall_cons. destruct (p y); naive_solver.
Qed.

Lemma length_omap_le {A B} (f : A -> option B) l : (length (omap f l) <= length l)%nat.
Proof. induction l as [|x l IH]; csimpl; [done|]. destruct (f x); csimpl; lia. Qed.

Lemma sort_by_key_sorted {A} (key : A -> Z) l :
  (forall i x y, l !! i = Some x -> l !! S i = Some y -> key x <= key y) -> sort_by_key key l = l.
Proof.
  induction l as [|x l IH]; intros Hl; simpl; [done|].
  rewrite IH by (intros i; apply (Hl (S i))).
  destruct l as [|y l]; simpl; [done|].
  destruct (Z.leb_spec (key x) (key y)) as [_|Hlt]; [done|].
  specialize (Hl 0%nat x y eq_refl eq_refl). lia.
Qed.

Lemma string_assoc (a b c : string) : a +:+ (b +:+ c) = (a +:+ b) +:+ c.
Proof. unfold app, String.app. induction a as [|ch a IH]; simpl; [done|]. by rewrite IH. Qed.

(** Strings split at a given distance from their end. *)
Lemma string_app_inv (a b c d : string) :
  a +:+ c = b +:+ d -> String.length c = String.length d -> a = b /\ c = d.
Proof.
  assert (Hlen : forall x y, String.length (x +:+ y) = (String.length x + String.length y)%nat).
  { induction x as [|ch x IH]; intros y; simpl; [done|]. by rewrite IH. }
  revert b. induction a as [|ch a IH]; intros [|ch' b]; simpl; intros Heq Hl.
  - done.
  - apply (f_equal String.length) in Heq. simpl in Heq. rewrite !Hlen in Heq. simpl in Heq. lia.
  - apply (f_equal String.length) in Heq. simpl in Heq. rewrite !Hlen in Heq. simpl in Heq. lia.
  - injection Heq as -> Heq. by destruct (IH b Heq Hl) as [-> ->].
Qed.

(** An invariant of a step relation holds in every reachable state. *)
Lemma rtc_invariant {S} (step : S -> S -> Prop) (Inv : S -> Prop) :
  (forall s s', Inv s -> step s s' -> Inv s') ->
  forall s s', rtc step s s' -> Inv s -> Inv s'.
Proof. intros Hstep s s' Hrtc. induction Hrtc; eauto. Qed.

#[export] Hint Resolve rtc_refl rtc_once : cherry.
