(* ===== verification/Core.v ===== *)
(** * The core data model (crate [cherry-pit-core])

    Identities, correlation contexts, retry categories, the error types of
    the ports, and the event envelope with its stream validation.  A UUID is
    its 128-bit value; a timestamp is its number of nanoseconds since the Unix
    epoch.  The payload of an error box is kept when it is one of the crate's
    own errors ([Boxed]), so that no operation loses what it wrapped. *)

From S2P Require Import Prelude.
Local Open Scope result_scope.

(** ** Identities *)

Definition Uuid : Type := Z.
Definition Timestamp : Type := Z.

(** [Uuid::is_nil]. *)
Definition is_nil (u : Uuid) : bool := u =? 0.

(** [AggregateId(NonZeroU64)]. *)
Record AggregateId := AggregateId_new { AggregateId_get : Z }.

#[global] Instance AggregateId_eq_dec : EqDecision AggregateId.
Proof. solve_decision. Defined.
#[global] Instance AggregateId_countable : Countable AggregateId.
Proof.
  refine (inj_countable' AggregateId_get AggregateId_new _). by intros [].
Defined.

(** ** Correlation *)

Record CorrelationContext := mkCorrelationContext {
  correlation_id : option Uuid;
  causation_id : option Uuid;
}.

#[global] Instance CorrelationContext_eq_dec : EqDecision CorrelationContext.
Proof. unfold Uuid. solve_decision. Defined.

Module Correlation.
Definition none : CorrelationContext := mkCorrelationContext None None.
Definition new (corr cause : Uuid) : CorrelationContext :=
  mkCorrelationContext (Some corr) (Some cause).
Definition correlated (corr : Uuid) : CorrelationContext :=
  mkCorrelationContext (Some corr) None.
End Correlation.

(** ** Errors *)

Inductive ErrorCategory := Retryable | Terminal | ReconciliationRequired.

#[global] Instance ErrorCategory_eq_dec : EqDecision ErrorCategory.
Proof. solve_decision. Defined.

Definition is_retryable (c : ErrorCategory) : bool :=
  match c with Retryable => true | _ => false end.
Definition is_terminal (c : ErrorCategory) : bool :=
  match c with Terminal => true | _ => false end.

Inductive EnvelopeError :=
| NilEventId
| AggregateIdMismatch (expected actual : AggregateId)
| SequenceGap (expected_sequence actual_sequence : Z)
| DuplicateEventId (event_id : Uuid).

(** [StoreError], with the boxed errors the crates put in it.  [BoxOpaque] is
    an error of a library outside the repository, by its rendering. *)
Inductive StoreError :=
| Indeterminate (source : Boxed)
| ConcurrencyConflict (aggregate_id : AggregateId) (expected_sequence actual_sequence : Z)
| StoreLocked (path : string)
| CorruptData (source : Boxed)
| Infrastructure (source : Boxed)
| JoinFailure (source : Boxed)
with Boxed :=
| BoxMsg (message : string)
| BoxEnvelope (error : EnvelopeError)
| BoxStore (error : StoreError)
| BoxOpaque (rendering : string).

Definition StoreError_category (e : StoreError) : ErrorCategory :=
  match e with
  | Indeterminate _ => ReconciliationRequired
  | ConcurrencyConflict _ _ _ | StoreLocked _ | Infrastructure _ => Retryable
  | CorruptData _ | JoinFailure _ => Terminal
  end.

Definition EnvelopeError_category (e : EnvelopeError) : ErrorCategory := Terminal.

Record BusError := BusError_new { BusError_into_inner : Boxed }.

Definition BusError_category (e : BusError) : ErrorCategory := Retryable.

(** [DispatchError<E>]: [E] is the domain error of the command. *)
Inductive DispatchError (E : Type) :=
| D_Indeterminate (source : Boxed)
| D_Rejected (error : E)
| D_AggregateNotFound (aggregate_id : AggregateId)
| D_ConcurrencyConflict (aggregate_id : AggregateId) (expected_sequence actual_sequence : Z)
| D_Infrastructure (source : Boxed).
Arguments D_Indeterminate {E}. Arguments D_Rejected {E}.
Arguments D_AggregateNotFound {E}. Arguments D_ConcurrencyConflict {E}.
Arguments D_Infrastructure {E}.

Definition DispatchError_category {E} (e : DispatchError E) : ErrorCategory :=
  match e with
  | D_Indeterminate _ => ReconciliationRequired
  | D_ConcurrencyConflict _ _ _ | D_Infrastructure _ => Retryable
  | D_Rejected _ | D_AggregateNotFound _ => Terminal
  end.

(** The [Display] implementations.  The rendering of a UUID belongs to the
    [uuid] crate and is an argument. *)
Section Display.
Context (show_uuid : Uuid -> string).

Definition AggregateId_display (i : AggregateId) : string := show_Z (AggregateId_get i).

Definition EnvelopeError_display (e : EnvelopeError) : string :=
  match e with
  | NilEventId => "event_id must not be nil"
  | AggregateIdMismatch expected actual =>
      "event aggregate_id mismatch: expected " +:+ AggregateId_display expected
        +:+ ", actual " +:+ AggregateId_display actual
  | SequenceGap expected actual =>
      "event sequence gap: expected sequence " +:+ show_Z expected
        +:+ ", actual " +:+ show_Z actual
  | DuplicateEventId event_id => "duplicate event_id in stream: " +:+ show_uuid event_id
  end.

Definition conflict_display (i : AggregateId) (expected actual : Z) : string :=
  "concurrency conflict on " +:+ AggregateId_display i +:+ ": expected sequence "
    +:+ show_Z expected +:+ ", actual " +:+ show_Z actual.

Fixpoint StoreError_display (e : StoreError) : string :=
  match e with
  | Indeterminate s => "store outcome indeterminate: " +:+ Boxed_display s
  | ConcurrencyConflict i expected actual => conflict_display i expected actual
  | StoreLocked path => "store directory is locked by another process: " +:+ path
  | CorruptData s => "store corrupt data: " +:+ Boxed_display s
  | Infrastructure s => "store infrastructure error: " +:+ Boxed_display s
  | JoinFailure s => "store spawn_blocking join failure: " +:+ Boxed_display s
  end
with Boxed_display (b : Boxed) : string :=
  match b with
  | BoxMsg m => m
  | BoxEnvelope e => EnvelopeError_display e
  | BoxStore e => StoreError_display e
  | BoxOpaque r => r
  end.

Definition BusError_display (e : BusError) : string :=
  "event bus error: " +:+ Boxed_display (BusError_into_inner e).

Definition DispatchError_display {E} (show_E : E -> string) (e : DispatchError E) : string :=
  match e with
  | D_Indeterminate s => "dispatch outcome indeterminate: " +:+ Boxed_display s
  | D_Rejected err => "command rejected: " +:+ show_E err
  | D_AggregateNotFound i => "aggregate not found: " +:+ AggregateId_display i
  | D_ConcurrencyConflict i expected actual => conflict_display i expected actual
  | D_Infrastructure s => "infrastructure error: " +:+ Boxed_display s
  end.
End Display.

(** ** The event envelope *)

Record EventEnvelope (E : Type) := mkEnvelope {
  event_id : Uuid;
  aggregate_id : AggregateId;
  sequence : Z;
  timestamp : Timestamp;
  env_correlation_id : option Uuid;
  env_causation_id : option Uuid;
  payload : E;
}.
Arguments mkEnvelope {E}. Arguments event_id {E}. Arguments aggregate_id {E}.
Arguments sequence {E}. Arguments timestamp {E}. Arguments env_correlation_id {E}.
Arguments env_causation_id {E}. Arguments payload {E}.

#[global] Instance EventEnvelope_eq_dec {E} `{EqDecision E} : EqDecision (EventEnvelope E).
Proof. unfold EqDecision, Decision, Uuid, Timestamp in *. intros [] []; decide equality; apply _ || (unfold Uuid in *; solve_decision) || (decide equality; apply Z.eq_dec). Defined.

Module Envelope.
Section Envelope.
Context {E : Type}.
Implicit Types (e : EventEnvelope E) (stream : list (EventEnvelope E)).

(** [EventEnvelope::new]. *)
Definition new (event_id : Uuid) (aggregate_id : AggregateId) (sequence : Z)
    (timestamp : Timestamp) (correlation_id causation_id : option Uuid) (payload : E)
    : result (EventEnvelope E) EnvelopeError :=
  if is_nil event_id then Err NilEventId
  else Ok (mkEnvelope event_id aggregate_id sequence timestamp
             correlation_id causation_id payload).

(** [EventEnvelope::validate]. *)
Definition validate e : result unit EnvelopeError :=
  if is_nil (event_id e) then Err NilEventId else Ok tt.

(** The sequence required at position [index] of a stream. *)
Definition expected_sequence_at (index : Z) : Z :=
  match checked_add U64_MAX index 1 with Some s => s | None => U64_MAX end.

(** The loop of [EventEnvelope::validate_stream], with its set of event ids
    already seen and its loop index. *)
Fixpoint validate_stream_from (id : AggregateId) (seen_event_ids : gset Z) (index : Z)
    stream : result unit EnvelopeError :=
  match stream with
  | [] => Ok tt
  | envelope :: rest =>
      let? _ := validate envelope in
      if bool_decide (event_id envelope ∈ seen_event_ids)
      then Err (DuplicateEventId (event_id envelope))
      else if negb (bool_decide (aggregate_id envelope = id))
      then Err (AggregateIdMismatch id (aggregate_id envelope))
      else let expected_sequence := expected_sequence_at index in
      if negb (sequence envelope =? expected_sequence)
      then Err (SequenceGap expected_sequence (sequence envelope))
      else validate_stream_from id ({[event_id envelope]} ∪ seen_event_ids) (index + 1) rest
  end.

(** [EventEnvelope::validate_stream]. *)
Definition validate_stream (id : AggregateId) stream : result unit EnvelopeError :=
  validate_stream_from id ∅ 0 stream.

(** *** The specification of a valid stream *)

(** Sequences are contiguous from [k + 1]. *)
Fixpoint contiguous (k : Z) stream : Prop :=
  match stream with
  | [] => True
  | e :: rest => sequence e = k + 1 /\ contiguous (k + 1) rest
  end.

(** What a replayable stream of aggregate [id] is. *)
Record valid_stream (id : AggregateId) stream : Prop := {
  vs_ids : Forall (fun e => event_id e <> 0) stream;
  vs_nodup : NoDup (map event_id stream);
  vs_owner : Forall (fun e => aggregate_id e = id) stream;
  vs_contiguous : contiguous 0 stream;
}.

(** The reason for which an envelope cannot extend a valid prefix. *)
Definition bad_next (id : AggregateId) (prefix : list (EventEnvelope E)) e
    (err : EnvelopeError) : Prop :=
  match err with
  | NilEventId => event_id e = 0
  | DuplicateEventId u => u = event_id e /\ u <> 0 /\ u ∈ map event_id prefix
  | AggregateIdMismatch expected actual =>
      expected = id /\ actual = aggregate_id e /\ actual <> id
      /\ event_id e <> 0 /\ event_id e ∉ map event_id prefix
  | SequenceGap expected actual =>
      expected = Z.of_nat (length prefix) + 1 /\ actual = sequence e /\ actual <> expected
      /\ aggregate_id e = id /\ event_id e <> 0 /\ event_id e ∉ map event_id prefix
  end.

(** *** Lemmas on valid streams *)

Lemma contiguous_app k l1 l2 :
  contiguous k (l1 ++ l2) <-> contiguous k l1 /\ contiguous (k + Z.of_nat (length l1)) l2.
Proof.
  revert k. induction l1 as [|e l1 IH]; intros k; simpl.
  - rewrite Z.add_0_r. naive_solver.
  - rewrite IH. replace (k + 1 + Z.of_nat (length l1)) with (k + Z.of_nat (S (length l1))) by lia.
    naive_solver.
Qed.

Lemma contiguous_lookup k l i e :
  contiguous k l -> l !! i = Some e -> sequence e = k + Z.of_nat i + 1.
Proof.
  revert k i. induction l as [|x l IH]; intros k [|i]; simpl; try done.
  - intros [? _] [= ->]. lia.
  - intros [_ Hl] He. rewrite (IH _ _ Hl He). lia.
Qed.

Lemma contiguous_last k l e :
  contiguous k l -> last l = Some e -> sequence e = k + Z.of_nat (length l).
Proof.
  intros Hc Hl. rewrite last_lookup in Hl.
  assert (l <> []) by (intros ->; done).
  rewrite (contiguous_lookup _ _ _ _ Hc Hl). destruct l; [done|]. simpl. lia.
Qed.

Lemma valid_stream_nil id : valid_stream id [].
Proof. split; simpl; constructor. Qed.

Lemma valid_stream_app id l1 l2 :
  valid_stream id (l1 ++ l2) <->
  valid_stream id l1 /\ Forall (fun e => event_id e <> 0) l2 /\ NoDup (map event_id l2)
  /\ (forall u, u ∈ map event_id l1 -> u ∉ map event_id l2)
  /\ Forall (fun e => aggregate_id e = id) l2 /\ contiguous (Z.of_nat (length l1)) l2.
Proof.
  split.
  - intros [Hi Hn Ho Hc].
    rewrite Forall_app in Hi, Ho. rewrite map_app, NoDup_app in Hn. rewrite contiguous_app in Hc.
    destruct Hi, Ho, Hn as (?&?&?), Hc. split_and!; try done.
  - intros ([Hi Hn Ho Hc]&?&?&?&?&?). split.
    + by rewrite Forall_app.
    + rewrite map_app, NoDup_app. naive_solver.
    + by rewrite Forall_app.
    + rewrite contiguous_app. by split.
Qed.

Lemma valid_stream_snoc id pre e :
  valid_stream id (pre ++ [e]) <->
  valid_stream id pre /\ (event_id e <> 0) /\ (event_id e ∉ map event_id pre)
  /\ aggregate_id e = id /\ sequence e = Z.of_nat (length pre) + 1.
Proof.
  rewrite valid_stream_app, !Forall_singleton. simpl.
  split.
  - intros (?&?&_&Hd&?&?&_). split_and!; try done. intros Hin. apply (Hd _ Hin). set_solver.
  - intros (?&?&Hd&?&?). split_and!; try done; [apply NoDup_singleton|set_solver].
Qed.

Lemma valid_stream_last id l e :
  valid_stream id l -> last l = Some e -> sequence e = Z.of_nat (length l).
Proof. intros [_ _ _ Hc] Hl. rewrite (contiguous_last _ _ _ Hc Hl). lia. Qed.

End Envelope.
End Envelope.


Module EnvelopeFacts.
Import Envelope.
Section EnvelopeFacts.
Context {E : Type}.
Implicit Types (e : EventEnvelope E) (pre rest stream : list (EventEnvelope E)).

Lemma expected_sequence_at_small i : 0 <= i < U64_MAX -> expected_sequence_at i = i + 1.
Proof.
  intros. unfold expected_sequence_at.
  destruct (checked_add U64_MAX i 1) eqn:Hc.
  - apply checked_add_Some in Hc. lia.
  - apply checked_add_None in Hc. lia.
Qed.

(** One iteration of the validation loop after a valid prefix. *)
Lemma validate_step id pre e rest :
  Z.of_nat (length pre) < U64_MAX -> valid_stream id pre ->
  let go := validate_stream_from id (list_to_set (map event_id pre)) (Z.of_nat (length pre)) in
  (valid_stream id (pre ++ [e])
   /\ go (e :: rest) = validate_stream_from id (list_to_set (map event_id (pre ++ [e])))
                         (Z.of_nat (length (pre ++ [e]))) rest)
  \/ (exists err, bad_next id pre e err /\ go (e :: rest) = Err err).
Proof.
  intros Hlen Hpre go. subst go. simpl. unfold validate, is_nil.
  destruct (Z.eqb_spec (event_id e) 0) as [Hz|Hz]; simpl.
  { right. exists NilEventId. by split. }
  rewrite expected_sequence_at_small by lia.
  case_bool_decide as Hdup; simpl.
  { rewrite elem_of_list_to_set in Hdup. right. eexists. split; [|done]. by split_and!. }
  rewrite elem_of_list_to_set in Hdup.
  case_bool_decide as Hid; simpl.
  2:{ right. eexists. split; [|done]. simpl. split_and!; done. }
  destruct (Z.eqb_spec (sequence e) (Z.of_nat (length pre) + 1)) as [Hs|Hs]; simpl.
  2:{ right. eexists. split; [|done]. simpl. split_and!; done. }
  left. split.
  - apply valid_stream_snoc. by split_and!.
  - f_equal.
    + rewrite map_app, list_to_set_app_L. simpl. set_solver.
    + rewrite length_app. simpl. lia.
Qed.

Lemma valid_not_bad id pre e err : valid_stream id (pre ++ [e]) -> ~ bad_next id pre e err.
Proof.
  rewrite valid_stream_snoc. intros (_&?&?&?&?) Hbad.
  destruct err; simpl in Hbad; try naive_solver congruence.
Qed.

Lemma bad_next_det id pre e err err' :
  bad_next id pre e err -> bad_next id pre e err' -> err = err'.
Proof. destruct err, err'; simpl; naive_solver congruence. Qed.

Lemma validate_loop id pre rest :
  Z.of_nat (length (pre ++ rest)) <= U64_MAX -> valid_stream id pre ->
  let r := validate_stream_from id (list_to_set (map event_id pre)) (Z.of_nat (length pre)) rest in
  (r = Ok tt <-> valid_stream id (pre ++ rest))
  /\ (forall err, r = Err err <->
       exists mid e post, rest = mid ++ e :: post /\ valid_stream id (pre ++ mid)
                          /\ bad_next id (pre ++ mid) e err).
Proof.
  revert pre. induction rest as [|e rest IH]; intros pre Hlen Hpre r; subst r.
  { simpl. rewrite app_nil_r. split; [done|]. intros err. split; [done|].
    intros ([|]&?&?&?&_); simplify_list_eq. }
  destruct (validate_step id pre e rest) as [[Hv Hgo]|(err0&Hbad&Hgo)]; [..|].
  1: rewrite length_app in Hlen; simpl in Hlen; lia.
  1: done.
  - simpl in Hgo |- *. rewrite Hgo. destruct (IH (pre ++ [e])) as [IHok IHerr]; [|done|].
    { by rewrite <- app_assoc. }
    rewrite <- app_assoc in IHok. split; [done|]. intros err. rewrite IHerr. split.
    + intros (mid&e'&post&->&?&?). exists (e :: mid), e', post.
      rewrite <- app_assoc in *. done.
    + intros ([|e1 mid]&e'&post&Heq&Hm&Hb); simplify_list_eq.
      * by apply valid_not_bad in Hb.
      * exists mid, e', post. rewrite <- app_assoc. done.
  - simpl in Hgo |- *. rewrite Hgo. split.
    + split; [done|]. intros Hv. exfalso. revert Hbad. apply valid_not_bad.
      replace (pre ++ e :: rest) with ((pre ++ [e]) ++ rest) in Hv by by rewrite <- app_assoc.
      by apply valid_stream_app in Hv as [? _].
    + intros err. split.
      * intros [= ->]. exists [], e, rest. by rewrite app_nil_r.
      * intros ([|e1 mid]&e'&post&Heq&Hm&Hb); simplify_list_eq.
        -- f_equal. by eapply bad_next_det.
        -- exfalso. revert Hbad. apply valid_not_bad.
           replace (pre ++ e1 :: mid) with ((pre ++ [e1]) ++ mid) in Hm by by rewrite <- app_assoc.
           by apply valid_stream_app in Hm as [? _].
Qed.

Lemma validate_stream_ok id stream :
  Z.of_nat (length stream) <= U64_MAX ->
  (validate_stream id stream = Ok tt) <-> valid_stream id stream.
Proof.
  intros Hlen. apply (validate_loop id [] stream Hlen). apply valid_stream_nil.
Qed.

Lemma validate_stream_valid id stream :
  Z.of_nat (length stream) <= U64_MAX -> valid_stream id stream ->
  validate_stream id stream = Ok tt.
Proof. intros. by apply validate_stream_ok. Qed.

(** C20: [validate_stream] accepts exactly the valid streams, and the error it
    returns on any other stream is the reason for which the first envelope that
    does not extend a valid prefix is bad, in the order of the checks: nil id,
    duplicate id, other owner, sequence gap. *)
Theorem validate_stream_spec id stream :
  Z.of_nat (length stream) <= U64_MAX ->
  (validate_stream id stream = Ok tt <-> valid_stream id stream)
  /\ (forall err, validate_stream id stream = Err err <->
       exists pre e post, stream = pre ++ e :: post /\ valid_stream id pre
                          /\ bad_next id pre e err).
Proof. intros Hlen. apply (validate_loop id [] stream Hlen). apply valid_stream_nil. Qed.
End EnvelopeFacts.

Lemma validate_stream_spec_witness :
  let e1 := mkEnvelope 7 (AggregateId_new 1) 1 0 None None tt in
  let e2 := mkEnvelope 7 (AggregateId_new 1) 2 0 None None tt in
  (validate_stream (AggregateId_new 1) [e1] = Ok tt <-> valid_stream (AggregateId_new 1) [e1])
  /\ exists pre e post, [e1; e2] = pre ++ e :: post /\ valid_stream (AggregateId_new 1) pre
                        /\ bad_next (AggregateId_new 1) pre e (DuplicateEventId 7).
Proof.
  intros e1 e2. split.
  - apply (validate_stream_spec (AggregateId_new 1) [e1]). vm_compute. discriminate.
  - apply (validate_stream_spec (AggregateId_new 1) [e1; e2]); [vm_compute; discriminate|].
    vm_compute. reflexivity.
Defined.
End EnvelopeFacts.
