(* ===== verification/Store.v ===== *)
(** * Event stores and buses

    The [EventStore] and [EventBus] ports of [cherry-pit-core] as records of
    operations ([src/crates/cherry-pit-core/src/store.rs], [bus.rs]), the
    contract the port documents as a class of laws over an abstract view of
    the store, and the in-memory store, bus and projection store of
    [testing.rs] with the proof that the store discharges the contract.

    A port operation is a function from the state of the adapter to its new
    state and its result.  The state of an adapter contains the sources of
    identifiers and time it draws from ([World]). *)

From S2P Require Import Prelude Core.
Import Envelope EnvelopeFacts.
Local Open Scope result_scope.

(** ** The ports *)

Record EventStore (Ev : Type) := mkEventStore {
  es_state : Type;
  es_load : es_state -> AggregateId ->
            es_state * result (list (EventEnvelope Ev)) StoreError;
  es_create : es_state -> list Ev -> CorrelationContext ->
              es_state * result (AggregateId * list (EventEnvelope Ev)) StoreError;
  es_append : es_state -> AggregateId -> Z -> list Ev -> CorrelationContext ->
              es_state * result (list (EventEnvelope Ev)) StoreError;
}.
Arguments es_state {Ev}. Arguments es_load {Ev}. Arguments es_create {Ev}.
Arguments es_append {Ev}.

Record EventBus (Ev : Type) := mkEventBus {
  eb_state : Type;
  eb_publish : eb_state -> list (EventEnvelope Ev) -> eb_state * result unit BusError;
}.
Arguments eb_state {Ev}. Arguments eb_publish {Ev}.

(** The envelopes a store writes for a batch: one per event, in order, with
    the payload and the correlation pair of the call. *)
Definition stamped {Ev} (id : AggregateId) (ctx : CorrelationContext) (events : list Ev)
    (envs : list (EventEnvelope Ev)) : Prop :=
  Forall2 (fun ev env => payload env = ev /\ aggregate_id env = id
                         /\ env_correlation_id env = correlation_id ctx
                         /\ env_causation_id env = causation_id ctx) events envs.

(** An error after which the caller knows that nothing was written. *)
Definition definite (e : StoreError) : Prop :=
  StoreError_category e <> ReconciliationRequired.

Lemma indeterminate_not_definite b : ~ definite (Indeterminate b).
Proof. intros H. by apply H. Qed.

(** ** The contract of the [EventStore] port

    It is stated over an invariant and a view of the store: the history of
    every aggregate. *)
Section Contract.
Context {St Ev : Type} (Inv : St -> Prop) (view : St -> AggregateId -> list (EventEnvelope Ev)).

(** [load] changes nothing and, when it succeeds, returns the history. *)
Definition load_contract (s : St) (id : AggregateId) (s' : St)
    (r : result (list (EventEnvelope Ev)) StoreError) : Prop :=
  Inv s' /\ (forall j, view s' j = view s j) /\ (forall l, r = Ok l -> l = view s id).

(** [create] writes the batch as the history of a fresh aggregate, and nothing
    else; when it fails it wrote nothing, unless the failure is one after which
    the caller cannot know, in which case it wrote all or nothing. *)
Definition create_contract (s : St) (events : list Ev) (ctx : CorrelationContext) (s' : St)
    (r : result (AggregateId * list (EventEnvelope Ev)) StoreError) : Prop :=
  Inv s' /\
  match r with
  | Ok (id, envs) => events <> [] /\ view s id = [] /\ view s' id = envs
                     /\ (forall j, j <> id -> view s' j = view s j)
                     /\ stamped id ctx events envs
  | Err e => (forall j, view s' j = view s j)
             \/ (~ definite e /\ exists id, view s id = []
                                /\ (forall j, j <> id -> view s' j = view s j)
                                /\ stamped id ctx events (view s' id))
  end.

(** [append] extends the history of [id] by the batch, for a non-empty batch
    only when [expected] is its length. *)
Definition append_contract (s : St) (id : AggregateId) (expected : Z) (events : list Ev)
    (ctx : CorrelationContext) (s' : St) (r : result (list (EventEnvelope Ev)) StoreError) : Prop :=
  Inv s' /\
  match r with
  | Ok envs => (forall j, j <> id -> view s' j = view s j)
               /\ view s' id = view s id ++ envs
               /\ stamped id ctx events envs
               /\ (events <> [] -> view s id <> []
                                   /\ expected = Z.of_nat (length (view s id)))
  | Err e => (forall j, view s' j = view s j)
             \/ (~ definite e /\ (forall j, j <> id -> view s' j = view s j)
                 /\ exists envs, view s' id = view s id ++ envs
                                 /\ stamped id ctx events envs)
  end.
End Contract.

Class EventStoreLaws {Ev} (S : EventStore Ev) (Inv : es_state S -> Prop)
    (view : es_state S -> AggregateId -> list (EventEnvelope Ev)) : Prop := {
  law_valid s id : Inv s -> valid_stream id (view s id);
  law_load s id s' r :
    Inv s -> es_load S s id = (s', r) -> load_contract Inv view s id s' r;
  law_create s events ctx s' r :
    Inv s -> es_create S s events ctx = (s', r) -> create_contract Inv view s events ctx s' r;
  law_append s id expected events ctx s' r :
    Inv s -> es_append S s id expected events ctx = (s', r) ->
    append_contract Inv view s id expected events ctx s' r;
}.

(** What clients need of a failed write: histories only grew, and did not when
    the failure is definite. *)
Section Failures.
Context {Ev} (S : EventStore Ev) (Inv : es_state S -> Prop)
        (view : es_state S -> AggregateId -> list (EventEnvelope Ev)).
Context {laws : EventStoreLaws S Inv view}.

Lemma create_err_views s events ctx s' e :
  Inv s -> es_create S s events ctx = (s', Err e) ->
  Inv s' /\ (forall j, view s j `prefix_of` view s' j)
  /\ (definite e -> forall j, view s' j = view s j).
Proof.
  intros HI Hc. destruct (law_create _ _ _ _ _ HI Hc) as [HI' Hv]. split; [done|].
  destruct Hv as [Hv|(Hd&id&Hnil&Ho&_)].
  - split; [|done]. intros j. by rewrite Hv.
  - split; [|done]. intros j. destruct (decide (j = id)) as [->|Hj].
    + rewrite Hnil. apply prefix_nil.
    + by rewrite Ho.
Qed.

Lemma append_err_views s id q events ctx s' e :
  Inv s -> es_append S s id q events ctx = (s', Err e) ->
  Inv s' /\ (forall j, view s j `prefix_of` view s' j)
  /\ (definite e -> forall j, view s' j = view s j).
Proof.
  intros HI Hc. destruct (law_append _ _ _ _ _ _ _ HI Hc) as [HI' Hv]. split; [done|].
  destruct Hv as [Hv|(Hd&Ho&envs&Hn&_)].
  - split; [|done]. intros j. by rewrite Hv.
  - split; [|done]. intros j. destruct (decide (j = id)) as [->|Hj].
    + rewrite Hn. by apply prefix_app_r.
    + by rewrite Ho.
Qed.
End Failures.

(** ** Sources of identifiers and time

    [uuid::Uuid::now_v7] and [jiff::Timestamp::now] are drawn from streams
    indexed by the number of draws made so far. *)

Record World := mkWorld {
  uuid_at : nat -> Uuid;
  now_at : nat -> Timestamp;
  uuid_drawn : nat;
  now_read : nat;
}.

Definition now_v7 (w : World) : World * Uuid :=
  (mkWorld (uuid_at w) (now_at w) (S (uuid_drawn w)) (now_read w), uuid_at w (uuid_drawn w)).

Definition timestamp_now (w : World) : World * Timestamp :=
  (mkWorld (uuid_at w) (now_at w) (uuid_drawn w) (S (now_read w)), now_at w (now_read w)).

(** What the [uuid] crate documents of version-7 identifiers: never nil, and
    distinct from one another. *)
Definition v7_source (w : World) : Prop :=
  (forall i, uuid_at w i <> 0) /\ (forall i j, uuid_at w i = uuid_at w j -> i = j).

(** ** [InMemoryEventStore] *)

Module InMemory.
Section InMemory.
Context {Ev : Type}.

Record InMemoryEventStore := mkStore {
  streams : gmap AggregateId (list (EventEnvelope Ev));
  next_id : Z;
  world : World;
}.

(** [InMemoryEventStore::new]. *)
Definition new (w : World) : InMemoryEventStore := mkStore ∅ 1 w.

(** The loop of [build_envelopes] from its [i]-th iteration. *)
Fixpoint build_loop (w : World) (id : AggregateId) (start_sequence : Z) (ts : Timestamp)
    (i : Z) (events : list Ev) (context : CorrelationContext)
    : World * result (list (EventEnvelope Ev)) StoreError :=
  match events with
  | [] => (w, Ok [])
  | event :: rest =>
      let i_u64 := clamp U64_MAX i in
      match checked_add U64_MAX start_sequence i_u64 ≫= (fun s => checked_add U64_MAX s 1) with
      | None => (w, Err (Infrastructure (BoxMsg "sequence overflow")))
      | Some raw =>
          match NonZeroU64_new raw with
          | None => (w, Err (Infrastructure (BoxMsg "sequence must be non-zero")))
          | Some sequence =>
              let '(w, u) := now_v7 w in
              match Envelope.new u id sequence ts (correlation_id context)
                      (causation_id context) event with
              | Err e => (w, Err (Infrastructure (BoxEnvelope e)))
              | Ok envelope =>
                  let '(w, r) := build_loop w id start_sequence ts (i + 1) rest context in
                  (w, map_ok (cons envelope) r)
              end
          end
      end
  end.

(** [build_envelopes]: one timestamp for the batch. *)
Definition build_envelopes (w : World) (id : AggregateId) (start_sequence : Z)
    (events : list Ev) (context : CorrelationContext)
    : World * result (list (EventEnvelope Ev)) StoreError :=
  let '(w, ts) := timestamp_now w in
  build_loop w id start_sequence ts 0 events context.

(** [streams.get(&id).cloned().unwrap_or_default()]. *)
Definition stream_of (s : InMemoryEventStore) (id : AggregateId) : list (EventEnvelope Ev) :=
  default [] (streams s !! id).

(** [EventStore::load]. *)
Definition load (s : InMemoryEventStore) (id : AggregateId)
    : InMemoryEventStore * result (list (EventEnvelope Ev)) StoreError :=
  let stream := stream_of s id in
  (s, let? _ := map_err (fun e => CorruptData (BoxEnvelope e)) (validate_stream id stream) in
      Ok stream).

(** [EventStore::create]: the identifier is consumed before the envelopes are
    built. *)
Definition create (s : InMemoryEventStore) (events : list Ev) (context : CorrelationContext)
    : InMemoryEventStore * result (AggregateId * list (EventEnvelope Ev)) StoreError :=
  match events with
  | [] => (s, Err (Infrastructure (BoxMsg "cannot create aggregate with zero events")))
  | _ =>
      let id := AggregateId_new (next_id s) in
      match checked_add U64_MAX (next_id s) 1 with
      | None => (s, Err (Infrastructure (BoxMsg "aggregate ID overflow")))
      | Some bumped =>
          let '(w, r) := build_envelopes (world s) id 0 events context in
          match r with
          | Err e => (mkStore (streams s) bumped w, Err e)
          | Ok envelopes => (mkStore (<[id := envelopes]> (streams s)) bumped w,
                             Ok (id, envelopes))
          end
      end
  end.

(** [EventStore::append]. *)
Definition append (s : InMemoryEventStore) (id : AggregateId) (expected_sequence : Z)
    (events : list Ev) (context : CorrelationContext)
    : InMemoryEventStore * result (list (EventEnvelope Ev)) StoreError :=
  match events with
  | [] => (s, Ok [])
  | _ =>
      match streams s !! id with
      | None => (s, Err (Infrastructure (BoxMsg
                   ("cannot append to aggregate " +:+ AggregateId_display id
                      +:+ ": not created (use create() first)"))))
      | Some stream =>
          let actual_sequence := from_option sequence 0 (last stream) in
          if negb (actual_sequence =? expected_sequence)
          then (s, Err (ConcurrencyConflict id expected_sequence actual_sequence))
          else
            let '(w, r) := build_envelopes (world s) id expected_sequence events context in
            match r with
            | Err e => (mkStore (streams s) (next_id s) w, Err e)
            | Ok new_envelopes =>
                (mkStore (<[id := stream ++ new_envelopes]> (streams s)) (next_id s) w,
                 Ok new_envelopes)
            end
      end
  end.

(** [ListableEventStore::list_aggregates]: the keys, in no specified order. *)
Definition list_aggregates (s : InMemoryEventStore) : result (list AggregateId) StoreError :=
  Ok (elements (dom (streams s))).

(** [EventHistoryEventStore::history] and [replay_until]. *)
Definition history := load.

Definition replay_until (s : InMemoryEventStore) (id : AggregateId) (upto : Z)
    : result (list (EventEnvelope Ev)) StoreError :=
  let? stream := snd (load s id) in
  Ok (filter (fun e => sequence e <= upto) stream).

(** The test of the [find] in the loop of [causal_chain]. *)
Definition chain_step (target_correlation : option Uuid) (current_id : Uuid)
    (envelope : EventEnvelope Ev) : bool :=
  (event_id envelope =? current_id) &&
  match target_correlation with
  | None => true
  | Some correlation => bool_decide (env_correlation_id envelope = Some correlation)
  end.

(** The [while let] loop of [causal_chain]: pushes envelopes on [chain], the
    most recent push first.  [None] when the fuel runs out. *)
Fixpoint chain_loop (fuel : nat) (stream : list (EventEnvelope Ev))
    (target_correlation : option Uuid) (next : option Uuid)
    (chain : list (EventEnvelope Ev)) : option (list (EventEnvelope Ev)) :=
  match next with
  | None => Some chain
  | Some current_id =>
      match fuel with
      | O => None
      | S fuel =>
          match find_first (chain_step target_correlation current_id) stream with
          | None => Some chain
          | Some envelope =>
              chain_loop fuel stream target_correlation (env_causation_id envelope)
                (envelope :: chain)
          end
      end
  end.

(** [EventHistoryEventStore::causal_chain].  The loop pushes at the end of a
    vector that is reversed on return: here the accumulator already has the
    order of the reversed vector. *)
Definition causal_chain (fuel : nat) (s : InMemoryEventStore) (id : AggregateId)
    (eid : Uuid) : option (result (list (EventEnvelope Ev)) StoreError) :=
  match snd (load s id) with
  | Err e => Some (Err e)
  | Ok stream =>
      let target_correlation :=
        find_first (fun e => event_id e =? eid) stream ≫= env_correlation_id in
      Ok <$> chain_loop fuel stream target_correlation (Some eid) []
  end.

(** *** The invariant of the store *)

(** Every stored stream is valid and non-empty, its sequences fit in 64 bits,
    its identifiers have been drawn, and the identifiers handed out are below
    [next_id]. *)
Record Inv (s : InMemoryEventStore) : Prop := {
  inv_source : v7_source (world s);
  inv_next : 1 <= next_id s <= U64_MAX;
  inv_stream id l : streams s !! id = Some l ->
    valid_stream id l /\ l <> [] /\ Z.of_nat (length l) <= U64_MAX
    /\ 1 <= AggregateId_get id < next_id s
    /\ Forall (fun e => exists i, (i < uuid_drawn (world s))%nat
                                  /\ event_id e = uuid_at (world s) i) l;
}.

(** The operations that change the store, as a step relation. *)
Inductive step (s : InMemoryEventStore) : InMemoryEventStore -> Prop :=
| step_create events ctx : step s (fst (create s events ctx))
| step_append id expected events ctx : step s (fst (append s id expected events ctx)).

(** Every causation identifier of the stream that names one of its events
    names an earlier one. *)
Definition causally_ordered (l : list (EventEnvelope Ev)) : Prop :=
  forall i e j e', l !! i = Some e -> l !! j = Some e' ->
    env_causation_id e = Some (event_id e') -> (j < i)%nat.

(** The causation identifier of a call does not guess an identifier that the
    source has yet to produce. *)
Definition known_cause (s : InMemoryEventStore) (ctx : CorrelationContext) : Prop :=
  forall c i, causation_id ctx = Some c -> (uuid_drawn (world s) <= i)%nat ->
    uuid_at (world s) i <> c.

(** Each envelope of a chain was caused by the one before it. *)
Fixpoint linked (chain : list (EventEnvelope Ev)) : Prop :=
  match chain with
  | e1 :: ((e2 :: _) as rest) => env_causation_id e2 = Some (event_id e1) /\ linked rest
  | _ => True
  end.

(** *** Lemmas *)

(** The source after [n] draws. *)
Definition advanced (n : nat) (w w' : World) : Prop :=
  uuid_at w' = uuid_at w /\ now_at w' = now_at w /\ uuid_drawn w' = (uuid_drawn w + n)%nat.

(** [build_envelopes] writes the batch after [start_sequence], or overflows. *)
Definition built (w w' : World) (id : AggregateId) (start : Z) (events : list Ev)
    (ctx : CorrelationContext) (r : result (list (EventEnvelope Ev)) StoreError) : Prop :=
  match r with
  | Ok envs => advanced (length events) w w' /\ stamped id ctx events envs
               /\ contiguous start envs
               /\ map event_id envs = map (uuid_at w) (seq (uuid_drawn w) (length events))
               /\ (events <> [] -> start + Z.of_nat (length events) <= U64_MAX)
  | Err e => e = Infrastructure (BoxMsg "sequence overflow")
             /\ (exists n, advanced n w w')
             /\ U64_MAX < start + Z.of_nat (length events)
  end.

Lemma advanced_refl w : advanced 0 w w.
Proof. unfold advanced. split_and!; lia || done. Qed.

Lemma build_loop_built w id start ts i events ctx w' r :
  v7_source w -> 0 <= start -> 0 <= i ->
  build_loop w id start ts i events ctx = (w', r) -> built w w' id (start + i) events ctx r.
Proof.
  intros Hsrc Hs Hi. revert w w' i r Hsrc Hi.
  induction events as [|ev rest IH]; intros w w' i r Hsrc Hi; simpl.
  { intros [= <- <-]. split_and!; try done; try constructor; apply advanced_refl. }
  destruct (checked_add U64_MAX start (clamp U64_MAX i) ≫= _) as [raw|] eqn:Hraw.
  2:{ intros [= <- <-]. split_and!; [done|exists 0%nat; apply advanced_refl|].
      unfold clamp in Hraw. simpl.
      destruct (checked_add U64_MAX start _) as [m|] eqn:Hm; simpl in Hraw.
      - apply checked_add_Some in Hm as [-> ?]. apply checked_add_None in Hraw. lia.
      - apply checked_add_None in Hm. lia. }
  assert (raw = start + i + 1 /\ start + i + 1 <= U64_MAX) as [-> Hmax].
  { apply bind_Some in Hraw as (m&Hm&Hr). apply checked_add_Some in Hm as [-> ?].
    apply checked_add_Some in Hr as [-> ?]. unfold clamp in *. lia. }
  destruct (NonZeroU64_new _) as [sq|] eqn:Hnz.
  2:{ unfold NonZeroU64_new in Hnz. destruct (Z.eqb_spec (start + i + 1) 0); [lia|done]. }
  apply NonZeroU64_new_Some in Hnz as [<- _].
  destruct (now_v7 w) as [w1 u] eqn:Hu. unfold now_v7 in Hu. injection Hu as <- <-.
  unfold Envelope.new, is_nil.
  destruct (Z.eqb_spec (uuid_at w (uuid_drawn w)) 0) as [Hz|Hz]; [by destruct (proj1 Hsrc (uuid_drawn w))|].
  destruct (build_loop _ id start ts (i + 1) rest ctx) as [w2 r2] eqn:Hrec.
  apply IH in Hrec; [|done|lia]. simpl. intros [= <- <-].
  replace (start + (i + 1)) with (start + i + 1) in Hrec by lia.
  destruct r2 as [envs|e]; simpl in *.
  - destruct Hrec as ((?&?&Hd)&Hst&Hc&Hids&Hb). simpl in *.
    split_and!; try done.
    + unfold advanced. split_and!; try done. lia.
    + constructor; [done|]. done.
    + by rewrite Hids.
    + intros _. destruct rest; simpl in *; [lia|]. specialize (Hb ltac:(done)). lia.
  - destruct Hrec as (->&(n&?&?&Hd)&?). split_and!; [done| |lia].
    exists (S n). unfold advanced. simpl in *. split_and!; try done. lia.
Qed.

Lemma build_envelopes_built w id start events ctx w' r :
  v7_source w -> 0 <= start -> build_envelopes w id start events ctx = (w', r) ->
  built w w' id start events ctx r.
Proof.
  intros Hv Hs. unfold build_envelopes. simpl. intros Hb.
  apply build_loop_built in Hb; [|done..|lia]. by rewrite Z.add_0_r in Hb.
Qed.

Lemma advanced_v7 n w w' : advanced n w w' -> v7_source w -> v7_source w'.
Proof. unfold advanced, v7_source. intros (->&_&_). done. Qed.

Lemma stamped_length id ctx events envs :
  @stamped Ev id ctx events envs -> length envs = length events.
Proof. intros H. symmetry. by eapply Forall2_length. Qed.

Lemma stamped_owner id ctx events envs :
  @stamped Ev id ctx events envs -> Forall (fun e => aggregate_id e = id) envs.
Proof. induction 1; constructor; naive_solver. Qed.

(** The identifiers of a batch are the next ones of the source. *)
Lemma drawn_ids w n envs :
  v7_source w -> map event_id envs = map (uuid_at w) (seq (uuid_drawn w) n) ->
  Forall (fun e => exists i, (uuid_drawn w <= i < uuid_drawn w + n)%nat
                             /\ event_id e = uuid_at w i) envs
  /\ NoDup (map (@event_id Ev) envs).
Proof.
  intros [Hnz Hinj] Hm. split.
  - apply Forall_forall. intros e He.
    apply (list_elem_of_fmap_2 event_id) in He.
    change (event_id <$> envs) with (map event_id envs) in He. rewrite Hm in He.
    apply list_elem_of_fmap_1 in He as (i&Hi&Hin). apply elem_of_seq in Hin. exists i. split; [lia|done].
  - rewrite Hm. apply NoDup_fmap; [|apply NoDup_seq]. intros i j. apply Hinj.
Qed.

Lemma new_inv w : v7_source w -> Inv (new w).
Proof. intros Hv. split; simpl; [done|unfold U64_MAX; lia|]. intros id l. by rewrite lookup_empty. Qed.

(** Replacing the sources by later ones and the counter by a larger one keeps
    the invariant. *)
Lemma inv_advance n s w' k :
  Inv s -> advanced n (world s) w' -> next_id s <= k <= U64_MAX ->
  Inv (mkStore (streams s) k w').
Proof.
  intros [Hsrc Hn Hs] Ha Hk. split; simpl; [by eapply advanced_v7|lia|].
  intros id l Hl. destruct (Hs id l Hl) as (?&?&?&?&Hids). split_and!; try done; try lia.
  destruct Ha as (->&_&->). eapply Forall_impl; [exact Hids|]. intros e (i&?&?). exists i. split; [lia|done].
Qed.

(** Writing a built batch at the end of a stream keeps the invariant. *)
Lemma inv_write s w' id l envs events ctx k :
  Inv s -> stream_of s id = l -> events <> [] ->
  built (world s) w' id (Z.of_nat (length l)) events ctx (Ok envs) ->
  next_id s <= k <= U64_MAX -> 1 <= AggregateId_get id < k ->
  Inv (mkStore (<[id := l ++ envs]> (streams s)) k w').
Proof.
  intros HI Hl Hne (Ha&Hst&Hc&Hids&Hb) Hk Hid.
  pose proof HI as [Hsrc Hn Hs].
  destruct (inv_advance _ _ _ _ HI Ha Hk) as [Hsrc' _ Hs']. split; [done|simpl; lia|].
  intros j l' Hj. cbn [streams] in Hj.
  destruct (decide (j = id)) as [->|Hne'].
  2:{ rewrite lookup_insert_ne in Hj by done. by apply (Hs' j l'). }
  rewrite lookup_insert_eq in Hj. injection Hj as <-.
  assert (valid_stream id l /\ Forall (fun e => exists i, (i < uuid_drawn (world s))%nat
            /\ event_id e = uuid_at (world s) i) l) as [Hvl Hold].
  { unfold stream_of in Hl. destruct (streams s !! id) as [l0|] eqn:Hl0; simpl in Hl; subst.
    - destruct (Hs id l Hl0) as (?&?&?&?&?). by split.
    - split; [apply valid_stream_nil|constructor]. }
  destruct (drawn_ids _ _ _ Hsrc Hids) as [Hnew Hnd].
  pose proof (stamped_length _ _ _ _ Hst) as Hlen.
  split_and!.
  - apply valid_stream_app. split_and!; try done.
    + eapply Forall_impl; [exact Hnew|]. intros e (i&_&->). apply (proj1 Hsrc).
    + intros u Hu Hu'. apply list_elem_of_fmap_1 in Hu as (e&->&He).
      apply list_elem_of_fmap_1 in Hu' as (e'&Heq&He').
      rewrite Forall_forall in Hold, Hnew.
      destruct (Hold e He) as (i&?&Hi), (Hnew e' He') as (i'&?&Hi').
      rewrite Hi, Hi' in Heq. apply (proj2 Hsrc) in Heq. lia.
    + by eapply stamped_owner.
  - destruct envs, l, events; done.
  - rewrite length_app, Hlen. specialize (Hb Hne). lia.
  - simpl. lia.
  - simpl. lia.
  - destruct Ha as (He&_&Hd). cbn [world]. rewrite He, Hd. apply Forall_app. split.
    + eapply Forall_impl; [exact Hold|]. intros e (i&?&?). exists i. split; [lia|done].
    + eapply Forall_impl; [exact Hnew|]. intros e (i&?&?). exists i. split; [lia|done].
Qed.

Lemma stream_of_insert s id l k w j :
  stream_of (mkStore (<[id := l]> (streams s)) k w) j = if decide (j = id) then l else stream_of s j.
Proof.
  unfold stream_of. simpl. case_decide; subst.
  - by rewrite lookup_insert_eq.
  - by rewrite lookup_insert_ne.
Qed.

Lemma stream_of_valid s id : Inv s ->
  valid_stream id (stream_of s id) /\ Z.of_nat (length (stream_of s id)) <= U64_MAX.
Proof.
  intros [_ _ Hs]. unfold stream_of. destruct (streams s !! id) as [l|] eqn:Hl; simpl.
  - destruct (Hs id l Hl) as (?&?&?&?). by split.
  - split; [apply valid_stream_nil|unfold U64_MAX; lia].
Qed.

(** The next identifier has no stream. *)
Lemma stream_of_fresh s : Inv s -> streams s !! AggregateId_new (next_id s) = None.
Proof.
  intros [_ _ Hs]. destruct (streams s !! _) as [l|] eqn:Hl; [|done].
  destruct (Hs _ l Hl) as (_&_&_&?&_). simpl in *. lia.
Qed.

(** The last sequence of a stored stream is its length. *)
Lemma actual_sequence_length s id l : Inv s -> streams s !! id = Some l ->
  from_option sequence 0 (last l) = Z.of_nat (length l) /\ (0 < length l)%nat.
Proof.
  intros HI Hl. destruct (inv_stream s HI id l Hl) as (Hv&Hne&_).
  destruct (last l) as [e|] eqn:Hlast.
  - simpl. split; [by eapply valid_stream_last|]. destruct l; [done|simpl; lia].
  - by apply last_None in Hlast.
Qed.

Lemma load_ok s id : Inv s -> load s id = (s, Ok (stream_of s id)).
Proof.
  intros HI. destruct (stream_of_valid s id HI) as [Hv Hlen].
  unfold load. by rewrite (validate_stream_valid _ _ Hlen Hv).
Qed.

(** What [create] does on each of its branches. *)
Lemma create_cases s events ctx : Inv s ->
  let '(s', r) := create s events ctx in
  let id := AggregateId_new (next_id s) in
  Inv s' /\
  ((events = [] /\ s' = s
    /\ r = Err (Infrastructure (BoxMsg "cannot create aggregate with zero events")))
   \/ (events <> [] /\ next_id s = U64_MAX /\ s' = s
       /\ r = Err (Infrastructure (BoxMsg "aggregate ID overflow")))
   \/ (U64_MAX < Z.of_nat (length events) /\ streams s' = streams s
       /\ next_id s' = next_id s + 1 /\ (exists n, advanced n (world s) (world s'))
       /\ r = Err (Infrastructure (BoxMsg "sequence overflow")))
   \/ (exists envs, events <> [] /\ next_id s < U64_MAX /\ r = Ok (id, envs)
         /\ stamped id ctx events envs /\ next_id s' = next_id s + 1
         /\ streams s' = <[id := envs]> (streams s)
         /\ built (world s) (world s') id 0 events ctx (Ok envs))).
Proof.
  intros HI. unfold create.
  destruct events as [|ev rest]; [split; [done|by left]|].
  set (events := ev :: rest). assert (Hne : events <> []) by done.
  pose proof (inv_next s HI) as Hn.
  destruct (checked_add U64_MAX (next_id s) 1) as [bumped|] eqn:Hb.
  2:{ apply checked_add_None in Hb. split; [done|]. right; left. split_and!; try done. lia. }
  apply checked_add_Some in Hb as [-> Hb].
  destruct (build_envelopes _ _ _ _ _) as [w' r] eqn:Hr.
  apply build_envelopes_built in Hr; [|apply HI|lia].
  destruct r as [envs|e].
  - assert (Hfresh : stream_of s (AggregateId_new (next_id s)) = []).
    { unfold stream_of. by rewrite stream_of_fresh. }
    split.
    + apply (inv_write s w' _ [] envs events ctx); simpl; try done; lia.
    + do 3 right. exists envs. pose proof Hr as (_&?&_). split_and!; try done; lia.
  - destruct Hr as (->&(n&Ha)&Ho). split.
    + eapply inv_advance; [done..|]. lia.
    + do 2 right. left. split_and!; try done. by exists n.
Qed.

(** What [append] does on each of its branches. *)
Lemma append_cases s id expected events ctx : Inv s ->
  let '(s', r) := append s id expected events ctx in
  let actual := Z.of_nat (length (stream_of s id)) in
  Inv s' /\
  ((events = [] /\ s' = s /\ r = Ok [])
   \/ (events <> [] /\ streams s !! id = None /\ s' = s
       /\ r = Err (Infrastructure (BoxMsg
                   ("cannot append to aggregate " +:+ AggregateId_display id
                      +:+ ": not created (use create() first)"))))
   \/ (events <> [] /\ 0 < actual /\ actual <> expected /\ s' = s
       /\ r = Err (ConcurrencyConflict id expected actual))
   \/ (0 < actual /\ actual = expected /\ U64_MAX < expected + Z.of_nat (length events)
       /\ streams s' = streams s /\ (exists n, advanced n (world s) (world s'))
       /\ r = Err (Infrastructure (BoxMsg "sequence overflow")))
   \/ (exists envs, events <> [] /\ 0 < actual /\ actual = expected /\ r = Ok envs
         /\ stamped id ctx events envs
         /\ streams s' = <[id := stream_of s id ++ envs]> (streams s)
         /\ built (world s) (world s') id expected events ctx (Ok envs))).
Proof.
  intros HI. unfold append.
  destruct events as [|ev rest]; [split; [done|by left]|].
  set (events := ev :: rest). assert (Hne : events <> []) by done.
  destruct (streams s !! id) as [l|] eqn:Hl.
  2:{ split; [done|]. right; left. done. }
  destruct (actual_sequence_length s id l HI Hl) as [Hlast Hpos].
  assert (Hso : stream_of s id = l) by (unfold stream_of; by rewrite Hl).
  rewrite Hlast, Hso.
  destruct (Z.eqb_spec (Z.of_nat (length l)) expected) as [He|He]; cbn [negb].
  2:{ split; [done|]. do 2 right; left. split_and!; try done. lia. }
  destruct (build_envelopes _ _ _ _ _) as [w' r] eqn:Hr.
  apply build_envelopes_built in Hr; [|apply HI|lia].
  destruct (inv_stream s HI id l Hl) as (_&_&_&Hid&_).
  pose proof (inv_next s HI) as Hn.
  destruct r as [envs|e].
  - split.
    + apply (inv_write s w' _ l envs events ctx); try done; [by rewrite He|lia].
    + do 4 right. exists envs. pose proof Hr as (_&?&_). split_and!; try done; lia.
  - destruct Hr as (->&(n&Ha)&Ho). split.
    + eapply inv_advance; [done..|]. lia.
    + do 3 right. left. split_and!; try done; [lia|by exists n].
Qed.

(** Histories only grow. *)
Lemma step_view s s' id : Inv s -> step s s' ->
  Inv s' /\ stream_of s id `prefix_of` stream_of s' id.
Proof.
  intros HI Hstep. destruct Hstep as [events ctx|j expected events ctx].
  - pose proof (create_cases s events ctx HI) as H.
    destruct (create s events ctx) as [s' r]; simpl.
    destruct H as [HI' [(_&->&_)|[(_&_&->&_)|[(_&Hs&_)|(envs&_&_&_&_&_&Hs&_)]]]]; (split; [done|]);
      unfold stream_of; try rewrite Hs; try done.
    destruct (decide (id = AggregateId_new (next_id s))) as [->|Hne].
    + rewrite stream_of_fresh by done. apply prefix_nil.
    + by rewrite lookup_insert_ne.
  - pose proof (append_cases s j expected events ctx HI) as H.
    destruct (append s j expected events ctx) as [s' r]; simpl.
    destruct H as [HI' [(_&->&_)|[(_&_&->&_)|[(_&_&_&->&_)|[(_&_&_&Hs&_)|(envs&_&_&_&_&_&Hs&_)]]]]];
      (split; [done|]); try done; unfold stream_of at 2; rewrite Hs; [done|].
    destruct (decide (id = j)) as [->|Hne].
    + rewrite lookup_insert_eq. by apply prefix_app_r.
    + by rewrite lookup_insert_ne.
Qed.

Lemma step_inv s s' : Inv s -> step s s' -> Inv s'.
Proof. intros HI Hs. by apply (step_view s s' (AggregateId_new 1)). Qed.

(** *** Causal chains *)

Lemma linked_cons e e' l :
  env_causation_id e' = Some (event_id e) -> linked (e' :: l) -> linked (e :: e' :: l).
Proof. done. Qed.

Local Ltac stop := exists []; simpl; split_and!; first [done | lia].

(** The walk from an event that can only go to earlier positions stops within
    as many rounds as there are earlier positions. *)
Lemma chain_loop_stops l corr next chain n :
  causally_ordered l -> NoDup (map event_id l) ->
  (forall c e i, next = Some c -> l !! i = Some e -> event_id e = c -> (i < n)%nat) ->
  linked chain ->
  (forall e, head chain = Some e -> env_causation_id e = next) ->
  Forall (fun e => e ∈ l) chain ->
  exists pre, chain_loop (S n) l corr next chain = Some (pre ++ chain)
              /\ linked (pre ++ chain) /\ Forall (fun e => e ∈ l) (pre ++ chain)
              /\ (length pre <= n)%nat.
Proof.
  intros Hord Hnd. revert next chain. induction n as [|n IH]; intros next chain Hpos Hlink Hhd Hin.
  - destruct next as [c|]; simpl; [|stop].
    destruct (find_first _ l) as [e|] eqn:Hf; [|stop].
    apply find_first_Some in Hf as [He Hp]. apply list_elem_of_lookup in He as [i Hi].
    unfold chain_step in Hp. to_prop. specialize (Hpos c e i eq_refl Hi). lia.
  - destruct next as [c|]; [|stop].
    change (chain_loop (S (S n)) l corr (Some c) chain) with
      (match find_first (chain_step corr c) l with
       | None => Some chain
       | Some e => chain_loop (S n) l corr (env_causation_id e) (e :: chain)
       end).
    destruct (find_first _ l) as [e|] eqn:Hf; [|stop].
    apply find_first_Some in Hf as [He Hp]. unfold chain_step in Hp. to_prop.
    pose proof He as He'. apply list_elem_of_lookup in He' as [i Hi].
    assert (Hin' : (i < S n)%nat) by by apply (Hpos c e i).
    destruct (IH (env_causation_id e) (e :: chain)) as (pre&Hrun&Hl&Hm&Hlen).
    + intros c' e' j Hc Hj <-. pose proof (Hord i e j e' Hi Hj Hc). lia.
    + destruct chain as [|e2 chain]; [done|]. split; [|done].
      rewrite (Hhd e2 eq_refl). by f_equal.
    + intros e' [= <-]. done.
    + by constructor.
    + exists (pre ++ [e]). rewrite <- app_assoc. simpl. split_and!; try done.
      rewrite length_app. simpl. lia.
Qed.

Lemma causally_ordered_nil : causally_ordered [].
Proof. intros i e j e' Hi. by rewrite lookup_nil in Hi. Qed.

Lemma causally_ordered_app w n l envs ctx events :
  v7_source w -> causally_ordered l ->
  Forall (fun e => exists i, (i < uuid_drawn w)%nat /\ event_id e = uuid_at w i) l ->
  (forall e c i, e ∈ l -> env_causation_id e = Some c -> (uuid_drawn w <= i)%nat ->
     uuid_at w i <> c) ->
  map event_id envs = map (uuid_at w) (seq (uuid_drawn w) n) ->
  (exists id, stamped id ctx events envs) ->
  (forall c i, causation_id ctx = Some c -> (uuid_drawn w <= i)%nat -> uuid_at w i <> c) ->
  causally_ordered (l ++ envs).
Proof.
  intros Hv Hord Hold Hcause Hids [id Hst] Hk i e j e' Hi Hj Hc.
  destruct (drawn_ids w n envs Hv Hids) as [Hnew _]. rewrite Forall_forall in Hnew.
  destruct (decide (j < length l)%nat) as [Hjl|Hjl].
  - destruct (decide (i < length l)%nat) as [Hil|Hil]; [|lia].
    rewrite lookup_app_l in Hi, Hj by done. by apply (Hord i e j e').
  - rewrite lookup_app_r in Hj by lia.
    destruct (Hnew e') as (k&Hk1&Hk2); [by eapply list_elem_of_lookup_2|].
    rewrite Hk2 in Hc. exfalso.
    destruct (decide (i < length l)%nat) as [Hil|Hil].
    + rewrite lookup_app_l in Hi by done.
      apply (Hcause e (uuid_at w k) k); [by eapply list_elem_of_lookup_2|done|lia|done].
    + rewrite lookup_app_r in Hi by lia.
      destruct (Forall2_lookup_r _ _ _ _ _ Hst Hi) as (ev&_&_&_&_&Hcz).
      rewrite Hcz in Hc. apply (Hk _ k Hc); [lia|done].
Qed.
End InMemory.
Arguments InMemoryEventStore : clear implicits.

Definition store (Ev : Type) : EventStore Ev :=
  mkEventStore Ev (InMemoryEventStore Ev) load create append.

(** The store discharges the contract of the port. *)
#[global] Instance store_laws (Ev : Type) :
  EventStoreLaws (store Ev) Inv stream_of.
Proof.
  split.
  - intros s id HI. by apply stream_of_valid.
  - simpl. intros s id s' r HI. rewrite load_ok by done. intros [= <- <-].
    split_and!; try done. congruence.
  - simpl. intros s events ctx s' r HI Hc.
    pose proof (create_cases s events ctx HI) as H. rewrite Hc in H.
    destruct H as [HI' H]. split; [done|]. unfold stream_of.
    destruct H as [(_&->&->)|[(_&_&->&->)|[(_&Hs&_&_&->)|(envs&Hne&_&->&Hst&_&Hs&_)]]];
      [by left..|left; intros j; by rewrite Hs|].
    split_and!; try done.
    + by rewrite stream_of_fresh.
    + by rewrite Hs, lookup_insert_eq.
    + intros j Hj. by rewrite Hs, lookup_insert_ne.
  - simpl. intros s id expected events ctx s' r HI Hc.
    pose proof (append_cases s id expected events ctx HI) as H. rewrite Hc in H.
    destruct H as [HI' H]. split; [done|].
    destruct H as [(->&->&->)|[(_&_&->&->)|[(_&_&_&->&->)|[(_&_&_&Hs&_&->)|(envs&Hne&Hpos&<-&->&Hst&Hs&_)]]]].
    + split_and!; try done; [by rewrite app_nil_r|constructor].
    + by left.
    + by left.
    + left. intros j. unfold stream_of. by rewrite Hs.
    + split_and!; try done.
      * intros j Hj. unfold stream_of. by rewrite Hs, lookup_insert_ne.
      * unfold stream_of at 1. by rewrite Hs, lookup_insert_eq.
      * intros _. split; [|done]. destruct (stream_of s id); simpl in *; [lia|done].
Qed.
End InMemory.

(** ** [FakeBus]: records what is published and never fails *)

Definition FakeBus_publish {Ev} (published : list (EventEnvelope Ev))
    (events : list (EventEnvelope Ev)) : list (EventEnvelope Ev) * result unit BusError :=
  (published ++ events, Ok tt).

Definition FakeBus (Ev : Type) : EventBus Ev :=
  mkEventBus Ev (list (EventEnvelope Ev)) FakeBus_publish.

(** ** [InMemoryProjectionStore] *)

Module InMemoryProjectionStore.
Section ProjectionStore.
Context {P : Type}.

Record InMemoryProjectionStore := mkProjectionStore {
  projection_name : string;
  snapshots : gmap AggregateId P;
  checkpoints : gmap AggregateId Z;
}.

Definition new (projection_name : string) : InMemoryProjectionStore :=
  mkProjectionStore projection_name ∅ ∅.

Definition load_snapshot (s : InMemoryProjectionStore) (id : AggregateId) : option P :=
  snapshots s !! id.

Definition load_checkpoint (s : InMemoryProjectionStore) (id : AggregateId) : option Z :=
  checkpoints s !! id.

Definition persist (s : InMemoryProjectionStore) (id : AggregateId) (projection : P)
    (last_sequence : Z) : InMemoryProjectionStore :=
  mkProjectionStore (projection_name s) (<[id := projection]> (snapshots s))
    (<[id := last_sequence]> (checkpoints s)).

Definition delete (s : InMemoryProjectionStore) (id : AggregateId) : InMemoryProjectionStore :=
  mkProjectionStore (projection_name s) (base.delete id (snapshots s))
    (base.delete id (checkpoints s)).

Inductive step (s : InMemoryProjectionStore) : InMemoryProjectionStore -> Prop :=
| step_persist id p n : step s (persist s id p n)
| step_delete id : step s (delete s id).

(** A snapshot exists exactly when its checkpoint does. *)
Definition paired (s : InMemoryProjectionStore) : Prop :=
  forall id, is_Some (load_snapshot s id) <-> is_Some (load_checkpoint s id).

Lemma step_paired s s' : paired s -> step s s' -> paired s'.
Proof.
  intros Hp [id p n|id] j; unfold load_snapshot, load_checkpoint; simpl;
    destruct (decide (id = j)) as [->|Hne];
    rewrite ?lookup_insert_eq, ?lookup_insert_ne, ?lookup_delete_eq, ?lookup_delete_ne by done;
    try apply Hp; by split.
Qed.
End ProjectionStore.
Arguments InMemoryProjectionStore : clear implicits.
End InMemoryProjectionStore.

(** ** The conformance scenarios of [testing::conformance]

    Each scenario drives a fresh store through the port and returns [false]
    where the source panics. *)

Module Conformance.
Section Conformance.
Context {Ev : Type} (S : EventStore Ev).
Context (make_store : es_state S) (make_event : Z -> Ev).

(** A run of [append]s of one event each, [last_seq] being the sequence of the
    last envelope written.  [None] when one of them fails, returns no envelope
    or, where the scenario asserts it ([one]), more than one. *)
Fixpoint append_each (one : bool) (s : es_state S) (id : AggregateId) (last_seq : Z)
    (indices : list Z) : option (es_state S * list (EventEnvelope Ev)) :=
  match indices with
  | [] => Some (s, [])
  | i :: rest =>
      match es_append S s id last_seq [make_event i] Correlation.none with
      | (s, Ok appended) =>
          if one && negb (length appended =? 1)%nat then None
          else e ← last appended;
               '(s, more) ← append_each one s id (sequence e) rest;
               Some (s, appended ++ more)
      | _ => None
      end
  end.

(** [for (i, env) in envs.iter().enumerate()]: sequences count from [k + 1],
    every envelope belongs to [id]. *)
Fixpoint all_contiguous (k : Z) (envs : list (EventEnvelope Ev)) : bool :=
  match envs with
  | [] => true
  | e :: rest => (sequence e =? k + 1) && all_contiguous (k + 1) rest
  end.

Definition all_owned (id : AggregateId) (envs : list (EventEnvelope Ev)) : bool :=
  forallb (fun e => bool_decide (aggregate_id e = id)) envs.

Definition scenario_create_load_roundtrip : bool :=
  match es_create S make_store [make_event 0] Correlation.none with
  | (s, Ok (id, [e])) =>
      match append_each true s id (sequence e) [1; 2] with
      | Some (s, appended) =>
          let all := e :: appended in
          (length all =? 3)%nat && all_contiguous 0 all && all_owned id all &&
          match snd (es_load S s id) with
          | Ok loaded => (length loaded =? 3)%nat && all_contiguous 0 loaded
          | Err _ => false
          end
      | None => false
      end
  | _ => false
  end.

Definition scenario_stale_expected_sequence : bool :=
  match es_create S make_store [make_event 0] Correlation.none with
  | (s, Ok (id, created)) =>
      match last created with
      | None => false
      | Some e =>
          let real_last := sequence e in
          match NonZeroU64_new (saturating_add U64_MAX real_last 99) with
          | None => false
          | Some stale =>
              match snd (es_append S s id stale [make_event 1] Correlation.none) with
              | Err (ConcurrencyConflict i expected actual) =>
                  bool_decide (i = id) && (expected =? stale) && (actual =? real_last)
              | _ => false
              end
          end
      end
  | _ => false
  end.

Definition scenario_load_unknown_returns_empty : bool :=
  match snd (es_load S make_store (AggregateId_new 987654321)) with
  | Ok [] => true
  | _ => false
  end.

Definition scenario_empty_create_is_infrastructure : bool :=
  match snd (es_create S make_store [] Correlation.none) with
  | Err (Infrastructure _) => true
  | _ => false
  end.

Definition scenario_append_to_phantom_is_infrastructure : bool :=
  match snd (es_append S make_store (AggregateId_new 42) 1 [make_event 0] Correlation.none) with
  | Err (Infrastructure _) => true
  | _ => false
  end.

Definition scenario_create_then_append_is_monotone : bool :=
  match es_create S make_store [make_event 0] Correlation.none with
  | (s, Ok (id, created)) =>
      match last created with
      | None => false
      | Some e =>
          (sequence e =? 1) &&
          match append_each true s id (sequence e) [1; 2; 3] with
          | Some (s, appended) =>
              all_contiguous 1 appended &&
              match snd (es_load S s id) with
              | Ok full => (length full =? 4)%nat && all_contiguous 0 full && all_owned id full
              | Err _ => false
              end
          | None => false
          end
      end
  | _ => false
  end.

Definition assert_event_store_conformance : bool :=
  scenario_create_load_roundtrip && scenario_stale_expected_sequence &&
  scenario_load_unknown_returns_empty && scenario_empty_create_is_infrastructure &&
  scenario_append_to_phantom_is_infrastructure && scenario_create_then_append_is_monotone.
End Conformance.

(** [assert_aggregate_conformance] for an aggregate given by its zero state
    and its [apply]. *)
Definition assert_aggregate_conformance {A Ev} (zero : A) (apply : A -> Ev -> A)
    (events : list Ev) (probe : A -> bool) : bool :=
  negb (length events =? 0)%nat && negb (probe zero)
  && probe (fold_left apply events zero) && probe (fold_left apply events zero).

Section Projection.
Context {Ev P : Type} (S : EventStore Ev).

(** [assert_projection_conformance]. *)
Definition assert_projection_conformance (make_store : es_state S) (make_event : Z -> Ev)
    (zero : P) (apply : P -> EventEnvelope Ev -> P) (compare : P -> P -> bool) : bool :=
  match es_create S make_store [make_event 0] Correlation.none with
  | (s, Ok (id, created)) =>
      match last created with
      | None => false
      | Some e =>
          match append_each S make_event false s id (sequence e) [1; 2] with
          | Some (s, _) =>
              match snd (es_load S s id) with
              | Ok envs =>
                  let p1 := fold_left apply envs zero in
                  let p2 := fold_left apply envs zero in
                  let p3 := fold_left apply envs zero in
                  (length envs =? 3)%nat && compare p1 p2 && compare p1 p3
              | Err _ => false
              end
          | None => false
          end
      end
  | _ => false
  end.
End Projection.
End Conformance.

(** ** Properties *)

Section StoreProperties.
Context {Ev : Type}.
Implicit Types (s : InMemory.InMemoryEventStore Ev).

(** Steps whose causation identifiers are known when they are written. *)
Inductive causal_step s : InMemory.InMemoryEventStore Ev -> Prop :=
| causal_create events ctx :
    InMemory.known_cause s ctx -> causal_step s (fst (InMemory.create s events ctx))
| causal_append id expected events ctx :
    InMemory.known_cause s ctx -> causal_step s (fst (InMemory.append s id expected events ctx)).

(** The store invariant with causes that always come first. *)
Definition causal_inv s : Prop :=
  InMemory.Inv s /\
  forall id l, InMemory.streams s !! id = Some l ->
    InMemory.causally_ordered l /\
    forall e c i, e ∈ l -> env_causation_id e = Some c ->
      (uuid_drawn (InMemory.world s) <= i)%nat -> uuid_at (InMemory.world s) i <> c.

Lemma causal_write s s' id l envs events ctx :
  causal_inv s -> InMemory.Inv s' -> InMemory.stream_of s id = l ->
  InMemory.known_cause s ctx -> InMemory.streams s' = <[id := l ++ envs]> (InMemory.streams s) ->
  InMemory.built (InMemory.world s) (InMemory.world s') id (Z.of_nat (length l)) events ctx (Ok envs) ->
  causal_inv s'.
Proof.
  intros [HI Hc] HI' Hl Hk Hs ((Hu&_&Hd)&Hst&_&Hids&_). split; [done|].
  intros j l' Hj. rewrite Hs in Hj. rewrite Hu, Hd.
  destruct (decide (j = id)) as [->|Hne].
  2:{ rewrite lookup_insert_ne in Hj by done. destruct (Hc j l' Hj) as [? Hcs].
      split; [done|]. intros e c i He Hec Hi. apply (Hcs e c i He Hec). lia. }
  rewrite lookup_insert_eq in Hj. injection Hj as <-.
  assert (InMemory.causally_ordered l /\
    Forall (fun e => exists i, (i < uuid_drawn (InMemory.world s))%nat
                               /\ event_id e = uuid_at (InMemory.world s) i) l /\
    forall e c i, e ∈ l -> env_causation_id e = Some c ->
      (uuid_drawn (InMemory.world s) <= i)%nat -> uuid_at (InMemory.world s) i <> c)
    as (Hord&Hids0&Hcs).
  { unfold InMemory.stream_of in Hl.
    destruct (InMemory.streams s !! id) as [l0|] eqn:Hl0; simpl in Hl; subst.
    - destruct (Hc id l Hl0). destruct (InMemory.inv_stream s HI id l Hl0) as (?&?&?&?&?). done.
    - split_and!; [apply InMemory.causally_ordered_nil|constructor|]. set_solver. }
  split.
  - eapply InMemory.causally_ordered_app; try done; [apply HI|by exists id].
  - intros e c i [He|He]%elem_of_app Hec Hi; [apply (Hcs e c i He Hec); lia|].
    apply list_elem_of_lookup in He as [k Hk'].
    destruct (Forall2_lookup_r _ _ _ _ _ Hst Hk') as (ev&_&_&_&_&Hcz).
    rewrite Hcz in Hec. apply (Hk c i Hec). lia.
Qed.

Lemma causal_unchanged s s' :
  causal_inv s -> InMemory.Inv s' -> InMemory.streams s' = InMemory.streams s ->
  uuid_at (InMemory.world s') = uuid_at (InMemory.world s) ->
  (uuid_drawn (InMemory.world s) <= uuid_drawn (InMemory.world s'))%nat -> causal_inv s'.
Proof.
  intros [HI Hc] HI' Hs Hu Hd. split; [done|]. rewrite Hs, Hu.
  intros id l Hl. destruct (Hc id l Hl) as [? Hcs]. split; [done|].
  intros e c i He Hec Hi. apply (Hcs e c i He Hec). lia.
Qed.

Lemma causal_step_inv s s' : causal_inv s -> causal_step s s' -> causal_inv s'.
Proof.
  intros HC Hstep. pose proof HC as [HI _]. destruct Hstep as [events ctx Hk|id expected events ctx Hk].
  - pose proof (InMemory.create_cases s events ctx HI) as H.
    destruct (InMemory.create s events ctx) as [s' r]; simpl.
    destruct H as [HI' [(_&->&_)|[(_&_&->&_)|[(_&Hs&_&(n&?&_&?)&_)|(envs&_&_&_&_&_&Hs&Hb)]]]]; try done.
    + apply (causal_unchanged s); try done. lia.
    + eapply (causal_write s s' (AggregateId_new (InMemory.next_id s)) []); try done.
      unfold InMemory.stream_of. by rewrite InMemory.stream_of_fresh.
  - pose proof (InMemory.append_cases s id expected events ctx HI) as H.
    destruct (InMemory.append s id expected events ctx) as [s' r]; simpl.
    destruct H as [HI' [(_&->&_)|[(_&_&->&_)|[(_&_&_&->&_)|[(_&_&_&Hs&(n&?&_&?)&_)|(envs&_&_&He&_&_&Hs&Hb)]]]]];
      try done.
    + apply (causal_unchanged s); try done. lia.
    + eapply (causal_write s s' id (InMemory.stream_of s id)); try done. by rewrite He.
Qed.

Lemma causal_new w : v7_source w -> causal_inv (InMemory.new w).
Proof.
  intros Hw. split; [by apply InMemory.new_inv|]. intros id l. simpl. by rewrite lookup_empty.
Qed.

(** C4: In every state the store can reach from empty, by any sequence of
    [create] and [append] calls, successful or failing, [load] succeeds on every
    aggregate and returns a valid stream: non-nil distinct event ids, one owner,
    sequences contiguous from 1; and the histories of an earlier state are
    prefixes of the histories of a later one. *)
Theorem reachable_streams_valid w s s' id :
  v7_source w -> rtc InMemory.step (InMemory.new w) s -> rtc InMemory.step s s' ->
  InMemory.load s' id = (s', Ok (InMemory.stream_of s' id))
  /\ valid_stream id (InMemory.stream_of s' id)
  /\ InMemory.stream_of s id `prefix_of` InMemory.stream_of s' id.
Proof.
  intros Hw Hs Hs'.
  assert (HI : InMemory.Inv s).
  { eapply (rtc_invariant _ _ InMemory.step_inv); [exact Hs|]. by apply InMemory.new_inv. }
  cut (InMemory.Inv s' /\ InMemory.stream_of s id `prefix_of` InMemory.stream_of s' id).
  { intros [HI' ?]. rewrite InMemory.load_ok by done. split_and!; try done.
    by apply InMemory.stream_of_valid. }
  clear Hs. induction Hs' as [|s1 s2 s3 H12 _ IH]; [done|].
  destruct (InMemory.step_view s1 s2 id HI H12) as [HI2 Hp].
  destruct (IH HI2) as [? ?]. split; [done|]. by transitivity (InMemory.stream_of s2 id).
Qed.

(** [create] followed by [load] is a round trip: a successful [create]
    returns the next unused identifier and one envelope per event, in order and
    with the call's correlation pair, and [load] then returns exactly those
    envelopes, every other stream being what it was. *)
Theorem create_load_roundtrip s events ctx s' id envs :
  InMemory.Inv s -> InMemory.create s events ctx = (s', Ok (id, envs)) ->
  AggregateId_get id = InMemory.next_id s /\ InMemory.stream_of s id = []
  /\ stamped id ctx events envs
  /\ InMemory.load s' id = (s', Ok envs)
  /\ (forall j, j <> id -> InMemory.load s' j = (s', Ok (InMemory.stream_of s j))).
Proof.
  intros HI Hc. pose proof (InMemory.create_cases s events ctx HI) as H. rewrite Hc in H.
  destruct H as [HI' [(_&_&?)|[(_&_&_&?)|[(_&_&_&_&?)|(envs0&_&_&Hr&Hst&_&Hs&_)]]]]; try done.
  injection Hr as -> ->. rewrite InMemory.load_ok by done.
  unfold InMemory.stream_of. split_and!; try done.
  - by rewrite InMemory.stream_of_fresh.
  - by rewrite Hs, lookup_insert_eq.
  - intros j Hj. rewrite InMemory.load_ok by done. unfold InMemory.stream_of.
    by rewrite Hs, lookup_insert_ne.
Qed.

(** [append] of a non-empty batch is optimistic concurrency control on the
    length of the stream: on an existing stream with room for the batch it
    succeeds exactly when [expected_sequence] is the last sequence, otherwise it
    reports the conflict with both sequences and changes nothing. *)
Theorem append_optimistic s id expected ev rest ctx s' r :
  InMemory.Inv s -> InMemory.stream_of s id <> [] ->
  Z.of_nat (length (InMemory.stream_of s id)) + Z.of_nat (length (ev :: rest)) <= U64_MAX ->
  InMemory.append s id expected (ev :: rest) ctx = (s', r) ->
  let actual := Z.of_nat (length (InMemory.stream_of s id)) in
  if bool_decide (expected = actual)
  then exists envs, r = Ok envs /\ stamped id ctx (ev :: rest) envs
                    /\ InMemory.load s' id = (s', Ok (InMemory.stream_of s id ++ envs))
  else r = Err (ConcurrencyConflict id expected actual) /\ s' = s.
Proof.
  intros HI Hne Hroom Ha. pose proof (InMemory.append_cases s id expected (ev :: rest) ctx HI) as H.
  rewrite Ha in H. cbv zeta.
  destruct H as [HI' [(?&_)|[(_&Hn&_)|[(_&_&?&->&->)|[(_&?&?&_)|(envs&_&_&He&->&Hst&Hs&_)]]]]]; try done.
  - unfold InMemory.stream_of in Hne. by rewrite Hn in Hne.
  - rewrite bool_decide_false by done. done.
  - lia.
  - rewrite bool_decide_true by done. exists envs. split_and!; try done.
    rewrite InMemory.load_ok by done. unfold InMemory.stream_of at 1.
    by rewrite Hs, lookup_insert_eq.
Qed.

Lemma causal_chain_ends s id eid :
  causal_inv s ->
  exists chain,
    InMemory.causal_chain (S (length (InMemory.stream_of s id))) s id eid = Some (Ok chain)
    /\ InMemory.linked chain /\ Forall (fun e => e ∈ InMemory.stream_of s id) chain
    /\ match find_first (fun e => event_id e =? eid) (InMemory.stream_of s id) with
       | Some e => last chain = Some e
       | None => chain = []
       end.
Proof.
  intros [HI Hc]. unfold InMemory.causal_chain. rewrite InMemory.load_ok by done. cbn [snd].
  pose proof (InMemory.stream_of_valid s id HI) as [[_ Hnd _ _] _].
  assert (Hord : InMemory.causally_ordered (InMemory.stream_of s id)).
  { unfold InMemory.stream_of. destruct (InMemory.streams s !! id) as [l|] eqn:Hl; simpl.
    - by apply (Hc id l).
    - apply InMemory.causally_ordered_nil. }
  set (l := InMemory.stream_of s id) in *.
  destruct (find_first (fun e => event_id e =? eid) l) as [e|] eqn:Hf; simpl.
  - pose proof (find_first_Some _ _ _ Hf) as [He Hid]. to_prop.
    apply list_elem_of_lookup in He as [i Hi].
    assert (Hstep : find_first (InMemory.chain_step (env_correlation_id e) eid) l = Some e).
    { clear -Hf. induction l as [|x l IH]; simpl in *; [done|]. unfold InMemory.chain_step at 1.
      destruct (Z.eqb_spec (event_id x) eid); simpl; [|by apply IH].
      injection Hf as ->. destruct (env_correlation_id e); [|done]. by rewrite bool_decide_true. }
    rewrite Hstep. pose proof (lookup_lt_Some _ _ _ Hi) as Hlt.
    destruct (length l) as [|n] eqn:Hn; [lia|].
    destruct (InMemory.chain_loop_stops l (env_correlation_id e) (env_causation_id e) [e] n)
      as (pre&Hrun&Hlink&Hin&_); try done.
    + intros c e' j Hc' Hj <-. pose proof (Hord i e j e' Hi Hj Hc'). lia.
    + by intros e' [= <-].
    + constructor; [by eapply list_elem_of_lookup_2|constructor].
    + exists (pre ++ [e]). rewrite Hrun. split_and!; try done. by rewrite last_snoc.
  - assert (Hstep : find_first (InMemory.chain_step None eid) l = None).
    { apply find_first_None. apply find_first_None in Hf. eapply Forall_impl; [exact Hf|].
      simpl. intros e He. unfold InMemory.chain_step. by rewrite He. }
    rewrite Hstep. exists []. done.
Qed.

(** [causal_chain] terminates on every reachable store in which causation
    identifiers were known when written, within one round more than the length
    of the stream; the chain it returns ends at the queried event (it is empty
    only when the event is not in the stream), its envelopes belong to the
    stream, and each one was caused by the one before it. *)
Theorem causal_chain_total w s id eid :
  v7_source w -> rtc causal_step (InMemory.new w) s ->
  exists chain,
    InMemory.causal_chain (S (length (InMemory.stream_of s id))) s id eid = Some (Ok chain)
    /\ InMemory.linked chain /\ Forall (fun e => e ∈ InMemory.stream_of s id) chain
    /\ match find_first (fun e => event_id e =? eid) (InMemory.stream_of s id) with
       | Some e => last chain = Some e
       | None => chain = []
       end.
Proof.
  intros Hw Hs. apply causal_chain_ends. eapply (rtc_invariant _ _ causal_step_inv); [exact Hs|]. by apply causal_new.
Qed.

Lemma all_contiguous_spec k (envs : list (EventEnvelope Ev)) :
  Conformance.all_contiguous k envs = true <-> contiguous k envs.
Proof.
  revert k. induction envs as [|e envs IH]; intros k; simpl; [done|].
  rewrite andb_true_iff, IH, Z.eqb_eq. done.
Qed.

Lemma all_owned_spec id (envs : list (EventEnvelope Ev)) :
  Conformance.all_owned id envs = true <-> Forall (fun e => aggregate_id e = id) envs.
Proof.
  unfold Conformance.all_owned. rewrite forallb_forall.
  rewrite Forall_forall. setoid_rewrite bool_decide_eq_true.
  split; intros H e He; apply H; by apply list_elem_of_In.
Qed.

(** The appends of a scenario all succeed and extend the stream. *)
Lemma append_each_ok one make_event s id indices :
  InMemory.Inv s -> InMemory.stream_of s id <> [] ->
  Z.of_nat (length (InMemory.stream_of s id)) + Z.of_nat (length indices) <= U64_MAX ->
  exists s' envs,
    Conformance.append_each (InMemory.store Ev) make_event one s id
      (Z.of_nat (length (InMemory.stream_of s id))) indices = Some (s', envs)
    /\ InMemory.Inv s' /\ InMemory.stream_of s' id = InMemory.stream_of s id ++ envs
    /\ length envs = length indices.
Proof.
  revert s. induction indices as [|i rest IH]; intros s HI Hne Hroom.
  { exists s, []. rewrite app_nil_r. done. }
  cbn [Conformance.append_each InMemory.store es_append].
  pose proof (InMemory.append_cases s id (Z.of_nat (length (InMemory.stream_of s id)))
                [make_event i] Correlation.none HI) as H.
  destruct (InMemory.append _ _ _ _ _) as [s1 r].
  destruct H as [HI1 [(?&_)|[(_&Hn&_)|[(_&_&?&_)|[(_&_&?&_)|(envs&_&_&_&->&Hst&Hs&_)]]]]]; try done.
  { unfold InMemory.stream_of in Hne. by rewrite Hn in Hne. }
  { simpl in *. lia. }
  pose proof (InMemory.stamped_length _ _ _ _ Hst) as Hlen. simpl in Hlen.
  destruct envs as [|e [|]]; simpl in Hlen; try lia.
  assert (Hso : InMemory.stream_of s1 id = InMemory.stream_of s id ++ [e]).
  { unfold InMemory.stream_of at 1. by rewrite Hs, lookup_insert_eq. }
  destruct (InMemory.stream_of_valid s1 id HI1) as [Hv _].
  assert (Hseq : sequence e = Z.of_nat (length (InMemory.stream_of s1 id))).
  { eapply valid_stream_last; [done|]. rewrite Hso. apply last_snoc. }
  destruct (IH s1 HI1) as (s'&more&Hrun&HI'&Hso'&Hl').
  - rewrite Hso. by destruct (InMemory.stream_of s id).
  - rewrite Hso, length_app. simpl in *. lia.
  - exists s', (e :: more). rewrite andb_false_r. simpl. rewrite Hseq.
    fold (InMemory.store Ev) in *. cbn [InMemory.store] in Hrun. rewrite Hrun. simpl.
    split_and!; try done; [|lia]. rewrite Hso', Hso, <- app_assoc. done.
Qed.

(** A [create] of one event on an empty store. *)
Lemma create_one w ev : v7_source w ->
  exists s e, InMemory.create (InMemory.new w) [ev] Correlation.none
              = (s, Ok (AggregateId_new 1, [e]))
              /\ InMemory.Inv s /\ InMemory.stream_of s (AggregateId_new 1) = [e]
              /\ sequence e = 1.
Proof.
  intros Hw. pose proof (InMemory.create_cases (InMemory.new w) [ev] Correlation.none
                           (InMemory.new_inv w Hw)) as H.
  destruct (InMemory.create _ _ _) as [s r].
  destruct H as [HI [(?&_)|[(_&Hn&_)|[(Hn&_)|(envs&_&_&->&Hst&_&Hs&_)]]]]; try done.
  pose proof (InMemory.stamped_length _ _ _ _ Hst) as Hlen. simpl in Hlen.
  destruct envs as [|e [|]]; simpl in Hlen; try lia.
  assert (Hso : InMemory.stream_of s (AggregateId_new 1) = [e]).
  { unfold InMemory.stream_of. by rewrite Hs, lookup_insert_eq. }
  exists s, e. split_and!; try done.
  destruct (InMemory.stream_of_valid s (AggregateId_new 1) HI) as [[_ _ _ Hc] _].
  rewrite Hso in Hc. by destruct Hc.
Qed.

Local Ltac port :=
  change (es_create (InMemory.store Ev)) with (@InMemory.create Ev) in *;
  change (es_append (InMemory.store Ev)) with (@InMemory.append Ev) in *.

(** The in-memory store passes the whole conformance harness of the
    [EventStore] port, whatever events the harness feeds it. *)
Theorem in_memory_conforms w (make_event : Z -> Ev) :
  v7_source w ->
  Conformance.assert_event_store_conformance (InMemory.store Ev) (InMemory.new w) make_event = true.
Proof.
  intros Hw. unfold Conformance.assert_event_store_conformance.
  destruct (create_one w (make_event 0) Hw) as (s&e&Hc&HI&Hso&Hseq).
  assert (Hfull : forall one indices, Z.of_nat (length indices) < U64_MAX ->
    exists s' envs, Conformance.append_each (InMemory.store Ev) make_event one s
        (AggregateId_new 1) 1 indices = Some (s', envs)
      /\ length envs = length indices
      /\ snd (es_load (InMemory.store Ev) s' (AggregateId_new 1)) = Ok (e :: envs)
      /\ valid_stream (AggregateId_new 1) (e :: envs)).
  { intros one indices Hi.
    destruct (append_each_ok one make_event s (AggregateId_new 1) indices) as (s'&envs&Hr&HI'&Hs'&Hl);
      rewrite ?Hso; try done; [simpl; lia|]. rewrite Hso in *. exists s', envs.
    split_and!; try done.
    { change (snd (InMemory.load s' (AggregateId_new 1)) = Ok ([e] ++ envs)).
      by rewrite InMemory.load_ok, Hs'. }
    rewrite <- (app_nil_l (e :: envs)). change ([] ++ e :: envs) with ([e] ++ envs). rewrite <- Hs'.
    by apply InMemory.stream_of_valid. }
  rewrite !andb_true_iff. split_and!.
  - unfold Conformance.scenario_create_load_roundtrip. port. rewrite Hc. cbv beta iota zeta. rewrite Hseq.
    destruct (Hfull true [1; 2]) as (s'&envs&Hr&Hl&Hld&[_ _ Ho Hcont]); [done|].
    rewrite Hr. cbv beta iota zeta. rewrite Hld. cbn [length] in *. rewrite Hl.
    apply all_contiguous_spec in Hcont. apply all_owned_spec in Ho. by rewrite Hcont, Ho.
  - unfold Conformance.scenario_stale_expected_sequence. port. rewrite Hc. cbv beta iota zeta. cbn [last]. rewrite Hseq.
    pose proof (InMemory.append_cases s (AggregateId_new 1) 100 [make_event 1] Correlation.none HI) as H.
    change (NonZeroU64_new (saturating_add U64_MAX 1 99)) with (Some 100). cbv beta iota zeta.
    destruct (InMemory.append s (AggregateId_new 1) 100 [make_event 1] Correlation.none) as [s' r].
    rewrite Hso in H. simpl in H.
    destruct H as [_ [(?&_)|[(_&Hn&_)|[(_&_&_&_&->)|[(_&?&_)|(envs&_&_&?&_)]]]]]; try done.
    unfold InMemory.stream_of in Hso. by rewrite Hn in Hso.
  - done.
  - done.
  - done.
  - unfold Conformance.scenario_create_then_append_is_monotone. port.
    rewrite Hc. cbv beta iota zeta. cbn [last]. rewrite Hseq.
    destruct (Hfull true [1; 2; 3]) as (s'&envs&Hr&Hl&Hld&[_ _ Ho Hcont]); [done|].
    rewrite Hr. cbv beta iota zeta. rewrite Hld. cbn [length] in *. rewrite Hl.
    pose proof Hcont as [_ Hcont']. change (0 + 1) with 1 in Hcont'. apply all_contiguous_spec in Hcont, Hcont'.
    apply all_owned_spec in Ho. by rewrite Hcont, Hcont', Ho.
Qed.
End StoreProperties.

(** *** Witnesses *)

(** A concrete source: identifiers and readings count up. *)
Definition counting_world : World := mkWorld (fun i => Z.of_nat i + 1) Z.of_nat 0 0.

Lemma counting_v7 : v7_source counting_world.
Proof. split; simpl; intros; lia. Qed.

(** A store holding one aggregate with two events. *)
Definition two_events : InMemory.InMemoryEventStore Z :=
  fst (InMemory.create (InMemory.new counting_world) [10; 20] (Correlation.correlated 77)).

Lemma two_events_reachable : rtc InMemory.step (InMemory.new counting_world) two_events.
Proof. apply rtc_once. constructor. Qed.

Lemma two_events_inv : InMemory.Inv two_events.
Proof.
  eapply (rtc_invariant _ _ InMemory.step_inv); [apply two_events_reachable|].
  apply InMemory.new_inv, counting_v7.
Qed.

Lemma reachable_streams_valid_witness :
  InMemory.load two_events (AggregateId_new 1)
    = (two_events, Ok (InMemory.stream_of two_events (AggregateId_new 1)))
  /\ valid_stream (AggregateId_new 1) (InMemory.stream_of two_events (AggregateId_new 1))
  /\ InMemory.stream_of (InMemory.new counting_world) (AggregateId_new 1)
     `prefix_of` InMemory.stream_of two_events (AggregateId_new 1).
Proof.
  apply (reachable_streams_valid counting_world).
  - apply counting_v7.
  - apply rtc_refl.
  - apply two_events_reachable.
Defined.

Lemma create_load_roundtrip_witness :
  exists s' envs,
    InMemory.create two_events [5] Correlation.none = (s', Ok (AggregateId_new 2, envs))
    /\ InMemory.load s' (AggregateId_new 2) = (s', Ok envs).
Proof.
  eexists _, _. split; [vm_compute; reflexivity|].
  apply (create_load_roundtrip two_events [5] Correlation.none).
  - apply two_events_inv.
  - vm_compute. reflexivity.
Defined.

Lemma append_optimistic_witness :
  let '(s', r) := InMemory.append two_events (AggregateId_new 1) 1 [30] Correlation.none in
  r = Err (ConcurrencyConflict (AggregateId_new 1) 1 2) /\ s' = two_events.
Proof.
  exact (append_optimistic two_events (AggregateId_new 1) 1 30 [] Correlation.none
    _ _ two_events_inv ltac:(vm_compute; discriminate) ltac:(vm_compute; discriminate)
    eq_refl).
Defined.

Lemma causal_chain_total_witness :
  exists chain,
    InMemory.causal_chain 3 two_events (AggregateId_new 1) 2 = Some (Ok chain)
    /\ InMemory.linked chain.
Proof.
  destruct (causal_chain_total counting_world two_events (AggregateId_new 1) 2)
    as (chain&Hc&Hl&_).
  - apply counting_v7.
  - apply rtc_once. constructor. intros c i Hc. discriminate Hc.
  - exists chain. split; [|exact Hl]. exact Hc.
Defined.

Lemma in_memory_conforms_witness :
  Conformance.assert_event_store_conformance (InMemory.store Z)
    (InMemory.new counting_world) (fun i => i) = true.
Proof. apply in_memory_conforms, counting_v7. Defined.
