(* ===== verification/Capabilities.v ===== *)
(** * The optional capabilities of an event store

    The extension traits of [cherry-pit-core/src/store.rs] that some code implements,
    [EventHistoryEventStore] and [ListableEventStore], as records of operations over
    a store, with their documented contract as classes, and the in-memory store of
    [cherry-pit-core/src/testing.rs] as an implementation of both. *)

From S2P Require Import Prelude Core Store.
Import Envelope EnvelopeFacts.
Local Open Scope Z_scope.

(** [None] of [eh_causal_chain]: the call does not return. *)
Record EventHistoryEventStore {Ev} (S : EventStore Ev) := mkHistoryStore {
  eh_history : es_state S -> AggregateId -> es_state S * result (list (EventEnvelope Ev)) StoreError;
  eh_replay_until : es_state S -> AggregateId -> Z -> result (list (EventEnvelope Ev)) StoreError;
  eh_causal_chain : es_state S -> AggregateId -> Uuid -> option (result (list (EventEnvelope Ev)) StoreError);
}.
Arguments eh_history {Ev S}. Arguments eh_replay_until {Ev S}. Arguments eh_causal_chain {Ev S}.

Record ListableEventStore {Ev} (S : EventStore Ev) := mkListableStore {
  ls_list_aggregates : es_state S -> result (list AggregateId) StoreError;
}.
Arguments ls_list_aggregates {Ev S}.

(** ** The contracts *)

(** The event that a chain is asked for, and what a step back from an event may
    reach: an event of the stream, with the correlation of the one asked for if
    that has one. *)
Definition asked {Ev} (stream : list (EventEnvelope Ev)) (eid : Uuid) : option (EventEnvelope Ev) :=
  find_first (fun e => event_id e =? eid) stream.
Definition correlated {Ev} (target : EventEnvelope Ev) (e : EventEnvelope Ev) : Prop :=
  env_correlation_id target = None \/ env_correlation_id e = env_correlation_id target.

(** A causal chain: stored envelopes, each the cause of the next, from a root cause
    (nothing in the stream caused it) through the event asked for. *)
Record causal_chain_of {Ev} (stream : list (EventEnvelope Ev)) (target : EventEnvelope Ev)
    (chain : list (EventEnvelope Ev)) : Prop := {
  cc_last : last chain = Some target;
  cc_linked : InMemory.linked chain;
  cc_stored : Forall (fun e => e ∈ stream /\ correlated target e) chain;
  cc_root root c : head chain = Some root -> env_causation_id root = Some c ->
    forall e, e ∈ stream -> event_id e = c -> ~ correlated target e;
}.

Class EventHistoryLaws {Ev} {S : EventStore Ev} (H : EventHistoryEventStore S) (Inv : es_state S -> Prop)
    (view : es_state S -> AggregateId -> list (EventEnvelope Ev)) : Prop := {
  law_history s id : Inv s -> eh_history H s id = es_load S s id;
  law_replay_until s id upto l : Inv s -> 1 <= upto -> eh_replay_until H s id upto = Ok l ->
    l = take (Z.to_nat upto) (view s id);
  law_causal_chain s id eid : Inv s ->
    match eh_causal_chain H s id eid with
    | None => False
    | Some (Err e) => snd (es_load S s id) = Err e
    | Some (Ok chain) =>
        match asked (view s id) eid with
        | None => chain = []
        | Some target => causal_chain_of (view s id) target chain
        end
    end;
}.

Class ListableLaws {Ev} {S : EventStore Ev} (L : ListableEventStore S) (Inv : es_state S -> Prop)
    (view : es_state S -> AggregateId -> list (EventEnvelope Ev)) : Prop := {
  law_listed s ids : Inv s -> ls_list_aggregates L s = Ok ids ->
    NoDup ids /\ forall id, id ∈ ids <-> view s id <> [];
  law_list_empty s : Inv s -> (forall id, view s id = []) -> ls_list_aggregates L s = Ok [];
}.

(** ** The in-memory store *)

Section InMemoryCapabilities.
Context {Ev : Type}.
Implicit Types (l chain : list (EventEnvelope Ev)).

Lemma filter_later k m l : k <= m -> contiguous m l -> filter (fun e => sequence e <= k) l = [].
Proof.
  revert m. induction l as [|e l IH]; intros m Hm; [done|]. intros [Hs Hc].
  rewrite filter_cons, decide_False by lia. apply (IH (m + 1)); [lia|done].
Qed.

(** The first [n] envelopes are those whose sequence is at most [n]. *)
Lemma filter_take k l n :
  contiguous k l -> filter (fun e => sequence e <= k + Z.of_nat n) l = take n l.
Proof.
  revert k l. induction n as [|n IH]; intros k l Hc; [apply (filter_later _ k); [lia|done]|].
  destruct l as [|e l]; [done|]. destruct Hc as [Hs Hc].
  rewrite filter_cons, decide_True by lia. simpl. f_equal.
  rewrite <- (IH (k + 1) l Hc). apply list_filter_iff. intros e'. lia.
Qed.

(** What the walk has when it stops. *)
Lemma chain_loop_root fuel l corr next chain out :
  InMemory.chain_loop fuel l corr next chain = Some out ->
  (forall e, head chain = Some e -> env_causation_id e = next) ->
  Forall (fun e => corr = None \/ env_correlation_id e = corr) chain ->
  Forall (fun e => corr = None \/ env_correlation_id e = corr) out
  /\ forall root c, head out = Some root -> env_causation_id root = Some c ->
       find_first (InMemory.chain_step corr c) l = None.
Proof.
  revert next chain. induction fuel as [|fuel IH]; intros [current|] chain; simpl; try done.
  1, 3: intros [= <-] Hhd Hall; split; [done|]; intros root c Hr%Hhd; congruence.
  destruct (find_first (InMemory.chain_step corr current) l) as [e|] eqn:Hf.
  - intros Hrun Hhd Hall. apply (IH _ _ Hrun); [by intros e' [= <-]|]. constructor; [|done].
    apply find_first_Some in Hf as [_ Hp]. unfold InMemory.chain_step in Hp. to_prop.
    destruct corr; [|by left]. right. by eapply bool_decide_eq_true_1.
  - intros [= <-] Hhd Hall. split; [done|]. intros root c Hr Hc. apply Hhd in Hr. congruence.
Qed.

Lemma unreached target c l :
  find_first (InMemory.chain_step (env_correlation_id target) c) l = None ->
  forall e, e ∈ l -> event_id e = c -> ~ correlated target e.
Proof.
  intros Hf%find_first_None e He Hc Hcorr. rewrite Forall_forall in Hf. specialize (Hf e He).
  unfold InMemory.chain_step in Hf. rewrite (proj2 (Z.eqb_eq _ _) Hc) in Hf. simpl in Hf.
  destruct Hcorr as [Hn|Hn]; [by rewrite Hn in Hf|].
  destruct (env_correlation_id target); [|done]. by rewrite bool_decide_true in Hf.
Qed.

Lemma asked_stored l target : NoDup (map event_id l) -> target ∈ l -> asked l (event_id target) = Some target.
Proof.
  unfold asked. induction l as [|e l IH]; simpl; [by intros _ ?%not_elem_of_nil|].
  intros [Hn Hnd]%NoDup_cons [->|Ht]%elem_of_cons; [by rewrite Z.eqb_refl|].
  rewrite (proj2 (Z.eqb_neq _ _)); [by apply IH|]. intros He. apply Hn. rewrite He. by apply list_elem_of_fmap_2.
Qed.

Definition in_memory_history : EventHistoryEventStore (InMemory.store Ev) :=
  mkHistoryStore Ev (InMemory.store Ev) InMemory.history InMemory.replay_until
    (fun s id eid => InMemory.causal_chain (S (length (InMemory.stream_of s id))) s id eid).

#[export] Instance in_memory_history_laws : EventHistoryLaws in_memory_history causal_inv InMemory.stream_of.
Proof.
  split; simpl.
  - done.
  - intros s id upto l [HI _] Hu. unfold InMemory.replay_until. rewrite InMemory.load_ok by done. simpl.
    intros [= <-]. destruct (InMemory.stream_of_valid s id HI) as [[_ _ _ Hc] _].
    rewrite <- (filter_take 0 _ (Z.to_nat upto) Hc). apply list_filter_iff. intros e. lia.
  - intros s id eid HC. destruct (causal_chain_ends s id eid HC) as (chain&Hrun&Hlink&Hin&Hlast).
    rewrite Hrun. fold (asked (InMemory.stream_of s id) eid) in Hlast.
    destruct (asked (InMemory.stream_of s id) eid) as [target|] eqn:Ha; [|done].
    unfold InMemory.causal_chain in Hrun. rewrite InMemory.load_ok in Hrun by apply HC. cbn [snd] in Hrun.
    unfold asked in Ha. rewrite Ha in Hrun. cbn [mbind option_bind] in Hrun.
    apply fmap_Some in Hrun as (out&Hrun&[= <-]).
    destruct (chain_loop_root _ _ _ _ _ _ Hrun ltac:(done) ltac:(constructor)) as [Hcorr Hroot].
    split; [done|done| |].
    + apply Forall_and. split; [done|]. eapply Forall_impl; [exact Hcorr|]. done.
    + intros root c Hr Hc. by apply unreached, (Hroot root).
Qed.

Definition in_memory_listable : ListableEventStore (InMemory.store Ev) :=
  mkListableStore Ev (InMemory.store Ev) InMemory.list_aggregates.

#[export] Instance in_memory_listable_laws : ListableLaws in_memory_listable causal_inv InMemory.stream_of.
Proof.
  assert (Hdom : forall (s : InMemory.InMemoryEventStore Ev) id, InMemory.Inv s ->
    id ∈ dom (InMemory.streams s) <-> InMemory.stream_of s id <> []).
  { intros s id HI. rewrite elem_of_dom. unfold InMemory.stream_of.
    destruct (InMemory.streams s !! id) as [l|] eqn:Hl; simpl; [|by split; [intros []|]].
    destruct (InMemory.inv_stream s HI id l Hl) as (_&?&_). by split. }
  split; simpl.
  - intros s ids [HI _] [= <-]. split; [apply NoDup_elements|]. intros id. rewrite elem_of_elements. by apply Hdom.
  - intros s [HI _] Hall. unfold InMemory.list_aggregates. do 2 f_equal. apply elements_empty_iff.
    intros id. rewrite (Hdom s id HI), (Hall id). set_solver.
Qed.
End InMemoryCapabilities.

(** Both capabilities hold together in every state that calls with known causes
    reach: listing the store and replaying each listed aggregate to the end gives
    the histories of all aggregates that have one, and a causal chain can be asked
    for any event of them. *)
Theorem in_memory_capabilities {Ev} w (s : InMemory.InMemoryEventStore Ev) ids :
  v7_source w -> rtc causal_step (InMemory.new w) s -> InMemory.list_aggregates s = Ok ids ->
  NoDup ids
  /\ (forall id, InMemory.stream_of s id <> [] <-> id ∈ ids)
  /\ (forall id, id ∈ ids -> InMemory.replay_until s id U64_MAX = Ok (InMemory.stream_of s id))
  /\ (forall id target, id ∈ ids -> target ∈ InMemory.stream_of s id ->
        exists chain, InMemory.causal_chain (S (length (InMemory.stream_of s id))) s id (event_id target) = Some (Ok chain)
                      /\ causal_chain_of (InMemory.stream_of s id) target chain).
Proof.
  intros Hw Hs Hl. assert (HC : causal_inv s).
  { eapply (rtc_invariant _ _ causal_step_inv); [exact Hs|]. by apply causal_new. }
  destruct (law_listed (L := in_memory_listable) s ids HC Hl) as [Hnd Hids].
  split_and!; [done|by intros id; symmetry; apply Hids| |].
  - intros id _. pose proof (law_replay_until (H := in_memory_history) s id U64_MAX) as Hr. simpl in Hr.
    destruct (InMemory.replay_until s id U64_MAX) as [l|e] eqn:Hrun.
    + rewrite (Hr l HC ltac:(done) eq_refl). f_equal. apply take_ge.
      destruct HC as [HI _]. unfold InMemory.stream_of. destruct (InMemory.streams s !! id) as [l0|] eqn:E; simpl; [|lia].
      destruct (InMemory.inv_stream s HI id l0 E) as (_&_&?&_). lia.
    + unfold InMemory.replay_until in Hrun. by rewrite InMemory.load_ok in Hrun by apply HC.
  - intros id target _ Ht. pose proof (law_causal_chain (H := in_memory_history) s id (event_id target) HC) as Hc.
    simpl in Hc. destruct HC as [HI _].
    assert (Ha : asked (InMemory.stream_of s id) (event_id target) = Some target).
    { destruct (InMemory.stream_of_valid s id HI) as [[_ Hn _ _] _]. by apply asked_stored. }
    rewrite Ha in Hc. destruct (InMemory.causal_chain _ s id _) as [[chain|e]|]; [by exists chain| |done].
    change (snd (InMemory.load s id) = Err e) in Hc. by rewrite InMemory.load_ok in Hc.
Qed.

(** The chain of the second of two events, the first its cause. *)
Definition caused : InMemory.InMemoryEventStore Z :=
  fst (InMemory.append (fst (InMemory.create (InMemory.new counting_world) [1] Correlation.none))
         (AggregateId_new 1) 1 [2] (mkCorrelationContext (Some 9) (Some 1))).

Lemma in_memory_capabilities_witness :
  InMemory.replay_until caused (AggregateId_new 1) U64_MAX = Ok (InMemory.stream_of caused (AggregateId_new 1))
  /\ length (InMemory.stream_of caused (AggregateId_new 1)) = 2%nat.
Proof.
  split; [|by vm_compute].
  destruct (in_memory_capabilities counting_world caused [AggregateId_new 1]) as (_&_&Hr&_).
  - apply counting_v7.
  - eapply rtc_l; [by apply (causal_create _ [1] Correlation.none)|]. apply rtc_once. apply causal_append.
    intros c i [= <-] Hi. simpl in *. vm_compute in Hi. unfold counting_world in *. simpl. lia.
  - by vm_compute.
  - apply Hr. set_solver.
Defined.
