(* ===== verification/Pardosa.v ===== *)
(** * The pardosa file session

    [PgnoEventStore] and [PardosaProjectionStore] write through
    [pardosa::FileWriterSession], a library outside the repository.  The session
    is a parameter of their models: a record of the operations they call.  What
    they rely on is the class [SessionLaws]: the session is an append-only log of
    blocks; reads report the log; a write that lands adds its block; a write that
    fails adds nothing; a write whose landing is undetermined may have added its
    block and leaves the session uncertain, as does a failed synchronisation.

    The files behind a session are reached through [FileStorageAdapter]; the class
    [AdapterLaws] says that a created file is empty, that an opened one shows the
    log and the schema that were left in it, and that reading a schema reports it.

    [LogSession] is a concrete session that keeps these laws and fails where a
    script says so, with a concrete adapter. *)

From S2P Require Import Prelude Core.
Local Open Scope result_scope.

Definition Bytes : Type := list Byte.byte.
Definition FiberId : Type := Z.

(** A block of the log: [detached] is set by [detach_fiber]. *)
Record Block := mkBlock {
  block_fiber : FiberId;
  detached : bool;
  block_event_id : Uuid;
  block_payload : Bytes;
}.

Record FiberHandle := mkHandle { is_active : bool; is_detached : bool }.

Inductive WriteLandingVerdict := Landed | Undetermined (carried_epoch : Z).

Record FileWriterSession := mkSession {
  fs_state : Type;
  uncertain_diagnostic : fs_state -> option string;
  carried_epoch : fs_state -> Z;
  fiber : fs_state -> FiberId -> result FiberHandle Boxed;
  get_latest : fs_state -> FiberId -> result (option Block) Boxed;
  read_all_envelopes : fs_state -> fs_state * result (list Block) Boxed;
  append_to_fiber : fs_state -> FiberId -> Uuid -> Bytes ->
                    fs_state * result WriteLandingVerdict Boxed;
  rescue_fiber : fs_state -> FiberId -> Uuid -> Bytes ->
                 fs_state * result WriteLandingVerdict Boxed;
  detach_fiber : fs_state -> FiberId -> Uuid -> Bytes ->
                 fs_state * result WriteLandingVerdict Boxed;
  sync : fs_state -> fs_state * result unit Boxed;
}.

(** ** The log behind a session *)

Definition latest (f : FiberId) (log : list Block) : option Block :=
  last (filter (fun b => block_fiber b = f) log).

Definition handle_in (f : FiberId) (log : list Block) : FiberHandle :=
  match latest f log with
  | None => mkHandle false false
  | Some b => mkHandle (negb (detached b)) (detached b)
  end.

Lemma latest_snoc f log b :
  latest f (log ++ [b]) = if decide (block_fiber b = f) then Some b else latest f log.
Proof.
  unfold latest. rewrite filter_app. destruct (decide (block_fiber b = f)) as [Hb|Hb].
  - rewrite filter_cons_True by done. rewrite filter_nil. by rewrite last_snoc.
  - rewrite filter_cons_False by done. rewrite filter_nil. by rewrite app_nil_r.
Qed.

(** The effect of a write of [b] by its result. *)
Definition wrote (F : FileWriterSession) (log : fs_state F -> list Block) (b : Block)
    (s s' : fs_state F) (r : result WriteLandingVerdict Boxed) : Prop :=
  match r with
  | Ok Landed => log s' = log s ++ [b]
  | Ok (Undetermined _) =>
      (log s' = log s \/ log s' = log s ++ [b]) /\ uncertain_diagnostic F s' <> None
  | Err _ => log s' = log s
  end.

Class SessionLaws (F : FileWriterSession) (log : fs_state F -> list Block) : Prop := {
  law_fiber s f h : fiber F s f = Ok h -> h = handle_in f (log s);
  law_get_latest s f o : get_latest F s f = Ok o -> o = latest f (log s);
  law_read_all s s' r : read_all_envelopes F s = (s', r) ->
    log s' = log s /\ (forall l, r = Ok l -> l = log s);
  law_append_to_fiber s f u p s' r : append_to_fiber F s f u p = (s', r) ->
    wrote F log (mkBlock f false u p) s s' r;
  law_rescue_fiber s f u p s' r : rescue_fiber F s f u p = (s', r) ->
    wrote F log (mkBlock f false u p) s s' r;
  law_detach_fiber s f u p s' r : detach_fiber F s f u p = (s', r) ->
    wrote F log (mkBlock f true u p) s s' r;
  law_sync s s' r : sync F s = (s', r) ->
    log s' = log s /\ (is_ok r = false -> uncertain_diagnostic F s' <> None);
}.

(** ** Files *)

Record OwnershipClaimRecord := mkClaim {
  claim_epoch : Z;
  machine_id : list Z;
  boot_id : list Z;
  process_id : Z;
  process_start_time_ns : Z;
  claim_time_ns : Z;
  operator_label : string;
}.

(** [FileStorageAdapter] at one path, with [std::fs::remove_file] on its two
    components; [D] is the type of schema descriptors. *)
Record FileStorageAdapter (F : FileWriterSession) (D : Type) := mkAdapter {
  disk : Type;
  remove_meta : disk -> disk * result unit Boxed;
  remove_pgno : disk -> disk * result unit Boxed;
  create_file : disk -> OwnershipClaimRecord -> D -> disk * result (fs_state F) Boxed;
  read_meta_records : disk -> result (option D) Boxed;
  current_epoch : disk -> result Z Boxed;
  open_write : disk -> Z -> disk * result (fs_state F) Boxed;
  schema_descriptor : fs_state F -> option D;
}.
Arguments disk {F D}. Arguments remove_meta {F D}. Arguments remove_pgno {F D}. Arguments create_file {F D}.
Arguments read_meta_records {F D}. Arguments current_epoch {F D}. Arguments open_write {F D}.
Arguments schema_descriptor {F D}. Arguments mkAdapter {F D}.

(** [disk_log] and [disk_schema] are what a file holds; [leaves fs d] says that a
    process that ends with its session in state [fs] leaves the file [d]. *)
Class AdapterLaws {F D} (A : FileStorageAdapter F D) (log : fs_state F -> list Block)
    (disk_log : disk A -> list Block) (disk_schema : disk A -> option D)
    (leaves : fs_state F -> disk A -> Prop) : Prop := {
  law_create_file d c x d' fs : create_file A d c x = (d', Ok fs) -> log fs = [] /\ schema_descriptor A fs = Some x;
  law_read_meta d o : read_meta_records A d = Ok o -> o = disk_schema d;
  law_open_write d e d' fs : open_write A d e = (d', Ok fs) ->
    log fs = disk_log d /\ schema_descriptor A fs = disk_schema d;
  law_leaves fs d : leaves fs d -> disk_log d = log fs /\ disk_schema d = schema_descriptor A fs;
}.

(** [rescue_fiber] on a detached fiber and [append_to_fiber] otherwise: the
    write both stores make. *)
Definition write_fiber (F : FileWriterSession) (s : fs_state F) (f : FiberId) (u : Uuid)
    (payload : Bytes) : fs_state F * result WriteLandingVerdict Boxed :=
  match fiber F s f with
  | Err e => (s, Err e)
  | Ok handle =>
      if is_detached handle then rescue_fiber F s f u payload
      else append_to_fiber F s f u payload
  end.

Lemma write_fiber_wrote F log `{!SessionLaws F log} s f u p s' r :
  write_fiber F s f u p = (s', r) -> wrote F log (mkBlock f false u p) s s' r.
Proof.
  unfold write_fiber. destruct (fiber F s f) as [h|e].
  - destruct (is_detached h); [apply law_rescue_fiber|apply law_append_to_fiber].
  - by intros [= <- <-].
Qed.

(** Whatever its result, a write leaves the log or adds its block to it. *)
Lemma wrote_log F log b (s s' : fs_state F) r :
  wrote F log b s s' r -> log s' = log s \/ log s' = log s ++ [b].
Proof. destruct r as [[|e]|e]; simpl; naive_solver. Qed.

(** ** A scripted session *)

Module LogSession.

(** What the next operation that touches the disk does. *)
Inductive Fault := Works | Fails | UnknownLost | UnknownLanded.

Record State := mkState {
  blocks : list Block;
  uncertain : option string;
  epoch : Z;
  script : list Fault;
  schema : option Z;
}.

Definition next_fault (s : State) : Fault := default Works (head (script s)).
Definition consumed (s : State) : State :=
  mkState (blocks s) (uncertain s) (epoch s) (tail (script s)) (schema s).

Definition io_error : Boxed := BoxOpaque "io error".

Definition write (s : State) (b : Block) : State * result WriteLandingVerdict Boxed :=
  match next_fault s with
  | Works => (mkState (blocks s ++ [b]) (uncertain s) (epoch s) (tail (script s)) (schema s), Ok Landed)
  | Fails => (consumed s, Err io_error)
  | UnknownLost =>
      (mkState (blocks s) (Some "write undetermined") (epoch s) (tail (script s)) (schema s),
       Ok (Undetermined (epoch s)))
  | UnknownLanded =>
      (mkState (blocks s ++ [b]) (Some "write undetermined") (epoch s) (tail (script s)) (schema s),
       Ok (Undetermined (epoch s)))
  end.

Definition do_sync (s : State) : State * result unit Boxed :=
  match next_fault s with
  | Works => (consumed s, Ok tt)
  | _ => (mkState (blocks s) (Some "sync failed") (epoch s) (tail (script s)) (schema s), Err io_error)
  end.

Definition session : FileWriterSession :=
  mkSession State uncertain epoch
    (fun s f => Ok (handle_in f (blocks s)))
    (fun s f => Ok (latest f (blocks s)))
    (fun s => (s, Ok (blocks s)))
    (fun s f u p => write s (mkBlock f false u p))
    (fun s f u p => write s (mkBlock f false u p))
    (fun s f u p => write s (mkBlock f true u p))
    do_sync.

Lemma write_wrote s b s' r :
  write s b = (s', r) -> wrote session blocks b s s' r.
Proof. unfold write. destruct (next_fault s); intros [= <- <-]; simpl; auto. Qed.

#[global] Instance session_laws : SessionLaws session blocks.
Proof.
  split; simpl; try (intros; by apply write_wrote); try naive_solver.
  intros s s' r. unfold do_sync. destruct (next_fault s); intros [= <- <-]; simpl; naive_solver.
Qed.

(** A file: nothing, or what the last session left. *)
Definition Disk : Type := option (list Block * Z * Z).

Definition adapter : FileStorageAdapter session Z :=
  mkAdapter (F := session) Disk (fun d => (d, Ok tt)) (fun _ => (None, Ok tt))
    (fun d c x => match d with
                  | None => (Some ([], claim_epoch c, x), Ok (mkState [] None (claim_epoch c) [] (Some x)))
                  | Some _ => (d, Err io_error)
                  end)
    (fun d => Ok (snd <$> d))
    (fun d => match d with Some (_, e, _) => Ok e | None => Err io_error end)
    (fun d e => match d with
                | Some (bs, e0, x) => (Some (bs, e + 1, x), Ok (mkState bs None (e + 1) [] (Some x)))
                | None => (d, Err io_error)
                end)
    schema.

Definition on_disk (d : Disk) : list Block := from_option (fun x => fst (fst x)) [] d.
Definition schema_on_disk (d : Disk) : option Z := snd <$> d.
Definition left_by (s : State) (d : Disk) : Prop := exists x, schema s = Some x /\ d = Some (blocks s, epoch s, x).

#[global] Instance adapter_laws : AdapterLaws adapter blocks on_disk schema_on_disk left_by.
Proof.
  split; simpl.
  - by intros [[[bs e] x']|] c x d' fs [= <- <-].
  - by intros d o [= <-].
  - by intros [[[bs e0] x]|] e d' fs [= <- <-].
  - by intros fs d (x&->&->).
Qed.

Definition empty (script : list Fault) : State := mkState [] None 1 script None.

End LogSession.

(** ** A concrete encoding *)

(** Bytes of zeros and ones for the binary digits of a code. *)
Fixpoint pos_bits (p : positive) : Bytes :=
  match p with
  | xH => []
  | xO p => Byte.x00 :: pos_bits p
  | xI p => Byte.x01 :: pos_bits p
  end.
Fixpoint bits_pos (b : Bytes) : positive :=
  match b with
  | [] => xH
  | Byte.x01 :: b => xI (bits_pos b)
  | _ :: b => xO (bits_pos b)
  end.

Lemma bits_pos_bits p : bits_pos (pos_bits p) = p.
Proof. induction p as [p IH|p IH|]; simpl; congruence. Qed.

Definition bits_encode {A} `{Countable A} (x : A) : result Bytes Boxed := Ok (pos_bits (encode x)).
Definition bits_decode {A} `{Countable A} (b : Bytes) : result A Boxed :=
  ok_or (decode (bits_pos b)) (BoxOpaque "expected value").

Lemma bits_roundtrip {A} `{Countable A} (x : A) b : bits_encode x = Ok b -> bits_decode b = Ok x.
Proof. intros [= <-]. unfold bits_decode. by rewrite bits_pos_bits, decode_encode. Qed.
