(* ===== verification/PgnoStore.v ===== *)
(** * The pgno event store (crate [pardosa-cherry-pit-test-support])

    [PgnoEventStore] keeps every aggregate's events as JSON records in one
    append-only pardosa session ([lib.rs]); [PgnoSchedulerStore] and
    [PgnoSerdeStore] put a conversion of the event type in front of it
    ([scheduler_store.rs], [serde_bridge.rs]).  The session and the codecs are
    parameters.  The result of the file is that these stores keep the contract of
    the [EventStore] port, failures whose outcome is unknown included. *)

From S2P Require Import Prelude Core Store Pardosa.
Import Envelope EnvelopeFacts.
Local Open Scope result_scope.

(** [PgnoEnvelope<Ev>], the stored record. *)
Record PgnoEnvelope (Ev : Type) := mkPgno {
  pg_event_id : Uuid;
  pg_aggregate_id : Z;
  pg_sequence : Z;
  pg_timestamp_nanos : Z;
  pg_correlation_id : option Uuid;
  pg_causation_id : option Uuid;
  pg_payload : Ev;
}.
Arguments mkPgno {Ev}. Arguments pg_event_id {Ev}. Arguments pg_aggregate_id {Ev}.
Arguments pg_sequence {Ev}. Arguments pg_timestamp_nanos {Ev}.
Arguments pg_correlation_id {Ev}. Arguments pg_causation_id {Ev}. Arguments pg_payload {Ev}.

(** The codecs: [serde_json::to_vec] and [from_slice] on the record, and the
    constructor and wire form of pardosa's bounded byte value. *)
Record JsonCodec (R : Type) := mkCodec {
  to_vec : R -> result Bytes Boxed;
  from_slice : Bytes -> result R Boxed;
  json_bytes_new : Bytes -> result Bytes Boxed;
  encode_type : Bytes -> result Bytes Boxed;
  decode_type : Bytes -> result (Bytes * nat) Boxed;
}.
Arguments to_vec {R}. Arguments from_slice {R}. Arguments json_bytes_new {R}.
Arguments encode_type {R}. Arguments decode_type {R}. Arguments mkCodec {R}.

(** What is encoded decodes to itself, using all its bytes. *)
Class JsonCodecLaws {R} (J : JsonCodec R) : Prop := {
  codec_serde r j : to_vec J r = Ok j -> from_slice J j = Ok r;
  codec_new j b : json_bytes_new J j = Ok b -> b = j;
  codec_wire b p : encode_type J b = Ok p -> decode_type J p = Ok (b, length p);
}.

Inductive WriteDiagnostic :=
| WdUndetermined (carried_epoch : Z)
| WdRetainedUncertainty (carried_epoch : Z) (diagnostic : string)
| WdLanded (source : Boxed).

(** [i64::try_from(n).unwrap_or(i64::MAX)]. *)
Definition i64_or_max (n : Z) : Z :=
  if (I64_MIN <=? n) && (n <=? I64_MAX) then n else I64_MAX.

Definition SINGLE_EVENT_ONLY : string :=
  "PgnoEventStore accepts only single-event batches (create/append); multi-event atomic commit has no primitive in the pardosa substrate today (see bd ghr-00b572de option (a))".

Lemma find_appended {Ev} id (l : list (EventEnvelope Ev)) e u :
  valid_stream id (l ++ [e]) -> event_id e = u ->
  find_first (fun x => event_id x =? u) (l ++ [e]) = Some e.
Proof.
  intros Hv <-. apply valid_stream_snoc in Hv as (_&_&Hnot&_).
  induction l as [|x l IH]; simpl in *; [by rewrite Z.eqb_refl|].
  destruct (Z.eqb_spec (event_id x) (event_id e)) as [He|_]; [|apply IH; set_solver].
  destruct Hnot. rewrite He. set_solver.
Qed.

Module Pgno.
Section Pgno.
Context {Ev D : Type} `{EqDecision D} (show_uuid : Uuid -> string).
Context (F : FileWriterSession) (J : JsonCodec (PgnoEnvelope Ev)).
Context (derive_fiber_id : string -> FiberId).
(** [jiff::Timestamp::from_nanosecond]. *)
Context (from_nanosecond : Z -> result Timestamp Boxed).
(** The schema descriptor recorded in a session, and the one the crate admits. *)
Context (schema_descriptor : fs_state F -> option D) (expected_descriptor : result D Boxed).

Definition WriteDiagnostic_display (d : WriteDiagnostic) : string :=
  match d with
  | WdUndetermined epoch => "write landing undetermined at epoch " +:+ show_Z epoch
  | WdRetainedUncertainty epoch diagnostic =>
      "session uncertain at epoch " +:+ show_Z epoch +:+ ": " +:+ diagnostic
  | WdLanded source => "event landed before failure: " +:+ Boxed_display show_uuid source
  end.

Definition box_diagnostic (d : WriteDiagnostic) : Boxed := BoxMsg (WriteDiagnostic_display d).

Definition after_landed (error : Boxed) : StoreError := Indeterminate (box_diagnostic (WdLanded error)).
Definition to_store_error (error : Boxed) : StoreError := Infrastructure error.
Definition single_event_error : StoreError := Infrastructure (BoxMsg SINGLE_EVENT_ONLY).

Definition validate_descriptor (recorded : option D) (expected : D) : result unit StoreError :=
  match recorded with
  | Some descriptor =>
      if bool_decide (descriptor = expected) then Ok tt
      else Err (CorruptData (BoxOpaque "JSON byte codec/schema version mismatch"))
  | None => Err (CorruptData (BoxOpaque "JSON byte codec/schema version mismatch"))
  end.

Definition decode_record (payload : Bytes) : result (PgnoEnvelope Ev) StoreError :=
  let? '(bytes, consumed) := map_err CorruptData (decode_type J payload) in
  if negb (consumed =? length payload)%nat
  then Err (CorruptData (BoxMsg "trailing JSON envelope bytes"))
  else map_err CorruptData (from_slice J bytes).

(** [PgnoEventStore], with the sources of identifiers and time.  The table of
    per-aggregate mutexes holds no data: an operation is atomic here, and
    [PgnoShared] interleaves them. *)
Record PgnoEventStore := mkPgnoStore {
  session : fs_state F;
  next_id : Z;
  world : World;
}.

Definition with_session (s : PgnoEventStore) (fs : fs_state F) : PgnoEventStore :=
  mkPgnoStore fs (next_id s) (world s).
Definition with_world (s : PgnoEventStore) (w : World) : PgnoEventStore :=
  mkPgnoStore (session s) (next_id s) w.

Definition ready_session (s : PgnoEventStore) : result unit StoreError :=
  match uncertain_diagnostic F (session s) with
  | Some diagnostic =>
      Err (Indeterminate (box_diagnostic
             (WdRetainedUncertainty (carried_epoch F (session s)) diagnostic)))
  | None => Ok tt
  end.

(** The fold of [from_session] over the records. *)
Fixpoint max_aggregate_id (maximum : Z) (envelopes : list Block) : result Z StoreError :=
  match envelopes with
  | [] => Ok maximum
  | env :: rest =>
      let? record := decode_record (block_payload env) in
      max_aggregate_id (Z.max maximum (pg_aggregate_id record)) rest
  end.

Definition from_session (fs : fs_state F) (w : World) : result PgnoEventStore StoreError :=
  let? expected := map_err to_store_error expected_descriptor in
  let? _ := validate_descriptor (schema_descriptor fs) expected in
  let '(fs, r) := read_all_envelopes F fs in
  let? envelopes := map_err to_store_error r in
  let? max_id := max_aggregate_id 0 envelopes in
  Ok (mkPgnoStore fs max_id w).

(** The loop of [ordered_stream] over the blocks. *)
Fixpoint collect_stream (id : AggregateId) (envelopes : list Block)
    : result (list (EventEnvelope Ev)) StoreError :=
  match envelopes with
  | [] => Ok []
  | env :: rest =>
      if detached env then collect_stream id rest
      else
        let? record := decode_record (block_payload env) in
        if pg_aggregate_id record =? AggregateId_get id then
          let? sequence := ok_or (NonZeroU64_new (pg_sequence record))
                             (CorruptData (BoxMsg "stored sequence must be non-zero")) in
          let? timestamp := map_err CorruptData (from_nanosecond (pg_timestamp_nanos record)) in
          let? envelope := map_err (fun e => CorruptData (BoxEnvelope e))
            (Envelope.new (pg_event_id record) id sequence timestamp
               (pg_correlation_id record) (pg_causation_id record) (pg_payload record)) in
          let? result := collect_stream id rest in
          Ok (envelope :: result)
        else collect_stream id rest
  end.

Definition ordered_stream (s : PgnoEventStore) (id : AggregateId)
    : PgnoEventStore * result (list (EventEnvelope Ev)) StoreError :=
  match ready_session s with
  | Err e => (s, Err e)
  | Ok _ =>
      let '(fs, r) := read_all_envelopes F (session s) in
      (with_session s fs,
       let? envelopes := map_err to_store_error r in
       let? result := collect_stream id envelopes in
       let result := sort_by_key sequence result in
       let? _ := map_err (fun e => CorruptData (BoxEnvelope e)) (validate_stream id result) in
       Ok result)
  end.

Definition encode_record (record : PgnoEnvelope Ev) : result Bytes StoreError :=
  let? json := map_err Infrastructure (to_vec J record) in
  let? bytes := map_err to_store_error (json_bytes_new J json) in
  map_err to_store_error (encode_type J bytes).

Definition record_single (s : PgnoEventStore) (aggregate_id : Z) (event_id : Uuid) (sequence : Z)
    (correlation_id causation_id : option Uuid) (payload : Ev)
    : PgnoEventStore * result unit StoreError :=
  let '(w, now) := timestamp_now (world s) in
  let s := with_world s w in
  let record := mkPgno event_id aggregate_id sequence (i64_or_max now) correlation_id
                  causation_id payload in
  match encode_record record with
  | Err e => (s, Err e)
  | Ok payload_bytes =>
      let fiber_id := derive_fiber_id (show_Z aggregate_id) in
      match ready_session s with
      | Err e => (s, Err e)
      | Ok _ =>
          let '(fs, verdict) := write_fiber F (session s) fiber_id event_id payload_bytes in
          let s := with_session s fs in
          match verdict with
          | Err e => (s, Err (to_store_error e))
          | Ok (Undetermined epoch) =>
              (s, Err (Indeterminate (box_diagnostic (WdUndetermined epoch))))
          | Ok Landed =>
              let '(fs, r) := sync F (session s) in
              (with_session s fs, map_err after_landed r)
          end
      end
  end.

Definition load := ordered_stream.

(** [create]; [None] where the identifier arithmetic panics. *)
Definition create (s : PgnoEventStore) (events : list Ev) (context : CorrelationContext)
    : option (PgnoEventStore * result (AggregateId * list (EventEnvelope Ev)) StoreError) :=
  match ready_session s with
  | Err e => Some (s, Err e)
  | Ok _ =>
      match events with
      | _ :: _ :: _ => Some (s, Err single_event_error)
      | [] => Some (s, Err (Infrastructure (BoxMsg "cannot create aggregate with zero events")))
      | [payload] =>
          let previous := next_id s in
          let s := mkPgnoStore (session s) (wrapping_add U64_MAX previous 1) (world s) in
          match checked_add U64_MAX previous 1 with
          | None => None
          | Some raw_id =>
              match NonZeroU64_new raw_id with
              | None => Some (s, Err (Infrastructure (BoxMsg "aggregate ID overflow")))
              | Some raw_id =>
                  let id := AggregateId_new raw_id in
                  let '(w, event_id) := now_v7 (world s) in
                  let '(s, r) := record_single (with_world s w) raw_id event_id 1
                                   (correlation_id context) (causation_id context) payload in
                  match r with
                  | Err e => Some (s, Err e)
                  | Ok _ =>
                      let '(s, r) := ordered_stream s id in
                      Some (s, match r with
                               | Err e => Err (after_landed (BoxStore e))
                               | Ok envelopes => Ok (id, envelopes)
                               end)
                  end
              end
          end
      end
  end.

(** The part of [append] after its checks: write the event, read the stream
    back and return the envelope just written. *)
Definition append_next (s : PgnoEventStore) (id : AggregateId) (next_sequence : Z)
    (payload : Ev) (context : CorrelationContext)
    : PgnoEventStore * result (list (EventEnvelope Ev)) StoreError :=
  let '(w, event_id) := now_v7 (world s) in
  let '(s, r) := record_single (with_world s w) (AggregateId_get id) event_id next_sequence
                   (correlation_id context) (causation_id context) payload in
  match r with
  | Err e => (s, Err e)
  | Ok _ =>
      let '(s, r) := ordered_stream s id in
      (s, let? full_stream := map_err (fun e => after_landed (BoxStore e)) r in
          let? new_envelope := ok_or (find_first (fun e => Core.event_id e =? event_id) full_stream)
            (after_landed (BoxMsg "landed event absent from reloaded stream")) in
          Ok [new_envelope])
  end.

(** [append]; [None] where the sequence arithmetic panics. *)
Definition append (s : PgnoEventStore) (id : AggregateId) (expected_sequence : Z)
    (events : list Ev) (context : CorrelationContext)
    : option (PgnoEventStore * result (list (EventEnvelope Ev)) StoreError) :=
  match ready_session s with
  | Err e => Some (s, Err e)
  | Ok _ =>
      match events with
      | _ :: _ :: _ => Some (s, Err single_event_error)
      | [] => Some (s, Ok [])
      | [payload] =>
          let '(s, r) := ordered_stream s id in
          match r with
          | Err e => Some (s, Err e)
          | Ok [] => Some (s, Err (Infrastructure (BoxMsg ("append to aggregate AggregateId("
                             +:+ AggregateId_display id +:+ ") that was never created"))))
          | Ok existing =>
              let actual_sequence := from_option sequence 0 (last existing) in
              if negb (actual_sequence =? expected_sequence)
              then Some (s, Err (ConcurrencyConflict id expected_sequence actual_sequence))
              else
                match checked_add U64_MAX expected_sequence 1 with
                | None => None
                | Some next_sequence => Some (append_next s id next_sequence payload context)
                end
          end
      end
  end.

(** ** The contract *)

Context (log : fs_state F -> list Block) {session_laws : SessionLaws F log}
        {codec_laws : JsonCodecLaws J}.
(** Every [i64] of nanoseconds is a representable instant. *)
Context (from_nanosecond_i64 : forall n, I64_MIN <= n <= I64_MAX -> from_nanosecond n = Ok n).
Implicit Types (s : PgnoEventStore) (id : AggregateId).

Definition envelope_of (r : PgnoEnvelope Ev) : EventEnvelope Ev :=
  mkEnvelope (pg_event_id r) (AggregateId_new (pg_aggregate_id r)) (pg_sequence r)
    (pg_timestamp_nanos r) (pg_correlation_id r) (pg_causation_id r) (pg_payload r).

(** The history of an aggregate in a log. *)
Definition block_event (id : AggregateId) (b : Block) : option (EventEnvelope Ev) :=
  if detached b then None
  else match decode_record (block_payload b) with
       | Ok r => if pg_aggregate_id r =? AggregateId_get id then Some (envelope_of r) else None
       | Err _ => None
       end.

Definition view s (id : AggregateId) : list (EventEnvelope Ev) :=
  omap (block_event id) (log (session s)).

(** A block the store wrote. *)
Definition good_block (max : Z) (w : World) (b : Block) : Prop :=
  detached b = false /\ exists r, decode_record (block_payload b) = Ok r
    /\ 1 <= pg_aggregate_id r <= max /\ 1 <= pg_sequence r
    /\ I64_MIN <= pg_timestamp_nanos r <= I64_MAX
    /\ exists i, (i < uuid_drawn w)%nat /\ pg_event_id r = uuid_at w i.

Record Inv s : Prop := {
  pi_source : v7_source (world s);
  pi_next : 0 <= next_id s <= U64_MAX;
  pi_blocks : Forall (good_block (next_id s) (world s)) (log (session s));
  pi_valid id : valid_stream id (view s id);
  pi_length id : Z.of_nat (length (view s id)) <= U64_MAX;
}.

(** The same log, counter and source of identifiers. *)
Record same s s' : Prop := {
  sm_log : log (session s') = log (session s);
  sm_next : next_id s' = next_id s;
  sm_at : uuid_at (world s') = uuid_at (world s);
  sm_drawn : uuid_drawn (world s') = uuid_drawn (world s);
}.

Lemma same_refl s : same s s.
Proof. by split. Qed.

Lemma same_trans s1 s2 s3 : same s1 s2 -> same s2 s3 -> same s1 s3.
Proof. intros [] []. split; congruence. Qed.

Lemma same_view s s' id : same s s' -> view s' id = view s id.
Proof. intros [Hl _ _ _]. unfold view. by rewrite Hl. Qed.

Lemma good_block_mono m m' w w' b :
  m <= m' -> uuid_at w' = uuid_at w -> (uuid_drawn w <= uuid_drawn w')%nat ->
  good_block m w b -> good_block m' w' b.
Proof.
  intros Hm Hat Hd (?&r&?&?&?&?&i&Hi&Hu). split; [done|]. exists r. split_and!; try done; try lia.
  exists i. split; [lia|]. by rewrite Hat.
Qed.

Lemma same_inv s s' : same s s' -> Inv s -> Inv s'.
Proof.
  intros Hs [Hsrc Hn Hb Hv Hl]. pose proof Hs as [Hlog Hnx Hat Hd]. split.
  - unfold v7_source. by rewrite Hat.
  - by rewrite Hnx.
  - rewrite Hlog, Hnx. eapply Forall_impl; [done|]. intros b.
    apply good_block_mono; [lia|done|]. by rewrite Hd.
  - intros id. by rewrite (same_view _ _ _ Hs).
  - intros id. by rewrite (same_view _ _ _ Hs).
Qed.

(** *** Reading *)

Lemma collect_stream_ok id max w l :
  v7_source w -> Forall (good_block max w) l -> collect_stream id l = Ok (omap (block_event id) l).
Proof using from_nanosecond_i64.
  intros Hsrc. induction 1 as [|b l Hb Hl IH]; simpl; [done|].
  destruct Hb as (Hd&r&Hr&Ha&Hs&Ht&i&Hi&Hu). unfold block_event at 1. rewrite Hd, Hr. simpl.
  destruct (Z.eqb_spec (pg_aggregate_id r) (AggregateId_get id)) as [He|He]; [|done].
  unfold NonZeroU64_new. destruct (Z.eqb_spec (pg_sequence r) 0); [lia|]. simpl.
  rewrite from_nanosecond_i64 by done. simpl. unfold Envelope.new, is_nil.
  destruct (Z.eqb_spec (pg_event_id r) 0) as [Hz|_].
  { rewrite Hu in Hz. by destruct (proj1 Hsrc i). }
  simpl. rewrite IH. simpl. do 2 f_equal. unfold envelope_of. by destruct id; simplify_eq/=.
Qed.

Lemma sort_valid id (l : list (EventEnvelope Ev)) : valid_stream id l -> sort_by_key sequence l = l.
Proof using Type.
  intros [_ _ _ Hc]. apply sort_by_key_sorted. intros i x y Hx Hy.
  rewrite (contiguous_lookup _ _ _ _ Hc Hx), (contiguous_lookup _ _ _ _ Hc Hy). lia.
Qed.

Lemma ordered_stream_spec s id s' r :
  Inv s -> ordered_stream s id = (s', r) -> same s s' /\ (forall l, r = Ok l -> l = view s id).
Proof using from_nanosecond_i64 session_laws.
  intros HI. unfold ordered_stream. destruct (ready_session s) as [u|e].
  2:{ intros [= <- <-]. split; [apply same_refl|done]. }
  destruct (read_all_envelopes F (session s)) as [fs ra] eqn:Hra.
  apply law_read_all in Hra as [Hlog Hok]. intros [= <- <-].
  split; [by split|]. intros l. destruct ra as [bs|e]; simpl; [|done].
  rewrite (Hok _ eq_refl), (collect_stream_ok _ _ _ _ (pi_source _ HI) (pi_blocks _ HI)). simpl.
  fold (view s id). rewrite (sort_valid id) by apply HI.
  rewrite validate_stream_valid by apply HI. simpl. by intros [= <-].
Qed.

(** *** Writing *)

Lemma decode_encoded r p : encode_record r = Ok p -> decode_record p = Ok r.
Proof using codec_laws.
  unfold encode_record, decode_record.
  destruct (to_vec J r) as [j|e] eqn:Hj; simpl; [|done].
  destruct (json_bytes_new J j) as [b|e] eqn:Hb; simpl; [|done].
  destruct (encode_type J b) as [p'|e] eqn:Hp; simpl; [|done]. intros [= <-].
  rewrite (codec_wire _ _ Hp). simpl. rewrite Nat.eqb_refl. simpl.
  apply codec_new in Hb as ->. by rewrite (codec_serde _ _ Hj).
Qed.

Lemma i64_or_max_range n : I64_MIN <= i64_or_max n <= I64_MAX.
Proof using Type.
  unfold i64_or_max. destruct ((I64_MIN <=? n) && (n <=? I64_MAX)) eqn:H; to_prop; [lia|].
  unfold I64_MIN, I64_MAX. lia.
Qed.

(** The store with one more block, and nothing else of interest changed. *)
Definition landed s s' (r : PgnoEnvelope Ev) : Prop :=
  next_id s' = next_id s /\ uuid_at (world s') = uuid_at (world s)
  /\ uuid_drawn (world s') = uuid_drawn (world s)
  /\ exists b, log (session s') = log (session s) ++ [b] /\ detached b = false
                /\ decode_record (block_payload b) = Ok r.

Lemma record_single_spec s agg u q corr caus payload s' res :
  record_single s agg u q corr caus payload = (s', res) ->
  (same s s' /\ exists e, res = Err e)
  \/ (exists ts, I64_MIN <= ts <= I64_MAX /\ landed s s' (mkPgno u agg q ts corr caus payload)
       /\ (res = Ok tt \/ exists e, res = Err e /\ ~ definite e)).
Proof using session_laws codec_laws.
  unfold record_single. destruct (timestamp_now (world s)) as [w now] eqn:Hw.
  unfold timestamp_now in Hw. injection Hw as <- <-. set (ts := now_at _ _).
  destruct (encode_record _) as [p|e] eqn:Henc.
  2:{ intros [= <- <-]. left. split; [by split|by eexists]. }
  apply decode_encoded in Henc.
  destruct (ready_session _) as [[]|e].
  2:{ intros [= <- <-]. left. split; [by split|by eexists]. }
  destruct (write_fiber F _ _ u p) as [fs v] eqn:Hwr. apply (write_fiber_wrote F log) in Hwr.
  simpl in Hwr. destruct v as [[|ep]|e]; simpl in Hwr.
  - destruct (sync F _) as [fs2 r2] eqn:Hsy. apply law_sync in Hsy as [Hsy _]. simpl in Hsy.
    intros [= <- <-]. right. exists (i64_or_max ts). split; [apply i64_or_max_range|]. split.
    + split_and!; try done. eexists. split; [simpl; by rewrite Hsy, Hwr|done].
    + destruct r2 as [[]|e]; [by left|right]. eexists. split; [done|]. apply indeterminate_not_definite.
  - intros [= <- <-]. destruct Hwr as [[Hwr|Hwr] _].
    + left. split; [by split|by eexists].
    + right. exists (i64_or_max ts). split; [apply i64_or_max_range|]. split.
      * split_and!; try done. eexists. by split.
      * right. eexists. split; [done|]. apply indeterminate_not_definite.
  - intros [= <- <-]. left. split; [by split|by eexists].
Qed.

(** Landing the next event of an aggregate. *)
Lemma landed_inv s s' r :
  Inv s -> landed s s' r -> 1 <= pg_aggregate_id r <= next_id s ->
  I64_MIN <= pg_timestamp_nanos r <= I64_MAX ->
  (exists i, (i < uuid_drawn (world s))%nat /\ pg_event_id r = uuid_at (world s) i) ->
  pg_event_id r ∉ map event_id (view s (AggregateId_new (pg_aggregate_id r))) ->
  pg_sequence r = Z.of_nat (length (view s (AggregateId_new (pg_aggregate_id r)))) + 1 ->
  pg_sequence r <= U64_MAX ->
  Inv s'
  /\ view s' (AggregateId_new (pg_aggregate_id r))
     = view s (AggregateId_new (pg_aggregate_id r)) ++ [envelope_of r]
  /\ (forall j, j <> AggregateId_new (pg_aggregate_id r) -> view s' j = view s j).
Proof using Type.
  intros [Hsrc Hn Hb Hv Hl] (Hnx&Hat&Hdr&b&Hlog&Hd&Hdec) Ha Ht (i&Hi&Hu) Hfresh Hq Hmax.
  assert (Hview : forall j, view s' j = view s j ++
                    if decide (j = AggregateId_new (pg_aggregate_id r)) then [envelope_of r] else []).
  { intros j. unfold view. rewrite Hlog, omap_app. f_equal. simpl. unfold block_event.
    rewrite Hd, Hdec. destruct j as [j]; simpl.
    destruct (Z.eqb_spec (pg_aggregate_id r) j), (decide _); simplify_eq/=; done. }
  assert (Hid : view s' (AggregateId_new (pg_aggregate_id r))
                = view s (AggregateId_new (pg_aggregate_id r)) ++ [envelope_of r])
    by (rewrite Hview; by rewrite decide_True).
  assert (Hother : forall j, j <> AggregateId_new (pg_aggregate_id r) -> view s' j = view s j)
    by (intros j Hj; rewrite Hview, decide_False by done; apply app_nil_r).
  split; [|by split]. split.
  - unfold v7_source. by rewrite Hat.
  - by rewrite Hnx.
  - rewrite Hlog, Hnx. apply Forall_app. split.
    + eapply Forall_impl; [done|]. intros x. apply good_block_mono; [lia|done|by rewrite Hdr].
    + apply Forall_singleton. split; [done|]. exists r. split_and!; try done; try lia.
      exists i. rewrite Hat, Hdr. by split.
  - intros j. destruct (decide (j = AggregateId_new (pg_aggregate_id r))) as [->|Hj].
    + rewrite Hid. apply valid_stream_snoc. split_and!; try done. simpl. rewrite Hu. apply Hsrc.
    + by rewrite Hother.
  - intros j. destruct (decide (j = AggregateId_new (pg_aggregate_id r))) as [->|Hj].
    + rewrite Hid, length_app. simpl. lia.
    + by rewrite Hother.
Qed.

(** Drawing identifiers and raising the counter keep the invariant. *)
Lemma grow_inv s n w :
  Inv s -> next_id s <= n <= U64_MAX -> uuid_at w = uuid_at (world s) ->
  (uuid_drawn (world s) <= uuid_drawn w)%nat -> Inv (mkPgnoStore (session s) n w).
Proof using Type.
  intros [Hsrc Hn Hb Hv Hl] Hle Hat Hd. split; simpl; try done.
  - unfold v7_source. by rewrite Hat.
  - lia.
  - eapply Forall_impl; [done|]. intros b. apply good_block_mono; [lia|done|done].
Qed.

Lemma undrawn_fresh s id :
  Inv s -> uuid_at (world s) (uuid_drawn (world s)) ∉ map event_id (view s id).
Proof using Type.
  intros [Hsrc _ Hb _ _] Hin. apply list_elem_of_fmap in Hin as (e&He&Hin).
  apply list_elem_of_omap in Hin as (b&Hin&Hev). rewrite Forall_forall in Hb.
  destruct (Hb b Hin) as (Hd&r&Hr&_&_&_&i&Hi&Hu). unfold block_event in Hev. rewrite Hd, Hr in Hev.
  destruct (_ =? _); simplify_eq/=. rewrite Hu in He. apply Hsrc in He. lia.
Qed.

Lemma view_unused s n : Inv s -> next_id s < n -> view s (AggregateId_new n) = [].
Proof using Type.
  intros [_ _ Hb _ _] Hn. unfold view. induction Hb as [|b l Hb Hl IH]; simpl; [done|].
  destruct Hb as (Hd&r&Hr&Ha&_). unfold block_event at 1. rewrite Hd, Hr. simpl.
  destruct (Z.eqb_spec (pg_aggregate_id r) n); [lia|done].
Qed.

Lemma view_owner s id : Inv s -> view s id <> [] -> 1 <= AggregateId_get id <= next_id s.
Proof using Type.
  intros HI Hne. destruct (view s id) as [|e l] eqn:Hv; [done|].
  assert (He : e ∈ view s id) by (rewrite Hv; left).
  apply list_elem_of_omap in He as (b&Hin&Hev). pose proof (pi_blocks _ HI) as Hb.
  rewrite Forall_forall in Hb. destruct (Hb b Hin) as (Hd&r&Hr&Ha&_).
  unfold block_event in Hev. rewrite Hd, Hr in Hev.
  destruct (Z.eqb_spec (pg_aggregate_id r) (AggregateId_get id)) as [<-|_]; [done|discriminate].
Qed.

Lemma load_law s id s' r :
  Inv s -> load s id = (s', r) -> load_contract Inv view s id s' r.
Proof using from_nanosecond_i64 session_laws.
  intros HI Hl. destruct (ordered_stream_spec _ _ _ _ HI Hl) as [Hs Hok].
  split; [by eapply same_inv|]. split; [|done]. intros j. by apply same_view.
Qed.

(** One event written after the history of [id], from a store [s1] that drew its
    identifier; then the stream is read back. *)
Lemma record_law s s1 id q payload ctx s2 res :
  Inv s -> Inv s1 -> session s1 = session s -> uuid_at (world s1) = uuid_at (world s) ->
  uuid_drawn (world s1) = S (uuid_drawn (world s)) -> 1 <= AggregateId_get id <= next_id s1 ->
  q = Z.of_nat (length (view s id)) + 1 -> q <= U64_MAX ->
  record_single s1 (AggregateId_get id) (uuid_at (world s) (uuid_drawn (world s))) q (correlation_id ctx) (causation_id ctx) payload = (s2, res) ->
  Inv s2 /\
  ((forall j, view s2 j = view s j) /\ (exists e, res = Err e)
   \/ exists env, event_id env = uuid_at (world s) (uuid_drawn (world s))
        /\ stamped id ctx [payload] [env] /\ view s2 id = view s id ++ [env]
        /\ (forall j, j <> id -> view s2 j = view s j)
        /\ (res = Ok tt \/ exists e, res = Err e /\ ~ definite e)).
Proof using session_laws codec_laws.
  intros HI HI1 Hses Hat Hdr Hid -> Hlen Hrec.
  assert (Hv1 : forall j, view s1 j = view s j) by (intros j; unfold view; by rewrite Hses).
  destruct id as [id]; simpl in *.
  destruct (record_single_spec _ _ _ _ _ _ _ _ _ Hrec) as [[Hs He]|(ts&Hts&Hland&Hres)].
  - split; [by eapply same_inv|]. left. split; [|done]. intros j. by rewrite (same_view _ _ _ Hs).
  - destruct (landed_inv _ _ _ HI1 Hland) as (HI2&Hvid&Ho); simpl; try done; try lia.
    + exists (uuid_drawn (world s)). rewrite Hat, Hdr. split; [lia|done].
    + rewrite Hv1. by apply undrawn_fresh.
    + by rewrite Hv1.
    + split; [done|]. right. simpl in Hvid, Ho. eexists. split; [|split; [|split; [|split]]].
      4:{ intros j Hj. by rewrite Ho. }
      3:{ by rewrite Hvid, Hv1. }
      * done.
      * constructor; [done|constructor].
      * done.
Qed.

Lemma refl_create s events ctx e : Inv s -> create_contract Inv view s events ctx s (Err e).
Proof using Type. intros HI. split; [done|]. by left. Qed.

Lemma create_law s events ctx :
  Inv s -> next_id s < U64_MAX ->
  exists s' r, create s events ctx = Some (s', r) /\ create_contract Inv view s events ctx s' r.
Proof using from_nanosecond_i64 session_laws codec_laws.
  intros HI Hroom. unfold create. destruct (ready_session s) as [[]|e].
  2:{ do 2 eexists. split; [done|]. by apply refl_create. }
  destruct events as [|payload [|]]; try (do 2 eexists; split; [done|]; by apply refl_create).
  pose proof (pi_next _ HI) as Hn.
  destruct (checked_add U64_MAX (next_id s) 1) as [raw|] eqn:Hraw.
  2:{ apply checked_add_None in Hraw. lia. }
  apply checked_add_Some in Hraw as [-> Hle].
  destruct (NonZeroU64_new (next_id s + 1)) as [raw|] eqn:Hnz.
  2:{ unfold NonZeroU64_new in Hnz. destruct (Z.eqb_spec (next_id s + 1) 0); [lia|done]. }
  apply NonZeroU64_new_Some in Hnz as [<- _].
  unfold wrapping_add. rewrite Z.mod_small by lia.
  destruct (now_v7 _) as [w u] eqn:Hu. unfold now_v7 in Hu. simpl in Hu. injection Hu as <- <-.
  destruct (record_single _ _ _ 1 _ _ _) as [s2 res] eqn:Hrec.
  pose proof (view_unused s (next_id s + 1) HI ltac:(lia)) as Hnew.
  opose proof (record_law s _ (AggregateId_new (next_id s + 1)) 1 payload ctx s2 res HI
                 _ _ _ _ _ _ _ Hrec) as [HI2 Hcases]; simpl; try done; try lia.
  { apply (grow_inv s (next_id s + 1)); simpl; try done; lia. }
  { by rewrite Hnew. }
  destruct Hcases as [(Hv&e&->)|(env&_&Hst&Hvid&Ho&Hres)].
  { do 2 eexists. split; [done|]. split; [done|]. by left. }
  rewrite Hnew in Hvid. simpl in Hvid.
  assert (Hun : forall e, ~ definite e ->
            create_contract Inv view s [payload] ctx s2 (Err e)).
  { intros e He. split; [done|]. right. split; [done|]. exists (AggregateId_new (next_id s + 1)).
    rewrite Hvid. by split_and!. }
  destruct Hres as [->|(e&->&He)]; [|do 2 eexists; split; [done|]; by apply Hun].
  destruct (ordered_stream s2 _) as [s3 r3] eqn:Hor.
  destruct (ordered_stream_spec _ _ _ _ HI2 Hor) as [Hs3 Hok].
  do 2 eexists. split; [done|]. split; [by eapply same_inv|].
  destruct r3 as [l|e].
  - rewrite (Hok _ eq_refl), Hvid, !(same_view _ _ _ Hs3), Hvid. split_and!; try done.
    intros j Hj. rewrite (same_view _ _ _ Hs3). by apply Ho.
  - right. split; [apply indeterminate_not_definite|]. exists (AggregateId_new (next_id s + 1)).
    rewrite !(same_view _ _ _ Hs3), Hvid. split_and!; try done.
    intros j Hj. rewrite (same_view _ _ _ Hs3). by apply Ho.
Qed.

Lemma refl_append s s' id q events ctx e :
  Inv s -> same s s' -> append_contract Inv view s id q events ctx s' (Err e).
Proof using Type.
  intros HI Hs. split; [by eapply same_inv|]. left. intros j. by apply same_view.
Qed.

Lemma append_next_law s id payload ctx s' r :
  Inv s -> view s id <> [] -> Z.of_nat (length (view s id)) < U64_MAX ->
  append_next s id (Z.of_nat (length (view s id)) + 1) payload ctx = (s', r) ->
  append_contract Inv view s id (Z.of_nat (length (view s id))) [payload] ctx s' r.
Proof using from_nanosecond_i64 session_laws codec_laws.
  intros HI Hne Hroom. unfold append_next.
  destruct (now_v7 (world s)) as [w u] eqn:Hu. unfold now_v7 in Hu. injection Hu as <- <-.
  destruct (record_single _ _ _ _ _ _ _) as [s2 res] eqn:Hrec.
  opose proof (record_law s _ id _ payload ctx s2 res HI _ _ _ _ _ _ _ Hrec) as [HI2 Hcases];
    simpl; try done; try lia.
  { apply (grow_inv s (next_id s)); simpl; try done; [|lia]. pose proof (pi_next _ HI). lia. }
  { by apply view_owner. }
  destruct Hcases as [(Hv&e&->)|(env&Henv&Hst&Hvid&Ho&Hres)].
  { intros [= <- <-]. split; [done|]. by left. }
  destruct Hres as [->|(e&->&He)].
  2:{ intros [= <- <-]. split; [done|]. right. split_and!; try done. by exists [env]. }
  destruct (ordered_stream s2 id) as [s3 r3] eqn:Hor.
  destruct (ordered_stream_spec _ _ _ _ HI2 Hor) as [Hs3 Hok]. intros [= <- <-].
  split; [by eapply same_inv|].
  assert (Ho3 : forall j, j <> id -> view s3 j = view s j).
  { intros j Hj. rewrite (same_view _ _ _ Hs3). by apply Ho. }
  destruct r3 as [l|e]; simpl.
  - rewrite (Hok _ eq_refl), Hvid, (find_appended id), (same_view _ _ _ Hs3); [|rewrite <- Hvid; apply HI2|done].
    simpl. by split_and!.
  - right. split; [apply indeterminate_not_definite|]. split; [done|]. exists [env].
    by rewrite (same_view _ _ _ Hs3).
Qed.

Lemma append_law s id expected events ctx :
  Inv s -> Z.of_nat (length (view s id)) < U64_MAX ->
  exists s' r, append s id expected events ctx = Some (s', r)
               /\ append_contract Inv view s id expected events ctx s' r.
Proof using from_nanosecond_i64 session_laws codec_laws.
  intros HI Hroom. unfold append. destruct (ready_session s) as [[]|e].
  2:{ do 2 eexists. split; [done|]. apply refl_append; [done|apply same_refl]. }
  destruct events as [|payload [|]].
  { do 2 eexists. split; [done|]. split; [done|]. rewrite app_nil_r. by split_and!; try constructor. }
  2:{ do 2 eexists. split; [done|]. apply refl_append; [done|apply same_refl]. }
  destruct (ordered_stream s id) as [s0 r0] eqn:Ho0.
  destruct (ordered_stream_spec _ _ _ _ HI Ho0) as [Hs0 Hok0].
  destruct r0 as [existing|e]; [|do 2 eexists; split; [done|]; by apply refl_append].
  specialize (Hok0 _ eq_refl). destruct existing as [|e0 rest] eqn:Hview.
  { do 2 eexists. split; [done|]. by apply refl_append. }
  assert (Hlast : from_option sequence 0 (last (e0 :: rest)) = Z.of_nat (length (view s id))).
  { rewrite Hok0. destruct (last (view s id)) as [x|] eqn:Hl; simpl.
    - by apply (valid_stream_last id); [apply HI|].
    - by rewrite (proj1 (last_None _) Hl). }
  rewrite Hlast. destruct (Z.eqb_spec (Z.of_nat (length (view s id))) expected) as [<-|Hneq]; simpl.
  2:{ do 2 eexists. split; [done|]. by apply refl_append. }
  destruct (checked_add U64_MAX _ 1) as [nx|] eqn:Hnx.
  2:{ apply checked_add_None in Hnx. lia. }
  apply checked_add_Some in Hnx as [-> _].
  destruct (append_next s0 id _ payload ctx) as [s' r] eqn:Hw. do 2 eexists. split; [done|].
  pose proof (same_view _ _ id Hs0) as Hsame. rewrite <- Hsame in Hw |- *.
  apply append_next_law in Hw.
  - unfold append_contract in *. rewrite Hsame in Hw |- *.
    destruct Hw as [HI' Hw]. split; [done|].
    destruct r as [envs|e]; setoid_rewrite (fun j => same_view _ _ j Hs0) in Hw; done.
  - by eapply same_inv.
  - by rewrite Hsame, <- Hok0.
  - by rewrite Hsame.
Qed.

(** *** Reopening *)

Lemma max_aggregate_id_ok k max w l :
  0 <= k <= U64_MAX -> max <= U64_MAX -> Forall (good_block max w) l ->
  exists m, max_aggregate_id k l = Ok m /\ k <= m <= U64_MAX /\ Forall (good_block m w) l.
Proof using Type.
  intros Hk Hmax Hl. revert k Hk. induction Hl as [|b l Hb Hl IH]; intros k Hk; simpl.
  { exists k. split_and!; try done; lia. }
  destruct Hb as (Hd&r&Hr&Ha&Hq&Ht&Hu). rewrite Hr. simpl.
  destruct (IH (Z.max k (pg_aggregate_id r))) as (m&Hm&Hle&Hall); [lia|].
  exists m. split_and!; try done; try lia. constructor; [|done].
  split; [done|]. exists r. split_and!; try done; lia.
Qed.

Lemma from_session_inv s fs w s' :
  Inv s -> log fs = log (session s) -> uuid_at w = uuid_at (world s) ->
  (uuid_drawn (world s) <= uuid_drawn w)%nat -> from_session fs w = Ok s' ->
  Inv s' /\ forall id, view s' id = view s id.
Proof using session_laws.
  intros HI Hlog Hat Hd. unfold from_session.
  destruct expected_descriptor as [d|e]; simpl; [|done].
  destruct (validate_descriptor _ _) as [u|e]; simpl; [|done].
  destruct (read_all_envelopes F fs) as [fs' r] eqn:Hra. apply law_read_all in Hra as [Hlog' Hok].
  destruct r as [l|e]; simpl; [|done]. rewrite (Hok _ eq_refl), Hlog.
  destruct (max_aggregate_id_ok 0 (next_id s) (world s) (log (session s)))
    as (m&Hm&Hle&Hall); try apply HI; try lia; [done|].
  rewrite Hm. simpl. intros [= <-].
  assert (Hv : forall id, view (mkPgnoStore fs' m w) id = view s id).
  { intros id. unfold view. simpl. by rewrite Hlog', Hlog. }
  split; [|done]. split; simpl.
  - unfold v7_source. rewrite Hat. apply HI.
  - lia.
  - rewrite Hlog', Hlog. eapply Forall_impl; [done|]. intros b. apply good_block_mono; [lia|done|done].
  - intros id. rewrite Hv. apply HI.
  - intros id. rewrite Hv. apply HI.
Qed.

(** *** Runs of bounded length

    The counter of identifiers and the sequences are [u64]s whose overflow
    panics, so the store keeps its contract in every run of fewer than 2^64
    writes.  [bounded] is the store with the number of writes left to the run. *)

Lemma record_single_small s agg u q corr caus payload s' r :
  record_single s agg u q corr caus payload = (s', r) ->
  next_id s' = next_id s /\ (length (log (session s')) <= S (length (log (session s))))%nat.
Proof using session_laws codec_laws.
  intros H. destruct (record_single_spec _ _ _ _ _ _ _ _ _ H)
    as [[[Hl Hn _ _] _]|(ts&_&(Hn&_&_&b&Hl&_)&_)]; rewrite Hl; (split; [done|]).
  - lia.
  - rewrite length_app. simpl. lia.
Qed.

Lemma ordered_stream_small s id s' r :
  ordered_stream s id = (s', r) ->
  next_id s' = next_id s /\ log (session s') = log (session s).
Proof using session_laws.
  unfold ordered_stream. destruct (ready_session s); [|by intros [= <- <-]].
  destruct (read_all_envelopes F (session s)) as [fs ra] eqn:Hra.
  apply law_read_all in Hra as [Hlog _]. by intros [= <- <-].
Qed.

Definition small s s' : Prop :=
  next_id s' <= next_id s + 1 /\ (length (log (session s')) <= S (length (log (session s))))%nat.

Lemma create_small s events ctx s' r :
  0 <= next_id s -> create s events ctx = Some (s', r) -> small s s'.
Proof using session_laws codec_laws.
  intros Hn. unfold create, small.
  destruct (ready_session s) as [[]|e]; [|intros [= <- <-]; lia].
  destruct events as [|payload [|]]; try (intros [= <- <-]; lia).
  destruct (checked_add U64_MAX (next_id s) 1) as [raw|] eqn:Hraw; [|done].
  apply checked_add_Some in Hraw as [-> Hle]. unfold wrapping_add. rewrite Z.mod_small by lia.
  destruct (NonZeroU64_new _) as [raw|]; [|intros [= <- <-]; simpl; lia].
  destruct (now_v7 _) as [w u].
  destruct (record_single _ _ _ _ _ _ _) as [s2 res] eqn:Hrec.
  apply record_single_small in Hrec as [Hn2 Hl2]. simpl in *.
  destruct res as [[]|e]; [|intros [= <- <-]; lia].
  destruct (ordered_stream s2 _) as [s3 r3] eqn:Hor. apply ordered_stream_small in Hor as [Hn3 Hl3].
  intros [= <- <-]. rewrite Hn3, Hl3. lia.
Qed.

Lemma append_small s id q events ctx s' r :
  append s id q events ctx = Some (s', r) -> small s s'.
Proof using session_laws codec_laws.
  unfold append, small.
  destruct (ready_session s) as [[]|e]; [|intros [= <- <-]; lia].
  destruct events as [|payload [|]]; try (intros [= <- <-]; lia).
  destruct (ordered_stream s id) as [s0 r0] eqn:Ho0. apply ordered_stream_small in Ho0 as [Hn0 Hl0].
  destruct r0 as [[|e0 rest]|e]; try (intros [= <- <-]; rewrite Hn0, Hl0; lia).
  destruct (negb _); [intros [= <- <-]; rewrite Hn0, Hl0; lia|].
  destruct (checked_add _ _ _) as [nx|]; [|done]. unfold append_next.
  destruct (now_v7 _) as [w u].
  destruct (record_single _ _ _ _ _ _ _) as [s2 res] eqn:Hrec.
  apply record_single_small in Hrec as [Hn2 Hl2]. simpl in *. rewrite Hn0 in Hn2. rewrite Hl0 in Hl2.
  destruct res as [[]|e]; [|intros [= <- <-]; rewrite Hn2; lia].
  destruct (ordered_stream s2 _) as [s3 r3] eqn:Hor. apply ordered_stream_small in Hor as [Hn3 Hl3].
  intros [= <- <-]. rewrite Hn3, Hl3. lia.
Qed.

Definition out_of_calls : StoreError := Infrastructure (BoxMsg "run of bounded length is over").

Definition spend {A} (p : nat * PgnoEventStore)
    (op : PgnoEventStore -> option (PgnoEventStore * result A StoreError))
    : (nat * PgnoEventStore) * result A StoreError :=
  match fst p with
  | O => (p, Err out_of_calls)
  | S n => match op (snd p) with
           | Some (s, r) => ((n, s), r)
           | None => ((n, snd p), Err out_of_calls)
           end
  end.

Definition bounded : EventStore Ev :=
  mkEventStore Ev (nat * PgnoEventStore)
    (fun p id => let '(s, r) := load (snd p) id in ((fst p, s), r))
    (fun p events ctx => spend p (fun s => create s events ctx))
    (fun p id q events ctx => spend p (fun s => append s id q events ctx)).

Definition BInv (p : nat * PgnoEventStore) : Prop :=
  Inv (snd p) /\ next_id (snd p) + Z.of_nat (fst p) <= U64_MAX
  /\ Z.of_nat (length (log (session (snd p)))) + Z.of_nat (fst p) <= U64_MAX.

Definition bview (p : nat * PgnoEventStore) : AggregateId -> list (EventEnvelope Ev) := view (snd p).

Lemma view_length s id : (length (view s id) <= length (log (session s)))%nat.
Proof using Type. apply length_omap_le. Qed.

#[global] Instance bounded_laws : EventStoreLaws bounded BInv bview.
Proof using from_nanosecond_i64 session_laws codec_laws.
  split.
  - intros [n s] id [HI _]. apply HI.
  - intros [n s] id s' r (HI&Hn&Hl). simpl. destruct (load s id) as [s1 r1] eqn:Hload.
    destruct (ordered_stream_small _ _ _ _ Hload) as [Hn1 Hl1].
    destruct (load_law _ _ _ _ HI Hload) as (HI1&Hv&Hok). intros [= <- <-].
    split; [|by split]. split; [done|]. simpl in *. by rewrite Hn1, Hl1.
  - intros [[|n] s] events ctx s' r (HI&Hn&Hl); simpl in *; unfold spend; simpl.
    { intros [= <- <-]. split; [by split|]. by left. }
    destruct (create_law s events ctx HI ltac:(lia)) as (s1&r1&Hc&HI1&Hr).
    destruct (create_small _ _ _ _ _ (proj1 (pi_next _ HI)) Hc) as [Hn1 Hl1].
    rewrite Hc. intros [= <- <-]. split; [|done]. split; [done|]. simpl. lia.
  - intros [[|n] s] id q events ctx s' r (HI&Hn&Hl); simpl in *; unfold spend; simpl.
    { intros [= <- <-]. split; [by split|]. by left. }
    pose proof (view_length s id).
    destruct (append_law s id q events ctx HI ltac:(lia)) as (s1&r1&Hc&HI1&Hr).
    destruct (append_small _ _ _ _ _ _ _ Hc) as [Hn1 Hl1].
    rewrite Hc. intros [= <- <-]. split; [|done]. split; [done|]. simpl. lia.
Qed.

(** A fresh session with nothing in its log. *)
Lemma pgno_empty_inv fs w : log fs = [] -> v7_source w -> Inv (mkPgnoStore fs 0 w).
Proof using Type.
  intros Hl Hw. split; simpl; unfold view; simpl; rewrite ?Hl; try done; try (unfold U64_MAX; lia).
  intros id. apply valid_stream_nil.
Qed.

(** C13: The pgno store keeps the contract of the [EventStore] port over any
    session that keeps its laws, whatever fails.  [load] returns the history in
    the log.  [create] and [append] do not panic below 2^64; when they succeed
    they wrote exactly their event, as the only event of a fresh aggregate or at
    the end of the history whose length is [expected]; when they fail they wrote
    nothing, or the failure asks for reconciliation and all or nothing was
    written. *)
Theorem pgno_store_contract s :
  Inv s ->
  (forall id s' r, load s id = (s', r) -> load_contract Inv view s id s' r)
  /\ (forall events ctx, next_id s < U64_MAX ->
       exists s' r, create s events ctx = Some (s', r)
                    /\ create_contract Inv view s events ctx s' r)
  /\ (forall id expected events ctx, Z.of_nat (length (view s id)) < U64_MAX ->
       exists s' r, append s id expected events ctx = Some (s', r)
                    /\ append_contract Inv view s id expected events ctx s' r).
Proof using from_nanosecond_i64 session_laws codec_laws.
  intros HI. split_and!.
  - intros. by apply load_law.
  - intros. by apply create_law.
  - intros. by apply append_law.
Qed.
End Pgno.
End Pgno.

(** ** A concrete codec and store *)

#[global] Instance PgnoEnvelope_eq_dec {Ev} `{EqDecision Ev} : EqDecision (PgnoEnvelope Ev).
Proof. solve_decision. Defined.

#[global] Instance PgnoEnvelope_countable {Ev} `{Countable Ev} : Countable (PgnoEnvelope Ev).
Proof.
  apply (inj_countable'
    (fun r => (pg_event_id r, pg_aggregate_id r, pg_sequence r, pg_timestamp_nanos r,
               pg_correlation_id r, pg_causation_id r, pg_payload r))
    (fun '(u, a, q, t, c, k, p) => mkPgno u a q t c k p)).
  by intros [].
Defined.

Definition bit_codec (R : Type) `{Countable R} : JsonCodec R :=
  mkCodec bits_encode bits_decode Ok Ok (fun b => Ok (b, length b)).

#[global] Instance bit_codec_laws R `{Countable R} : JsonCodecLaws (bit_codec R).
Proof.
  split; simpl.
  - apply bits_roundtrip.
  - by intros j b [= <-].
  - by intros b p [= <-].
Qed.

(** A store of integers over a scripted session. *)
Definition demo_pgno (script : list LogSession.Fault) :=
  Pgno.mkPgnoStore LogSession.session (LogSession.empty script) 0 counting_world.

Definition demo_create := Pgno.create show_Z LogSession.session (bit_codec (PgnoEnvelope Z))
  (fun k => Z.of_nat (String.length k)) (fun n => Ok n).
Definition demo_pgno_view := Pgno.view LogSession.session (bit_codec (PgnoEnvelope Z)) LogSession.blocks.

(** A write that lands although its outcome is unknown, and the reopened store. *)
Lemma demo_unknown_landed :
  match demo_create (demo_pgno [LogSession.UnknownLanded]) [7] Correlation.none with
  | Some (s, Err (Indeterminate _)) => demo_pgno_view s (AggregateId_new 1) <> []
  | _ => False
  end.
Proof. vm_compute. discriminate. Qed.

Lemma demo_pgno_inv script :
  Pgno.Inv LogSession.session (bit_codec (PgnoEnvelope Z)) LogSession.blocks (demo_pgno script).
Proof. apply Pgno.pgno_empty_inv; [done|apply counting_v7]. Qed.

(** Witness of [pgno_store_contract]: the unknown outcome above. *)
Lemma pgno_store_contract_witness :
  exists s' r, demo_create (demo_pgno [LogSession.UnknownLanded]) [7] Correlation.none = Some (s', r)
    /\ is_ok r = false
    /\ create_contract (Pgno.Inv LogSession.session (bit_codec (PgnoEnvelope Z)) LogSession.blocks)
         demo_pgno_view (demo_pgno [LogSession.UnknownLanded]) [7] Correlation.none s' r.
Proof.
  destruct (Pgno.pgno_store_contract show_Z LogSession.session (bit_codec (PgnoEnvelope Z))
              (fun k => Z.of_nat (String.length k)) (fun n => Ok n) LogSession.blocks
              (fun n _ => eq_refl) (demo_pgno [LogSession.UnknownLanded])
              (demo_pgno_inv _)) as (_&Hc&_).
  destruct (Hc [7] Correlation.none) as (s'&r&He&Hk); [vm_compute; reflexivity|].
  exists s', r. split; [exact He|]. split; [|exact Hk].
  vm_compute in He. injection He as <- <-. reflexivity.
Defined.

(** A store with one event. *)
Definition demo_written :=
  match demo_create (demo_pgno []) [7] Correlation.none with
  | Some (s, _) => s
  | None => demo_pgno []
  end.

Lemma demo_written_inv :
  Pgno.Inv LogSession.session (bit_codec (PgnoEnvelope Z)) LogSession.blocks demo_written.
Proof.
  destruct (Pgno.create_law show_Z LogSession.session (bit_codec (PgnoEnvelope Z))
              (fun k => Z.of_nat (String.length k)) (fun n => Ok n) LogSession.blocks
              (fun n _ => eq_refl) (demo_pgno []) [7] Correlation.none (demo_pgno_inv _) eq_refl)
    as (s'&r&Hc&HI&_).
  change (Pgno.create _ _ _ _ _ _ _ _) with (demo_create (demo_pgno []) [7] Correlation.none) in Hc.
  unfold demo_written. by rewrite Hc.
Qed.
