(* ===== verification/PgnoShared.v ===== *)
(** * Concurrent calls on one pgno store (crate [pardosa-cherry-pit-test-support], [lib.rs])

    [PgnoEventStore] is used through shared references: [load], [create] and
    [append] of many tasks interleave at every point where no mutex is held.  Here
    a call is a thread whose steps are the critical sections of the source: each
    use of the session mutex, the increment of the atomic counter, the lookup in
    the table of aggregate mutexes, taking and dropping such a mutex, and drawing
    an identifier.  The specification is a machine in which every call takes
    effect at one instant; the store refines it. *)

From S2P Require Import Prelude Core Store Pardosa PgnoStore.
Import Envelope EnvelopeFacts.
Local Open Scope result_scope.

Module Shared.

(** ** Calls and their replies *)

Section Calls.
Context {Ev : Type}.

Inductive Call :=
| CallLoad (id : AggregateId)
| CallCreate (events : list Ev) (context : CorrelationContext)
| CallAppend (id : AggregateId) (expected_sequence : Z) (events : list Ev) (context : CorrelationContext).

Inductive Reply :=
| RLoad (r : result (list (EventEnvelope Ev)) StoreError)
| RCreate (r : result (AggregateId * list (EventEnvelope Ev)) StoreError)
| RAppend (r : result (list (EventEnvelope Ev)) StoreError).

(** The error reply of a call. *)
Definition failed (c : Call) (e : StoreError) : Reply :=
  match c with
  | CallLoad _ => RLoad (Err e)
  | CallCreate _ _ => RCreate (Err e)
  | CallAppend _ _ _ _ => RAppend (Err e)
  end.

(** ** The specification: every call takes effect at one instant *)

Inductive AThread :=
| APending (c : Call)
| AApplied (success : Reply)
| AReturned (r : Reply).

Record ASys := mkASys {
  histories : AggregateId -> list (EventEnvelope Ev);
  calls : gmap nat AThread;
}.

(** A conflict is reported only where there is one. *)
Definition truthful (h : AggregateId -> list (EventEnvelope Ev)) (c : Call) (e : StoreError) : Prop :=
  match e with
  | ConcurrencyConflict id expected actual =>
      (exists events ctx, c = CallAppend id expected events ctx)
      /\ h id <> [] /\ actual = Z.of_nat (length (h id)) /\ actual <> expected
  | _ => True
  end.

Definition only_changes (id : AggregateId) (h h' : AggregateId -> list (EventEnvelope Ev)) : Prop :=
  forall j, j <> id -> h' j = h j.

(** The same failure after the effect. *)
Definition unknown (success : Reply) (e : StoreError) : Reply :=
  match success with
  | RLoad _ => RLoad (Err e)
  | RCreate _ => RCreate (Err e)
  | RAppend _ => RAppend (Err e)
  end.

Inductive spec_step (a : ASys) : ASys -> Prop :=
| sp_call i c : calls a !! i = None ->
    spec_step a (mkASys (histories a) (<[i := APending c]> (calls a)))
| sp_load i id : calls a !! i = Some (APending (CallLoad id)) ->
    spec_step a (mkASys (histories a) (<[i := AReturned (RLoad (Ok (histories a id)))]> (calls a)))
| sp_create i events ctx id h' :
    calls a !! i = Some (APending (CallCreate events ctx)) -> events <> [] ->
    histories a id = [] -> stamped id ctx events (h' id) -> valid_stream id (h' id) ->
    only_changes id (histories a) h' ->
    spec_step a (mkASys h' (<[i := AApplied (RCreate (Ok (id, h' id)))]> (calls a)))
| sp_append i id expected events ctx envs h' :
    calls a !! i = Some (APending (CallAppend id expected events ctx)) -> events <> [] ->
    histories a id <> [] -> expected = Z.of_nat (length (histories a id)) ->
    stamped id ctx events envs -> h' id = histories a id ++ envs -> valid_stream id (h' id) ->
    only_changes id (histories a) h' ->
    spec_step a (mkASys h' (<[i := AApplied (RAppend (Ok envs))]> (calls a)))
| sp_append_nothing i id expected ctx :
    calls a !! i = Some (APending (CallAppend id expected [] ctx)) ->
    spec_step a (mkASys (histories a) (<[i := AReturned (RAppend (Ok []))]> (calls a)))
| sp_return i r : calls a !! i = Some (AApplied r) ->
    spec_step a (mkASys (histories a) (<[i := AReturned r]> (calls a)))
| sp_return_unknown i r e : calls a !! i = Some (AApplied r) -> ~ definite e ->
    spec_step a (mkASys (histories a) (<[i := AReturned (unknown r e)]> (calls a)))
| sp_fail i c e : calls a !! i = Some (APending c) -> truthful (histories a) c e ->
    spec_step a (mkASys (histories a) (<[i := AReturned (failed c e)]> (calls a))).

(** ** The threads of the implementation *)

(** A call that writes, once it knows the aggregate. *)
Inductive Job :=
| JCreate (raw_id : Z)
| JAppend (id : AggregateId) (expected_sequence : Z).

Definition target (j : Job) : Z :=
  match j with JCreate raw_id => raw_id | JAppend id _ => AggregateId_get id end.

Inductive Pc :=
| Enter (c : Call)
| Number (payload : Ev) (ctx : CorrelationContext)
| Lookup (j : Job) (payload : Ev) (ctx : CorrelationContext)
| Acquire (j : Job) (payload : Ev) (ctx : CorrelationContext)
| Read (id : AggregateId) (expected_sequence : Z) (payload : Ev) (ctx : CorrelationContext)
| Draw (j : Job) (payload : Ev) (ctx : CorrelationContext) (sequence : Z)
| Write (j : Job) (payload : Ev) (ctx : CorrelationContext) (sequence : Z) (event_id : Uuid)
| ReadBack (j : Job) (event_id : Uuid)
| Leave (locked : Z) (r : Reply)
| Returned (r : Reply)
| Panicked.

(** A mutex of the table; [expect] panics on a poisoned one. *)
Inductive AggregateMutex := Free | Held (thread : nat) | Poisoned.


(** [entry(id).or_insert_with(..)]. *)
Definition aggregate_lock (id : Z) (locks : gmap Z AggregateMutex) : gmap Z AggregateMutex :=
  match locks !! id with Some _ => locks | None => <[id := Free]> locks end.

Definition job_failed (j : Job) (e : StoreError) : Reply :=
  match j with JCreate _ => RCreate (Err e) | JAppend _ _ => RAppend (Err e) end.

End Calls.
Arguments Call : clear implicits. Arguments Reply : clear implicits. Arguments Pc : clear implicits.
Notation Locks := (gmap Z AggregateMutex).
Arguments ASys : clear implicits. Arguments AThread : clear implicits.

Section Shared.
Context {Ev : Type} (show_uuid : Uuid -> string).
Context (F : FileWriterSession) (J : JsonCodec (PgnoEnvelope Ev)).
Context (derive_fiber_id : string -> FiberId) (from_nanosecond : Z -> result Timestamp Boxed).

Notation PgnoEventStore := (Pgno.PgnoEventStore F).
Notation ready_session := (Pgno.ready_session show_uuid F).
Notation ordered_stream := (Pgno.ordered_stream show_uuid F J from_nanosecond).
Notation record_single := (Pgno.record_single show_uuid F J derive_fiber_id).
Notation after_landed := (Pgno.after_landed show_uuid).

Record Sys := mkSys {
  store : PgnoEventStore;
  locks : Locks;
  threads : gmap nat (Pc Ev);
}.

(** [create] up to its checks, and the atomic increment. *)
Definition enter_create (s : PgnoEventStore) (events : list Ev) (ctx : CorrelationContext) : Pc Ev :=
  match ready_session s with
  | Err e => Returned (RCreate (Err e))
  | Ok _ =>
      match events with
      | _ :: _ :: _ => Returned (RCreate (Err Pgno.single_event_error))
      | [] => Returned (RCreate (Err (Infrastructure (BoxMsg "cannot create aggregate with zero events"))))
      | [payload] => Number payload ctx
      end
  end.

Definition number (s : PgnoEventStore) (payload : Ev) (ctx : CorrelationContext) : PgnoEventStore * Pc Ev :=
  let previous := Pgno.next_id _ s in
  (Pgno.mkPgnoStore F (Pgno.session _ s) (wrapping_add U64_MAX previous 1) (Pgno.world _ s),
   match checked_add U64_MAX previous 1 with
   | None => Panicked
   | Some raw_id =>
       match NonZeroU64_new raw_id with
       | None => Returned (RCreate (Err (Infrastructure (BoxMsg "aggregate ID overflow"))))
       | Some raw_id => Lookup (JCreate raw_id) payload ctx
       end
   end).

(** [append] up to the lookup of its mutex. *)
Definition enter_append (s : PgnoEventStore) (id : AggregateId) (expected : Z) (events : list Ev)
    (ctx : CorrelationContext) : Pc Ev :=
  match ready_session s with
  | Err e => Returned (RAppend (Err e))
  | Ok _ =>
      match events with
      | _ :: _ :: _ => Returned (RAppend (Err Pgno.single_event_error))
      | [] => Returned (RAppend (Ok []))
      | [payload] => Lookup (JAppend id expected) payload ctx
      end
  end.

(** The checks of [append] on the stream it read; [None] where the sequence
    arithmetic panics. *)
Definition check_stream (id : AggregateId) (expected : Z) (payload : Ev) (ctx : CorrelationContext)
    (r : result (list (EventEnvelope Ev)) StoreError) : option (Pc Ev) :=
  let fail e := Some (Leave (AggregateId_get id) (RAppend (Err e))) in
  match r with
  | Err e => fail e
  | Ok [] => fail (Infrastructure (BoxMsg ("append to aggregate AggregateId("
                     +:+ AggregateId_display id +:+ ") that was never created")))
  | Ok existing =>
      let actual_sequence := from_option sequence 0 (last existing) in
      if negb (actual_sequence =? expected)
      then fail (ConcurrencyConflict id expected actual_sequence)
      else match checked_add U64_MAX expected 1 with
           | None => None
           | Some next_sequence => Some (Draw (JAppend id expected) payload ctx next_sequence)
           end
  end.

(** What is returned from the stream read back. *)
Definition read_back (j : Job) (event_id : Uuid) (r : result (list (EventEnvelope Ev)) StoreError) : Reply Ev :=
  match j with
  | JCreate raw_id =>
      RCreate (match r with
               | Err e => Err (after_landed (BoxStore e))
               | Ok envelopes => Ok (AggregateId_new raw_id, envelopes)
               end)
  | JAppend id _ =>
      RAppend (let? full_stream := map_err (fun e => after_landed (BoxStore e)) r in
               let? new_envelope := ok_or (find_first (fun e => Core.event_id e =? event_id) full_stream)
                 (after_landed (BoxMsg "landed event absent from reloaded stream")) in
               Ok [new_envelope])
  end.

(** One step of thread [i]; [None] when it has returned or waits for a mutex. *)
Definition advance (i : nat) (s : PgnoEventStore) (l : Locks) (pc : Pc Ev)
    : option (PgnoEventStore * Locks * Pc Ev) :=
  match pc with
  | Enter (CallLoad id) => let '(s, r) := ordered_stream s id in Some (s, l, Returned (RLoad r))
  | Enter (CallCreate events ctx) => Some (s, l, enter_create s events ctx)
  | Enter (CallAppend id expected events ctx) => Some (s, l, enter_append s id expected events ctx)
  | Number payload ctx => let '(s, pc) := number s payload ctx in Some (s, l, pc)
  | Lookup j payload ctx => Some (s, aggregate_lock (target j) l, Acquire j payload ctx)
  | Acquire j payload ctx =>
      match l !! target j with
      | Some Free =>
          Some (s, <[target j := Held i]> l,
                match j with
                | JCreate _ => Draw j payload ctx 1
                | JAppend id expected => Read id expected payload ctx
                end)
      | Some Poisoned => Some (s, l, Panicked)
      | _ => None
      end
  | Read id expected payload ctx =>
      let '(s, r) := ordered_stream s id in
      match check_stream id expected payload ctx r with
      | Some pc => Some (s, l, pc)
      | None => Some (s, <[AggregateId_get id := Poisoned]> l, Panicked)
      end
  | Draw j payload ctx sequence =>
      let '(w, event_id) := now_v7 (Pgno.world _ s) in
      Some (Pgno.with_world F s w, l, Write j payload ctx sequence event_id)
  | Write j payload ctx sequence event_id =>
      let '(s, r) := record_single s (target j) event_id sequence
                       (correlation_id ctx) (causation_id ctx) payload in
      Some (s, l, match r with
                  | Err e => Leave (target j) (job_failed j e)
                  | Ok _ => ReadBack j event_id
                  end)
  | ReadBack j event_id =>
      let '(s, r) := ordered_stream s (AggregateId_new (target j)) in
      Some (s, l, Leave (target j) (read_back j event_id r))
  | Leave locked r => Some (s, <[locked := Free]> l, Returned r)
  | Returned _ | Panicked => None
  end.

(** Threads move in any order, and calls arrive at any time. *)
Inductive go (g : Sys) : Sys -> Prop :=
| go_thread i pc s l pc' : threads g !! i = Some pc -> advance i (store g) (locks g) pc = Some (s, l, pc') ->
    go g (mkSys s l (<[i := pc']> (threads g))).

Inductive step (g : Sys) : Sys -> Prop :=
| st_call i c : threads g !! i = None -> step g (mkSys (store g) (locks g) (<[i := Enter c]> (threads g)))
| st_go g' : go g g' -> step g g'.

Definition opened (s : PgnoEventStore) : Sys := mkSys s ∅ ∅.

(** ** A call that runs alone

    Without interleaving, the threads are the calls of [PgnoStore]. *)

Fixpoint alone (fuel : nat) (i : nat) (s : PgnoEventStore) (l : Locks) (pc : Pc Ev)
    : PgnoEventStore * Locks * Pc Ev :=
  match fuel with
  | O => (s, l, pc)
  | S fuel => match advance i s l pc with
              | Some (s, l, pc) => alone fuel i s l pc
              | None => (s, l, pc)
              end
  end.

Definition unlocked (l : Locks) : Prop := forall id, l !! id = None \/ l !! id = Some Free.

Lemma unlocked_lookup l id : unlocked l -> aggregate_lock id l !! id = Some Free.
Proof using Type.
  intros Hl. unfold aggregate_lock. destruct (Hl id) as [E|E]; rewrite E; [by simplify_map_eq|done].
Qed.

(** The states of [alone] up to the table of mutexes. *)
Definition ends (x : PgnoEventStore * Locks * Pc Ev) (s : PgnoEventStore) (pc : Pc Ev) : Prop :=
  fst (fst x) = s /\ snd x = pc.

Lemma alone_S n i s l pc :
  alone (S n) i s l pc = match advance i s l pc with Some (s', l', pc') => alone n i s' l' pc' | None => (s, l, pc) end.
Proof using Type. done. Qed.

(** From the writing of the event to the reply. *)
Lemma alone_write i s l j payload ctx sequence s' res :
  record_single (Pgno.with_world F s (fst (now_v7 (Pgno.world _ s)))) (target j) (snd (now_v7 (Pgno.world _ s))) sequence
    (correlation_id ctx) (causation_id ctx) payload = (s', res) ->
  match res with
  | Err e => ends (alone 4 i s l (Draw j payload ctx sequence)) s' (Returned (job_failed j e))
  | Ok _ => let '(s'', r) := ordered_stream s' (AggregateId_new (target j)) in
            ends (alone 4 i s l (Draw j payload ctx sequence)) s'' (Returned (read_back j (snd (now_v7 (Pgno.world _ s))) r))
  end.
Proof using Type.
  intros Hrec. destruct (now_v7 (Pgno.world F s)) as [w u] eqn:Hu. cbn [fst snd] in Hrec |- *.
  cbn [alone advance]. rewrite Hu. cbn [alone advance]. rewrite Hrec.
  destruct res as [[]|e]; cbn [alone advance]; [|done].
  destruct (ordered_stream s' _) as [s'' r]. by cbn [alone advance].
Qed.

Lemma create_alone i s l events ctx :
  unlocked l ->
  match Pgno.create show_uuid F J derive_fiber_id from_nanosecond s events ctx with
  | Some (s', r) => ends (alone 8 i s l (Enter (CallCreate events ctx))) s' (Returned (RCreate r))
  | None => snd (alone 8 i s l (Enter (CallCreate events ctx))) = Panicked
  end.
Proof using Type.
  intros Hl. rewrite alone_S. cbn [advance]. unfold Pgno.create, enter_create.
  destruct (ready_session s) as [[]|e]; [|done]. destruct events as [|payload [|]]; [done| |done].
  rewrite alone_S. cbn [advance]. unfold number. destruct (checked_add _ _ 1) as [raw|]; [|done].
  destruct (NonZeroU64_new raw) as [raw'|]; [|done]. rewrite alone_S. cbn [advance]. rewrite alone_S. cbn [advance].
  rewrite unlocked_lookup by done. set (s1 := Pgno.mkPgnoStore _ _ _ _).
  destruct (now_v7 (Pgno.world F s1)) as [w u] eqn:Hu.
  destruct (record_single _ _ u 1 _ _ _) as [s2 res] eqn:Hrec.
  pose proof (alone_write i s1 (<[raw' := Held i]> (aggregate_lock raw' l)) (JCreate raw') payload ctx 1 s2 res) as Ha.
  rewrite Hu in Ha. specialize (Ha Hrec). destruct res as [[]|e]; [|done]. cbn [target] in Ha.
  by destruct (ordered_stream s2 _) as [s3 r].
Qed.

Lemma append_alone i s l id expected events ctx :
  unlocked l ->
  match Pgno.append show_uuid F J derive_fiber_id from_nanosecond s id expected events ctx with
  | Some (s', r) => ends (alone 8 i s l (Enter (CallAppend id expected events ctx))) s' (Returned (RAppend r))
  | None => snd (alone 8 i s l (Enter (CallAppend id expected events ctx))) = Panicked
  end.
Proof using Type.
  intros Hl. rewrite alone_S. cbn [advance]. unfold Pgno.append, enter_append.
  destruct (ready_session s) as [[]|e]; [|done]. destruct events as [|payload [|]]; [done| |done].
  rewrite alone_S. cbn [advance]. rewrite alone_S. cbn [advance]. rewrite unlocked_lookup by done.
  rewrite alone_S. cbn [advance]. destruct (ordered_stream s id) as [s0 [[|e0 rest]|e]]; unfold check_stream; [done| |done].
  destruct (negb _); [done|]. destruct (checked_add _ _ 1) as [nx|]; [|done].
  unfold Pgno.append_next. destruct (now_v7 (Pgno.world F s0)) as [w u] eqn:Hu.
  destruct (record_single _ _ u nx _ _ _) as [s2 res] eqn:Hrec.
  match goal with |- context [alone 4 i s0 ?l0 _] =>
    pose proof (alone_write i s0 l0 (JAppend id expected) payload ctx nx s2 res) as Ha end.
  rewrite Hu in Ha. specialize (Ha Hrec). destruct res as [[]|e]; [|done]. destruct id. cbn [target] in Ha.
  by destruct (ordered_stream s2 _) as [s3 r].
Qed.

(** ** Refinement *)

Context (log : fs_state F -> list Block) {session_laws : SessionLaws F log} {codec_laws : JsonCodecLaws J}.
Context (from_nanosecond_i64 : forall n, I64_MIN <= n <= I64_MAX -> from_nanosecond n = Ok n).
Notation Inv := (Pgno.Inv F J log).
Notation view := (Pgno.view F J log).
Notation next_id := (Pgno.next_id F).
Notation world := (Pgno.world F).
Implicit Types (s : PgnoEventStore) (g : Sys) (pc : Pc Ev).

Definition job_call (j : Job) (payload : Ev) (ctx : CorrelationContext) : Call Ev :=
  match j with
  | JCreate _ => CallCreate [payload] ctx
  | JAppend id expected => CallAppend id expected [payload] ctx
  end.

Definition job_reply (j : Job) (env : EventEnvelope Ev) : Reply Ev :=
  match j with
  | JCreate raw_id => RCreate (Ok (AggregateId_new raw_id, [env]))
  | JAppend _ _ => RAppend (Ok [env])
  end.

Definition history s (j : Job) : list (EventEnvelope Ev) := view s (AggregateId_new (target j)).

(** An identifier that [create] drew: its aggregate is empty until it writes. *)
Definition reserved s (j : Job) : Prop :=
  match j with
  | JCreate raw_id => 1 <= raw_id <= next_id s /\ history s j = []
  | JAppend _ _ => True
  end.

(** A write whose place in the history is known; the mutex keeps it so. *)
Record placed s (j : Job) (q : Z) : Prop := {
  pl_reserved : reserved s j;
  pl_owner : 1 <= target j <= next_id s;
  pl_next : q = Z.of_nat (length (history s j)) + 1;
  pl_room : q <= U64_MAX;
  pl_expected id expected : j = JAppend id expected ->
    history s j <> [] /\ expected = Z.of_nat (length (history s j));
}.

(** What a thread relies on, and where its call is in the specification. *)
Definition rel s pc (t : AThread Ev) : Prop :=
  match pc with
  | Enter c => t = APending c
  | Number payload ctx => t = APending (CallCreate [payload] ctx)
  | Lookup j payload ctx | Acquire j payload ctx => t = APending (job_call j payload ctx) /\ reserved s j
  | Read id expected payload ctx => t = APending (CallAppend id expected [payload] ctx)
  | Draw j payload ctx q => t = APending (job_call j payload ctx) /\ placed s j q
  | Write j payload ctx q u =>
      t = APending (job_call j payload ctx) /\ placed s j q
      /\ (exists k, (k < uuid_drawn (world s))%nat /\ u = uuid_at (world s) k) /\ u ∉ map event_id (history s j)
  | ReadBack j u =>
      exists pre env, history s j = pre ++ [env] /\ event_id env = u /\ t = AApplied (job_reply j env)
                      /\ (forall raw_id, j = JCreate raw_id -> pre = [])
  | Leave _ r | Returned r => t = AReturned r
  | Panicked => False
  end.

Definition holds pc : option Z :=
  match pc with
  | Read id _ _ _ => Some (AggregateId_get id)
  | Draw j _ _ _ | Write j _ _ _ _ | ReadBack j _ => Some (target j)
  | Leave locked _ => Some locked
  | _ => None
  end.

Definition creating pc : option Z :=
  match pc with
  | Lookup (JCreate raw_id) _ _ | Acquire (JCreate raw_id) _ _
  | Draw (JCreate raw_id) _ _ _ | Write (JCreate raw_id) _ _ _ _ => Some raw_id
  | _ => None
  end.

(** The aggregate whose history the facts of a thread are about. *)
Definition focus pc : option Z :=
  match pc with
  | Draw j _ _ _ | Write j _ _ _ _ | ReadBack j _ => Some (target j)
  | _ => creating pc
  end.

(** What a step of one thread does to the store the others see: it writes to at
    most one aggregate. *)
Record evolves (w : option Z) s s' : Prop := {
  ev_next : next_id s <= next_id s';
  ev_at : uuid_at (world s') = uuid_at (world s);
  ev_drawn : (uuid_drawn (world s) <= uuid_drawn (world s'))%nat;
  ev_view id : w <> Some (AggregateId_get id) -> view s' id = view s id;
}.

Lemma rel_evolves w s s' pc t :
  evolves w s s' -> (forall id, focus pc = Some id -> w <> Some id) -> rel s pc t -> rel s' pc t.
Proof using Type.
  intros [Hn Hat Hd Hv] Hf.
  assert (Hh : forall j, focus pc = Some (target j) -> history s' j = history s j).
  { intros j Hj. unfold history. apply Hv. by apply Hf. }
  assert (Hres : forall j, focus pc = Some (target j) \/ (exists id q, j = JAppend id q) -> reserved s j -> reserved s' j).
  { intros [raw|id q] Hj; simpl; [|done]. destruct Hj as [Hj|(?&?&?)]; [|done]. intros [? ?].
    rewrite (Hh (JCreate raw)) by done. split; [lia|done]. }
  assert (Hpl : forall j q, focus pc = Some (target j) -> placed s j q -> placed s' j q).
  { intros j q Hj [H1 H2 H3 H4 H5]. split; rewrite ?Hh by done; auto. lia. }
  destruct pc as [c|p ctx|j p ctx|j p ctx|id q p ctx|j p ctx q|j p ctx q u|j u|lk r|r|]; simpl in *; try done.
  - intros [-> Hr]. split; [done|]. destruct j; [|done]. apply Hres; [by left|done].
  - intros [-> Hr]. split; [done|]. destruct j; [|done]. apply Hres; [by left|done].
  - intros [-> Hp]. split; [done|]. by apply Hpl.
  - intros (->&Hp&(k&Hk&->)&Hu). rewrite Hh by done. split_and!; [done|by apply Hpl| |done].
    exists k. rewrite Hat. split; [lia|done].
  - intros (pre&env&Hpre&Hu&->&Hj). exists pre, env. by rewrite Hh.
Qed.

Lemma same_evolves s s' : Pgno.same F log s s' -> evolves None s s'.
Proof using Type. intros Hs. pose proof Hs as [_ Hn Hat Hd]. split; [lia|done|by rewrite Hd|]. intros id _. by apply Pgno.same_view. Qed.

(** *** Errors other than conflicts *)

Definition plain (e : StoreError) : Prop := match e with ConcurrencyConflict _ _ _ => False | _ => True end.

Lemma plain_truthful (h : AggregateId -> list (EventEnvelope Ev)) c e : plain e -> truthful h c e.
Proof using Type. by destruct e. Qed.

Lemma ready_plain s e : ready_session s = Err e -> plain e.
Proof using Type. unfold Pgno.ready_session. destruct (uncertain_diagnostic F _); [|done]. by intros [= <-]. Qed.

Lemma decode_plain b e : Pgno.decode_record J b = Err e -> plain e.
Proof using Type.
  unfold Pgno.decode_record. destruct (decode_type J b) as [[bs n]|e']; simpl; [|by intros [= <-]].
  destruct (negb _); [by intros [= <-]|]. destruct (from_slice J bs); [done|]. by intros [= <-].
Qed.

Lemma collect_plain id bs e : Pgno.collect_stream J from_nanosecond id bs = Err e -> plain e.
Proof using Type.
  induction bs as [|b bs IH]; simpl; [done|]. destruct (detached b); [done|].
  destruct (Pgno.decode_record J _) as [r|e'] eqn:Hd; simpl; [|intros [= <-]; by eapply decode_plain].
  destruct (_ =? _); [|done]. destruct (NonZeroU64_new _); simpl; [|by intros [= <-]].
  destruct (from_nanosecond _); simpl; [|by intros [= <-]]. destruct (Envelope.new _ _ _ _ _ _ _); simpl; [|by intros [= <-]].
  destruct (Pgno.collect_stream J _ id bs); simpl; [done|]. intros [= <-]. by apply IH.
Qed.

Lemma stream_plain s id s' e : ordered_stream s id = (s', Err e) -> plain e.
Proof using Type.
  unfold Pgno.ordered_stream. destruct (ready_session s) as [[]|e'] eqn:Hr; [|intros [= <- <-]; by eapply ready_plain].
  destruct (read_all_envelopes F _) as [fs [bs|e']]; simpl; [|by intros [= <- <-]].
  destruct (Pgno.collect_stream J _ id bs) as [l|e'] eqn:Hc; simpl; [|intros [= <- <-]; by eapply collect_plain].
  destruct (validate_stream id _); simpl; [done|]. by intros [= <- <-].
Qed.

Lemma record_plain s agg u q corr caus payload s' e :
  record_single s agg u q corr caus payload = (s', Err e) -> plain e.
Proof using Type.
  unfold Pgno.record_single. destruct (timestamp_now _) as [w now]. unfold Pgno.encode_record.
  destruct (to_vec J _) as [j|e']; simpl; [|by intros [= <- <-]].
  destruct (json_bytes_new J j) as [b|e']; simpl; [|by intros [= <- <-]].
  destruct (encode_type J b) as [p|e']; simpl; [|by intros [= <- <-]].
  destruct (ready_session _) as [[]|e'] eqn:Hr; [|intros [= <- <-]; by eapply ready_plain].
  destruct (write_fiber F _ _ u p) as [fs [[|ep]|e']]; try (by intros [= <- <-]).
  destruct (sync F _) as [fs' [[]|e']]; simpl; [done|]. by intros [= <- <-].
Qed.

(** *** One thread against the specification *)

(** The specification follows a change of the store and of one thread. *)
Definition follows s (t : AThread Ev) s' (t' : AThread Ev) : Prop :=
  forall h cs i, (forall id, h id = view s id) -> cs !! i = Some t ->
  exists h', (forall id, h' id = view s' id) /\ rtc spec_step (mkASys h cs) (mkASys h' (<[i := t']> cs)).

Lemma follows_same s s' t : (forall id, view s' id = view s id) -> follows s t s' t.
Proof using Type.
  intros Hv h cs i Hh Hi. exists h. split; [intros id; by rewrite Hv|]. by rewrite insert_id.
Qed.

Lemma follows_step s s' t t' :
  (forall id, view s' id = view s id) ->
  (forall h cs i, (forall id, h id = view s id) -> cs !! i = Some t -> spec_step (mkASys h cs) (mkASys h (<[i := t']> cs))) ->
  follows s t s' t'.
Proof using Type.
  intros Hv Hst h cs i Hh Hi. exists h. split; [intros id; by rewrite Hv|]. apply rtc_once. by apply Hst.
Qed.

Lemma follows_fail s s' c e :
  (forall id, view s' id = view s id) -> truthful (view s) c e -> follows s (APending c) s' (AReturned (failed c e)).
Proof using Type.
  intros Hv He. apply follows_step; [done|]. intros h cs i Hh Hi. apply (sp_fail (mkASys h cs) i c e); [done|].
  destruct e; simpl in *; try done. destruct He as (?&?&?&?). by rewrite !Hh.
Qed.

(** A step from [pc] to [pc'] that writes to [w] at most. *)
Record allowed (w : option Z) s s' pc pc' (t t' : AThread Ev) : Prop := {
  al_inv : Inv s';
  al_evolves : evolves w s s';
  al_rel : rel s' pc' t';
  al_follows : follows s t s' t';
  al_write id : w = Some id ->
    holds pc = Some id /\ (creating pc = Some id \/ view s (AggregateId_new id) <> []);
  al_creating raw : creating pc' = Some raw -> creating pc = Some raw \/ next_id s < raw;
}.

Lemma allowed_quiet s s' pc pc' t t' :
  Inv s -> Pgno.same F log s s' -> rel s' pc' t' -> follows s t s' t' ->
  (creating pc' = None \/ creating pc' = creating pc) -> allowed None s s' pc pc' t t'.
Proof using Type.
  intros HI Hs Hr Hf Hc. split; [by eapply Pgno.same_inv|by apply same_evolves|done|done|done|].
  intros raw Hraw. left. destruct Hc as [Hc|Hc]; congruence.
Qed.

Notation same_refl := (Pgno.same_refl F log).

(** A call that fails before it wrote. *)
Lemma allowed_fail s s' pc pc' c e :
  Inv s -> Pgno.same F log s s' -> pc' = Returned (failed c e) \/ (exists lk, pc' = Leave lk (failed c e)) ->
  truthful (view s) c e -> allowed None s s' pc pc' (APending c) (AReturned (failed c e)).
Proof using Type.
  intros HI Hs Hpc He. apply allowed_quiet; [done|done| | |].
  - destruct Hpc as [->|[lk ->]]; done.
  - apply follows_fail; [|done]. intros id. by apply Pgno.same_view.
  - left. by destruct Hpc as [->|[lk ->]].
Qed.

Lemma enter_allowed i s l c s' l' pc' :
  Inv s -> advance i s l (Enter c) = Some (s', l', pc') ->
  exists t', allowed None s s' (Enter c) pc' (APending c) t'.
Proof using from_nanosecond_i64 session_laws.
  intros HI. destruct c as [id|events ctx|id expected events ctx]; cbn [advance].
  - destruct (ordered_stream s id) as [s1 r] eqn:Ho. intros [= <- <- <-].
    destruct (Pgno.ordered_stream_spec _ _ _ _ _ from_nanosecond_i64 _ _ _ _ HI Ho) as [Hs Hok].
    destruct r as [l0|e].
    + exists (AReturned (RLoad (Ok l0))). apply allowed_quiet; try done; [|by left].
      apply follows_step; [intros j; by apply Pgno.same_view|]. intros h cs k Hh Hk.
      rewrite (Hok _ eq_refl), <- Hh. by apply (sp_load (mkASys h cs)).
    + exists (AReturned (failed (CallLoad id) e)). apply allowed_fail; try done; [by left|].
      apply plain_truthful. by eapply stream_plain.
  - intros [= <- <- <-]. unfold enter_create. destruct (ready_session s) as [[]|e] eqn:Hr.
    2:{ exists (AReturned (failed (CallCreate events ctx) e)).
        apply allowed_fail; [done|apply same_refl|by left|]. apply plain_truthful. by eapply ready_plain. }
    destruct events as [|payload [|]].
    2:{ exists (APending (CallCreate [payload] ctx)). apply allowed_quiet; [done|apply same_refl|done|by apply follows_same|by left]. }
    all: eexists (AReturned (failed (CallCreate _ ctx) _)); apply allowed_fail; [done|apply same_refl|by left|done].
  - intros [= <- <- <-]. unfold enter_append. destruct (ready_session s) as [[]|e] eqn:Hr.
    2:{ exists (AReturned (failed (CallAppend id expected events ctx) e)).
        apply allowed_fail; [done|apply same_refl|by left|]. apply plain_truthful. by eapply ready_plain. }
    destruct events as [|payload [|]].
    + exists (AReturned (RAppend (Ok []))). apply allowed_quiet; [done|apply same_refl|done| |by left].
      apply follows_step; [done|]. intros h cs k Hh Hk. by eapply (sp_append_nothing (mkASys h cs)).
    + exists (APending (CallAppend id expected [payload] ctx)).
      apply allowed_quiet; [done|apply same_refl|done|by apply follows_same|by left].
    + eexists (AReturned (failed (CallAppend id expected _ ctx) _)). apply allowed_fail; [done|apply same_refl|by left|done].
Qed.

Lemma number_allowed s payload ctx s' pc' :
  Inv s -> next_id s < U64_MAX -> number s payload ctx = (s', pc') ->
  exists t', allowed None s s' (Number payload ctx) pc' (APending (CallCreate [payload] ctx)) t'.
Proof using Type.
  intros HI Hroom. unfold number. pose proof (Pgno.pi_next _ _ _ _ HI) as Hn.
  destruct (checked_add U64_MAX (next_id s) 1) as [raw|] eqn:Hraw; [|apply checked_add_None in Hraw; lia].
  apply checked_add_Some in Hraw as [-> Hle].
  destruct (NonZeroU64_new (next_id s + 1)) as [raw|] eqn:Hnz.
  2:{ unfold NonZeroU64_new in Hnz. destruct (Z.eqb_spec (next_id s + 1) 0); [lia|done]. }
  apply NonZeroU64_new_Some in Hnz as [<- _]. unfold wrapping_add. rewrite Z.mod_small by lia.
  intros [= <- <-]. exists (APending (CallCreate [payload] ctx)). split; try done.
  - apply (Pgno.grow_inv F J log s); try done; lia.
  - split; simpl; try done. lia.
  - split; [done|]. split; [simpl; lia|]. apply (Pgno.view_unused F J log s); [done|simpl; lia].
  - by apply follows_same.
  - intros raw [= <-]. right. lia.
Qed.

Lemma read_allowed s id expected payload ctx s' r :
  Inv s -> Z.of_nat (length (view s id)) < U64_MAX -> ordered_stream s id = (s', r) ->
  exists pc' t', check_stream id expected payload ctx r = Some pc' /\ holds pc' = Some (AggregateId_get id)
    /\ allowed None s s' (Read id expected payload ctx) pc' (APending (CallAppend id expected [payload] ctx)) t'.
Proof using from_nanosecond_i64 session_laws.
  intros HI Hroom Ho. destruct (Pgno.ordered_stream_spec _ _ _ _ _ from_nanosecond_i64 _ _ _ _ HI Ho) as [Hs Hok].
  assert (Hfail : forall e, truthful (view s) (CallAppend id expected [payload] ctx) e ->
    allowed None s s' (Read id expected payload ctx) (Leave (AggregateId_get id) (RAppend (Err e)))
      (APending (CallAppend id expected [payload] ctx)) (AReturned (failed (CallAppend id expected [payload] ctx) e))).
  { intros e He. apply allowed_fail; try done. right. by eexists. }
  unfold check_stream. destruct r as [l|e].
  2:{ do 2 eexists. split; [done|]. split; [done|]. apply Hfail, plain_truthful. by eapply stream_plain. }
  specialize (Hok _ eq_refl). destruct l as [|e0 rest]; [do 2 eexists; split; [done|]; split; [done|]; by apply Hfail|].
  assert (Hlast : from_option sequence 0 (last (e0 :: rest)) = Z.of_nat (length (view s id))).
  { rewrite Hok. destruct (last (view s id)) as [x|] eqn:Hl; simpl.
    - apply (valid_stream_last id); [apply HI|done].
    - by rewrite (proj1 (last_None _) Hl). }
  rewrite Hlast. destruct (Z.eqb_spec (Z.of_nat (length (view s id))) expected) as [<-|Hneq]; cbn [negb].
  2:{ do 2 eexists. split; [done|]. split; [done|]. apply Hfail. split_and!; try done; [by do 2 eexists|by rewrite <- Hok]. }
  destruct (checked_add U64_MAX _ 1) as [nx|] eqn:Hnx; [|apply checked_add_None in Hnx; lia].
  apply checked_add_Some in Hnx as [-> _]. do 2 eexists. split; [done|]. split; [done|].
  assert (Hh : forall q, history s' (JAppend id q) = view s id).
  { intros q. unfold history. destruct id. by apply Pgno.same_view. }
  eapply allowed_quiet; [done|done| |apply follows_same; intros j; by apply Pgno.same_view|by left].
  split; [done|]. assert (Hne : view s id <> []) by (by rewrite <- Hok). split.
  - done.
  - rewrite (Pgno.sm_next _ _ _ _ Hs). by apply Pgno.view_owner with (J := J) (log := log).
  - by rewrite Hh.
  - lia.
  - intros id' q' [= <- <-]. by rewrite Hh.
Qed.

Lemma draw_allowed s j payload ctx q s' u w :
  Inv s -> placed s j q -> now_v7 (world s) = (w, u) -> s' = Pgno.with_world F s w ->
  allowed None s s' (Draw j payload ctx q) (Write j payload ctx q u) (APending (job_call j payload ctx)) (APending (job_call j payload ctx)).
Proof using Type.
  intros HI Hp Hu ->. unfold now_v7 in Hu. injection Hu as <- <-. destruct Hp as [H1 H2 H3 H4 H5].
  split; try done.
  - apply (Pgno.grow_inv F J log s); simpl; try done; [pose proof (Pgno.pi_next _ _ _ _ HI); lia|lia].
  - split; simpl; try done. lia.
  - split; [done|]. split; [by split|]. split; [|by apply (Pgno.undrawn_fresh F J log s)].
    exists (uuid_drawn (world s)). simpl. split; [lia|done].
  - by apply follows_same.
  - intros raw. destruct j; [|done]. by left.
Qed.

Lemma follows_trans s1 t1 s2 t2 s3 t3 : follows s1 t1 s2 t2 -> follows s2 t2 s3 t3 -> follows s1 t1 s3 t3.
Proof using Type.
  intros H1 H2 h cs i Hh Hi. destruct (H1 h cs i Hh Hi) as (h1&Hh1&Hr1).
  destruct (H2 h1 (<[i := t2]> cs) i Hh1) as (h2&Hh2&Hr2); [by simplify_map_eq|].
  exists h2. split; [done|]. rewrite insert_insert_eq in Hr2. by etrans.
Qed.

(** The write is the instant at which the call takes effect. *)
Lemma follows_apply s s' j payload ctx q env :
  Inv s' -> placed s j q -> stamped (AggregateId_new (target j)) ctx [payload] [env] ->
  history s' j = history s j ++ [env] -> (forall id, id <> AggregateId_new (target j) -> view s' id = view s id) ->
  follows s (APending (job_call j payload ctx)) s' (AApplied (job_reply j env)).
Proof using Type.
  intros HI Hp Hst Hv Ho h cs i Hh Hi. exists (view s'). split; [done|]. apply rtc_once.
  assert (Hvalid : valid_stream (AggregateId_new (target j)) (history s' j)) by apply HI.
  assert (Honly : only_changes (AggregateId_new (target j)) h (view s')) by (intros k Hk; by rewrite Hh, Ho).
  destruct j as [raw|[id] expected]; simpl in *.
  - destruct (pl_reserved _ _ _ Hp) as [_ He]. rewrite He in Hv. unfold history in *. simpl in *.
    rewrite <- Hv. eapply (sp_create (mkASys h cs)); [done|done|by rewrite Hh|by rewrite Hv|done|done].
  - destruct (pl_expected _ _ _ Hp _ _ eq_refl) as [Hne Hex]. unfold history in *. simpl in *.
    eapply (sp_append (mkASys h cs)); [done|done|by rewrite Hh|by rewrite Hh|done|by rewrite Hh|done|done].
Qed.

Lemma follows_unknown s s' r e :
  (forall id, view s' id = view s id) -> ~ definite e -> follows s (AApplied r) s' (AReturned (unknown r e)).
Proof using Type.
  intros Hv He. apply follows_step; [done|]. intros h cs i Hh Hi. by apply (sp_return_unknown (mkASys h cs)).
Qed.

Lemma write_allowed s j payload ctx q u s' r :
  Inv s -> rel s (Write j payload ctx q u) (APending (job_call j payload ctx)) ->
  record_single s (target j) u q (correlation_id ctx) (causation_id ctx) payload = (s', r) ->
  exists w t', allowed w s s' (Write j payload ctx q u)
    (match r with Err e => Leave (target j) (job_failed j e) | Ok _ => ReadBack j u end) (APending (job_call j payload ctx)) t'.
Proof using session_laws codec_laws.
  intros HI (_&Hp&Hk&Hu) Hrec.
  destruct (Pgno.record_single_spec _ _ _ _ _ _ _ _ _ _ _ _ _ _ Hrec) as [[Hs [e ->]]|(ts&Hts&Hland&Hr)].
  { exists None, (AReturned (failed (job_call j payload ctx) e)). apply allowed_fail; [done|done| |].
    - right. exists (target j). by destruct j.
    - apply plain_truthful. by eapply record_plain. }
  pose proof Hp as [Hres Hown Hnext Hroom Hexp]. exists (Some (target j)).
  destruct (Pgno.landed_inv _ _ _ _ _ _ HI Hland) as (HI'&Hv&Ho); simpl in *; try done.
  set (env := Pgno.envelope_of _) in *. pose proof Hland as (Hn&Hat&Hd&_).
  assert (Hev : evolves (Some (target j)) s s').
  { split; [lia|done|by rewrite Hd|]. intros id Hid. apply Ho. intros ->. by apply Hid. }
  assert (Hf : follows s (APending (job_call j payload ctx)) s' (AApplied (job_reply j env))).
  { eapply follows_apply; try done. by repeat constructor. }
  assert (Hw : forall id, Some (target j) = Some id -> Some (target j) = Some id
    /\ (creating (Write j payload ctx q u) = Some id \/ view s (AggregateId_new id) <> [])).
  { intros id [= <-]. split; [done|]. destruct j as [raw|id expected]; [by left|right].
    by destruct (Hexp _ _ eq_refl). }
  destruct Hr as [->|(e&->&He)].
  - exists (AApplied (job_reply j env)). split; try done. exists (history s j), env. split_and!; try done.
    intros raw ->. by destruct Hres.
  - exists (AReturned (job_failed j e)). split; try done. eapply follows_trans; [done|].
    replace (job_failed j e) with (unknown (job_reply j env) e) by (by destruct j). by apply follows_unknown.
Qed.

Lemma read_back_allowed s j u t s' r :
  Inv s -> rel s (ReadBack j u) t -> ordered_stream s (AggregateId_new (target j)) = (s', r) ->
  exists t', allowed None s s' (ReadBack j u) (Leave (target j) (read_back j u r)) t t'.
Proof using from_nanosecond_i64 session_laws.
  intros HI (pre&env&Hv&Hu&->&Hpre) Ho.
  destruct (Pgno.ordered_stream_spec _ _ _ _ _ from_nanosecond_i64 _ _ _ _ HI Ho) as [Hs Hok].
  assert (Hsv : forall id, view s' id = view s id) by (intros id; by apply Pgno.same_view).
  exists (AReturned (read_back j u r)). apply allowed_quiet; try done; [|by left]. destruct r as [l|e].
  - specialize (Hok _ eq_refl). unfold history in Hv. rewrite Hok, Hv. destruct j as [raw|id expected]; simpl.
    + rewrite (Hpre raw eq_refl). apply follows_step; [done|]. intros h cs i Hh Hi. by apply (sp_return (mkASys h cs)).
    + rewrite (find_appended (AggregateId_new (target (JAppend id expected)))); [|rewrite <- Hv; apply HI|done]. simpl.
      apply follows_step; [done|]. intros h cs i Hh Hi. by apply (sp_return (mkASys h cs)).
  - replace (read_back j u (Err e)) with (unknown (job_reply j env) (after_landed (BoxStore e))) by (by destruct j).
    apply follows_unknown; [done|]. apply indeterminate_not_definite.
Qed.

Lemma advance_allowed i s l pc t s' l' pc' :
  Inv s -> next_id s < U64_MAX -> Z.of_nat (length (log (Pgno.session _ s))) < U64_MAX ->
  (forall id, l !! id <> Some Poisoned) -> rel s pc t -> advance i s l pc = Some (s', l', pc') ->
  exists w t', allowed w s s' pc pc' t t'.
Proof using from_nanosecond_i64 session_laws codec_laws.
  intros HI Hn Hlen Hl Hr.
  destruct pc as [c|p ctx|j p ctx|j p ctx|id q p ctx|j p ctx q|j p ctx q u|j u|lk r|r|]; simpl in Hr; [..|done].
  - intros Ha. subst t. exists None. by eapply enter_allowed.
  - cbn [advance]. destruct (number s p ctx) as [s1 pc1] eqn:E. intros [= <- <- <-]. subst t. exists None. by eapply number_allowed.
  - intros [= <- <- <-]. exists None, t. apply allowed_quiet; [done|apply same_refl|done|by apply follows_same|by right].
  - cbn [advance]. destruct (l !! target j) as [[|k|]|] eqn:E; [|done|by destruct (Hl (target j))|done].
    intros [= <- <- <-]. destruct Hr as [-> Hres]. exists None, (APending (job_call j p ctx)).
    apply allowed_quiet; [done|apply same_refl| |by apply follows_same|by destruct j; [right|left]].
    destruct j as [raw|id q]; [|done]. split; [done|]. pose proof Hres as [Hb He]. split; [done|done| | |done].
    + by rewrite He.
    + unfold U64_MAX. lia.
  - cbn [advance]. destruct (ordered_stream s id) as [s1 r] eqn:E. subst t.
    assert (Hv : Z.of_nat (length (view s id)) < U64_MAX).
    { pose proof (Pgno.view_length F J log s id). lia. }
    destruct (read_allowed s id q p ctx s1 r HI Hv E) as (pc1&t'&->&_&Ha). intros [= <- <- <-]. by exists None, t'.
  - cbn [advance]. destruct (now_v7 (world s)) as [w u] eqn:E. intros [= <- <- <-]. destruct Hr as [-> Hp].
    exists None. eexists. by eapply draw_allowed.
  - cbn [advance]. destruct (record_single _ _ _ _ _ _ _) as [s1 r] eqn:E. intros [= <- <- <-].
    pose proof Hr as [-> _]. by eapply write_allowed.
  - cbn [advance]. destruct (ordered_stream s _) as [s1 r] eqn:E. intros [= <- <- <-]. exists None. by eapply read_back_allowed.
  - intros [= <- <- <-]. subst t. exists None, (AReturned r).
    apply allowed_quiet; [done|apply same_refl|done|by apply follows_same|by left].
  - done.
Qed.

Lemma advance_small i s l pc s' l' pc' :
  0 <= next_id s < U64_MAX -> advance i s l pc = Some (s', l', pc') ->
  next_id s' <= next_id s + 1 /\ (length (log (Pgno.session _ s')) <= S (length (log (Pgno.session _ s))))%nat.
Proof using session_laws codec_laws.
  intros Hn. destruct pc as [[id| |]|p ctx|j p ctx|j p ctx|id q p ctx|j p ctx q|j p ctx q u|j u|lk r|r|]; cbn [advance].
  all: try (intros [= <- <- <-]; lia).
  - destruct (ordered_stream s id) as [s1 r] eqn:E. intros [= <- <- <-].
    destruct (Pgno.ordered_stream_small _ _ _ _ log _ _ _ _ E) as [-> ->]. lia.
  - unfold number. intros [= <- <- <-]. simpl. unfold wrapping_add. rewrite Z.mod_small by lia. lia.
  - destruct (l !! target j) as [[]|]; try done; intros [= <- <- <-]; lia.
  - destruct (ordered_stream s id) as [s1 r] eqn:E.
    destruct (Pgno.ordered_stream_small _ _ _ _ log _ _ _ _ E) as [En El].
    destruct (check_stream _ _ _ _ _); intros [= <- <- <-]; rewrite En, El; lia.
  - destruct (now_v7 _). intros [= <- <- <-]. simpl. lia.
  - destruct (record_single _ _ _ _ _ _ _) as [s1 r] eqn:E. intros [= <- <- <-].
    destruct (Pgno.record_single_small _ _ _ _ log _ _ _ _ _ _ _ _ _ E) as [-> ?]. lia.
  - destruct (ordered_stream s _) as [s1 r] eqn:E. intros [= <- <- <-].
    destruct (Pgno.ordered_stream_small _ _ _ _ log _ _ _ _ E) as [-> ->]. lia.
Qed.

(** *** The aggregate mutexes *)

Definition waiting pc : option Z := match pc with Acquire j _ _ => Some (target j) | _ => None end.

(** What a step does to the table. *)
Inductive lock_step (i : nat) (l : Locks) pc : Locks -> Pc Ev -> Prop :=
| ls_same pc' : holds pc' = holds pc -> waiting pc' = None -> lock_step i l pc l pc'
| ls_register id pc' : holds pc = None -> holds pc' = None -> waiting pc' = Some id ->
    lock_step i l pc (aggregate_lock id l) pc'
| ls_acquire id pc' : l !! id = Some Free -> holds pc = None -> holds pc' = Some id -> waiting pc' = None ->
    lock_step i l pc (<[id := Held i]> l) pc'
| ls_release id pc' : holds pc = Some id -> holds pc' = None -> waiting pc' = None ->
    lock_step i l pc (<[id := Free]> l) pc'.

Lemma advance_locks i s l pc s' l' pc' :
  (forall id, l !! id <> Some Poisoned) -> advance i s l pc = Some (s', l', pc') -> pc' <> Panicked -> lock_step i l pc l' pc'.
Proof using Type.
  intros Hl. destruct pc as [c|p ctx|j p ctx|j p ctx|id q p ctx|j p ctx q|j p ctx q u|j u|lk r|r|]; cbn [advance].
  - destruct c as [id|events ctx|id q events ctx].
    + destruct (ordered_stream s id). intros [= <- <- <-] _. by constructor.
    + intros [= <- <- <-] _. unfold enter_create. constructor; repeat case_match; done.
    + intros [= <- <- <-] _. unfold enter_append. constructor; repeat case_match; done.
  - unfold number. intros [= <- <- <-] Hp. constructor; repeat case_match; done.
  - intros [= <- <- <-] _. by constructor.
  - destruct (l !! target j) as [[|k|]|] eqn:E; [|done|by destruct (Hl (target j))|done].
    intros [= <- <- <-] _. constructor; [done|done|by destruct j..].
  - destruct (ordered_stream s id) as [s1 r]. unfold check_stream.
    destruct r as [[|e0 rest]|e]; [intros [= <- <- <-] _; by constructor| |intros [= <- <- <-] _; by constructor].
    destruct (negb _); [intros [= <- <- <-] _; by constructor|].
    destruct (checked_add _ _ _); intros [= <- <- <-] Hp; [by constructor|done].
  - destruct (now_v7 _). intros [= <- <- <-] _. by constructor.
  - destruct (record_single _ _ _ _ _ _ _) as [s1 [|]]; intros [= <- <- <-] _; by constructor.
  - destruct (ordered_stream s _). intros [= <- <- <-] _. by constructor.
  - intros [= <- <- <-] _. by constructor.
  - done.
  - done.
Qed.

(** A thread inside a critical section has its mutex, and only such threads have. *)
Record guarded (l : Locks) (ts : gmap nat (Pc Ev)) : Prop := {
  gu_held i pc id : ts !! i = Some pc -> holds pc = Some id -> l !! id = Some (Held i);
  gu_owner i id : l !! id = Some (Held i) -> exists pc, ts !! i = Some pc /\ holds pc = Some id;
  gu_waiting i pc id : ts !! i = Some pc -> waiting pc = Some id -> is_Some (l !! id);
  gu_sound id : l !! id <> Some Poisoned;
}.

Lemma aggregate_lock_held id id' i l :
  aggregate_lock id l !! id' = Some (Held i) <-> l !! id' = Some (Held i).
Proof using Type.
  unfold aggregate_lock. destruct (l !! id) eqn:E; [done|]. rewrite lookup_insert_Some.
  split; [by intros [[_ ?]|[_ ?]]|]. intros H. right. split; [|done]. intros ->. by rewrite E in H.
Qed.

Lemma aggregate_lock_some id id' l : is_Some (l !! id') -> is_Some (aggregate_lock id l !! id').
Proof using Type.
  unfold aggregate_lock. destruct (l !! id) eqn:E; [done|]. rewrite lookup_insert_is_Some. destruct (decide (id = id')); auto.
Qed.

Lemma guarded_step i l ts pc l' pc' :
  guarded l ts -> ts !! i = Some pc -> lock_step i l pc l' pc' -> guarded l' (<[i := pc']> ts).
Proof using Type.
  intros [Hh Ho Hw Hs] Hi Hst.
  assert (Hother : forall k id, k <> i -> l !! id = Some (Held k) -> exists q, <[i := pc']> ts !! k = Some q /\ holds q = Some id).
  { intros k id Hk Hl. rewrite lookup_insert_ne by done. by apply Ho. }
  destruct Hst as [pc' Hh' Hw'|id pc' Hh0 Hh' Hw'|id pc' Hfree Hh0 Hh' Hw'|id pc' Hh0 Hh' Hw']; split.
  - intros k q id [[<- <-]|[Hne Hk]]%lookup_insert_Some Hq; [|by eapply Hh]. rewrite Hh' in Hq. by eapply Hh.
  - intros k id Hk. destruct (decide (k = i)) as [->|Hne]; [|by apply Hother].
    destruct (Ho i id Hk) as (q&Hq&Hid). simplify_eq. exists pc'. simplify_map_eq. by rewrite Hh'.
  - intros k q id [[<- <-]|[Hne Hk]]%lookup_insert_Some Hq; [congruence|by eapply Hw].
  - done.
  - intros k q id' [[<- <-]|[Hne Hk]]%lookup_insert_Some Hq; [congruence|]. apply aggregate_lock_held. by eapply Hh.
  - intros k id' Hk%aggregate_lock_held. destruct (decide (k = i)) as [->|Hne]; [|by apply Hother].
    destruct (Ho i id' Hk) as (q&Hq&Hid). congruence.
  - intros k q id' [[<- <-]|[Hne Hk]]%lookup_insert_Some Hq; [|apply aggregate_lock_some; by eapply Hw].
    rewrite Hw' in Hq. injection Hq as <-. unfold aggregate_lock. destruct (l !! id) eqn:E; [by rewrite E|]. by simplify_map_eq.
  - intros id'. unfold aggregate_lock. destruct (l !! id); [done|]. rewrite lookup_insert_Some. intros [[_ ?]|[_ ?]]; [done|by eapply Hs].
  - intros k q id' [[<- <-]|[Hne Hk]]%lookup_insert_Some Hq; [simplify_eq; by simplify_map_eq|].
    rewrite lookup_insert_ne; [by eapply Hh|]. intros ->. rewrite (Hh _ _ _ Hk Hq) in Hfree. done.
  - intros k id' [[<- [= <-]]|[Hne Hk]]%lookup_insert_Some; [exists pc'; by simplify_map_eq|].
    destruct (decide (k = i)) as [->|Hk']; [|by apply Hother]. destruct (Ho i id' Hk) as (q&Hq&Hid). congruence.
  - intros k q id' [[<- <-]|[Hne Hk]]%lookup_insert_Some Hq; [congruence|]. rewrite lookup_insert_is_Some.
    destruct (decide (id = id')); [by left|right]. split; [done|]. by eapply Hw.
  - intros id' [[_ ?]|[_ ?]]%lookup_insert_Some; [done|by eapply Hs].
  - intros k q id' [[<- <-]|[Hne Hk]]%lookup_insert_Some Hq; [congruence|].
    rewrite lookup_insert_ne; [by eapply Hh|]. intros ->. pose proof (Hh _ _ _ Hk Hq). pose proof (Hh _ _ _ Hi Hh0). congruence.
  - intros k id' [[_ ?]|[Hne Hk]]%lookup_insert_Some; [done|]. destruct (decide (k = i)) as [->|Hk']; [|by apply Hother].
    destruct (Ho i id' Hk) as (q&Hq&Hid). congruence.
  - intros k q id' [[<- <-]|[Hne Hk]]%lookup_insert_Some Hq; [congruence|]. rewrite lookup_insert_is_Some.
    destruct (decide (id = id')); [by left|right]. split; [done|]. by eapply Hw.
  - intros id' [[_ ?]|[_ ?]]%lookup_insert_Some; [done|by eapply Hs].
Qed.

(** *** All threads *)

Record sim g (a : ASys Ev) : Prop := {
  si_inv : Inv (store g);
  si_views id : histories a id = view (store g) id;
  si_threads i : match threads g !! i, calls a !! i with
                 | Some pc, Some t => rel (store g) pc t
                 | None, None => True
                 | _, _ => False
                 end;
  si_guarded : guarded (locks g) (threads g);
  si_creating i k pc q raw : threads g !! i = Some pc -> threads g !! k = Some q ->
    creating pc = Some raw -> creating q = Some raw -> i = k;
}.

Lemma sim_thread g a i pc : sim g a -> threads g !! i = Some pc -> exists t, calls a !! i = Some t /\ rel (store g) pc t.
Proof using Type.
  intros Hs Hi. pose proof (si_threads _ _ Hs i) as Ht. rewrite Hi in Ht. destruct (calls a !! i) as [t|]; [by exists t|done].
Qed.

Lemma creating_reserved s pc t raw :
  rel s pc t -> creating pc = Some raw -> raw <= next_id s /\ view s (AggregateId_new raw) = [].
Proof using Type.
  destruct pc as [c|p ctx|[r|] p ctx|[r|] p ctx|id q p ctx|[r|] p ctx q|[r|] p ctx q u|j u|lk r|r|]; simpl; try done.
  - intros (_&?&?) [= <-]. split; [lia|done].
  - intros (_&?&?) [= <-]. split; [lia|done].
  - intros (_&[[? ?] _ _ _]) [= <-]. split; [lia|done].
  - intros (_&[[? ?] _ _ _]&_) [= <-]. split; [lia|done].
Qed.

Lemma focus_held pc id : focus pc = Some id -> holds pc = Some id \/ creating pc = Some id.
Proof using Type. destruct pc; simpl; auto. Qed.

(** No thread relies on a history that another one writes. *)
Lemma sim_apart g a w s' i pc pc' t t' k q :
  sim g a -> threads g !! i = Some pc -> allowed w (store g) s' pc pc' t t' -> k <> i -> threads g !! k = Some q ->
  forall id, focus q = Some id -> w <> Some id.
Proof using Type.
  intros Hs Hi Ha Hk Hq id Hf ->. destruct (al_write _ _ _ _ _ _ _ Ha id eq_refl) as [Hh Hc].
  pose proof (gu_held _ _ (si_guarded _ _ Hs) _ _ _ Hi Hh) as Hl. destruct (focus_held _ _ Hf) as [Hh'|Hc'].
  - pose proof (gu_held _ _ (si_guarded _ _ Hs) _ _ _ Hq Hh'). simplify_eq.
  - destruct Hc as [Hc|Hne]; [by destruct Hk; eapply (si_creating _ _ Hs)|].
    destruct (sim_thread _ _ _ _ Hs Hq) as (tq&_&Hr). by destruct (creating_reserved _ _ _ _ Hr Hc').
Qed.

Definition room (n : nat) g : Prop :=
  next_id (store g) + Z.of_nat n <= U64_MAX /\ Z.of_nat (length (log (Pgno.session _ (store g)))) + Z.of_nat n <= U64_MAX.

Lemma sim_go g a g' n :
  sim g a -> room (S n) g -> go g g' -> room n g' /\ exists a', rtc spec_step a a' /\ sim g' a'.
Proof using from_nanosecond_i64 session_laws codec_laws.
  intros Hs [Hn Hlen] [i pc s' l' pc' Hi Ha]. pose proof (Pgno.pi_next _ _ _ _ (si_inv _ _ Hs)) as Hnx.
  assert (Hb : 0 <= next_id (store g) < U64_MAX) by lia.
  split; [destruct (advance_small _ _ _ _ _ _ _ Hb Ha); split; simpl; lia|].
  destruct (sim_thread _ _ _ _ Hs Hi) as (t&Hti&Hr). pose proof (gu_sound _ _ (si_guarded _ _ Hs)) as Hsound.
  destruct (advance_allowed i _ _ _ t _ _ _ (si_inv _ _ Hs) (proj2 Hb) ltac:(lia) Hsound Hr Ha) as (w&t'&Hal).
  destruct (al_follows _ _ _ _ _ _ _ Hal (histories a) (calls a) i (si_views _ _ Hs) Hti) as (h'&Hh'&Hrun).
  exists (mkASys h' (<[i := t']> (calls a))). split; [by destruct a|].
  pose proof (sim_apart g a w s' i pc pc' t t') as Hapart. pose proof (al_evolves _ _ _ _ _ _ _ Hal) as Hev. split; simpl.
  - apply Hal.
  - done.
  - intros k. destruct (decide (k = i)) as [->|Hk]; [simplify_map_eq; apply Hal|]. rewrite !lookup_insert_ne by done.
    pose proof (si_threads _ _ Hs k) as Ht. destruct (threads g !! k) as [q|] eqn:Hq; [|done].
    destruct (calls a !! k); [|done]. eapply rel_evolves; [done| |done]. by eapply Hapart.
  - eapply guarded_step; [apply Hs|done|]. eapply advance_locks; [done|done|]. intros ->. by destruct (al_rel _ _ _ _ _ _ _ Hal).
  - assert (Hnew : forall k q raw, k <> i -> threads g !! k = Some q -> creating pc' = Some raw -> creating q = Some raw -> k = i).
    { intros k q raw Hk Hq Hc Hc'. destruct (al_creating _ _ _ _ _ _ _ Hal _ Hc) as [Hc0|Hlt]; [by eapply (si_creating _ _ Hs)|].
      destruct (sim_thread _ _ _ _ Hs Hq) as (tq&_&Hrq). destruct (creating_reserved _ _ _ _ Hrq Hc'). lia. }
    intros k m q1 q2 raw [[<- <-]|[Hk Hq1]]%lookup_insert_Some [[<- <-]|[Hm Hq2]]%lookup_insert_Some Hc1 Hc2.
    + done.
    + symmetry. by eapply Hnew.
    + by eapply Hnew.
    + by eapply (si_creating _ _ Hs).
Qed.

Lemma sim_call g a i c :
  sim g a -> threads g !! i = None ->
  sim (mkSys (store g) (locks g) (<[i := Enter c]> (threads g))) (mkASys (histories a) (<[i := APending c]> (calls a)))
  /\ calls a !! i = None.
Proof using Type.
  intros Hs Hi. pose proof (si_threads _ _ Hs i) as Ht. rewrite Hi in Ht.
  split; [|revert Ht; by destruct (calls a !! i)]. destruct Hs as [HI Hv Hth [Hh Ho Hw Hp] Hc]. split; simpl; try done.
  - intros k. destruct (decide (k = i)) as [->|Hk]; [by simplify_map_eq|]. rewrite !lookup_insert_ne by done. apply Hth.
  - split; try done.
    + intros k q id [[<- <-]|[Hk Hq]]%lookup_insert_Some; [done|by apply Hh].
    + intros k id Hl. destruct (Ho k id Hl) as (q&Hq&Hid). exists q. split; [|done].
      rewrite lookup_insert_ne; [done|]. intros ->. congruence.
    + intros k q id [[<- <-]|[Hk Hq]]%lookup_insert_Some; [done|by eapply Hw].
  - intros k m q1 q2 raw [[<- <-]|[Hk Hq1]]%lookup_insert_Some [[<- <-]|[Hm Hq2]]%lookup_insert_Some; try done. by apply Hc.
Qed.

Lemma sim_run n g0 a0 g m :
  sim g0 a0 -> room (n + m) g0 -> nsteps step n g0 g -> room m g /\ exists a, rtc spec_step a0 a /\ sim g a.
Proof using from_nanosecond_i64 session_laws codec_laws.
  revert g0 a0. induction n as [|n IH]; intros g0 a0 Hs Hroom Hrun; inversion Hrun as [|? ? g1 ? Hst Hrest]; subst.
  { split; [done|]. by exists a0. }
  assert (Hnext : room (n + m) g1 /\ exists a1, rtc spec_step a0 a1 /\ sim g1 a1).
  { destruct Hst as [i c Hi|g1 Hgo]; [|by apply (sim_go g0)]. split.
    - destruct Hroom. split; simpl in *; lia.
    - destruct (sim_call _ _ _ c Hs Hi) as [Hs1 Hci]. eexists. split; [|done]. apply rtc_once. by constructor. }
  destruct Hnext as (Hr1&a1&Hrun1&Hs1). destruct (IH g1 a1 Hs1 Hr1 Hrest) as (Hr&a&Hrun2&Hsim).
  split; [done|]. exists a. split; [by etrans|done].
Qed.

Lemma sim_opened s : Inv s -> sim (opened s) (mkASys (view s) ∅).
Proof using Type. intros HI. split; simpl; try done. Qed.

(** C14: Concurrent calls take effect one at a time.  Whatever the interleaving of
    any number of calls, at the granularity of the mutexes and atomics of the
    source, and whatever write fails, the store goes through the histories of a
    run of the specification: each [create] and [append] changes the histories at
    one instant between its invocation and its reply, a new aggregate only when
    nobody else has it and an append only at the end of a history of the expected
    length; it replies with what that instant wrote, or with a failure that is
    definite only if nothing was written; a reported conflict was one; a [load]
    returns the histories of one instant.  No call panics. *)
Theorem pgno_linearizable s n g :
  Inv s -> room n (opened s) -> nsteps step n (opened s) g ->
  exists a, rtc spec_step (mkASys (view s) ∅) a /\ Inv (store g) /\ (forall id, histories a id = view (store g) id)
    /\ (forall i r, threads g !! i = Some (Returned r) -> calls a !! i = Some (AReturned r))
    /\ (forall i, threads g !! i <> Some Panicked).
Proof using from_nanosecond_i64 session_laws codec_laws.
  intros HI Hroom Hrun. destruct (sim_run n _ _ g 0 (sim_opened s HI) ltac:(by rewrite Nat.add_0_r) Hrun) as (_&a&Ha&Hs).
  exists a. split_and!; [done|apply Hs|apply Hs| |].
  - intros i r Hi. by destruct (sim_thread _ _ _ _ Hs Hi) as (t&Ht&->).
  - intros i Hi. by destruct (sim_thread _ _ _ _ Hs Hi) as (t&_&[]).
Qed.

(** ** Every call ends *)

(** The most steps a thread has left. *)
Definition rank pc : nat :=
  match pc with
  | Enter _ => 8
  | Number _ _ => 7
  | Lookup j _ _ => match j with JCreate _ => 6 | JAppend _ _ => 7 end
  | Acquire j _ _ => match j with JCreate _ => 5 | JAppend _ _ => 6 end
  | Read _ _ _ _ => 5
  | Draw _ _ _ _ => 4
  | Write _ _ _ _ _ => 3
  | ReadBack _ _ => 2
  | Leave _ _ => 1
  | Returned _ | Panicked => 0
  end.

Lemma advance_rank i s l pc s' l' pc' : advance i s l pc = Some (s', l', pc') -> (rank pc' < rank pc)%nat.
Proof using Type.
  destruct pc as [[id|events ctx|id q events ctx]|p ctx|j p ctx|j p ctx|id q p ctx|j p ctx q|j p ctx q u|j u|lk r|r|]; cbn [advance].
  all: try done.
  - destruct (ordered_stream s id). intros [= <- <- <-]. simpl. lia.
  - intros [= <- <- <-]. unfold enter_create. repeat case_match; simpl; lia.
  - intros [= <- <- <-]. unfold enter_append. repeat case_match; simpl; lia.
  - unfold number. intros [= <- <- <-]. repeat case_match; simpl; lia.
  - intros [= <- <- <-]. destruct j; simpl; lia.
  - destruct (l !! target j) as [[]|]; try done; intros [= <- <- <-]; destruct j; simpl; lia.
  - destruct (ordered_stream s id) as [s1 r]. unfold check_stream.
    destruct r as [[|e0 rest]|e]; [intros [= <- <- <-]; simpl; lia| |intros [= <- <- <-]; simpl; lia].
    destruct (negb _); [intros [= <- <- <-]; simpl; lia|]. destruct (checked_add _ _ _); intros [= <- <- <-]; simpl; lia.
  - destruct (now_v7 _). intros [= <- <- <-]. simpl. lia.
  - destruct (record_single _ _ _ _ _ _ _) as [s1 [|]]; intros [= <- <- <-]; simpl; lia.
  - destruct (ordered_stream s _). intros [= <- <- <-]. simpl. lia.
  - intros [= <- <- <-]. simpl. lia.
Qed.

Definition remaining (ts : gmap nat (Pc Ev)) : nat := map_fold (fun _ pc n => (rank pc + n)%nat) 0%nat ts.

Lemma remaining_delete ts i pc : ts !! i = Some pc -> remaining ts = (rank pc + remaining (delete i ts))%nat.
Proof using Type. intros Hi. apply (map_fold_delete_L (fun _ pc n => (rank pc + n)%nat)); [intros; lia|done]. Qed.

Lemma remaining_insert ts i pc pc' :
  ts !! i = Some pc -> (remaining (<[i := pc']> ts) + rank pc = remaining ts + rank pc')%nat.
Proof using Type.
  intros Hi. rewrite (remaining_delete ts i pc Hi), (remaining_delete (<[i := pc']> ts) i pc') by (by simplify_map_eq).
  rewrite delete_insert_eq. lia.
Qed.

Lemma remaining_le ts : (remaining ts <= 8 * size ts)%nat.
Proof using Type.
  induction ts as [|i pc ts Hi IH] using map_ind; [done|].
  rewrite (remaining_delete _ i pc) by (by simplify_map_eq). rewrite delete_insert_id by done.
  rewrite map_size_insert_None by done. assert (rank pc <= 8)%nat by (destruct pc as [| |[]|[]| | | | | | |]; simpl; lia). lia.
Qed.

Lemma go_remaining m g g' : nsteps go m g g' -> (m + remaining (threads g') <= remaining (threads g))%nat /\ size (threads g') = size (threads g).
Proof using Type.
  induction 1 as [g|m g g1 g' [i pc s l pc' Hi Ha] _ [IH Hsz]]; [lia|]. apply advance_rank in Ha. simpl in *.
  pose proof (remaining_insert _ _ _ pc' Hi). rewrite map_size_insert_Some in Hsz by eauto. lia.
Qed.

Lemma advance_waits i s l pc :
  advance i s l pc = None -> (exists r, pc = Returned r) \/ pc = Panicked \/ exists id, waiting pc = Some id
    /\ (l !! id = None \/ exists k, l !! id = Some (Held k)).
Proof using Type.
  destruct pc as [[id| |]|p ctx|j p ctx|j p ctx|id q p ctx|j p ctx q|j p ctx q u|j u|lk r|r|]; cbn [advance]; try done; eauto.
  - by destruct (ordered_stream s id).
  - destruct (l !! target j) as [[|k|]|] eqn:E; try done; intros _; right; right; exists (target j); eauto.
  - destruct (ordered_stream s id) as [s1 r]. by destruct (check_stream _ _ _ _ _).
  - by destruct (record_single _ _ _ _ _ _ _) as [s1 [|]].
  - by destruct (ordered_stream s _).
Qed.

Lemma stuck_returned g a : sim g a -> (forall g', ~ go g g') -> forall i pc, threads g !! i = Some pc -> exists r, pc = Returned r.
Proof using Type.
  intros Hs Hstuck.
  assert (Hnone : forall i pc, threads g !! i = Some pc -> advance i (store g) (locks g) pc = None).
  { intros i pc Hi. destruct (advance i _ _ pc) as [[[s' l'] pc']|] eqn:Ha; [|done].
    exfalso. eapply Hstuck. by econstructor. }
  intros i pc Hi. destruct (advance_waits _ _ _ _ (Hnone i pc Hi)) as [Hr|[->|(id&Hw&Hl)]]; [done| |].
  - by destruct (sim_thread _ _ _ _ Hs Hi) as (t&_&[]).
  - exfalso. destruct (gu_waiting _ _ (si_guarded _ _ Hs) _ _ _ Hi Hw) as [m Hm]. destruct Hl as [Hl|[k Hl]]; [congruence|].
    destruct (gu_owner _ _ (si_guarded _ _ Hs) k id Hl) as (q&Hq&Hh).
    destruct (advance_waits _ _ _ _ (Hnone k q Hq)) as [[r ->]|[->|(id'&Hw'&_)]]; [done|done|]. by destruct q.
Qed.

(** C15: Every call ends, under any schedule.  After any run, if no further calls
    arrive, at most eight steps per call can follow, and when no step can follow
    every call has its reply: the aggregate mutexes cannot deadlock and none is
    left poisoned. *)
Theorem pgno_calls_end s n m g g' :
  Inv s -> room (n + m) (opened s) -> nsteps step n (opened s) g -> nsteps go m g g' ->
  (m <= 8 * size (threads g))%nat
  /\ ((forall g'', ~ go g' g'') -> forall i pc, threads g' !! i = Some pc -> exists r, pc = Returned r).
Proof using from_nanosecond_i64 session_laws codec_laws.
  intros HI Hroom Hrun Hgo. split.
  - destruct (go_remaining _ _ _ Hgo). pose proof (remaining_le (threads g)). lia.
  - intros Hstuck. assert (Hrun' : nsteps step (n + m) (opened s) g').
    { eapply nsteps_trans; [done|]. apply (nsteps_congruence (R := go) id step); [by constructor|done]. }
    destruct (sim_run (n + m) _ _ g' 0 (sim_opened s HI) ltac:(by rewrite Nat.add_0_r) Hrun') as (_&a&_&Hs).
    by eapply stuck_returned.
Qed.

(** ** Schedules *)

Inductive Move := Arrive (i : nat) (c : Call Ev) | Run (i : nat).

Definition move (g : Sys) (m : Move) : option Sys :=
  match m with
  | Arrive i c => match threads g !! i with
                  | None => Some (mkSys (store g) (locks g) (<[i := Enter c]> (threads g)))
                  | Some _ => None
                  end
  | Run i => pc ← threads g !! i;
             '(s, l, pc) ← advance i (store g) (locks g) pc;
             Some (mkSys s l (<[i := pc]> (threads g)))
  end.

Fixpoint moves (g : Sys) (ms : list Move) : option Sys :=
  match ms with
  | [] => Some g
  | m :: ms => g ← move g m; moves g ms
  end.

Lemma move_step g m g' : move g m = Some g' -> step g g' /\ (forall i, m = Run i -> go g g').
Proof using Type.
  destruct m as [i c|i]; simpl.
  - destruct (threads g !! i) eqn:Hi; [done|]. intros [= <-]. split; [by constructor|done].
  - destruct (threads g !! i) as [pc|] eqn:Hi; simpl; [|done].
    destruct (advance i _ _ pc) as [[[s l] pc']|] eqn:Ha; simpl; [|done]. intros [= <-].
    assert (go g (mkSys s l (<[i := pc']> (threads g)))) by (by econstructor). split; [by constructor|done].
Qed.

Lemma moves_steps g ms g' : moves g ms = Some g' -> nsteps step (length ms) g g'.
Proof using Type.
  revert g. induction ms as [|m ms IH]; simpl; intros g; [intros [= <-]; constructor|].
  destruct (move g m) as [g1|] eqn:Hm; simpl; [|done]. intros H. econstructor; [by apply (move_step g m)|by apply IH].
Qed.

Lemma runs_go g l g' : moves g (map Run l) = Some g' -> nsteps go (length l) g g'.
Proof using Type.
  revert g. induction l as [|i l IH]; simpl; intros g; [intros [= <-]; constructor|].
  destruct (move g (Run i)) as [g1|] eqn:Hm; unfold move in Hm; rewrite Hm; simpl; [|done].
  intros H. econstructor; [by eapply (move_step g (Run i))|by apply IH].
Qed.
End Shared.
End Shared.

(** ** Two appends that race

    On the store with one event, two calls append at sequence one; the second
    enters before the first has its mutex. *)

Definition race_calls : list (Shared.Move (Ev := Z)) :=
  [Shared.Arrive 0 (Shared.CallAppend (AggregateId_new 1) 1 [8] Correlation.none);
   Shared.Arrive 1 (Shared.CallAppend (AggregateId_new 1) 1 [9] Correlation.none)].
Definition race_order : list nat := [0; 1; 0; 1; 0; 0; 0; 0; 0; 0; 1; 1; 1]%nat.

Definition race_moves := Shared.moves show_Z LogSession.session (bit_codec (PgnoEnvelope Z))
  (fun k => Z.of_nat (String.length k)) (fun n => Ok n).
Definition race_start := Shared.opened (Ev := Z) LogSession.session demo_written.
Definition race_end := race_moves race_start (race_calls ++ map Shared.Run race_order).

(** Witness of [pgno_linearizable]: one append succeeds, the other is told of the
    conflict, and so in the specification. *)
Lemma pgno_linearizable_witness :
  match race_end with
  | Some g => exists a env,
      Shared.calls a !! 0%nat = Some (Shared.AReturned (Shared.RAppend (Ok [env]))) /\ payload env = 8
      /\ Shared.calls a !! 1%nat = Some (Shared.AReturned (Shared.RAppend (Err (ConcurrencyConflict (AggregateId_new 1) 1 2))))
      /\ map payload (Shared.histories a (AggregateId_new 1)) = [7; 8]
  | None => False
  end.
Proof.
  destruct race_end as [g|] eqn:Hg; [|vm_compute in Hg; discriminate].
  destruct (Shared.pgno_linearizable show_Z LogSession.session (bit_codec (PgnoEnvelope Z))
              (fun k => Z.of_nat (String.length k)) (fun n => Ok n) LogSession.blocks (fun n _ => eq_refl)
              demo_written 15 g demo_written_inv) as (a&_&_&Hh&Hr&_).
  - split; vm_compute; discriminate.
  - apply (Shared.moves_steps _ _ _ _ _ _ (race_calls ++ map Shared.Run race_order) _ Hg).
  - exists a. setoid_rewrite Hh. vm_compute in Hg. injection Hg as <-. eexists. split_and!.
    + apply Hr. reflexivity.
    + reflexivity.
    + apply Hr. reflexivity.
    + vm_compute. reflexivity.
Defined.

(** Witness of [pgno_calls_end]: the same race. *)
Lemma pgno_calls_end_witness :
  match race_moves race_start race_calls, race_end with
  | Some g, Some g' => (13 <= 8 * size (Shared.threads _ g))%nat
      /\ ((forall g'', ~ Shared.go show_Z LogSession.session (bit_codec (PgnoEnvelope Z))
                          (fun k => Z.of_nat (String.length k)) (fun n => Ok n) g' g'')
          -> forall i pc, Shared.threads _ g' !! i = Some pc -> exists r, pc = Shared.Returned r)
  | _, _ => False
  end.
Proof.
  destruct (race_moves race_start race_calls) as [g|] eqn:Hg; [|vm_compute in Hg; discriminate].
  destruct race_end as [g'|] eqn:Hg'; [|vm_compute in Hg'; discriminate].
  apply (Shared.pgno_calls_end show_Z LogSession.session (bit_codec (PgnoEnvelope Z))
           (fun k => Z.of_nat (String.length k)) (fun n => Ok n) LogSession.blocks (fun n _ => eq_refl)
           demo_written 2 13 g g' demo_written_inv).
  - split; vm_compute; discriminate.
  - apply (Shared.moves_steps _ _ _ _ _ _ race_calls _ Hg).
  - apply (Shared.runs_go _ _ _ _ _ _ race_order). unfold race_end in Hg'. vm_compute in Hg. injection Hg as <-. exact Hg'.
Defined.
