(* ===== verification/Projection.v ===== *)
(** * Projections (crates [cherry-pit-projection], [pardosa-cherry-pit-projection])

    The replay driver and the write cell of [cherry-pit-projection] over any
    event store, and the durable store of snapshots and checkpoints,
    [PardosaProjectionStore], over a pardosa session. *)

From S2P Require Import Prelude Core Store Pardosa.
Import Envelope EnvelopeFacts.
Local Open Scope result_scope.

(** ** [ProjectionError] *)

Inductive ProjectionError :=
| PIndeterminate (source : Boxed)
| PCorruptData (source : Boxed)
| PInfrastructure (source : Boxed)
| PStoreLocked
| PCheckpointRegression (existing attempted : Z).

Definition ProjectionError_category (e : ProjectionError) : ErrorCategory :=
  match e with
  | PIndeterminate _ => ReconciliationRequired
  | PCorruptData _ | PCheckpointRegression _ _ => Terminal
  | PInfrastructure _ | PStoreLocked => Retryable
  end.

Definition ProjectionError_display (show_uuid : Uuid -> string) (e : ProjectionError) : string :=
  match e with
  | PIndeterminate s => "projection outcome indeterminate: " +:+ Boxed_display show_uuid s
  | PCorruptData s => "projection corrupt data: " +:+ Boxed_display show_uuid s
  | PInfrastructure s => "projection infrastructure error: " +:+ Boxed_display show_uuid s
  | PStoreLocked => "projection store directory is locked by another writer (CHE-0043)"
  | PCheckpointRegression existing attempted =>
      "checkpoint sequence regression: attempted " +:+ show_Z attempted
        +:+ " is lower than existing " +:+ show_Z existing +:+ " (CHE-0097)"
  end.

Record ProjectionCheckpoint := mkCheckpoint {
  cp_aggregate_id : AggregateId;
  cp_projection_name : string;
  cp_last_sequence : Z;
}.

(** ** The driver and the write cell *)

Module Driver.
Section Driver.
Context {Ev P : Type} (init : P) (apply : P -> EventEnvelope Ev -> P) (St : EventStore Ev).

Definition load_error (e : StoreError) : ProjectionError :=
  match e with
  | Indeterminate _ => PIndeterminate (BoxStore e)
  | _ => PInfrastructure (BoxStore e)
  end.

(** [replay_inner]: load, validate, fold. *)
Definition replay_inner (s : es_state St) (aggregate_id : AggregateId)
    : es_state St * result (P * option Z) ProjectionError :=
  let '(s, r) := es_load St s aggregate_id in
  (s, let? stream := map_err load_error r in
      let? _ := map_err (fun e => PCorruptData (BoxEnvelope e)) (validate_stream aggregate_id stream) in
      Ok (fold_left apply stream init, sequence <$> last stream)).

Definition replay (s : es_state St) (aggregate_id : AggregateId)
    : es_state St * result P ProjectionError :=
  let '(s, r) := replay_inner s aggregate_id in (s, map_ok fst r).

(** [ProjectionDriverExt]. *)
Definition apply_one (projection : P) (envelope : EventEnvelope Ev) : P := apply projection envelope.
Definition replay_all := replay.

(** [WriteCell]: the value behind the mutex; each operation holds the lock. *)
Record WriteCell := mkCell { inner : P }.
Definition WriteCell_new : WriteCell := mkCell init.
Definition WriteCell_apply (c : WriteCell) (envelope : EventEnvelope Ev) : WriteCell :=
  mkCell (apply (inner c) envelope).
Definition WriteCell_replace (c : WriteCell) (projection : P) : WriteCell := mkCell projection.
Definition WriteCell_snapshot (c : WriteCell) : P := inner c.

(** ** A live projection

    A process that keeps a cell for aggregate [id] up to date: it applies the
    envelopes of every write that returned them, and swaps in a replay.  [stale]
    records that some write to the store ended with an unknown outcome since the
    last swap. *)
Record Live := mkLive {
  live_store : es_state St;
  cell : WriteCell;
  stale : bool;
}.

Definition observe (id id' : AggregateId) (envs : list (EventEnvelope Ev)) (c : WriteCell) : WriteCell :=
  if bool_decide (id' = id) then fold_left WriteCell_apply envs c else c.

Definition live_create (id : AggregateId) (l : Live) (events : list Ev) (ctx : CorrelationContext) : Live :=
  let '(s, r) := es_create St (live_store l) events ctx in
  match r with
  | Ok (id', envs) => mkLive s (observe id id' envs (cell l)) (stale l)
  | Err e => mkLive s (cell l) (stale l || bool_decide (StoreError_category e = ReconciliationRequired))
  end.

Definition live_append (id : AggregateId) (l : Live) (id' : AggregateId) (expected : Z)
    (events : list Ev) (ctx : CorrelationContext) : Live :=
  let '(s, r) := es_append St (live_store l) id' expected events ctx in
  match r with
  | Ok envs => mkLive s (observe id id' envs (cell l)) (stale l)
  | Err e => mkLive s (cell l) (stale l || bool_decide (StoreError_category e = ReconciliationRequired))
  end.

Definition live_resync (id : AggregateId) (l : Live) : Live :=
  let '(s, r) := replay (live_store l) id in
  match r with
  | Ok p => mkLive s (WriteCell_replace (cell l) p) false
  | Err _ => mkLive s (cell l) (stale l)
  end.

Inductive live_step (id : AggregateId) (l : Live) : Live -> Prop :=
| live_do_create events ctx : live_step id l (live_create id l events ctx)
| live_do_append id' q events ctx : live_step id l (live_append id l id' q events ctx)
| live_do_resync : live_step id l (live_resync id l).

Context (Inv : es_state St -> Prop) (view : es_state St -> AggregateId -> list (EventEnvelope Ev))
        {laws : EventStoreLaws St Inv view}.

Definition live_inv (id : AggregateId) (l : Live) : Prop :=
  Inv (live_store l)
  /\ (stale l = false -> inner (cell l) = fold_left apply (view (live_store l) id) init).

Lemma cell_apply_all envs c : inner (fold_left WriteCell_apply envs c) = fold_left apply envs (inner c).
Proof using Type. revert c. induction envs as [|e envs IH]; intros c; simpl; [done|]. by rewrite IH. Qed.

Lemma replay_inner_spec s id s' r :
  Inv s -> replay_inner s id = (s', r) ->
  Inv s' /\ (forall j, view s' j = view s j)
  /\ (forall p q, r = Ok (p, q) ->
       p = fold_left apply (view s id) init /\ q = sequence <$> last (view s id)).
Proof using laws.
  intros HI. unfold replay_inner. destruct (es_load St s id) as [s1 r1] eqn:Hl.
  destruct (law_load _ _ _ _ HI Hl) as (HI1&Hv&Hok). intros [= <- <-]. split_and!; [done|done|].
  intros p q. destruct r1 as [stream|e]; simpl; [|done]. rewrite (Hok _ eq_refl).
  destruct (validate_stream id (view s id)) as [[]|]; simpl; [|done]. by intros [= <- <-].
Qed.

Lemma observe_other id id' envs c : id' <> id -> observe id id' envs c = c.
Proof using Type. intros H. unfold observe. by rewrite bool_decide_false. Qed.

Lemma definite_stale l e :
  stale l || bool_decide (StoreError_category e = ReconciliationRequired) = false ->
  stale l = false /\ definite e.
Proof using Type.
  intros H. apply orb_false_iff in H as [Hs Hd]. by apply bool_decide_eq_false in Hd.
Qed.

Lemma live_create_inv id l events ctx : live_inv id l -> live_inv id (live_create id l events ctx).
Proof using laws.
  intros [HI Hc]. unfold live_create.
  destruct (es_create St (live_store l) events ctx) as [s r] eqn:Hr.
  destruct (law_create _ _ _ _ _ HI Hr) as [HI' Hcase]. split; destruct r as [[id' envs]|e]; simpl; try done.
  - destruct Hcase as (_&Hnil&Hid&Ho&_). intros Hs. specialize (Hc Hs).
    destruct (decide (id' = id)) as [->|Hne].
    + unfold observe. rewrite bool_decide_true by done.
      by rewrite cell_apply_all, Hc, Hnil, Hid.
    + rewrite observe_other, Ho by done. done.
  - intros Hs. apply definite_stale in Hs as [Hs Hd]. rewrite (Hc Hs).
    destruct (create_err_views _ _ _ _ _ _ _ _ HI Hr) as (_&_&Hv). by rewrite Hv.
Qed.

Lemma live_append_inv id l id' q events ctx :
  live_inv id l -> live_inv id (live_append id l id' q events ctx).
Proof using laws.
  intros [HI Hc]. unfold live_append.
  destruct (es_append St (live_store l) id' q events ctx) as [s r] eqn:Hr.
  destruct (law_append _ _ _ _ _ _ _ HI Hr) as [HI' Hcase]. split; destruct r as [envs|e]; simpl; try done.
  - destruct Hcase as (Ho&Hid&_&_). intros Hs. specialize (Hc Hs).
    destruct (decide (id' = id)) as [->|Hne].
    + unfold observe. rewrite bool_decide_true by done.
      by rewrite cell_apply_all, Hc, Hid, fold_left_app.
    + rewrite observe_other, Ho by done. done.
  - intros Hs. apply definite_stale in Hs as [Hs Hd]. rewrite (Hc Hs).
    destruct (append_err_views _ _ _ _ _ _ _ _ _ _ HI Hr) as (_&_&Hv). by rewrite Hv.
Qed.

Lemma live_resync_inv id l : live_inv id l -> live_inv id (live_resync id l).
Proof using laws.
  intros [HI Hc]. unfold live_resync, replay.
  destruct (replay_inner (live_store l) id) as [s r] eqn:Hr.
  destruct (replay_inner_spec _ _ _ _ HI Hr) as (HI'&Hv&Hok).
  destruct r as [[p q]|e]; simpl; split; simpl; try done.
  - intros _. rewrite Hv. by apply (Hok p q).
  - intros Hs. rewrite Hv. by apply Hc.
Qed.

Lemma live_step_inv id l l' : live_inv id l -> live_step id l l' -> live_inv id l'.
Proof using laws.
  intros HI []; [by apply live_create_inv|by apply live_append_inv|by apply live_resync_inv].
Qed.

(** C21: Live and replayed projections agree.  In every run of writes,
    successful or failing, and resynchronisations, a cell that is not stale (no
    write ended with an unknown outcome since the last swap) holds exactly the
    projection that a replay of the aggregate returns, and the sequence the
    replay reports is the length of the history it folded. *)
Theorem live_matches_replay id s0 l s p q :
  Inv s0 -> view s0 id = [] ->
  rtc (live_step id) (mkLive s0 WriteCell_new false) l ->
  replay_inner (live_store l) id = (s, Ok (p, q)) ->
  p = fold_left apply (view (live_store l) id) init
  /\ default 0 q = Z.of_nat (length (view (live_store l) id))
  /\ (stale l = false -> WriteCell_snapshot (cell l) = p).
Proof using laws.
  intros HI Hnil Hrun Hrep.
  destruct (rtc_invariant (live_step id) (live_inv id) (live_step_inv id) _ _ Hrun) as [HIl Hc].
  { split; [done|]. simpl. by rewrite Hnil. }
  destruct (replay_inner_spec _ _ _ _ HIl Hrep) as (_&_&Hok).
  destruct (Hok p q eq_refl) as [-> ->]. split_and!; try done.
  pose proof (law_valid _ id HIl) as Hv.
  destruct (last (view (live_store l) id)) as [e|] eqn:Hl; simpl.
  - by apply (valid_stream_last id).
  - by rewrite (proj1 (last_None _) Hl).
Qed.
End Driver.
End Driver.

(** ** [PardosaProjectionStore] *)

Module ProjectionStore.

(** [PardosaProjectionRecord]. *)
Inductive PardosaProjectionRecord :=
| Tombstone (aggregate_id : Z) (projection_name : string) (kind : Z)
| Snapshot (aggregate_id : Z) (projection_name : string) (bytes : Bytes)
| Checkpoint (aggregate_id : Z) (projection_name : string) (last_sequence : Z).

Definition KIND_SNAPSHOT : Z := 0.
Definition KIND_CHECKPOINT : Z := 1.

Definition snapshot_key (aggregate_id : AggregateId) (projection_name : string) : string :=
  show_Z (AggregateId_get aggregate_id) +:+ ":" +:+ projection_name +:+ ":snapshot".
Definition checkpoint_key (aggregate_id : AggregateId) (projection_name : string) : string :=
  show_Z (AggregateId_get aggregate_id) +:+ ":" +:+ projection_name +:+ ":checkpoint".

Inductive WriteDiagnostic :=
| WdUndetermined (carried_epoch : Z)
| WdRetainedUncertainty (carried_epoch : Z) (diagnostic : string)
| WdSnapshotLanded (source : Boxed)
| WdCheckpointLanded (source : Boxed)
| WdCheckpointRemoved (source : Boxed)
| WdSnapshotRemoved (source : Boxed).

(** The codecs: serde on the projection, pardosa's on the records, and the
    bounded byte value of a snapshot. *)
Record Codecs (P : Type) := mkCodecs {
  to_vec : P -> result Bytes Boxed;
  from_slice : Bytes -> result P Boxed;
  snapshot_bytes_new : Bytes -> result Bytes Boxed;
  encode_payload : PardosaProjectionRecord -> result Bytes Boxed;
  decode_payload : Bytes -> result PardosaProjectionRecord Boxed;
}.
Arguments to_vec {P}. Arguments from_slice {P}. Arguments snapshot_bytes_new {P}.
Arguments encode_payload {P}. Arguments decode_payload {P}. Arguments mkCodecs {P}.

Class CodecsLaws {P} (K : Codecs P) : Prop := {
  codecs_serde p b : to_vec K p = Ok b -> from_slice K b = Ok p;
  codecs_bytes b b' : snapshot_bytes_new K b = Ok b' -> b' = b;
  codecs_record r b : encode_payload K r = Ok b -> decode_payload K b = Ok r;
}.

Section Store.
Context {P : Type} (show_uuid : Uuid -> string) (F : FileWriterSession) (K : Codecs P).
Context (derive_fiber_id : string -> FiberId) (projection_name : string).

Definition WriteDiagnostic_display (d : WriteDiagnostic) : string :=
  match d with
  | WdUndetermined epoch => "write landing undetermined at epoch " +:+ show_Z epoch
  | WdRetainedUncertainty epoch diagnostic =>
      "session uncertain at epoch " +:+ show_Z epoch +:+ ": " +:+ diagnostic
  | WdSnapshotLanded s => "snapshot landed before failure: " +:+ Boxed_display show_uuid s
  | WdCheckpointLanded s => "checkpoint landed before failure: " +:+ Boxed_display show_uuid s
  | WdCheckpointRemoved s => "checkpoint removal landed before failure: " +:+ Boxed_display show_uuid s
  | WdSnapshotRemoved s => "snapshot removal landed before failure: " +:+ Boxed_display show_uuid s
  end.

Definition indeterminate (d : WriteDiagnostic) : ProjectionError :=
  PIndeterminate (BoxMsg (WriteDiagnostic_display d)).
(** [Box::new(error)] of a projection error. *)
Definition box_error (e : ProjectionError) : Boxed := BoxMsg (ProjectionError_display show_uuid e).

(** [session.(...).map_err(to_infra)?] followed by [require_landed]. *)
Definition require_landed (r : result WriteLandingVerdict Boxed) : result unit ProjectionError :=
  match r with
  | Ok Landed => Ok tt
  | Ok (Undetermined epoch) => Err (indeterminate (WdUndetermined epoch))
  | Err e => Err (PInfrastructure e)
  end.

Record Store := mkStore { session : fs_state F; world : World }.

Definition with_session (s : Store) (fs : fs_state F) : Store := mkStore fs (world s).

Definition snap_fid (id : AggregateId) : FiberId := derive_fiber_id (snapshot_key id projection_name).
Definition check_fid (id : AggregateId) : FiberId := derive_fiber_id (checkpoint_key id projection_name).

Definition ready_session (s : Store) : result unit ProjectionError :=
  match uncertain_diagnostic F (session s) with
  | Some diagnostic =>
      Err (indeterminate (WdRetainedUncertainty (carried_epoch F (session s)) diagnostic))
  | None => Ok tt
  end.

Definition encode_snapshot (projection : P) : result Bytes ProjectionError :=
  let? json := map_err PInfrastructure (to_vec K projection) in
  map_err PInfrastructure (snapshot_bytes_new K json).

Definition decode_snapshot (bytes : Bytes) : result P ProjectionError :=
  map_err PCorruptData (from_slice K bytes).

(** The latest record of an active fiber. *)
Definition load_record (s : Store) (f : FiberId) : result (option PardosaProjectionRecord) ProjectionError :=
  let? handle := map_err PInfrastructure (fiber F (session s) f) in
  if negb (is_active handle) then Ok None
  else
    let? env := map_err PInfrastructure (get_latest F (session s) f) in
    match env with
    | None => Ok None
    | Some env => let? record := map_err PInfrastructure (decode_payload K (block_payload env)) in
                  Ok (Some record)
    end.

Definition load_snapshot (s : Store) (id : AggregateId) : result (option P) ProjectionError :=
  let? _ := ready_session s in
  let? record := load_record s (snap_fid id) in
  match record with
  | Some (Snapshot _ _ bytes) => map_ok Some (decode_snapshot bytes)
  | _ => Ok None
  end.

Definition load_checkpoint_from_session (s : Store) (id : AggregateId)
    : result (option ProjectionCheckpoint) ProjectionError :=
  let? record := load_record s (check_fid id) in
  match record with
  | Some (Checkpoint found_aggregate_id name last_sequence) =>
      let? last_sequence := ok_or (NonZeroU64_new last_sequence)
        (PCorruptData (BoxMsg "checkpoint sequence must be non-zero")) in
      let? found_aggregate_id := ok_or (NonZeroU64_new found_aggregate_id)
        (PCorruptData (BoxMsg "checkpoint aggregate id must be non-zero")) in
      let checkpoint := mkCheckpoint (AggregateId_new found_aggregate_id) name last_sequence in
      if negb (bool_decide (cp_aggregate_id checkpoint = id))
         || negb (bool_decide (cp_projection_name checkpoint = projection_name))
      then Err (PCorruptData (BoxMsg "checkpoint identity mismatch"))
      else Ok (Some checkpoint)
  | _ => Ok None
  end.

Definition load_checkpoint (s : Store) (id : AggregateId)
    : result (option ProjectionCheckpoint) ProjectionError :=
  let? _ := ready_session s in load_checkpoint_from_session s id.

Definition draw (s : Store) : Store * Uuid :=
  let '(w, u) := now_v7 (world s) in (mkStore (session s) w, u).

(** A write through the session: [fiber], then [rescue_fiber] or
    [append_to_fiber]. *)
Definition write (s : Store) (f : FiberId) (u : Uuid) (payload : Bytes)
    : Store * result unit ProjectionError :=
  let '(fs, r) := write_fiber F (session s) f u payload in
  (with_session s fs, require_landed r).

Definition do_sync (s : Store) : Store * result unit Boxed :=
  let '(fs, r) := sync F (session s) in (with_session s fs, r).

(** The writes of [persist]: snapshot, checkpoint, synchronisation. *)
Definition persist_writes (s : Store) (id : AggregateId) (event_id_1 event_id_2 : Uuid)
    (snapshot_payload checkpoint_payload : Bytes) : Store * result unit ProjectionError :=
  let '(s, r) := write s (snap_fid id) event_id_1 snapshot_payload in
  match r with
  | Err e => (s, Err e)
  | Ok _ =>
      let '(s, r) := write s (check_fid id) event_id_2 checkpoint_payload in
      match r with
      | Err e => (s, Err (indeterminate (WdSnapshotLanded (box_error e))))
      | Ok _ =>
          let '(s, r) := do_sync s in
          (s, map_err (fun e => indeterminate (WdCheckpointLanded e)) r)
      end
  end.

(** The part of [persist] that runs with the session locked. *)
Definition persist_locked (s : Store) (id : AggregateId) (last_sequence : Z)
    (event_id_1 event_id_2 : Uuid) (snapshot_payload checkpoint_payload : Bytes)
    : Store * result unit ProjectionError :=
  match ready_session s with
  | Err e => (s, Err e)
  | Ok _ =>
      match load_checkpoint_from_session s id with
      | Err e => (s, Err e)
      | Ok existing =>
          let regression :=
            match existing with
            | Some existing => last_sequence <? cp_last_sequence existing
            | None => false
            end in
          if regression
          then (s, Err (PCheckpointRegression (from_option cp_last_sequence 0 existing) last_sequence))
          else persist_writes s id event_id_1 event_id_2 snapshot_payload checkpoint_payload
      end
  end.

Definition persist (s : Store) (id : AggregateId) (projection : P) (last_sequence : Z)
    : Store * result unit ProjectionError :=
  let encoded :=
    let? _ := ready_session s in
    let? bytes := encode_snapshot projection in
    map_err PInfrastructure
      (encode_payload K (Snapshot (AggregateId_get id) projection_name bytes)) in
  match encoded with
  | Err e => (s, Err e)
  | Ok snapshot_payload =>
      let '(s, event_id_1) := draw s in
      match encode_payload K (Checkpoint (AggregateId_get id) projection_name last_sequence) with
      | Err e => (s, Err (PInfrastructure e))
      | Ok checkpoint_payload =>
          let '(s, event_id_2) := draw s in
          persist_locked s id last_sequence event_id_1 event_id_2 snapshot_payload checkpoint_payload
      end
  end.

(** A tombstone on fiber [f], when its handle is active. *)
Definition detach (s : Store) (f : FiberId) (record : PardosaProjectionRecord)
    : Store * result unit ProjectionError :=
  match encode_payload K record with
  | Err e => (s, Err (PInfrastructure e))
  | Ok payload =>
      let '(s, event_id) := draw s in
      let '(fs, r) := detach_fiber F (session s) f event_id payload in
      (with_session s fs, require_landed r)
  end.

(** The closure of [delete] over the snapshot and the synchronisation. *)
Definition delete_snapshot (s : Store) (id : AggregateId) : Store * result unit ProjectionError :=
  match fiber F (session s) (snap_fid id) with
  | Err e => (s, Err (PInfrastructure e))
  | Ok snap_handle =>
      let '(s, r) :=
        if is_active snap_handle
        then detach s (snap_fid id) (Tombstone (AggregateId_get id) projection_name KIND_SNAPSHOT)
        else (s, Ok tt) in
      match r with
      | Err e => (s, Err e)
      | Ok _ =>
          let '(s, r) := do_sync s in
          (s, map_err (fun e => if is_active snap_handle then indeterminate (WdSnapshotRemoved e)
                                else PInfrastructure e) r)
      end
  end.

Definition delete (s : Store) (id : AggregateId) : Store * result unit ProjectionError :=
  match ready_session s with
  | Err e => (s, Err e)
  | Ok _ =>
      match fiber F (session s) (check_fid id) with
      | Err e => (s, Err (PInfrastructure e))
      | Ok check_handle =>
          let '(s, r) :=
            if is_active check_handle
            then detach s (check_fid id) (Tombstone (AggregateId_get id) projection_name KIND_CHECKPOINT)
            else (s, Ok tt) in
          match r with
          | Err e => (s, Err e)
          | Ok _ =>
              let '(s, r) := delete_snapshot s id in
              (s, map_err (fun e => if is_active check_handle
                                    then indeterminate (WdCheckpointRemoved (box_error e)) else e) r)
          end
      end
  end.

(** *** The contents of the store *)

Context (log : fs_state F -> list Block) {session_laws : SessionLaws F log} {codecs_laws : CodecsLaws K}.
(** Fiber identifiers do not collide on the keys of one projection. *)
Context (fiber_injective : forall k k', derive_fiber_id k = derive_fiber_id k' -> k = k').
Implicit Types (s : Store) (id j : AggregateId) (b : Block).

Definition active_record (f : FiberId) (l : list Block) : option PardosaProjectionRecord :=
  match latest f l with
  | None => None
  | Some b => if detached b then None
              else match decode_payload K (block_payload b) with Ok r => Some r | Err _ => None end
  end.

Definition snapshot_of s id : option P :=
  match active_record (snap_fid id) (log (session s)) with
  | Some (Snapshot _ _ bytes) => match from_slice K bytes with Ok p => Some p | Err _ => None end
  | _ => None
  end.

Definition checkpoint_of s id : option Z :=
  match active_record (check_fid id) (log (session s)) with
  | Some (Checkpoint _ _ q) => Some q
  | _ => None
  end.

(** Every live record is one the store wrote for its key, and a checkpoint has
    a snapshot next to it. *)
Record Inv s : Prop := {
  iv_snap id b : latest (snap_fid id) (log (session s)) = Some b -> detached b = false ->
    exists bytes p, decode_payload K (block_payload b)
                      = Ok (Snapshot (AggregateId_get id) projection_name bytes)
                    /\ from_slice K bytes = Ok p;
  iv_check id b : latest (check_fid id) (log (session s)) = Some b -> detached b = false ->
    exists q, decode_payload K (block_payload b)
                = Ok (Checkpoint (AggregateId_get id) projection_name q) /\ q <> 0;
  iv_pair id : is_Some (checkpoint_of s id) -> is_Some (snapshot_of s id);
}.

Lemma snap_fid_inj id j : snap_fid id = snap_fid j -> id = j.
Proof using fiber_injective.
  intros H. apply fiber_injective in H. unfold snapshot_key in H.
  apply string_app_inv in H as [H _]; [|done]. apply (inj pretty) in H.
  destruct id, j. by simplify_eq/=.
Qed.

Lemma check_fid_inj id j : check_fid id = check_fid j -> id = j.
Proof using fiber_injective.
  intros H. apply fiber_injective in H. unfold checkpoint_key in H.
  apply string_app_inv in H as [H _]; [|done]. apply (inj pretty) in H.
  destruct id, j. by simplify_eq/=.
Qed.

Lemma snap_check_fid id j : snap_fid id <> check_fid j.
Proof using fiber_injective.
  intros H. apply fiber_injective in H. unfold snapshot_key, checkpoint_key in H.
  set (x := show_Z (AggregateId_get id)) in H. set (y := show_Z (AggregateId_get j)) in H.
  change ":snapshot" with (":snapsh" +:+ "ot") in H.
  change ":checkpoint" with (":checkpoi" +:+ "nt") in H.
  rewrite !string_assoc in H. apply string_app_inv in H as [_ H]; done.
Qed.

Lemma active_snoc f l b :
  active_record f (l ++ [b]) =
  if decide (block_fiber b = f) then
    if detached b then None
    else match decode_payload K (block_payload b) with Ok r => Some r | Err _ => None end
  else active_record f l.
Proof using Type. unfold active_record. rewrite latest_snoc. by destruct (decide _). Qed.

Lemma snapshot_snoc s s' id k payload u dt :
  log (session s') = log (session s) ++ [mkBlock (snap_fid id) dt u payload] ->
  checkpoint_of s' k = checkpoint_of s k /\ (k <> id -> snapshot_of s' k = snapshot_of s k).
Proof using fiber_injective.
  intros Hl. unfold checkpoint_of, snapshot_of. rewrite Hl, !active_snoc. simpl. split.
  - by rewrite decide_False by (intros H; by eapply snap_check_fid).
  - intros Hk. by rewrite decide_False by (intros H; by apply snap_fid_inj in H).
Qed.

Lemma checkpoint_snoc s s' id k payload u dt :
  log (session s') = log (session s) ++ [mkBlock (check_fid id) dt u payload] ->
  snapshot_of s' k = snapshot_of s k /\ (k <> id -> checkpoint_of s' k = checkpoint_of s k).
Proof using fiber_injective.
  intros Hl. unfold checkpoint_of, snapshot_of. rewrite Hl, !active_snoc. simpl. split.
  - by rewrite decide_False by (intros H; symmetry in H; by eapply snap_check_fid).
  - intros Hk. by rewrite decide_False by (intros H; by apply check_fid_inj in H).
Qed.

(** [s'] is a store in which aggregate [id] has snapshot [sn] and checkpoint
    [ck], and every other aggregate has what it had in [s]. *)
Record contents s s' id (sn : option P) (ck : option Z) : Prop := {
  ct_inv : Inv s';
  ct_snap : snapshot_of s' id = sn;
  ct_check : checkpoint_of s' id = ck;
  ct_other j : j <> id -> snapshot_of s' j = snapshot_of s j /\ checkpoint_of s' j = checkpoint_of s j;
}.

Lemma contents_same s s' id :
  log (session s') = log (session s) -> Inv s -> contents s s' id (snapshot_of s id) (checkpoint_of s id).
Proof using Type.
  intros Hl [Hs Hc Hp].
  assert (Hsame : forall k, snapshot_of s' k = snapshot_of s k /\ checkpoint_of s' k = checkpoint_of s k).
  { intros k. unfold snapshot_of, checkpoint_of. by rewrite Hl. }
  split; try apply Hsame; [|intros; apply Hsame].
  split; [by rewrite Hl|by rewrite Hl|]. intros k. destruct (Hsame k) as [-> ->]. apply Hp.
Qed.

Lemma contents_trans s s1 s2 id sn ck sn' ck' :
  contents s s1 id sn ck -> contents s1 s2 id sn' ck' -> contents s s2 id sn' ck'.
Proof using Type.
  intros [_ _ _ Ho1] [HI Hs Hc Ho2]. split; try done. intros j Hj.
  destruct (Ho1 j Hj), (Ho2 j Hj). split; congruence.
Qed.

(** A block on the snapshot fiber, live or a tombstone. *)
Lemma contents_snapshot s s' id u payload dt sn :
  Inv s -> log (session s') = log (session s) ++ [mkBlock (snap_fid id) dt u payload] ->
  (if dt then sn = None /\ checkpoint_of s id = None
   else exists bytes p, sn = Some p /\ from_slice K bytes = Ok p
        /\ decode_payload K payload = Ok (Snapshot (AggregateId_get id) projection_name bytes)) ->
  contents s s' id sn (checkpoint_of s id).
Proof using fiber_injective.
  intros [Hs Hc Hp] Hl Hrec.
  assert (Hsn : snapshot_of s' id = sn).
  { unfold snapshot_of. rewrite Hl, active_snoc, decide_True by done. simpl.
    destruct dt; [by destruct Hrec|]. destruct Hrec as (bytes&p&->&Hp'&->). by rewrite Hp'. }
  split; [|done|by eapply snapshot_snoc|].
  2:{ intros k Hk. destruct (snapshot_snoc _ _ _ k _ _ _ Hl). auto. }
  split.
  - intros k x. rewrite Hl, latest_snoc. simpl. destruct (decide (snap_fid id = snap_fid k)) as [Heq|_].
    + apply snap_fid_inj in Heq as <-. intros [= <-]. simpl. intros ->.
      destruct Hrec as (bytes&p&_&?&?). by exists bytes, p.
    + apply Hs.
  - intros k x. rewrite Hl, latest_snoc. simpl.
    rewrite decide_False by (intros H; by eapply snap_check_fid). apply Hc.
  - intros k. destruct (snapshot_snoc _ _ _ k _ _ _ Hl) as [-> Hk].
    destruct (decide (k = id)) as [->|Hne]; [|rewrite Hk by done; apply Hp].
    rewrite Hsn. destruct dt; destruct Hrec as [? Hrec]; [rewrite Hrec; by intros []|].
    destruct Hrec as (p&->&_). by eexists.
Qed.

(** A block on the checkpoint fiber; a live one needs its snapshot. *)
Lemma contents_checkpoint s s' id u payload dt ck :
  Inv s -> log (session s') = log (session s) ++ [mkBlock (check_fid id) dt u payload] ->
  (if dt then ck = None
   else exists q, ck = Some q /\ q <> 0 /\ is_Some (snapshot_of s id)
        /\ decode_payload K payload = Ok (Checkpoint (AggregateId_get id) projection_name q)) ->
  contents s s' id (snapshot_of s id) ck.
Proof using fiber_injective.
  intros [Hs Hc Hp] Hl Hrec.
  assert (Hck : checkpoint_of s' id = ck).
  { unfold checkpoint_of. rewrite Hl, active_snoc, decide_True by done. simpl.
    destruct dt; [done|]. by destruct Hrec as (q&->&_&_&->). }
  split; [|by eapply checkpoint_snoc|done|].
  2:{ intros k Hk. destruct (checkpoint_snoc _ _ _ k _ _ _ Hl). auto. }
  split.
  - intros k x. rewrite Hl, latest_snoc. simpl.
    rewrite decide_False by (intros H; symmetry in H; by eapply snap_check_fid). apply Hs.
  - intros k x. rewrite Hl, latest_snoc. simpl. destruct (decide (check_fid id = check_fid k)) as [Heq|_].
    + apply check_fid_inj in Heq as <-. intros [= <-]. simpl. intros ->.
      destruct Hrec as (q&_&?&_&?). by exists q.
    + apply Hc.
  - intros k. destruct (checkpoint_snoc _ _ _ k _ _ _ Hl) as [-> Hk].
    destruct (decide (k = id)) as [->|Hne]; [|rewrite Hk by done; apply Hp].
    rewrite Hck. destruct dt; [subst; by intros []|]. by destruct Hrec as (q&_&_&?&_).
Qed.

(** *** Reading *)

Lemma load_record_ok s f o : load_record s f = Ok o -> o = active_record f (log (session s)).
Proof using session_laws.
  unfold load_record, active_record. destruct (fiber F (session s) f) as [h|] eqn:Hh; simpl; [|done].
  apply law_fiber in Hh as ->. unfold handle_in.
  destruct (get_latest F (session s) f) as [g|] eqn:Hg; simpl.
  - apply law_get_latest in Hg as ->. destruct (latest f _) as [b|]; simpl; [|by intros [= <-]].
    destruct (detached b); simpl; [by intros [= <-]|].
    destruct (decode_payload K _); simpl; [by intros [= <-]|done].
  - destruct (latest f _) as [b|]; simpl; [|by intros [= <-]].
    destruct (detached b); simpl; [by intros [= <-]|done].
Qed.

Lemma load_checkpoint_ok s id o :
  Inv s -> load_checkpoint_from_session s id = Ok o ->
  o = mkCheckpoint id projection_name <$> checkpoint_of s id.
Proof using session_laws.
  intros HI. unfold load_checkpoint_from_session, checkpoint_of.
  destruct (load_record s (check_fid id)) as [rec|] eqn:Hr; simpl; [|done].
  apply load_record_ok in Hr. rewrite <- Hr. destruct rec as [[| |found name q]|]; try by intros [= <-].
  assert (found = AggregateId_get id /\ name = projection_name) as [-> ->].
  { unfold active_record in Hr. destruct (latest _ _) as [b|] eqn:Hb; [|done].
    destruct (detached b) eqn:Hd; [done|]. destruct (iv_check _ HI _ _ Hb Hd) as (q'&Hq&_).
    rewrite Hq in Hr. by injection Hr. }
  destruct (NonZeroU64_new q) as [q1|] eqn:Hq; simpl; [|done].
  apply NonZeroU64_new_Some in Hq as [<- _].
  destruct (NonZeroU64_new (AggregateId_get id)) as [a|] eqn:Ha; simpl; [|done].
  apply NonZeroU64_new_Some in Ha as [<- _].
  destruct id as [id]; simpl. rewrite !bool_decide_true by done. simpl. by intros [= <-].
Qed.

Lemma load_snapshot_ok s id o : Inv s -> load_snapshot s id = Ok o -> o = snapshot_of s id.
Proof using session_laws.
  intros HI. unfold load_snapshot, snapshot_of. destruct (ready_session s); simpl; [|done].
  destruct (load_record s (snap_fid id)) as [rec|] eqn:Hr; simpl; [|done].
  apply load_record_ok in Hr. rewrite <- Hr. destruct rec as [[|? ? bytes|]|]; try by intros [= <-].
  unfold decode_snapshot. destruct (from_slice K bytes); simpl; [by intros [= <-]|done].
Qed.

(** *** Writing *)

Definition not_regression (e : ProjectionError) : Prop :=
  match e with PCheckpointRegression _ _ => False | _ => True end.

(** A write that added block [b], or one that left the log alone and failed. *)
Definition attempted s s' (r : result unit ProjectionError) (b : Block) : Prop :=
  (log (session s') = log (session s) /\ exists e, r = Err e /\ not_regression e)
  \/ (log (session s') = log (session s) ++ [b]
      /\ (r = Ok tt \/ exists x, r = Err (PIndeterminate x))).

Lemma wrote_attempted s s' b v :
  wrote F log b (session s) (session s') v -> attempted s s' (require_landed v) b.
Proof using Type.
  destruct v as [[|ep]|e]; simpl.
  - intros H. right. split; [done|by left].
  - intros [[H|H] _]; [left|right]; (split; [done|]); [by eexists|right; by eexists].
  - intros H. left. split; [done|by eexists].
Qed.

Lemma write_attempted s f u payload s' r :
  write s f u payload = (s', r) -> attempted s s' r (mkBlock f false u payload).
Proof using session_laws.
  unfold write. destruct (write_fiber F _ f u payload) as [fs v] eqn:Hw. intros [= <- <-].
  apply wrote_attempted. by apply write_fiber_wrote.
Qed.

Lemma detach_attempted s f record s' r :
  detach s f record = (s', r) ->
  (log (session s') = log (session s) /\ exists e, r = Err e /\ not_regression e)
  \/ exists u payload, attempted s s' r (mkBlock f true u payload).
Proof using session_laws.
  unfold detach. destruct (encode_payload K record) as [payload|e].
  2:{ intros [= <- <-]. left. split; [done|by eexists]. }
  unfold draw, now_v7. simpl.
  destruct (detach_fiber F (session s) f _ payload) as [fs v] eqn:Hw. intros [= <- <-].
  right. do 2 eexists. apply law_detach_fiber in Hw. by apply wrote_attempted.
Qed.

Lemma do_sync_log s s' r : do_sync s = (s', r) -> log (session s') = log (session s).
Proof using session_laws.
  unfold do_sync. destruct (sync F (session s)) as [fs v] eqn:Hs. intros [= <- <-].
  by apply law_sync in Hs as [Hs _].
Qed.

(** What a call of [persist] with projection [p] and sequence [q] did. *)
Definition persisted s s' id (p : P) (q : Z) (r : result unit ProjectionError) : Prop :=
  match r with
  | Ok _ => contents s s' id (Some p) (Some q)
            /\ (forall c, checkpoint_of s id = Some c -> c <= q)
  | Err (PCheckpointRegression existing attempted) =>
      checkpoint_of s id = Some existing /\ attempted = q /\ q < existing
      /\ contents s s' id (snapshot_of s id) (checkpoint_of s id)
  | Err (PIndeterminate _) =>
      contents s s' id (snapshot_of s id) (checkpoint_of s id)
      \/ ((contents s s' id (Some p) (checkpoint_of s id) \/ contents s s' id (Some p) (Some q))
          /\ (forall c, checkpoint_of s id = Some c -> c <= q))
  | Err _ => contents s s' id (snapshot_of s id) (checkpoint_of s id)
  end.

Lemma persisted_failed s s' id p q e :
  Inv s -> log (session s') = log (session s) -> not_regression e -> persisted s s' id p q (Err e).
Proof using Type.
  intros HI Hl He. pose proof (contents_same _ _ id Hl HI) as Hc.
  destruct e; simpl; try done. by left.
Qed.

Lemma ready_not_regression s e : ready_session s = Err e -> not_regression e.
Proof using Type. unfold ready_session. destruct (uncertain_diagnostic _ _); by intros [= <-]. Qed.

Lemma load_record_not_regression s f e : load_record s f = Err e -> not_regression e.
Proof using Type.
  unfold load_record. destruct (fiber _ _ _) as [h|]; simpl; [|by intros [= <-]].
  destruct (negb _); [done|]. destruct (get_latest _ _ _) as [[b|]|]; simpl; try done; [|by intros [= <-]].
  destruct (decode_payload _ _); simpl; [done|by intros [= <-]].
Qed.

Lemma load_checkpoint_not_regression s id e :
  load_checkpoint_from_session s id = Err e -> not_regression e.
Proof using Type.
  unfold load_checkpoint_from_session. destruct (load_record s _) as [rec|e'] eqn:Hr; simpl.
  - destruct rec as [[| |a n q]|]; try done.
    destruct (NonZeroU64_new q); simpl; [|by intros [= <-]].
    destruct (NonZeroU64_new a); simpl; [|by intros [= <-]].
    destruct (_ || _); [by intros [= <-]|done].
  - intros [= <-]. by eapply load_record_not_regression.
Qed.

Lemma persist_writes_spec s id p q u1 u2 bytes snapshot_payload checkpoint_payload s' r :
  Inv s -> q <> 0 -> from_slice K bytes = Ok p ->
  decode_payload K snapshot_payload = Ok (Snapshot (AggregateId_get id) projection_name bytes) ->
  decode_payload K checkpoint_payload = Ok (Checkpoint (AggregateId_get id) projection_name q) ->
  (forall c, checkpoint_of s id = Some c -> c <= q) ->
  persist_writes s id u1 u2 snapshot_payload checkpoint_payload = (s', r) ->
  persisted s s' id p q r.
Proof using session_laws fiber_injective.
  intros HI Hq Hp Hsp Hcp Hmono. unfold persist_writes.
  destruct (write s (snap_fid id) u1 snapshot_payload) as [s1 r1] eqn:Hw1.
  apply write_attempted in Hw1 as [(Hl1&e&->&He)|[Hl1 Hr1]].
  { intros [= <- <-]. by apply persisted_failed. }
  assert (Hc1 : contents s s1 id (Some p) (checkpoint_of s id)).
  { eapply contents_snapshot; [done|done|]. by exists bytes, p. }
  pose proof Hc1 as [HI1 Hs1 Hk1 _].
  destruct Hr1 as [->|[x ->]].
  2:{ intros [= <- <-]. right. split; [by left|done]. }
  destruct (write s1 (check_fid id) u2 checkpoint_payload) as [s2 r2] eqn:Hw2.
  apply write_attempted in Hw2 as [(Hl2&e&->&He)|[Hl2 Hr2]].
  { intros [= <- <-]. right. split; [left|done].
    eapply contents_trans; [done|]. rewrite <- Hs1, <- Hk1. by apply contents_same. }
  assert (Hc2 : contents s s2 id (Some p) (Some q)).
  { eapply contents_trans; [done|]. rewrite <- Hs1. eapply contents_checkpoint; [done|done|].
    exists q. split_and!; try done; by rewrite Hs1. }
  destruct Hr2 as [->|[x ->]].
  2:{ intros [= <- <-]. right. split; [by right|done]. }
  destruct (do_sync s2) as [s3 r3] eqn:Hsy. apply do_sync_log in Hsy. intros [= <- <-].
  pose proof Hc2 as [HI2 Hs2 Hk2 _].
  assert (Hc3 : contents s s3 id (Some p) (Some q)).
  { eapply contents_trans; [done|]. rewrite <- Hs2, <- Hk2. by apply contents_same. }
  destruct r3; simpl; [done|]. right. split; [by right|done].
Qed.

Lemma persist_locked_spec s id p q u1 u2 bytes snapshot_payload checkpoint_payload s' r :
  Inv s -> q <> 0 -> from_slice K bytes = Ok p ->
  decode_payload K snapshot_payload = Ok (Snapshot (AggregateId_get id) projection_name bytes) ->
  decode_payload K checkpoint_payload = Ok (Checkpoint (AggregateId_get id) projection_name q) ->
  persist_locked s id q u1 u2 snapshot_payload checkpoint_payload = (s', r) ->
  persisted s s' id p q r.
Proof using session_laws fiber_injective.
  intros HI Hq Hp Hsp Hcp. unfold persist_locked.
  destruct (ready_session s) as [u|e] eqn:Hrd.
  2:{ intros [= <- <-]. apply persisted_failed; try done. by eapply ready_not_regression. }
  destruct (load_checkpoint_from_session s id) as [ex|e] eqn:Hload.
  2:{ intros [= <- <-]. apply persisted_failed; try done. by eapply load_checkpoint_not_regression. }
  apply load_checkpoint_ok in Hload as ->; [|done].
  destruct (checkpoint_of s id) as [c|] eqn:Hck; simpl.
  - destruct (Z.ltb_spec q c) as [Hlt|Hge].
    + intros [= <- <-]. simpl. rewrite Hck. split_and!; try done.
    + intros H. eapply persist_writes_spec; try done. rewrite Hck. by intros ? [= <-].
  - intros H. eapply persist_writes_spec; try done. by rewrite Hck.
Qed.

(** Two stores with the same log have the same contents. *)
Lemma persisted_log s0 s s' id p q r :
  log (session s) = log (session s0) -> persisted s s' id p q r -> persisted s0 s' id p q r.
Proof using Type.
  intros Hl.
  assert (Hs : forall k, snapshot_of s k = snapshot_of s0 k) by (intros k; unfold snapshot_of; by rewrite Hl).
  assert (Hc : forall k, checkpoint_of s k = checkpoint_of s0 k) by (intros k; unfold checkpoint_of; by rewrite Hl).
  assert (Hct : forall sn ck, contents s s' id sn ck -> contents s0 s' id sn ck).
  { intros sn ck [? ? ? Ho]. split; try done. intros k Hk. rewrite <- Hs, <- Hc. by apply Ho. }
  clear show_uuid. unfold persisted. rewrite Hs, Hc. destruct r as [|[]]; naive_solver.
Qed.

Lemma persist_spec s id p q s' r :
  Inv s -> q <> 0 -> persist s id p q = (s', r) -> persisted s s' id p q r.
Proof using session_laws codecs_laws fiber_injective.
  intros HI Hq. unfold persist. destruct (ready_session s) as [u|e] eqn:Hrd; simpl.
  2:{ intros [= <- <-]. apply persisted_failed; try done. by eapply ready_not_regression. }
  unfold encode_snapshot. destruct (to_vec K p) as [json|e] eqn:Hj; simpl.
  2:{ intros [= <- <-]. by apply persisted_failed. }
  destruct (snapshot_bytes_new K json) as [bytes|e] eqn:Hb; simpl.
  2:{ intros [= <- <-]. by apply persisted_failed. }
  apply codecs_bytes in Hb as ->. apply codecs_serde in Hj.
  destruct (encode_payload K (Snapshot _ _ _)) as [sp|e] eqn:Hsp; simpl.
  2:{ intros [= <- <-]. by apply persisted_failed. }
  destruct (encode_payload K (Checkpoint _ _ _)) as [cp|e] eqn:Hcp; simpl.
  2:{ intros [= <- <-]. by apply persisted_failed. }
  apply codecs_record in Hsp, Hcp. intros H.
  eapply persist_locked_spec in H; try done.
  - eapply persisted_log; [|exact H]; done.
  - eapply (contents_same s _ id); done.
Qed.

(** What a call of [delete] did. *)
Definition deleted s s' id (r : result unit ProjectionError) : Prop :=
  match r with
  | Ok _ => contents s s' id None None
  | Err (PIndeterminate _) =>
      contents s s' id (snapshot_of s id) (checkpoint_of s id)
      \/ contents s s' id (snapshot_of s id) None \/ contents s s' id None None
  | Err _ => contents s s' id (snapshot_of s id) (checkpoint_of s id)
  end.

Lemma deleted_failed s s' id e :
  Inv s -> log (session s') = log (session s) -> deleted s s' id (Err e).
Proof using Type.
  intros HI Hl. pose proof (contents_same _ _ id Hl HI) as Hc. destruct e; simpl; try done. by left.
Qed.

(** The fibers of an aggregate that are not active hold nothing. *)
Lemma inactive_record s f h :
  fiber F (session s) f = Ok h -> is_active h = false -> active_record f (log (session s)) = None.
Proof using session_laws.
  intros Hh. apply law_fiber in Hh as ->. unfold handle_in, active_record.
  destruct (latest f _) as [b|]; simpl; [|done]. by destruct (detached b).
Qed.

Lemma delete_snapshot_spec s id s' r :
  Inv s -> checkpoint_of s id = None -> delete_snapshot s id = (s', r) ->
  match r with
  | Ok _ => contents s s' id None None
  | Err (PIndeterminate _) => contents s s' id (snapshot_of s id) None \/ contents s s' id None None
  | Err _ => contents s s' id (snapshot_of s id) None
  end.
Proof using session_laws fiber_injective.
  intros HI Hck. unfold delete_snapshot.
  assert (Hfail : forall t, log (session t) = log (session s) -> contents s t id (snapshot_of s id) None).
  { intros t Ht. rewrite <- Hck. by apply contents_same. }
  destruct (fiber F (session s) (snap_fid id)) as [h|e] eqn:Hh.
  2:{ intros [= <- <-]. by apply Hfail. }
  destruct (is_active h) eqn:Ha.
  - destruct (detach s (snap_fid id) _) as [s1 r1] eqn:Hd.
    apply detach_attempted in Hd as [(Hl&e&->&He)|(u&payload&[(Hl&e&->&He)|[Hl Hr]])].
    1-2: intros [= <- <-]; destruct e; auto.
    assert (Hc : contents s s1 id None None).
    { rewrite <- Hck. eapply contents_snapshot; done. }
    destruct Hr as [->|[x ->]]; [|intros [= <- <-]; by right].
    destruct (do_sync s1) as [s2 r2] eqn:Hsy. apply do_sync_log in Hsy. intros [= <- <-].
    pose proof Hc as [HI1 Hs1 Hk1 _].
    assert (Hc2 : contents s s2 id None None).
    { eapply contents_trans; [done|]. rewrite <- Hs1 at 1. rewrite <- Hk1. by apply contents_same. }
    destruct r2; simpl; [done|by right].
  - destruct (do_sync s) as [s2 r2] eqn:Hsy. apply do_sync_log in Hsy. intros [= <- <-].
    assert (Hn : snapshot_of s id = None).
    { unfold snapshot_of. by rewrite (inactive_record _ _ _ Hh Ha). }
    destruct r2; simpl; [rewrite <- Hn at 1|]; by apply Hfail.
Qed.

Lemma delete_spec s id s' r : Inv s -> delete s id = (s', r) -> deleted s s' id r.
Proof using session_laws fiber_injective.
  intros HI. unfold delete. destruct (ready_session s) as [u|e].
  2:{ intros [= <- <-]. by apply deleted_failed. }
  destruct (fiber F (session s) (check_fid id)) as [h|e] eqn:Hh.
  2:{ intros [= <- <-]. by apply deleted_failed. }
  destruct (is_active h) eqn:Ha.
  - destruct (detach s (check_fid id) _) as [s1 r1] eqn:Hd.
    apply detach_attempted in Hd as [(Hl&e&->&He)|(u'&payload&[(Hl&e&->&He)|[Hl Hr]])].
    1-2: intros [= <- <-]; by apply deleted_failed.
    assert (Hc : contents s s1 id (snapshot_of s id) None) by (eapply contents_checkpoint; done).
    destruct Hr as [->|[x ->]]; [|intros [= <- <-]; right; by left].
    destruct (delete_snapshot s1 id) as [s2 r2] eqn:Hds. intros [= <- <-].
    pose proof Hc as [HI1 Hs1 Hk1 _].
    apply delete_snapshot_spec in Hds; try done. rewrite Hs1 in Hds.
    destruct r2 as [u2|e]; simpl; [by eapply contents_trans|]. right.
    destruct e; (destruct Hds as [Hds|Hds] || idtac);
      first [left; by eapply contents_trans|right; by eapply contents_trans].
  - assert (Hn : checkpoint_of s id = None).
    { unfold checkpoint_of. by rewrite (inactive_record _ _ _ Hh Ha). }
    destruct (delete_snapshot s id) as [s2 r2] eqn:Hds. intros [= <- <-].
    apply delete_snapshot_spec in Hds; try done. unfold deleted. rewrite Hn.
    destruct r2 as [u2|[]]; simpl; naive_solver.
Qed.

(** *** Runs *)

Inductive step s : Store -> Prop :=
| step_persist id p q s' r : q <> 0 -> persist s id p q = (s', r) -> step s s'
| step_delete id s' r : delete s id = (s', r) -> step s s'.

Lemma persisted_inv s s' id p q r : persisted s s' id p q r -> Inv s'.
Proof using Type.
  destruct r as [u|[]]; simpl.
  - intros [[] _]; done.
  - intros [[]|[[[]|[]] _]]; done.
  - intros []; done.
  - intros []; done.
  - intros []; done.
  - intros (_&_&_&[]); done.
Qed.

Lemma deleted_inv s s' id r : deleted s s' id r -> Inv s'.
Proof using Type.
  destruct r as [u|[]]; simpl; try (intros []; done). intros [[]|[[]|[]]]; done.
Qed.

Lemma projection_step_inv s s' : Inv s -> step s s' -> Inv s'.
Proof using session_laws codecs_laws fiber_injective.
  intros HI [id p q t r Hq Hp|id t r Hd].
  - eapply persisted_inv, persist_spec; done.
  - eapply deleted_inv, delete_spec; done.
Qed.

Lemma projection_empty_inv s : log (session s) = [] -> Inv s.
Proof using Type.
  intros Hl. split; [by rewrite Hl|by rewrite Hl|]. intros id.
  unfold checkpoint_of. rewrite Hl. simpl. by intros [].
Qed.

(** The session did not take one of the three requests that follow the comparison. *)
Definition session_refused s id (snapshot_payload checkpoint_payload : Bytes) : Prop :=
  exists u1 u2 fs1 v1, write_fiber F (session s) (snap_fid id) u1 snapshot_payload = (fs1, v1)
    /\ (v1 <> Ok Landed
        \/ exists fs2 v2, write_fiber F fs1 (check_fid id) u2 checkpoint_payload = (fs2, v2)
             /\ (v2 <> Ok Landed \/ snd (sync F fs2) <> Ok tt)).

(** What [persist] must answer once the stored checkpoint could be read and both
    records encoded: the comparison decides, and after it only the session. *)
Definition persist_answer s id (p : P) (q : Z) (r : result unit ProjectionError) : Prop :=
  forall o bytes snapshot_payload checkpoint_payload,
    load_checkpoint s id = Ok o -> encode_snapshot p = Ok bytes ->
    encode_payload K (Snapshot (AggregateId_get id) projection_name bytes) = Ok snapshot_payload ->
    encode_payload K (Checkpoint (AggregateId_get id) projection_name q) = Ok checkpoint_payload ->
    match checkpoint_of s id with
    | Some c => if q <? c then r = Err (PCheckpointRegression c q)
                else r = Ok tt \/ session_refused s id snapshot_payload checkpoint_payload
    | None => r = Ok tt \/ session_refused s id snapshot_payload checkpoint_payload
    end.

Lemma persist_writes_answer s id u1 u2 sp cp s' r :
  persist_writes s id u1 u2 sp cp = (s', r) -> r = Ok tt \/ session_refused s id sp cp.
Proof using Type.
  unfold persist_writes, write, do_sync.
  destruct (write_fiber F (session s) (snap_fid id) u1 sp) as [fs1 v1] eqn:H1. simpl.
  destruct v1 as [[|ep]|e]; simpl; try (intros _; right; exists u1, u2, fs1; eexists; by split; [exact H1|left]).
  destruct (write_fiber F fs1 (check_fid id) u2 cp) as [fs2 v2] eqn:H2. simpl.
  destruct v2 as [[|ep]|e]; simpl; [|intros _; right; exists u1, u2, fs1; eexists;
    (split; [exact H1|right]); exists fs2; eexists; by split; [exact H2|left]..].
  destruct (sync F fs2) as [fs3 [[]|e]] eqn:H3; simpl; intros [= _ <-]; [by left|].
  right. exists u1, u2, fs1. eexists. split; [exact H1|right]. exists fs2. eexists.
  split; [exact H2|right]. by rewrite H3.
Qed.

Lemma persist_answers s id p q s' r :
  Inv s -> persist s id p q = (s', r) -> persist_answer s id p q r.
Proof using session_laws.
  intros HI Hp o bytes sp cp Hload Hb Hsp Hcp. revert Hp. unfold persist, load_checkpoint in *.
  destruct (ready_session s) as [u|e] eqn:Hrd; simpl in *; [|done]. rewrite Hb. simpl. rewrite Hsp. simpl.
  rewrite Hcp. unfold persist_locked. simpl.
  change (ready_session (mkStore (session s) _)) with (ready_session s). rewrite Hrd.
  change (load_checkpoint_from_session (mkStore (session s) _) id) with (load_checkpoint_from_session s id).
  rewrite Hload. apply load_checkpoint_ok in Hload as ->; [|done].
  destruct (checkpoint_of s id) as [c|]; simpl; [destruct (q <? c); [by intros [= _ <-]|]|];
    intros H; by apply persist_writes_answer in H.
Qed.

(** C17: One [persist], on every branch.  Success leaves exactly the given
    snapshot and sequence.  When the stored checkpoint can be read and the
    records encoded, a sequence below it is refused with
    [PCheckpointRegression] and both numbers, and any other call succeeds unless
    the session refuses a write or the synchronisation.  A definite failure, the
    refusal included, wrote nothing; after an indeterminate one the pair is the
    old one, the new snapshot with the old checkpoint, or the new pair, never a
    new checkpoint without its snapshot.  The checkpoint never goes back, and
    other aggregates keep what they had. *)
Theorem persist_outcome s id p q s' r :
  Inv s -> q <> 0 -> persist s id p q = (s', r) ->
  Inv s' /\ persisted s s' id p q r /\ persist_answer s id p q r
  /\ (forall c, checkpoint_of s id = Some c -> exists c', checkpoint_of s' id = Some c' /\ c <= c').
Proof using session_laws codecs_laws fiber_injective.
  intros HI Hq Hp. pose proof (persist_answers _ _ _ _ _ _ HI Hp) as Ha.
  apply persist_spec in Hp; try done. split; [by eapply persisted_inv|].
  split; [done|]. split; [done|]. intros c Hc. unfold persisted in Hp. rewrite Hc in Hp.
  destruct r as [u|[]]; simpl in Hp.
  - destruct Hp as [[_ _ -> _] Hm]. eauto.
  - destruct Hp as [[_ _ -> _]|[[[_ _ -> _]|[_ _ -> _]] Hm]]; eauto with lia.
  - destruct Hp as [_ _ -> _]. eauto with lia.
  - destruct Hp as [_ _ -> _]. eauto with lia.
  - destruct Hp as [_ _ -> _]. eauto with lia.
  - destruct Hp as (_&_&_&[_ _ -> _]). eauto with lia.
Qed.

(** C18: A checkpoint never outlives or precedes its snapshot.  In every run of
    [persist] and [delete] calls from an empty store, wherever a call is cut
    short or its outcome is unknown, an aggregate with a checkpoint has a
    snapshot; and what the loads return is that checkpoint, with the identity it
    was asked for, and that snapshot. *)
Theorem checkpoint_has_snapshot s0 s id :
  log (session s0) = [] -> rtc step s0 s ->
  (is_Some (checkpoint_of s id) -> is_Some (snapshot_of s id))
  /\ (forall o, load_checkpoint s id = Ok o ->
       o = mkCheckpoint id projection_name <$> checkpoint_of s id)
  /\ (forall o, load_snapshot s id = Ok o -> o = snapshot_of s id).
Proof using session_laws codecs_laws fiber_injective.
  intros H0 Hrun. pose proof (rtc_invariant step Inv projection_step_inv _ _ Hrun (projection_empty_inv _ H0)) as HI.
  split_and!.
  - apply HI.
  - intros o. unfold load_checkpoint. destruct (ready_session s); simpl; [|done].
    by apply load_checkpoint_ok.
  - intros o. by apply load_snapshot_ok.
Qed.
End Store.
End ProjectionStore.

(** ** Witnesses *)

(** Two events of aggregate 1 applied live, and a resynchronisation. *)
Definition live_demo_start : Driver.Live (Ev := Z) (P := Z) (InMemory.store Z) :=
  Driver.mkLive (InMemory.store Z) (InMemory.new counting_world) (Driver.WriteCell_new 0) false.
Definition sum_apply (p : Z) (e : EventEnvelope Z) : Z := p + payload e.
Definition live_demo : Driver.Live (InMemory.store Z) :=
  Driver.live_append sum_apply (InMemory.store Z) (AggregateId_new 1)
    (Driver.live_create sum_apply (InMemory.store Z) (AggregateId_new 1) live_demo_start [5]
       Correlation.none) (AggregateId_new 1) 1 [6] Correlation.none.

Lemma live_matches_replay_witness :
  exists p q, snd (Driver.replay_inner 0 sum_apply (InMemory.store Z)
                     (Driver.live_store _ live_demo) (AggregateId_new 1)) = Ok (p, q)
    /\ p = 11 /\ Driver.WriteCell_snapshot (Driver.cell _ live_demo) = p.
Proof.
  destruct (Driver.replay_inner 0 sum_apply (InMemory.store Z)
              (Driver.live_store _ live_demo) (AggregateId_new 1)) as [s [[p q]|e]] eqn:Hr.
  2:{ apply (f_equal snd) in Hr. vm_compute in Hr. discriminate. }
  destruct (Driver.live_matches_replay 0 sum_apply (InMemory.store Z) InMemory.Inv InMemory.stream_of
              (AggregateId_new 1) (InMemory.new counting_world) live_demo s p q) as (Hp&_&Hc).
  - apply InMemory.new_inv, counting_v7.
  - reflexivity.
  - eapply rtc_l; [apply Driver.live_do_create|]. apply rtc_once, Driver.live_do_append.
  - exact Hr.
  - exists p, q. split; [reflexivity|]. split; [rewrite Hp; vm_compute; reflexivity|].
    apply Hc. vm_compute. reflexivity.
Defined.

(** Snapshots of integers over a scripted session; records as bits. *)
#[global] Instance byte_eq_dec : EqDecision Byte.byte := Byte.byte_eq_dec.

#[global] Instance byte_countable : Countable Byte.byte :=
  inj_countable' Byte.to_bits Byte.of_bits Byte.of_bits_to_bits.

#[global] Instance record_eq_dec : EqDecision ProjectionStore.PardosaProjectionRecord.
Proof. solve_decision. Defined.

#[global] Instance record_countable : Countable ProjectionStore.PardosaProjectionRecord.
Proof.
  apply (inj_countable'
    (fun r => match r with
              | ProjectionStore.Tombstone a n k => inl (inl (a, n, k))
              | ProjectionStore.Snapshot a n b => inl (inr (a, n, b))
              | ProjectionStore.Checkpoint a n q => inr (a, n, q)
              end)
    (fun x => match x with
              | inl (inl (a, n, k)) => ProjectionStore.Tombstone a n k
              | inl (inr (a, n, b)) => ProjectionStore.Snapshot a n b
              | inr (a, n, q) => ProjectionStore.Checkpoint a n q
              end)).
  by intros [].
Defined.

Definition demo_codecs : ProjectionStore.Codecs Z :=
  ProjectionStore.mkCodecs bits_encode bits_decode Ok bits_encode bits_decode.

#[global] Instance demo_codecs_laws : ProjectionStore.CodecsLaws demo_codecs.
Proof. split; simpl; [intros; by apply bits_roundtrip|by intros b b' [= <-]|intros; by apply bits_roundtrip]. Qed.

Definition demo_fiber (k : string) : FiberId := Z.pos (encode k).

Lemma demo_fiber_inj k k' : demo_fiber k = demo_fiber k' -> k = k'.
Proof. unfold demo_fiber. intros [= H]. by apply (inj encode). Qed.

Definition demo_store (script : list LogSession.Fault) : ProjectionStore.Store LogSession.session :=
  ProjectionStore.mkStore LogSession.session (LogSession.empty script) counting_world.

Definition demo_persist := ProjectionStore.persist show_Z LogSession.session demo_codecs demo_fiber "view".
Definition demo_snapshot_of :=
  ProjectionStore.snapshot_of LogSession.session demo_codecs demo_fiber "view" LogSession.blocks.
Definition demo_checkpoint_of :=
  ProjectionStore.checkpoint_of LogSession.session demo_codecs demo_fiber "view" LogSession.blocks.

(** The snapshot lands and the outcome of the checkpoint is unknown, and it was
    lost: the snapshot is there without a checkpoint. *)
Definition torn := fst (demo_persist (demo_store [LogSession.Works; LogSession.UnknownLost])
                          (AggregateId_new 1) 7 4).

(** Both landed; a sequence below the checkpoint is then refused. *)
Definition kept := fst (demo_persist (demo_store []) (AggregateId_new 1) 7 4).

Lemma persist_outcome_witness :
  snd (demo_persist kept (AggregateId_new 1) 8 3) = Err (PCheckpointRegression 4 3)
  /\ demo_snapshot_of torn (AggregateId_new 1) = Some 7 /\ demo_checkpoint_of torn (AggregateId_new 1) = None
  /\ ProjectionStore.Inv LogSession.session demo_codecs demo_fiber "view" LogSession.blocks torn.
Proof.
  do 3 (split; [vm_compute; reflexivity|]).
  unfold torn. destruct (demo_persist _ _ _ _) as [s' r] eqn:Hp.
  apply (ProjectionStore.persist_outcome show_Z LogSession.session demo_codecs demo_fiber "view"
           LogSession.blocks demo_fiber_inj
           (demo_store [LogSession.Works; LogSession.UnknownLost]) (AggregateId_new 1) 7 4 s' r).
  - by apply ProjectionStore.projection_empty_inv.
  - discriminate.
  - exact Hp.
Defined.

Lemma checkpoint_has_snapshot_witness :
  ProjectionStore.load_snapshot show_Z LogSession.session demo_codecs demo_fiber "view" kept
    (AggregateId_new 1) = Ok (Some 7)
  /\ demo_snapshot_of kept (AggregateId_new 1) = Some 7.
Proof.
  destruct (ProjectionStore.checkpoint_has_snapshot show_Z LogSession.session demo_codecs demo_fiber
              "view" LogSession.blocks demo_fiber_inj (demo_store []) kept (AggregateId_new 1))
    as (_&_&Hs).
  - reflexivity.
  - unfold kept. destruct (demo_persist _ _ _ _) as [s' r] eqn:Hp. apply rtc_once.
    eapply (ProjectionStore.step_persist _ _ _ _ _ _ (AggregateId_new 1) 7 4); [discriminate|exact Hp].
  - split; [vm_compute; reflexivity|]. symmetry. apply Hs. vm_compute. reflexivity.
Defined.
