(* ===== verification/PgnoOpen.v ===== *)
(** * Creating and opening pgno files

    [create_pgno] and [open_pgno] of the event store
    ([pardosa-cherry-pit-test-support/src/lib.rs], [EventFile]) and of the
    projection store ([pardosa-cherry-pit-projection/src/lib.rs],
    [ProjectionFile]), over any adapter that keeps its laws: what a process wrote
    is what the next one opens, and a file of another schema is refused. *)

From S2P Require Import Prelude Core Store Pardosa PgnoStore Projection.
Local Open Scope result_scope.

(** [drop(std::fs::remove_file(path))]: the outcome is ignored. *)
Definition clear_component_if_removable {A} (remove : A -> A * result unit Boxed) (d : A) : A := fst (remove d).

(** [default_claim]; the label is that of the crate. *)
Definition default_claim (label : string) (pid epoch : Z) : OwnershipClaimRecord :=
  mkClaim epoch (replicate 16 0) (replicate 16 0) pid 0 0 label.

Module EventFile.
Section EventFile.
Context {Ev D : Type} `{EqDecision D} (F : FileWriterSession) (J : JsonCodec (PgnoEnvelope Ev)).
Context (A : FileStorageAdapter F D) (expected_descriptor : result D Boxed) (pid : Z).

Notation from_session := (Pgno.from_session F J (schema_descriptor A) expected_descriptor).

Definition create_pgno (d : disk A) (w : World) : disk A * result (Pgno.PgnoEventStore F) StoreError :=
  match map_err Pgno.to_store_error expected_descriptor with
  | Err e => (d, Err e)
  | Ok descriptor =>
      let d := clear_component_if_removable (remove_meta A) d in
      let d := clear_component_if_removable (remove_pgno A) d in
      let claim := default_claim "test-support" pid 1 in
      let '(d, r) := create_file A d claim descriptor in
      (d, let? session := map_err Pgno.to_store_error r in from_session session w)
  end.

Definition open_pgno (d : disk A) (w : World) : disk A * result (Pgno.PgnoEventStore F) StoreError :=
  match (let? expected := map_err Pgno.to_store_error expected_descriptor in
         let? meta := map_err Pgno.to_store_error (read_meta_records A d) in
         let? _ := Pgno.validate_descriptor meta expected in
         map_err Pgno.to_store_error (current_epoch A d)) with
  | Err e => (d, Err e)
  | Ok epoch =>
      let '(d, r) := open_write A d epoch in
      (d, let? session := map_err Pgno.to_store_error r in from_session session w)
  end.

Context (log : fs_state F -> list Block) {session_laws : SessionLaws F log}.
Context (disk_log : disk A -> list Block) (disk_schema : disk A -> option D) (leaves : fs_state F -> disk A -> Prop)
        {adapter_laws : AdapterLaws A log disk_log disk_schema leaves}.
Notation Inv := (Pgno.Inv F J log).
Notation view := (Pgno.view F J log).

Lemma validate_err (o : option D) x : o <> Some x -> exists b, Pgno.validate_descriptor o x = Err (CorruptData b).
Proof using Type.
  intros Hne. unfold Pgno.validate_descriptor. destruct o as [y|]; [|by eexists].
  destruct (bool_decide_reflect (y = x)) as [->|]; [done|by eexists].
Qed.

Lemma opened_session d w d' s' :
  open_pgno d w = (d', Ok s') -> exists fs, log fs = disk_log d /\ from_session fs w = Ok s'.
Proof using adapter_laws.
  unfold open_pgno. destruct (let? expected := _ in _) as [epoch|e]; [|done].
  destruct (open_write A d epoch) as [d1 [fs|e]] eqn:Ho; simpl; [|done]. intros [= <- Hf].
  exists fs. split; [by eapply law_open_write|done].
Qed.

(** The store that is opened on what another left shows what that showed. *)
Lemma reopened_views s d w d' s' :
  Inv s -> leaves (Pgno.session F s) d -> uuid_at w = uuid_at (Pgno.world F s) ->
  (uuid_drawn (Pgno.world F s) <= uuid_drawn w)%nat -> open_pgno d w = (d', Ok s') ->
  Inv s' /\ forall id, view s' id = view s id.
Proof using session_laws adapter_laws.
  intros HI Hl Hat Hd Ho. destruct (opened_session _ _ _ _ Ho) as (fs&Hlog&Hf).
  destruct (law_leaves (A := A) (disk_log := disk_log) (disk_schema := disk_schema) _ _ Hl) as [Hdl _]. rewrite Hdl in Hlog.
  by apply (Pgno.from_session_inv F J _ _ log s fs w s' HI Hlog Hat Hd Hf).
Qed.

(** C16: What was written is what is opened.  From the file a store left behind,
    whatever the outcome of its last write, [open_pgno] builds a store with
    exactly the histories of its log and a counter below which every stored
    identifier lies, so that the next [create] takes a fresh one.  A file whose
    recorded schema is another one is refused before anything is opened, as
    corrupt data if it can be read at all.  [create_pgno] starts an empty store,
    whatever was at its path, and touches nothing if the schema is not admitted. *)
Theorem pgno_reopen s d w :
  Inv s -> leaves (Pgno.session F s) d -> uuid_at w = uuid_at (Pgno.world F s) ->
  (uuid_drawn (Pgno.world F s) <= uuid_drawn w)%nat ->
  (forall d' s', open_pgno d w = (d', Ok s') ->
     Inv s' /\ (forall id, view s' id = view s id) /\ view s' (AggregateId_new (Pgno.next_id F s' + 1)) = [])
  /\ (forall d0 x, expected_descriptor = Ok x -> disk_schema d0 <> Some x ->
       exists e, open_pgno d0 w = (d0, Err e) /\ (forall o, read_meta_records A d0 = Ok o -> exists b, e = CorruptData b))
  /\ (forall d0 d' s', create_pgno d0 w = (d', Ok s') -> Inv s' /\ forall id, view s' id = [])
  /\ (forall d0 e, expected_descriptor = Err e -> create_pgno d0 w = (d0, Err (Infrastructure e))).
Proof using session_laws adapter_laws.
  intros HI Hl Hat Hd. split_and!.
  - intros d' s' Ho. destruct (reopened_views s d w d' s' HI Hl Hat Hd Ho) as [HI' Hv].
    split_and!; [done|done|]. apply (Pgno.view_unused F J log s' _ HI'). lia.
  - intros d0 x Hx Hne. unfold open_pgno. rewrite Hx. simpl.
    destruct (read_meta_records A d0) as [o|e] eqn:Hm; simpl; [|eexists; split; [done|done]].
    rewrite (law_read_meta _ _ Hm). destruct (validate_err _ _ Hne) as [b ->]. simpl. eexists. split; [done|]. by eexists.
  - intros d0 d' s'. unfold create_pgno. destruct expected_descriptor as [x|e] eqn:Hx; simpl; [|done].
    destruct (create_file A _ _ x) as [d1 [fs|e]] eqn:Hc; simpl; [|done]. intros [= <- Hf].
    apply law_create_file in Hc as [Hlog _].
    assert (HI0 : Inv (Pgno.mkPgnoStore F fs 0 w)).
    { apply Pgno.pgno_empty_inv; [done|]. unfold v7_source. rewrite Hat. apply HI. }
    rewrite <- Hx in Hf. destruct (Pgno.from_session_inv F J _ _ log _ fs w s' HI0 eq_refl eq_refl (le_n _) Hf) as [HI' Hv].
    split; [done|]. intros id. rewrite Hv. unfold Pgno.view. simpl. by rewrite Hlog.
  - intros d0 e He. unfold create_pgno. by rewrite He.
Qed.

End EventFile.
End EventFile.

Module ProjectionFile.
Section ProjectionFile.
Context {P D : Type} `{EqDecision D} (F : FileWriterSession) (K : ProjectionStore.Codecs P).
Context (A : FileStorageAdapter F D) (admitted_descriptor : result D Boxed) (pid : Z).
(** [EventString::new] at a maximal length in bytes. *)
Context (EventString_new : Z -> string -> result string Boxed).

Definition PROJECTION_NAME_MAX : Z := 128.

Definition to_infra (e : Boxed) : ProjectionError := PInfrastructure e.
Definition to_bounded_name (name : string) : result string ProjectionError :=
  map_err PInfrastructure (EventString_new PROJECTION_NAME_MAX name).
Definition expected_descriptor : result D ProjectionError := map_err to_infra admitted_descriptor.

Definition validate_descriptor (recorded : option D) (expected : D) : result unit ProjectionError :=
  match recorded with
  | Some descriptor =>
      if bool_decide (descriptor = expected) then Ok tt
      else Err (PCorruptData (BoxOpaque "projection codec/schema version mismatch"))
  | None => Err (PCorruptData (BoxOpaque "projection codec/schema version mismatch"))
  end.

(** [PardosaProjectionStore]: the session with the name that is part of every key. *)
Record PardosaProjectionStore := mkProjectionStore {
  backing : ProjectionStore.Store F;
  projection_name : string;
}.

Definition create_pgno (d : disk A) (name : string) (w : World) : disk A * result PardosaProjectionStore ProjectionError :=
  match (let? projection_name := to_bounded_name name in
         let? descriptor := expected_descriptor in
         Ok (projection_name, descriptor)) with
  | Err e => (d, Err e)
  | Ok (projection_name, descriptor) =>
      let d := clear_component_if_removable (remove_meta A) d in
      let d := clear_component_if_removable (remove_pgno A) d in
      let claim := default_claim "cherry-pit-projection" pid 1 in
      let '(d, r) := create_file A d claim descriptor in
      (d, let? session := map_err to_infra r in
          Ok (mkProjectionStore (ProjectionStore.mkStore F session w) projection_name))
  end.

Definition open_pgno (d : disk A) (name : string) (w : World) : disk A * result PardosaProjectionStore ProjectionError :=
  match (let? projection_name := to_bounded_name name in
         let? expected := expected_descriptor in
         let? meta := map_err to_infra (read_meta_records A d) in
         let? _ := validate_descriptor meta expected in
         let? epoch := map_err to_infra (current_epoch A d) in
         Ok (projection_name, expected, epoch)) with
  | Err e => (d, Err e)
  | Ok (projection_name, expected, epoch) =>
      let '(d, r) := open_write A d epoch in
      (d, let? session := map_err to_infra r in
          let? _ := validate_descriptor (schema_descriptor A session) expected in
          Ok (mkProjectionStore (ProjectionStore.mkStore F session w) projection_name))
  end.

Context (derive_fiber_id : string -> FiberId) (log : fs_state F -> list Block).
Context (disk_log : disk A -> list Block) (disk_schema : disk A -> option D) (leaves : fs_state F -> disk A -> Prop)
        {adapter_laws : AdapterLaws A log disk_log disk_schema leaves}.
(** A bounded name is the name it was built from. *)
Context (EventString_same : forall max s b, EventString_new max s = Ok b -> b = s).

Notation Inv name := (ProjectionStore.Inv F K derive_fiber_id name log).
Notation snapshot_of name := (ProjectionStore.snapshot_of F K derive_fiber_id name log).
Notation checkpoint_of name := (ProjectionStore.checkpoint_of F K derive_fiber_id name log).

(** What a store holds is a function of its log. *)
Lemma same_log name (s s' : ProjectionStore.Store F) :
  log (ProjectionStore.session F s') = log (ProjectionStore.session F s) ->
  (forall id, snapshot_of name s' id = snapshot_of name s id /\ checkpoint_of name s' id = checkpoint_of name s id)
  /\ (Inv name s -> Inv name s').
Proof using Type.
  intros Hl. assert (Hv : forall id, snapshot_of name s' id = snapshot_of name s id /\ checkpoint_of name s' id = checkpoint_of name s id).
  { intros id. unfold ProjectionStore.snapshot_of, ProjectionStore.checkpoint_of. by rewrite Hl. }
  split; [done|]. intros [H1 H2 H3]. split; rewrite ?Hl; try done. intros id. destruct (Hv id) as [-> ->]. apply H3.
Qed.

Lemma refused d name w x :
  admitted_descriptor = Ok x -> disk_schema d <> Some x ->
  exists e, open_pgno d name w = (d, Err e)
    /\ (forall b o, EventString_new PROJECTION_NAME_MAX name = Ok b -> read_meta_records A d = Ok o -> exists m, e = PCorruptData m).
Proof using adapter_laws.
  intros Hx Hne. unfold open_pgno, to_bounded_name, expected_descriptor. rewrite Hx.
  destruct (EventString_new _ name) as [b|e]; simpl; [|by eexists].
  destruct (read_meta_records A d) as [o|e] eqn:Hm; simpl; [|by eexists].
  rewrite (law_read_meta _ _ Hm). unfold validate_descriptor. destruct (disk_schema d) as [y|]; [|simpl; eexists; split; [done|by eexists]].
  destruct (bool_decide_reflect (y = x)) as [->|]; [done|]. simpl. eexists. split; [done|by eexists].
Qed.

(** C19: A projection survives its process.  Opened under its name, the file that a
    store left shows the snapshot and the checkpoint of every aggregate as they
    were, and the invariant that a checkpoint has a snapshot still holds.  A file
    of another schema is refused before it is opened for writing, as corrupt data
    if it can be read.  A created store is empty; a name that is too long is
    refused by both before any file is touched. *)
Theorem projection_reopen s name d w :
  Inv name s -> leaves (ProjectionStore.session F s) d ->
  (forall d' st, open_pgno d name w = (d', Ok st) ->
     projection_name st = name /\ Inv name (backing st)
     /\ forall id, snapshot_of name (backing st) id = snapshot_of name s id
                   /\ checkpoint_of name (backing st) id = checkpoint_of name s id)
  /\ (forall d0 x, admitted_descriptor = Ok x -> disk_schema d0 <> Some x ->
       exists e, open_pgno d0 name w = (d0, Err e)
         /\ (forall b o, EventString_new PROJECTION_NAME_MAX name = Ok b -> read_meta_records A d0 = Ok o -> exists m, e = PCorruptData m))
  /\ (forall d0 d' st, create_pgno d0 name w = (d', Ok st) ->
       projection_name st = name /\ Inv name (backing st)
       /\ forall id, snapshot_of name (backing st) id = None /\ checkpoint_of name (backing st) id = None)
  /\ (forall d0 e, EventString_new PROJECTION_NAME_MAX name = Err e ->
       create_pgno d0 name w = (d0, Err (PInfrastructure e)) /\ open_pgno d0 name w = (d0, Err (PInfrastructure e))).
Proof using adapter_laws EventString_same.
  intros HI Hl. destruct (law_leaves (A := A) (disk_log := disk_log) (disk_schema := disk_schema) _ _ Hl) as [Hdl _]. split_and!.
  - intros d' st. unfold open_pgno, to_bounded_name. destruct (EventString_new _ name) as [b|e] eqn:Hb; simpl; [|done].
    apply EventString_same in Hb as ->. destruct (let? expected := _ in _) as [[[n x] epoch]|e] eqn:Hpre; [|done].
    destruct (open_write A d epoch) as [d1 [fs|e]] eqn:Ho; simpl; [|done].
    destruct (validate_descriptor _ x); simpl; [|done]. intros [= <- <-].
    destruct (same_log name s (ProjectionStore.mkStore F fs w)) as [Hv Hinv].
    { simpl. rewrite <- Hdl. by eapply law_open_write. }
    simpl. split_and!; [|by apply Hinv|done].
    destruct expected_descriptor; simpl in Hpre; [|done]. destruct (read_meta_records A d); simpl in Hpre; [|done].
    destruct (validate_descriptor _ _); simpl in Hpre; [|done]. destruct (current_epoch A d); simpl in Hpre; [|done]. by injection Hpre.
  - intros d0 x. by apply refused.
  - intros d0 d' st. unfold create_pgno, to_bounded_name. destruct (EventString_new _ name) as [b|e] eqn:Hb; simpl; [|done].
    apply EventString_same in Hb as ->. destruct expected_descriptor as [x|e]; simpl; [|done].
    destruct (create_file A _ _ x) as [d1 [fs|e]] eqn:Hc; simpl; [|done]. apply law_create_file in Hc as [Hlog _].
    intros [= <- <-]. simpl. split_and!; [done|by apply ProjectionStore.projection_empty_inv|].
    intros id. unfold ProjectionStore.snapshot_of, ProjectionStore.checkpoint_of. simpl. by rewrite Hlog.
  - intros d0 e He. unfold create_pgno, open_pgno, to_bounded_name. by rewrite He.
Qed.

End ProjectionFile.
End ProjectionFile.

(** ** Witnesses *)

(** A file created, written once and left. *)
Definition file_create := EventFile.create_pgno LogSession.session (bit_codec (PgnoEnvelope Z)) LogSession.adapter (Ok 1) 42.
Definition file_open := EventFile.open_pgno LogSession.session (bit_codec (PgnoEnvelope Z)) LogSession.adapter (Ok 1).

Definition file_fresh : Pgno.PgnoEventStore LogSession.session :=
  Pgno.mkPgnoStore LogSession.session (LogSession.mkState [] None 1 [] (Some 1)) 0 counting_world.

Lemma file_fresh_created : snd (file_create None counting_world) = Ok file_fresh.
Proof. reflexivity. Qed.

Definition file_written : Pgno.PgnoEventStore LogSession.session :=
  match demo_create file_fresh [7] Correlation.none with Some (s, _) => s | None => file_fresh end.

Lemma file_written_inv :
  Pgno.Inv LogSession.session (bit_codec (PgnoEnvelope Z)) LogSession.blocks file_written.
Proof.
  destruct (Pgno.create_law show_Z LogSession.session (bit_codec (PgnoEnvelope Z))
              (fun k => Z.of_nat (String.length k)) (fun n => Ok n) LogSession.blocks
              (fun n _ => eq_refl) file_fresh [7] Correlation.none) as (s'&r&Hc&HI&_).
  - apply Pgno.pgno_empty_inv; [done|apply counting_v7].
  - reflexivity.
  - change (Pgno.create _ _ _ _ _ _ _ _) with (demo_create file_fresh [7] Correlation.none) in Hc.
    unfold file_written. by rewrite Hc.
Qed.

Definition file_left : LogSession.Disk :=
  Some (LogSession.blocks (Pgno.session _ file_written), LogSession.epoch (Pgno.session _ file_written), 1).

(** Witness of [pgno_reopen]. *)
Lemma pgno_reopen_witness :
  match snd (file_open file_left (Pgno.world _ file_written)) with
  | Ok s' => map payload (demo_pgno_view s' (AggregateId_new 1)) = [7]
             /\ demo_pgno_view s' (AggregateId_new (Pgno.next_id _ s' + 1)) = []
  | Err _ => False
  end.
Proof.
  destruct (EventFile.pgno_reopen LogSession.session (bit_codec (PgnoEnvelope Z)) LogSession.adapter (Ok 1) 42
              LogSession.blocks LogSession.on_disk LogSession.schema_on_disk LogSession.left_by
              file_written file_left (Pgno.world _ file_written) file_written_inv
              ltac:(exists 1; split; reflexivity) eq_refl (le_n _)) as (Hopen&_).
  destruct (file_open file_left (Pgno.world _ file_written)) as [d' [s'|e]] eqn:Ho; [|vm_compute in Ho; discriminate].
  destruct (Hopen d' s' Ho) as (_&Hv&Hf). simpl. split; [|exact Hf].
  unfold demo_pgno_view. rewrite Hv. vm_compute. reflexivity.
Defined.

(** A projection persisted and left. *)
Definition short_name (max : Z) (s : string) : result string Boxed :=
  if Z.of_nat (String.length s) <=? max then Ok s else Err (BoxOpaque "too long").

Lemma short_name_same max s b : short_name max s = Ok b -> b = s.
Proof. unfold short_name. destruct (_ <=? _); congruence. Qed.

Definition view_open := ProjectionFile.open_pgno LogSession.session LogSession.adapter (Ok 1)
  short_name.

Definition view_fresh : ProjectionStore.Store LogSession.session :=
  ProjectionStore.mkStore LogSession.session (LogSession.mkState [] None 1 [] (Some 1)) counting_world.
Definition view_kept := fst (demo_persist view_fresh (AggregateId_new 1) 7 4).
Definition view_left : LogSession.Disk :=
  Some (LogSession.blocks (ProjectionStore.session _ view_kept), LogSession.epoch (ProjectionStore.session _ view_kept), 1).

(** Witness of [projection_reopen]. *)
Lemma projection_reopen_witness :
  match snd (view_open view_left "view" counting_world) with
  | Ok st => demo_snapshot_of (ProjectionFile.backing _ st) (AggregateId_new 1) = Some 7
             /\ demo_checkpoint_of (ProjectionFile.backing _ st) (AggregateId_new 1) = Some 4
  | Err _ => False
  end.
Proof.
  destruct (ProjectionFile.projection_reopen LogSession.session demo_codecs LogSession.adapter (Ok 1) 42
              short_name
              demo_fiber LogSession.blocks LogSession.on_disk LogSession.schema_on_disk LogSession.left_by
              short_name_same
              view_kept "view" view_left counting_world) as (Hopen&_).
  - unfold view_kept. destruct (demo_persist _ _ _ _) as [s' r] eqn:Hp.
    eapply (ProjectionStore.projection_step_inv show_Z LogSession.session demo_codecs demo_fiber "view" LogSession.blocks demo_fiber_inj
             view_fresh); [by apply ProjectionStore.projection_empty_inv|].
    eapply (ProjectionStore.step_persist _ _ _ _ _ _ (AggregateId_new 1) 7 4); [discriminate|exact Hp].
  - exists 1. split; reflexivity.
  - destruct (view_open view_left "view" counting_world) as [d' [st|e]] eqn:Ho; [|vm_compute in Ho; discriminate].
    destruct (Hopen d' st Ho) as (_&_&Hv). simpl. destruct (Hv (AggregateId_new 1)) as [Hs Hc].
    split; [etransitivity; [exact Hs|vm_compute; reflexivity]|etransitivity; [exact Hc|vm_compute; reflexivity]].
Defined.
