(* ===== verification/Merger.v ===== *)
(** * The command merger (crate [cherry-pit-merger])

    A single task owns the write side of an aggregate: it takes one command at
    a time from a bounded channel, loads and folds the history the command's
    key routes to, asks the arm for the new events, writes them and publishes
    what it wrote.  The store and the bus are the ports of [Store]; every
    theorem is proved against the store's contract, [EventStoreLaws]. *)

From S2P Require Import Prelude Core Store.
Import Envelope EnvelopeFacts.
Local Open Scope result_scope.

(** ** Arms *)

Inductive PersistMode :=
| Create
| CreateOrAppend (key : string)
| AppendStrict (key : string).

(** [MergerArm<A>], with the [From<StoreError>] of its error type. *)
Record MergerArm (A Ev Cmd ErrT : Type) := mkArm {
  from_store_error : StoreError -> ErrT;
  persist_mode : Cmd -> PersistMode;
  handle : A -> Cmd -> result (list Ev) ErrT;
  publish_label : Cmd -> string;
  missing_key_error : string -> ErrT;
}.
Arguments from_store_error {A Ev Cmd ErrT}. Arguments persist_mode {A Ev Cmd ErrT}.
Arguments handle {A Ev Cmd ErrT}. Arguments publish_label {A Ev Cmd ErrT}.
Arguments missing_key_error {A Ev Cmd ErrT}. Arguments mkArm {A Ev Cmd ErrT}.

(** The provided [missing_key_error]; [debug] is the [Debug] rendering of a
    string. *)
Definition default_missing_key_error {ErrT} (from : StoreError -> ErrT)
    (debug : string -> string) (key : string) : ErrT :=
  from (CorruptData (BoxMsg ("MergerArm::AppendStrict lookup miss on domain_key "
    +:+ debug key +:+ "; expected an existing routing-index entry"))).

Definition MERGER_CHANNEL_CAPACITY : Z := 1024.

Section Merger.
Context {A Ev Cmd ErrT : Type}.
Context (zero : A) (apply : A -> Ev -> A) (arm : MergerArm A Ev Cmd ErrT).
Context (St : EventStore Ev) (B : EventBus Ev).

(** [Merger], with the state of the store and bus it holds.  [traced] is the
    log of the error events of [publish_or_trace]. *)
Record Merger := mkMerger {
  store : es_state St;
  bus : eb_state B;
  index : gmap string AggregateId;
  next_seq : gmap AggregateId Z;
  traced : list (EventEnvelope Ev * string * BusError);
}.

Definition with_store (m : Merger) (s : es_state St) : Merger :=
  mkMerger s (bus m) (index m) (next_seq m) (traced m).

(** ** [shared.rs] *)

Definition lookup (m : Merger) (domain_key : string) : option AggregateId :=
  index m !! domain_key.

(** [if let Some(env) = envs.last() { next_seq.insert(id, env.sequence()) }] *)
Definition track (m : Merger) (id : AggregateId) (envs : list (EventEnvelope Ev)) : Merger :=
  match last envs with
  | Some env => mkMerger (store m) (bus m) (index m) (<[id := sequence env]> (next_seq m)) (traced m)
  | None => m
  end.

(** [index.entry(key).or_insert(id)] *)
Definition or_insert (m : Merger) (domain_key : string) (id : AggregateId) : Merger :=
  match index m !! domain_key with
  | Some _ => m
  | None => mkMerger (store m) (bus m) (<[domain_key := id]> (index m)) (next_seq m) (traced m)
  end.

Definition stale_index (id : AggregateId) : StoreError :=
  CorruptData (BoxMsg ("indexed AggregateId " +:+ AggregateId_display id
    +:+ " has zero envelopes (routing index stale)")).

Definition load_envelopes_or_empty (m : Merger) (existing_id : option AggregateId)
    : Merger * result (list (EventEnvelope Ev) * option Z) StoreError :=
  match existing_id with
  | None => (m, Ok ([], None))
  | Some id =>
      let '(s, r) := es_load St (store m) id in
      (with_store m s,
       let? envelopes := r in
       let? last_seq := ok_or (sequence <$> last envelopes) (stale_index id) in
       Ok (envelopes, Some last_seq))
  end.

Definition append_and_track (m : Merger) (id : AggregateId) (last_seq : Z)
    (new_events : list Ev) (ctx : CorrelationContext)
    : Merger * result (list (EventEnvelope Ev)) StoreError :=
  let '(s, r) := es_append St (store m) id last_seq new_events ctx in
  let m := with_store m s in
  match r with
  | Err e => (m, Err e)
  | Ok envs => (track m id envs, Ok envs)
  end.

Definition create_or_append (m : Merger) (domain_key : string)
    (existing_id : option AggregateId) (last_seq : option Z) (new_events : list Ev)
    (ctx : CorrelationContext) : Merger * result (list (EventEnvelope Ev)) StoreError :=
  match existing_id, last_seq with
  | None, _ =>
      let '(s, r) := es_create St (store m) new_events ctx in
      let m := with_store m s in
      match r with
      | Err e => (m, Err e)
      | Ok (assigned_id, envs) => (track (or_insert m domain_key assigned_id) assigned_id envs, Ok envs)
      end
  | Some id, Some seq =>
      let '(s, r) := es_append St (store m) id seq new_events ctx in
      let m := with_store m s in
      match r with
      | Err e => (m, Err e)
      | Ok envs => (track m id envs, Ok envs)
      end
  | Some id, None =>
      (m, Err (CorruptData (BoxMsg ("indexed AggregateId " +:+ AggregateId_display id
         +:+ " without last_seq; load_envelopes_or_empty should have surfaced this first"))))
  end.

Definition create_fresh (m : Merger) (domain_key : option string) (new_events : list Ev)
    (ctx : CorrelationContext) : Merger * result (list (EventEnvelope Ev)) StoreError :=
  let '(s, r) := es_create St (store m) new_events ctx in
  let m := with_store m s in
  match r with
  | Err e => (m, Err e)
  | Ok (assigned_id, envs) =>
      let m := match domain_key with Some key => or_insert m key assigned_id | None => m end in
      (track m assigned_id envs, Ok envs)
  end.

(** [publish_or_trace]: one error record per envelope when the bus fails. *)
Definition publish_or_trace (m : Merger) (envelopes : list (EventEnvelope Ev))
    (event_label : string) : Merger :=
  let '(b, r) := eb_publish B (bus m) envelopes in
  mkMerger (store m) b (index m) (next_seq m)
    (match r with
     | Ok _ => traced m
     | Err bus_err => traced m ++ map (fun env => (env, event_label, bus_err)) envelopes
     end).

(** ** [merger.rs] *)

(** [state.apply(env.payload())] for each envelope. *)
Definition fold_state (envelopes : list (EventEnvelope Ev)) : A :=
  fold_left (fun st env => apply st (payload env)) envelopes zero.

Definition run_create (m : Merger) (cmd : Cmd) (ctx : CorrelationContext) (label : string)
    : Merger * result unit ErrT :=
  match handle arm zero cmd with
  | Err e => (m, Err e)
  | Ok new_events =>
      let '(m, r) := create_fresh m None new_events ctx in
      match r with
      | Err e => (m, Err (from_store_error arm e))
      | Ok envs => (publish_or_trace m envs label, Ok tt)
      end
  end.

Definition run_create_or_append (m : Merger) (key : string) (cmd : Cmd)
    (ctx : CorrelationContext) (label : string) : Merger * result unit ErrT :=
  let existing_id := lookup m key in
  let '(m, r) := load_envelopes_or_empty m existing_id in
  match r with
  | Err e => (m, Err (from_store_error arm e))
  | Ok (envelopes, last_seq) =>
      match handle arm (fold_state envelopes) cmd with
      | Err e => (m, Err e)
      | Ok new_events =>
          let '(m, r) := create_or_append m key existing_id last_seq new_events ctx in
          match r with
          | Err e => (m, Err (from_store_error arm e))
          | Ok envs => (publish_or_trace m envs label, Ok tt)
          end
      end
  end.

Definition run_append_strict (m : Merger) (key : string) (cmd : Cmd)
    (ctx : CorrelationContext) (label : string) : Merger * result unit ErrT :=
  match lookup m key with
  | None => (m, Err (missing_key_error arm key))
  | Some id =>
      let '(s, r) := es_load St (store m) id in
      let m := with_store m s in
      match r with
      | Err e => (m, Err (from_store_error arm e))
      | Ok envelopes =>
          match last envelopes with
          | None => (m, Err (from_store_error arm (stale_index id)))
          | Some env =>
              match handle arm (fold_state envelopes) cmd with
              | Err e => (m, Err e)
              | Ok new_events =>
                  let '(m, r) := append_and_track m id (sequence env) new_events ctx in
                  match r with
                  | Err e => (m, Err (from_store_error arm e))
                  | Ok envs => (publish_or_trace m envs label, Ok tt)
                  end
              end
          end
      end
  end.

Definition handle_one (m : Merger) (cmd : Cmd) (ctx : CorrelationContext)
    : Merger * result unit ErrT :=
  let label := publish_label arm cmd in
  match persist_mode arm cmd with
  | Create => run_create m cmd ctx label
  | CreateOrAppend key => run_create_or_append m key cmd ctx label
  | AppendStrict key => run_append_strict m key cmd ctx label
  end.

(** The states in which the task can end while it handles a command: [handle_one]
    waits for the store and for the bus, and runs code of the arm; when the task is
    aborted or the arm panics, what was done up to there stays done.  [persisted]
    are the states from the write on: written but not recorded, recorded but not
    published, and published. *)
Definition persisted (m : Merger) (w : Merger * result (list (EventEnvelope Ev)) StoreError) (label : string)
    : list Merger :=
  with_store m (store (fst w))
  :: match snd w with Err _ => [] | Ok envs => [fst w; publish_or_trace (fst w) envs label] end.

Definition stages (m : Merger) (cmd : Cmd) (ctx : CorrelationContext) : list Merger :=
  let label := publish_label arm cmd in
  m :: match persist_mode arm cmd with
       | Create =>
           match handle arm zero cmd with
           | Err _ => []
           | Ok new_events => persisted m (create_fresh m None new_events ctx) label
           end
       | CreateOrAppend key =>
           let existing_id := lookup m key in
           let '(m, r) := load_envelopes_or_empty m existing_id in
           m :: match r with
                | Err _ => []
                | Ok (envelopes, last_seq) =>
                    match handle arm (fold_state envelopes) cmd with
                    | Err _ => []
                    | Ok new_events => persisted m (create_or_append m key existing_id last_seq new_events ctx) label
                    end
                end
       | AppendStrict key =>
           match lookup m key with
           | None => []
           | Some id =>
               let '(s, r) := es_load St (store m) id in
               let m := with_store m s in
               m :: match r with
                    | Err _ => []
                    | Ok envelopes =>
                        match last envelopes, handle arm (fold_state envelopes) cmd with
                        | Some env, Ok new_events =>
                            persisted m (append_and_track m id (sequence env) new_events ctx) label
                        | _, _ => []
                        end
                    end
           end
       end.

(** [MergerHandle::dispatch], by what the channels do: the send is rejected,
    or the command is accepted and the reply arrives or is lost. *)
Inductive Delivery := SendRejected | ReplyLost | Replied (r : result unit ErrT).

Definition dispatch (d : Delivery) : result unit ErrT :=
  match d with
  | SendRejected =>
      Err (from_store_error arm (Infrastructure (BoxMsg
        "MergerHandle::dispatch: merger task channel closed; the merger task has shut down and is no longer accepting commands")))
  | Replied r => r
  | ReplyLost => Err (from_store_error arm (Indeterminate (BoxOpaque "channel closed")))
  end.

(** ** The channel and the task

    The tickets number the calls to [dispatch].  A send is accepted while the
    task runs and the channel has room; the task takes the oldest command and
    runs it to its end before it takes the next one ([run]); when the task
    stops, between two commands or while it handles one, that one and the commands
    still queued are dropped with their reply senders. *)

Record System := mkSystem {
  merger : Merger;
  queue : list (nat * Cmd * CorrelationContext);
  running : bool;
  deliveries : gmap nat Delivery;
  next_ticket : nat;
  accepted : list (nat * Cmd * CorrelationContext);
}.

Inductive sys_step (y : System) : System -> Prop :=
| sys_send cmd ctx :
    running y = true -> Z.of_nat (length (queue y)) < MERGER_CHANNEL_CAPACITY ->
    sys_step y (mkSystem (merger y) (queue y ++ [(next_ticket y, cmd, ctx)]) true (deliveries y)
                  (S (next_ticket y)) (accepted y ++ [(next_ticket y, cmd, ctx)]))
| sys_reject :
    running y = false ->
    sys_step y (mkSystem (merger y) (queue y) false
                  (<[next_ticket y := SendRejected]> (deliveries y)) (S (next_ticket y)) (accepted y))
| sys_handle t cmd ctx rest m r :
    running y = true -> queue y = (t, cmd, ctx) :: rest ->
    handle_one (merger y) cmd ctx = (m, r) ->
    sys_step y (mkSystem m rest true (<[t := Replied r]> (deliveries y)) (next_ticket y) (accepted y))
| sys_stop m :
    running y = true ->
    m = merger y \/ (exists t cmd ctx rest, queue y = (t, cmd, ctx) :: rest /\ m ∈ stages (merger y) cmd ctx) ->
    sys_step y (mkSystem m [] false
                  (foldr (fun '(t, _, _) d => <[t := ReplyLost]> d) (deliveries y) (queue y))
                  (next_ticket y) (accepted y)).

(** ** Contracts of the operations *)

Context (Inv : es_state St -> Prop)
        (view : es_state St -> AggregateId -> list (EventEnvelope Ev))
        {laws : EventStoreLaws St Inv view}.
Implicit Types (m : Merger).

(** Every indexed aggregate has a history, and the sequence tracker names a
    sequence of that history. *)
Record MInv m : Prop := {
  mi_store : Inv (store m);
  mi_index k id : index m !! k = Some id -> view (store m) id <> [];
  mi_seq id q : next_seq m !! id = Some q -> 1 <= q <= Z.of_nat (length (view (store m) id));
}.

(** A command that wrote [envs] to [id]: the events the arm computed from the
    folded history, in order, published on the bus, no other stream touched. *)
Record committed m m' (id : AggregateId) (cmd : Cmd) (ctx : CorrelationContext)
    (envs : list (EventEnvelope Ev)) : Prop := {
  co_events : exists events, handle arm (fold_state (view (store m) id)) cmd = Ok events
                             /\ stamped id ctx events envs;
  co_view : view (store m') id = view (store m) id ++ envs;
  co_others j : j <> id -> view (store m') j = view (store m) j;
  co_bus : bus m' = fst (eb_publish B (bus m) envs);
}.

(** Where a command in a given mode writes. *)
Definition target m (mode : PersistMode) (id : AggregateId) : Prop :=
  match mode with
  | Create => view (store m) id = []
  | CreateOrAppend k => match index m !! k with Some i => id = i | None => view (store m) id = [] end
  | AppendStrict k => index m !! k = Some id
  end.

(** The events of a command, all of them, at the end of the stream it is routed
    to, and no other change. *)
Definition wrote m (s : es_state St) (mode : PersistMode) (cmd : Cmd) (ctx : CorrelationContext) : Prop :=
  exists id events envs, target m mode id
    /\ handle arm (fold_state (view (store m) id)) cmd = Ok events /\ stamped id ctx events envs
    /\ view s id = view (store m) id ++ envs /\ (forall j, j <> id -> view s j = view (store m) j).

(** A command that failed with [e]: nothing published, indexed or tracked; the
    histories are untouched unless the store could not tell, and then all events
    are there or none. *)
Record failed m m' (mode : PersistMode) (cmd : Cmd) (ctx : CorrelationContext) (e : ErrT) : Prop := {
  fa_bus : bus m' = bus m;
  fa_index : index m' = index m;
  fa_seq : next_seq m' = next_seq m;
  fa_traced : traced m' = traced m;
  fa_views : (forall j, view (store m') j = view (store m) j)
             \/ (exists b, e = from_store_error arm (Indeterminate b)) /\ wrote m (store m') mode cmd ctx;
}.

Lemma definite_or_indeterminate e : definite e \/ exists b, e = Indeterminate b.
Proof. destruct e; (by right; eexists) || by left. Qed.

Lemma wrote_grown m s mode cmd ctx j : wrote m s mode cmd ctx -> view (store m) j `prefix_of` view s j.
Proof.
  intros (id&events&envs&_&_&_&Hv&Ho). destruct (decide (j = id)) as [->|Hj]; [|by rewrite Ho].
  rewrite Hv. by apply prefix_app_r.
Qed.

Lemma wrote_after m s s' mode cmd ctx :
  (forall j, view s j = view (store m) j) -> wrote (with_store m s) s' mode cmd ctx -> wrote m s' mode cmd ctx.
Proof.
  intros Hv (id&events&envs&Ht&Hh&Hst&Hw&Ho). unfold target in Ht. simpl in *. exists id, events, envs.
  rewrite Hv in *. split_and!; try done. intros j Hj. rewrite Ho, Hv by done. done.
Qed.

Lemma failed_views m s mode cmd ctx e :
  (forall j, view s j = view (store m) j) -> failed m (with_store m s) mode cmd ctx e.
Proof. intros Hv. split; simpl; try done. by left. Qed.

Lemma failed_same m mode cmd ctx e : failed m m mode cmd ctx e.
Proof. split; try done. by left. Qed.

(** Failures compose with a load before them. *)
Lemma failed_after m s m' mode cmd ctx e :
  (forall j, view s j = view (store m) j) -> failed (with_store m s) m' mode cmd ctx e -> failed m m' mode cmd ctx e.
Proof.
  intros Hv [? ? ? ? Hw]. simpl in *. split; try done.
  destruct Hw as [Hw|[? Hw]]; [left|right]; [intros j; by rewrite Hw|]. split; [done|by eapply wrote_after].
Qed.

(** The same index and tracker over histories that only grew. *)
Lemma MInv_grown m m' :
  MInv m -> Inv (store m') -> index m' = index m -> next_seq m' = next_seq m ->
  (forall j, view (store m) j `prefix_of` view (store m') j) -> MInv m'.
Proof.
  intros [HI Hx Hq] HI' Hi Hs Hg. split; [done|..].
  - intros k id. rewrite Hi. intros Hk Hn. apply (Hx k id Hk).
    specialize (Hg id). rewrite Hn in Hg. by apply prefix_nil_inv in Hg.
  - intros id q. rewrite Hs. intros Hk. specialize (Hq id q Hk).
    pose proof (prefix_length _ _ (Hg id)). lia.
Qed.

Lemma MInv_failed m m' mode cmd ctx e : MInv m -> Inv (store m') -> failed m m' mode cmd ctx e -> MInv m'.
Proof.
  intros Hm HI [_ Hi Hs _ Hv]. apply (MInv_grown m); try done. intros j.
  destruct Hv as [Hv|[_ Hw]]; [by rewrite Hv|by eapply wrote_grown].
Qed.

Lemma stamped_nonempty id ctx events envs :
  events <> [] -> @stamped Ev id ctx events envs -> envs <> [].
Proof. intros Hne Hst ->. apply Hne. by apply Forall2_nil_inv_r in Hst. Qed.

(** The tracker after a write of [envs] at the end of [id]. *)
Lemma track_seq m id envs j q :
  valid_stream id (view (store m) id) ->
  (exists pre, view (store m) id = pre ++ envs) ->
  (forall j q, next_seq m !! j = Some q -> 1 <= q <= Z.of_nat (length (view (store m) j))) ->
  next_seq (track m id envs) !! j = Some q ->
  1 <= q <= Z.of_nat (length (view (store m) j)).
Proof.
  intros Hv [pre Hp] Hq. unfold track.
  destruct (last envs) as [env|] eqn:Hl; [|apply Hq]. simpl.
  destruct (decide (j = id)) as [->|Hne]; [|rewrite lookup_insert_ne by done; apply Hq].
  rewrite lookup_insert_eq. intros [= <-].
  assert (Hlast : last (view (store m) id) = Some env) by (rewrite Hp, last_app, Hl; done).
  rewrite (valid_stream_last _ _ _ Hv Hlast).
  destruct (view (store m) id); [done|]. simpl. lia.
Qed.

Lemma track_fields m id envs :
  store (track m id envs) = store m /\ bus (track m id envs) = bus m
  /\ index (track m id envs) = index m /\ traced (track m id envs) = traced m.
Proof. unfold track. by destruct (last envs). Qed.

Lemma publish_fields m envs label :
  store (publish_or_trace m envs label) = store m
  /\ bus (publish_or_trace m envs label) = fst (eb_publish B (bus m) envs)
  /\ index (publish_or_trace m envs label) = index m
  /\ next_seq (publish_or_trace m envs label) = next_seq m.
Proof. unfold publish_or_trace. by destruct (eb_publish B (bus m) envs). Qed.

Lemma or_insert_fields m k id :
  store (or_insert m k id) = store m /\ bus (or_insert m k id) = bus m
  /\ next_seq (or_insert m k id) = next_seq m.
Proof. unfold or_insert. by destruct (index m !! k). Qed.

Lemma publish_tracked m s id envs label :
  let m' := publish_or_trace (track (with_store m s) id envs) envs label in
  store m' = s /\ bus m' = fst (eb_publish B (bus m) envs) /\ index m' = index m
  /\ next_seq m' = next_seq (track (with_store m s) id envs).
Proof.
  simpl. destruct (publish_fields (track (with_store m s) id envs) envs label) as (->&->&->&->).
  destruct (track_fields (with_store m s) id envs) as (->&->&->&_). done.
Qed.

(** A successful append ends a command. *)
Lemma finish_append m id q events ctx s envs cmd label :
  MInv m -> handle arm (fold_state (view (store m) id)) cmd = Ok events ->
  es_append St (store m) id q events ctx = (s, Ok envs) ->
  let m' := publish_or_trace (track (with_store m s) id envs) envs label in
  committed m m' id cmd ctx envs /\ MInv m' /\ index m' = index m.
Proof.
  intros [HI Hx Hq] Hh Ha m'.
  destruct (law_append _ _ _ _ _ _ _ HI Ha) as [HI' (Ho&Hv&Hst&_)].
  destruct (publish_tracked m s id envs label) as (E1&E2&E3&E4). fold m' in E1, E2, E3, E4.
  assert (Hlen : forall j, (length (view (store m) j) <= length (view s j))%nat).
  { intros j. destruct (decide (j = id)) as [->|Hne]; [|by rewrite Ho].
    rewrite Hv, length_app. lia. }
  split_and!; [split|split|done]; rewrite ?E1, ?E2; try done.
  - by exists events.
  - intros k j Hk. rewrite E3 in Hk. specialize (Hx k j Hk). specialize (Hlen j).
    intros Hn. rewrite Hn in Hlen. destruct (view (store m) j); simpl in *; [done|lia].
  - intros j q'. rewrite E4. apply (track_seq (with_store m s)); simpl.
    + by apply law_valid.
    + by eexists.
    + intros i p Hp. specialize (Hq i p Hp). specialize (Hlen i). lia.
Qed.

(** A successful create ends a command, with the key it was indexed under. *)
Lemma finish_create m key events ctx s id envs cmd label :
  MInv m -> handle arm zero cmd = Ok events ->
  es_create St (store m) events ctx = (s, Ok (id, envs)) ->
  match key with Some k => index m !! k = None | None => True end ->
  let m1 := match key with Some k => or_insert (with_store m s) k id | None => with_store m s end in
  let m' := publish_or_trace (track m1 id envs) envs label in
  view (store m) id = [] /\ committed m m' id cmd ctx envs /\ MInv m'
  /\ index m' = match key with Some k => <[k := id]> (index m) | None => index m end.
Proof.
  intros [HI Hx Hq] Hh Ha Hkey m1 m'.
  destruct (law_create _ _ _ _ _ HI Ha) as [HI' (Hne&Hnil&Hv&Ho&Hst)].
  assert (E : store m1 = s /\ bus m1 = bus m /\ next_seq m1 = next_seq m
    /\ index m1 = match key with Some k => <[k := id]> (index m) | None => index m end).
  { unfold m1, or_insert. destruct key as [k|]; simpl; [|done]. by rewrite Hkey. }
  destruct E as (E1&E2&E3&E4).
  destruct (publish_fields (track m1 id envs) envs label) as (F1&F2&F3&F4).
  fold m' in F1, F2, F3, F4.
  destruct (track_fields m1 id envs) as (G1&G2&G3&_).
  rewrite G1, E1 in F1. rewrite G2, E2 in F2. rewrite G3, E4 in F3.
  assert (Henvs : envs <> []) by by eapply stamped_nonempty.
  assert (Hlen : forall j, (length (view (store m) j) <= length (view s j))%nat).
  { intros j. destruct (decide (j = id)) as [->|?]; [rewrite Hnil; simpl; lia|by rewrite Ho]. }
  split_and!; [done|split|split|done]; rewrite ?F1, ?F2; try done.
  - exists events. rewrite Hnil. done.
  - by rewrite Hnil.
  - intros k j Hk. destruct (decide (j = id)) as [->|Hj]; [by rewrite Hv|]. rewrite Ho by done.
    rewrite F3 in Hk. destruct key as [k'|]; [|by apply (Hx k)].
    apply lookup_insert_Some in Hk as [[_ ?]|[_ Hk]]; [done|by apply (Hx k)].
  - intros j q'. rewrite F4. rewrite <- E1. apply (track_seq m1); rewrite E1.
    + by apply law_valid.
    + exists []. by rewrite Hv.
    + intros i p. rewrite E3. intros Hp. specialize (Hq i p Hp). specialize (Hlen i). lia.
Qed.

(** A failing store write ends a command with the store's error. *)
Lemma finish_failed m s mode cmd ctx e :
  MInv m -> Inv s ->
  (forall j, view s j = view (store m) j) \/ ~ definite e /\ wrote m s mode cmd ctx ->
  MInv (with_store m s) /\ failed m (with_store m s) mode cmd ctx (from_store_error arm e).
Proof.
  intros Hm HI Hw. assert (Hf : failed m (with_store m s) mode cmd ctx (from_store_error arm e)).
  { split; simpl; try done. destruct Hw as [?|[Hn Hw]]; [by left|right]. split; [|done].
    destruct (definite_or_indeterminate e) as [?|[b ->]]; [done|by exists b]. }
  split; [|done]. by eapply MInv_failed.
Qed.

Lemma create_failed m mode events ctx s e cmd :
  MInv m -> handle arm zero cmd = Ok events -> es_create St (store m) events ctx = (s, Err e) ->
  (forall id, view (store m) id = [] -> target m mode id) ->
  MInv (with_store m s) /\ failed m (with_store m s) mode cmd ctx (from_store_error arm e).
Proof.
  intros Hm Hh Hc Ht. destruct (law_create _ _ _ _ _ (mi_store _ Hm) Hc) as [HI Hv]. apply finish_failed; [done|done|].
  destruct Hv as [Hv|(Hd&id&Hnil&Ho&Hst)]; [by left|right]. split; [done|].
  exists id, events, (view s id). rewrite Hnil. split_and!; try done. by apply Ht.
Qed.

Lemma append_failed m mode id q events ctx s e cmd :
  MInv m -> target m mode id -> handle arm (fold_state (view (store m) id)) cmd = Ok events ->
  es_append St (store m) id q events ctx = (s, Err e) ->
  MInv (with_store m s) /\ failed m (with_store m s) mode cmd ctx (from_store_error arm e).
Proof.
  intros Hm Ht Hh Ha. destruct (law_append _ _ _ _ _ _ _ (mi_store _ Hm) Ha) as [HI Hv]. apply finish_failed; [done|done|].
  destruct Hv as [Hv|(Hd&Ho&envs&Hw&Hst)]; [by left|right]. split; [done|]. by exists id, events, envs.
Qed.

Lemma MInv_load m s :
  MInv m -> Inv s -> (forall j, view s j = view (store m) j) -> MInv (with_store m s).
Proof. intros Hm HI Hv. apply (MInv_grown m); try done. intros j. simpl. by rewrite Hv. Qed.

(** A commit after a load that changed no view. *)
Lemma committed_after m s m' id cmd ctx envs :
  (forall j, view s j = view (store m) j) ->
  committed (with_store m s) m' id cmd ctx envs -> committed m m' id cmd ctx envs.
Proof.
  intros Hv [He Hw Ho Hb]. cbn [store with_store bus] in *. split; rewrite <- ?Hv; try done.
  intros j Hj. rewrite <- Hv. by apply Ho.
Qed.

(** Where a command in a given mode writes, and what it indexes. *)
Definition routed m m' (mode : PersistMode) (id : AggregateId) : Prop :=
  match mode with
  | Create => view (store m) id = [] /\ index m' = index m
  | CreateOrAppend k =>
      match index m !! k with
      | Some i => id = i /\ index m' = index m
      | None => view (store m) id = [] /\ index m' = <[k := id]> (index m)
      end
  | AppendStrict k => index m !! k = Some id /\ index m' = index m
  end.

(** The outcome of one command. *)
Definition outcome m m' (mode : PersistMode) (cmd : Cmd) (ctx : CorrelationContext)
    (r : result unit ErrT) : Prop :=
  match r with
  | Ok _ => exists id envs, routed m m' mode id /\ committed m m' id cmd ctx envs
  | Err e => failed m m' mode cmd ctx e
  end.

Lemma run_create_outcome m cmd ctx label m' r :
  MInv m -> run_create m cmd ctx label = (m', r) -> MInv m' /\ outcome m m' Create cmd ctx r.
Proof.
  intros Hm. unfold run_create, create_fresh.
  destruct (handle arm zero cmd) as [events|e] eqn:Hh.
  2:{ intros [= <- <-]. split; [done|apply failed_same]. }
  destruct (es_create St (store m) events ctx) as [s [[id envs]|e]] eqn:Hc; intros [= <- <-].
  - destruct (finish_create m None events ctx s id envs cmd label Hm Hh Hc I) as (Hn&Hco&HI&Hx).
    split; [done|]. exists id, envs. done.
  - by eapply create_failed.
Qed.

Lemma run_create_or_append_outcome m key cmd ctx label m' r :
  MInv m -> run_create_or_append m key cmd ctx label = (m', r) ->
  MInv m' /\ outcome m m' (CreateOrAppend key) cmd ctx r.
Proof.
  intros Hm. unfold run_create_or_append, lookup. simpl.
  destruct (index m !! key) as [id|] eqn:Hk; simpl.
  - destruct (es_load St (store m) id) as [s rl] eqn:Hl.
    pose proof Hm as [HI Hx Hq]. destruct (law_load _ _ _ _ HI Hl) as (HIs&Hv&Hok).
    pose proof (MInv_load m s Hm HIs Hv) as Hms.
    destruct rl as [l|e]; simpl.
    2:{ intros [= <- <-]. split; [done|by apply failed_views]. }
    specialize (Hok l eq_refl). subst l.
    destruct (last (view (store m) id)) as [env|] eqn:Hlast; simpl.
    2:{ apply last_None in Hlast. by destruct (Hx key id Hk). }
    destruct (handle arm _ cmd) as [events|e] eqn:Hh.
    2:{ intros [= <- <-]. split; [done|by apply failed_views]. }
    rewrite <- Hv in Hh.
    destruct (es_append St s id (sequence env) events ctx) as [s2 [envs|e]] eqn:Ha; intros [= <- <-].
    + destruct (finish_append (with_store m s) id (sequence env) events ctx s2 envs cmd label Hms Hh Ha)
        as (Hco&HI'&Hix).
      split; [done|]. exists id, envs. split; [unfold routed; by rewrite Hk|]. by eapply committed_after.
    + destruct (append_failed (with_store m s) (CreateOrAppend key) id (sequence env) events ctx s2 e cmd)
        as [? ?]; try done; [by unfold target; simpl; rewrite Hk|]. split; [done|]. by eapply failed_after.
  - destruct (handle arm _ cmd) as [events|e] eqn:Hh.
    2:{ intros [= <- <-]. split; [done|apply failed_same]. }
    destruct (es_create St (store m) events ctx) as [s [[id envs]|e]] eqn:Hc; intros [= <- <-].
    + destruct (finish_create m (Some key) events ctx s id envs cmd label Hm Hh Hc Hk) as (Hn&Hco&HI&Hx).
      split; [done|]. exists id, envs. unfold routed. by rewrite Hk.
    + eapply create_failed; try done. intros id. unfold target. by rewrite Hk.
Qed.

Lemma run_append_strict_outcome m key cmd ctx label m' r :
  MInv m -> run_append_strict m key cmd ctx label = (m', r) ->
  MInv m' /\ outcome m m' (AppendStrict key) cmd ctx r.
Proof.
  intros Hm. unfold run_append_strict, lookup, append_and_track.
  destruct (index m !! key) as [id|] eqn:Hk.
  2:{ intros [= <- <-]. split; [done|apply failed_same]. }
  destruct (es_load St (store m) id) as [s rl] eqn:Hl.
  pose proof Hm as [HI Hx Hq]. destruct (law_load _ _ _ _ HI Hl) as (HIs&Hv&Hok).
  pose proof (MInv_load m s Hm HIs Hv) as Hms.
  destruct rl as [l|e].
  2:{ intros [= <- <-]. split; [done|by apply failed_views]. }
  specialize (Hok l eq_refl). subst l.
  destruct (last (view (store m) id)) as [env|] eqn:Hlast.
  2:{ intros [= <- <-]. split; [done|by apply failed_views]. }
  destruct (handle arm _ cmd) as [events|e] eqn:Hh.
  2:{ intros [= <- <-]. split; [done|by apply failed_views]. }
  rewrite <- Hv in Hh. cbn [store with_store].
  destruct (es_append St s id (sequence env) events ctx) as [s2 [envs|e]] eqn:Ha; intros [= <- <-].
  - destruct (finish_append (with_store m s) id (sequence env) events ctx s2 envs cmd label Hms Hh Ha)
      as (Hco&HI'&Hix).
    split; [done|]. exists id, envs. split; [done|]. by eapply committed_after.
  - destruct (append_failed (with_store m s) (AppendStrict key) id (sequence env) events ctx s2 e cmd)
      as [? ?]; try done. split; [done|]. by eapply failed_after.
Qed.

Lemma handle_one_outcome m cmd ctx m' r :
  MInv m -> handle_one m cmd ctx = (m', r) ->
  MInv m' /\ outcome m m' (persist_mode arm cmd) cmd ctx r.
Proof.
  intros Hm. unfold handle_one. destruct (persist_mode arm cmd); intros Hr.
  - by eapply run_create_outcome.
  - by eapply run_create_or_append_outcome.
  - by eapply run_append_strict_outcome.
Qed.

(** Indexed keys are never remapped. *)
Lemma handle_one_index m cmd ctx m' r :
  MInv m -> handle_one m cmd ctx = (m', r) -> index m ⊆ index m'.
Proof.
  intros Hm Hr. destruct (handle_one_outcome m cmd ctx m' r Hm Hr) as [_ Ho].
  destruct r as [u|e]; [|by rewrite (fa_index _ _ _ _ _ _ Ho)].
  destruct Ho as (id&envs&Hroute&_). destruct (persist_mode arm cmd) as [|k|k]; simpl in Hroute.
  - by destruct Hroute as [_ ->].
  - destruct (index m !! k) eqn:Hk; [by destruct Hroute as [_ ->]|].
    destruct Hroute as [_ ->]. by apply insert_subseteq.
  - by destruct Hroute as [_ ->].
Qed.

(** *** A task that stops while it handles a command *)

(** [m'] has the index and the tracker of [m]. *)
Definition recorded m m' : Prop := index m' = index m /\ next_seq m' = next_seq m.

Lemma persisted_cases m w label m' :
  m' ∈ persisted m w label ->
  let mf := match snd w with Ok envs => publish_or_trace (fst w) envs label | Err _ => fst w end in
  store m' = store mf /\ (recorded m m' \/ recorded mf m').
Proof using Type.
  destruct w as [m1 [envs|e]]; unfold persisted; simpl.
  - destruct (publish_fields m1 envs label) as (E1&_&E3&E4). unfold recorded.
    intros [->|[->|[->|[]%elem_of_nil]%elem_of_cons]%elem_of_cons]%elem_of_cons; simpl; rewrite ?E1, ?E3, ?E4; auto.
  - intros [->|[]%elem_of_nil]%elem_of_cons. by split; [|left].
Qed.

(** A stage holds what [m] held, or has the histories the whole command leaves. *)
Lemma stage_cases m cmd ctx m' :
  m' ∈ stages m cmd ctx ->
  let mf := fst (handle_one m cmd ctx) in
  (m' = m \/ exists id r, es_load St (store m) id = (store m', r) /\ recorded m m')
  \/ (store m' = store mf /\ (recorded m m' \/ recorded mf m')).
Proof using Type.
  unfold stages, handle_one. cbv zeta. intros [->|Hin]%elem_of_cons; [by left; left|].
  destruct (persist_mode arm cmd) as [|key|key].
  - unfold run_create. destruct (handle arm zero cmd) as [events|e]; [|by apply elem_of_nil in Hin].
    apply persisted_cases in Hin. right. by destruct (create_fresh m None events ctx) as [m1 [envs|e]].
  - unfold run_create_or_append. destruct (load_envelopes_or_empty m (lookup m key)) as [m1 r] eqn:Hl.
    assert (Hload : m1 = m \/ exists id r, es_load St (store m) id = (store m1, r) /\ recorded m m1).
    { unfold load_envelopes_or_empty in Hl. destruct (lookup m key) as [id|]; [|injection Hl as <- _; by left].
      destruct (es_load St (store m) id) as [s r0] eqn:El. injection Hl as <- _. right. by exists id, r0. }
    assert (Hrec : recorded m m1) by (destruct Hload as [->|(?&?&_&?)]; done).
    apply elem_of_cons in Hin as [->|Hin]; [by left|]. destruct r as [[envelopes last_seq]|e]; [|by apply elem_of_nil in Hin].
    destruct (handle arm (fold_state envelopes) cmd) as [events|e]; [|by apply elem_of_nil in Hin].
    apply persisted_cases in Hin. right.
    destruct (create_or_append m1 key (lookup m key) last_seq events ctx) as [m2 [envs|e]]; simpl in *;
      destruct Hin as [Hst Hin]; (split; [done|]); unfold recorded in *; destruct Hrec as [<- <-]; done.
  - unfold run_append_strict. destruct (lookup m key) as [id|]; [|by apply elem_of_nil in Hin].
    destruct (es_load St (store m) id) as [s r] eqn:El.
    apply elem_of_cons in Hin as [->|Hin]; [left; right; by exists id, r|].
    destruct r as [envelopes|e]; [|by apply elem_of_nil in Hin].
    destruct (last envelopes) as [env|]; [|by apply elem_of_nil in Hin].
    destruct (handle arm (fold_state envelopes) cmd) as [events|e]; [|by apply elem_of_nil in Hin].
    apply persisted_cases in Hin. right.
    by destruct (append_and_track (with_store m s) id (sequence env) events ctx) as [m2 [envs|e]].
Qed.

Lemma routed_target m m' mode id : routed m m' mode id -> target m mode id.
Proof using Type.
  unfold routed, target. destruct mode as [|k|k]; [by intros []| |by intros []]. by destruct (index m !! k); intros [].
Qed.

(** The histories after a command: none changed, or it wrote all its events. *)
Lemma outcome_wrote m m' mode cmd ctx r :
  outcome m m' mode cmd ctx r ->
  (forall j, view (store m') j = view (store m) j) \/ wrote m (store m') mode cmd ctx.
Proof using Type.
  destruct r as [u|e]; simpl.
  - intros (id&envs&Hr&[(events&Hh&Hst) Hv Ho _]). right. exists id, events, envs.
    split_and!; try done. by eapply routed_target.
  - intros [_ _ _ _ [?|[_ ?]]]; auto.
Qed.

Lemma stage_ok m cmd ctx m' :
  MInv m -> m' ∈ stages m cmd ctx ->
  MInv m' /\ index m ⊆ index m'
  /\ ((forall j, view (store m') j = view (store m) j) \/ wrote m (store m') (persist_mode arm cmd) cmd ctx).
Proof.
  intros Hm Hin. destruct (handle_one m cmd ctx) as [mf r] eqn:Hr.
  destruct (handle_one_outcome m cmd ctx mf r Hm Hr) as [Hmf Ho]. pose proof (handle_one_index m cmd ctx mf r Hm Hr) as Hix.
  apply outcome_wrote in Ho. apply stage_cases in Hin. rewrite Hr in Hin. cbn [fst] in Hin.
  destruct Hin as [[->|(id&rl&Hl&Hi&Hs)]|[Hst Hrec]].
  - split_and!; try done. by left.
  - destruct (law_load _ _ _ _ (mi_store _ Hm) Hl) as (HI&Hv&_). split_and!; [|by rewrite Hi|by left].
    apply (MInv_grown m); try done. intros j. by rewrite Hv.
  - rewrite Hst. split_and!; [| |done].
    + destruct Hrec as [[Hi Hs]|[Hi Hs]]; [apply (MInv_grown m)|apply (MInv_grown mf)]; rewrite ?Hst; try done; try apply Hmf.
      intros j. destruct Ho as [Ho|Ho]; [by rewrite Ho|by eapply wrote_grown].
    + destruct Hrec as [[Hi _]|[Hi _]]; by rewrite Hi.
Qed.

(** The commands of a list, one after the other. *)
Fixpoint run_all m (cmds : list (nat * Cmd * CorrelationContext)) : Merger :=
  match cmds with
  | [] => m
  | (_, cmd, ctx) :: rest => run_all (fst (handle_one m cmd ctx)) rest
  end.

Lemma run_all_app m l1 l2 : run_all m (l1 ++ l2) = run_all (run_all m l1) l2.
Proof using Type. revert m. induction l1 as [|[[t c] x] l1 IH]; intros m; simpl; [done|]. apply IH. Qed.

(** [m'] is [m], or what the first of the dropped commands left of its handling. *)
Definition ended m (dropped : list (nat * Cmd * CorrelationContext)) m' : Prop :=
  m' = m \/ match dropped with (_, cmd, ctx) :: _ => m' ∈ stages m cmd ctx | [] => False end.

(** What the system keeps: the commands handled so far, in the order in which
    they were accepted, are exactly those whose results were delivered. *)
Record sys_inv (m0 : Merger) (y : System) : Prop := {
  si_split : exists handled dropped,
    accepted y = handled ++ dropped /\ ended (run_all m0 handled) dropped (merger y)
    /\ (running y = true -> dropped = queue y /\ merger y = run_all m0 handled)
    /\ (running y = false -> queue y = []
         /\ forall t cmd ctx, (t, cmd, ctx) ∈ dropped -> deliveries y !! t = Some ReplyLost)
    /\ (forall pre t cmd ctx post, handled = pre ++ (t, cmd, ctx) :: post ->
          deliveries y !! t = Some (Replied (snd (handle_one (run_all m0 pre) cmd ctx))));
  si_fresh t cmd ctx : (t, cmd, ctx) ∈ accepted y -> (t < next_ticket y)%nat;
  si_nodup : NoDup (map (fun '(t, _, _) => t) (accepted y));
}.

Lemma deliver_lost (d : gmap nat Delivery) q t :
  (t ∈ map (fun '(t, _, _) => t) q ->
   foldr (fun '(t, _, _) d => <[t := ReplyLost]> d) d (q : list (nat * Cmd * CorrelationContext)) !! t
   = Some ReplyLost)
  /\ (t ∉ map (fun '(t, _, _) => t) q ->
      foldr (fun '(t, _, _) d => <[t := ReplyLost]> d) d q !! t = d !! t).
Proof using Type.
  clear -d q t. induction q as [|[[t' c] x] q IH]; simpl; [set_solver|].
  destruct (decide (t = t')) as [->|Hne].
  - rewrite lookup_insert_eq. set_solver.
  - rewrite lookup_insert_ne by done. set_solver.
Qed.

Lemma ticket_in q t cmd ctx :
  (t, cmd, ctx) ∈ (q : list (nat * Cmd * CorrelationContext)) -> t ∈ map (fun '(t, _, _) => t) q.
Proof using Type. intros H. by apply (list_elem_of_fmap_2 (fun '(t, _, _) => t)) in H. Qed.

Lemma sys_inv_send m0 y cmd ctx :
  sys_inv m0 y -> running y = true ->
  sys_inv m0 (mkSystem (merger y) (queue y ++ [(next_ticket y, cmd, ctx)]) true (deliveries y)
                (S (next_ticket y)) (accepted y ++ [(next_ticket y, cmd, ctx)])).
Proof using Type.
  intros [(handled&dropped&Ha&_&Hr&_&Hd) Hf Hn] Hrun. destruct (Hr Hrun) as [-> Hm]. split; cbn [accepted next_ticket].
  - exists handled, (queue y ++ [(next_ticket y, cmd, ctx)]).
    rewrite Ha, <- app_assoc. split_and!; try done. by left.
  - intros t c x [H|H]%elem_of_app; [apply Hf in H; lia|].
    apply list_elem_of_singleton in H. injection H as -> -> ->. lia.
  - rewrite map_app. simpl. apply NoDup_app. split_and!; [done| |apply NoDup_singleton].
    intros t Ht. apply list_elem_of_fmap_1 in Ht as ([[t' c] x]&->&H). apply Hf in H.
    rewrite list_elem_of_singleton. lia.
Qed.

Lemma sys_inv_handle m0 y t cmd ctx rest m r :
  sys_inv m0 y -> running y = true -> queue y = (t, cmd, ctx) :: rest ->
  handle_one (merger y) cmd ctx = (m, r) ->
  sys_inv m0 (mkSystem m rest true (<[t := Replied r]> (deliveries y)) (next_ticket y) (accepted y)).
Proof using Type.
  intros [(handled&dropped&Ha&_&Hr&_&Hd) Hf Hn] Hrun Hq Ho. destruct (Hr Hrun) as [-> Hm].
  rewrite Hq in Ha.
  assert (Ht : t ∉ map (fun '(t, _, _) => t) handled).
  { rewrite Ha, map_app, NoDup_app in Hn. destruct Hn as (_&Hn&_). intros Hin.
    apply (Hn t Hin). by left. }
  assert (Hm' : m = run_all m0 (handled ++ [(t, cmd, ctx)])) by (rewrite run_all_app, <- Hm; simpl; by rewrite Ho).
  split; [|done..]. exists (handled ++ [(t, cmd, ctx)]), rest. cbn [accepted merger running queue deliveries].
  split_and!; try done.
  - by rewrite Ha, <- app_assoc.
  - by left.
  - intros pre t' c x post Heq. destruct post as [|z post _] using rev_ind.
    + apply app_inj_tail in Heq as [<- [= <- <- <-]]. by rewrite lookup_insert_eq, <- Hm, Ho.
    + rewrite app_comm_cons, app_assoc in Heq. apply app_inj_tail in Heq as [Heq _].
      rewrite lookup_insert_ne.
      * by eapply Hd.
      * intros ->. apply Ht. rewrite Heq. eapply ticket_in, elem_of_app. right. by left.
Qed.

Lemma sys_step_inv m0 y y' : sys_inv m0 y -> sys_step y y' -> sys_inv m0 y'.
Proof using Type.
  intros Hy Hs. destruct Hs as [cmd ctx Hrun _|Hrun|t cmd ctx rest m r Hrun Hq Ho|m Hrun Hend].
  - by apply sys_inv_send.
  - destruct Hy as [(handled&dropped&Ha&Hm&_&Hst&Hd) Hf Hn]. destruct (Hst Hrun) as [Hq Hl].
    assert (Hfr : forall t cmd ctx, (t, cmd, ctx) ∈ accepted y -> next_ticket y <> t).
    { intros t cmd ctx H. apply Hf in H. lia. }
    split; cbn [accepted next_ticket]; [|intros t c x H; apply Hf in H; lia|done].
    exists handled, dropped. cbn [accepted merger running queue deliveries]. split_and!; try done.
    + intros _. split; [done|]. intros t c x H. rewrite lookup_insert_ne; [by eapply Hl|].
      apply (Hfr t c x). rewrite Ha. apply elem_of_app. by right.
    + intros pre t c x post Heq. rewrite lookup_insert_ne; [by eapply Hd|].
      apply (Hfr t c x). rewrite Ha, Heq. apply elem_of_app. left. apply elem_of_app. right. by left.
  - by eapply sys_inv_handle.
  - destruct Hy as [(handled&dropped&Ha&_&Hr&_&Hd) Hf Hn]. destruct (Hr Hrun) as [-> Hm].
    split; [|done..]. exists handled, (queue y). cbn [accepted merger running queue deliveries].
    split_and!; try done.
    + rewrite <- Hm. destruct Hend as [->|(t&cmd&ctx&rest&Hq&Hin)]; [by left|right]. by rewrite Hq.
    + intros _. split; [done|]. intros t c x H. apply deliver_lost. by eapply ticket_in.
    + intros pre t c x post Heq. rewrite (proj2 (deliver_lost _ _ _)); [by eapply Hd|].
      rewrite Ha, map_app, NoDup_app in Hn. destruct Hn as (_&Hn&_). apply Hn.
      rewrite Heq. eapply ticket_in, elem_of_app. right. by left.
Qed.

Definition sys_init (m0 : Merger) : System := mkSystem m0 [] true ∅ 0 [].

Lemma sys_init_inv m0 : sys_inv m0 (sys_init m0).
Proof using Type.
  split; simpl; [|intros *; by rewrite elem_of_nil|constructor].
  exists [], []. split_and!; try done; [by left|]. intros [|]; done.
Qed.

(** ** Properties *)

(** C1: One command through the merger, in any mode, over any store that keeps
    its contract.  On success it wrote, at the end of one stream and nowhere
    else, the events the arm computed from the fold of that stream's whole
    history, published them, and the stream is the one its mode routes to (a new
    one for [Create], the indexed one, or a new one that is indexed under the
    key).  On failure nothing was published, indexed or tracked, and no history
    changed, unless the store reported that it could not tell: then all of the
    command's events are there or none.  The routing index and the sequence tracker
    stay consistent with the store in both cases. *)
Theorem merger_handle_one m cmd ctx m' r :
  MInv m -> handle_one m cmd ctx = (m', r) ->
  MInv m' /\ outcome m m' (persist_mode arm cmd) cmd ctx r /\ index m ⊆ index m'.
Proof.
  intros Hm Hr. destruct (handle_one_outcome m cmd ctx m' r Hm Hr) as [? ?].
  split_and!; try done. by eapply handle_one_index.
Qed.

(** A strict append whose key is not indexed returns the arm's own error
    and leaves the merger, its store and its bus as they were. *)
Theorem append_strict_miss m cmd ctx key :
  persist_mode arm cmd = AppendStrict key -> index m !! key = None ->
  handle_one m cmd ctx = (m, Err (missing_key_error arm key)).
Proof using Type.
  intros Hmode Hk. unfold handle_one. rewrite Hmode. unfold run_append_strict, lookup. by rewrite Hk.
Qed.

Lemma run_all_inv m cmds : MInv m -> MInv (run_all m cmds).
Proof.
  revert m. induction cmds as [|[[t cmd] ctx] cmds IH]; intros m Hm; simpl; [done|]. apply IH.
  destruct (handle_one m cmd ctx) as [m1 r] eqn:Hr. by eapply handle_one_outcome.
Qed.

(** C6: The merger serialises: in every reachable state of the channel and its
    task, the merger has run a prefix of the accepted commands one at a time in the
    order of acceptance, and each of those callers is replied the result of its
    own command in that order.  The task may stop at any time: the command it was
    handling has then written all its events or none, in the stream it is routed
    to, and index and tracker still agree with the store; the caller of that
    command and of every later one sees the indeterminate outcome, never a definite
    failure. *)
Theorem merger_serialises m0 y :
  MInv m0 -> rtc sys_step (sys_init m0) y ->
  exists handled dropped,
    accepted y = handled ++ dropped
    /\ (merger y = run_all m0 handled
        \/ running y = false
           /\ exists t cmd ctx rest, dropped = (t, cmd, ctx) :: rest
              /\ ((forall j, view (store (merger y)) j = view (store (run_all m0 handled)) j)
                  \/ wrote (run_all m0 handled) (store (merger y)) (persist_mode arm cmd) cmd ctx))
    /\ MInv (merger y)
    /\ (forall pre t cmd ctx post, handled = pre ++ (t, cmd, ctx) :: post ->
          dispatch <$> (deliveries y !! t)
          = Some (snd (handle_one (run_all m0 pre) cmd ctx)))
    /\ (running y = false -> forall t cmd ctx, (t, cmd, ctx) ∈ dropped ->
          exists b, dispatch <$> (deliveries y !! t)
                    = Some (Err (from_store_error arm (Indeterminate b)))).
Proof.
  intros Hm0 Hs. assert (Hi : sys_inv m0 y).
  { eapply (rtc_invariant _ _ (sys_step_inv m0)); [exact Hs|apply sys_init_inv]. }
  destruct Hi as [(handled&dropped&Ha&Hm&Hr&Hl&Hd) _ _]. exists handled, dropped.
  pose proof (run_all_inv m0 handled Hm0) as Hinv.
  assert (Hend : merger y = run_all m0 handled \/ running y = false
    /\ exists t cmd ctx rest, dropped = (t, cmd, ctx) :: rest /\ merger y ∈ stages (run_all m0 handled) cmd ctx).
  { destruct Hm as [?|Hm]; [by left|]. destruct (running y); [left; by apply Hr|right].
    destruct dropped as [|[[t cmd] ctx] rest]; [done|]. split; [done|]. by exists t, cmd, ctx, rest. }
  split_and!; try done.
  - destruct Hend as [?|(Hrun&t&cmd&ctx&rest&->&Hin)]; [by left|right]. split; [done|].
    exists t, cmd, ctx, rest. split; [done|]. by apply stage_ok.
  - destruct Hend as [->|(_&t&cmd&ctx&rest&_&Hin)]; [done|]. by eapply stage_ok.
  - intros pre t cmd ctx post Heq. by rewrite (Hd _ _ _ _ _ Heq).
  - intros Hrun t cmd ctx H. destruct (Hl Hrun) as [_ Hlost]. rewrite (Hlost _ _ _ H). by eexists.
Qed.
End Merger.

(** *** Witnesses: a counter per key over the in-memory store *)

(** The command is the key and the amount to add; a negative amount is
    rejected. *)
Definition counter_arm : MergerArm Z Z (string * Z) StoreError :=
  mkArm (fun e => e) (fun cmd => if snd cmd =? 0 then AppendStrict (fst cmd) else CreateOrAppend (fst cmd))
    (fun _ cmd => if snd cmd <? 0 then Err (StoreLocked "negative") else Ok [snd cmd])
    (fun _ => "Added") (fun _ => StoreLocked "missing").

Definition counter_merger : Merger (InMemory.store Z) (FakeBus Z) :=
  mkMerger (InMemory.store Z) (FakeBus Z) (InMemory.new counting_world) [] ∅ ∅ [].

Lemma counter_MInv :
  MInv (InMemory.store Z) (FakeBus Z) InMemory.Inv InMemory.stream_of counter_merger.
Proof. split; simpl; [apply InMemory.new_inv, counting_v7|by intros k id ..]. Qed.

Definition handle_counter := handle_one 0 Z.add counter_arm (InMemory.store Z) (FakeBus Z).

Lemma merger_handle_one_witness :
  let '(m', r) := handle_counter counter_merger ("k", 5) Correlation.none in
  r = Ok tt /\ MInv (InMemory.store Z) (FakeBus Z) InMemory.Inv InMemory.stream_of m'
  /\ index _ _ counter_merger ⊆ index _ _ m'.
Proof.
  destruct (handle_counter counter_merger ("k", 5) Correlation.none) as [m' r] eqn:Hr.
  destruct (merger_handle_one 0 Z.add counter_arm (InMemory.store Z) (FakeBus Z)
    InMemory.Inv InMemory.stream_of counter_merger ("k", 5) Correlation.none m' r
    counter_MInv Hr) as (?&_&?).
  split_and!; [|assumption|assumption].
  pose proof (f_equal snd Hr) as Hsnd. vm_compute in Hsnd. by rewrite <- Hsnd.
Defined.

Lemma append_strict_miss_witness :
  handle_counter counter_merger ("k", 0) Correlation.none
  = (counter_merger, Err (StoreLocked "missing")).
Proof.
  apply (append_strict_miss 0 Z.add counter_arm (InMemory.store Z) (FakeBus Z)
           counter_merger ("k", 0) Correlation.none "k"); reflexivity.
Defined.

(** Two callers send; the first is handled, and the task stops when it has written
    the event of the second and nothing more. *)
Definition after_first : Merger (InMemory.store Z) (FakeBus Z) :=
  fst (handle_counter counter_merger ("k", 5) Correlation.none).
Definition cut_short : Merger (InMemory.store Z) (FakeBus Z) :=
  default after_first
    (stages 0 Z.add counter_arm (InMemory.store Z) (FakeBus Z) after_first ("k", 6) Correlation.none !! 2%nat).

Lemma counter_run :
  exists y, rtc (sys_step 0 Z.add counter_arm (InMemory.store Z) (FakeBus Z))
              (sys_init _ _ counter_merger) y
            /\ running _ _ y = false /\ length (accepted _ _ y) = 2%nat /\ merger _ _ y = cut_short.
Proof.
  eexists. split; [|split; [|split]].
  - eapply rtc_l; [apply (sys_send _ _ _ _ _ _ ("k", 5) Correlation.none); vm_compute; reflexivity|].
    eapply rtc_l; [apply (sys_send _ _ _ _ _ _ ("k", 6) Correlation.none); vm_compute; reflexivity|].
    eapply rtc_l; [eapply sys_handle; reflexivity|].
    eapply rtc_l; [|apply rtc_refl]. apply (sys_stop _ _ _ _ _ _ cut_short); [reflexivity|]. right.
    exists 1%nat, ("k"%string, 6), Correlation.none, []. split; [reflexivity|].
    apply (list_elem_of_lookup_2 _ 2). reflexivity.
  - reflexivity.
  - reflexivity.
  - reflexivity.
Qed.

Lemma merger_serialises_witness :
  exists (y : @System Z (string * Z) StoreError (InMemory.store Z) (FakeBus Z)) handled dropped,
    running _ _ y = false /\ length (accepted _ _ y) = 2%nat
    /\ map payload (InMemory.stream_of (store _ _ (merger _ _ y)) (AggregateId_new 1)) = [5; 6]
    /\ accepted _ _ y = handled ++ dropped
    /\ MInv (InMemory.store Z) (FakeBus Z) InMemory.Inv InMemory.stream_of (merger _ _ y).
Proof.
  destruct counter_run as (y&Hs&Hr&Hlen&Hcut).
  destruct (merger_serialises 0 Z.add counter_arm (InMemory.store Z) (FakeBus Z) InMemory.Inv InMemory.stream_of
              _ _ counter_MInv Hs) as (handled&dropped&Ha&_&HI&_).
  exists y, handled, dropped. split; [assumption|]. split; [assumption|].
  split; [rewrite Hcut; vm_compute; reflexivity|]. split; assumption.
Defined.
