(* ===== verification/Agent.v ===== *)
(** * The agent composition layer (crate [cherry-pit-app])

    Agent errors, dead letters, the policy-output dispatcher ([dispatch.rs]),
    the in-process bus ([event_bus.rs]) and the dispatch channel of [App::run]
    ([app.rs]).  [W] is the state the caller's closures and sink act on (the
    gateway and what lies behind it). *)

From S2P Require Import Prelude Core Store.
Local Open Scope result_scope.

(** ** [AgentError] *)

Inductive AgentError :=
| Policy (e : Boxed)
| DeadLetter (e : Boxed)
| Store (e : StoreError)
| Bus (e : BusError).

Definition AgentError_category (e : AgentError) : ErrorCategory :=
  match e with
  | Policy _ | DeadLetter _ => Terminal
  | Store e => StoreError_category e
  | Bus e => BusError_category e
  end.

Definition AgentError_display (show_uuid : Uuid -> string) (e : AgentError) : string :=
  match e with
  | Policy e => "policy dispatch error: " +:+ Boxed_display show_uuid e
  | DeadLetter e => "dead-letter sink error: " +:+ Boxed_display show_uuid e
  | Store e => "store error: " +:+ StoreError_display show_uuid e
  | Bus e => "bus error: " +:+ BusError_display show_uuid e
  end.

(** ** Dead letters *)

Record DeadLetterRecord := mkDeadLetterRecord {
  dl_event_id : Uuid;
  dl_correlation_id : option Uuid;
  dl_causation_id : option Uuid;
  error_category : ErrorCategory;
  dl_output_type : string;
  dl_policy_identity : string;
  error_message : string;
}.

(** The log records of the crate, by the call that emits them. *)
Inductive LogRecord :=
| LogDeadLetter (r : DeadLetterRecord)
| LogSinkFailed (error : Boxed) (policy_identity output_type : string)
| LogDispatchFailed (error : AgentError) (event_id : Uuid)
| LogChannelFull (event_id : Uuid) (capacity : Z)
| LogChannelClosed (event_id : Uuid).

(** [TracingDeadLetterSink]: one error record, never fails.  The state is the
    log. *)
Definition TracingDeadLetterSink_record (log : list LogRecord) (r : DeadLetterRecord)
    : list LogRecord * result unit Boxed := (log ++ [LogDeadLetter r], Ok tt).

(** ** The dispatcher *)

(** [correlation_for]. *)
Definition correlation_for (envelope_correlation_id : option Uuid) (event_id : Uuid)
    : CorrelationContext :=
  match envelope_correlation_id with
  | Some corr => Correlation.new corr event_id
  | None => Correlation.new event_id event_id
  end.

Section Dispatch.
Context {Ev W : Type} (show_uuid : Uuid -> string).
Context (sink_record : W -> DeadLetterRecord -> W * result unit Boxed).

(** [PolicyAdapter]: a policy with its dispatch closure. *)
Record PolicyAdapter := mkPolicyAdapter {
  Output : Type;
  react : EventEnvelope Ev -> list Output;
  closure : Output -> W -> CorrelationContext -> W * result unit AgentError;
  policy_identity : string;
  output_type : string;
}.

(** The loop over the outputs of a policy: stops at the first error. *)
Fixpoint dispatch_outputs (a : PolicyAdapter) (w : W) (ctx : CorrelationContext)
    (outputs : list (Output a)) : W * result unit AgentError :=
  match outputs with
  | [] => (w, Ok tt)
  | output :: rest =>
      let '(w, r) := closure a output w ctx in
      match r with
      | Ok _ => dispatch_outputs a w ctx rest
      | Err e => (w, Err e)
      end
  end.

(** [ErasedPolicyDispatcher::dispatch]. *)
Definition adapter_dispatch (a : PolicyAdapter) (envelope : EventEnvelope Ev) (w : W)
    (ctx : CorrelationContext) : W * result unit AgentError :=
  dispatch_outputs a w ctx (react a envelope).

(** [route_failure]; the log holds the sink failures it absorbs. *)
Definition route_failure (w : W) (log : list LogRecord) (envelope_event_id : Uuid)
    (envelope_correlation_id envelope_causation_id : option Uuid)
    (policy_identity output_type : string) (err : AgentError)
    : W * list LogRecord * result unit AgentError :=
  let category := AgentError_category err in
  match category with
  | Retryable | ReconciliationRequired => (w, log, Err err)
  | Terminal =>
      let record := mkDeadLetterRecord envelope_event_id envelope_correlation_id
                      envelope_causation_id category output_type policy_identity
                      (AgentError_display show_uuid err) in
      let '(w, r) := sink_record w record in
      match r with
      | Err sink_err => (w, log ++ [LogSinkFailed sink_err policy_identity output_type], Ok tt)
      | Ok _ => (w, log, Ok tt)
      end
  end.

(** The loop of [dispatch_one] over the policies. *)
Fixpoint dispatch_policies (policies : list PolicyAdapter) (envelope : EventEnvelope Ev)
    (ctx : CorrelationContext) (w : W) (log : list LogRecord)
    : W * list LogRecord * result unit AgentError :=
  match policies with
  | [] => (w, log, Ok tt)
  | adapter :: rest =>
      let '(w, r) := adapter_dispatch adapter envelope w ctx in
      match r with
      | Ok _ => dispatch_policies rest envelope ctx w log
      | Err err =>
          let '(w, log, r) := route_failure w log (event_id envelope)
            (env_correlation_id envelope) (env_causation_id envelope)
            (policy_identity adapter) (output_type adapter) err in
          match r with
          | Ok _ => dispatch_policies rest envelope ctx w log
          | Err e => (w, log, Err e)
          end
      end
  end.

(** [dispatch_one]. *)
Definition dispatch_one (policies : list PolicyAdapter) (envelope : EventEnvelope Ev)
    (w : W) (log : list LogRecord) : W * list LogRecord * result unit AgentError :=
  dispatch_policies policies envelope
    (correlation_for (env_correlation_id envelope) (event_id envelope)) w log.

(** ** [App] and its dispatch channel *)

Definition DEFAULT_DISPATCH_BUFFER_CAPACITY : Z := 1024.

(** What of [App] the run loop uses; the store and the projections are slots
    it only owns. *)
Record App := mkApp {
  policies : list PolicyAdapter;
  dispatch_buffer_capacity : Z;
}.

Definition App_new : App := mkApp [] DEFAULT_DISPATCH_BUFFER_CAPACITY.

(** [with_dispatch_buffer_capacity]; [None] where the source panics. *)
Definition with_dispatch_buffer_capacity (a : App) (capacity : Z) : option App :=
  if 0 <? capacity then Some (mkApp (policies a) capacity) else None.

Definition register_policy (a : App) (p : PolicyAdapter) : App :=
  mkApp (policies a ++ [p]) (dispatch_buffer_capacity a).

Definition policy_count (a : App) : nat := length (policies a).

(** The running agent: the channel of [run] (its buffer and whether its
    sender and receiver still exist), the consumer's state and result. *)
Record Running := mkRunning {
  app : App;
  buffer : list (EventEnvelope Ev);
  sender_open : bool;
  receiver_open : bool;
  world_state : W;
  logs : list LogRecord;
  consumer_result : option (result unit AgentError);
}.

(** [enqueue_or_log]: [try_send] on the bounded channel. *)
Definition enqueue_or_log (r : Running) (envelope : EventEnvelope Ev) : Running :=
  let log l := mkRunning (app r) (buffer r) (sender_open r) (receiver_open r)
                 (world_state r) (logs r ++ [l]) (consumer_result r) in
  if negb (receiver_open r) then log (LogChannelClosed (event_id envelope))
  else if Z.of_nat (length (buffer r)) <? dispatch_buffer_capacity (app r)
  then mkRunning (app r) (buffer r ++ [envelope]) (sender_open r) true (world_state r) (logs r)
         (consumer_result r)
  else log (LogChannelFull (event_id envelope) (dispatch_buffer_capacity (app r))).

(** One iteration of the loop of [run_dispatch_consumer] on a received
    envelope: returns on an outcome that needs reconciliation, otherwise logs
    an error and continues.  A consumer that returns drops the receiver. *)
Definition consume (r : Running) (envelope : EventEnvelope Ev) (rest : list (EventEnvelope Ev))
    : Running :=
  let '(w, log, res) := dispatch_one (policies (app r)) envelope (world_state r) (logs r) in
  match res with
  | Ok _ => mkRunning (app r) rest (sender_open r) true w log None
  | Err err =>
      match AgentError_category err with
      | ReconciliationRequired => mkRunning (app r) [] (sender_open r) false w log (Some (Err err))
      | _ => mkRunning (app r) rest (sender_open r) true w
               (log ++ [LogDispatchFailed err (event_id envelope)]) None
      end
  end.

Definition run_init (a : App) (w : W) : Running := mkRunning a [] true true w [] None.

(** A policy, a closure or the sink panics while the consumer runs: the task ends,
    having changed the world to [w], and [run] wraps the join error. *)
Definition consumer_panics (r : Running) (w : W) (join_error : Boxed) : Running :=
  mkRunning (app r) [] (sender_open r) false w (logs r) (Some (Err (Store (Indeterminate join_error)))).

(** ** Specifications *)

(** The record a policy failure leaves. *)
Definition dead_letter_of (envelope : EventEnvelope Ev) (a : PolicyAdapter) (err : AgentError)
    : DeadLetterRecord :=
  mkDeadLetterRecord (event_id envelope) (env_correlation_id envelope)
    (env_causation_id envelope) Terminal (output_type a) (policy_identity a)
    (AgentError_display show_uuid err).

(** What one policy does to the world: its outputs are dispatched; a terminal
    failure is recorded once in the sink, whose own failure is only logged; any
    other failure is handed back. *)
Definition settle (envelope : EventEnvelope Ev) (ctx : CorrelationContext)
    (st : W * list LogRecord) (a : PolicyAdapter)
    : (W * list LogRecord) * option AgentError :=
  let '(w, r) := adapter_dispatch a envelope (fst st) ctx in
  match r with
  | Ok _ => ((w, snd st), None)
  | Err err =>
      if is_terminal (AgentError_category err)
      then let '(w, sr) := sink_record w (dead_letter_of envelope a err) in
           ((w, snd st ++ match sr with
                          | Ok _ => []
                          | Err e => [LogSinkFailed e (policy_identity a) (output_type a)]
                          end), None)
      else ((w, snd st), Some err)
  end.

Inductive settled (envelope : EventEnvelope Ev) (ctx : CorrelationContext) :
    list PolicyAdapter -> W * list LogRecord -> W * list LogRecord -> Prop :=
| settled_nil st : settled envelope ctx [] st st
| settled_cons a l st st1 st2 :
    settle envelope ctx st a = (st1, None) -> settled envelope ctx l st1 st2 ->
    settled envelope ctx (a :: l) st st2.

(** One round of the dispatcher's loop. *)
Lemma dispatch_policies_cons a rest envelope ctx w log :
  dispatch_policies (a :: rest) envelope ctx w log =
  match settle envelope ctx (w, log) a with
  | ((w, log), None) => dispatch_policies rest envelope ctx w log
  | ((w, log), Some err) => (w, log, Err err)
  end.
Proof.
  simpl. unfold settle. simpl. destruct (adapter_dispatch a envelope w ctx) as [w1 [u|err]]; [done|].
  unfold route_failure, dead_letter_of.
  destruct (AgentError_category err) eqn:Hc; simpl; try done.
  destruct (sink_record w1 _) as [w2 [u|e]]; [|done]. by rewrite app_nil_r.
Qed.

Lemma settle_category envelope ctx st a st' err :
  settle envelope ctx st a = (st', Some err) -> AgentError_category err <> Terminal.
Proof.
  unfold settle. destruct (adapter_dispatch a envelope (fst st) ctx) as [w1 [u|e]]; [done|].
  destruct (AgentError_category e) eqn:Hc; simpl; try (intros [= <- <-]; congruence).
  by destruct (sink_record w1 _).
Qed.

(** *** The history of a run *)

(** The steps of [App::run]: handlers publish while the bus lives, the
    consumer receives, and may panic at an envelope; the shutdown drops the bus
    and with it the only sender, and the consumer returns once the channel is
    empty and closed.  What the consumer ends with is the result of [run].
    [published], [taken] and [consumed] are the envelopes handed to the bus,
    accepted by the channel, and received by the consumer, in order. *)
Inductive history (a : App) (w : W) :
    Running -> list (EventEnvelope Ev) -> list (EventEnvelope Ev) -> list (EventEnvelope Ev) -> Prop :=
| hist_init : history a w (run_init a w) [] [] []
| hist_publish r published taken consumed envelope :
    history a w r published taken consumed -> sender_open r = true ->
    history a w (enqueue_or_log r envelope) (published ++ [envelope])
      (if receiver_open r && (Z.of_nat (length (buffer r)) <? dispatch_buffer_capacity (app r))
       then taken ++ [envelope] else taken) consumed
| hist_receive r published taken consumed envelope rest :
    history a w r published taken consumed -> consumer_result r = None ->
    buffer r = envelope :: rest ->
    history a w (consume r envelope rest) published taken (consumed ++ [envelope])
| hist_panic r published taken consumed envelope rest w' join_error :
    history a w r published taken consumed -> consumer_result r = None ->
    buffer r = envelope :: rest ->
    history a w (consumer_panics r w' join_error) published taken (consumed ++ [envelope])
| hist_shutdown r published taken consumed :
    history a w r published taken consumed -> sender_open r = true ->
    history a w (mkRunning (app r) (buffer r) false (receiver_open r) (world_state r) (logs r)
                   (consumer_result r)) published taken consumed
| hist_drained r published taken consumed :
    history a w r published taken consumed ->
    consumer_result r = None -> buffer r = [] -> sender_open r = false ->
    history a w (mkRunning (app r) [] false false (world_state r) (logs r) (Some (Ok tt)))
      published taken consumed.

(** What holds of every history. *)
Record history_ok (a : App) (r : Running) (published taken consumed : list (EventEnvelope Ev)) : Prop := {
  ho_app : app r = a;
  ho_receiver : receiver_open r = bool_decide (consumer_result r = None);
  ho_room : Z.of_nat (length (buffer r)) <= dispatch_buffer_capacity a;
  ho_taken : taken `sublist_of` published;
  ho_fifo : consumer_result r = None -> taken = consumed ++ buffer r;
  ho_done : consumer_result r = Some (Ok tt) -> taken = consumed /\ sender_open r = false;
  ho_stopped e : consumer_result r = Some (Err e) ->
    AgentError_category e = ReconciliationRequired /\ consumed `prefix_of` taken;
}.

Lemma history_ok_publish a r published taken consumed envelope :
  history_ok a r published taken consumed ->
  history_ok a (enqueue_or_log r envelope) (published ++ [envelope])
    (if receiver_open r && (Z.of_nat (length (buffer r)) <? dispatch_buffer_capacity (app r))
     then taken ++ [envelope] else taken) consumed.
Proof.
  intros [<- Hr Hroom Ht Hf Hd Hs]. unfold enqueue_or_log.
  assert (Hskip : taken `sublist_of` published ++ [envelope]) by by apply sublist_inserts_r.
  destruct (receiver_open r) eqn:Hro; simpl; [|split; simpl; by rewrite ?Hro].
  destruct (Z.ltb_spec (Z.of_nat (length (buffer r))) (dispatch_buffer_capacity (app r)));
    [|split; simpl; by rewrite ?Hro].
  symmetry in Hr. apply bool_decide_eq_true in Hr. split; simpl; rewrite ?Hr; try done.
  - rewrite length_app. simpl. lia.
  - by apply sublist_app.
  - intros _. by rewrite (Hf Hr), app_assoc.
Qed.

Lemma history_ok_receive a r published taken consumed envelope rest :
  history_ok a r published taken consumed -> consumer_result r = None ->
  buffer r = envelope :: rest ->
  history_ok a (consume r envelope rest) published taken (consumed ++ [envelope]).
Proof.
  intros [<- _ Hroom Ht Hf _ _] Hc Hb. specialize (Hf Hc). rewrite Hb in *.
  assert (Hfifo : taken = (consumed ++ [envelope]) ++ rest) by by rewrite <- app_assoc.
  simpl in Hroom. unfold consume.
  destruct (dispatch_one _ _ _ _) as [[w log] [u|err]].
  - split; simpl; try done; lia.
  - destruct (AgentError_category err) eqn:He; (split; simpl; try done; try lia).
    intros e [= <-]. split; [done|]. rewrite Hfifo. by apply prefix_app_r.
Qed.

Lemma history_ok_panic a r published taken consumed envelope rest w' join_error :
  history_ok a r published taken consumed -> consumer_result r = None ->
  buffer r = envelope :: rest ->
  history_ok a (consumer_panics r w' join_error) published taken (consumed ++ [envelope]).
Proof.
  intros [<- _ Hroom Ht Hf _ _] Hc Hb. specialize (Hf Hc). rewrite Hb in *. simpl in Hroom.
  split; simpl; try done; [lia|]. intros e [= <-]. split; [done|].
  rewrite Hf. exists rest. by rewrite <- app_assoc.
Qed.

Lemma history_sound a w r published taken consumed :
  0 <= dispatch_buffer_capacity a -> history a w r published taken consumed ->
  history_ok a r published taken consumed.
Proof.
  intros Hcap Hh. induction Hh as [| | | |r p t c Hh IH Hopen|r p t c Hh IH Hc Hb Hs].
  - by split.
  - by apply history_ok_publish.
  - by apply history_ok_receive.
  - by eapply history_ok_panic.
  - destruct IH as [? ? ? ? ? Hd ?]. split; simpl; try done.
    intros Hr. by destruct (Hd Hr).
  - destruct IH as [? ? ? ? Hf ? ?]. split; simpl; try done.
    intros _. split; [|done]. by rewrite (Hf Hc), Hb, app_nil_r.
Qed.

(** ** Properties *)

(** C12: The dispatcher runs the policies of an envelope in order.  A policy
    whose dispatch fails terminally leaves exactly one dead-letter record,
    carrying the envelope's identifiers and its own identity, and the next policy
    runs (a failing sink only adds a log line).  The first retryable or
    indeterminate failure is returned as it is, without a dead letter, and no
    later policy runs. *)
Theorem dispatch_one_spec policies envelope w log w' log' r :
  dispatch_one policies envelope w log = (w', log', r) ->
  let ctx := correlation_for (env_correlation_id envelope) (event_id envelope) in
  match r with
  | Ok _ => settled envelope ctx policies (w, log) (w', log')
  | Err err => exists pre a post st,
      policies = pre ++ a :: post /\ settled envelope ctx pre (w, log) st
      /\ settle envelope ctx st a = ((w', log'), Some err)
      /\ AgentError_category err <> Terminal
  end.
Proof.
  unfold dispatch_one. cbv zeta.
  set (ctx := correlation_for _ _). clearbody ctx. revert w log.
  induction policies as [|a rest IH]; intros w log.
  - simpl. intros [= <- <- <-]. constructor.
  - rewrite dispatch_policies_cons.
    destruct (settle envelope ctx (w, log) a) as [[w1 log1] [err|]] eqn:Hs.
    + intros [= <- <- <-]. exists [], a, rest, (w, log).
      split_and!; [done|constructor|done|]. by eapply settle_category.
    + intros Hr. specialize (IH _ _ Hr). destruct r as [u|err].
      * by eapply settled_cons.
      * destruct IH as (pre&b&post&st&->&Hp&?&?). exists (a :: pre), b, post, st.
        split_and!; try done. by eapply settled_cons.
Qed.

(** C11: The dispatch channel of [App::run] delivers in order and at most once,
    and only drops what does not fit: in every run the accepted envelopes are a
    sublist of the published ones; while the consumer runs it has received
    exactly the accepted envelopes that are not in the buffer, in order; it
    returns [Ok] only after the bus is dropped and everything accepted has been
    received, and otherwise, a panic of the user's code included, only with an
    outcome that needs reconciliation, at which point nothing later is
    received. *)
Theorem app_run_delivery a w r published taken consumed :
  0 <= dispatch_buffer_capacity a -> history a w r published taken consumed ->
  history_ok a r published taken consumed.
Proof. apply history_sound. Qed.
End Dispatch.
Arguments PolicyAdapter : clear implicits.
Arguments App : clear implicits.
Arguments Running : clear implicits.

(** ** [InProcessEventBus]

    A handler is a number, its code [handler_effects]: the handlers it registers
    when it is called, and whether it returns ([false]: it panics, and the panic
    unwinds out of [publish]).  [invoked] is the log of the calls. *)

Module InProcessEventBus.
Section Bus.
Context {Ev : Type} (handler_effects : nat -> EventEnvelope Ev -> list nat * bool).

Record InProcessEventBus := mkBus {
  handlers : list nat;
  invoked : list (nat * EventEnvelope Ev);
}.

Definition new : InProcessEventBus := mkBus [] [].

(** [register]: the new vector replaces the shared one. *)
Definition register (b : InProcessEventBus) (handler : nat) : InProcessEventBus :=
  mkBus (handlers b ++ [handler]) (invoked b).

Definition handler_count (b : InProcessEventBus) : nat := length (handlers b).

(** A call of a handler, with the registrations it makes, and whether it returns. *)
Definition call (b : InProcessEventBus) (handler : nat) (envelope : EventEnvelope Ev) : InProcessEventBus * bool :=
  let '(registered, returns) := handler_effects handler envelope in
  (fold_left register registered (mkBus (handlers b) (invoked b ++ [(handler, envelope)])), returns).

(** The two loops of [publish]. *)
Fixpoint call_handlers (b : InProcessEventBus) (snapshot : list nat) (envelope : EventEnvelope Ev)
    : InProcessEventBus * bool :=
  match snapshot with
  | [] => (b, true)
  | h :: rest => let '(b, returns) := call b h envelope in if returns then call_handlers b rest envelope else (b, false)
  end.

Fixpoint call_events (b : InProcessEventBus) (snapshot : list nat) (events : list (EventEnvelope Ev))
    : InProcessEventBus * bool :=
  match events with
  | [] => (b, true)
  | e :: rest =>
      let '(b, returns) := call_handlers b snapshot e in
      if returns then call_events b snapshot rest else (b, false)
  end.

(** [publish]: the snapshot of the handlers is taken once; [None] where it panics. *)
Definition publish (b : InProcessEventBus) (events : list (EventEnvelope Ev))
    : InProcessEventBus * option (result unit BusError) :=
  let '(b, returns) := call_events b (handlers b) events in
  (b, if returns then Some (Ok tt) else None).

(** The calls up to the first that panics, that one included. *)
Fixpoint up_to_panic (calls : list (nat * EventEnvelope Ev)) : list (nat * EventEnvelope Ev) * bool :=
  match calls with
  | [] => ([], true)
  | (h, e) :: rest =>
      if snd (handler_effects h e) then let '(done, returns) := up_to_panic rest in ((h, e) :: done, returns)
      else ([(h, e)], false)
  end.

Lemma up_to_panic_app l1 l2 :
  up_to_panic (l1 ++ l2)
  = let '(done, returns) := up_to_panic l1 in
    if returns then let '(more, returns) := up_to_panic l2 in (done ++ more, returns) else (done, false).
Proof.
  induction l1 as [|[h e] l1 IH]; simpl; [by destruct (up_to_panic l2)|].
  destruct (snd (handler_effects h e)); [|done]. rewrite IH. destruct (up_to_panic l1) as [d [|]]; [|done].
  by destruct (up_to_panic l2).
Qed.

Lemma register_all hs b : fold_left register hs b = mkBus (handlers b ++ hs) (invoked b).
Proof.
  revert b. induction hs as [|h hs IH]; intros b; simpl.
  - rewrite app_nil_r. by destruct b.
  - rewrite IH. simpl. by rewrite <- app_assoc.
Qed.

(** [b'] is [b] after [calls], with what they registered. *)
Definition called (b b' : InProcessEventBus) (calls : list (nat * EventEnvelope Ev)) : Prop :=
  exists added, b' = mkBus (handlers b ++ added) (invoked b ++ calls).

Lemma called_nil b : called b b [].
Proof. exists []. rewrite !app_nil_r. by destruct b. Qed.

Lemma called_trans b1 b2 b3 l1 l2 : called b1 b2 l1 -> called b2 b3 l2 -> called b1 b3 (l1 ++ l2).
Proof. intros [a1 ->] [a2 ->]. simpl. exists (a1 ++ a2). by rewrite !app_assoc. Qed.

Lemma call_handlers_called snapshot e b :
  let '(b', returns) := call_handlers b snapshot e in
  let '(calls, returns') := up_to_panic (map (fun h => (h, e)) snapshot) in called b b' calls /\ returns = returns'.
Proof.
  revert b. induction snapshot as [|h rest IH]; intros b; simpl; [by split; [apply called_nil|]|].
  unfold call. destruct (handler_effects h e) as [registered [|]] eqn:Eh; simpl; rewrite register_all; simpl.
  - specialize (IH (mkBus (handlers b ++ registered) (invoked b ++ [(h, e)]))).
    destruct (call_handlers _ rest e) as [b' returns], (up_to_panic (map _ rest)) as [calls returns'].
    destruct IH as [Hc ?]. split; [|done]. eapply (called_trans b _ b' [(h, e)] calls); [by exists registered|exact Hc].
  - split; [by exists registered|done].
Qed.

(** [publish] calls every handler that was registered when it started, once per
    envelope, envelope by envelope and in registration order, whatever the handlers
    register meanwhile; those registrations are kept for the next publication.  It
    succeeds, unless a handler panics: then the calls stop there, and the bus is as
    usable as before. *)
Theorem publish_snapshot b events :
  let '(b', r) := publish b events in
  let '(calls, returns) := up_to_panic (flat_map (fun e => map (fun h => (h, e)) (handlers b)) events) in
  called b b' calls /\ r = if returns then Some (Ok tt) else None.
Proof.
  unfold publish. generalize (handlers b) as snapshot. intros snapshot.
  cut (let '(b', returns) := call_events b snapshot events in
       let '(calls, returns') := up_to_panic (flat_map (fun e => map (fun h => (h, e)) snapshot) events) in
       called b b' calls /\ returns = returns').
  { destruct (call_events b snapshot events), (up_to_panic _). by intros [? ->]. }
  revert b. induction events as [|e events IH]; intros b; simpl; [by split; [apply called_nil|]|].
  rewrite up_to_panic_app. pose proof (call_handlers_called snapshot e b) as H1.
  destruct (call_handlers b snapshot e) as [b1 [|]], (up_to_panic (map _ snapshot)) as [l1 [|]]; destruct H1 as [H1 ?]; try done.
  specialize (IH b1). destruct (call_events b1 snapshot events) as [b2 returns], (up_to_panic (flat_map _ events)) as [l2 returns'].
  destruct IH as [H2 ?]. split; [|done]. by eapply called_trans.
Qed.
End Bus.
End InProcessEventBus.

(** *** Witnesses: one policy that forwards to a log of causes *)

Definition forward_policy : PolicyAdapter Z (list Z) :=
  mkPolicyAdapter Z (fun e => [payload e])
    (fun out w ctx => if out =? 0 then (w, Err (Policy (BoxMsg "zero")))
                      else if out <? 0 then (w, Err (Store (Indeterminate (BoxMsg "negative"))))
                      else (w ++ [out], Ok tt)) "forward" "Out".

Definition ignore_sink (w : list Z) (r : DeadLetterRecord) : list Z * result unit Boxed :=
  (w ++ [dl_event_id r], Ok tt).

Definition sample (u p : Z) : EventEnvelope Z := mkEnvelope u (AggregateId_new 1) 1 0 None None p.

Lemma dispatch_one_spec_witness :
  settled show_Z ignore_sink (sample 7 0) (Correlation.new 7 7)
    [forward_policy] ([], []) ([7], []).
Proof.
  exact (dispatch_one_spec show_Z ignore_sink [forward_policy] (sample 7 0) [] [] [7] [] (Ok tt) eq_refl).
Defined.

Lemma app_run_delivery_witness :
  exists r consumed,
    history show_Z ignore_sink (mkApp [forward_policy] 1) [] r [sample 7 5; sample 8 6]
      [sample 7 5] consumed
    /\ consumer_result r = Some (Ok tt) /\ consumed = [sample 7 5].
Proof.
  eexists _, _.
  assert (Hh : history show_Z ignore_sink (mkApp [forward_policy] 1) []
    (mkRunning (mkApp [forward_policy] 1) [] false false [5] [LogChannelFull 8 1] (Some (Ok tt)))
    [sample 7 5; sample 8 6] [sample 7 5] [sample 7 5]).
  { pose proof (hist_init show_Z ignore_sink (mkApp [forward_policy] 1) []) as H.
    apply (hist_publish _ _ _ _ _ _ _ _ (sample 7 5)) in H; [|reflexivity].
    apply (hist_publish _ _ _ _ _ _ _ _ (sample 8 6)) in H; [|reflexivity].
    eapply hist_receive in H; [|reflexivity..].
    apply hist_shutdown in H; [|reflexivity].
    apply hist_drained in H; [|reflexivity..]. exact H. }
  pose proof (app_run_delivery show_Z ignore_sink (mkApp [forward_policy] 1) [] _ _ _ _
    ltac:(simpl; lia) Hh) as Hok.
  split_and!; [exact Hh|reflexivity|]. symmetry. by apply (ho_done _ _ _ _ _ Hok).
Defined.
