(* ===== verification/Scheduler.v ===== *)
(** * Durable scheduling

    The scheduler aggregate of [cherry-pit-core] ([scheduler.rs]: its events,
    the state replayed from them) and the driver of [cherry-pit-app]
    ([scheduler.rs]: [DurableScheduler]) over a scheduler store, a target store
    and a target bus. *)

From S2P Require Import Prelude Core Store Agent.
From stdpp Require Import sorting.
Local Open Scope Z_scope.
Import Envelope EnvelopeFacts.
Local Open Scope result_scope.

(** ** The scheduler aggregate *)

(** [ScheduleId] is its UUID. *)
Definition ScheduleId : Type := Uuid.

Record ScheduleArmed := mkScheduleArmed {
  sa_schedule_id : ScheduleId;
  fire_at : Timestamp;
  sa_target_aggregate : AggregateId;
  sa_caller_event_id : Uuid;
  sa_caller_event_type : string;
  sa_payload : list Z;
  sa_correlation : CorrelationContext;
}.

Record ScheduleFired := mkScheduleFired {
  sf_schedule_id : ScheduleId;
  sf_target_aggregate : AggregateId;
  sf_caller_event_id : Uuid;
  sf_caller_event_type : string;
  sf_payload : list Z;
  sf_correlation : CorrelationContext;
}.

Record ScheduleCancelled := mkScheduleCancelled { sc_schedule_id : ScheduleId }.

Definition from_armed (armed : ScheduleArmed) : ScheduleFired :=
  mkScheduleFired (sa_schedule_id armed) (sa_target_aggregate armed) (sa_caller_event_id armed)
    (sa_caller_event_type armed) (sa_payload armed) (sa_correlation armed).

Inductive SchedulerEvent :=
| Armed (event : ScheduleArmed)
| Fired (event : ScheduleFired)
| Cancelled (event : ScheduleCancelled).

Definition event_type (e : SchedulerEvent) : string :=
  match e with
  | Armed _ => "scheduler.schedule_armed"
  | Fired _ => "scheduler.schedule_fired"
  | Cancelled _ => "scheduler.schedule_cancelled"
  end.

(** The two [BTreeMap]s and the [BTreeSet], keyed by the schedule's UUID. *)
Record SchedulerState := mkSchedulerState {
  pending : gmap Z ScheduleArmed;
  fired : gmap Z ScheduleFired;
  cancelled : gset Z;
}.

Definition SchedulerState_default : SchedulerState := mkSchedulerState ∅ ∅ ∅.

(** The body of the loop of [from_history]. *)
Definition apply_event (state : SchedulerState) (e : SchedulerEvent) : SchedulerState :=
  match e with
  | Armed event =>
      mkSchedulerState (<[sa_schedule_id event := event]> (pending state)) (fired state)
        (cancelled state ∖ {[sa_schedule_id event]})
  | Fired event =>
      mkSchedulerState (delete (sf_schedule_id event) (pending state))
        (<[sf_schedule_id event := event]> (fired state)) (cancelled state)
  | Cancelled event =>
      mkSchedulerState (delete (sc_schedule_id event) (pending state)) (fired state)
        ({[sc_schedule_id event]} ∪ cancelled state)
  end.

(** [SchedulerState::from_history]. *)
Definition from_history (history : list (EventEnvelope SchedulerEvent)) : SchedulerState :=
  fold_left (fun st env => apply_event st (payload env)) history SchedulerState_default.

Definition key_le {A} (p q : Z * A) : Prop := (p.1 <= q.1)%Z.

#[local] Instance key_le_dec {A} : RelDecision (@key_le A).
Proof. intros p q. unfold key_le. apply _. Defined.

(** The values of a [BTreeMap], in the order of its keys. *)
Definition btree_values {A} (m : gmap Z A) : list A :=
  map snd (merge_sort key_le (map_to_list m)).

Definition pending_values (st : SchedulerState) : list ScheduleArmed := btree_values (pending st).
Definition fired_values (st : SchedulerState) : list ScheduleFired := btree_values (fired st).
Definition pending_schedule (st : SchedulerState) (id : ScheduleId) : option ScheduleArmed :=
  pending st !! id.
Definition fired_schedule (st : SchedulerState) (id : ScheduleId) : option ScheduleFired :=
  fired st !! id.
Definition is_cancelled (st : SchedulerState) (id : ScheduleId) : bool :=
  bool_decide (id ∈ cancelled st).
Definition due_pending (st : SchedulerState) (now : Timestamp) : list ScheduleArmed :=
  filter (fun event => (fire_at event <= now)%Z) (pending_values st).

Record ScheduleRecoveryReport := mkReport { rr_fired : Z; rr_completed : Z }.

(** *** What the replayed state means *)

Definition about (id : ScheduleId) (e : SchedulerEvent) : bool :=
  match e with
  | Armed a => sa_schedule_id a =? id
  | Fired f => sf_schedule_id f =? id
  | Cancelled c => sc_schedule_id c =? id
  end.

(** The last event of the list about [id]. *)
Definition last_about (id : ScheduleId) (l : list SchedulerEvent) : option SchedulerEvent :=
  find_first (about id) (rev l).

Lemma from_history_snoc h env :
  from_history (h ++ [env]) = apply_event (from_history h) (payload env).
Proof. unfold from_history. by rewrite fold_left_app. Qed.

Lemma last_about_snoc id l e :
  last_about id (l ++ [e]) = if about id e then Some e else last_about id l.
Proof. unfold last_about. by rewrite rev_app_distr. Qed.

Lemma pending_last h id :
  pending (from_history h) !! id =
    match last_about id (map payload h) with Some (Armed a) => Some a | _ => None end.
Proof.
  induction h as [|env h IH] using rev_ind; [done|].
  rewrite from_history_snoc, map_app. simpl. rewrite last_about_snoc.
  destruct (payload env) as [a|f|c]; simpl;
    match goal with |- context [?x =? ?y] => destruct (Z.eqb_spec x y) as [->|Hne] end;
    rewrite ?lookup_insert_eq, ?lookup_insert_ne, ?lookup_delete_eq, ?lookup_delete_ne by done; done.
Qed.

(** A pending schedule is never cancelled. *)
Lemma pending_not_cancelled h id a :
  pending (from_history h) !! id = Some a -> id ∉ cancelled (from_history h).
Proof.
  induction h as [|env h IH] using rev_ind; [done|].
  rewrite from_history_snoc. destruct (payload env) as [a'|f|c]; simpl.
  - intros [[<- _]|[? ?]]%lookup_insert_Some; set_solver.
  - intros [? ?]%lookup_delete_Some. auto.
  - intros [? ?]%lookup_delete_Some. set_solver.
Qed.

Lemma pending_key h id a : pending (from_history h) !! id = Some a -> sa_schedule_id a = id.
Proof.
  induction h as [|env h IH] using rev_ind; [done|].
  rewrite from_history_snoc. destruct (payload env) as [a'|f|c]; simpl.
  - intros [[? <-]|[? ?]]%lookup_insert_Some; auto.
  - intros [? ?]%lookup_delete_Some. auto.
  - intros [? ?]%lookup_delete_Some. auto.
Qed.

Lemma elem_of_btree_values {A} (m : gmap Z A) x :
  x ∈ btree_values m <-> exists k, m !! k = Some x.
Proof.
  unfold btree_values. change (map snd) with (fmap (M := list) (@snd Z A)).
  rewrite list_elem_of_fmap. split.
  - intros ([k y]&->&Hin). rewrite merge_sort_Permutation in Hin.
    exists k. by apply elem_of_map_to_list in Hin.
  - intros [k Hk]. exists (k, x). split; [done|]. rewrite merge_sort_Permutation.
    by apply elem_of_map_to_list.
Qed.

(** The due schedules are the pending ones whose instant has come. *)
Lemma elem_of_due h now id a :
  pending (from_history h) !! id = Some a -> fire_at a <= now ->
  id ∈ map sa_schedule_id (due_pending (from_history h) now).
Proof.
  intros Hp Hd. change (map sa_schedule_id) with (fmap (M := list) sa_schedule_id).
  apply list_elem_of_fmap. exists a. split; [symmetry; by eapply pending_key|].
  unfold due_pending, pending_values. apply list_elem_of_filter. split; [done|].
  apply elem_of_btree_values. by exists id.
Qed.

(** How many times the history fired [id]. *)
Fixpoint fires (id : ScheduleId) (l : list (EventEnvelope SchedulerEvent)) : nat :=
  match l with
  | [] => 0
  | env :: rest =>
      match payload env with Fired f => if sf_schedule_id f =? id then 1 else 0 | _ => 0 end
      + fires id rest
  end.

Lemma fires_app id l1 l2 : fires id (l1 ++ l2) = (fires id l1 + fires id l2)%nat.
Proof. induction l1; simpl; lia. Qed.

Lemma fired_count h id : fired (from_history h) !! id = None <-> fires id h = 0%nat.
Proof.
  induction h as [|env h IH] using rev_ind; [done|].
  rewrite from_history_snoc, fires_app. simpl.
  destruct (payload env) as [a|f|c]; simpl; [rewrite IH; lia| |rewrite IH; lia].
  destruct (Z.eqb_spec (sf_schedule_id f) id) as [->|Hne].
  - rewrite lookup_insert_eq. split; [done|lia].
  - rewrite lookup_insert_ne, IH by done. lia.
Qed.

(** ** The port *)

Record EventScheduler (Error : Type) := mkEventScheduler {
  sch_state : Type;
  sch_arm : sch_state -> ScheduleArmed -> sch_state * result unit Error;
  sch_cancel : sch_state -> ScheduleCancelled -> CorrelationContext -> sch_state * result unit Error;
  sch_recover_due : sch_state -> Timestamp -> sch_state * result ScheduleRecoveryReport Error;
}.
Arguments sch_state {Error}. Arguments sch_arm {Error}. Arguments sch_cancel {Error}. Arguments sch_recover_due {Error}.

(** What the port promises, over the facts a scheduler [known]s and the caller
    events that have reached their targets ([reached]): an arm or a cancellation
    that succeeds is a fact, one that fails is one or not, and nothing else
    changes; a recovery pass that succeeds has completed every fact that was fired
    and every schedule that was due; and what has reached its target stays. *)
Class EventSchedulerLaws {Error} (S : EventScheduler Error) (Inv : sch_state S -> Prop)
    (known : sch_state S -> SchedulerState) (reached : sch_state S -> ScheduleFired -> Prop) : Prop := {
  law_arm s event s' r : Inv s -> sch_arm S s event = (s', r) ->
    Inv s' /\ (forall f, reached s f -> reached s' f)
    /\ (known s' = apply_event (known s) (Armed event) \/ (known s' = known s /\ r <> Ok tt));
  law_cancel s event ctx s' r : Inv s -> sch_cancel S s event ctx = (s', r) ->
    Inv s' /\ (forall f, reached s f -> reached s' f)
    /\ (known s' = apply_event (known s) (Cancelled event) \/ (known s' = known s /\ r <> Ok tt));
  law_recover_due s now s' r : Inv s -> sch_recover_due S s now = (s', r) ->
    Inv s' /\ (forall f, reached s f -> reached s' f)
    /\ (forall report, r = Ok report ->
         (forall id f, fired (known s) !! id = Some f -> reached s' f)
         /\ (forall id armed, pending (known s) !! id = Some armed -> fire_at armed <= now ->
               fired (known s) !! id = None ->
               fired (known s') !! id = Some (from_armed armed) /\ reached s' (from_armed armed)));
}.

(** A client of the port: a new schedule that is armed and then recovered at its
    instant has its event delivered, whatever else the scheduler held. *)
Section Client.
Context {Error} (S : EventScheduler Error) (Inv : sch_state S -> Prop) (known : sch_state S -> SchedulerState)
        (reached : sch_state S -> ScheduleFired -> Prop) {laws : EventSchedulerLaws S Inv known reached}.

Lemma armed_then_recovered s event s1 now s2 report :
  Inv s -> fired (known s) !! sa_schedule_id event = None -> fire_at event <= now ->
  sch_arm S s event = (s1, Ok tt) -> sch_recover_due S s1 now = (s2, Ok report) ->
  fired (known s2) !! sa_schedule_id event = Some (from_armed event) /\ reached s2 (from_armed event).
Proof.
  intros HI Hnf Hdue Ha Hr. destruct (law_arm _ _ _ _ HI Ha) as (HI1&_&[Hk|[_ ?]]); [|done].
  destruct (law_recover_due _ _ _ _ HI1 Hr) as (_&_&Hall). apply (Hall report eq_refl); [|done|]; rewrite Hk; simpl.
  - by rewrite lookup_insert_eq.
  - done.
Qed.
End Client.

(** ** The driver *)

Inductive ScheduleFireOutcome := OutFired | OutTerminal | OutUnknown | OutNotDue.

Definition outcome_is_terminal (o : ScheduleFireOutcome) : bool :=
  match o with OutTerminal => true | _ => false end.
Definition outcome_is_unknown (o : ScheduleFireOutcome) : bool :=
  match o with OutUnknown => true | _ => false end.

Section Driver.
Context {E : Type} (SS : EventStore SchedulerEvent) (TS : EventStore E) (B : EventBus E).
Context (decode : ScheduleFired -> result E Boxed) (scheduled_event_id : E -> Uuid).
Context (show_uuid : Uuid -> string).

(** [DurableScheduler]: the adapters it borrows. *)
Record DurableScheduler := mkScheduler {
  scheduler_store : es_state SS;
  target_store : es_state TS;
  target_bus : eb_state B;
}.
Implicit Types (d : DurableScheduler).

Definition with_scheduler d (s : es_state SS) : DurableScheduler :=
  mkScheduler s (target_store d) (target_bus d).
Definition with_target d (s : es_state TS) : DurableScheduler :=
  mkScheduler (scheduler_store d) s (target_bus d).

Definition singleton_stream : AggregateId := AggregateId_new 1.

Definition append_scheduler d (event : SchedulerEvent) (context : CorrelationContext)
    : DurableScheduler * result unit AgentError :=
  let '(s, r) := es_load SS (scheduler_store d) singleton_stream in
  match r with
  | Err e => (with_scheduler d s, Err (Store e))
  | Ok history =>
      match last history with
      | Some l =>
          let '(s, r) := es_append SS s singleton_stream (sequence l) [event] context in
          (with_scheduler d s, map_ok (fun _ => tt) (map_err Store r))
      | None =>
          let '(s, r) := es_create SS s [event] context in
          (with_scheduler d s,
           match r with
           | Err e => Err (Store e)
           | Ok (created, _) =>
               if bool_decide (created = singleton_stream) then Ok tt
               else Err (Store (Infrastructure (BoxMsg ("scheduler stream must be "
                      +:+ AggregateId_display singleton_stream +:+ ", got "
                      +:+ AggregateId_display created))))
           end)
      end
  end.

Definition arm d (event : ScheduleArmed) : DurableScheduler * result unit AgentError :=
  append_scheduler d (Armed event) (sa_correlation event).

Definition cancel d (event : ScheduleCancelled) (context : CorrelationContext)
    : DurableScheduler * result unit AgentError :=
  append_scheduler d (Cancelled event) context.

(** [complete_fired]: whether the caller event was appended now. *)
Definition complete_fired d (f : ScheduleFired) : DurableScheduler * result bool AgentError :=
  let '(s, r) := es_load TS (target_store d) (sf_target_aggregate f) in
  let d := with_target d s in
  match r with
  | Err e => (d, Err (Store e))
  | Ok history =>
      if existsb (fun env => scheduled_event_id (payload env) =? sf_caller_event_id f) history
      then (d, Ok false)
      else match decode f with
      | Err err => (d, Err (Policy err))
      | Ok event =>
          match last history with
          | None => (d, Err (Store (Infrastructure (BoxMsg ("target aggregate "
                      +:+ AggregateId_display (sf_target_aggregate f) +:+ " is empty for schedule "
                      +:+ show_uuid (sf_schedule_id f))))))
          | Some l =>
              let '(s, r) := es_append TS (target_store d) (sf_target_aggregate f) (sequence l)
                               [event] (sf_correlation f) in
              let d := with_target d s in
              match r with
              | Err e => (d, Err (Store e))
              | Ok envelopes =>
                  let '(b, r) := eb_publish B (target_bus d) envelopes in
                  let d := mkScheduler (scheduler_store d) (target_store d) b in
                  (d, match r with Err e => Err (Bus e) | Ok _ => Ok true end)
              end
          end
      end
  end.

Definition fire_schedule d (schedule_id : ScheduleId) (now : Timestamp)
    : DurableScheduler * result ScheduleFireOutcome AgentError :=
  let '(s, r) := es_load SS (scheduler_store d) singleton_stream in
  let d := with_scheduler d s in
  match r with
  | Err e => (d, Err (Store e))
  | Ok history =>
      let state := from_history history in
      if bool_decide (is_Some (fired_schedule state schedule_id)) || is_cancelled state schedule_id
      then (d, Ok OutTerminal)
      else match pending_schedule state schedule_id with
      | None => (d, Ok OutUnknown)
      | Some armed =>
          if now <? fire_at armed then (d, Ok OutNotDue)
          else match last history with
          | None => (d, Ok OutUnknown)
          | Some l =>
              let f := from_armed armed in
              let '(s, r) := es_append SS (scheduler_store d) singleton_stream (sequence l)
                               [Fired f] (sf_correlation f) in
              let d := with_scheduler d s in
              match r with
              | Err e => (d, Err (Store e))
              | Ok _ =>
                  let '(d, r) := complete_fired d f in
                  (d, match r with Err e => Err e | Ok _ => Ok OutFired end)
              end
          end
      end
  end.

(** The two loops of [recover_due]. *)
Fixpoint complete_all d (fs : list ScheduleFired) (report : ScheduleRecoveryReport)
    : DurableScheduler * result ScheduleRecoveryReport AgentError :=
  match fs with
  | [] => (d, Ok report)
  | f :: rest =>
      let '(d, r) := complete_fired d f in
      match r with
      | Err e => (d, Err e)
      | Ok completed =>
          complete_all d rest
            (if completed then mkReport (rr_fired report) (rr_completed report + 1) else report)
      end
  end.

Fixpoint fire_all d (due : list ScheduleId) (now : Timestamp) (report : ScheduleRecoveryReport)
    : DurableScheduler * result ScheduleRecoveryReport AgentError :=
  match due with
  | [] => (d, Ok report)
  | schedule_id :: rest =>
      let '(d, r) := fire_schedule d schedule_id now in
      match r with
      | Err e => (d, Err e)
      | Ok outcome =>
          fire_all d rest now
            (match outcome with
             | OutFired => mkReport (rr_fired report + 1) (rr_completed report + 1)
             | _ => report
             end)
      end
  end.

Definition recover_due d (now : Timestamp)
    : DurableScheduler * result ScheduleRecoveryReport AgentError :=
  let '(s, r) := es_load SS (scheduler_store d) singleton_stream in
  let d := with_scheduler d s in
  match r with
  | Err e => (d, Err (Store e))
  | Ok history =>
      let state := from_history history in
      let '(d, r) := complete_all d (fired_values state) (mkReport 0 0) in
      match r with
      | Err e => (d, Err e)
      | Ok report =>
          fire_all d (map sa_schedule_id (due_pending state now)) now report
      end
  end.

(** ** Specifications *)

Context (SInv : es_state SS -> Prop)
        (sview : es_state SS -> AggregateId -> list (EventEnvelope SchedulerEvent))
        (TInv : es_state TS -> Prop)
        (tview : es_state TS -> AggregateId -> list (EventEnvelope E)).
Context {slaws : EventStoreLaws SS SInv sview} {tlaws : EventStoreLaws TS TInv tview}.

(** The identity a decoded event exposes is the one its schedule carries. *)
Definition faithful_decoder : Prop :=
  forall f e, decode f = Ok e -> scheduled_event_id e = sf_caller_event_id f.

Record DInv d : Prop := { di_s : SInv (scheduler_store d); di_t : TInv (target_store d) }.

(** The scheduler's history and the state replayed from it. *)
Definition schedules d : list (EventEnvelope SchedulerEvent) :=
  sview (scheduler_store d) singleton_stream.
Definition replayed d : SchedulerState := from_history (schedules d).

(** How many events of a target carry the caller identity [u]. *)
Fixpoint occurrences (u : Uuid) (l : list (EventEnvelope E)) : nat :=
  match l with
  | [] => 0
  | env :: rest => (if scheduled_event_id (payload env) =? u then 1 else 0) + occurrences u rest
  end.

Lemma occurrences_app u l1 l2 : occurrences u (l1 ++ l2) = (occurrences u l1 + occurrences u l2)%nat.
Proof. induction l1; simpl; lia. Qed.

Lemma occurrences_existsb u l :
  existsb (fun env => scheduled_event_id (payload env) =? u) l = bool_decide (0 < occurrences u l)%nat.
Proof.
  induction l as [|env l IH]; simpl; [done|].
  destruct (Z.eqb_spec (scheduled_event_id (payload env)) u); simpl; [done|]. by rewrite IH.
Qed.

(** What completing a fired schedule may do to the targets. *)
Definition completed_step d d' (f : ScheduleFired) : Prop :=
  (forall j, tview (target_store d') j = tview (target_store d) j)
  \/ (occurrences (sf_caller_event_id f) (tview (target_store d) (sf_target_aggregate f)) = 0%nat
      /\ (forall j, j <> sf_target_aggregate f -> tview (target_store d') j = tview (target_store d) j)
      /\ exists env, tview (target_store d') (sf_target_aggregate f)
                      = tview (target_store d) (sf_target_aggregate f) ++ [env]
                    /\ decode f = Ok (payload env)).

(** The event of [f] is in its target. *)
Definition delivered d (f : ScheduleFired) : Prop :=
  (0 < occurrences (sf_caller_event_id f) (tview (target_store d) (sf_target_aggregate f)))%nat.

Lemma stamped_one id ctx (ev : E) envs :
  stamped id ctx [ev] envs -> exists env, envs = [env] /\ payload env = ev.
Proof.
  intros Hst. destruct envs as [|env envs]; [by inversion Hst|].
  apply Forall2_cons in Hst as [[? _] Hst]. apply Forall2_nil_inv_l in Hst as ->. by exists env.
Qed.

Lemma complete_fired_spec d f d' r :
  faithful_decoder -> DInv d -> complete_fired d f = (d', r) ->
  DInv d' /\ scheduler_store d' = scheduler_store d /\ completed_step d d' f
  /\ (forall b, r = Ok b -> delivered d' f).
Proof.
  intros Hdec [Hs Ht]. unfold complete_fired.
  destruct (es_load TS _ _) as [s1 r1] eqn:Hl.
  destruct (law_load _ _ _ _ Ht Hl) as (Ht1&Hv1&Hok).
  assert (Hsame : DInv (with_target d s1) /\ completed_step d (with_target d s1) f).
  { split; [by split|]. by left. }
  destruct Hsame as [HD1 HC1].
  destruct r1 as [history|e]; [|intros [= <- <-]; split_and!; done].
  specialize (Hok history eq_refl). subst history. rewrite occurrences_existsb.
  case_bool_decide as Hocc.
  { intros [= <- <-]. split_and!; try done. intros b _. unfold delivered. simpl. by rewrite Hv1. }
  destruct (decode f) as [event|err] eqn:He; [|intros [= <- <-]; split_and!; done].
  destruct (last _) as [l|] eqn:Hlast; [|intros [= <- <-]; split_and!; done].
  cbn [target_store with_target].
  destruct (es_append TS s1 _ _ _ _) as [s2 r2] eqn:Ha.
  destruct (law_append _ _ _ _ _ _ _ Ht1 Ha) as [Ht2 Hr2].
  assert (Hwrote : forall envs b,
    (forall j, j <> sf_target_aggregate f -> tview s2 j = tview s1 j) ->
    tview s2 (sf_target_aggregate f) = tview s1 (sf_target_aggregate f) ++ envs ->
    stamped (sf_target_aggregate f) (sf_correlation f) [event] envs ->
    completed_step d (mkScheduler (scheduler_store d) s2 b) f
    /\ delivered (mkScheduler (scheduler_store d) s2 b) f).
  { intros envs b Ho Hw Hst. destruct (stamped_one _ _ _ _ Hst) as (env&->&Hp). split.
    - right. split; [lia|]. split.
      + intros j Hj. simpl. by rewrite Ho, Hv1.
      + exists env. simpl. rewrite Hw, Hv1. split; [done|]. by rewrite Hp.
    - unfold delivered. simpl. rewrite Hw, occurrences_app. simpl.
      rewrite Hp, (Hdec _ _ He), Z.eqb_refl. lia. }
  destruct r2 as [envs|e].
  - destruct Hr2 as (Ho&Hw&Hst&_).
    destruct (eb_publish B _ _) as [b rb]. intros [= <- <-].
    destruct (Hwrote envs b Ho Hw Hst). split_and!; try done.
  - intros [= <- <-]. split_and!; [by split|done| |done].
    destruct Hr2 as [Hr2|(_&Ho&envs&Hw&Hst)].
    + left. intros j. simpl. by rewrite Hr2, Hv1.
    + by apply (Hwrote envs (target_bus d)).
Qed.

(** What firing may do to the scheduler's history. *)
Definition fired_step d d' (id : ScheduleId) : Prop :=
  sview (scheduler_store d') singleton_stream = schedules d
  \/ exists armed env, pending (replayed d) !! id = Some armed
       /\ fired (replayed d) !! id = None
       /\ payload env = Fired (from_armed armed)
       /\ schedules d' = schedules d ++ [env].

Lemma stamped_fired id ctx ev envs :
  @stamped SchedulerEvent id ctx [ev] envs -> exists env, envs = [env] /\ payload env = ev.
Proof.
  intros Hst. destruct envs as [|env envs]; [by inversion Hst|].
  apply Forall2_cons in Hst as [[? _] Hst]. apply Forall2_nil_inv_l in Hst as ->. by exists env.
Qed.

(** The effect of [fire_schedule] on the targets is at most that of completing
    the schedule it fired. *)
Definition fire_targets d d' (id : ScheduleId) : Prop :=
  (forall j, tview (target_store d') j = tview (target_store d) j)
  \/ exists armed, pending (replayed d) !! id = Some armed
       /\ completed_step d d' (from_armed armed).

(** The part of [fire_schedule] that records a due schedule and completes it. *)
Definition record_fired d (l : Z) (armed : ScheduleArmed) : DurableScheduler * result ScheduleFireOutcome AgentError :=
  let f := from_armed armed in
  let '(s, r) := es_append SS (scheduler_store d) singleton_stream l [Fired f] (sf_correlation f) in
  let d := with_scheduler d s in
  match r with
  | Err e => (d, Err (Store e))
  | Ok _ => let '(d, r) := complete_fired d f in (d, match r with Err e => Err e | Ok _ => Ok OutFired end)
  end.

Lemma record_fired_spec d id l armed d' r :
  faithful_decoder -> DInv d -> pending (replayed d) !! id = Some armed -> fired (replayed d) !! id = None ->
  record_fired d l armed = (d', r) ->
  DInv d' /\ fired_step d d' id /\ fire_targets d d' id
  /\ forall o, r = Ok o -> o = OutFired /\ exists env, payload env = Fired (from_armed armed)
       /\ schedules d' = schedules d ++ [env] /\ delivered d' (from_armed armed).
Proof.
  intros Hdec [Hs Ht] Hp Hnf. unfold record_fired. destruct (es_append SS _ _ _ _ _) as [s2 r2] eqn:Ha.
  destruct (law_append _ _ _ _ _ _ _ Hs Ha) as [Hs2 Hr2].
  assert (Hwrote : forall envs d2, scheduler_store d2 = s2 ->
    sview s2 singleton_stream = sview (scheduler_store d) singleton_stream ++ envs ->
    stamped singleton_stream (sf_correlation (from_armed armed)) [Fired (from_armed armed)] envs ->
    exists env, payload env = Fired (from_armed armed) /\ schedules d2 = schedules d ++ [env]).
  { intros envs d2 Hd2 Hw Hst. destruct (stamped_fired _ _ _ _ Hst) as (env&->&Hpl). exists env.
    split; [done|]. unfold schedules. by rewrite Hd2, Hw. }
  destruct r2 as [envs|e].
  - destruct Hr2 as (_&Hw&Hst&_).
    destruct (complete_fired (with_scheduler d s2) (from_armed armed)) as [d3 r3] eqn:Hc.
    destruct (complete_fired_spec (with_scheduler d s2) (from_armed armed) d3 r3 Hdec ltac:(by split) Hc) as (HD3&Hs3&HC3&Hdel).
    intros [= <- <-]. destruct (Hwrote envs d3 Hs3 Hw Hst) as (env&Hpl&Hsd).
    split_and!; [done|right; by exists armed, env|right; by exists armed|].
    destruct r3 as [b|e]; [|done]. intros o [= <-]. split; [done|]. exists env. split_and!; try done. by eapply Hdel.
  - intros [= <- <-]. split_and!; [by split| |by left|done].
    destruct Hr2 as [Hr2|(_&_&envs&Hw&Hst)]; [by left|].
    right. destruct (Hwrote envs (with_scheduler d s2) eq_refl Hw Hst) as (env&?&?). by exists armed, env.
Qed.

Lemma fire_schedule_spec d id now d' r :
  faithful_decoder -> DInv d -> fire_schedule d id now = (d', r) ->
  DInv d' /\ fired_step d d' id /\ fire_targets d d' id
  /\ match r with
     | Ok OutTerminal => schedules d' = schedules d
         /\ (is_Some (fired (replayed d) !! id) \/ id ∈ cancelled (replayed d))
     | Ok OutUnknown => schedules d' = schedules d
         /\ fired (replayed d) !! id = None /\ pending (replayed d) !! id = None
     | Ok OutNotDue => schedules d' = schedules d
         /\ exists armed, pending (replayed d) !! id = Some armed /\ now < fire_at armed
     | Ok OutFired =>
         exists armed env, pending (replayed d) !! id = Some armed /\ fire_at armed <= now
           /\ fired (replayed d) !! id = None /\ payload env = Fired (from_armed armed)
           /\ schedules d' = schedules d ++ [env] /\ delivered d' (from_armed armed)
     | Err _ => True
     end.
Proof.
  intros Hdec HD. pose proof HD as [Hs Ht]. unfold fire_schedule.
  destruct (es_load SS _ _) as [s1 r1] eqn:Hl.
  destruct (law_load _ _ _ _ Hs Hl) as (Hs1&Hv1&Hok).
  assert (HD1 : DInv (with_scheduler d s1)) by by split.
  assert (Hsch : schedules (with_scheduler d s1) = schedules d) by apply Hv1.
  assert (Hrep : replayed (with_scheduler d s1) = replayed d) by (unfold replayed; by rewrite Hsch).
  assert (Hstay : fired_step d (with_scheduler d s1) id /\ fire_targets d (with_scheduler d s1) id) by (split; left; done).
  destruct Hstay as [HF1 HT1]. destruct r1 as [history|e]; [|intros [= <- <-]; done].
  specialize (Hok history eq_refl). subst history. fold (schedules d). fold (replayed d).
  unfold fired_schedule, is_cancelled.
  destruct (bool_decide (is_Some _) || bool_decide _) eqn:Hterm.
  { apply orb_true_iff in Hterm. rewrite !bool_decide_eq_true in Hterm. intros [= <- <-]. split_and!; done. }
  apply orb_false_iff in Hterm as [Hnf _]. apply bool_decide_eq_false, eq_None_not_Some in Hnf.
  unfold pending_schedule. destruct (pending (replayed d) !! id) as [armed|] eqn:Hp; [|intros [= <- <-]; split_and!; done].
  destruct (Z.ltb_spec now (fire_at armed)) as [Hdue|Hdue]; [intros [= <- <-]; split_and!; try done; by exists armed|].
  destruct (last (schedules d)) as [l|] eqn:Hlast.
  2:{ apply last_None in Hlast. unfold replayed in Hp. by rewrite Hlast in Hp. }
  intros Hrec. change (record_fired (with_scheduler d s1) (sequence l) armed = (d', r)) in Hrec.
  rewrite <- Hrep in Hp, Hnf. destruct (record_fired_spec _ id _ _ _ _ Hdec HD1 Hp Hnf Hrec) as (HD'&HF&HT&Hr).
  unfold fired_step, fire_targets in HF, HT. rewrite Hsch, Hrep in HF. rewrite Hrep in HT, Hp, Hnf.
  split_and!; [done|done|done|]. destruct r as [o|e]; [|done].
  destruct (Hr o eq_refl) as (->&env&Hpl&Hsd&Hdel). rewrite Hsch in Hsd. by exists armed, env.
Qed.

(** Every caller identity is in every target at most once. *)
Definition once d : Prop :=
  forall id u, (occurrences u (tview (target_store d) id) <= 1)%nat.

(** Every schedule was fired at most once. *)
Definition fires_once d : Prop := forall id, (fires id (schedules d) <= 1)%nat.

Definition grown d d' : Prop :=
  forall j, tview (target_store d) j `prefix_of` tview (target_store d') j.

Lemma completed_grown d d' f : completed_step d d' f -> grown d d'.
Proof.
  intros [Hv|(_&Ho&env&Hw&_)] j; [by rewrite Hv|].
  destruct (decide (j = sf_target_aggregate f)) as [->|Hj]; [|by rewrite Ho].
  rewrite Hw. by apply prefix_app_r.
Qed.

Lemma completed_once d d' f : faithful_decoder -> completed_step d d' f -> once d -> once d'.
Proof.
  intros Hdec [Hv|(Hz&Ho&env&Hw&He)] Hon id u; [rewrite Hv; apply Hon|].
  destruct (decide (id = sf_target_aggregate f)) as [->|Hj]; [|rewrite Ho by done; apply Hon].
  rewrite Hw, occurrences_app. simpl. rewrite (Hdec _ _ He).
  destruct (Z.eqb_spec (sf_caller_event_id f) u) as [<-|Hne]; [lia|].
  specialize (Hon (sf_target_aggregate f) u). lia.
Qed.

Lemma delivered_grown d d' f : grown d d' -> delivered d f -> delivered d' f.
Proof.
  unfold delivered. intros Hg. destruct (Hg (sf_target_aggregate f)) as [more ->].
  rewrite occurrences_app. lia.
Qed.

Lemma grown_refl d : grown d d.
Proof. intros j. done. Qed.

Lemma grown_trans d1 d2 d3 : grown d1 d2 -> grown d2 d3 -> grown d1 d3.
Proof. intros H12 H23 j. by transitivity (tview (target_store d2) j). Qed.

Lemma fire_targets_grown d d' id :
  faithful_decoder -> fire_targets d d' id -> grown d d' /\ (once d -> once d').
Proof.
  intros Hdec [Hv|(armed&_&Hc)].
  - split; [intros j; by rewrite Hv|]. intros Ho i u. rewrite Hv. apply Ho.
  - split; [by eapply completed_grown|]. by apply completed_once with (f := from_armed armed).
Qed.

Lemma fired_step_once d d' id : fired_step d d' id -> fires_once d -> fires_once d'.
Proof.
  intros [Hv|(armed&env&Hp&Hf&Hpl&Hw)] Ho i.
  - unfold schedules. rewrite Hv. apply Ho.
  - rewrite Hw, fires_app. simpl. rewrite Hpl. simpl.
    rewrite (pending_key _ _ _ Hp). destruct (Z.eqb_spec id i) as [<-|Hne].
    + apply fired_count in Hf. fold (schedules d) in Hf. lia.
    + specialize (Ho i). lia.
Qed.

(** What a pass keeps and adds, over the steps of its loops. *)
Record pass_ok d d' : Prop := {
  po_inv : DInv d';
  po_grown : grown d d';
  po_once : once d -> once d';
  po_fires : fires_once d -> fires_once d';
}.

Lemma pass_refl d : DInv d -> pass_ok d d.
Proof. split; try done. apply grown_refl. Qed.

Lemma pass_trans d1 d2 d3 : pass_ok d1 d2 -> pass_ok d2 d3 -> pass_ok d1 d3.
Proof. intros [] []. split; eauto using grown_trans. Qed.

Lemma complete_pass d f d' r :
  faithful_decoder -> DInv d -> complete_fired d f = (d', r) -> pass_ok d d'.
Proof.
  intros Hdec HD Hc. destruct (complete_fired_spec _ _ _ _ Hdec HD Hc) as (?&Hs&Hst&_).
  split; [done|by eapply completed_grown|by apply completed_once with (f := f)|].
  unfold fires_once, schedules. by rewrite Hs.
Qed.

Lemma fire_pass d id now d' r :
  faithful_decoder -> DInv d -> fire_schedule d id now = (d', r) -> pass_ok d d'.
Proof.
  intros Hdec HD Hf. destruct (fire_schedule_spec _ _ _ _ _ Hdec HD Hf) as (?&Hs&Ht&_).
  destruct (fire_targets_grown _ _ _ Hdec Ht). split; try done. by eapply fired_step_once.
Qed.

Lemma complete_all_spec fs report d d' r :
  faithful_decoder -> DInv d -> complete_all d fs report = (d', r) ->
  pass_ok d d' /\ schedules d' = schedules d
  /\ (forall rep, r = Ok rep -> Forall (delivered d') fs).
Proof.
  intros Hdec. revert d report. induction fs as [|f fs IH]; intros d report HD; simpl.
  { intros [= <- <-]. split_and!; [by apply pass_refl|done|constructor]. }
  destruct (complete_fired d f) as [d1 r1] eqn:Hc.
  destruct (complete_fired_spec _ _ _ _ Hdec HD Hc) as (HD1&Hs&_&Hdel).
  pose proof (complete_pass _ _ _ _ Hdec HD Hc) as Hp.
  destruct r1 as [b|e]; intros Hr.
  - destruct (IH _ _ HD1 Hr) as (Hp'&Hs'&Hall).
    split_and!; [by eapply pass_trans|rewrite Hs'; unfold schedules; by rewrite Hs|].
    intros rep Hrep. constructor; [|by eapply Hall].
    eapply delivered_grown; [apply Hp'|]. by eapply Hdel.
  - injection Hr as <- <-. split_and!; try done. unfold schedules. by rewrite Hs.
Qed.

(** The schedule is fired, and its event is in the target. *)
Definition finished d (id : ScheduleId) (armed : ScheduleArmed) : Prop :=
  fired (replayed d) !! id = Some (from_armed armed) /\ delivered d (from_armed armed).

(** A schedule that is pending and was never fired, or is finished. *)
Definition on_course d (id : ScheduleId) (armed : ScheduleArmed) : Prop :=
  (pending (replayed d) !! id = Some armed /\ fired (replayed d) !! id = None)
  \/ finished d id armed.

Lemma finished_grown d d' id armed :
  grown d d' -> schedules d' = schedules d -> finished d id armed -> finished d' id armed.
Proof.
  intros Hg Hs [Hf Hd]. unfold finished, replayed. rewrite Hs. split; [done|].
  by eapply delivered_grown.
Qed.

Lemma fire_on_course d x now d' o id armed :
  faithful_decoder -> DInv d -> fire_schedule d x now = (d', Ok o) -> fire_at armed <= now ->
  (finished d id armed -> finished d' id armed)
  /\ (on_course d id armed -> on_course d' id armed /\ (x = id -> finished d' id armed)).
Proof.
  intros Hdec HD Hf Hdue.
  destruct (fire_schedule_spec _ _ _ _ _ Hdec HD Hf) as (HD'&_&Ht&Ho).
  destruct (fire_targets_grown _ _ _ Hdec Ht) as [Hg _].
  assert (Hsame : schedules d' = schedules d ->
    (finished d id armed -> finished d' id armed)
    /\ (on_course d id armed -> on_course d' id armed)).
  { intros Hs. split; [by apply finished_grown|]. intros [Hon|?]; [left|right; by eapply finished_grown].
    unfold replayed. by rewrite Hs. }
  destruct o.
  - clear Hsame. destruct Ho as (a&env&Hp&_&Hnf&Hpl&Hw&Hdel).
    assert (Hrep : replayed d' = apply_event (replayed d) (Fired (from_armed a))).
    { unfold replayed. by rewrite Hw, from_history_snoc, Hpl. }
    assert (Hkey : sa_schedule_id a = x) by by eapply pending_key.
    destruct (decide (x = id)) as [->|Hne].
    + split; [intros [? _]; congruence|].
      intros [[Hp' _]|[Hf' _]]; [|congruence]. assert (a = armed) as -> by congruence.
      assert (finished d' id armed).
      { split; [|done]. rewrite Hrep. simpl. by rewrite Hkey, lookup_insert_eq. }
      split; [by right|done].
    + assert (Hfin : finished d id armed -> finished d' id armed).
      { intros [? ?]. split; [|by eapply delivered_grown]. rewrite Hrep. simpl.
        rewrite Hkey. by rewrite lookup_insert_ne. }
      split; [done|]. intros Hon. split; [|done]. destruct Hon as [[? ?]|?]; [left|right; auto].
      rewrite Hrep. simpl. rewrite Hkey. by rewrite lookup_delete_ne, lookup_insert_ne.
  - destruct Ho as [Hs Ho]. destruct (Hsame Hs) as [Hfin Honc]. split; [done|].
    intros Hon. split; [auto|]. intros ->. destruct Hon as [[Hp Hnf]|?]; [|auto].
    destruct Ho as [[? Hsome]|Hc]; [congruence|]. by apply pending_not_cancelled in Hp.
  - destruct Ho as (Hs&?&?). destruct (Hsame Hs) as [Hfin Honc]. split; [done|].
    intros Hon. split; [auto|]. intros ->. destruct Hon as [[? ?]|[? ?]]; congruence.
  - destruct Ho as (Hs&a&Hp&?). destruct (Hsame Hs) as [Hfin Honc]. split; [done|].
    intros Hon. split; [auto|]. intros ->. destruct Hon as [[? ?]|?]; [|auto].
    assert (a = armed) as -> by congruence. lia.
Qed.

Lemma fire_all_spec due now report d d' r :
  faithful_decoder -> DInv d -> fire_all d due now report = (d', r) ->
  pass_ok d d'
  /\ (forall rep id armed, r = Ok rep -> fire_at armed <= now ->
        (finished d id armed -> finished d' id armed)
        /\ (on_course d id armed -> id ∈ due -> finished d' id armed)).
Proof.
  intros Hdec. revert d report. induction due as [|x due IH]; intros d report HD; simpl.
  { intros [= <- <-]. split; [by apply pass_refl|]. intros rep id armed _ _. split; [done|].
    intros _. by rewrite elem_of_nil. }
  destruct (fire_schedule d x now) as [d1 r1] eqn:Hf.
  pose proof (fire_pass _ _ _ _ _ Hdec HD Hf) as Hp.
  destruct r1 as [o|e]; intros Hr.
  2:{ injection Hr as <- <-. split; [done|]. intros rep id armed [=]. }
  destruct (IH _ _ (po_inv _ _ Hp) Hr) as [Hp' Hall].
  split; [by eapply pass_trans|]. intros rep id armed Hrep Hdue.
  destruct (fire_on_course d x now d1 o id armed Hdec HD Hf Hdue) as [Hfin1 Hon1].
  destruct (Hall rep id armed Hrep Hdue) as [Hfin Hon]. split; [auto|].
  intros Hc Hin. destruct (Hon1 Hc) as [Hc1 Hx].
  apply elem_of_cons in Hin as [->|Hin]; auto.
Qed.

Lemma recover_pass d now d' r :
  faithful_decoder -> DInv d -> recover_due d now = (d', r) ->
  pass_ok d d'
  /\ (forall rep, r = Ok rep ->
       (forall id f, fired (replayed d) !! id = Some f -> delivered d' f)
       /\ (forall id armed, pending (replayed d) !! id = Some armed -> fire_at armed <= now ->
             fired (replayed d) !! id = None -> finished d' id armed)).
Proof.
  intros Hdec [Hs Ht]. unfold recover_due.
  destruct (es_load SS _ _) as [s1 r1] eqn:Hl.
  destruct (law_load _ _ _ _ Hs Hl) as (Hs1&Hv1&Hok).
  assert (HD1 : DInv (with_scheduler d s1)) by by split.
  assert (Hsch : schedules (with_scheduler d s1) = schedules d) by apply Hv1.
  assert (Hp1 : pass_ok d (with_scheduler d s1)).
  { split; [done|apply (grown_refl d)|done|]. unfold fires_once. by rewrite Hsch. }
  destruct r1 as [history|e]; [|intros [= <- <-]; split; [done|intros rep [=]]].
  specialize (Hok history eq_refl). subst history. fold (schedules d). fold (replayed d).
  destruct (complete_all _ _ _) as [d2 r2] eqn:Hc.
  destruct (complete_all_spec _ _ _ _ _ Hdec HD1 Hc) as (Hp2&Hs2&Hall2).
  destruct r2 as [rep2|e]; [|intros [= <- <-]; split; [by eapply pass_trans|intros rep [=]]].
  intros Hf. destruct (fire_all_spec _ _ _ _ _ _ Hdec (po_inv _ _ Hp2) Hf) as [Hp3 Hall3].
  split; [by do 2 (eapply pass_trans; [done|])|].
  intros rep Hrep. split.
  - intros id f Hfid. specialize (Hall2 _ eq_refl). rewrite Forall_forall in Hall2.
    eapply delivered_grown; [apply Hp3|]. apply Hall2. apply elem_of_btree_values. by exists id.
  - intros id armed Hp Hdue Hnf. destruct (Hall3 rep id armed Hrep Hdue) as [_ Hfin].
    apply Hfin; [|by eapply elem_of_due]. left. unfold replayed in *. by rewrite Hs2, Hsch.
Qed.

Lemma append_scheduler_spec d event ctx d' r :
  DInv d -> append_scheduler d event ctx = (d', r) ->
  DInv d' /\ target_store d' = target_store d
  /\ (schedules d' = schedules d
      \/ exists env, payload env = event /\ schedules d' = schedules d ++ [env])
  /\ (r = Ok tt -> exists env, payload env = event /\ schedules d' = schedules d ++ [env]).
Proof.
  intros [Hs Ht]. unfold append_scheduler, schedules.
  destruct (es_load SS _ _) as [s1 r1] eqn:Hl.
  destruct (law_load _ _ _ _ Hs Hl) as (Hs1&Hv1&Hok).
  destruct r1 as [history|e]; [|intros [= <- <-]; split_and!; [by split|done|by left|done]].
  specialize (Hok history eq_refl). subst history.
  destruct (last _) as [l|] eqn:Hlast.
  - destruct (es_append SS s1 _ _ _ _) as [s2 r2] eqn:Ha.
    destruct (law_append _ _ _ _ _ _ _ Hs1 Ha) as [Hs2 Hr2]. intros [= <- <-].
    split_and!; [by split|done|..]; destruct r2 as [envs|e]; simpl; rewrite <- ?Hv1.
    + destruct Hr2 as (_&Hw&Hst&_). destruct (stamped_fired _ _ _ _ Hst) as (env&->&?).
      right. exists env. rewrite Hw. done.
    + destruct Hr2 as [Hr2|(_&_&envs&Hw&Hst)]; [left; apply Hr2|right].
      destruct (stamped_fired _ _ _ _ Hst) as (env&->&?). by exists env.
    + intros _. destruct Hr2 as (_&Hw&Hst&_). destruct (stamped_fired _ _ _ _ Hst) as (env&->&?).
      by exists env.
    + done.
  - apply last_None in Hlast.
    destruct (es_create SS s1 _ _) as [s2 r2] eqn:Ha.
    destruct (law_create _ _ _ _ _ Hs1 Ha) as [Hs2 Hr2]. intros [= <- <-].
    assert (Hone : forall i envs, stamped i ctx [event] envs -> sview s2 i = envs ->
      (forall j, j <> i -> sview s2 j = sview s1 j) ->
      if bool_decide (i = singleton_stream)
      then exists env, payload env = event
             /\ sview s2 singleton_stream = sview (scheduler_store d) singleton_stream ++ [env]
      else sview s2 singleton_stream = sview (scheduler_store d) singleton_stream).
    { intros i envs Hst Hn Ho. case_bool_decide as Hi.
      - subst i. destruct (stamped_fired _ _ _ _ Hst) as (env&->&?). exists env.
        by rewrite Hlast, Hn.
      - rewrite Ho by done. apply Hv1. }
    split_and!; [by split|done|..]; destruct r2 as [[i envs]|e]; simpl.
    + destruct Hr2 as (_&_&Hw&Ho&Hst). specialize (Hone i envs Hst Hw Ho).
      case_bool_decide; [by right|by left].
    + destruct Hr2 as [Hr2|(_&i&_&Ho&Hst)]; [left; by rewrite Hr2, Hv1|].
      specialize (Hone i _ Hst eq_refl Ho). case_bool_decide; [by right|by left].
    + destruct Hr2 as (_&_&Hw&Ho&Hst). specialize (Hone i envs Hst Hw Ho).
      case_bool_decide; [done|intros [=]].
    + done.
Qed.

(** Recording an arm or a cancellation fires nothing. *)
Lemma append_scheduler_pass d event ctx d' r :
  (forall f, event <> Fired f) -> DInv d -> append_scheduler d event ctx = (d', r) -> pass_ok d d'.
Proof.
  intros Hev HD Ha. destruct (append_scheduler_spec _ _ _ _ _ HD Ha) as (HD'&Ht&Hs&_).
  split; [done|intros j; by rewrite Ht|unfold once; by rewrite Ht|].
  intros Ho i. specialize (Ho i). destruct Hs as [->|(env&Hp&->)]; [done|].
  rewrite fires_app. simpl. rewrite Hp. destruct event; [lia|by destruct (Hev event)|lia].
Qed.

(** A store that shows the same histories, as after a restart. *)
Lemma same_views_pass d d' :
  DInv d' -> (forall j, sview (scheduler_store d') j = sview (scheduler_store d) j) ->
  (forall j, tview (target_store d') j = tview (target_store d) j) -> pass_ok d d'.
Proof.
  intros HD Hs Ht. split; [done|intros j; by rewrite Ht| |].
  - intros Ho i u. rewrite Ht. apply Ho.
  - unfold fires_once, schedules. intros Hf i. rewrite Hs. apply Hf.
Qed.

(** The operations of the driver. *)
Inductive driver_step d : DurableScheduler -> Prop :=
| do_arm event : driver_step d (fst (arm d event))
| do_cancel event ctx : driver_step d (fst (cancel d event ctx))
| do_fire id now : driver_step d (fst (fire_schedule d id now))
| do_recover now : driver_step d (fst (recover_due d now)).

Lemma driver_step_pass d d' : faithful_decoder -> DInv d -> driver_step d d' -> pass_ok d d'.
Proof.
  intros Hdec HD [event|event ctx|id now|now].
  - destruct (arm d event) as [d2 r] eqn:Ha. by apply (append_scheduler_pass d (Armed event) (sa_correlation event) d2 r).
  - destruct (cancel d event ctx) as [d2 r] eqn:Ha. by apply (append_scheduler_pass d (Cancelled event) ctx d2 r).
  - destruct (fire_schedule d id now) as [d2 r] eqn:Ha. by eapply fire_pass.
  - destruct (recover_due d now) as [d2 r] eqn:Ha. by eapply recover_pass.
Qed.

Lemma driver_run_pass d d' : faithful_decoder -> DInv d -> rtc driver_step d d' -> pass_ok d d'.
Proof.
  intros Hdec HD Hs. induction Hs as [|d1 d2 d3 H12 _ IH]; [by apply pass_refl|].
  pose proof (driver_step_pass _ _ Hdec HD H12) as Hp.
  eapply pass_trans; [done|]. apply IH, Hp.
Qed.

(** ** Properties *)

(** C2: However often the driver's operations run, in any order and with any
    failures of the stores and the bus (indeterminate ones included), a schedule
    is fired at most once, a caller event reaches its target aggregate at most
    once, and no target history is rewritten. *)
Theorem scheduler_at_most_once d d' :
  faithful_decoder -> DInv d -> rtc driver_step d d' -> fires_once d -> once d ->
  fires_once d' /\ once d' /\ grown d d'.
Proof.
  intros Hdec HD Hs Hf Ho. destruct (driver_run_pass _ _ Hdec HD Hs) as [_ ? ? ?]. auto.
Qed.

(** C9: A recovery pass that returns a report left nothing to do: the event of
    every schedule that was already fired is in its target, and every pending
    schedule that was due and never fired before is now fired, with its event in
    the target. *)
Theorem recover_due_complete d now d' report :
  faithful_decoder -> DInv d -> recover_due d now = (d', Ok report) ->
  (forall id f, fired (replayed d) !! id = Some f -> delivered d' f)
  /\ (forall id armed, pending (replayed d) !! id = Some armed -> fire_at armed <= now ->
        fired (replayed d) !! id = None ->
        fired (replayed d') !! id = Some (from_armed armed) /\ delivered d' (from_armed armed)).
Proof.
  intros Hdec HD Hr. destruct (recover_pass _ _ _ _ Hdec HD Hr) as [_ Hall]. by apply (Hall report).
Qed.

(** The outcome of firing one schedule, branch by branch: [Terminal] exactly
    when it was fired or is cancelled, [Unknown] when it was never armed,
    [NotDue] before its instant, with the scheduler's history unchanged in all
    three; [Fired] when it was pending and due, with one fire record appended and
    the caller event in its target. *)
Theorem fire_schedule_outcome d id now d' o :
  faithful_decoder -> DInv d -> fire_schedule d id now = (d', Ok o) ->
  match o with
  | OutTerminal => schedules d' = schedules d
      /\ (is_Some (fired (replayed d) !! id) \/ id ∈ cancelled (replayed d))
  | OutUnknown => schedules d' = schedules d
      /\ fired (replayed d) !! id = None /\ pending (replayed d) !! id = None
  | OutNotDue => schedules d' = schedules d
      /\ exists armed, pending (replayed d) !! id = Some armed /\ now < fire_at armed
  | OutFired =>
      exists armed env, pending (replayed d) !! id = Some armed /\ fire_at armed <= now
        /\ fired (replayed d) !! id = None /\ payload env = Fired (from_armed armed)
        /\ schedules d' = schedules d ++ [env] /\ delivered d' (from_armed armed)
  end.
Proof.
  intros Hdec HD Hf. by destruct (fire_schedule_spec _ _ _ _ _ Hdec HD Hf) as (_&_&_&?).
Qed.
(** The driver is an implementation of the port. *)
Definition event_scheduler : EventScheduler AgentError :=
  mkEventScheduler AgentError DurableScheduler arm cancel recover_due.

Lemma append_scheduler_fact d event ctx d' r :
  (forall f, event <> Fired f) -> DInv d -> append_scheduler d event ctx = (d', r) ->
  DInv d' /\ (forall f, delivered d f -> delivered d' f)
  /\ (replayed d' = apply_event (replayed d) event \/ (replayed d' = replayed d /\ r <> Ok tt)).
Proof.
  intros Hev HD Ha. destruct (append_scheduler_pass _ _ _ _ _ Hev HD Ha) as [HD' Hg _ _].
  destruct (append_scheduler_spec _ _ _ _ _ HD Ha) as (_&_&Hs&Hok).
  split_and!; [done|intros f; by apply delivered_grown|].
  assert (Hfact : (exists env, payload env = event /\ schedules d' = schedules d ++ [env]) ->
    replayed d' = apply_event (replayed d) event).
  { intros (env&<-&Hx). unfold replayed. by rewrite Hx, from_history_snoc. }
  destruct Hs as [Hs|Hs]; [|by left; apply Hfact]. destruct r as [[]|e]; [by left; apply Hfact, Hok|right].
  split; [unfold replayed; by rewrite Hs|done].
Qed.

Lemma event_scheduler_laws : faithful_decoder -> EventSchedulerLaws event_scheduler DInv replayed delivered.
Proof.
  intros Hdec. split; simpl.
  - intros d event d' r. by apply append_scheduler_fact.
  - intros d event ctx d' r. by apply append_scheduler_fact.
  - intros d now d' r HD Hr. destruct (recover_pass _ _ _ _ Hdec HD Hr) as [[HD' Hg _ _] Hall].
    split_and!; [done|intros f; by apply delivered_grown|]. intros report Hrep. by apply (Hall report).
Qed.
End Driver.

(** The state replayed from a scheduler stream is what the last event about
    each schedule says: pending exactly when that event is an arm (with the
    arm's own data), and a pending schedule is not cancelled.  A schedule that
    was ever fired stays recorded as fired, even when it is armed again. *)
Theorem scheduler_state_replay (h more : list (EventEnvelope SchedulerEvent)) id :
  pending (from_history h) !! id =
    match last_about id (map payload h) with Some (Armed a) => Some a | _ => None end
  /\ (forall a, pending (from_history h) !! id = Some a -> id ∉ cancelled (from_history h))
  /\ (is_Some (fired (from_history h) !! id) -> is_Some (fired (from_history (h ++ more)) !! id)).
Proof.
  split_and!; [apply pending_last|intros a; apply pending_not_cancelled|].
  rewrite <- !not_eq_None_Some, !fired_count, fires_app. lia.
Qed.

(** *** Witnesses: the in-memory stores *)

Definition demo_decode (f : ScheduleFired) : result Z Boxed := Ok (sf_caller_event_id f).

Definition demo_armed : ScheduleArmed :=
  mkScheduleArmed 5 10 (AggregateId_new 1) 99 "caller.event" [] Correlation.none.

(** A target with one event and an empty scheduler stream. *)
Definition demo_start : DurableScheduler (InMemory.store SchedulerEvent) (InMemory.store Z) (FakeBus Z) :=
  mkScheduler (InMemory.store SchedulerEvent) (InMemory.store Z) (FakeBus Z)
    (InMemory.new counting_world)
    (fst (InMemory.create (InMemory.new counting_world) [1] Correlation.none)) [].

(** The schedule is armed. *)
Definition demo_ready := fst (arm (InMemory.store SchedulerEvent) (InMemory.store Z) (FakeBus Z) demo_start demo_armed).

Definition DemoInv :=
  DInv (InMemory.store SchedulerEvent) (InMemory.store Z) (FakeBus Z) InMemory.Inv InMemory.Inv.

Lemma demo_faithful : faithful_decoder demo_decode (fun e => e).
Proof. by intros f e [= <-]. Qed.

Lemma demo_start_inv : DemoInv demo_start.
Proof.
  split; cbn [scheduler_store target_store demo_start]; [apply InMemory.new_inv, counting_v7|].
  apply (InMemory.step_inv (InMemory.new counting_world)).
  - apply InMemory.new_inv, counting_v7.
  - apply InMemory.step_create.
Qed.

Lemma demo_ready_inv : DemoInv demo_ready.
Proof.
  eapply (po_inv (InMemory.store SchedulerEvent) (InMemory.store Z) (FakeBus Z) (fun e => e) InMemory.Inv InMemory.stream_of InMemory.Inv InMemory.stream_of demo_start).
  apply (driver_step_pass (InMemory.store SchedulerEvent) (InMemory.store Z) (FakeBus Z)
           demo_decode (fun e => e) show_Z InMemory.Inv InMemory.stream_of InMemory.Inv
           InMemory.stream_of).
  - apply demo_faithful.
  - apply demo_start_inv.
  - apply do_arm.
Qed.

Lemma demo_once : once (InMemory.store SchedulerEvent) (InMemory.store Z) (FakeBus Z) (fun e => e) InMemory.stream_of demo_ready.
Proof.
  intros id u. unfold InMemory.stream_of.
  assert (Hs : InMemory.streams (target_store (InMemory.store SchedulerEvent) (InMemory.store Z) (FakeBus Z) demo_ready)
    = <[AggregateId_new 1 := [mkEnvelope 1 (AggregateId_new 1) 1 0 None None 1]]> ∅) by reflexivity.
  rewrite Hs. destruct (decide (AggregateId_new 1 = id)) as [<-|Hne].
  - rewrite lookup_insert_eq. cbn -[Z.eqb]. destruct (_ =? _); lia.
  - rewrite lookup_insert_ne by done. rewrite lookup_empty. cbn. lia.
Qed.

Definition demo_recover := recover_due (InMemory.store SchedulerEvent) (InMemory.store Z) (FakeBus Z) demo_decode (fun e => e) show_Z demo_ready 20.
Definition demo_fire := fire_schedule (InMemory.store SchedulerEvent) (InMemory.store Z) (FakeBus Z) demo_decode (fun e => e) show_Z demo_ready 5 20.

Lemma scheduler_at_most_once_witness :
  fires_once (InMemory.store SchedulerEvent) (InMemory.store Z) (FakeBus Z) InMemory.stream_of (fst demo_fire)
  /\ once (InMemory.store SchedulerEvent) (InMemory.store Z) (FakeBus Z) (fun e => e) InMemory.stream_of (fst demo_fire)
  /\ grown (InMemory.store SchedulerEvent) (InMemory.store Z) (FakeBus Z) InMemory.stream_of demo_ready (fst demo_fire).
Proof.
  apply (scheduler_at_most_once (InMemory.store SchedulerEvent) (InMemory.store Z) (FakeBus Z)
           demo_decode (fun e => e) show_Z InMemory.Inv InMemory.stream_of InMemory.Inv
           InMemory.stream_of).
  - apply demo_faithful.
  - apply demo_ready_inv.
  - apply rtc_once. apply do_fire.
  - intros id. vm_compute. lia.
  - apply demo_once.
Defined.

Lemma recover_due_complete_witness :
  snd demo_recover = Ok (mkReport 1 1)
  /\ fired (replayed (InMemory.store SchedulerEvent) (InMemory.store Z) (FakeBus Z) InMemory.stream_of (fst demo_recover)) !! 5 = Some (from_armed demo_armed).
Proof.
  destruct demo_recover as [d' r] eqn:Hr.
  assert (Hok : r = Ok (mkReport 1 1)).
  { pose proof (f_equal snd Hr) as Hs. vm_compute in Hs. symmetry. exact Hs. }
  subst r. split; [reflexivity|].
  apply (recover_due_complete (InMemory.store SchedulerEvent) (InMemory.store Z) (FakeBus Z)
           demo_decode (fun e => e) show_Z InMemory.Inv InMemory.stream_of InMemory.Inv
           InMemory.stream_of demo_ready 20 d' (mkReport 1 1)).
  - apply demo_faithful.
  - apply demo_ready_inv.
  - exact Hr.
  - vm_compute. reflexivity.
  - vm_compute. discriminate.
  - vm_compute. reflexivity.
Defined.

Lemma fire_schedule_outcome_witness :
  snd demo_fire = Ok OutFired
  /\ exists armed env, payload env = Fired (from_armed armed)
       /\ schedules (InMemory.store SchedulerEvent) (InMemory.store Z) (FakeBus Z) InMemory.stream_of (fst demo_fire)
          = schedules (InMemory.store SchedulerEvent) (InMemory.store Z) (FakeBus Z) InMemory.stream_of demo_ready ++ [env].
Proof.
  destruct demo_fire as [d' r] eqn:Hr.
  assert (Hok : r = Ok OutFired).
  { pose proof (f_equal snd Hr) as Hs. vm_compute in Hs. symmetry. exact Hs. }
  subst r. split; [reflexivity|].
  destruct (fire_schedule_outcome (InMemory.store SchedulerEvent) (InMemory.store Z) (FakeBus Z)
           demo_decode (fun e => e) show_Z InMemory.Inv InMemory.stream_of InMemory.Inv
           InMemory.stream_of demo_ready 5 20 d' OutFired demo_faithful demo_ready_inv Hr)
    as (armed&env&_&_&_&Hp&Hs&_).
  exists armed, env. split; [exact Hp|exact Hs].
Defined.
