(* ===== verification/PgnoBridge.v ===== *)
(** * Stores that convert their events

    [PgnoSchedulerStore] ([scheduler_store.rs]) and [PgnoSerdeStore]
    ([serde_bridge.rs]) hold a [PgnoEventStore] of transfer objects and convert
    every event on the way in and every envelope on the way out.  Both have the
    same three operations; [Bridge] models them over any inner store and any pair
    of conversions, and shows that the contract of the inner store carries over
    to the events whose conversion is faithful.  [SchedulerDto] and [SerdeDto] are
    the two conversions. *)

From S2P Require Import Prelude Core Store Pardosa PgnoStore Scheduler.
Import Envelope EnvelopeFacts.
Local Open Scope result_scope.

Module Bridge.
Section Bridge.
Context {A B : Type} (show_uuid : Uuid -> string) (St : EventStore B).
Context (to_dto : A -> result B StoreError) (from_dto : B -> result A StoreError).
Implicit Types (s : es_state St) (id : AggregateId) (e : EventEnvelope B).

Definition remap_envelope e : result (EventEnvelope A) StoreError :=
  let? payload := from_dto (payload e) in
  map_err (fun err => CorruptData (BoxEnvelope err))
    (Envelope.new (event_id e) (aggregate_id e) (sequence e) (timestamp e)
       (env_correlation_id e) (env_causation_id e) payload).

Definition remap_all (envelopes : list (EventEnvelope B)) : result (list (EventEnvelope A)) StoreError :=
  traverse remap_envelope envelopes.

Definition load s (id : AggregateId) : es_state St * result (list (EventEnvelope A)) StoreError :=
  let '(s, r) := es_load St s id in
  (s, let? envelopes := r in remap_all envelopes).

Definition create s (events : list A) (context : CorrelationContext)
    : es_state St * result (AggregateId * list (EventEnvelope A)) StoreError :=
  match traverse to_dto events with
  | Err error => (s, Err error)
  | Ok dtos =>
      let '(s, r) := es_create St s dtos context in
      (s, let? '(id, envelopes) := r in
          let? remapped := map_err (fun error => Pgno.after_landed show_uuid (BoxStore error))
                             (remap_all envelopes) in
          Ok (id, remapped))
  end.

Definition append s (id : AggregateId) (expected_sequence : Z) (events : list A)
    (context : CorrelationContext) : es_state St * result (list (EventEnvelope A)) StoreError :=
  match traverse to_dto events with
  | Err error => (s, Err error)
  | Ok dtos =>
      let '(s, r) := es_append St s id expected_sequence dtos context in
      (s, let? envelopes := r in
          map_err (fun error => Pgno.after_landed show_uuid (BoxStore error)) (remap_all envelopes))
  end.

Definition store : EventStore A := mkEventStore A (es_state St) load create append.

(** ** The contract carries over *)

Context (Inv : es_state St -> Prop) (view : es_state St -> AggregateId -> list (EventEnvelope B))
        {laws : EventStoreLaws St Inv view}.
(** The events that survive the conversion. *)
Context (faithful : A -> Prop)
        (roundtrip : forall a b, faithful a -> to_dto a = Ok b -> from_dto b = Ok a).

Definition converted e : option (EventEnvelope A) :=
  match from_dto (payload e) with
  | Ok a => Some (mkEnvelope (event_id e) (aggregate_id e) (sequence e) (timestamp e)
                    (env_correlation_id e) (env_causation_id e) a)
  | Err _ => None
  end.

Definition readable (l : list (EventEnvelope B)) : Prop := Forall (fun e => is_Some (converted e)) l.

(** The histories seen through the conversion. *)
Definition bridge_view s id : list (EventEnvelope A) := omap converted (view s id).
Definition bridge_inv s : Prop := Inv s /\ forall id, readable (view s id).

Lemma remap_nonnil l :
  Forall (fun e => event_id e <> 0) l -> readable l -> remap_all l = Ok (omap converted l).
Proof using Type.
  intros Hids Hr. unfold remap_all. induction Hids as [|e l He Hl IH]; [done|].
  apply Forall_cons in Hr as [[x Hx] Hr]. cbn. rewrite Hx, (IH Hr).
  unfold converted in Hx. unfold remap_envelope.
  destruct (from_dto (payload e)) as [a|]; simplify_eq/=.
  unfold Envelope.new, is_nil. by destruct (Z.eqb_spec (event_id e) 0).
Qed.

Lemma remap_all_ok id l :
  valid_stream id l -> readable l -> remap_all l = Ok (omap converted l).
Proof using Type. intros [Hids _ _ _]. by apply remap_nonnil. Qed.

Lemma remap_suffix id l envs :
  valid_stream id (l ++ envs) -> readable envs -> remap_all envs = Ok (omap converted envs).
Proof using Type.
  intros [Hids _ _ _] Hr. apply Forall_app in Hids as [_ Hids].
  by apply remap_nonnil.
Qed.

Lemma converted_length l : readable l -> length (omap converted l) = length l.
Proof using Type.
  induction 1 as [|e l [x Hx] _ IH]; [done|]. cbn. rewrite Hx. cbn. by rewrite IH.
Qed.

(** Metadata is not touched by the conversion. *)
Lemma converted_valid id l : valid_stream id l -> readable l -> valid_stream id (omap converted l).
Proof using Type.
  intros Hv Hr. induction l as [|e l IH] using rev_ind; [apply valid_stream_nil|].
  apply valid_stream_snoc in Hv as (Hv&Hn&Hd&Ho&Hs). apply Forall_app in Hr as [Hr He].
  apply Forall_singleton in He as [x Hx]. specialize (IH Hv Hr).
  rewrite omap_app. cbn. rewrite Hx. apply valid_stream_snoc.
  assert (Hmap : map event_id (omap converted l) = map event_id l).
  { clear -Hr. induction Hr as [|y l [z Hz] _ IH]; [done|]. cbn. rewrite Hz. cbn. rewrite IH.
    unfold converted in Hz. destruct (from_dto (payload y)); simplify_eq. done. }
  unfold converted in Hx. destruct (from_dto (payload e)); simplify_eq/=.
  rewrite Hmap, converted_length by done. by split_and!.
Qed.

Lemma stamped_converted id ctx events dtos envs :
  Forall faithful events -> traverse to_dto events = Ok dtos -> stamped id ctx dtos envs ->
  readable envs /\ stamped id ctx events (omap converted envs).
Proof using roundtrip.
  intros Hf Ht Hs. apply traverse_ok in Ht. revert envs Hs.
  induction Ht as [|a b events dtos Hb Ht IH]; intros envs Hs.
  { inversion Hs; subst. split; constructor. }
  inversion Hs as [|? e ? envs' (Hp&?&?&?) Hs']; subst. apply Forall_cons in Hf as [Ha Hf].
  destruct (IH Hf _ Hs') as [Hr Hst].
  assert (Hc : converted e = Some (mkEnvelope (event_id e) (aggregate_id e) (sequence e) (timestamp e)
                    (env_correlation_id e) (env_causation_id e) a)).
  { unfold converted. by rewrite (roundtrip _ _ Ha Hb). }
  split; [constructor; [by rewrite Hc|done]|]. cbn. rewrite Hc. constructor; done.
Qed.

Lemma traverse_nonempty events dtos :
  traverse to_dto events = Ok dtos -> (events <> [] <-> dtos <> []).
Proof using Type. intros H. apply traverse_ok in H. destruct H; split; done. Qed.

Lemma view_unchanged s s' : (forall j, view s' j = view s j) -> forall j, bridge_view s' j = bridge_view s j.
Proof using Type. intros H j. unfold bridge_view. by rewrite H. Qed.

Lemma readable_unchanged s s' : Inv s' -> bridge_inv s -> (forall j, view s' j = view s j) -> bridge_inv s'.
Proof using Type. intros HI [_ Hr] H. split; [done|]. intros j. by rewrite H. Qed.

(** [s'] extends the history of [id] by readable envelopes. *)
Lemma readable_extended s s' id envs :
  Inv s' -> bridge_inv s -> (forall j, j <> id -> view s' j = view s j) ->
  view s' id = view s id ++ envs -> readable envs -> bridge_inv s'.
Proof using Type.
  intros HI [_ Hr] Ho Hid He. split; [done|]. intros j.
  destruct (decide (j = id)) as [->|Hj]; [|by rewrite Ho].
  rewrite Hid. apply Forall_app. split; [apply Hr|done].
Qed.

Lemma bridge_load_law s id s' r :
  bridge_inv s -> load s id = (s', r) -> load_contract bridge_inv bridge_view s id s' r.
Proof using laws.
  intros HB. pose proof HB as [HI Hr]. unfold load. destruct (es_load St s id) as [s1 r1] eqn:Hl.
  destruct (law_load _ _ _ _ HI Hl) as (HI1&Hv&Hok). intros [= <- <-].
  split; [by eapply readable_unchanged|]. split; [by apply view_unchanged|].
  intros l. destruct r1 as [envs|e]; simpl; [|done]. rewrite (Hok _ eq_refl).
  rewrite (remap_all_ok id); [by intros [= <-]|by apply law_valid|done].
Qed.

Lemma bridge_create_law s events ctx s' r :
  bridge_inv s -> Forall faithful events -> create s events ctx = (s', r) ->
  create_contract bridge_inv bridge_view s events ctx s' r.
Proof using laws roundtrip.
  intros HB Hf. pose proof HB as [HI Hr]. unfold create.
  destruct (traverse to_dto events) as [dtos|e] eqn:Ht.
  2:{ intros [= <- <-]. split; [done|]. by left. }
  destruct (es_create St s dtos ctx) as [s1 r1] eqn:Hc.
  destruct (law_create _ _ _ _ _ HI Hc) as [HI1 Hcase]. intros [= <- <-].
  assert (Hwrote : forall id envs, view s id = [] -> view s1 id = envs ->
    (forall j, j <> id -> view s1 j = view s j) -> stamped id ctx dtos envs ->
    bridge_inv s1 /\ bridge_view s id = [] /\ (forall j, j <> id -> bridge_view s1 j = bridge_view s j)
    /\ stamped id ctx events (bridge_view s1 id) /\ remap_all envs = Ok (bridge_view s1 id)).
  { intros id envs Hnil Hid Ho Hst.
    destruct (stamped_converted _ _ _ _ _ Hf Ht Hst) as [Hread Hst'].
    unfold bridge_view. rewrite Hid, Hnil. split_and!; try done.
    - eapply (readable_extended s s1 id); try done. by rewrite Hnil.
    - intros j Hj. by rewrite Ho.
    - apply (remap_all_ok id); [|done]. rewrite <- Hid. by apply law_valid. }
  destruct r1 as [[id envs]|e]; simpl.
  - destruct Hcase as (Hne&Hnil&Hid&Ho&Hst).
    destruct (Hwrote _ _ Hnil Hid Ho Hst) as (HB1&Hn&Hoth&Hs&Hm). rewrite Hm. simpl.
    split; [done|]. split_and!; try done. by apply (traverse_nonempty _ _ Ht).
  - destruct Hcase as [Hsame|(Hd&id&Hnil&Ho&Hst)].
    + split; [by eapply readable_unchanged|]. left. by apply view_unchanged.
    + destruct (Hwrote _ _ Hnil eq_refl Ho Hst) as (HB1&Hn&Hoth&Hs&_).
      split; [done|]. right. split; [done|]. exists id. by split_and!.
Qed.

Lemma bridge_append_law s id q events ctx s' r :
  bridge_inv s -> Forall faithful events -> append s id q events ctx = (s', r) ->
  append_contract bridge_inv bridge_view s id q events ctx s' r.
Proof using laws roundtrip.
  intros HB Hf. pose proof HB as [HI Hr]. unfold append.
  destruct (traverse to_dto events) as [dtos|e] eqn:Ht.
  2:{ intros [= <- <-]. split; [done|]. by left. }
  destruct (es_append St s id q dtos ctx) as [s1 r1] eqn:Hc.
  destruct (law_append _ _ _ _ _ _ _ HI Hc) as [HI1 Hcase]. intros [= <- <-].
  assert (Hwrote : forall envs, view s1 id = view s id ++ envs ->
    (forall j, j <> id -> view s1 j = view s j) -> stamped id ctx dtos envs ->
    bridge_inv s1 /\ bridge_view s1 id = bridge_view s id ++ omap converted envs
    /\ (forall j, j <> id -> bridge_view s1 j = bridge_view s j)
    /\ stamped id ctx events (omap converted envs) /\ remap_all envs = Ok (omap converted envs)).
  { intros envs Hid Ho Hst. destruct (stamped_converted _ _ _ _ _ Hf Ht Hst) as [Hread Hst'].
    split_and!; try done.
    - by eapply (readable_extended s s1 id).
    - unfold bridge_view. by rewrite Hid, omap_app.
    - intros j Hj. unfold bridge_view. by rewrite Ho.
    - pose proof (law_valid s1 id HI1) as Hv. rewrite Hid in Hv. by eapply remap_suffix. }
  destruct r1 as [envs|e]; simpl.
  - destruct Hcase as (Ho&Hid&Hst&Hexp).
    destruct (Hwrote _ Hid Ho Hst) as (HB1&Hn&Hoth&Hs&Hm). rewrite Hm. simpl.
    split; [done|]. split_and!; try done. intros Hne.
    destruct (Hexp (proj1 (traverse_nonempty _ _ Ht) Hne)) as [Hv ->].
    unfold bridge_view. rewrite converted_length by done. split; [|done].
    intros Hnil. apply Hv, length_zero_iff_nil. by rewrite <- converted_length, Hnil by done.
  - destruct Hcase as [Hsame|(Hd&Ho&envs&Hid&Hst)].
    + split; [by eapply readable_unchanged|]. left. by apply view_unchanged.
    + destruct (Hwrote _ Hid Ho Hst) as (HB1&Hn&Hoth&Hs&_).
      split; [done|]. right. split_and!; try done. exists (omap converted envs). by split.
Qed.

(** A store that converts its events keeps the contract of the store it
    wraps, for the events whose conversion is faithful: its histories are the
    inner ones seen through the conversion, [load] returns them, and [create] and
    [append] write, all or nothing, the very events they were given, with the same
    meaning of success, of a definite failure and of an unknown outcome. *)
Theorem bridge_store_contract s :
  bridge_inv s ->
  (forall id s' r, load s id = (s', r) -> load_contract bridge_inv bridge_view s id s' r)
  /\ (forall events ctx s' r, Forall faithful events -> create s events ctx = (s', r) ->
       create_contract bridge_inv bridge_view s events ctx s' r)
  /\ (forall id q events ctx s' r, Forall faithful events -> append s id q events ctx = (s', r) ->
       append_contract bridge_inv bridge_view s id q events ctx s' r)
  /\ (forall id, valid_stream id (bridge_view s id)).
Proof using laws roundtrip.
  intros HB. split_and!.
  - intros. by apply bridge_load_law.
  - intros. by apply bridge_create_law.
  - intros. by apply bridge_append_law.
  - intros id. destruct HB as [HI Hr]. apply converted_valid; [by apply law_valid|apply Hr].
Qed.
End Bridge.
End Bridge.

(** ** The scheduler's transfer object *)

Module SchedulerDto.

Definition CALLER_EVENT_TYPE_MAX : Z := 512.
Definition PAYLOAD_MAX : Z := 65536.

Record ScheduleArmedDto := mkArmedDto {
  da_schedule_id : Uuid;
  da_fire_at_nanos : Z;
  da_target_aggregate : Z;
  da_caller_event_id : Uuid;
  da_caller_event_type : string;
  da_payload : list Z;
  da_correlation_id : option Uuid;
  da_causation_id : option Uuid;
}.

Record ScheduleFiredDto := mkFiredDto {
  df_schedule_id : Uuid;
  df_target_aggregate : Z;
  df_caller_event_id : Uuid;
  df_caller_event_type : string;
  df_payload : list Z;
  df_correlation_id : option Uuid;
  df_causation_id : option Uuid;
}.

Inductive SchedulerEventDto :=
| DtoArmed (armed : ScheduleArmedDto)
| DtoFired (fired : ScheduleFiredDto)
| DtoCancelled (schedule_id : Uuid).

Inductive SchedulerEventConversionError :=
| CallerEventTypeTooLong (actual : Z)
| PayloadTooLong (actual : Z).

Definition ConversionError_display (e : SchedulerEventConversionError) : string :=
  match e with
  | CallerEventTypeTooLong actual =>
      "caller_event_type is " +:+ show_Z actual +:+ " bytes, exceeds bound "
        +:+ show_Z CALLER_EVENT_TYPE_MAX
  | PayloadTooLong actual =>
      "payload is " +:+ show_Z actual +:+ " bytes, exceeds bound " +:+ show_Z PAYLOAD_MAX
  end.

Definition caller_event_type_dto (value : string) : result string SchedulerEventConversionError :=
  let len := Z.of_nat (String.length value) in
  if CALLER_EVENT_TYPE_MAX <? len then Err (CallerEventTypeTooLong len) else Ok value.

Definition payload_dto (value : list Z) : result (list Z) SchedulerEventConversionError :=
  let len := Z.of_nat (length value) in
  if PAYLOAD_MAX <? len then Err (PayloadTooLong len) else Ok value.

Definition to_dto (event : SchedulerEvent) : result SchedulerEventDto SchedulerEventConversionError :=
  match event with
  | Armed armed =>
      let? caller_event_type := caller_event_type_dto (sa_caller_event_type armed) in
      let? payload := payload_dto (sa_payload armed) in
      Ok (DtoArmed (mkArmedDto (sa_schedule_id armed) (fire_at armed)
            (AggregateId_get (sa_target_aggregate armed)) (sa_caller_event_id armed)
            caller_event_type payload (correlation_id (sa_correlation armed))
            (causation_id (sa_correlation armed))))
  | Fired fired =>
      let? caller_event_type := caller_event_type_dto (sf_caller_event_type fired) in
      let? payload := payload_dto (sf_payload fired) in
      Ok (DtoFired (mkFiredDto (sf_schedule_id fired)
            (AggregateId_get (sf_target_aggregate fired)) (sf_caller_event_id fired)
            caller_event_type payload (correlation_id (sf_correlation fired))
            (causation_id (sf_correlation fired))))
  | Cancelled cancelled => Ok (DtoCancelled (sc_schedule_id cancelled))
  end.

Definition target_aggregate_from (raw : Z) : result AggregateId StoreError :=
  ok_or (AggregateId_new <$> NonZeroU64_new raw)
    (CorruptData (BoxMsg "scheduler DTO target_aggregate must be non-zero")).

Definition correlation_from (correlation_id causation_id : option Uuid) : CorrelationContext :=
  match correlation_id, causation_id with
  | Some c, Some k => Correlation.new c k
  | Some c, None => Correlation.correlated c
  | None, _ => Correlation.none
  end.

Section FromDto.
(** [jiff::Timestamp::from_nanosecond]. *)
Context (from_nanosecond : Z -> result Timestamp Boxed).

Definition from_dto (dto : SchedulerEventDto) : result SchedulerEvent StoreError :=
  match dto with
  | DtoArmed armed =>
      let? target_aggregate := target_aggregate_from (da_target_aggregate armed) in
      let? fire_at := map_err CorruptData (from_nanosecond (da_fire_at_nanos armed)) in
      Ok (Armed (mkScheduleArmed (da_schedule_id armed) fire_at target_aggregate
            (da_caller_event_id armed) (da_caller_event_type armed) (da_payload armed)
            (correlation_from (da_correlation_id armed) (da_causation_id armed))))
  | DtoFired fired =>
      let? target_aggregate := target_aggregate_from (df_target_aggregate fired) in
      Ok (Fired (from_armed (mkScheduleArmed (df_schedule_id fired) 0 target_aggregate
            (df_caller_event_id fired) (df_caller_event_type fired) (df_payload fired)
            (correlation_from (df_correlation_id fired) (df_causation_id fired)))))
  | DtoCancelled schedule_id => Ok (Cancelled (mkScheduleCancelled schedule_id))
  end.

Definition conversion_error (error : SchedulerEventConversionError) : StoreError :=
  Infrastructure (BoxMsg (ConversionError_display error)).

(** What the types of the source exclude: an aggregate id of zero, an instant
    that is not one, and, through the constructors of [CorrelationContext], a
    causation without a correlation. *)
Definition constructible (ctx : CorrelationContext) : Prop :=
  correlation_id ctx = None -> causation_id ctx = None.

Definition representable (e : SchedulerEvent) : Prop :=
  match e with
  | Armed a => AggregateId_get (sa_target_aggregate a) <> 0
               /\ from_nanosecond (fire_at a) = Ok (fire_at a) /\ constructible (sa_correlation a)
  | Fired f => AggregateId_get (sf_target_aggregate f) <> 0 /\ constructible (sf_correlation f)
  | Cancelled _ => True
  end.

Lemma correlation_from_self ctx :
  constructible ctx -> correlation_from (correlation_id ctx) (causation_id ctx) = ctx.
Proof using Type.
  destruct ctx as [[c|] [k|]]; unfold constructible; simpl; try done. intros H. by specialize (H eq_refl).
Qed.

Lemma target_aggregate_self id :
  AggregateId_get id <> 0 -> target_aggregate_from (AggregateId_get id) = Ok id.
Proof using Type.
  intros H. unfold target_aggregate_from, NonZeroU64_new.
  destruct (Z.eqb_spec (AggregateId_get id) 0); [done|]. by destruct id.
Qed.

Lemma to_dto_from_dto e dto : representable e -> to_dto e = Ok dto -> from_dto dto = Ok e.
Proof using Type.
  destruct e as [a|f|c]; simpl.
  - intros (Ht&Hf&Hc). unfold caller_event_type_dto, payload_dto.
    destruct (_ <? _); simpl; [done|]. destruct (_ <? _); simpl; [done|]. intros [= <-]. simpl.
    rewrite target_aggregate_self by done. simpl. rewrite Hf. simpl.
    rewrite correlation_from_self by done. by destruct a.
  - intros (Ht&Hc). unfold caller_event_type_dto, payload_dto.
    destruct (_ <? _); simpl; [done|]. destruct (_ <? _); simpl; [done|]. intros [= <-]. simpl.
    rewrite target_aggregate_self by done. simpl.
    rewrite correlation_from_self by done. by destruct f.
  - intros _ [= <-]. by destruct c.
Qed.

(** The conversion of scheduler events to their stored form and back is the
    identity on every representable event that fits, and an event is refused
    exactly when its type name or its payload is over its bound, with the first
    bound that is exceeded and the actual length. *)
Theorem scheduler_dto_roundtrip e :
  representable e ->
  let type_len x := Z.of_nat (String.length x) in
  let fits t p := type_len t <= CALLER_EVENT_TYPE_MAX /\ Z.of_nat (length p) <= PAYLOAD_MAX in
  let refused t p err :=
    (CALLER_EVENT_TYPE_MAX < type_len t /\ err = CallerEventTypeTooLong (type_len t))
    \/ (type_len t <= CALLER_EVENT_TYPE_MAX /\ PAYLOAD_MAX < Z.of_nat (length p)
        /\ err = PayloadTooLong (Z.of_nat (length p))) in
  match e, to_dto e with
  | Armed a, Ok dto => from_dto dto = Ok e /\ fits (sa_caller_event_type a) (sa_payload a)
  | Fired f, Ok dto => from_dto dto = Ok e /\ fits (sf_caller_event_type f) (sf_payload f)
  | Cancelled _, Ok dto => from_dto dto = Ok e
  | Armed a, Err err => refused (sa_caller_event_type a) (sa_payload a) err
  | Fired f, Err err => refused (sf_caller_event_type f) (sf_payload f) err
  | Cancelled _, Err _ => False
  end.
Proof using Type.
  intros Hr type_len fits refused. pose proof (fun dto => to_dto_from_dto e dto Hr) as Hback.
  destruct e as [a|f|c]; [| |by apply Hback];
    destruct (to_dto _) as [dto|err] eqn:Hd; try (split; [by apply Hback|]); clear Hback;
    simpl in Hd; unfold caller_event_type_dto, payload_dto in Hd; unfold fits, refused, type_len;
    crush; naive_solver lia.
Qed.
End FromDto.
End SchedulerDto.

(** ** The serde bridge *)

Module SerdeDto.
Section SerdeDto.
Context {Ev : Type} (to_vec : Ev -> result Bytes Boxed) (from_slice : Bytes -> result Ev Boxed).
Context (show_uuid : Uuid -> string).

Definition SERDE_ENVELOPE_MAX : Z := 262144.

Record SerdeEnvelopeDto := mkSerdeDto { dto_bytes : Bytes }.

Inductive SerdeBridgeError := TooLarge (actual : Z) | Codec (error : Boxed).

Definition SerdeBridgeError_display (e : SerdeBridgeError) : string :=
  match e with
  | TooLarge actual => "serde-bridge event is " +:+ show_Z actual +:+ " bytes, exceeds bound "
                         +:+ show_Z SERDE_ENVELOPE_MAX
  | Codec error => "serde-bridge codec error: " +:+ Boxed_display show_uuid error
  end.

Definition to_dto (event : Ev) : result SerdeEnvelopeDto SerdeBridgeError :=
  let? json := map_err Codec (to_vec event) in
  let actual := Z.of_nat (length json) in
  if SERDE_ENVELOPE_MAX <? actual then Err (TooLarge actual) else Ok (mkSerdeDto json).

Definition from_dto (dto : SerdeEnvelopeDto) : result Ev SerdeBridgeError :=
  map_err Codec (from_slice (dto_bytes dto)).

Definition conversion_error (error : SerdeBridgeError) : StoreError :=
  Infrastructure (BoxMsg (SerdeBridgeError_display error)).

(** The conversion is faithful on the events the JSON codec round-trips. *)
Lemma serde_faithful event dto :
  (forall j, to_vec event = Ok j -> from_slice j = Ok event) ->
  map_err conversion_error (to_dto event) = Ok dto ->
  map_err conversion_error (from_dto dto) = Ok event.
Proof using Type.
  intros Hj. unfold to_dto, from_dto. destruct (to_vec event) as [j|e]; simpl; [|done].
  destruct (_ <? _); simpl; [done|]. intros [= <-]. simpl. by rewrite (Hj j eq_refl).
Qed.
End SerdeDto.
End SerdeDto.

(** ** The two stores *)

Definition PgnoSchedulerStore (show_uuid : Uuid -> string)
    (from_nanosecond : Z -> result Timestamp Boxed) (inner : EventStore SchedulerDto.SchedulerEventDto)
    : EventStore SchedulerEvent :=
  Bridge.store show_uuid inner
    (fun e => map_err SchedulerDto.conversion_error (SchedulerDto.to_dto e))
    (SchedulerDto.from_dto from_nanosecond).

Definition PgnoSerdeStore {Ev} (show_uuid : Uuid -> string) (to_vec : Ev -> result Bytes Boxed)
    (from_slice : Bytes -> result Ev Boxed) (inner : EventStore SerdeDto.SerdeEnvelopeDto)
    : EventStore Ev :=
  Bridge.store show_uuid inner
    (fun e => map_err (SerdeDto.conversion_error show_uuid) (SerdeDto.to_dto to_vec e))
    (fun d => map_err (SerdeDto.conversion_error show_uuid) (SerdeDto.from_dto from_slice d)).

Lemma scheduler_conversion from_nanosecond e dto :
  SchedulerDto.representable from_nanosecond e ->
  map_err SchedulerDto.conversion_error (SchedulerDto.to_dto e) = Ok dto ->
  SchedulerDto.from_dto from_nanosecond dto = Ok e.
Proof.
  intros Hr. destruct (SchedulerDto.to_dto e) as [d|] eqn:Hd; simpl; [|done]. intros [= <-].
  by apply SchedulerDto.to_dto_from_dto.
Qed.

(** *** Witnesses *)

Definition demo_event : SchedulerEvent :=
  Armed (mkScheduleArmed 5 10 (AggregateId_new 1) 99 "caller.event" [1; 2] (Correlation.new 3 4)).

Lemma scheduler_dto_roundtrip_witness :
  match SchedulerDto.to_dto demo_event with
  | Ok dto => SchedulerDto.from_dto Ok dto = Ok demo_event
  | Err _ => False
  end.
Proof.
  assert (Hr : SchedulerDto.representable Ok demo_event) by (split_and!; [discriminate|reflexivity|discriminate]).
  pose proof (SchedulerDto.scheduler_dto_roundtrip Ok demo_event Hr) as H. simpl in H |- *. apply H.
Defined.

Definition dto_store := InMemory.store SchedulerDto.SchedulerEventDto.
Definition demo_to_dto (e : SchedulerEvent) :=
  map_err SchedulerDto.conversion_error (SchedulerDto.to_dto e).

Lemma bridge_store_contract_witness :
  let '(s', r) := Bridge.create show_Z dto_store demo_to_dto (SchedulerDto.from_dto Ok)
                    (InMemory.new counting_world) [demo_event] Correlation.none in
  is_ok r = true
  /\ create_contract (Bridge.bridge_inv dto_store (SchedulerDto.from_dto Ok) InMemory.Inv InMemory.stream_of)
       (Bridge.bridge_view dto_store (SchedulerDto.from_dto Ok) InMemory.stream_of)
       (InMemory.new counting_world) [demo_event] Correlation.none s' r.
Proof.
  destruct (Bridge.create _ _ _ _ _ _ _) as [s' r] eqn:Hc. split.
  - apply (f_equal snd) in Hc. vm_compute in Hc. simpl in Hc. by rewrite <- Hc.
  - eapply (Bridge.bridge_store_contract show_Z dto_store demo_to_dto (SchedulerDto.from_dto Ok)
              InMemory.Inv InMemory.stream_of (SchedulerDto.representable Ok)
              (scheduler_conversion Ok) (InMemory.new counting_world)).
    + split; [apply InMemory.new_inv, counting_v7|]. intros id. constructor.
    + apply Forall_singleton. split_and!; [discriminate|reflexivity|discriminate].
    + exact Hc.
Defined.
