(* ===== verification/Durable.v ===== *)
(** * The scheduler on files, across restarts

    The parts of the repository put together the way its tests do: the durable
    scheduler of [cherry-pit-app/src/scheduler.rs] over the scheduler store of
    [pardosa-cherry-pit-test-support/src/scheduler_store.rs] and a target store of
    [lib.rs], each on a pgno file, with processes that stop at any point, also in
    the middle of an operation, and open the files again. *)

From S2P Require Import Prelude Core Store Pardosa PgnoStore PgnoOpen Agent Scheduler PgnoBridge.
Import Envelope EnvelopeFacts.
Local Open Scope Z_scope.

(** ** A store for the events that a type admits

    The types of the source exclude some values that the model's have (an
    aggregate id of zero, a causation without a correlation).  [Guard] makes of a
    store that keeps its contract for the others a store that keeps it for all,
    by refusing those. *)

Module Guard.
Section Guard.
Context {A : Type} (St : EventStore A) (admitted : A -> bool).

Definition excluded : StoreError := Infrastructure (BoxMsg "value outside its type").

Definition store : EventStore A :=
  mkEventStore A (es_state St) (es_load St)
    (fun s events ctx => if forallb admitted events then es_create St s events ctx else (s, Err excluded))
    (fun s id q events ctx => if forallb admitted events then es_append St s id q events ctx else (s, Err excluded)).

Context (Inv : es_state St -> Prop) (view : es_state St -> AggregateId -> list (EventEnvelope A)).
Context (valid : forall s id, Inv s -> valid_stream id (view s id))
  (load_ok : forall s id s' r, Inv s -> es_load St s id = (s', r) -> load_contract Inv view s id s' r)
  (create_ok : forall s events ctx s' r, Inv s -> Forall (fun a => admitted a = true) events ->
     es_create St s events ctx = (s', r) -> create_contract Inv view s events ctx s' r)
  (append_ok : forall s id q events ctx s' r, Inv s -> Forall (fun a => admitted a = true) events ->
     es_append St s id q events ctx = (s', r) -> append_contract Inv view s id q events ctx s' r).

Lemma forallb_Forall (events : list A) : forallb admitted events = true -> Forall (fun a => admitted a = true) events.
Proof using Type. rewrite forallb_forall, Forall_forall. by setoid_rewrite list_elem_of_In. Qed.

Lemma guard_laws : EventStoreLaws store Inv view.
Proof using valid load_ok create_ok append_ok.
  split; simpl; try done.
  - intros s events ctx s' r HI. destruct (forallb admitted events) eqn:Ha.
    + apply create_ok; [done|by apply forallb_Forall].
    + intros [= <- <-]. split; [done|]. by left.
  - intros s id q events ctx s' r HI. destruct (forallb admitted events) eqn:Ha.
    + apply append_ok; [done|by apply forallb_Forall].
    + intros [= <- <-]. split; [done|]. by left.
Qed.
End Guard.
End Guard.

(** ** A process that stops

    An operation is a sequence of calls of its stores.  [Halting] is a store that
    answers so many calls and no more: an operation over it has, on the store
    below, exactly the effects of its calls up to there. *)

Module Halting.
Section Halting.
Context {A : Type} (St : EventStore A).

Definition stopped : StoreError := Infrastructure (BoxMsg "stopped").

Definition call {R} (s : nat * es_state St) (k : es_state St -> es_state St * result R StoreError)
    : (nat * es_state St) * result R StoreError :=
  match fst s with
  | O => (s, Err stopped)
  | S n => let '(s', r) := k (snd s) in ((n, s'), r)
  end.

Definition store : EventStore A :=
  mkEventStore A (nat * es_state St)
    (fun s id => call s (fun st => es_load St st id))
    (fun s events ctx => call s (fun st => es_create St st events ctx))
    (fun s id q events ctx => call s (fun st => es_append St st id q events ctx)).

Context (Inv : es_state St -> Prop) (view : es_state St -> AggregateId -> list (EventEnvelope A)).

Lemma halting_laws :
  EventStoreLaws St Inv view -> EventStoreLaws store (fun s => Inv (snd s)) (fun s => view (snd s)).
Proof using Type.
  intros laws. split; simpl; unfold call; [by intros s id HI; apply law_valid| | |].
  - intros [[|n] s] id s' r HI; simpl; [by intros [= <- <-]|].
    destruct (es_load St s id) as [s1 r1] eqn:E. intros [= <- <-].
    apply (law_load (S := St) (Inv := Inv) (view := view) _ _ _ _ HI E).
  - intros [[|n] s] events ctx s' r HI; simpl; [intros [= <- <-]; split; [done|by left]|].
    destruct (es_create St s events ctx) as [s1 r1] eqn:E. intros [= <- <-].
    apply (law_create (S := St) (Inv := Inv) (view := view) _ _ _ _ _ HI E).
  - intros [[|n] s] id q events ctx s' r HI; simpl; [intros [= <- <-]; split; [done|by left]|].
    destruct (es_append St s id q events ctx) as [s1 r1] eqn:E. intros [= <- <-].
    apply (law_append (S := St) (Inv := Inv) (view := view) _ _ _ _ _ _ _ HI E).
Qed.
End Halting.
End Halting.

(** The operations of a driver, cut off: the stores answer [n] and [m] calls. *)
Section Interrupted.
Context {E : Type} (SS : EventStore SchedulerEvent) (TS : EventStore E) (B : EventBus E).
Context (decode : ScheduleFired -> result E Boxed) (scheduled_event_id : E -> Uuid) (show_uuid : Uuid -> string).
Notation HS := (Halting.store SS).
Notation HT := (Halting.store TS).

Definition halting (n m : nat) (d : DurableScheduler SS TS B) : DurableScheduler HS HT B :=
  mkScheduler HS HT B (n, scheduler_store SS TS B d) (m, target_store SS TS B d) (target_bus SS TS B d).
Definition left_behind (d : DurableScheduler HS HT B) : DurableScheduler SS TS B :=
  mkScheduler SS TS B (snd (scheduler_store HS HT B d)) (snd (target_store HS HT B d)) (target_bus HS HT B d).

Definition interrupted (d d' : DurableScheduler SS TS B) : Prop :=
  exists n m cut, driver_step HS HT B decode scheduled_event_id show_uuid (halting n m d) cut /\ d' = left_behind cut.

Context (SInv : es_state SS -> Prop) (sview : es_state SS -> AggregateId -> list (EventEnvelope SchedulerEvent)).
Context (TInv : es_state TS -> Prop) (tview : es_state TS -> AggregateId -> list (EventEnvelope E)).
Context {slaws : EventStoreLaws SS SInv sview} {tlaws : EventStoreLaws TS TInv tview}.

Lemma interrupted_pass d d' :
  faithful_decoder decode scheduled_event_id -> DInv SS TS B SInv TInv d -> interrupted d d' ->
  pass_ok SS TS B scheduled_event_id SInv sview TInv tview d d'.
Proof using slaws tlaws.
  pose proof (Halting.halting_laws SS SInv sview slaws). pose proof (Halting.halting_laws TS TInv tview tlaws).
  intros Hdec [Hs Ht] (n&m&cut&Hstep&->).
  destruct (driver_step_pass HS HT B decode scheduled_event_id show_uuid (fun s => SInv (snd s)) (fun s => sview (snd s))
              (fun s => TInv (snd s)) (fun s => tview (snd s)) _ _ Hdec
              (Build_DInv HS HT B (fun s => SInv (snd s)) (fun s => TInv (snd s)) (halting n m d) Hs Ht) Hstep)
    as [[Hs' Ht'] Hg Ho Hf].
  by split.
Qed.
End Interrupted.

(** [SchedulerDto.representable], decided. *)
Definition representable_b (from_nanosecond : Z -> result Timestamp Boxed) (e : SchedulerEvent) : bool :=
  let constructible ctx := bool_decide (is_Some (correlation_id ctx)) || bool_decide (causation_id ctx = None) in
  match e with
  | Armed a => negb (AggregateId_get (sa_target_aggregate a) =? 0)
      && match from_nanosecond (fire_at a) with Ok t => t =? fire_at a | Err _ => false end
      && constructible (sa_correlation a)
  | Fired f => negb (AggregateId_get (sf_target_aggregate f) =? 0) && constructible (sf_correlation f)
  | Cancelled _ => true
  end.

Lemma representable_b_sound from_nanosecond e :
  representable_b from_nanosecond e = true -> SchedulerDto.representable from_nanosecond e.
Proof.
  assert (Hc : forall ctx, bool_decide (is_Some (correlation_id ctx)) || bool_decide (causation_id ctx = None) = true ->
    SchedulerDto.constructible ctx).
  { intros ctx [[c Hx]%bool_decide_eq_true|H%bool_decide_eq_true]%orb_true_iff; [|by intros _]. intros Hn. congruence. }
  destruct e as [a|f|c]; simpl; [| |done].
  - rewrite !andb_true_iff. intros [[Ha Hf] Hctx]. apply negb_true_iff, Z.eqb_neq in Ha.
    destruct (from_nanosecond (fire_at a)) as [t|]; [|done]. apply Z.eqb_eq in Hf as ->. split_and!; auto.
  - rewrite andb_true_iff. intros [Ha Hctx]. apply negb_true_iff, Z.eqb_neq in Ha. auto.
Qed.

(** ** The composed system *)

Section Durable.
Context {E D : Type} `{EqDecision D} (show_uuid : Uuid -> string).
(** The pardosa sessions of the two files and what opens them, the codecs, the
    derivation of fiber identifiers and jiff's range check. *)
Context (F : FileWriterSession) (A : FileStorageAdapter F D) (pid : Z).
Context (SJ : JsonCodec (PgnoEnvelope SchedulerDto.SchedulerEventDto)) (TJ : JsonCodec (PgnoEnvelope E)).
Context (derive_fiber_id : string -> FiberId) (from_nanosecond : Z -> result Timestamp Boxed).
Context (expected_descriptor : result D Boxed).
(** The caller's decoder and bus. *)
Context (B : EventBus E) (decode : ScheduleFired -> result E Boxed) (scheduled_event_id : E -> Uuid).

(** [PgnoSchedulerStore] and [PgnoEventStore]. *)
Definition dto_store := Pgno.bounded show_uuid F SJ derive_fiber_id from_nanosecond.
Definition scheduler_file : EventStore SchedulerEvent :=
  Guard.store
    (Bridge.store show_uuid dto_store (fun e => map_err SchedulerDto.conversion_error (SchedulerDto.to_dto e))
       (SchedulerDto.from_dto from_nanosecond))
    (representable_b from_nanosecond).
Definition target_file : EventStore E := Pgno.bounded show_uuid F TJ derive_fiber_id from_nanosecond.

Definition Driver : Type := DurableScheduler scheduler_file target_file B.

Context (log : fs_state F -> list Block) {session_laws : SessionLaws F log}
        {scodec_laws : JsonCodecLaws SJ} {tcodec_laws : JsonCodecLaws TJ}.
Context (disk_log : disk A -> list Block) (disk_schema : disk A -> option D) (leaves : fs_state F -> disk A -> Prop)
        {adapter_laws : AdapterLaws A log disk_log disk_schema leaves}.
Context (from_nanosecond_i64 : forall n, I64_MIN <= n <= I64_MAX -> from_nanosecond n = Ok n).

(** What the two files hold, as the driver sees it. *)
Notation dto_inv := (Pgno.BInv F SJ log).
Notation dto_view := (Pgno.bview F SJ log).
Notation dto_convert := (SchedulerDto.from_dto from_nanosecond).
Notation SInv := (Bridge.bridge_inv dto_store dto_convert dto_inv dto_view).
Notation sview := (Bridge.bridge_view dto_store dto_convert dto_view).
Notation TInv := (Pgno.BInv F TJ log).
Notation tview := (Pgno.bview F TJ log).
Notation DInv := (DInv scheduler_file target_file B SInv TInv).

#[local] Instance dto_laws : EventStoreLaws dto_store dto_inv dto_view.
Proof using session_laws scodec_laws from_nanosecond_i64. by apply Pgno.bounded_laws. Qed.

Lemma target_laws : EventStoreLaws target_file TInv tview.
Proof using session_laws tcodec_laws from_nanosecond_i64. by apply Pgno.bounded_laws. Qed.

Lemma scheduler_laws : EventStoreLaws scheduler_file SInv sview.
Proof using session_laws scodec_laws from_nanosecond_i64.
  assert (Hall : forall events, Forall (fun a => representable_b from_nanosecond a = true) events ->
    Forall (SchedulerDto.representable from_nanosecond) events).
  { intros events H. eapply Forall_impl; [exact H|]. apply representable_b_sound. }
  apply Guard.guard_laws.
  - intros s id [HI Hr]. apply Bridge.converted_valid; [by apply (law_valid (S := dto_store))|apply Hr].
  - intros s id s' r. apply (Bridge.bridge_load_law dto_store dto_convert dto_inv dto_view).
  - intros s events ctx s' r HI Hok%Hall.
    by apply (Bridge.bridge_create_law show_uuid dto_store _ dto_convert dto_inv dto_view
                (SchedulerDto.representable from_nanosecond) (scheduler_conversion from_nanosecond)).
  - intros s id q events ctx s' r HI Hok%Hall.
    by apply (Bridge.bridge_append_law show_uuid dto_store _ dto_convert dto_inv dto_view
                (SchedulerDto.representable from_nanosecond) (scheduler_conversion from_nanosecond)).
Qed.

(** *** Restarts *)

(** A process has ended and another one opens the file it left: the identifiers it
    draws are later ones, and the calls it will make fit as well. *)
Definition reopens {Ev} (J : JsonCodec (PgnoEnvelope Ev)) (p p' : nat * Pgno.PgnoEventStore F) : Prop :=
  exists (d d' : disk A) w,
    leaves (Pgno.session F (snd p)) d
    /\ uuid_at w = uuid_at (Pgno.world F (snd p)) /\ (uuid_drawn (Pgno.world F (snd p)) <= uuid_drawn w)%nat
    /\ EventFile.open_pgno F J A expected_descriptor d w = (d', Ok (snd p'))
    /\ Pgno.next_id F (snd p') + Z.of_nat (fst p') <= U64_MAX
    /\ Z.of_nat (length (log (Pgno.session F (snd p')))) + Z.of_nat (fst p') <= U64_MAX.

Lemma reopens_same {Ev} (J : JsonCodec (PgnoEnvelope Ev)) p p' :
  Pgno.BInv F J log p -> reopens J p p' ->
  Pgno.BInv F J log p' /\ forall id, Pgno.bview F J log p' id = Pgno.bview F J log p id.
Proof using session_laws adapter_laws.
  intros (HI&_&_) (d&d'&w&Hl&Hat&Hd&Ho&Hn&Hlen).
  destruct (EventFile.reopened_views F J A expected_descriptor log disk_log disk_schema leaves
              (snd p) d w d' (snd p') HI Hl Hat Hd Ho) as [HI' Hv].
  split; [by split|exact Hv].
Qed.

(** The operations of the driver; the end of a process between two of them or in
    the middle of one; and the start of the next with any state of the new bus. *)
Inductive life_step (d : Driver) : Driver -> Prop :=
| live d' : driver_step scheduler_file target_file B decode scheduled_event_id show_uuid d d' -> life_step d d'
| restart at_end s t b :
    at_end = d \/ interrupted scheduler_file target_file B decode scheduled_event_id show_uuid d at_end ->
    reopens SJ (scheduler_store _ _ _ at_end) s -> reopens TJ (target_store _ _ _ at_end) t ->
    life_step d (mkScheduler scheduler_file target_file B s t b).

Lemma restart_pass (d : Driver) s t b :
  DInv d -> reopens SJ (scheduler_store _ _ _ d) s -> reopens TJ (target_store _ _ _ d) t ->
  pass_ok scheduler_file target_file B scheduled_event_id SInv sview TInv tview d
    (mkScheduler scheduler_file target_file B s t b).
Proof using session_laws adapter_laws.
  intros [[Hs Hr] Ht] Hrs Hrt. destruct (reopens_same SJ _ _ Hs Hrs) as [Hs' Hsv].
  destruct (reopens_same TJ _ _ Ht Hrt) as [Ht' Htv]. apply same_views_pass; simpl.
  - split; [|exact Ht']. split; [exact Hs'|]. intros id. simpl. rewrite Hsv. apply Hr.
  - intros j. unfold Bridge.bridge_view. by rewrite Hsv.
  - exact Htv.
Qed.

Notation passes := (pass_ok scheduler_file target_file B scheduled_event_id SInv sview TInv tview).

Lemma life_pass (d d' : Driver) :
  faithful_decoder decode scheduled_event_id -> DInv d -> rtc life_step d d' -> passes d d'.
Proof using session_laws scodec_laws tcodec_laws adapter_laws from_nanosecond_i64.
  pose proof scheduler_laws. pose proof target_laws.
  intros Hdec HD Hs. induction Hs as [|d1 d2 d3 H12 _ IH]; [by apply pass_refl|].
  assert (Hp : passes d1 d2).
  { destruct H12 as [d2 Hd|at_end s t b Hend Hrs Hrt]; [by eapply driver_step_pass|].
    assert (He : passes d1 at_end) by (destruct Hend as [->|Hi]; [by apply pass_refl|by eapply interrupted_pass]).
    eapply pass_trans; [exact He|]. apply restart_pass; [apply He|done..]. }
  eapply pass_trans; [done|]. apply IH, Hp.
Qed.

(** C3: The scheduler is durable.  Over pgno files, whatever operations its driver
    runs, whatever write fails or ends unknown, and however often the process
    stops, between two operations or in the middle of one, and opens the files
    again: a schedule is fired at most once, its event
    reaches its target at most once, and no target history loses an event; and a
    recovery pass that then reports leaves no fired schedule without its event in
    the target and no due schedule unfired. *)
Theorem durable_across_restarts (d d' : Driver) :
  faithful_decoder decode scheduled_event_id -> DInv d -> rtc life_step d d' ->
  fires_once scheduler_file target_file B sview d -> once scheduler_file target_file B scheduled_event_id tview d ->
  fires_once scheduler_file target_file B sview d'
  /\ once scheduler_file target_file B scheduled_event_id tview d'
  /\ grown scheduler_file target_file B tview d d'
  /\ forall now d2 report,
       recover_due scheduler_file target_file B decode scheduled_event_id show_uuid d' now = (d2, Ok report) ->
       let replayed := replayed scheduler_file target_file B sview in
       let delivered := delivered scheduler_file target_file B scheduled_event_id tview in
       (forall id f, fired (replayed d') !! id = Some f -> delivered d2 f)
       /\ (forall id armed, pending (replayed d') !! id = Some armed -> fire_at armed <= now ->
             fired (replayed d') !! id = None ->
             fired (replayed d2) !! id = Some (from_armed armed) /\ delivered d2 (from_armed armed)).
Proof using session_laws scodec_laws tcodec_laws adapter_laws from_nanosecond_i64.
  pose proof scheduler_laws. pose proof target_laws.
  intros Hdec HD Hs Hf Ho. destruct (life_pass _ _ Hdec HD Hs) as [HD' Hg Ho' Hf'].
  split_and!; [by apply Hf'|by apply Ho'|done|]. intros now d2 report Hr.
  destruct (recover_pass scheduler_file target_file B decode scheduled_event_id show_uuid SInv sview TInv tview
              _ _ _ _ Hdec HD' Hr) as [_ Hall]. by apply (Hall report).
Qed.
End Durable.

(** ** Witness: a process stops between the record that a schedule fired and its event,
    and the next one delivers the event *)

#[global] Instance ArmedDto_eq_dec : EqDecision SchedulerDto.ScheduleArmedDto.
Proof. solve_decision. Defined.
#[global] Instance FiredDto_eq_dec : EqDecision SchedulerDto.ScheduleFiredDto.
Proof. solve_decision. Defined.
#[global] Instance EventDto_eq_dec : EqDecision SchedulerDto.SchedulerEventDto.
Proof. solve_decision. Defined.
#[global] Instance EventDto_countable : Countable SchedulerDto.SchedulerEventDto.
Proof.
  apply (inj_countable'
    (fun e => match e with
              | SchedulerDto.DtoArmed (SchedulerDto.mkArmedDto a b c d t p k l) => inl (inl (a, (b, (c, (d, (t, (p, (k, l))))))))
              | SchedulerDto.DtoFired (SchedulerDto.mkFiredDto a c d t p k l) => inl (inr (a, (c, (d, (t, (p, (k, l)))))))
              | SchedulerDto.DtoCancelled a => inr a
              end)
    (fun x => match x with
              | inl (inl (a, (b, (c, (d, (t, (p, (k, l)))))))) => SchedulerDto.DtoArmed (SchedulerDto.mkArmedDto a b c d t p k l)
              | inl (inr (a, (c, (d, (t, (p, (k, l))))))) => SchedulerDto.DtoFired (SchedulerDto.mkFiredDto a c d t p k l)
              | inr a => SchedulerDto.DtoCancelled a
              end)).
  by intros [[]|[]|].
Defined.

Definition by_length (k : string) : FiberId := Z.of_nat (String.length k).
Definition demo_sj := bit_codec (PgnoEnvelope SchedulerDto.SchedulerEventDto).
Definition demo_tj := bit_codec (PgnoEnvelope Z).
Definition demo_sfile := scheduler_file show_Z LogSession.session demo_sj by_length Ok.
Definition demo_tfile := target_file show_Z LogSession.session demo_tj by_length Ok.
Definition demo_driver := Driver show_Z LogSession.session demo_sj demo_tj by_length Ok (FakeBus Z).

(** New files, the target's with one aggregate. *)
Definition new_file : LogSession.State := LogSession.mkState [] None 1 [] (Some 1).
Definition first_life : demo_driver :=
  mkScheduler demo_sfile demo_tfile (FakeBus Z)
    (10%nat, Pgno.mkPgnoStore LogSession.session new_file 0 counting_world)
    (fst (es_create demo_tfile (10%nat, Pgno.mkPgnoStore LogSession.session new_file 0 counting_world) [1] Correlation.none)) [].

Definition short_armed : ScheduleArmed :=
  mkScheduleArmed 5 10 (AggregateId_new 1) 99 "e" [] Correlation.none.
Definition armed_life : demo_driver := fst (arm demo_sfile demo_tfile (FakeBus Z) first_life short_armed).

(** The process stops after two calls of the scheduler's store. *)
Definition cut_life : demo_driver :=
  left_behind demo_sfile demo_tfile (FakeBus Z)
    (fst (fire_schedule (Halting.store demo_sfile) (Halting.store demo_tfile) (FakeBus Z) demo_decode (fun e => e) show_Z
            (halting demo_sfile demo_tfile (FakeBus Z) 2 0 armed_life) 5 20)).

(** The next process opens what is on the disk. *)
Definition left_disk (p : nat * Pgno.PgnoEventStore LogSession.session) : LogSession.Disk :=
  let fs := Pgno.session LogSession.session (snd p) in Some (LogSession.blocks fs, LogSession.epoch fs, 1).
Definition opened {Ev} (J : JsonCodec (PgnoEnvelope Ev)) (p : nat * Pgno.PgnoEventStore LogSession.session) :=
  EventFile.open_pgno LogSession.session J LogSession.adapter (Ok 1) (left_disk p) (Pgno.world LogSession.session (snd p)).
Definition reopened {Ev} (J : JsonCodec (PgnoEnvelope Ev)) (p : nat * Pgno.PgnoEventStore LogSession.session)
    : nat * Pgno.PgnoEventStore LogSession.session :=
  match snd (opened J p) with Ok s' => (5%nat, s') | Err _ => p end.
Definition second_life : demo_driver :=
  mkScheduler demo_sfile demo_tfile (FakeBus Z)
    (reopened demo_sj (scheduler_store demo_sfile demo_tfile (FakeBus Z) cut_life))
    (reopened demo_tj (target_store demo_sfile demo_tfile (FakeBus Z) cut_life)) [].

Definition demo_life := life_step show_Z LogSession.session LogSession.adapter demo_sj demo_tj by_length Ok (Ok 1)
  (FakeBus Z) demo_decode (fun e => e) LogSession.blocks LogSession.left_by.
Definition demo_sview := Bridge.bridge_view (dto_store show_Z LogSession.session demo_sj by_length Ok)
  (SchedulerDto.from_dto Ok) (Pgno.bview LogSession.session demo_sj LogSession.blocks).

Lemma new_file_inv {Ev} (J : JsonCodec (PgnoEnvelope Ev)) :
  Pgno.BInv LogSession.session J LogSession.blocks (10%nat, Pgno.mkPgnoStore LogSession.session new_file 0 counting_world).
Proof. split; [by apply Pgno.pgno_empty_inv, counting_v7|]. by vm_compute. Qed.

Lemma first_life_inv :
  DInv demo_sfile demo_tfile (FakeBus Z)
    (Bridge.bridge_inv (dto_store show_Z LogSession.session demo_sj by_length Ok) (SchedulerDto.from_dto Ok)
       (Pgno.BInv LogSession.session demo_sj LogSession.blocks) (Pgno.bview LogSession.session demo_sj LogSession.blocks))
    (Pgno.BInv LogSession.session demo_tj LogSession.blocks) first_life.
Proof.
  split.
  - split; [apply new_file_inv|]. intros id. constructor.
  - pose proof (target_laws show_Z LogSession.session demo_tj by_length Ok LogSession.blocks (fun n _ => eq_refl)) as Hlaws.
    cbn [first_life target_store]. destruct (es_create demo_tfile _ [1] Correlation.none) as [t r] eqn:Hc.
    by apply (law_create (S := demo_tfile) _ _ _ _ _ (new_file_inv demo_tj)) in Hc as [? _].
Qed.

Lemma reopened_reopens {Ev} (J : JsonCodec (PgnoEnvelope Ev)) p :
  LogSession.schema (Pgno.session LogSession.session (snd p)) = Some 1 -> is_ok (snd (opened J p)) = true ->
  (Pgno.next_id LogSession.session (snd (reopened J p)) + Z.of_nat (fst (reopened J p)) <=? U64_MAX) = true ->
  (Z.of_nat (length (LogSession.blocks (Pgno.session LogSession.session (snd (reopened J p))))) + Z.of_nat (fst (reopened J p))
     <=? U64_MAX) = true ->
  reopens LogSession.session LogSession.adapter (Ok 1) LogSession.blocks LogSession.left_by J p (reopened J p).
Proof.
  intros Hs Hok Hn%Z.leb_le Hl%Z.leb_le.
  exists (left_disk p), (fst (opened J p)), (Pgno.world LogSession.session (snd p)).
  split; [by exists 1|]. split_and!; try done. fold (opened J p). unfold reopened.
  destruct (opened J p) as [d [s'|e]]; done.
Qed.

Lemma demo_lives : rtc demo_life first_life second_life.
Proof.
  eapply rtc_l; [apply live, do_arm|]. apply rtc_once. apply (restart _ _ _ _ _ _ _ _ _ _ _ _ _ _ cut_life).
  - right. exists 2%nat, 0%nat, (fst (fire_schedule (Halting.store demo_sfile) (Halting.store demo_tfile) (FakeBus Z)
      demo_decode (fun e => e) show_Z (halting demo_sfile demo_tfile (FakeBus Z) 2 0 armed_life) 5 20)).
    split; [apply do_fire|reflexivity].
  - apply reopened_reopens; vm_compute; reflexivity.
  - apply reopened_reopens; vm_compute; reflexivity.
Qed.

Lemma occurrences_length u l : (occurrences (fun e : Z => e) u l <= length l)%nat.
Proof. induction l as [|env l IH]; simpl; [lia|]. destruct (_ =? _); lia. Qed.

Lemma durable_across_restarts_witness :
  fires_once demo_sfile demo_tfile (FakeBus Z) demo_sview second_life
  /\ exists d2, recover_due demo_sfile demo_tfile (FakeBus Z) demo_decode (fun e => e) show_Z second_life 20
                = (d2, Ok (mkReport 0 1))
     /\ delivered demo_sfile demo_tfile (FakeBus Z) (fun e => e) (Pgno.bview LogSession.session demo_tj LogSession.blocks)
          d2 (from_armed short_armed).
Proof.
  destruct (durable_across_restarts show_Z LogSession.session LogSession.adapter demo_sj demo_tj by_length Ok (Ok 1)
              (FakeBus Z) demo_decode (fun e => e) LogSession.blocks LogSession.on_disk LogSession.schema_on_disk
              LogSession.left_by (fun n _ => eq_refl) first_life second_life demo_faithful first_life_inv demo_lives)
    as (Hf&_&_&Hr).
  - intros id. vm_compute. lia.
  - intros id u. etransitivity; [apply occurrences_length|]. etransitivity; [apply Pgno.view_length|].
    vm_compute. lia.
  - split; [exact Hf|].
    destruct (recover_due demo_sfile demo_tfile (FakeBus Z) demo_decode (fun e => e) show_Z second_life 20) as [d2 r] eqn:Hrec.
    assert (Hok : r = Ok (mkReport 0 1)) by (apply (f_equal snd) in Hrec; vm_compute in Hrec; symmetry; exact Hrec).
    subst r. exists d2. split; [reflexivity|].
    apply (proj1 (Hr 20 d2 (mkReport 0 1) Hrec) 5). vm_compute. reflexivity.
Defined.
