(* ===== verification/Pacing.v ===== *)
(** * Pacing regulators (crate [cherry-pit-wq])

    The token bucket ([token_bucket.rs]), the pause-until regulator
    ([backoff.rs]), the rate-limit observer ([rate_limit.rs]) and the wait for
    its reset ([worker_pool.rs]).  Instants are nanoseconds on the clock's axis,
    durations nanoseconds; the atomics are steps of a transition system. *)

From S2P Require Import Prelude.
From stdpp Require Import gmap.
Local Open Scope Z_scope.

Definition NANOS_PER_SEC : Z := 1000000000.
(** [Duration::MAX], in nanoseconds. *)
Definition DURATION_MAX : Z := U64_MAX * NANOS_PER_SEC + 999999999.

(** ** [TokenBucketRegulator] *)

Module TokenBucket.

Definition MILLI_PER_TOKEN : Z := 1000.

Record TokenBucketRegulator := mkBucket {
  start : Z;
  capacity_milli : Z;
  refill_milli_per_sec : Z;
}.

(** [backdated_start_for_full_bucket]; [instant_min] is the smallest instant
    the platform represents, below which [checked_sub] fails. *)
Definition backdated_start_for_full_bucket (instant_min now capacity_milli refill_milli_per_sec : Z) : Z :=
  let fill_nanos := capacity_milli * NANOS_PER_SEC / refill_milli_per_sec in
  let s := now - clamp U64_MAX fill_nanos in
  if s <? instant_min then now else s.

(** [TokenBucketRegulator::new] at instant [now]; [None] where it panics. *)
Definition new (instant_min now capacity_tokens refill_tokens_per_sec : Z)
    : option TokenBucketRegulator :=
  if (0 <? capacity_tokens) && (0 <? refill_tokens_per_sec)
  then let capacity_milli := saturating_mul U64_MAX capacity_tokens MILLI_PER_TOKEN in
       let refill_milli_per_sec := saturating_mul U64_MAX refill_tokens_per_sec MILLI_PER_TOKEN in
       Some (mkBucket (backdated_start_for_full_bucket instant_min now capacity_milli
                         refill_milli_per_sec) capacity_milli refill_milli_per_sec)
  else None.

(** [uncapped_generated_milli_at]. *)
Definition generated (b : TokenBucketRegulator) (now : Z) : Z :=
  let elapsed_nanos := saturating_sub now (start b) in
  saturating_mul U128_MAX elapsed_nanos (refill_milli_per_sec b) / NANOS_PER_SEC.

(** What one round of [try_debit_one] does with its readings of the clock and
    of [consumed_milli]: an exchange to attempt, or an error with a wait. *)
Inductive Attempt := TryCas (next_consumed : Z) | Deficit (wait : Z).

Definition attempt (b : TokenBucketRegulator) (now consumed : Z) : Attempt :=
  let gen := generated b now in
  let effective_consumed := Z.max consumed (saturating_sub gen (capacity_milli b)) in
  let available := saturating_sub gen effective_consumed in
  if MILLI_PER_TOKEN <=? available then
    if effective_consumed + MILLI_PER_TOKEN <=? U64_MAX
    then TryCas (effective_consumed + MILLI_PER_TOKEN)
    else Deficit DURATION_MAX
  else
    let deficit_milli := MILLI_PER_TOKEN - available in
    let wait_nanos := div_ceil (deficit_milli * NANOS_PER_SEC) (refill_milli_per_sec b) in
    Deficit (clamp U64_MAX wait_nanos).

(** *** Concurrent callers *)

(** Where a caller of [try_debit_one] is: it has read the clock, or the clock
    and the counter. *)
Inductive Pc := ReadClock (now : Z) | Loaded (now consumed : Z).

Record State := mkState {
  consumed_milli : Z;
  clock : Z;
  callers : gmap nat Pc;
  grants : list Z;      (* the clock readings of the debits, in order *)
  waits : list (Z * Z); (* the clock readings and waits of the deficits *)
}.

Inductive step (b : TokenBucketRegulator) (s : State) : State -> Prop :=
| st_tick t : clock s <= t ->
    step b s (mkState (consumed_milli s) t (callers s) (grants s) (waits s))
| st_now i : callers s !! i = None ->
    step b s (mkState (consumed_milli s) (clock s) (<[i := ReadClock (clock s)]> (callers s))
                (grants s) (waits s))
| st_load i t : callers s !! i = Some (ReadClock t) ->
    step b s (mkState (consumed_milli s) (clock s) (<[i := Loaded t (consumed_milli s)]> (callers s))
                (grants s) (waits s))
| st_cas_ok i t next : callers s !! i = Some (Loaded t (consumed_milli s)) ->
    attempt b t (consumed_milli s) = TryCas next ->
    step b s (mkState next (clock s) (delete i (callers s)) (grants s ++ [t]) (waits s))
| st_cas_fail i t c next : callers s !! i = Some (Loaded t c) -> attempt b t c = TryCas next ->
    step b s (mkState (consumed_milli s) (clock s) (delete i (callers s)) (grants s) (waits s))
| st_deficit i t c wait : callers s !! i = Some (Loaded t c) -> attempt b t c = Deficit wait ->
    step b s (mkState (consumed_milli s) (clock s) (delete i (callers s)) (grants s)
                (waits s ++ [(t, wait)])).

Definition init (now : Z) : State := mkState 0 now ∅ [] [].

(** *** Lemmas *)

(** The counter after the debits read at the given instants. *)
Inductive debits (b : TokenBucketRegulator) : list Z -> Z -> Z -> Prop :=
| debits_nil c : debits b [] c c
| debits_cons t ts c c1 c2 :
    attempt b t c = TryCas c1 -> debits b ts c1 c2 -> debits b (t :: ts) c c2.

Lemma debits_snoc b ts c c1 t c2 :
  debits b ts c c1 -> attempt b t c1 = TryCas c2 -> debits b (ts ++ [t]) c c2.
Proof.
  induction 1; simpl; intros; eapply debits_cons; eauto using debits_nil.
Qed.

Lemma debits_app b l1 l2 c c2 :
  debits b (l1 ++ l2) c c2 -> exists c1, debits b l1 c c1 /\ debits b l2 c1 c2.
Proof.
  revert c. induction l1 as [|t l1 IH]; intros c; simpl.
  - intros Hd. exists c. split; [constructor|done].
  - inversion 1 as [|? ? ? c1 ? Ha Hd]; subst. destruct (IH _ Hd) as (c3&?&?).
    exists c3. split; [by eapply debits_cons|done].
Qed.

(** What a debit leaves: one token more than the counter, at least what keeps
    the balance within the capacity, and at most what was generated. *)
Lemma attempt_cas b t c c' :
  attempt b t c = TryCas c' ->
  c + MILLI_PER_TOKEN <= c' /\ generated b t - capacity_milli b + MILLI_PER_TOKEN <= c'
  /\ c' <= generated b t.
Proof.
  unfold attempt, saturating_sub, MILLI_PER_TOKEN. cbv zeta.
  destruct (Z.leb_spec 1000
    (Z.max 0 (generated b t - Z.max c (Z.max 0 (generated b t - capacity_milli b))))); [|done].
  destruct (Z.leb_spec
    (Z.max c (Z.max 0 (generated b t - capacity_milli b)) + 1000) U64_MAX); [|done].
  intros [= <-]. lia.
Qed.

Lemma debits_count b ts c c' :
  debits b ts c c' -> c + MILLI_PER_TOKEN * Z.of_nat (length ts) <= c'.
Proof.
  induction 1 as [|t ts c c1 c2 Ha Hd IH]; simpl; [lia|].
  apply attempt_cas in Ha. unfold MILLI_PER_TOKEN in *. lia.
Qed.

Lemma debits_last b ts t c c' : debits b (ts ++ [t]) c c' -> c' <= generated b t.
Proof.
  intros Hd. apply debits_app in Hd as (c1&_&Hd). inversion Hd as [|? ? ? c2 ? Ha Hn]; subst.
  inversion Hn; subst. by apply attempt_cas in Ha as (_&_&?).
Qed.

Lemma step_debits b s s' :
  debits b (grants s) 0 (consumed_milli s) -> step b s s' ->
  debits b (grants s') 0 (consumed_milli s').
Proof. intros Hd [| | | | |]; simpl; try done. by eapply debits_snoc. Qed.

(** Any run of debits from one read at [t1] to one read at [tn]. *)
Lemma debits_window b l1 t1 mid tn l2 c0 c :
  debits b (l1 ++ (t1 :: mid ++ [tn]) ++ l2) c0 c ->
  MILLI_PER_TOKEN * Z.of_nat (length (t1 :: mid ++ [tn]))
  <= generated b tn - generated b t1 + capacity_milli b.
Proof.
  intros Hd. apply debits_app in Hd as (c1&_&Hd). apply debits_app in Hd as (c2&Hd&_).
  inversion Hd as [|? ? ? c3 ? Ha Hrest]; subst.
  apply attempt_cas in Ha as (_&Hlow&_).
  pose proof (debits_last _ _ _ _ _ Hrest) as Hhigh.
  apply debits_count in Hrest. unfold MILLI_PER_TOKEN in *.
  cbn [length]. lia.
Qed.

(** *** Properties *)

(** C5: Rate safety of the token bucket under any interleaving of callers: in
    every run, any block of consecutive debits, the first computed at clock
    reading [t1] and the last at [tn], has at most as many tokens as were
    generated between the two readings plus the capacity of the bucket. *)
Theorem bucket_rate_bound b now s l1 t1 mid tn l2 :
  rtc (step b) (init now) s -> grants s = l1 ++ (t1 :: mid ++ [tn]) ++ l2 ->
  MILLI_PER_TOKEN * Z.of_nat (length (t1 :: mid ++ [tn]))
  <= generated b tn - generated b t1 + capacity_milli b.
Proof.
  intros Hs Hg. eapply debits_window. rewrite <- Hg.
  eapply (rtc_invariant (step b) (fun s => debits b (grants s) 0 (consumed_milli s))).
  - intros s1 s2. apply step_debits.
  - exact Hs.
  - constructor.
Qed.

Lemma generated_after b now d :
  start b <= now -> 0 <= d -> 0 <= refill_milli_per_sec b ->
  (now + d - start b) * refill_milli_per_sec b <= U128_MAX ->
  generated b now + d * refill_milli_per_sec b / NANOS_PER_SEC <= generated b (now + d).
Proof.
  intros Hs Hd Hr Hmax. unfold generated, saturating_sub, saturating_mul. cbv zeta.
  rewrite !Z.max_r by lia. set (r := refill_milli_per_sec b) in *.
  assert (Hle : (now - start b) * r <= (now + d - start b) * r) by nia.
  rewrite !Z.min_r by lia.
  replace ((now + d - start b) * r) with ((now - start b) * r + d * r) by ring.
  assert (HN : 0 < NANOS_PER_SEC) by (unfold NANOS_PER_SEC; lia).
  apply Z.div_le_lower_bound; [done|].
  pose proof (Z.mul_div_le ((now - start b) * r) NANOS_PER_SEC HN).
  pose proof (Z.mul_div_le (d * r) NANOS_PER_SEC HN). lia.
Qed.

(** The wait a caller computes is enough: when the bucket holds less than a
    token, [now] is not before its start and nothing saturates, the same attempt
    after exactly that wait finds a token, as long as nobody else debits. *)
Theorem bucket_wait_sufficient b now c wait :
  0 < refill_milli_per_sec b -> MILLI_PER_TOKEN <= capacity_milli b ->
  start b <= now -> 0 <= c <= generated b now ->
  attempt b now c = Deficit wait -> wait < U64_MAX ->
  (now + wait - start b) * refill_milli_per_sec b <= U128_MAX ->
  generated b (now + wait) <= U64_MAX ->
  exists next, attempt b (now + wait) c = TryCas next.
Proof.
  intros Hr Hcap Hstart Hc Ha Hw Hmax Hgen.
  unfold attempt in Ha. cbv zeta in Ha. unfold saturating_sub, MILLI_PER_TOKEN in *.
  destruct (Z.leb_spec 1000
    (Z.max 0 (generated b now - Z.max c (Z.max 0 (generated b now - capacity_milli b)))))
    as [|Hlt].
  { destruct (Z.leb_spec (Z.max c (Z.max 0 (generated b now - capacity_milli b)) + 1000) U64_MAX);
      [done|]. injection Ha as <-. unfold DURATION_MAX, NANOS_PER_SEC, U64_MAX in Hw. lia. }
  injection Ha as Ha. unfold clamp in Ha.
  set (available := Z.max 0 _) in *.
  pose proof (div_ceil_spec ((1000 - available) * NANOS_PER_SEC) (refill_milli_per_sec b) Hr
    ltac:(unfold NANOS_PER_SEC; lia)) as [Hce _].
  assert (Heq : wait = div_ceil ((1000 - available) * NANOS_PER_SEC) (refill_milli_per_sec b)) by lia.
  rewrite <- Heq in Hce.
  assert (Hw0 : 0 <= wait) by (unfold NANOS_PER_SEC in Hce; nia).
  pose proof (generated_after b now wait Hstart Hw0 ltac:(lia) Hmax) as Hg.
  assert (Hd : 1000 - available <= wait * refill_milli_per_sec b / NANOS_PER_SEC).
  { apply Z.div_le_lower_bound; unfold NANOS_PER_SEC in *; lia. }
  unfold attempt. cbv zeta. unfold saturating_sub, MILLI_PER_TOKEN.
  destruct (Z.leb_spec 1000 (Z.max 0 (generated b (now + wait)
    - Z.max c (Z.max 0 (generated b (now + wait) - capacity_milli b))))) as [|Hno]; [|lia].
  destruct (Z.leb_spec (Z.max c (Z.max 0 (generated b (now + wait) - capacity_milli b)) + 1000)
    U64_MAX); [by eexists|lia].
Qed.

(** *** Witnesses *)

Definition demo_bucket : TokenBucketRegulator := mkBucket 0 2000 1000.

(** Two callers debit at the two instants of a clock. *)
Definition demo_state (c t : Z) (cs : gmap nat Pc) (g : list Z) : State := mkState c t cs g [].

Lemma demo_bucket_run :
  rtc (step demo_bucket) (init 2000000000)
    (demo_state 2000 3000000000 ∅ [2000000000; 3000000000]).
Proof.
  set (t1 := 2000000000). set (t2 := 3000000000).
  set (s1 := demo_state 0 t1 {[0%nat := ReadClock t1]} []).
  set (s2 := demo_state 0 t1 {[0%nat := Loaded t1 0]} []).
  set (s3 := demo_state 1000 t1 ∅ [t1]).
  set (s4 := demo_state 1000 t2 ∅ [t1]).
  set (s5 := demo_state 1000 t2 {[1%nat := ReadClock t2]} [t1]).
  set (s6 := demo_state 1000 t2 {[1%nat := Loaded t2 1000]} [t1]).
  eapply rtc_l with s1; [exact (st_now demo_bucket (init t1) 0%nat eq_refl)|].
  eapply rtc_l with s2; [exact (st_load demo_bucket s1 0%nat t1 eq_refl)|].
  eapply rtc_l with s3.
  { refine (st_cas_ok demo_bucket s2 0%nat t1 1000 eq_refl _). vm_compute. reflexivity. }
  eapply rtc_l with s4.
  { refine (st_tick demo_bucket s3 t2 _). vm_compute. discriminate. }
  eapply rtc_l with s5; [exact (st_now demo_bucket s4 1%nat eq_refl)|].
  eapply rtc_l with s6; [exact (st_load demo_bucket s5 1%nat t2 eq_refl)|].
  apply rtc_once. refine (st_cas_ok demo_bucket s6 1%nat t2 2000 eq_refl _). vm_compute. reflexivity.
Qed.

Lemma bucket_rate_bound_witness :
  MILLI_PER_TOKEN * 2 <= generated demo_bucket 3000000000 - generated demo_bucket 2000000000
                         + capacity_milli demo_bucket.
Proof.
  apply (bucket_rate_bound demo_bucket 2000000000 _ [] 2000000000 [] 3000000000 []
           demo_bucket_run).
  reflexivity.
Defined.

Lemma bucket_wait_sufficient_witness :
  attempt demo_bucket 500000000 0 = Deficit 500000000
  /\ exists next, attempt demo_bucket (500000000 + 500000000) 0 = TryCas next.
Proof.
  split; [reflexivity|].
  apply (bucket_wait_sufficient demo_bucket 500000000 0 500000000);
    try (vm_compute; reflexivity); vm_compute; split_and?; discriminate.
Defined.

(** [backdated_start_for_full_bucket] does not always start a full bucket:
    with a capacity of one token and three tokens a second, the very first debit
    of a new bucket finds 999 thousandths of a token and has to wait. *)
Theorem new_bucket_not_full :
  match new 0 1000000000000 1 3 with
  | Some b => generated b 1000000000000 = 999
              /\ attempt b 1000000000000 0 = Deficit 333334
  | None => False
  end.
Proof. vm_compute. split; reflexivity. Qed.
End TokenBucket.

(** ** [BackoffRegulator] *)

Module Backoff.

Record BackoffRegulator := mkBackoff { origin : Z; resume_at_nanos : Z }.

Definition new (now : Z) : BackoffRegulator := mkBackoff now 0.

(** [set_backoff]: [fetch_max] of the offset from the origin. *)
Definition set_backoff (b : BackoffRegulator) (resume_at : Z) : BackoffRegulator :=
  let offset_nanos := clamp U64_MAX (saturating_sub resume_at (origin b)) in
  mkBackoff (origin b) (Z.max (resume_at_nanos b) offset_nanos).

Definition resume_at (b : BackoffRegulator) : option Z :=
  if resume_at_nanos b =? 0 then None else Some (origin b + resume_at_nanos b).

(** One round of the loop of [admit]: admitted, or the time to sleep. *)
Inductive Round := Admit | Sleep (nanos : Z).

Definition admit_round (b : BackoffRegulator) (now : Z) : Round :=
  match resume_at b with
  | None => Admit
  | Some until => if until <=? now then Admit else Sleep (until - now)
  end.

Lemma set_backoff_all b rs :
  Forall (fun r => r - origin b <= U64_MAX) rs -> 0 <= resume_at_nanos b ->
  let b' := fold_left set_backoff rs b in
  origin b' = origin b /\ resume_at_nanos b <= resume_at_nanos b' /\
  forall now, origin b + resume_at_nanos b' <= now <->
              origin b + resume_at_nanos b <= now /\ (origin b <= now -> Forall (fun r => r <= now) rs).
Proof.
  revert b. induction rs as [|r rs IH]; intros b Hr Hpos; simpl.
  { split_and!; [done|lia|]. intros now. split; [intros ?; split; [done|by constructor]|naive_solver]. }
  inversion Hr as [|? ? Hr1 Hr2]; subst.
  destruct (IH (set_backoff b r)) as (Ho&Hle&Hiff); [done|simpl; lia|].
  simpl in *. unfold clamp, saturating_sub in *. split_and!; [done|lia|].
  intros now. rewrite Hiff. rewrite Forall_cons. split.
  - intros [Hb Hall]. split; [lia|]. intros Hn. split; [lia|auto].
  - intros [Hb Hall]. specialize (Hall ltac:(lia)). destruct Hall. split; [lia|done].
Qed.

(** The pause never shortens: after any sequence of [set_backoff] calls, in
    whatever order the instants come, a caller is admitted at [now] exactly when
    every requested instant has passed, and otherwise sleeps no longer than to
    the latest of them. *)
Theorem backoff_latest_wins t0 now rs :
  Forall (fun r => r - t0 <= U64_MAX) rs -> t0 <= now ->
  match admit_round (fold_left set_backoff rs (new t0)) now with
  | Admit => Forall (fun r => r <= now) rs
  | Sleep d => 0 < d /\ ~ Forall (fun r => r <= now) rs /\ Forall (fun r => r <= now + d) rs
  end.
Proof.
  intros Hr Hn. destruct (set_backoff_all (new t0) rs Hr) as (Ho&Hle&Hiff); [done|].
  cbv zeta in *. set (b := fold_left set_backoff rs (new t0)) in *.
  unfold admit_round, resume_at. simpl in Ho, Hle, Hiff. rewrite Ho.
  assert (Hall : t0 + resume_at_nanos b <= now <-> Forall (fun r => r <= now) rs).
  { rewrite Hiff. split; [intros [_ H]; by apply H|]. intros ?. split; [lia|done]. }
  destruct (Z.eqb_spec (resume_at_nanos b) 0); [apply Hall; lia|].
  destruct (Z.leb_spec (t0 + resume_at_nanos b) now); [by apply Hall|].
  split_and!; [lia|rewrite <- Hall; lia|].
  apply (Hiff (now + (t0 + resume_at_nanos b - now))); lia.
Qed.

Lemma backoff_latest_wins_witness :
  admit_round (fold_left set_backoff [50; 30] (new 10)) 40 = Sleep 10
  /\ Forall (fun r => r <= 40 + 10) [50; 30].
Proof.
  split; [reflexivity|].
  apply (backoff_latest_wins 10 40 [50; 30]); [|lia].
  repeat constructor; vm_compute; discriminate.
Defined.
End Backoff.

(** ** [RateLimitState] *)

Module RateLimit.

Definition REMAINING_UNKNOWN : Z := U32_MAX.

Record RateLimitObservation := mkObservation {
  obs_limit : option Z;
  obs_remaining : option Z;
  obs_reset : option Z;
}.

Record RateLimitState := mkState {
  limit : Z;
  remaining : Z;
  reset : Z;
  warned_near_limit : bool;
  window_rolled : bool;
  halt_threshold : Z;
  warn_threshold : Z;
}.

Definition with_thresholds (halt_threshold warn_threshold : Z) : RateLimitState :=
  mkState 0 REMAINING_UNKNOWN 0 false false halt_threshold warn_threshold.

(** [Default]: never halts, never warns. *)
Definition default : RateLimitState := with_thresholds 0 0.

(** [observe], and whether it emits the near-exhaustion warning. *)
Definition observe (s : RateLimitState) (obs : RateLimitObservation) : RateLimitState * bool :=
  let lim := match obs_limit obs with Some l => l | None => limit s end in
  let res := match obs_reset obs with Some r => r | None => reset s end in
  match obs_remaining obs with
  | None =>
      (mkState lim (remaining s) res (warned_near_limit s) (window_rolled s)
         (halt_threshold s) (warn_threshold s), false)
  | Some r =>
      let near := (0 <? warn_threshold s) && (r <? warn_threshold s) in
      (mkState lim r res near false (halt_threshold s) (warn_threshold s),
       near && negb (warned_near_limit s))
  end.

Definition load_limit (s : RateLimitState) : option Z :=
  if limit s =? 0 then None else Some (limit s).
Definition load_remaining (s : RateLimitState) : option Z :=
  if remaining s =? REMAINING_UNKNOWN then None else Some (remaining s).
Definition load_reset (s : RateLimitState) : option Z :=
  if reset s =? 0 then None else Some (reset s).

Definition note_window_rolled (s : RateLimitState) : RateLimitState :=
  mkState (limit s) (remaining s) (reset s) (warned_near_limit s) true
    (halt_threshold s) (warn_threshold s).

Inductive QuotaWindow := Observed | Rolled.

Definition quota_window (s : RateLimitState) : QuotaWindow :=
  if window_rolled s then Rolled else Observed.

Definition is_near_limit (s : RateLimitState) : bool :=
  if warn_threshold s =? 0 then false
  else match load_remaining s with Some r => r <? warn_threshold s | None => false end.

Definition should_halt (s : RateLimitState) : bool :=
  if halt_threshold s =? 0 then false
  else if window_rolled s then false
  else match load_remaining s with Some r => r <? halt_threshold s | None => false end.

(** *** What decides a halt *)

Inductive Signal := Observe (obs : RateLimitObservation) | WindowRolled.

Definition signal (s : RateLimitState) (x : Signal) : RateLimitState :=
  match x with Observe obs => fst (observe s obs) | WindowRolled => note_window_rolled s end.

(** The signals that say something about the window: a reading or a roll. *)
Definition window_signal (x : Signal) : bool :=
  match x with
  | WindowRolled => true
  | Observe obs => match obs_remaining obs with Some _ => true | None => false end
  end.

Definition last_window_signal (xs : list Signal) : option Signal :=
  find_first window_signal (rev xs).

Lemma signal_thresholds s x :
  halt_threshold (signal s x) = halt_threshold s /\ warn_threshold (signal s x) = warn_threshold s.
Proof.
  destruct x as [obs|]; [|done]. unfold signal, observe. by destruct (obs_remaining obs).
Qed.

Lemma signals_state h w xs :
  let s := fold_left signal xs (with_thresholds h w) in
  halt_threshold s = h /\ warn_threshold s = w /\
  match last_window_signal xs with
  | None => remaining s = REMAINING_UNKNOWN /\ window_rolled s = false
  | Some WindowRolled => window_rolled s = true
  | Some (Observe obs) => obs_remaining obs = Some (remaining s) /\ window_rolled s = false
  end.
Proof.
  induction xs as [|x xs IH] using rev_ind; [done|]. cbv zeta in *.
  rewrite fold_left_app. cbn [fold_left]. set (s := fold_left signal xs _) in *.
  destruct (signal_thresholds s x) as [-> ->]. destruct IH as (->&->&IH). split_and!; try done.
  unfold last_window_signal. rewrite rev_app_distr. cbn [rev app find_first].
  destruct x as [obs|]; simpl; [|done]. unfold observe.
  destruct (obs_remaining obs) as [r|] eqn:Hr; simpl; [by rewrite Hr|exact IH].
Qed.

(** Whether the observer halts depends only on the last signal about the
    window: it halts exactly when a threshold is set and that signal is a reading
    below it that is not the unknown sentinel.  A rolled window never halts, and
    nothing halts before the first reading. *)
Theorem should_halt_spec h w xs :
  0 <= h ->
  should_halt (fold_left signal xs (with_thresholds h w)) =
    match last_window_signal xs with
    | Some (Observe obs) =>
        match obs_remaining obs with
        | Some r => (r <? h) && negb (r =? REMAINING_UNKNOWN) && (0 <? h)
        | None => false
        end
    | _ => false
    end.
Proof.
  intros Hh. destruct (signals_state h w xs) as (H1&_&H2).
  set (s := fold_left signal xs _) in *. unfold should_halt, load_remaining. rewrite H1.
  destruct (Z.eqb_spec h 0) as [->|Hne].
  { destruct (last_window_signal xs) as [[obs|]|]; try done.
    destruct (obs_remaining obs); [|done]. by rewrite !andb_false_r. }
  assert (Hpos : (0 <? h) = true) by (apply Z.ltb_lt; lia).
  destruct (last_window_signal xs) as [[obs|]|].
  - destruct H2 as [-> ->]. rewrite Hpos. destruct (remaining s =? REMAINING_UNKNOWN); cbn [negb];
      by rewrite ?andb_false_r, ?andb_true_r.
  - by rewrite H2.
  - destruct H2 as [-> ->]. done.
Qed.

Lemma should_halt_spec_witness :
  should_halt (fold_left signal [WindowRolled; Observe (mkObservation None (Some 3) None)]
                 (with_thresholds 10 0)) = true.
Proof. exact (should_halt_spec 10 0 _ ltac:(lia)). Defined.

(** ** [wait_for_rate_limit_reset] ([worker_pool.rs]) *)

Definition max_sleep : Z := 60.
Definition reset_slack : Z := 2.

(** The sleep of one iteration, in seconds, and the next backoff. *)
Definition next_sleep (s : RateLimitState) (now_secs backoff : Z) : Z * Z :=
  match load_reset s with
  | Some r => if now_secs <? r
              then (Z.min max_sleep (saturating_add U64_MAX (r - now_secs) reset_slack), backoff)
              else (backoff, Z.min max_sleep (backoff * 2))
  | None => (backoff, Z.min max_sleep (backoff * 2))
  end.

(** What the loop reads in one iteration: the observer, the clock in seconds,
    and whether the sleep is cut short by the cancellation. *)
Record Reading := mkReading { rd_state : RateLimitState; rd_now : Z; rd_cancelled : bool }.

(** The loop over the readings: its result, if it returns within them, and the
    sleeps it made. *)
Fixpoint wait_loop (backoff : Z) (readings : list Reading) : option bool * list Z :=
  match readings with
  | [] => (None, [])
  | r :: rest =>
      if should_halt (rd_state r) then
        let '(sleep, backoff) := next_sleep (rd_state r) (rd_now r) backoff in
        if rd_cancelled r then (Some false, [sleep])
        else let '(res, sleeps) := wait_loop backoff rest in (res, sleep :: sleeps)
      else (Some true, [])
  end.

Definition wait_for_rate_limit_reset (readings : list Reading) : option bool * list Z :=
  wait_loop 1 readings.

Lemma next_sleep_bounds s now b :
  1 <= b <= max_sleep -> let '(sleep, b') := next_sleep s now b in
  1 <= sleep <= max_sleep /\ 1 <= b' <= max_sleep.
Proof.
  unfold next_sleep, max_sleep, reset_slack, saturating_add, U64_MAX. intros Hb.
  destruct (load_reset s) as [r|]; [destruct (Z.ltb_spec now r)|]; lia.
Qed.

Lemma wait_loop_spec b readings res sleeps :
  1 <= b <= max_sleep -> wait_loop b readings = (res, sleeps) ->
  Forall (fun d => 1 <= d <= max_sleep) sleeps
  /\ match find_first (fun r => negb (should_halt (rd_state r)) || rd_cancelled r) readings with
     | Some r => res = Some (negb (should_halt (rd_state r)))
     | None => res = None /\ length sleeps = length readings
     end.
Proof.
  revert b res sleeps. induction readings as [|r rest IH]; intros b res sleeps Hb; simpl.
  { intros [= <- <-]. split; [constructor|done]. }
  destruct (should_halt (rd_state r)) eqn:Hh; simpl; [|intros [= <- <-]; by rewrite Hh].
  pose proof (next_sleep_bounds (rd_state r) (rd_now r) b Hb) as Hn.
  destruct (next_sleep _ _ b) as [sleep b']. destruct Hn as [Hs Hb'].
  destruct (rd_cancelled r); [intros [= <- <-]; rewrite Hh; split; [by apply Forall_singleton|done]|].
  destruct (wait_loop b' rest) as [res' sleeps'] eqn:Hw. intros [= <- <-].
  destruct (IH b' res' sleeps' Hb' Hw) as [Hall Hres]. split; [by constructor|].
  destruct (find_first _ rest); [done|]. destruct Hres as [-> <-]. done.
Qed.

(** The wait for a reset returns at the first iteration in which the
    observer no longer halts (true) or the token is cancelled (false), and every
    sleep on the way, whatever reset instant was reported, is between one second
    and one minute, so the wait cannot be parked by a stale reset value. *)
Theorem rate_limit_wait_bounded readings res sleeps :
  wait_for_rate_limit_reset readings = (res, sleeps) ->
  Forall (fun d => 1 <= d <= 60) sleeps
  /\ match find_first (fun r => negb (should_halt (rd_state r)) || rd_cancelled r) readings with
     | Some r => res = Some (negb (should_halt (rd_state r)))
     | None => res = None /\ length sleeps = length readings
     end.
Proof. apply wait_loop_spec. unfold max_sleep. lia. Qed.

Definition halted (reset : Z) : RateLimitState := mkState 0 1 reset false false 10 0.

Lemma rate_limit_wait_bounded_witness :
  wait_for_rate_limit_reset
    [mkReading (halted 0) 100 false; mkReading (halted 0) 101 false;
     mkReading (halted 100000) 103 false; mkReading default 200 false]
  = (Some true, [1; 2; 60]) /\ Forall (fun d => 1 <= d <= 60) [1; 2; 60].
Proof.
  split; [reflexivity|].
  apply (rate_limit_wait_bounded
    [mkReading (halted 0) 100 false; mkReading (halted 0) 101 false;
     mkReading (halted 100000) 103 false; mkReading default 200 false] (Some true)).
  reflexivity.
Defined.
End RateLimit.
