(* ===== verification/WorkQueue.v ===== *)
(** * The work queue and the batch tracker (crate [cherry-pit-wq])

    [work_queue.rs]: a bounded FIFO channel with a set of pending keys that
    deduplicates jobs, batch enqueueing, and the completion barrier of a batch.
    The operations are given once as functions on the queue's state (a call
    with nothing in between) and once as the atomic steps the source takes,
    interleaved with those of other threads. *)

From S2P Require Import Prelude Core.
Local Open Scope Z_scope.

(** ** Data *)

Definition DomainKey : Type := string.

Inductive JobSource :=
| ScheduledBatch
| External (id kind : string)
| InitialLoad.

Record JobSpec (C : Type) := mkJob {
  domain_key : DomainKey;
  context : C;
  source : JobSource;
  enqueued_at : option Z;
  correlation : CorrelationContext;
}.
Arguments mkJob {C}. Arguments domain_key {C}. Arguments context {C}.
Arguments source {C}. Arguments enqueued_at {C}. Arguments correlation {C}.

(** [JobSpec::new]. *)
Definition JobSpec_new {C} (key : DomainKey) (context : C) (source : JobSource)
    (correlation : CorrelationContext) : JobSpec C :=
  mkJob key context source None correlation.

(** The stamp of the queue. *)
Definition stamp {C} (j : JobSpec C) (now : Z) : JobSpec C :=
  mkJob (domain_key j) (context j) (source j) (Some now) (correlation j).

Inductive EnqueueResult := Accepted | Deduplicated | QueueFull.

#[global] Instance EnqueueResult_eq_dec : EqDecision EnqueueResult.
Proof. solve_decision. Defined.

Record WorkQueue (C : Type) := mkQueue {
  capacity : Z;
  channel : list (JobSpec C);
  sender_open : bool;
  pending : gset string;
}.
Arguments mkQueue {C}. Arguments capacity {C}. Arguments channel {C}.
Arguments sender_open {C}. Arguments pending {C}.

Section Queue.
Context {C : Type}.
Implicit Types (q : WorkQueue C) (j : JobSpec C).

(** [WorkQueue::new]; [None] where it panics. *)
Definition new (capacity : Z) : option (WorkQueue C) :=
  if 0 <? capacity then Some (mkQueue capacity [] true ∅) else None.

Definition keys (l : list (JobSpec C)) : list string := map domain_key l.

(** [pending.insert_sync(key)]: fails on a key already there. *)
Definition insert_pending q (key : string) : option (WorkQueue C) :=
  if bool_decide (key ∈ pending q) then None
  else Some (mkQueue (capacity q) (channel q) (sender_open q) ({[key]} ∪ pending q)).

Definition remove_pending q (key : string) : WorkQueue C :=
  mkQueue (capacity q) (channel q) (sender_open q) (pending q ∖ {[key]}).

(** The sender's [try_send]; [None] when the queue is closed or full.  The
    receiver lives as long as the queue, so the channel itself is never closed
    on this side. *)
Definition try_send q j : option (WorkQueue C) :=
  if sender_open q && (Z.of_nat (length (channel q)) <? capacity q)
  then Some (mkQueue (capacity q) (channel q ++ [j]) (sender_open q) (pending q))
  else None.

(** [enqueue] at instant [now]. *)
Definition enqueue q (now : Z) j : WorkQueue C * EnqueueResult :=
  match insert_pending q (domain_key j) with
  | None => (q, Deduplicated)
  | Some q =>
      let j := stamp j now in
      match try_send q j with
      | Some q => (q, Accepted)
      | None => (remove_pending q (domain_key j), QueueFull)
      end
  end.

(** [dequeue]: a job, the end of a closed and drained queue, or a wait. *)
Inductive Dequeued := Got (j : JobSpec C) | Drained | WouldBlock.

Definition dequeue q : WorkQueue C * Dequeued :=
  match channel q with
  | j :: rest =>
      (mkQueue (capacity q) rest (sender_open q) (pending q ∖ {[domain_key j]}), Got j)
  | [] => (q, if sender_open q then WouldBlock else Drained)
  end.

Definition close q : WorkQueue C := mkQueue (capacity q) (channel q) false (pending q).

Definition len q : nat := size (pending q).
Definition is_empty q : bool := bool_decide (pending q = ∅).

Record BatchEnqueueResult := mkBatch {
  total : Z; accepted : Z; deduplicated : Z; rejected : Z;
}.

(** The loop of [enqueue_batch]; [now] is read for each job. *)
Fixpoint enqueue_loop q (now : nat -> Z) (i : nat) (items : list (string * C))
    (src : JobSource) (corr : CorrelationContext) (r : BatchEnqueueResult)
    : WorkQueue C * BatchEnqueueResult :=
  match items with
  | [] => (q, r)
  | (key, ctx) :: rest =>
      let '(q, res) := enqueue q (now i) (mkJob key ctx src None corr) in
      enqueue_loop q now (S i) rest src corr
        (match res with
         | Accepted => mkBatch (total r) (accepted r + 1) (deduplicated r) (rejected r)
         | Deduplicated => mkBatch (total r) (accepted r) (deduplicated r + 1) (rejected r)
         | QueueFull => mkBatch (total r) (accepted r) (deduplicated r) (rejected r + 1)
         end)
  end.

Definition enqueue_batch q (now : nat -> Z) (items : list (string * C)) (src : JobSource)
    (corr : CorrelationContext) : WorkQueue C * BatchEnqueueResult :=
  enqueue_loop q now 0 items src corr (mkBatch (Z.of_nat (length items)) 0 0 0).

(** ** Calls one at a time *)

(** Between calls the pending keys are those of the queued jobs, each once. *)
Record QInv q : Prop := {
  qi_nodup : NoDup (keys (channel q));
  qi_pending : pending q = list_to_set (keys (channel q));
  qi_room : Z.of_nat (length (channel q)) <= capacity q;
}.

Lemma keys_app l1 l2 : keys (l1 ++ l2) = keys l1 ++ keys l2.
Proof. apply map_app. Qed.

Lemma elem_of_keys_pending q k : QInv q -> k ∈ pending q <-> k ∈ keys (channel q).
Proof. intros [_ -> _]. apply elem_of_list_to_set. Qed.

Lemma queue_new_inv n q : new n = Some q -> QInv q.
Proof.
  unfold new. destruct (Z.ltb_spec 0 n); [|done]. intros [= <-].
  split; simpl; [constructor|done|lia].
Qed.

Lemma enqueue_inv q now j q' r :
  QInv q -> enqueue q now j = (q', r) ->
  QInv q' /\ sender_open q' = sender_open q /\ capacity q' = capacity q
  /\ match r with
     | Deduplicated => domain_key j ∈ keys (channel q) /\ q' = q
     | QueueFull => (domain_key j ∉ keys (channel q)) /\ channel q' = channel q
         /\ pending q' = pending q
         /\ (sender_open q = false \/ capacity q <= Z.of_nat (length (channel q)))
     | Accepted => (domain_key j ∉ keys (channel q)) /\ channel q' = channel q ++ [stamp j now]
         /\ sender_open q = true
     end.
Proof.
  intros HI. pose proof HI as [Hn Hp Hr]. unfold enqueue, insert_pending.
  case_bool_decide as Hin.
  { intros [= <- <-]. apply elem_of_keys_pending in Hin; [|done]. split_and!; done. }
  assert (Hnin : domain_key j ∉ keys (channel q)) by (rewrite <- elem_of_keys_pending; done).
  unfold try_send, remove_pending. cbn [sender_open channel capacity pending].
  destruct (sender_open q) eqn:Ho; simpl;
    [destruct (Z.ltb_spec (Z.of_nat (length (channel q))) (capacity q)) as [Hlt|Hge]|];
    intros [= <- <-]; cbn [sender_open channel capacity pending].
  - split_and!; try done. split; simpl.
    + rewrite keys_app. simpl. apply NoDup_app. split_and!; [done| |apply NoDup_singleton].
      intros k Hk Hk'. apply list_elem_of_singleton in Hk'. by subst.
    + rewrite keys_app, list_to_set_app_L, <- Hp. simpl. set_solver.
    + rewrite length_app. simpl. lia.
  - match goal with |- context [?X ∖ ?Y] => replace (X ∖ Y) with (pending q) by set_solver end.
    split_and!; first [done | by split | by right].
  - match goal with |- context [?X ∖ ?Y] => replace (X ∖ Y) with (pending q) by set_solver end.
    split_and!; first [done | by split | by left].
Qed.

Lemma dequeue_inv q q' d :
  QInv q -> dequeue q = (q', d) ->
  QInv q' /\ match d with
             | Got j => channel q = j :: channel q' /\ domain_key j ∉ pending q'
             | Drained => q' = q /\ channel q = [] /\ sender_open q = false
             | WouldBlock => q' = q /\ channel q = [] /\ sender_open q = true
             end.
Proof.
  intros HI. pose proof HI as [Hn Hp Hr]. unfold dequeue.
  destruct (channel q) as [|j rest] eqn:Hc.
  - intros [= <- <-]. destruct (sender_open q); done.
  - intros [= <- <-]. simpl in *. apply NoDup_cons in Hn as [Hj Hn]. split_and!; [|done|set_solver].
    split; simpl; [done| |lia]. rewrite Hp. set_solver.
Qed.

Lemma enqueue_loop_inv q now i items src corr r q' r' :
  QInv q -> enqueue_loop q now i items src corr r = (q', r') ->
  QInv q' /\ total r' = total r
  /\ accepted r' + deduplicated r' + rejected r'
     = accepted r + deduplicated r + rejected r + Z.of_nat (length items)
  /\ exists added, channel q' = channel q ++ added /\ accepted r' = accepted r + Z.of_nat (length added)
       /\ Forall (fun j => domain_key j ∈ map fst items /\ correlation j = corr) added.
Proof.
  revert q i r. induction items as [|[key ctx] rest IH]; intros q i r HI; simpl.
  { intros [= <- <-]. split_and!; try done; [lia|]. exists []. rewrite app_nil_r.
    split_and!; [done|simpl; lia|constructor]. }
  destruct (enqueue q (now i) _) as [q1 res] eqn:He.
  destruct (enqueue_inv _ _ _ _ _ HI He) as (HI1&_&_&Hres).
  intros Hl. destruct (IH _ _ _ HI1 Hl) as (HI'&Ht&Hsum&added&Hch&Hacc&Hall). split; [done|].
  assert (Hmore : Forall (fun j => domain_key j ∈ key :: map fst rest /\ correlation j = corr) added).
  { eapply Forall_impl; [exact Hall|]. simpl. intros j [? ?]. split; [by right|done]. }
  destruct res; simpl in *.
  - destruct Hres as (_&Hc1&_). split_and!; [done|lia|]. exists (stamp (mkJob key ctx src None corr) (now i) :: added).
    rewrite Hch, Hc1, <- app_assoc. split_and!; [done|simpl; lia|].
    constructor; [|done]. simpl. split; [by left|done].
  - destruct Hres as (_&->). split_and!; [done|lia|]. exists added. split_and!; done.
  - destruct Hres as (_&Hc1&_). split_and!; [done|lia|]. exists added. rewrite Hch, Hc1. split_and!; done.
Qed.

(** ** Threads

    A call of [enqueue] takes its steps in this order: insert the key, then
    under the sender's lock send or, when that fails, remove the key again.  A
    call of [dequeue] receives under the receiver's lock and then removes the
    key. *)

Inductive Call :=
| EInserted (j : JobSpec C)     (* the key is inserted, the job not yet sent *)
| ERejected (key : string)      (* the send failed, the key not yet removed *)
| DReceived (j : JobSpec C).    (* the job is received, the key not yet removed *)

Definition call_key (c : Call) : string :=
  match c with EInserted j | DReceived j => domain_key j | ERejected k => k end.

(** [sent] and [received] are the jobs that entered and left the channel, in
    order; [results] the results of the calls of [enqueue]. *)
Record Threads := mkThreads {
  queue : WorkQueue C;
  calls : gmap nat Call;
  sender_lock : option nat;
  receiver_lock : option nat;
  sent : list (JobSpec C);
  received : list (JobSpec C);
  results : list (string * EnqueueResult);
}.

Inductive step (s : Threads) : Threads -> Prop :=
| enq_insert i j now q :
    calls s !! i = None -> insert_pending (queue s) (domain_key j) = Some q ->
    step s (mkThreads q (<[i := EInserted (stamp j now)]> (calls s)) (sender_lock s)
              (receiver_lock s) (sent s) (received s) (results s))
| enq_duplicate j :
    insert_pending (queue s) (domain_key j) = None ->
    step s (mkThreads (queue s) (calls s) (sender_lock s) (receiver_lock s) (sent s) (received s)
              (results s ++ [(domain_key j, Deduplicated)]))
| enq_send i j q :
    calls s !! i = Some (EInserted j) -> sender_lock s = None -> try_send (queue s) j = Some q ->
    step s (mkThreads q (delete i (calls s)) None (receiver_lock s) (sent s ++ [j]) (received s)
              (results s ++ [(domain_key j, Accepted)]))
| enq_reject i j :
    calls s !! i = Some (EInserted j) -> sender_lock s = None -> try_send (queue s) j = None ->
    step s (mkThreads (queue s) (<[i := ERejected (domain_key j)]> (calls s)) (Some i)
              (receiver_lock s) (sent s) (received s) (results s))
| enq_rollback i key :
    calls s !! i = Some (ERejected key) -> sender_lock s = Some i ->
    step s (mkThreads (remove_pending (queue s) key) (delete i (calls s)) None (receiver_lock s)
              (sent s) (received s) (results s ++ [(key, QueueFull)]))
| deq_receive i j rest :
    calls s !! i = None -> receiver_lock s = None -> channel (queue s) = j :: rest ->
    step s (mkThreads (mkQueue (capacity (queue s)) rest (sender_open (queue s)) (pending (queue s)))
              (<[i := DReceived j]> (calls s)) (sender_lock s) (Some i) (sent s)
              (received s ++ [j]) (results s))
| deq_remove i j :
    calls s !! i = Some (DReceived j) -> receiver_lock s = Some i ->
    step s (mkThreads (remove_pending (queue s) (domain_key j)) (delete i (calls s)) (sender_lock s)
              None (sent s) (received s) (results s))
| do_close :
    sender_lock s = None ->
    step s (mkThreads (close (queue s)) (calls s) None (receiver_lock s) (sent s) (received s)
              (results s)).

Definition threads_init (q : WorkQueue C) : Threads := mkThreads q ∅ None None [] [] [].

(** Every pending key belongs to exactly one queued job or one call. *)
Record TInv (s : Threads) : Prop := {
  ti_nodup : NoDup (keys (channel (queue s)));
  ti_room : Z.of_nat (length (channel (queue s))) <= capacity (queue s);
  ti_queued k : k ∈ keys (channel (queue s)) -> k ∈ pending (queue s);
  ti_call i c : calls s !! i = Some c ->
    call_key c ∈ pending (queue s) /\ call_key c ∉ keys (channel (queue s));
  ti_apart i1 i2 c1 c2 : calls s !! i1 = Some c1 -> calls s !! i2 = Some c2 ->
    call_key c1 = call_key c2 -> i1 = i2;
  ti_owned k : k ∈ pending (queue s) ->
    k ∈ keys (channel (queue s)) \/ exists i c, calls s !! i = Some c /\ call_key c = k;
  ti_fifo : sent s = received s ++ channel (queue s);
}.

(** Ending a call frees its key, which nothing else holds. *)
Lemma TInv_free s i c q' sl rl rs :
  TInv s -> calls s !! i = Some c -> q' = remove_pending (queue s) (call_key c) ->
  TInv (mkThreads q' (delete i (calls s)) sl rl (sent s) (received s) rs).
Proof.
  intros [Hn Hr Hq Hc Ha Ho Hf] Hi ->. destruct (Hc i c Hi) as [Hp Hnk].
  split; simpl; try done.
  - intros k Hk. pose proof (Hq k Hk). set_solver.
  - intros i' c' [Hne Hi']%lookup_delete_Some. destruct (Hc i' c' Hi') as [Hp' Hnk'].
    split; [|done]. apply elem_of_difference. split; [done|]. rewrite elem_of_singleton.
    intros Heq. by apply Hne, (Ha i i' c c').
  - intros i1 i2 c1 c2 [_ H1]%lookup_delete_Some [_ H2]%lookup_delete_Some. by apply Ha.
  - intros k [Hk Hne]%elem_of_difference. rewrite elem_of_singleton in Hne.
    destruct (Ho k Hk) as [?|(i'&c'&Hi'&<-)]; [by left|right]. exists i', c'. split; [|done].
    apply lookup_delete_Some. split; [|done]. intros <-. congruence.
Qed.

Lemma TInv_insert s i j now q :
  TInv s -> calls s !! i = None -> insert_pending (queue s) (domain_key j) = Some q ->
  TInv (mkThreads q (<[i := EInserted (stamp j now)]> (calls s)) (sender_lock s)
          (receiver_lock s) (sent s) (received s) (results s)).
Proof.
  intros [Hn Hr Hq Hc Ha Ho Hf] Hi. unfold insert_pending. case_bool_decide as Hin; [done|].
  intros [= <-]. split; simpl; try done.
  - intros k Hk. pose proof (Hq k Hk). set_solver.
  - intros i' c' [[<- <-]|[Hne Hi']]%lookup_insert_Some; simpl.
    + split; [set_solver|]. intros Hk. by apply Hin, Hq.
    + destruct (Hc i' c' Hi'). set_solver.
  - intros i1 i2 c1 c2 [[<- <-]|[? H1]]%lookup_insert_Some [[<- <-]|[? H2]]%lookup_insert_Some;
      simpl; try done; intros Heq.
    + destruct (Hc i2 c2 H2) as [Hp2 _]. by rewrite <- Heq in Hp2.
    + destruct (Hc i1 c1 H1) as [Hp1 _]. by rewrite Heq in Hp1.
    + by apply (Ha i1 i2 c1 c2).
  - intros k [Hk|Hk]%elem_of_union.
    + apply elem_of_singleton in Hk as ->. right. exists i, (EInserted (stamp j now)).
      by rewrite lookup_insert_eq.
    + destruct (Ho k Hk) as [?|(i'&c'&Hi'&<-)]; [by left|right]. exists i', c'.
      rewrite lookup_insert_ne; [done|]. intros ->. congruence.
Qed.

Lemma TInv_send s i j q rs :
  TInv s -> calls s !! i = Some (EInserted j) -> try_send (queue s) j = Some q ->
  TInv (mkThreads q (delete i (calls s)) None (receiver_lock s) (sent s ++ [j]) (received s) rs).
Proof.
  intros [Hn Hr Hq Hc Ha Ho Hf] Hi. unfold try_send.
  destruct (sender_open (queue s)); simpl; [|done].
  destruct (Z.ltb_spec (Z.of_nat (length (channel (queue s)))) (capacity (queue s))); [|done].
  intros [= <-]. destruct (Hc i _ Hi) as [Hp Hnk]. simpl in Hp, Hnk.
  split; simpl; rewrite ?keys_app.
  - apply NoDup_app. split_and!; [done| |apply NoDup_singleton].
    intros k Hk Hk'. apply list_elem_of_singleton in Hk' as ->. done.
  - rewrite length_app. simpl. lia.
  - intros k [Hk|Hk]%elem_of_app; [by apply Hq|]. by apply list_elem_of_singleton in Hk as ->.
  - intros i' c' [Hne Hi']%lookup_delete_Some. destruct (Hc i' c' Hi') as [? ?].
    split; [done|]. intros [?|Hk]%elem_of_app; [done|]. apply list_elem_of_singleton in Hk.
    by apply Hne, (Ha i i' (EInserted j) c').
  - intros i1 i2 c1 c2 [_ H1]%lookup_delete_Some [_ H2]%lookup_delete_Some. by apply Ha.
  - intros k Hk. destruct (Ho k Hk) as [?|(i'&c'&Hi'&<-)].
    + left. apply elem_of_app. by left.
    + destruct (decide (i' = i)) as [->|Hne].
      * left. apply elem_of_app. right. rewrite Hi in Hi'. injection Hi' as <-. by left.
      * right. exists i', c'. by rewrite lookup_delete_ne.
  - by rewrite Hf, app_assoc.
Qed.

Lemma TInv_receive s i j rest :
  TInv s -> calls s !! i = None -> channel (queue s) = j :: rest ->
  TInv (mkThreads (mkQueue (capacity (queue s)) rest (sender_open (queue s)) (pending (queue s)))
          (<[i := DReceived j]> (calls s)) (sender_lock s) (Some i) (sent s)
          (received s ++ [j]) (results s)).
Proof.
  intros [Hn Hr Hq Hc Ha Ho Hf] Hi Hch. rewrite Hch in *. simpl in Hn, Hr.
  apply NoDup_cons in Hn as [Hj Hn].
  split; simpl; try done; try lia.
  - intros k Hk. apply Hq. by right.
  - intros i' c' [[<- <-]|[Hne Hi']]%lookup_insert_Some; simpl.
    + split; [|done]. apply Hq. by left.
    + destruct (Hc i' c' Hi') as [? Hk]. split; [done|]. intros ?. apply Hk. by right.
  - intros i1 i2 c1 c2 [[<- <-]|[? H1]]%lookup_insert_Some [[<- <-]|[? H2]]%lookup_insert_Some;
      simpl; try done; intros Heq.
    + destruct (Hc i2 c2 H2) as [_ Hk]. exfalso. apply Hk. rewrite <- Heq. by left.
    + destruct (Hc i1 c1 H1) as [_ Hk]. exfalso. apply Hk. rewrite Heq. by left.
    + by apply (Ha i1 i2 c1 c2).
  - intros k Hk. destruct (Ho k Hk) as [Hin|(i'&c'&Hi'&<-)].
    + apply elem_of_cons in Hin as [->|?]; [|by left]. right. exists i, (DReceived j).
      by rewrite lookup_insert_eq.
    + right. exists i', c'. rewrite lookup_insert_ne; [done|]. intros ->. congruence.
  - by rewrite Hf, <- app_assoc.
Qed.

Lemma TInv_reject s i j :
  TInv s -> calls s !! i = Some (EInserted j) ->
  TInv (mkThreads (queue s) (<[i := ERejected (domain_key j)]> (calls s)) (Some i)
          (receiver_lock s) (sent s) (received s) (results s)).
Proof.
  intros [Hn Hr Hq Hc Ha Ho Hf] Hi.
  assert (Hkey : forall i' c', <[i := ERejected (domain_key j)]> (calls s) !! i' = Some c' ->
    exists c, calls s !! i' = Some c /\ call_key c = call_key c').
  { intros i' c' [[<- <-]|[_ Hi']]%lookup_insert_Some; [by exists (EInserted j)|by exists c']. }
  split; simpl; try done.
  - intros i' c' (c&Hc1&<-)%Hkey. by apply (Hc i').
  - intros i1 i2 c1 c2 (d1&H1&<-)%Hkey (d2&H2&<-)%Hkey. by apply Ha.
  - intros k Hk. destruct (Ho k Hk) as [?|(i'&c'&Hi'&<-)]; [by left|right].
    destruct (decide (i' = i)) as [->|Hne].
    + exists i, (ERejected (domain_key j)). rewrite lookup_insert_eq.
      rewrite Hi in Hi'. by injection Hi' as <-.
    + exists i', c'. by rewrite lookup_insert_ne.
Qed.

Lemma step_TInv s s' : TInv s -> step s s' -> TInv s'.
Proof.
  intros HI Hs. destruct Hs.
  - by apply TInv_insert.
  - destruct HI. by split.
  - by eapply TInv_send.
  - by apply TInv_reject.
  - by eapply (TInv_free s i (ERejected key)).
  - by apply TInv_receive.
  - by eapply (TInv_free s i (DReceived j)).
  - destruct HI. by split.
Qed.

Lemma threads_init_inv n q : new n = Some q -> TInv (threads_init q).
Proof.
  unfold new. destruct (Z.ltb_spec 0 n); [|done]. intros [= <-].
  split; simpl; try done; try lia; try (by apply NoDup_nil_2); set_solver.
Qed.

(** ** Properties *)

(** C7: Under any interleaving of producers, consumers and [close], the queue
    never holds two jobs with the same key and never more jobs than its
    capacity; jobs leave in the order in which they entered; and the pending set
    holds exactly the keys that are queued or in the middle of a call. *)
Theorem work_queue_safe n q s :
  new n = Some q -> rtc step (threads_init q) s ->
  NoDup (keys (channel (queue s)))
  /\ Z.of_nat (length (channel (queue s))) <= capacity (queue s)
  /\ sent s = received s ++ channel (queue s)
  /\ (forall k, k ∈ pending (queue s) <->
       k ∈ keys (channel (queue s)) \/ exists i c, calls s !! i = Some c /\ call_key c = k).
Proof.
  intros Hnew Hs.
  assert (HI : TInv s).
  { eapply (rtc_invariant _ _ step_TInv); [exact Hs|]. by eapply threads_init_inv. }
  destruct HI as [? ? Hq Hc ? Ho ?]. split_and!; try done.
  intros k. split; [apply Ho|]. intros [?|(i&c&Hi&<-)]; [by apply Hq|by apply (Hc i)].
Qed.

(** [enqueue] and [dequeue] called one at a time: a job is dropped as a
    duplicate exactly when one with its key is queued; it is refused, leaving
    the queue as it was, exactly when the queue is closed or full; otherwise it
    goes to the back, stamped.  [dequeue] takes the oldest job and frees its
    key. *)
Theorem enqueue_spec q now j :
  QInv q ->
  let '(q', r) := enqueue q now j in
  QInv q' /\
  if bool_decide (domain_key j ∈ keys (channel q)) then r = Deduplicated /\ q' = q
  else if sender_open q && (Z.of_nat (length (channel q)) <? capacity q)
  then r = Accepted /\ channel q' = channel q ++ [stamp j now]
  else r = QueueFull /\ channel q' = channel q /\ pending q' = pending q.
Proof.
  intros HI. destruct (enqueue q now j) as [q' r] eqn:He.
  destruct (enqueue_inv _ _ _ _ _ HI He) as (HI'&_&_&Hr). split; [done|].
  case_bool_decide as Hin.
  { destruct r; naive_solver. }
  unfold enqueue, insert_pending in He. rewrite bool_decide_false in He
    by (rewrite elem_of_keys_pending; done).
  unfold try_send in He. simpl in He.
  destruct (sender_open q && _); injection He as <- <-; simpl in *; [done|]. by destruct Hr as (_&_&?&_).
Qed.

(** [enqueue_batch] accounts for every item of the batch, and the jobs it
    accepted are appended in the order of the batch, all with the batch's
    correlation. *)
Theorem enqueue_batch_accounts q now items src corr q' r :
  QInv q -> enqueue_batch q now items src corr = (q', r) ->
  QInv q' /\ total r = Z.of_nat (length items)
  /\ accepted r + deduplicated r + rejected r = total r
  /\ exists added, channel q' = channel q ++ added /\ accepted r = Z.of_nat (length added)
       /\ Forall (fun j => domain_key j ∈ map fst items /\ correlation j = corr) added.
Proof.
  intros HI Hb. destruct (enqueue_loop_inv _ _ _ _ _ _ _ _ _ HI Hb) as (?&Ht&Hs&added&?&?&?).
  simpl in *. split_and!; try done; [lia|]. by exists added.
Qed.
End Queue.

(** *** Witnesses *)

Definition demo_job (key : string) : JobSpec unit := JobSpec_new key tt InitialLoad Correlation.none.

(** A queue of capacity one, holding the job ["x"]. *)
Definition full_queue : WorkQueue unit := fst (enqueue (mkQueue 1 [] true ∅) 0 (demo_job "x")).

Lemma full_queue_inv : QInv full_queue.
Proof.
  unfold full_queue. destruct (enqueue (mkQueue 1 [] true ∅) 0 (demo_job "x")) as [q r] eqn:He.
  eapply enqueue_inv; [|exact He]. by apply (queue_new_inv 1).
Qed.

Lemma enqueue_spec_witness :
  snd (enqueue full_queue 1 (demo_job "y")) = QueueFull
  /\ snd (enqueue full_queue 1 (demo_job "x")) = Deduplicated.
Proof.
  pose proof (enqueue_spec full_queue 1 (demo_job "y") full_queue_inv) as Hy.
  pose proof (enqueue_spec full_queue 1 (demo_job "x") full_queue_inv) as Hx.
  destruct (enqueue full_queue 1 (demo_job "y")) as [qy ry],
           (enqueue full_queue 1 (demo_job "x")) as [qx rx].
  split; [exact (proj1 (proj2 Hy))|exact (proj1 (proj2 Hx))].
Defined.

Lemma enqueue_batch_accounts_witness :
  exists q' r,
    enqueue_batch full_queue (fun _ => 0) [("x", tt); ("y", tt)] ScheduledBatch Correlation.none
    = (q', r) /\ accepted r + deduplicated r + rejected r = 2.
Proof.
  destruct (enqueue_batch full_queue (fun _ => 0) [("x", tt); ("y", tt)] ScheduledBatch
              Correlation.none) as [q' r] eqn:Hb.
  exists q', r. split; [reflexivity|].
  destruct (enqueue_batch_accounts full_queue (fun _ => 0) [("x", tt); ("y", tt)] ScheduledBatch
              Correlation.none q' r full_queue_inv Hb) as (_&Ht&Hs&_).
  rewrite Hs, Ht. reflexivity.
Defined.

(** A producer in the middle of a call, while the queue is full. *)
Definition mid_call (results : list (string * EnqueueResult)) (c : Call (C := unit)) (lock : option nat)
    : Threads (C := unit) :=
  mkThreads (mkQueue 1 [stamp (demo_job "x") 0] true {["x"; "k"]}) {[1%nat := c]} lock None
    [stamp (demo_job "x") 0] [] results.

Definition sent_x : Threads (C := unit) :=
  mkThreads (mkQueue 1 [stamp (demo_job "x") 0] true {["x"]}) ∅ None None
    [stamp (demo_job "x") 0] [] [("x", Accepted)].

Lemma sent_x_reachable : rtc step (threads_init (mkQueue 1 [] true ∅)) sent_x.
Proof.
  eapply rtc_l; [exact (enq_insert (threads_init (mkQueue 1 [] true ∅)) 0%nat (demo_job "x") 0 _
                          eq_refl eq_refl)|].
  apply rtc_once.
  exact (enq_send (mkThreads (mkQueue 1 [] true {["x"]}) {[0%nat := EInserted (stamp (demo_job "x") 0)]}
                     None None [] [] []) 0%nat (stamp (demo_job "x") 0) _ eq_refl eq_refl eq_refl).
Qed.

Lemma work_queue_safe_witness :
  NoDup (keys (channel (queue sent_x)))
  /\ Z.of_nat (length (channel (queue sent_x))) <= capacity (queue sent_x).
Proof.
  destruct (work_queue_safe 1 (mkQueue 1 [] true ∅) sent_x eq_refl sent_x_reachable) as (H1&H2&_).
  split; [exact H1|exact H2].
Defined.

(** A deduplicated job can be lost: while a first producer has inserted its
    key but not yet sent, a second producer of the same key is told
    [Deduplicated]; the first one then finds the queue full and takes its key
    back.  Both calls are over, nothing with that key is queued or pending, and
    the second producer was told that a queued job covers its own. *)
Theorem dedup_can_lose_job :
  exists s : Threads (C := unit),
    rtc step (threads_init (mkQueue 1 [] true ∅)) s
    /\ calls s = ∅ /\ ("k", Deduplicated) ∈ results s
    /\ ("k" ∉ keys (sent s)) /\ ("k" ∉ pending (queue s)).
Proof.
  exists (mkThreads (mkQueue 1 [stamp (demo_job "x") 0] true {["x"]}) ∅ None None
    [stamp (demo_job "x") 0] [] [("x", Accepted); ("k", Deduplicated); ("k", QueueFull)]).
  split.
  - transitivity sent_x; [exact sent_x_reachable|].
    eapply (rtc_l _ _ (mid_call [("x", Accepted)] (EInserted (stamp (demo_job "k") 1)) None)).
    { exact (enq_insert sent_x 1%nat (demo_job "k") 1 _ eq_refl eq_refl). }
    eapply (rtc_l _ _ (mid_call [("x", Accepted); ("k", Deduplicated)]
                         (EInserted (stamp (demo_job "k") 1)) None)).
    { exact (enq_duplicate (mid_call [("x", Accepted)] (EInserted (stamp (demo_job "k") 1)) None)
               (demo_job "k") eq_refl). }
    eapply (rtc_l _ _ (mid_call [("x", Accepted); ("k", Deduplicated)] (ERejected "k") (Some 1%nat))).
    { exact (enq_reject (mid_call [("x", Accepted); ("k", Deduplicated)]
               (EInserted (stamp (demo_job "k") 1)) None) 1%nat (stamp (demo_job "k") 1)
               eq_refl eq_refl eq_refl). }
    apply rtc_once.
    exact (enq_rollback (mid_call [("x", Accepted); ("k", Deduplicated)] (ERejected "k") (Some 1%nat))
             1%nat "k" eq_refl eq_refl).
  - split_and!; try done; vm_compute; set_solver.
Qed.

(** ** [BatchTracker]

    [notify_waiters] wakes every [notified()] future created before it: a
    waiter keeps the number of notifications it has seen. *)

Module BatchTracker.

(** [complete_one] on the counter: the new value and, unless the assertion
    fails ([None]), whether the waiters are to be notified. *)
Definition complete_one (remaining : Z) : Z * option bool :=
  let prev := remaining in
  (wrapping_sub USIZE_MAX prev 1, if 0 <? prev then Some (prev =? 1) else None).

(** [retire]: the new value, how many slots were retired, and whether to
    notify. *)
Definition retire (remaining count : Z) : Z * Z * bool :=
  if count =? 0 then (remaining, 0, false)
  else let prev := remaining in
       let retired := Z.min prev count in
       (saturating_sub prev count, retired, (0 <? retired) && (prev =? retired)).

Definition drain (remaining : Z) : Z * Z * bool := retire remaining USIZE_MAX.

(** Where a thread is: a finisher that has changed the counter and has yet to
    notify, a waiter that has created its future, one that found the counter
    non-zero, one that returned, and a finisher whose assertion failed. *)
Inductive Pc := MustNotify | Created (seen : nat) | Parked (seen : nat) | Returned | Panicked.

(** The counter and the [Notify]; [reported] is ghost state, the number of slots
    that were completed or retired. *)
Record Tracker := mkTracker {
  remaining : Z;
  notifications : nat;
  threads : gmap nat Pc;
  reported : Z;
}.

(** The calls may come from anywhere: a [complete_one] too many subtracts from
    the counter before its assertion fails. *)
Inductive step (s : Tracker) : Tracker -> Prop :=
| t_complete i r notify :
    threads s !! i = None -> complete_one (remaining s) = (r, Some notify) ->
    step s (mkTracker r (notifications s)
              (if notify then <[i := MustNotify]> (threads s) else threads s) (reported s + 1))
| t_complete_panics i r :
    threads s !! i = None -> complete_one (remaining s) = (r, None) ->
    step s (mkTracker r (notifications s) (<[i := Panicked]> (threads s)) (reported s))
| t_retire i count r retired notify :
    threads s !! i = None -> 0 <= count -> retire (remaining s) count = (r, retired, notify) ->
    step s (mkTracker r (notifications s)
              (if notify then <[i := MustNotify]> (threads s) else threads s) (reported s + retired))
| t_notify i :
    threads s !! i = Some MustNotify ->
    step s (mkTracker (remaining s) (S (notifications s)) (delete i (threads s)) (reported s))
| t_wait i :
    threads s !! i = None ->
    step s (mkTracker (remaining s) (notifications s)
              (<[i := Created (notifications s)]> (threads s)) (reported s))
| t_check_done i seen :
    threads s !! i = Some (Created seen) -> remaining s = 0 ->
    step s (mkTracker (remaining s) (notifications s) (<[i := Returned]> (threads s)) (reported s))
| t_check_park i seen :
    threads s !! i = Some (Created seen) -> remaining s <> 0 ->
    step s (mkTracker (remaining s) (notifications s) (<[i := Parked seen]> (threads s)) (reported s))
| t_wake i seen :
    threads s !! i = Some (Parked seen) -> (seen < notifications s)%nat ->
    step s (mkTracker (remaining s) (notifications s) (<[i := Returned]> (threads s)) (reported s)).

Definition init (count : Z) : Tracker := mkTracker count 0 ∅ 0.

(** Some completion came after every slot was reported. *)
Definition overrun (s : Tracker) : Prop := exists i, threads s !! i = Some Panicked.

(** A thread that is past the end of a batch of [n] slots. *)
Definition past_end (pc : Pc) : bool :=
  match pc with MustNotify | Returned | Panicked => true | _ => false end.

(** The counter is what is left of the batch until a completion overruns it; all
    slots were reported before anything that marks its end; while the counter is
    zero, a parked waiter has been notified or is about to be. *)
Record BInv (n : Z) (s : Tracker) : Prop := {
  bi_range : 0 <= remaining s <= USIZE_MAX;
  bi_left : remaining s = n - reported s \/ n <= reported s /\ overrun s;
  bi_end i pc : threads s !! i = Some pc -> past_end pc = true -> n <= reported s;
  bi_notified : (0 < notifications s)%nat -> n <= reported s;
  bi_parked i seen : threads s !! i = Some (Parked seen) -> remaining s = 0 ->
    (seen < notifications s)%nat \/ exists j, threads s !! j = Some MustNotify;
  bi_seen i seen : threads s !! i = Some (Parked seen) \/ threads s !! i = Some (Created seen) ->
    (seen <= notifications s)%nat;
}.

Lemma complete_one_ok r r' b :
  0 <= r <= USIZE_MAX -> complete_one r = (r', Some b) ->
  0 < r /\ r' = r - 1 /\ b = bool_decide (r' = 0).
Proof.
  unfold complete_one. intros Hr. destruct (Z.ltb_spec 0 r) as [Hpos|]; [|done].
  rewrite wrapping_sub_small by lia. intros [= <- <-]. split_and!; [done|done|].
  destruct (Z.eqb_spec r 1); symmetry; [apply bool_decide_eq_true|apply bool_decide_eq_false]; lia.
Qed.

Lemma complete_one_panics r r' :
  0 <= r <= USIZE_MAX -> complete_one r = (r', None) -> r = 0 /\ r' = USIZE_MAX.
Proof.
  unfold complete_one. intros Hr. destruct (Z.ltb_spec 0 r) as [|Hle]; [done|]. intros [= <-].
  assert (r = 0) as -> by lia. by split.
Qed.

Lemma retire_ok r c r' k b :
  0 <= r -> 0 <= c -> retire r c = (r', k, b) ->
  0 <= r' <= r /\ k = r - r' /\ k = Z.min r c /\ (b = true <-> r' = 0 /\ 0 < r /\ 0 < c).
Proof.
  unfold retire, saturating_sub. intros Hr Hc.
  destruct (Z.eqb_spec c 0) as [->|Hne]; intros [= <- <- <-].
  - split_and!; first [lia | done | split; [done|lia]].
  - split_and!; lia.
Qed.

(** An overrun stays one. *)
Lemma overrun_insert s i pc r k rep :
  threads s !! i <> Some Panicked -> overrun s -> overrun (mkTracker r k (<[i := pc]> (threads s)) rep).
Proof. intros Hi [j Hj]. exists j. simpl. rewrite lookup_insert_ne; [done|]. congruence. Qed.

(** Reporting slots; the one that empties the batch must notify. *)
Lemma BInv_shrink n s i r :
  BInv n s -> threads s !! i = None -> 0 <= r <= remaining s ->
  BInv n (mkTracker r (notifications s)
          (if bool_decide (r = 0 /\ 0 < remaining s) then <[i := MustNotify]> (threads s) else threads s)
          (reported s + (remaining s - r))).
Proof.
  intros [Hr Hl He Hn Hp Hs] Hi Hle. case_bool_decide as Hz.
  - destruct Hz as [-> Hpos]. assert (n <= reported s + (remaining s - 0)) by lia. split; simpl; try done; try lia.
    + destruct Hl as [?|[? Ho]]; [left; lia|right; split; [lia|]]. apply overrun_insert; [by rewrite Hi|done].
    + intros k seen [[<- ?]|[Hne Hk]]%lookup_insert_Some _; [done|]. right. exists i.
      by rewrite lookup_insert_eq.
    + intros k seen Hk. apply (Hs k seen).
      destruct Hk as [Hk|Hk]; apply lookup_insert_Some in Hk as [[_ ?]|[_ ?]]; naive_solver.
  - split; simpl; try done; try lia.
    + destruct Hl as [?|[? Ho]]; [left; lia|right; split; [lia|exact Ho]].
    + intros k pc Hk Hpc. specialize (He k pc Hk Hpc). lia.
    + intros k seen Hk ->. destruct (decide (remaining s = 0)); [by eapply Hp|]. destruct Hz. lia.
Qed.

(** Moving a thread from one place to another, other than to a notification. *)
Lemma BInv_move n s i pc pc' :
  BInv n s -> threads s !! i = pc -> pc <> Some MustNotify -> pc <> Some Panicked ->
  match pc' with
  | MustNotify | Panicked => False
  | Created seen => seen = notifications s
  | Parked seen => pc = Some (Created seen) /\ remaining s <> 0
  | Returned => n <= reported s
  end ->
  BInv n (mkTracker (remaining s) (notifications s) (<[i := pc']> (threads s)) (reported s)).
Proof.
  intros [Hr Hl He Hn Hp Hs] Hi Hne Hne' Hpc. split; simpl; [done|..]; [|intros k pc1|done|intros k seen..].
  - destruct Hl as [?|[? Ho]]; [by left|right; split; [done|]]. apply overrun_insert; [by rewrite Hi|done].
  - intros [[<- <-]|[_ Hk]]%lookup_insert_Some Hpe; [by destruct pc'|by apply (He k pc1)].
  - intros [[<- ->]|[Hk1 Hk]]%lookup_insert_Some Hz; [by destruct Hpc|].
    destruct (Hp k seen Hk Hz) as [?|[j Hj]]; [by left|right]. exists j.
    rewrite lookup_insert_ne; [done|]. intros <-. congruence.
  - intros Hk. destruct (decide (i = k)) as [<-|Hk1].
    + rewrite !lookup_insert_eq in Hk. destruct Hk as [[= ->]|[= ->]]; [|lia].
      destruct Hpc as [-> _]. apply (Hs i). by right.
    + rewrite !lookup_insert_ne in Hk by done. by apply (Hs k).
Qed.

Lemma BInv_notify n s i :
  BInv n s -> threads s !! i = Some MustNotify ->
  BInv n (mkTracker (remaining s) (S (notifications s)) (delete i (threads s)) (reported s)).
Proof.
  intros [Hr Hl He Hn Hp Hs] Hi. assert (Hz : n <= reported s) by by apply (He i MustNotify).
  split; simpl; try done; [|intros k seen..].
  - destruct Hl as [?|[? [j Hj]]]; [by left|right; split; [done|]]. exists j. simpl.
    rewrite lookup_delete_ne; [done|]. congruence.
  - intros [_ Hk]%lookup_delete_Some _. left. specialize (Hs k seen (or_introl Hk)). lia.
  - intros Hk. enough (seen <= notifications s)%nat by lia. apply (Hs k).
    destruct Hk as [[_ ?]%lookup_delete_Some|[_ ?]%lookup_delete_Some]; auto.
Qed.

Lemma BInv_overrun n s i :
  BInv n s -> threads s !! i = None -> remaining s = 0 ->
  BInv n (mkTracker USIZE_MAX (notifications s) (<[i := Panicked]> (threads s)) (reported s)).
Proof.
  intros [Hr Hl He Hn Hp Hs] Hi Hz. assert (Hall : n <= reported s) by lia.
  split; simpl; try done; [right; split; [done|]; exists i; simpl; by rewrite lookup_insert_eq|].
  intros k seen Hk. apply (Hs k seen).
  destruct Hk as [Hk|Hk]; apply lookup_insert_Some in Hk as [[_ ?]|[_ ?]]; naive_solver.
Qed.

Lemma step_BInv n s s' : BInv n s -> step s s' -> BInv n s'.
Proof.
  intros HI Hs. pose proof HI as [Hr Hl He Hn _ _].
  destruct Hs as [i r b Hi Hc|i r Hi Hc|i c r k b Hi Hc0 Hc|i Hi|i Hi|i seen Hi Hz|i seen Hi Hz|i seen Hi Hlt].
  - apply complete_one_ok in Hc as (Hpos&->&->); [|done].
    pose proof (BInv_shrink n s i (remaining s - 1) HI Hi ltac:(lia)) as H'.
    replace (bool_decide (remaining s - 1 = 0)) with
      (bool_decide (remaining s - 1 = 0 /\ 0 < remaining s)) by (apply bool_decide_ext; lia).
    by replace (reported s + 1) with (reported s + (remaining s - (remaining s - 1))) by lia.
  - apply complete_one_panics in Hc as [Hz ->]; [|done]. by apply BInv_overrun.
  - apply retire_ok in Hc as (Hle&->&Hk'&Hb); [|lia..].
    pose proof (BInv_shrink n s i r HI Hi Hle) as H'.
    replace b with (bool_decide (r = 0 /\ 0 < remaining s)); [done|].
    destruct b; [apply bool_decide_eq_true; naive_solver|apply bool_decide_eq_false].
    intros [-> Hpos]. assert (false = true); [apply Hb; lia|done].
  - by apply BInv_notify.
  - by eapply (BInv_move n s i None (Created (notifications s))).
  - eapply (BInv_move n s i (Some (Created seen)) Returned); try done. lia.
  - by eapply (BInv_move n s i (Some (Created seen)) (Parked seen)).
  - eapply (BInv_move n s i (Some (Parked seen)) Returned); try done. apply Hn. lia.
Qed.

Lemma init_BInv n : 0 <= n <= USIZE_MAX -> BInv n (init n).
Proof.
  intros Hn. split; simpl; [done|left; lia|..]; intros *; rewrite ?lookup_empty; try lia; naive_solver.
Qed.

(** C22: The barrier of a batch has no early release and no lost wake-up, in every
    run of completions, retirements and waiters, calls of [complete_one] in
    excess of the count included.  The counter is the count less the slots
    completed or retired, until such an excess call has wrapped it and panicked,
    which happens only after every slot was reported; a waiter returns only after
    every slot was reported, overrun or not; and whenever the counter is zero and
    the finisher has sent its notification, every waiter that is parked can
    proceed. *)
Theorem batch_barrier n s :
  0 <= n <= USIZE_MAX -> rtc step (init n) s ->
  (remaining s = n - reported s \/ overrun s)
  /\ (overrun s -> n <= reported s)
  /\ (forall i, threads s !! i = Some Returned -> n <= reported s)
  /\ (remaining s = 0 -> (forall j, threads s !! j <> Some MustNotify) ->
      forall i seen, threads s !! i = Some (Parked seen) -> exists s', step s s' /\ threads s' !! i = Some Returned).
Proof.
  intros Hn Hs. assert (HI : BInv n s).
  { eapply (rtc_invariant _ _ (step_BInv n)); [exact Hs|by apply init_BInv]. }
  destruct HI as [_ Hl He _ Hp _]. split_and!.
  - destruct Hl as [?|[_ ?]]; auto.
  - intros [i Hi]. by apply (He i Panicked).
  - intros i Hi. by apply (He i Returned).
  - intros Hz Hno i seen Hi. destruct (Hp i seen Hi Hz) as [Hlt|[j Hj]]; [|by destruct (Hno j)].
    eexists. split; [by eapply t_wake|]. simpl. by rewrite lookup_insert_eq.
Qed.

(** The batch of one is drained, the waiter returns, and the completion of the
    job that was in flight overruns the counter. *)
Lemma batch_barrier_witness :
  exists s, rtc step (init 1) s /\ threads s !! 7%nat = Some Returned /\ remaining s = USIZE_MAX
    /\ reported s = 1 /\ 1 <= reported s.
Proof.
  set (s := mkTracker USIZE_MAX 0 {[1%nat := MustNotify; 7%nat := Returned; 2%nat := Panicked]} 1).
  assert (Hs : rtc step (init 1) s).
  { apply (rtc_l _ _ (mkTracker 0 0 {[1%nat := MustNotify]} 1)).
    { exact (t_retire (init 1) 1%nat USIZE_MAX 0 1 true eq_refl ltac:(done) eq_refl). }
    apply (rtc_l _ _ (mkTracker 0 0 {[1%nat := MustNotify; 7%nat := Created 0]} 1)).
    { exact (t_wait (mkTracker 0 0 {[1%nat := MustNotify]} 1) 7%nat eq_refl). }
    apply (rtc_l _ _ (mkTracker 0 0 {[1%nat := MustNotify; 7%nat := Returned]} 1)).
    { exact (t_check_done (mkTracker 0 0 {[1%nat := MustNotify; 7%nat := Created 0]} 1) 7%nat 0
               eq_refl eq_refl). }
    apply rtc_once.
    exact (t_complete_panics (mkTracker 0 0 {[1%nat := MustNotify; 7%nat := Returned]} 1) 2%nat USIZE_MAX
             eq_refl eq_refl). }
  destruct (batch_barrier 1 s ltac:(vm_compute; split; discriminate) Hs) as (_&_&Hret&_).
  exists s. split_and!; [exact Hs|reflexivity|reflexivity|reflexivity|]. by apply (Hret 7%nat).
Defined.

(** A completion reported after [drain] wraps the counter: the drain leaves
    zero, the late [complete_one] fails its assertion but has already stored the
    largest [usize], and a waiter that comes afterwards finds an open batch. *)
Theorem complete_after_drain_wraps n :
  0 < n <= USIZE_MAX ->
  let '(r, retired, notified) := drain n in
  r = 0 /\ retired = n /\ notified = true /\ complete_one r = (USIZE_MAX, None).
Proof.
  intros Hn. unfold drain. destruct (retire n USIZE_MAX) as [[r k] b] eqn:Hr.
  apply retire_ok in Hr as (Hle&Hk&Hk'&Hb); [|lia|unfold USIZE_MAX, U64_MAX; lia].
  assert (r = 0) as -> by lia. split_and!; [done|lia|apply Hb; lia|reflexivity].
Qed.

Lemma complete_after_drain_wraps_witness : complete_one (fst (fst (drain 3))) = (USIZE_MAX, None).
Proof. exact (proj2 (proj2 (proj2 (complete_after_drain_wraps 3 ltac:(vm_compute; split; done))))). Defined.
End BatchTracker.
