(* ===== verification/Budget.v ===== *)
(** * The budget gate (crate [cherry-pit-wq], [budget.rs])

    [BudgetGate::acquire], [refund], [epoch_usage], the setters and the guard of
    the epoch transition with its optional policy, as the atomic steps the source
    takes, interleaved over any number of threads.  Each thread is in one call;
    its program counter [Pc] holds the values it has read so far. *)

From S2P Require Import Prelude.
Local Open Scope Z_scope.

(** [Replenished]: the answer of a policy.  The type of the ceiling excludes 0. *)
Inductive Replenished := Ceiling (ceiling : positive) | Cancelled | Unavailable.

Record EpochUsage := mkUsage { calls_made : Z; epoch_limit : Z }.

(** What the guard's owner does after dropping it; [Unwind] when a panic of the
    policy, or dropping the future of the call, runs the guard's [drop]. *)
Inductive After := Continue | ReturnFalse | Unwind.

Inductive Pc :=
| Start                          (* loop head *)
| LimitLoaded (limit : Z)
| CallsLoaded (limit current : Z)
| Won                            (* the call counter is incremented, the total not yet *)
| Electing (limit : Z)           (* at the limit, before the exchange on [resetting] *)
| Holding (limit : Z)            (* elected, before the second look at [calls] *)
| Pausing                        (* before reading [pause_notify] *)
| Choosing                       (* before reading [replenish_policy] *)
| Sleeping                       (* the fixed cooldown *)
| Asking                         (* waiting for the policy *)
| CeilingStored                  (* the policy's ceiling is stored, [calls] not yet reset *)
| Dropping (after : After)       (* the guard's [drop], before clearing [resetting] *)
| Notifying (after : After)      (* before [notify_waiters] *)
| Registering (limit : Z)        (* election lost, before [notified()] *)
| Enabled (limit : Z) (seen : nat)
| Parked (limit : Z) (seen : nat)
| Returned (granted : bool)
| Unwound                        (* the call ended without an answer *)
| RefundStart
| RefundLoaded (current : Z)
| Refunded
| UsageStart
| UsageLoaded (limit : Z)
| Reported (usage : EpochUsage).

#[global] Instance EpochUsage_eq_dec : EqDecision EpochUsage.
Proof. solve_decision. Defined.
#[global] Instance After_eq_dec : EqDecision After.
Proof. solve_decision. Defined.
#[global] Instance Pc_eq_dec : EqDecision Pc.
Proof. solve_decision. Defined.

(** [pause_notify] and [replenish_policy] say whether one is attached; [pauses]
    counts the calls of [notify_one].  The rest are not fields of the source:
    [cancelled] is the state of the token, [epoch_grants] and [epoch_refunds]
    count the permits granted and refunded since [calls] was last reset,
    [granted] all permits, [peak] is the largest limit stored so far, and
    [denied] records that a policy answered without a ceiling. *)
Record Gate := mkGate {
  calls : Z;
  total_calls : Z;
  limit : Z;
  resetting : bool;
  notifications : nat;
  pause_notify : bool;
  pauses : nat;
  replenish_policy : bool;
  cancelled : bool;
  threads : gmap nat Pc;
  epoch_grants : Z;
  epoch_refunds : Z;
  granted : Z;
  peak : Z;
  denied : bool;
}.

(** [BudgetGate::new]; [None] where it panics. *)
Definition new (limit : Z) : option Gate :=
  if 0 <? limit then Some (mkGate 0 0 limit false 0 false 0 false false ∅ 0 0 0 limit false) else None.

(** The gate with thread [i] at [pc]. *)
Definition at_pc (g : Gate) (i : nat) (pc : Pc) : Gate :=
  mkGate (calls g) (total_calls g) (limit g) (resetting g) (notifications g) (pause_notify g) (pauses g)
    (replenish_policy g) (cancelled g) (<[i := pc]> (threads g)) (epoch_grants g) (epoch_refunds g)
    (granted g) (peak g) (denied g).

Definition with_calls (g : Gate) (c grants refunds total : Z) : Gate :=
  mkGate c (total_calls g) (limit g) (resetting g) (notifications g) (pause_notify g) (pauses g)
    (replenish_policy g) (cancelled g) (threads g) grants refunds total (peak g) (denied g).

(** The exchange that takes a permit, the one that gives it back, the reset. *)
Definition grant (g : Gate) : Gate :=
  with_calls g (calls g + 1) (epoch_grants g + 1) (epoch_refunds g) (granted g + 1).
Definition give_back (g : Gate) : Gate :=
  with_calls g (calls g - 1) (epoch_grants g) (epoch_refunds g + 1) (granted g).
Definition reset (g : Gate) : Gate := with_calls g 0 0 0 (granted g).

(** [total_calls.fetch_add(1)]. *)
Definition count_total (g : Gate) : Gate :=
  mkGate (calls g) (wrapping_add U64_MAX (total_calls g) 1) (limit g) (resetting g) (notifications g)
    (pause_notify g) (pauses g) (replenish_policy g) (cancelled g) (threads g) (epoch_grants g)
    (epoch_refunds g) (granted g) (peak g) (denied g).

Definition with_limit (g : Gate) (l : Z) : Gate :=
  mkGate (calls g) (total_calls g) l (resetting g) (notifications g) (pause_notify g) (pauses g)
    (replenish_policy g) (cancelled g) (threads g) (epoch_grants g) (epoch_refunds g) (granted g)
    (Z.max (peak g) l) (denied g).

Definition with_resetting (g : Gate) (b : bool) : Gate :=
  mkGate (calls g) (total_calls g) (limit g) b (notifications g) (pause_notify g) (pauses g)
    (replenish_policy g) (cancelled g) (threads g) (epoch_grants g) (epoch_refunds g) (granted g)
    (peak g) (denied g).

Definition notify (g : Gate) : Gate :=
  mkGate (calls g) (total_calls g) (limit g) (resetting g) (S (notifications g)) (pause_notify g) (pauses g)
    (replenish_policy g) (cancelled g) (threads g) (epoch_grants g) (epoch_refunds g) (granted g)
    (peak g) (denied g).

(** The pause is announced when a channel for it is attached. *)
Definition announce (g : Gate) : Gate :=
  mkGate (calls g) (total_calls g) (limit g) (resetting g) (notifications g) (pause_notify g)
    (if pause_notify g then S (pauses g) else pauses g)
    (replenish_policy g) (cancelled g) (threads g) (epoch_grants g) (epoch_refunds g) (granted g)
    (peak g) (denied g).

Definition deny (g : Gate) : Gate :=
  mkGate (calls g) (total_calls g) (limit g) (resetting g) (notifications g) (pause_notify g) (pauses g)
    (replenish_policy g) (cancelled g) (threads g) (epoch_grants g) (epoch_refunds g) (granted g)
    (peak g) true.

Definition set_pause_notify (g : Gate) : Gate :=
  mkGate (calls g) (total_calls g) (limit g) (resetting g) (notifications g) true (pauses g)
    (replenish_policy g) (cancelled g) (threads g) (epoch_grants g) (epoch_refunds g) (granted g)
    (peak g) (denied g).

Definition set_replenish_policy (g : Gate) : Gate :=
  mkGate (calls g) (total_calls g) (limit g) (resetting g) (notifications g) (pause_notify g) (pauses g)
    true (cancelled g) (threads g) (epoch_grants g) (epoch_refunds g) (granted g) (peak g) (denied g).

Definition cancel (g : Gate) : Gate :=
  mkGate (calls g) (total_calls g) (limit g) (resetting g) (notifications g) (pause_notify g) (pauses g)
    (replenish_policy g) true (threads g) (epoch_grants g) (epoch_refunds g) (granted g) (peak g) (denied g).

Definition after_pc (a : After) : Pc :=
  match a with Continue => Start | ReturnFalse => Returned false | Unwind => Unwound end.

(** What the owner does with the policy's answer. *)
Definition answered (g : Gate) (i : nat) (r : Replenished) : Gate :=
  match r with
  | Ceiling c => at_pc (with_limit g (Z.pos c)) i CeilingStored
  | Cancelled | Unavailable => at_pc (deny g) i (Dropping ReturnFalse)
  end.

(** The steps of thread [i]. *)
Inductive tstep (g : Gate) (i : nat) : Gate -> Prop :=
| s_limit : threads g !! i = Some Start ->
    tstep g i (at_pc g i (LimitLoaded (limit g)))
| s_calls l : threads g !! i = Some (LimitLoaded l) ->
    tstep g i (at_pc g i (CallsLoaded l (calls g)))
| s_cas_ok l : threads g !! i = Some (CallsLoaded l (calls g)) -> calls g < l ->
    tstep g i (at_pc (grant g) i Won)
| s_cas_fail l c : threads g !! i = Some (CallsLoaded l c) -> c < l ->
    tstep g i (at_pc g i Start)
| s_total : threads g !! i = Some Won ->
    tstep g i (at_pc (count_total g) i (Returned true))
| s_at_limit l c : threads g !! i = Some (CallsLoaded l c) -> l <= c ->
    tstep g i (at_pc g i (Electing l))
| s_elected l : threads g !! i = Some (Electing l) -> resetting g = false ->
    tstep g i (at_pc (with_resetting g true) i (Holding l))
| s_not_elected l : threads g !! i = Some (Electing l) -> resetting g = true ->
    tstep g i (at_pc g i (Registering l))
| s_recheck_free l : threads g !! i = Some (Holding l) -> calls g < l ->
    tstep g i (at_pc g i (Dropping Continue))
| s_recheck_full l : threads g !! i = Some (Holding l) -> l <= calls g ->
    tstep g i (at_pc g i Pausing)
| s_announce : threads g !! i = Some Pausing ->
    tstep g i (at_pc (announce g) i Choosing)
| s_choose : threads g !! i = Some Choosing ->
    tstep g i (at_pc g i (if replenish_policy g then Asking else Sleeping))
| s_slept : threads g !! i = Some Sleeping ->
    tstep g i (at_pc (reset g) i (Dropping Continue))
| s_sleep_cancelled : threads g !! i = Some Sleeping -> cancelled g = true ->
    tstep g i (at_pc g i (Dropping ReturnFalse))
| s_answer r : threads g !! i = Some Asking ->
    tstep g i (answered g i r)
| s_ceiling_reset : threads g !! i = Some CeilingStored ->
    tstep g i (at_pc (reset g) i (Dropping Continue))
| s_unwind pc : threads g !! i = Some pc -> pc = Asking \/ pc = Sleeping ->
    tstep g i (at_pc g i (Dropping Unwind))
| s_clear a : threads g !! i = Some (Dropping a) ->
    tstep g i (at_pc (with_resetting g false) i (Notifying a))
| s_notify a : threads g !! i = Some (Notifying a) ->
    tstep g i (at_pc (notify g) i (after_pc a))
| s_enable l : threads g !! i = Some (Registering l) ->
    tstep g i (at_pc g i (Enabled l (notifications g)))
| s_enabled_free l n : threads g !! i = Some (Enabled l n) -> calls g < l ->
    tstep g i (at_pc g i Start)
| s_park l n : threads g !! i = Some (Enabled l n) -> l <= calls g ->
    tstep g i (at_pc g i (Parked l n))
| s_wake l n : threads g !! i = Some (Parked l n) -> (n < notifications g)%nat ->
    tstep g i (at_pc g i Start)
| s_wait_cancelled l n : threads g !! i = Some (Parked l n) -> cancelled g = true ->
    tstep g i (at_pc g i (Returned false))
| s_abandoned l n : threads g !! i = Some (Parked l n) ->
    tstep g i (at_pc g i Unwound)
| s_refund_load : threads g !! i = Some RefundStart ->
    tstep g i (at_pc g i (RefundLoaded (calls g)))
| s_refund_zero : threads g !! i = Some (RefundLoaded 0) ->
    tstep g i (at_pc g i Refunded)
| s_refund_ok : threads g !! i = Some (RefundLoaded (calls g)) -> calls g <> 0 ->
    tstep g i (at_pc (give_back g) i Refunded)
| s_refund_fail c : threads g !! i = Some (RefundLoaded c) -> c <> 0 ->
    tstep g i (at_pc g i RefundStart)
| s_usage_limit : threads g !! i = Some UsageStart ->
    tstep g i (at_pc g i (UsageLoaded (limit g)))
| s_usage_calls l : threads g !! i = Some (UsageLoaded l) ->
    tstep g i (at_pc g i (Reported (mkUsage (calls g) l))).

(** New calls, what is set on a shared gate, and the cancellation of the token. *)
Inductive step (g : Gate) : Gate -> Prop :=
| do_thread i g' : tstep g i g' -> step g g'
| do_acquire i : threads g !! i = None -> step g (at_pc g i Start)
| do_refund i : threads g !! i = None -> step g (at_pc g i RefundStart)
| do_epoch_usage i : threads g !! i = None -> step g (at_pc g i UsageStart)
| do_set_epoch_limit l : 0 < l -> step g (with_limit g l)
| do_set_pause_notify : step g (set_pause_notify g)
| do_set_replenish_policy : step g (set_replenish_policy g)
| do_cancel : step g (cancel g).

(** ** Invariants *)

(** The thread owns the epoch transition. *)
Definition owner (pc : Pc) : bool :=
  match pc with
  | Holding _ | Pausing | Choosing | Sleeping | Asking | CeilingStored | Dropping _ => true
  | _ => false
  end.

(** The limits and counts a thread has read were in force at some time. *)
Definition pc_limit (pc : Pc) : Z :=
  match pc with
  | LimitLoaded l | CallsLoaded l _ | Electing l | Holding l | Registering l
  | Enabled l _ | Parked l _ | UsageLoaded l => l
  | Reported u => Z.max (calls_made u) (epoch_limit u)
  | _ => 0
  end.

(** The thread is leaving without a permit. *)
Definition refused (pc : Pc) : bool :=
  match pc with
  | Dropping ReturnFalse | Notifying ReturnFalse | Returned false => true
  | _ => false
  end.

(** The thread has taken up the policy. *)
Definition asking (pc : Pc) : bool :=
  match pc with Asking | CeilingStored => true | _ => false end.

(** What the state of the gate says about a thread at [pc]. *)
Definition pc_ok (g : Gate) (pc : Pc) : Prop :=
  pc_limit pc <= peak g
  /\ (refused pc = true -> cancelled g = true \/ denied g = true)
  /\ (asking pc = true -> replenish_policy g = true).

(** Threads that have a permit which the total does not count yet. *)
Definition wons (m : gmap nat Pc) : Z :=
  Z.of_nat (size (filter (fun e : nat * Pc => snd e = Won) m)).
Definition won (pc : Pc) : Z := match pc with Won => 1 | _ => 0 end.

Lemma wons_fresh m i pc : m !! i = None -> wons (<[i := pc]> m) = wons m + won pc.
Proof.
  intros Hi. unfold wons. rewrite map_filter_insert. simpl. destruct (decide (pc = Won)) as [->|Hpc].
  - rewrite map_size_insert_None; [simpl; lia|]. apply map_lookup_filter_None_2. by left.
  - rewrite delete_id by done. destruct pc; simpl; try done; lia.
Qed.

Lemma wons_move m i pc pc' :
  m !! i = Some pc -> wons (<[i := pc']> m) = wons m - won pc + won pc'.
Proof.
  intros Hi. rewrite <- insert_delete_eq, wons_fresh by apply lookup_delete_eq.
  rewrite <- (insert_delete_id m i pc Hi) at 2. rewrite wons_fresh by apply lookup_delete_eq. lia.
Qed.

Record GInv (g : Gate) : Prop := {
  gi_calls : 0 <= calls g <= peak g;
  gi_limit : 0 < limit g <= peak g;
  gi_account : epoch_grants g = calls g + epoch_refunds g;
  gi_refunds : 0 <= epoch_refunds g;
  gi_total : total_calls g = (granted g - wons (threads g)) mod (U64_MAX + 1);
  gi_pc i pc : threads g !! i = Some pc -> pc_ok g pc;
  gi_one i1 i2 pc1 pc2 : threads g !! i1 = Some pc1 -> threads g !! i2 = Some pc2 ->
    owner pc1 = true -> owner pc2 = true -> i1 = i2;
  gi_flag : resetting g = true <-> exists i pc, threads g !! i = Some pc /\ owner pc = true;
  gi_denied : denied g = true -> replenish_policy g = true;
}.

(** Who owns the transition, when thread [i] moves from [pc] to [pc']. *)
Lemma owner_move (m : gmap nat Pc) (flag flag' : bool) i pc pc' :
  m !! i = Some pc ->
  (forall i1 i2 p1 p2, m !! i1 = Some p1 -> m !! i2 = Some p2 -> owner p1 = true -> owner p2 = true -> i1 = i2) ->
  (flag = true <-> exists k p, m !! k = Some p /\ owner p = true) ->
  (owner pc' = true -> owner pc = true \/ flag = false) ->
  flag' = (if owner pc' then true else if owner pc then false else flag) ->
  (forall i1 i2 p1 p2, <[i := pc']> m !! i1 = Some p1 -> <[i := pc']> m !! i2 = Some p2 ->
    owner p1 = true -> owner p2 = true -> i1 = i2)
  /\ (flag' = true <-> exists k p, <[i := pc']> m !! k = Some p /\ owner p = true).
Proof.
  intros Hi H1 Hf Hown ->.
  assert (Hno : owner pc' = true -> forall k p, i <> k -> m !! k = Some p -> owner p = true -> False).
  { intros Ho k p Hne Hk Hp. destruct (Hown Ho) as [Hpc'|Hrs]; [by apply Hne, (H1 i k pc p)|].
    assert (flag = true) by (apply Hf; by exists k, p). congruence. }
  split.
  - intros i1 i2 p1 p2 [[<- <-]|[Hn1 H1']]%lookup_insert_Some [[<- <-]|[Hn2 H2']]%lookup_insert_Some Ho1 Ho2; try done.
    + exfalso. by eapply (Hno Ho1 i2).
    + exfalso. by eapply (Hno Ho2 i1).
    + by apply (H1 i1 i2 p1 p2).
  - destruct (owner pc') eqn:Hp'.
    { split; [|done]. intros _. exists i, pc'. by rewrite lookup_insert_eq. }
    destruct (owner pc) eqn:Hp.
    + split; [done|]. intros (k&p&[[-> ->]|[Hne Hk]]%lookup_insert_Some&Hpo); [congruence|].
      exfalso. by apply Hne, (H1 i k pc p).
    + rewrite Hf. split; intros (k&p&Hk&Hpo); exists k, p; (split; [|done]).
      * rewrite lookup_insert_ne; [done|]. intros <-. congruence.
      * apply lookup_insert_Some in Hk as [[-> ->]|[_ Hk]]; [congruence|done].
Qed.

(** What a step of thread [i] to [pc'] must keep; [g'] is [g] with other
    shared values and the same threads. *)
Lemma GInv_move g g' i pc pc' :
  GInv g -> threads g !! i = Some pc -> threads g' = threads g ->
  0 <= calls g' <= peak g' -> 0 < limit g' <= peak g' ->
  epoch_grants g' = calls g' + epoch_refunds g' -> 0 <= epoch_refunds g' ->
  total_calls g' = (granted g' - (wons (threads g) - won pc + won pc')) mod (U64_MAX + 1) ->
  (forall p, pc_ok g p -> pc_ok g' p) -> pc_ok g' pc' ->
  (owner pc' = true -> owner pc = true \/ resetting g = false) ->
  (resetting g' = if owner pc' then true else if owner pc then false else resetting g) ->
  (denied g' = true -> replenish_policy g' = true) ->
  GInv (at_pc g' i pc').
Proof.
  intros [Hc Hl Ha Hr Htot Hpc H1 Hf Hd] Hi Ht ? ? ? ? Htot' Hmono Hok Hown Hres Hd'.
  destruct (owner_move (threads g) (resetting g) (resetting g') i pc pc') as [H1' Hf']; try done.
  split; simpl; rewrite ?Ht; try done.
  - by rewrite (wons_move _ _ _ _ Hi).
  - intros k p [[<- <-]|[Hne Hk]]%lookup_insert_Some; [done|]. by eapply Hmono, Hpc.
Qed.

Lemma count_total_mod t w : wrapping_add U64_MAX ((t - w) mod (U64_MAX + 1)) 1 = (t - (w - 1)) mod (U64_MAX + 1).
Proof.
  unfold wrapping_add. rewrite Zplus_mod_idemp_l. f_equal. lia.
Qed.

Lemma tstep_GInv g i g' : GInv g -> tstep g i g' -> GInv g'.
Proof.
  intros HI Hs. pose proof (gi_flag g HI) as Hflag.
  assert (Hok : forall pc, threads g !! i = Some pc -> pc_ok g pc) by apply HI.
  assert (Hown : forall pc, threads g !! i = Some pc -> owner pc = true -> resetting g = true).
  { intros pc Hi Ho. apply Hflag. by exists i, pc. }
  pose proof (gi_calls g HI). pose proof (gi_limit g HI). pose proof (gi_account g HI).
  pose proof (gi_refunds g HI). pose proof (gi_total g HI). pose proof (gi_denied g HI).
  destruct Hs; try (destruct r); try (destruct a); try (destruct (replenish_policy g) eqn:?);
    try (match goal with Hp : _ \/ _ |- _ => destruct Hp as [->| ->] end);
    match goal with Hi : threads g !! i = Some ?pc |- _ =>
      specialize (Hok pc Hi); specialize (Hown pc Hi);
      eapply (GInv_move g _ i pc); [exact HI|exact Hi|reflexivity|..]
    end; unfold pc_ok in *; simpl in *;
    try (rewrite gi_total by done; rewrite ?count_total_mod; f_equal; lia);
    intuition (try done; try lia; try congruence).
Qed.

(** A new call holds nothing. *)
Lemma GInv_enter g i pc :
  GInv g -> threads g !! i = None -> owner pc = false -> won pc = 0 -> pc_ok g pc -> GInv (at_pc g i pc).
Proof.
  intros [Hc Hl Ha Hr Htot Hpc H1 Hf Hd] Hi Ho Hw Hok. split; simpl; try done.
  - rewrite wons_fresh by done. by rewrite Hw, Z.add_0_r.
  - intros k p [[<- <-]|[_ Hk]]%lookup_insert_Some; [done|by apply (Hpc k)].
  - intros i1 i2 p1 p2 [[<- <-]|[_ H1']]%lookup_insert_Some
      [[<- <-]|[_ H2']]%lookup_insert_Some Ho1 Ho2; try congruence. by apply (H1 i1 i2 p1 p2).
  - rewrite Hf. split; intros (k&p&Hk&Hp); exists k, p; (split; [|done]).
    + rewrite lookup_insert_ne; [done|]. intros <-. congruence.
    + apply lookup_insert_Some in Hk as [[_ <-]|[_ Hk]]; [congruence|done].
Qed.

(** A change of the shared values that every thread tolerates. *)
Lemma GInv_shared g g' :
  GInv g -> threads g' = threads g -> calls g' = calls g -> total_calls g' = total_calls g ->
  resetting g' = resetting g -> epoch_grants g' = epoch_grants g -> epoch_refunds g' = epoch_refunds g ->
  granted g' = granted g -> peak g <= peak g' -> 0 < limit g' <= peak g' ->
  (cancelled g = true -> cancelled g' = true) -> denied g' = denied g ->
  (replenish_policy g = true -> replenish_policy g' = true) -> GInv g'.
Proof.
  intros [Hc Hl Ha Hr Htot Hpc H1 Hf Hd] Ht Hc' Htot' Hrs Hgr Hrf Hg Hpk Hl' Hcn Hdn Hrp.
  split; rewrite ?Ht, ?Hc', ?Htot', ?Hrs, ?Hgr, ?Hrf, ?Hg, ?Hdn; try done; try lia; auto.
  intros i pc Hi. destruct (Hpc i pc Hi) as (H2&H3&H4). split_and!; [lia| |auto].
  intros [|]%H3; [auto|rewrite Hdn; auto].
Qed.

Lemma step_GInv g g' : GInv g -> step g g' -> GInv g'.
Proof.
  intros HI Hs. pose proof (gi_limit g HI). pose proof (gi_calls g HI). destruct Hs as [i g2 Ht|i Hi|i Hi|i Hi|l Hl| | |].
  1: by eapply tstep_GInv.
  1-3: apply GInv_enter; try done; split_and!; simpl; [lia|done..].
  all: apply (GInv_shared g); simpl; try done; lia.
Qed.

Lemma new_GInv l g : new l = Some g -> GInv g.
Proof.
  unfold new. destruct (Z.ltb_spec 0 l); [|done]. intros [= <-].
  split; simpl; try done; try lia; try set_solver.
Qed.

Lemma reachable_GInv l g0 g : new l = Some g0 -> rtc step g0 g -> GInv g.
Proof. intros Hn Hs. eapply (rtc_invariant _ _ step_GInv); [exact Hs|by eapply new_GInv]. Qed.

(** ** What a reading of the usage shows *)

(** Where the values of a reading come from. *)
Definition read_from (g : Gate) (i : nat) (pc : Pc) : Prop :=
  match pc with
  | UsageLoaded l => threads g !! i = Some UsageStart /\ l = limit g
  | Reported u => exists l, threads g !! i = Some (UsageLoaded l) /\ u = mkUsage (calls g) l
  | _ => True
  end.

Lemma step_reads g g' i pc :
  step g g' -> threads g' !! i = Some pc -> threads g !! i = Some pc \/ read_from g i pc.
Proof.
  intros Hs Hi. destruct Hs as [k g2 Hs|k Hk|k Hk|k Hk|l Hl| | |]; simpl in Hi; try (by left);
    [|apply lookup_insert_Some in Hi as [[<- <-]|[_ Hi]]; [by right|by left]..].
  destruct Hs; try (destruct r); simpl in Hi;
    apply lookup_insert_Some in Hi as [[<- <-]|[_ Hi]]; try (by left); right; try done.
  - by destruct (replenish_policy g).
  - by destruct a.
  - by eexists.
Qed.

(** The call of thread [i] read the limit in [g1], when it started, and the
    counter in [g2], later, both on the way from [g0] to [g]. *)
Definition read_during (g0 g : Gate) (i : nat) (u : EpochUsage) : Prop :=
  exists g1 g2, rtc step g0 g1 /\ rtc step g1 g2 /\ rtc step g2 g
    /\ threads g1 !! i = Some UsageStart /\ epoch_limit u = limit g1
    /\ threads g2 !! i = Some (UsageLoaded (limit g1)) /\ calls_made u = calls g2.

Lemma usage_in_force g0 g :
  threads g0 = ∅ -> rtc step g0 g ->
  (forall i l, threads g !! i = Some (UsageLoaded l) ->
     exists g1, rtc step g0 g1 /\ rtc step g1 g /\ threads g1 !! i = Some UsageStart /\ l = limit g1)
  /\ (forall i u, threads g !! i = Some (Reported u) -> read_during g0 g i u).
Proof.
  intros H0. revert g. apply rtc_ind_r.
  { rewrite H0. by split; intros i l; rewrite lookup_empty. }
  intros g g' Hr Hs [IHl IHu]. split.
  - intros i l Hi. destruct (step_reads _ _ _ _ Hs Hi) as [Hi'|[Hi' ->]].
    + destruct (IHl i l Hi') as (g1&?&?&?&?). exists g1. split_and!; try done. by eapply rtc_r.
    + exists g. split_and!; try done. by apply rtc_once.
  - intros i u Hi. destruct (step_reads _ _ _ _ Hs Hi) as [Hi'|(l&Hi'&->)].
    + destruct (IHu i u Hi') as (g1&g2&?&?&?&?&?&?&?). exists g1, g2. split_and!; try done. by eapply rtc_r.
    + destruct (IHl i l Hi') as (g1&?&?&?&->). exists g1, g. split_and!; try done. by apply rtc_once.
Qed.

(** ** Properties *)

(** C10: Safety of the budget gate under any interleaving of acquires, refunds,
    readings of the usage, limit changes, attachments and cancellation, with
    policies that answer anything or panic and callers that go away: the counter
    never exceeds the largest limit that was in force, the permits granted in an
    epoch are exactly those still counted plus those refunded, the total is the
    number of all permits less those about to be counted, at most one thread
    owns the epoch transition and the election flag is up exactly while one does,
    a caller is refused only if the token was cancelled or an attached policy
    gave no ceiling, and a reading of the usage shows values that were in force:
    the limit at one moment of the call and the counter at a later one. *)
Theorem budget_safe l g0 g :
  new l = Some g0 -> rtc step g0 g ->
  0 <= calls g <= peak g
  /\ epoch_grants g = calls g + epoch_refunds g
  /\ total_calls g = (granted g - wons (threads g)) mod (U64_MAX + 1)
  /\ (forall i1 i2 pc1 pc2, threads g !! i1 = Some pc1 -> threads g !! i2 = Some pc2 ->
       owner pc1 = true -> owner pc2 = true -> i1 = i2)
  /\ (resetting g = true <-> exists i pc, threads g !! i = Some pc /\ owner pc = true)
  /\ (forall i, threads g !! i = Some (Returned false) ->
       cancelled g = true \/ (replenish_policy g = true /\ denied g = true))
  /\ (forall i u, threads g !! i = Some (Reported u) ->
       read_during g0 g i u /\ 0 <= calls_made u <= peak g /\ 0 < epoch_limit u <= peak g).
Proof.
  intros Hn Hs. assert (HI : GInv g).
  { by eapply reachable_GInv. }
  destruct HI as [? ? ? ? ? Hpc H1 Hf Hd]. split_and!; try lia; try done.
  - intros i (_&Hrf&_)%Hpc. destruct (Hrf eq_refl); auto.
  - intros i u Hi. assert (H0 : threads g0 = ∅).
    { unfold new in Hn. destruct (0 <? l); [|done]. by injection Hn as <-. }
    destruct (usage_in_force g0 g H0 Hs) as [_ Hu]. pose proof (Hu i u Hi) as Hr.
    destruct Hr as (g1&g2&Hs1&Hs2&_&_&Hl&_&Hc). destruct (Hpc i _ Hi) as (Hp&_&_). simpl in Hp.
    pose proof (gi_limit g1 (reachable_GInv _ _ _ Hn Hs1)).
    pose proof (gi_calls g2 (reachable_GInv _ _ _ Hn (transitivity Hs1 Hs2))).
    split_and!; [by apply Hu|lia..].
Qed.

(** ** What a client of the gate relies on *)

(** The calls of [acquire] that were granted a permit. *)
Definition permit (pc : Pc) : bool := match pc with Won | Returned true => true | _ => false end.
Definition permits (m : gmap nat Pc) : nat := size (filter (fun e : nat * Pc => permit (snd e) = true) m).

Lemma permits_fresh m i pc :
  m !! i = None -> permits (<[i := pc]> m) = (permits m + if permit pc then 1 else 0)%nat.
Proof.
  intros Hi. unfold permits. rewrite map_filter_insert. simpl. destruct (permit pc); simpl.
  - rewrite map_size_insert_None; [lia|]. apply map_lookup_filter_None_2. by left.
  - rewrite delete_id by done. lia.
Qed.

Lemma permits_move m i pc pc' :
  m !! i = Some pc ->
  (permits (<[i := pc']> m) + (if permit pc then 1 else 0) = permits m + if permit pc' then 1 else 0)%nat.
Proof.
  intros Hi. rewrite <- insert_delete_eq, permits_fresh by apply lookup_delete_eq.
  rewrite <- (insert_delete_id m i pc Hi) at 2. rewrite permits_fresh by apply lookup_delete_eq. lia.
Qed.

(** Every permit that was granted is one call's. *)
Definition counted (g : Gate) : Prop := granted g = Z.of_nat (permits (threads g)).

Lemma tstep_counted g i g' : counted g -> tstep g i g' -> counted g'.
Proof.
  unfold counted. intros Hc Hs.
  destruct Hs; try (destruct r); try (destruct a); try (destruct (replenish_policy g));
    try (match goal with Hp : _ \/ _ |- _ => destruct Hp as [->| ->] end); simpl in *;
    match goal with Hi : threads g !! i = Some ?pc |- context [<[i := ?pc']> _] =>
      pose proof (permits_move (threads g) i pc pc' Hi) as Hm end; simpl in *; lia.
Qed.

Lemma step_counted g g' : counted g -> step g g' -> counted g'.
Proof.
  intros Hc [i g2 Ht|i Hi|i Hi|i Hi|l Hl| | |]; [by eapply tstep_counted| | | |exact Hc..];
    unfold counted; simpl; rewrite permits_fresh by done; simpl; by rewrite Hc, Nat.add_0_r.
Qed.

(** No call disappears, and one that has returned stays as it is. *)
Definition finished (pc : Pc) : bool :=
  match pc with Returned _ | Unwound | Refunded | Reported _ => true | _ => false end.

Lemma step_finished g g' t pc :
  step g g' -> threads g !! t = Some pc -> finished pc = true -> threads g' !! t = Some pc.
Proof.
  intros Hs Ht Hf. destruct Hs as [i g2 Hs|i Hi|i Hi|i Hi|l Hl| | |]; simpl; try done;
    try (rewrite lookup_insert_ne; [done|congruence]).
  destruct (decide (i = t)) as [->|Hne].
  - exfalso. destruct Hs; simplify_eq; try done. naive_solver.
  - destruct Hs; try (destruct r); simpl; by rewrite lookup_insert_ne.
Qed.

Lemma step_threads g g' t : step g g' -> is_Some (threads g !! t) -> is_Some (threads g' !! t).
Proof.
  intros Hs Ht. destruct Hs as [i g2 Hs|i Hi|i Hi|i Hi|l Hl| | |]; simpl; try done;
    try (by apply lookup_insert_is_Some'; right).
  destruct Hs; try (destruct r); simpl; by apply lookup_insert_is_Some'; right.
Qed.

(** Which call a thread is in. *)
Inductive GateCall := AcquireCall | RefundCall | UsageCall.
Definition call_of (pc : Pc) : GateCall :=
  match pc with
  | RefundStart | RefundLoaded _ | Refunded => RefundCall
  | UsageStart | UsageLoaded _ | Reported _ => UsageCall
  | _ => AcquireCall
  end.

Lemma step_call g g' t pc :
  step g g' -> threads g !! t = Some pc -> exists pc', threads g' !! t = Some pc' /\ call_of pc' = call_of pc.
Proof.
  intros Hs Ht. destruct Hs as [i g2 Hs|i Hi|i Hi|i Hi|l Hl| | |]; simpl; try (by exists pc);
    try (exists pc; split; [rewrite lookup_insert_ne; [done|congruence]|done]).
  destruct (decide (i = t)) as [->|Hne].
  - destruct Hs; simplify_eq; try (destruct r); simpl; rewrite lookup_insert_eq; eexists; (split; [done|]); simpl; try done.
    + by destruct (replenish_policy g).
    + by destruct H0 as [->| ->].
    + by destruct a.
  - exists pc. split; [|done]. destruct Hs; try (destruct r); simpl; by rewrite lookup_insert_ne.
Qed.

(** A call of the gate has ended, can go on (other than by being abandoned), or is
    parked and nobody has notified it since it registered. *)
Definition goes_on (g : Gate) (t : nat) (pc : Pc) : Prop :=
  exists g', tstep g t g' /\ (forall l n, pc = Parked l n -> threads g' !! t <> Some Unwound).

Lemma thread_goes_on g t pc :
  threads g !! t = Some pc ->
  finished pc = true
  \/ (exists l n, pc = Parked l n /\ (notifications g <= n)%nat /\ cancelled g = false)
  \/ goes_on g t pc.
Proof.
  intros Ht. assert (Hgo : forall g', tstep g t g' -> (forall l n, pc <> Parked l n) -> goes_on g t pc).
  { intros g' Hs Hn. exists g'. split; [done|]. intros l n ->. by destruct (Hn l n). }
  destruct pc as [|l|l c| |l|l| | | | | |a|a|l|l n|l n|b| | |c| | |l|u]; try (by left);
    try (by right; right; eapply Hgo; [first [by apply (s_answer _ _ Unavailable) | by econstructor]|]).
  - right; right. destruct (Z.lt_ge_cases c l); eapply Hgo; [by eapply s_cas_fail|done|by eapply s_at_limit|done].
  - right; right. destruct (resetting g) eqn:E; eapply Hgo; [by eapply s_not_elected|done|by eapply s_elected|done].
  - right; right.
    destruct (Z.lt_ge_cases (calls g) l); eapply Hgo; [by eapply s_recheck_free|done|by eapply s_recheck_full|done].
  - right; right.
    destruct (Z.lt_ge_cases (calls g) l); eapply Hgo; [by eapply s_enabled_free|done|by eapply s_park|done].
  - destruct (decide (n < notifications g)%nat) as [?|Hn].
    { right; right. eexists. split; [by eapply s_wake|]. simpl. by rewrite lookup_insert_eq. }
    destruct (cancelled g) eqn:E.
    { right; right. eexists. split; [by eapply s_wait_cancelled|]. simpl. by rewrite lookup_insert_eq. }
    right; left. exists l, n. split_and!; [done|lia|done].
  - right; right. destruct (decide (c = 0)) as [->|]; eapply Hgo; [by eapply s_refund_zero|done|by eapply s_refund_fail|done].
Qed.

(** Distinct calls that returned with a permit are at most the permits granted. *)
Lemma tickets_bound g (tickets : gset nat) :
  counted g -> (forall t, t ∈ tickets -> threads g !! t = Some (Returned true)) ->
  Z.of_nat (size tickets) <= granted g.
Proof.
  intros -> Ht. apply Nat2Z.inj_le. unfold permits. rewrite <- size_dom. apply subseteq_size.
  intros t Hin. apply elem_of_dom. exists (Returned true). by apply map_lookup_filter_Some_2; [apply Ht|].
Qed.

(** ** An executable scheduler

    [exec g i] is the step thread [i] takes when nothing interferes: an exchange
    succeeds when it can and the fixed sleep ends; a policy's answer is an action
    of its own. *)

Definition exec (g : Gate) (i : nat) : option Gate :=
  match threads g !! i with
  | Some Start => Some (at_pc g i (LimitLoaded (limit g)))
  | Some (LimitLoaded l) => Some (at_pc g i (CallsLoaded l (calls g)))
  | Some (CallsLoaded l c) =>
      if c <? l then
        if c =? calls g then Some (at_pc (grant g) i Won) else Some (at_pc g i Start)
      else Some (at_pc g i (Electing l))
  | Some Won => Some (at_pc (count_total g) i (Returned true))
  | Some (Electing l) =>
      if resetting g then Some (at_pc g i (Registering l))
      else Some (at_pc (with_resetting g true) i (Holding l))
  | Some (Holding l) =>
      if calls g <? l then Some (at_pc g i (Dropping Continue)) else Some (at_pc g i Pausing)
  | Some Pausing => Some (at_pc (announce g) i Choosing)
  | Some Choosing => Some (at_pc g i (if replenish_policy g then Asking else Sleeping))
  | Some Sleeping => Some (at_pc (reset g) i (Dropping Continue))
  | Some CeilingStored => Some (at_pc (reset g) i (Dropping Continue))
  | Some (Dropping a) => Some (at_pc (with_resetting g false) i (Notifying a))
  | Some (Notifying a) => Some (at_pc (notify g) i (after_pc a))
  | Some (Registering l) => Some (at_pc g i (Enabled l (notifications g)))
  | Some (Enabled l n) => if calls g <? l then Some (at_pc g i Start) else Some (at_pc g i (Parked l n))
  | Some (Parked l n) =>
      if bool_decide (n < notifications g)%nat then Some (at_pc g i Start)
      else if cancelled g then Some (at_pc g i (Returned false)) else None
  | _ => None
  end.

Lemma exec_sound g i g' : exec g i = Some g' -> tstep g i g'.
Proof.
  unfold exec. destruct (threads g !! i) as [pc|] eqn:Hi; [|done].
  destruct pc; try done; intros Hx;
    repeat match type of Hx with (if ?b then _ else _) = _ => destruct b eqn:? end;
    to_prop; simplify_eq; try solve [econstructor; eauto].
Qed.

(** Entering calls, attaching a policy, running threads and answering, in a
    given order. *)
Inductive Action :=
| Acquire (i : nat) | SetPolicy | Run (i : nat) | Answer (i : nat) (r : Replenished).

Definition act (g : Gate) (a : Action) : option Gate :=
  match a with
  | Acquire i => match threads g !! i with None => Some (at_pc g i Start) | Some _ => None end
  | SetPolicy => Some (set_replenish_policy g)
  | Run i => exec g i
  | Answer i r => match threads g !! i with Some Asking => Some (answered g i r) | _ => None end
  end.

Fixpoint run (g : Gate) (l : list Action) : option Gate :=
  match l with [] => Some g | a :: rest => g' ← act g a; run g' rest end.

Lemma act_sound g a g' : act g a = Some g' -> step g g'.
Proof.
  destruct a as [i| |i|i r]; simpl.
  - destruct (threads g !! i) eqn:Hi; [done|]. intros [= <-]. by apply do_acquire.
  - intros [= <-]. apply do_set_replenish_policy.
  - intros Hx. eapply do_thread, exec_sound, Hx.
  - destruct (threads g !! i) as [[]|] eqn:Hi; try done. intros [= <-]. by eapply do_thread, s_answer.
Qed.

Lemma run_sound g l g' : run g l = Some g' -> rtc step g g'.
Proof.
  revert g. induction l as [|a l IH]; intros g; simpl.
  { intros [= <-]. apply rtc_refl. }
  intros (g1&Ha%act_sound&Hr)%bind_Some. eapply rtc_l; [done|by apply IH].
Qed.

(** A limit of one call per epoch. *)
Definition one_call : Gate := mkGate 0 0 1 false 0 false 0 false false ∅ 0 0 0 1 false.

(** Thread 0 takes the only permit.  Thread 1 is elected for the transition and
    thread 2 loses the election; before thread 2 creates its future, thread 1
    reopens the epoch, notifies, and takes the only permit of the new epoch. *)
Definition lost_schedule : list Action :=
  [Acquire 0; Run 0; Run 0; Run 0; Run 0;
   Acquire 1; Run 1; Run 1; Run 1; Run 1;
   Acquire 2; Run 2; Run 2; Run 2; Run 2]%nat
  ++ repeat (Run 1) 10 ++ [Run 2; Run 2]%nat.

Definition lost_gate : Gate :=
  mkGate 1 2 1 false 1 false 0 false false
    {[0%nat := Returned true; 1%nat := Returned true; 2%nat := Parked 1 1]} 1 0 2 1 false.

Lemma lost_gate_reachable : run one_call lost_schedule = Some lost_gate.
Proof. vm_compute. reflexivity. Qed.

(** A waiter can be left behind: with nothing cancelled and no policy, the
    gate reaches a state in which a caller is parked on a notification that was
    sent before it registered, every other caller has returned with its permit,
    the epoch is exhausted and nobody owns its transition.  No thread can take a
    step, except that the parked caller gives up: it stays there until some new
    call of [acquire] happens to be elected. *)
Theorem budget_lost_wakeup :
  exists g, rtc step one_call g
    /\ threads g !! 2%nat = Some (Parked 1 1) /\ resetting g = false
    /\ cancelled g = false /\ replenish_policy g = false /\ limit g <= calls g
    /\ (forall i g', tstep g i g' -> g' = at_pc g 2%nat Unwound).
Proof.
  exists lost_gate. split; [apply (run_sound _ lost_schedule), lost_gate_reachable|].
  split_and!; try done.
  assert (Hth : forall i pc, threads lost_gate !! i = Some pc ->
                             pc = Returned true \/ i = 2%nat /\ pc = Parked 1 1).
  { intros i pc. simpl. rewrite !lookup_insert_Some, lookup_singleton_Some. naive_solver. }
  intros i g' Hs.
  destruct Hs; match goal with Hi : threads lost_gate !! i = Some _ |- _ =>
    destruct (Hth _ _ Hi) as [?|[-> ?]]; simplify_eq/= end; try done; try lia; naive_solver.
Qed.

(** The ceiling and the reset are two stores: thread 1 asks the policy, which
    answers 3; before it resets the counter, thread 2 takes a permit against the
    new limit.  The reset then forgets that permit: all three permits of the new
    epoch are still to be had. *)
Definition torn_schedule : list Action :=
  [SetPolicy; Acquire 0; Run 0; Run 0; Run 0; Run 0;
   Acquire 1; Run 1; Run 1; Run 1; Run 1; Run 1; Run 1; Run 1; Answer 1 (Ceiling 3);
   Acquire 2; Run 2; Run 2; Run 2; Run 2; Run 1]%nat.

Lemma torn_transition :
  exists g, run one_call torn_schedule = Some g /\ rtc step one_call g
    /\ threads g !! 2%nat = Some (Returned true) /\ limit g = 3 /\ calls g = 0 /\ granted g = 2.
Proof.
  destruct (run one_call torn_schedule) as [g|] eqn:Hr; [|by vm_compute in Hr].
  exists g. split; [done|]. split; [by eapply run_sound|]. revert Hr. vm_compute. intros [= <-]. done.
Qed.

Lemma budget_safe_witness :
  epoch_grants lost_gate = calls lost_gate + epoch_refunds lost_gate.
Proof.
  apply (budget_safe 1 one_call lost_gate).
  - reflexivity.
  - apply (run_sound _ lost_schedule), lost_gate_reachable.
Defined.
