(* ===== verification/WorkerPool.v ===== *)
(** * The worker pool (crate [cherry-pit-wq], [worker_pool.rs], [regulator.rs])

    A worker takes jobs from the queue, asks for admission, executes, settles
    and sends the outcome.  What the world answers to the [i]-th job of a worker
    (whether the budget is granted, whether the observer halts, whether a send
    succeeds) is given by functions of [i]; the gates themselves are the subject
    of [Budget] and [Pacing].  Both worker loops of the crate are modelled. *)

From S2P Require Import Prelude Core WorkQueue.
Local Open Scope Z_scope.

Inductive Admission := Admission_Admitted | Admission_Cancelled.
Inductive SettleOutcome := Charged | Free.

#[global] Instance Admission_eq_dec : EqDecision Admission.
Proof. solve_decision. Defined.
#[global] Instance SettleOutcome_eq_dec : EqDecision SettleOutcome.
Proof. solve_decision. Defined.

(** [Regulator]: its answers, and whether a [Free] settlement gives back a
    permit ([settle] is a no-op otherwise). *)
Record Regulator := mkRegulator {
  regulator_admit : nat -> Admission;
  refunds : bool;
}.

(** [BudgetRegulator] over the answers of [BudgetGate::acquire]. *)
Definition BudgetRegulator (acquire : nat -> bool) : Regulator :=
  mkRegulator (fun i => if acquire i then Admission_Admitted else Admission_Cancelled) true.

(** [RateLimitRegulator] over [should_halt] and the wait for the reset. *)
Definition RateLimitRegulator (should_halt waited : nat -> bool) : Regulator :=
  mkRegulator (fun i => if negb (should_halt i) then Admission_Admitted
                        else if waited i then Admission_Admitted else Admission_Cancelled) false.

(** [JobOutcome]. *)
Inductive JobOutcome (R : Type) :=
| Success (key : DomainKey) (result : R) (src : JobSource) (duration : Z) (corr : CorrelationContext)
| Failure (key : DomainKey) (error : string) (src : JobSource) (duration : Z) (corr : CorrelationContext).
Arguments Success {R}. Arguments Failure {R}.

(** What a call of the executor does.  [ExecPanic]: the call that makes the future
    panics, which [catch_unwind] catches; [ExecDies]: the future panics when it is
    polled, which nothing catches and which ends the worker's task. *)
Inductive Executed (R : Type) :=
| ExecOk (r : R) | ExecErr (error : string) | ExecPanic (panic : string) | ExecDies (panic : string).
Arguments ExecOk {R}. Arguments ExecErr {R}. Arguments ExecPanic {R}. Arguments ExecDies {R}.

Section Pool.
Context {C R : Type}.
Context (execute : DomainKey -> C -> Executed R) (charge_of : DomainKey -> R -> SettleOutcome).
Context (elapsed : nat -> Z) (send_ok : nat -> bool).

(** The outcome of the [i]-th job; [None] if the worker dies of it. *)
Definition outcome_of (i : nat) (j : JobSpec C) : option (JobOutcome R) :=
  match execute (domain_key j) (context j) with
  | ExecOk result => Some (Success (domain_key j) result (source j) (elapsed i) (correlation j))
  | ExecErr error => Some (Failure (domain_key j) error (source j) (elapsed i) (correlation j))
  | ExecPanic panic => Some (Failure (domain_key j) ("executor panicked: " +:+ panic) (source j)
                         (elapsed i) (correlation j))
  | ExecDies _ => None
  end.

Definition settle_outcome (o : JobOutcome R) : SettleOutcome :=
  match o with
  | Success key result _ _ _ => charge_of key result
  | Failure _ _ _ _ _ => Charged
  end.

(** What a worker does that others can see. *)
Inductive Event :=
| Admits (job regulator : nat)
| Executes (job : nat)
| Settles (job regulator : nat) (outcome : SettleOutcome)
| Sends (outcome : JobOutcome R).

Inductive Exit := QueueClosed | CancelledAt (job : nat) | ChannelClosedAt (job : nat) | PanickedAt (job : nat).

(** The admission loop over the regulators from number [k] on: those that
    admitted, and whether one was cancelled. *)
Fixpoint admit_all (i k : nat) (regulators : list Regulator) : list nat * bool :=
  match regulators with
  | [] => ([], false)
  | r :: rest =>
      match regulator_admit r i with
      | Admission_Admitted => let '(by_, cancelled) := admit_all i (S k) rest in (k :: by_, cancelled)
      | Admission_Cancelled => ([], true)
      end
  end.

(** [worker_loop_regulated] over the jobs the worker dequeues, the first of
    them its [i]-th. *)
Fixpoint worker_loop_regulated (regulators : list Regulator) (i : nat) (jobs : list (JobSpec C))
    : list Event * Exit :=
  match jobs with
  | [] => ([], QueueClosed)
  | j :: rest =>
      let '(admitted_by, cancelled) := admit_all i 0 regulators in
      let admits := map (Admits i) admitted_by in
      if cancelled then (admits, CancelledAt i)
      else
        match outcome_of i j with
        | None => (admits ++ [Executes i], PanickedAt i)
        | Some outcome =>
            let settles := map (fun k => Settles i k (settle_outcome outcome)) admitted_by in
            let done := admits ++ [Executes i] ++ settles in
            if send_ok i
            then let '(more, exit) := worker_loop_regulated regulators (S i) rest in
                 (done ++ [Sends outcome] ++ more, exit)
            else (done, ChannelClosedAt i)
        end
  end.

(** [worker_loop]: the fixed budget-then-rate-limit pair. *)
Fixpoint worker_loop (acquire should_halt waited : nat -> bool) (i : nat) (jobs : list (JobSpec C))
    : list Event * Exit :=
  match jobs with
  | [] => ([], QueueClosed)
  | j :: rest =>
      if negb (acquire i) then ([], CancelledAt i)
      else if should_halt i && negb (waited i) then ([], CancelledAt i)
      else
        match outcome_of i j with
        | None => ([Executes i], PanickedAt i)
        | Some outcome =>
            if send_ok i
            then let '(more, exit) := worker_loop acquire should_halt waited (S i) rest in
                 ([Executes i; Sends outcome] ++ more, exit)
            else ([Executes i], ChannelClosedAt i)
        end
  end.

(** [run_worker_pool] and [run_worker_pool_regulated] start [worker_count]
    loops; [None] where they panic. *)
Definition worker_count_default : nat := 16.

Definition run_worker_pool_regulated (worker_count : nat) (regulators : list Regulator)
    (jobs : nat -> list (JobSpec C)) : option (list (list Event * Exit)) :=
  if (worker_count =? 0)%nat then None
  else Some (map (fun w => worker_loop_regulated regulators 0 (jobs w)) (seq 0 worker_count)).

Definition run_worker_pool (worker_count : nat) (acquire should_halt waited : nat -> bool)
    (jobs : nat -> list (JobSpec C)) : option (list (list Event * Exit)) :=
  if (worker_count =? 0)%nat then None
  else Some (map (fun w => worker_loop acquire should_halt waited 0 (jobs w)) (seq 0 worker_count)).

(** ** Observations *)

Definition outcomes (es : list Event) : list (JobOutcome R) :=
  flat_map (fun e => match e with Sends o => [o] | _ => [] end) es.

(** Executions and outcomes, without the traffic with the regulators. *)
Definition visible (es : list Event) : list Event :=
  flat_map (fun e => match e with Sends _ | Executes _ => [e] | _ => [] end) es.

Definition admissions (i : nat) (es : list Event) : list nat :=
  flat_map (fun e => match e with Admits j k => if (j =? i)%nat then [k] else [] | _ => [] end) es.

Definition settlements (i : nat) (es : list Event) : list nat :=
  flat_map (fun e => match e with Settles j k _ => if (j =? i)%nat then [k] else [] | _ => [] end) es.

(** The outcomes of the jobs numbered from [i]. *)
Fixpoint outcomes_from (i : nat) (jobs : list (JobSpec C)) : list (JobOutcome R) :=
  match jobs with [] => [] | j :: rest => option_list (outcome_of i j) ++ outcomes_from (S i) rest end.

Lemma outcomes_app es1 es2 : outcomes (es1 ++ es2) = outcomes es1 ++ outcomes es2.
Proof. apply flat_map_app. Qed.

Lemma visible_app es1 es2 : visible (es1 ++ es2) = visible es1 ++ visible es2.
Proof. apply flat_map_app. Qed.

Lemma outcomes_quiet {A} (f : A -> Event) l :
  (forall x, outcomes [f x] = []) -> outcomes (map f l) = [].
Proof.
  intros Hf. induction l as [|x l IH]; [done|]. simpl in *. specialize (Hf x).
  destruct (f x); simpl in *; done.
Qed.

Lemma visible_quiet {A} (f : A -> Event) l :
  (forall x, visible [f x] = []) -> visible (map f l) = [].
Proof.
  intros Hf. induction l as [|x l IH]; [done|]. simpl in *. specialize (Hf x).
  destruct (f x); simpl in *; done.
Qed.

(** A worker sends exactly one outcome for every job it executed, in the
    order in which it took the jobs, each with the key, source and correlation
    of its job; when it stops at a job, cancelled, with the outcome channel
    closed or by a panic of the executor's future, the outcomes are those of the
    jobs before it and nothing else. *)
Theorem worker_outcomes_in_order regulators jobs es exit :
  worker_loop_regulated regulators 0 jobs = (es, exit) ->
  outcomes es = match exit with
                | QueueClosed => outcomes_from 0 jobs
                | CancelledAt i | ChannelClosedAt i | PanickedAt i => outcomes_from 0 (take i jobs)
                end
  /\ match exit with
     | QueueClosed => True
     | CancelledAt i | ChannelClosedAt i | PanickedAt i => (i < length jobs)%nat
     end.
Proof.
  cut (forall k es exit, worker_loop_regulated regulators k jobs = (es, exit) ->
    match exit with
    | QueueClosed => outcomes es = outcomes_from k jobs
    | CancelledAt i | ChannelClosedAt i | PanickedAt i =>
        (k <= i < k + length jobs)%nat /\ outcomes es = outcomes_from k (take (i - k) jobs)
    end).
  { intros H Hr. specialize (H 0%nat es exit Hr). destruct exit as [|i|i|i]; [done|..];
      rewrite Nat.sub_0_r in H; split; (apply H || (destruct H; lia)). }
  clear es exit. induction jobs as [|j jobs IH]; intros k es exit; simpl.
  { intros [= <- <-]. done. }
  destruct (admit_all k 0 regulators) as [by_ cancelled]. destruct cancelled.
  { intros [= <- <-]. split; [lia|]. rewrite Nat.sub_diag. simpl. by apply outcomes_quiet. }
  destruct (outcome_of k j) as [o|] eqn:Ho; cbn [option_list app].
  2:{ intros [= <- <-]. split; [lia|]. rewrite Nat.sub_diag, outcomes_app, outcomes_quiet by done. done. }
  assert (Hdone : forall tail, outcomes ((map (Admits k) by_ ++ [Executes k] ++
      map (fun r => Settles k r (settle_outcome o)) by_) ++ tail) = outcomes tail).
  { intros tail. rewrite !outcomes_app, !outcomes_quiet by done. done. }
  destruct (send_ok k).
  - destruct (worker_loop_regulated regulators (S k) jobs) as [more ex] eqn:Hl. intros [= <- <-].
    specialize (IH (S k) more ex Hl). rewrite Hdone. simpl. destruct ex as [|i|i|i]; [by rewrite IH|..];
      destruct IH as [? ->]; (split; [lia|]); replace (i - k)%nat with (S (i - S k)) by lia; simpl; by rewrite Ho.
  - intros [= <- <-]. split; [lia|]. rewrite Nat.sub_diag. simpl.
    rewrite <- (app_nil_r (map (Admits k) by_ ++ _)). by rewrite Hdone.
Qed.

(** The fixed worker loop is the regulated one with the chain budget, rate
    limit: same executions, same outcomes, same reason to stop, for every answer
    of the gates and of the executor. *)
Theorem worker_loop_equiv acquire should_halt waited jobs :
  let regulators := [BudgetRegulator acquire; RateLimitRegulator should_halt waited] in
  worker_loop acquire should_halt waited 0 jobs =
    (visible (fst (worker_loop_regulated regulators 0 jobs)),
     snd (worker_loop_regulated regulators 0 jobs)).
Proof.
  intros regulators. generalize 0%nat. induction jobs as [|j jobs IH]; intros k; [done|].
  cbn [worker_loop worker_loop_regulated]. unfold regulators at 1 3. cbn [admit_all].
  cbn [regulator_admit BudgetRegulator RateLimitRegulator]. fold regulators.
  destruct (acquire k); cbn [negb]; [|done].
  rewrite IH.
  destruct (worker_loop_regulated regulators (S k) jobs) as [more ex].
  destruct (should_halt k), (waited k), (outcome_of k j), (send_ok k); done.
Qed.

Lemma admissions_app i es1 es2 : admissions i (es1 ++ es2) = admissions i es1 ++ admissions i es2.
Proof. apply flat_map_app. Qed.

Lemma settlements_app i es1 es2 : settlements i (es1 ++ es2) = settlements i es1 ++ settlements i es2.
Proof. apply flat_map_app. Qed.

Lemma admissions_map i k l :
  admissions i (map (Admits k) l) = (if (k =? i)%nat then l else [])
  /\ settlements i (map (Admits k) l) = [].
Proof. induction l as [|r l IH]; simpl; [by destruct (k =? i)%nat|]. destruct (k =? i)%nat; naive_solver congruence. Qed.

Lemma settlements_map i k o l :
  settlements i (map (fun r => Settles k r o) l) = (if (k =? i)%nat then l else [])
  /\ admissions i (map (fun r => Settles k r o) l) = [].
Proof. induction l as [|r l IH]; simpl; [by destruct (k =? i)%nat|]. destruct (k =? i)%nat; naive_solver congruence. Qed.

(** The events of one job. *)
Lemma job_events i k o l :
  let es := map (Admits k) l ++ Executes k :: map (fun r => Settles k r o) l in
  admissions i es = (if (k =? i)%nat then l else [])
  /\ settlements i es = (if (k =? i)%nat then l else [])
  /\ (Executes i ∈ es <-> i = k).
Proof.
  cbv zeta. rewrite !admissions_app, !settlements_app. simpl.
  destruct (admissions_map i k l) as [-> ->], (settlements_map i k o l) as [-> ->].
  rewrite app_nil_r. split_and!; try done. rewrite elem_of_app, elem_of_cons. split.
  - intros [H|[H|H]]; [|by injection H|]; apply list_elem_of_fmap in H as (?&?&_); done.
  - intros ->. right. by left.
Qed.

Lemma admit_all_full i k regulators by_ :
  admit_all i k regulators = (by_, false) -> by_ = seq k (length regulators).
Proof.
  revert k by_. induction regulators as [|r rest IH]; intros k by_; simpl.
  { by intros [= <-]. }
  destruct (regulator_admit r i); [|done]. destruct (admit_all i (S k) rest) as [more c] eqn:Ha.
  intros [= <- ->]. f_equal. by apply IH.
Qed.

(** The job of which a worker died. *)
Definition died_of (exit : Exit) (i : nat) : bool :=
  match exit with PanickedAt j => (j =? i)%nat | _ => false end.

Lemma admits_only i k l : Executes i ∉ map (Admits k) l.
Proof. intros H. by apply list_elem_of_fmap in H as (?&?&_). Qed.

(** Settlement matches admission: a job that is executed was admitted by
    every regulator of the chain, in its order, and settles exactly those, each
    once, unless the worker dies of it; a job that is not executed settles
    nothing, so the regulators that had admitted a job before its admission was
    cancelled are never told. *)
Theorem settle_matches_admission regulators jobs es exit :
  worker_loop_regulated regulators 0 jobs = (es, exit) ->
  forall i,
    (Executes i ∈ es -> admissions i es = seq 0 (length regulators)
       /\ settlements i es = (if died_of exit i then [] else seq 0 (length regulators)))
    /\ (Executes i ∉ es -> settlements i es = []).
Proof.
  cut (forall k es exit, worker_loop_regulated regulators k jobs = (es, exit) -> forall i,
    ((i < k)%nat -> admissions i es = [] /\ settlements i es = [] /\ (Executes i ∉ es) /\ died_of exit i = false)
    /\ (Executes i ∈ es -> admissions i es = seq 0 (length regulators)
         /\ settlements i es = (if died_of exit i then [] else seq 0 (length regulators)))
    /\ (Executes i ∉ es -> settlements i es = [])).
  { intros H Hr i. by apply (H 0%nat es exit Hr i). }
  clear es exit. induction jobs as [|j jobs IH]; intros k es exit; simpl.
  { intros [= <- <-] i. simpl. set_solver. }
  destruct (admit_all k 0 regulators) as [by_ cancelled] eqn:Ha. destruct cancelled.
  { intros [= <- <-] i. destruct (admissions_map i k by_) as [-> ->]. pose proof (admits_only i k by_).
    destruct (Nat.eqb_spec k i); split_and!; try done; lia. }
  apply admit_all_full in Ha as ->. destruct (outcome_of k j) as [o|].
  2:{ intros [= <- <-] i. rewrite admissions_app, settlements_app, elem_of_app, list_elem_of_singleton. simpl.
      destruct (admissions_map i k (seq 0 (length regulators))) as [-> ->].
      pose proof (admits_only i k (seq 0 (length regulators))). rewrite app_nil_r.
      destruct (Nat.eqb_spec k i); split_and!; try done; try lia; naive_solver. }
  destruct (send_ok k).
  2:{ intros [= <- <-] i.
      destruct (job_events i k (settle_outcome o) (seq 0 (length regulators))) as (->&->&Hx).
      rewrite Hx. destruct (Nat.eqb_spec k i); split_and!; try done; lia. }
  destruct (worker_loop_regulated regulators (S k) jobs) as [more ex] eqn:Hl. intros [= <- <-] i.
  destruct (IH (S k) more ex Hl i) as (Hlt&Hex&Hnex).
  rewrite admissions_app, settlements_app, elem_of_app, elem_of_cons.
  destruct (job_events i k (settle_outcome o) (seq 0 (length regulators))) as (->&->&Hx).
  simpl. rewrite Hx. destruct (Nat.eqb_spec k i) as [->|Hne].
  - destruct (Hlt ltac:(lia)) as (->&->&_&->). rewrite app_nil_r. split_and!; [lia|done|naive_solver].
  - simpl. split_and!; [|naive_solver|naive_solver]. intros Hik. destruct (Hlt ltac:(lia)) as (->&->&?&?).
    split_and!; try done. naive_solver.
Qed.
End Pool.

(** ** Shutting down *)

(** A task that was spawned, by the moment at which it ends of itself; [None] if
    it never does.  What became of it, and when the shutdown returned. *)
Definition JoinHandle : Type := option Z.
Inductive Fate := Joined (at_ : Z) | Aborted.

(** [timeout] polls the tasks before its own timer; aborting a task that has
    ended does nothing. *)
Definition ended_by (timeout : Z) (h : JoinHandle) : bool :=
  match h with Some t => t <=? timeout | None => false end.
Definition fate (timeout : Z) (h : JoinHandle) : Fate :=
  match h with Some t => if t <=? timeout then Joined t else Aborted | None => Aborted end.

Definition shutdown_worker_pool (handles : list JoinHandle) (timeout : Z) : Z * list Fate :=
  if forallb (ended_by timeout) handles
  then (foldr (fun h latest => Z.max (default 0 h) latest) 0 handles,
        map (fun h => Joined (default 0 h)) handles)
  else (timeout, map (fate timeout) handles).

(** It returns within the timeout, no task is left running, and exactly the
    tasks that did not end in time are aborted. *)
Lemma shutdown_bounded handles timeout :
  0 <= timeout ->
  fst (shutdown_worker_pool handles timeout) <= timeout
  /\ snd (shutdown_worker_pool handles timeout) = map (fate timeout) handles.
Proof.
  intros Ht. unfold shutdown_worker_pool. destruct (forallb _ handles) eqn:Hf; simpl; [|by split; [lia|]].
  induction handles as [|[t|] handles IH]; simpl in *; [done| |done].
  apply andb_true_iff in Hf as [Hle Hf]. destruct (IH Hf) as [Hm Heq]. rewrite Hle, Heq. to_prop. split; [lia|done].
Qed.

(** *** Witnesses *)

Definition demo_execute (key : DomainKey) (_ : unit) : Executed Z :=
  if bool_decide (key = "bad") then ExecErr "no" else ExecOk 1.

Definition two_jobs : list (JobSpec unit) := [demo_job "a"; demo_job "bad"].

(** The budget refuses the second job. *)
Definition demo_chain : list Regulator :=
  [mkRegulator (fun _ => Admission_Admitted) false; BudgetRegulator (fun i => (i <? 1)%nat)].

Definition demo_events : list (Event (R := Z)) * Exit :=
  worker_loop_regulated demo_execute (fun _ _ => Free) (fun _ => 0) (fun _ => true) demo_chain 0 two_jobs.

Lemma worker_outcomes_in_order_witness :
  snd demo_events = CancelledAt 1
  /\ outcomes (fst demo_events) = [Success "a" 1 InitialLoad 0 Correlation.none].
Proof.
  split; [reflexivity|].
  exact (proj1 (worker_outcomes_in_order demo_execute (fun _ _ => Free) (fun _ => 0) (fun _ => true)
                  demo_chain two_jobs (fst demo_events) (snd demo_events) eq_refl)).
Defined.

Lemma settle_matches_admission_witness :
  settlements 0 (fst demo_events) = [0; 1]%nat /\ settlements 1 (fst demo_events) = [].
Proof.
  pose proof (settle_matches_admission demo_execute (fun _ _ => Free) (fun _ => 0) (fun _ => true)
                demo_chain two_jobs (fst demo_events) (snd demo_events) eq_refl) as H.
  split.
  - apply (H 0%nat). vm_compute. set_solver.
  - apply (H 1%nat). vm_compute. set_solver.
Defined.
