(* ===== verification/Pipeline.v ===== *)
(** * The pool at work (crate [cherry-pit-wq], the parts together)

    Producers, the work queue of [WorkQueue], the workers of [worker_pool.rs], the
    gate of [Budget], the halt of the rate-limit observer and the channel of the
    outcomes, as one system whose steps interleave.  The queue and the gate take
    the steps of their own files; a worker goes through the loop of [worker_loop]
    (or of [worker_loop_regulated] with the chain budget, rate limit, which
    settles before it sends), waiting for the gate where the source awaits it. *)

From S2P Require Import Prelude Core WorkQueue Budget WorkerPool.
From stdpp Require Import list_tactics.
Local Open Scope Z_scope.

(** ** Gathering what the workers hold *)

Section Gather.
Context {W A : Type} (f : W -> list A).

Definition gather (m : gmap nat W) : list A := flat_map (fun e : nat * W => f (snd e)) (map_to_list m).

Lemma gather_fresh m i w : m !! i = None -> gather (<[i := w]> m) ≡ₚ f w ++ gather m.
Proof. intros Hi. unfold gather. by rewrite map_to_list_insert. Qed.

Lemma gather_split m i w : m !! i = Some w -> gather m ≡ₚ f w ++ gather (delete i m).
Proof. intros Hi. rewrite <- gather_fresh by apply lookup_delete_eq. by rewrite insert_delete_id. Qed.

Lemma gather_move m i w w' :
  m !! i = Some w -> exists rest, gather m ≡ₚ f w ++ rest /\ gather (<[i := w']> m) ≡ₚ f w' ++ rest.
Proof.
  intros Hi. exists (gather (delete i m)). split; [by apply gather_split|].
  rewrite <- insert_delete_eq. apply gather_fresh, lookup_delete_eq.
Qed.

Lemma gather_nil m : (forall i w, m !! i = Some w -> f w = []) -> gather m = [].
Proof.
  intros Hm. unfold gather. apply Permutation_nil_r.
  assert (Hall : forall i w, (i, w) ∈ map_to_list m -> f w = []) by (intros i w Hin; by eapply Hm, elem_of_map_to_list).
  induction (map_to_list m) as [|[i w] l IH]; simpl; [done|].
  rewrite (Hall i w) by (left). apply IH. intros i' w' Hin. apply (Hall i'). by right.
Qed.
End Gather.

(** ** Workers *)

Section Pipeline.
Context {C R : Type}.

(** How a worker ended, with the job it had in hand. *)
Inductive Ending :=
| Closed                                   (* the queue is closed and drained *)
| Refused (j : JobSpec C)                  (* [acquire] returned false *)
| GateUnwound (j : JobSpec C)              (* the policy panicked inside [acquire] *)
| HaltCancelled (j : JobSpec C)            (* cancelled while the observer halted *)
| Died (j : JobSpec C)                     (* the executor's future panicked *)
| Unsent (j : JobSpec C) (o : JobOutcome R). (* the outcome channel is closed *)

Inductive Worker :=
| Idle                                     (* loop head *)
| Dequeuing (j : JobSpec C) (call : nat)   (* the job is received, its key not yet removed *)
| Acquiring (j : JobSpec C) (ticket : nat) (* in [acquire], as the gate's thread [ticket] *)
| Permitted (j : JobSpec C) (ticket : nat)  (* before [should_halt] *)
| Halted (j : JobSpec C) (ticket : nat)    (* in [wait_for_rate_limit_reset] *)
| Executing (j : JobSpec C)
| Settling (j : JobSpec C) (o : JobOutcome R) (call : nat) (* in [refund] *)
| Sending (j : JobSpec C) (o : JobOutcome R)
| Exited (e : Ending).

(** [halted] is what [should_halt] answers; [outbox] the channel of the outcomes.
    [delivered], [started] and [reported] are not state of the source: the outcomes
    the receiver has taken, the jobs whose execution began, and the jobs with the
    outcomes that were sent; [tickets] the calls of [acquire] whose permit was
    used. *)
Record System := mkSystem {
  line : Threads (C := C);
  gate : Gate;
  halted : bool;
  workers : gmap nat Worker;
  outbox : list (JobOutcome R);
  outbox_open : bool;
  delivered : list (JobOutcome R);
  started : list (JobSpec C);
  reported : list (JobSpec C * JobOutcome R);
  tickets : gset nat;
}.

Definition set_worker (s : System) (w : nat) (x : Worker) : System :=
  mkSystem (line s) (gate s) (halted s) (<[w := x]> (workers s)) (outbox s) (outbox_open s)
    (delivered s) (started s) (reported s) (tickets s).
Definition set_line (s : System) (q : Threads) : System :=
  mkSystem q (gate s) (halted s) (workers s) (outbox s) (outbox_open s)
    (delivered s) (started s) (reported s) (tickets s).
Definition set_gate (s : System) (g : Gate) : System :=
  mkSystem (line s) g (halted s) (workers s) (outbox s) (outbox_open s)
    (delivered s) (started s) (reported s) (tickets s).
Definition set_halted (s : System) (b : bool) : System :=
  mkSystem (line s) (gate s) b (workers s) (outbox s) (outbox_open s)
    (delivered s) (started s) (reported s) (tickets s).
Definition begin (s : System) (j : JobSpec C) (t : nat) : System :=
  mkSystem (line s) (gate s) (halted s) (workers s) (outbox s) (outbox_open s)
    (delivered s) (started s ++ [j]) (reported s) ({[t]} ∪ tickets s).
Definition post (s : System) (j : JobSpec C) (o : JobOutcome R) : System :=
  mkSystem (line s) (gate s) (halted s) (workers s) (outbox s ++ [o]) (outbox_open s)
    (delivered s) (started s) (reported s ++ [(j, o)]) (tickets s).

(** What the executor may do with a job, how its results are charged, the
    capacity of the outcome channel, and which of the two loops runs. *)
Context (executes : JobSpec C -> Executed R -> Prop) (charge_of : DomainKey -> R -> SettleOutcome).
Context (outbox_capacity : Z) (regulated : bool).

(** The outcome of a job for what the executor did in [elapsed]. *)
Definition outcome (j : JobSpec C) (e : Executed R) (elapsed : Z) : option (JobOutcome R) :=
  outcome_of (fun _ _ => e) (fun _ => elapsed) 0 j.

(** The regulated loop tells the gate about a result that cost nothing. *)
Definition refunds_permit (o : JobOutcome R) : bool :=
  regulated && bool_decide (settle_outcome charge_of o = Free).

Inductive wstep (s : System) (w : nat) : System -> Prop :=
| w_receive i j rest :
    workers s !! w = Some Idle ->
    WorkQueue.calls (line s) !! i = None -> receiver_lock (line s) = None ->
    channel (queue (line s)) = j :: rest ->
    wstep s w (set_worker (set_line s
      (mkThreads (mkQueue (capacity (queue (line s))) rest (sender_open (queue (line s))) (pending (queue (line s))))
         (<[i := DReceived j]> (WorkQueue.calls (line s))) (sender_lock (line s)) (Some i) (sent (line s))
         (received (line s) ++ [j]) (results (line s)))) w (Dequeuing j i))
| w_closed :
    workers s !! w = Some Idle -> receiver_lock (line s) = None ->
    channel (queue (line s)) = [] -> sender_open (queue (line s)) = false ->
    wstep s w (set_worker s w (Exited Closed))
| w_acquire i j t :
    workers s !! w = Some (Dequeuing j i) ->
    WorkQueue.calls (line s) !! i = Some (DReceived j) -> receiver_lock (line s) = Some i ->
    Budget.threads (gate s) !! t = None ->
    wstep s w (set_worker (set_gate (set_line s
      (mkThreads (remove_pending (queue (line s)) (domain_key j)) (delete i (WorkQueue.calls (line s)))
         (sender_lock (line s)) None (sent (line s)) (received (line s)) (results (line s))))
      (at_pc (gate s) t Start)) w (Acquiring j t))
| w_granted j t :
    workers s !! w = Some (Acquiring j t) -> Budget.threads (gate s) !! t = Some (Returned true) ->
    wstep s w (set_worker s w (Permitted j t))
| w_refused j t :
    workers s !! w = Some (Acquiring j t) -> Budget.threads (gate s) !! t = Some (Returned false) ->
    wstep s w (set_worker s w (Exited (Refused j)))
| w_unwound j t :
    workers s !! w = Some (Acquiring j t) -> Budget.threads (gate s) !! t = Some Unwound ->
    wstep s w (set_worker s w (Exited (GateUnwound j)))
| w_begin j t :
    workers s !! w = Some (Permitted j t) \/ workers s !! w = Some (Halted j t) -> halted s = false ->
    wstep s w (set_worker (begin s j t) w (Executing j))
| w_halt j t :
    workers s !! w = Some (Permitted j t) -> halted s = true ->
    wstep s w (set_worker s w (Halted j t))
| w_halt_cancelled j t :
    workers s !! w = Some (Halted j t) -> Budget.cancelled (gate s) = true ->
    wstep s w (set_worker s w (Exited (HaltCancelled j)))
| w_executed j e d o :
    workers s !! w = Some (Executing j) -> executes j e -> outcome j e d = Some o ->
    refunds_permit o = false ->
    wstep s w (set_worker s w (Sending j o))
| w_refund j e d o t :
    workers s !! w = Some (Executing j) -> executes j e -> outcome j e d = Some o ->
    refunds_permit o = true -> Budget.threads (gate s) !! t = None ->
    wstep s w (set_worker (set_gate s (at_pc (gate s) t RefundStart)) w (Settling j o t))
| w_died j e d :
    workers s !! w = Some (Executing j) -> executes j e -> outcome j e d = None ->
    wstep s w (set_worker s w (Exited (Died j)))
| w_settled j o t :
    workers s !! w = Some (Settling j o t) -> Budget.threads (gate s) !! t = Some Refunded ->
    wstep s w (set_worker s w (Sending j o))
| w_send j o :
    workers s !! w = Some (Sending j o) -> outbox_open s = true ->
    Z.of_nat (length (outbox s)) < outbox_capacity ->
    wstep s w (set_worker (post s j o) w Idle)
| w_unsent j o :
    workers s !! w = Some (Sending j o) -> outbox_open s = false ->
    wstep s w (set_worker s w (Exited (Unsent j o))).

(** The other steps: producers and [close] on the queue (the workers are its only
    consumers), the gate with all its callers, the observer, and the receiver of
    the outcomes. *)
Inductive sys_step (s : System) : System -> Prop :=
| sys_worker w s' : wstep s w s' -> sys_step s s'
| sys_line q : WorkQueue.step (line s) q -> receiver_lock q = receiver_lock (line s) -> sys_step s (set_line s q)
| sys_gate g : Budget.step (gate s) g -> sys_step s (set_gate s g)
| sys_observe b : sys_step s (set_halted s b)
| sys_take o rest :
    outbox s = o :: rest ->
    sys_step s (mkSystem (line s) (gate s) (halted s) (workers s) rest (outbox_open s)
                  (delivered s ++ [o]) (started s) (reported s) (tickets s))
| sys_hangup :
    sys_step s (mkSystem (line s) (gate s) (halted s) (workers s) (outbox s) false
                  (delivered s) (started s) (reported s) (tickets s)).

(** [run_worker_pool] on a new queue and a new gate; [None] where it panics. *)
Definition start (worker_count : nat) (queue_capacity epoch_limit : Z) : option System :=
  if (worker_count =? 0)%nat then None
  else
    q ← WorkQueue.new queue_capacity;
    g ← Budget.new epoch_limit;
    Some (mkSystem (threads_init q) g false (gset_to_gmap Idle (set_seq 0 worker_count)) [] true [] [] [] ∅).

(** ** Invariant *)

(** The job a worker holds, before and after its execution began. *)
Definition before (x : Worker) : list (JobSpec C) :=
  match x with
  | Dequeuing j _ | Acquiring j _ | Permitted j _ | Halted j _
  | Exited (Refused j) | Exited (GateUnwound j) | Exited (HaltCancelled j) => [j]
  | _ => []
  end.
Definition after (x : Worker) : list (JobSpec C) :=
  match x with
  | Executing j | Settling j _ _ | Sending j _ | Exited (Died j) | Exited (Unsent j _) => [j]
  | _ => []
  end.

(** The call of [acquire] whose permit the worker waits for or holds unused. *)
Definition ticket (x : Worker) : option nat :=
  match x with Acquiring _ t | Permitted _ t | Halted _ t => Some t | _ => None end.
Definition admitted (x : Worker) : bool :=
  match x with Permitted _ _ | Halted _ _ => true | _ => false end.

(** The outcome is one that the execution of the job can have. *)
Definition produced (j : JobSpec C) (o : JobOutcome R) : Prop :=
  exists e d, executes j e /\ outcome j e d = Some o.
Definition holds_outcome (x : Worker) : Prop :=
  match x with Settling j o _ | Sending j o | Exited (Unsent j o) => produced j o | _ => True end.

Definition drained (q : Threads (C := C)) : Prop := channel (queue q) = [] /\ sender_open (queue q) = false.

Record SInv (s : System) : Prop := {
  si_line : TInv (line s);
  si_gate : GInv (gate s);
  si_counted : counted (gate s);
  si_received : received (line s) ≡ₚ gather before (workers s) ++ started s;
  si_started : started s ≡ₚ gather after (workers s) ++ map fst (reported s);
  si_outcomes : delivered s ++ outbox s = map snd (reported s);
  si_produced : Forall (fun jo => produced (fst jo) (snd jo)) (reported s);
  si_holds w x : workers s !! w = Some x -> holds_outcome x;
  si_used t : t ∈ tickets s -> Budget.threads (gate s) !! t = Some (Returned true);
  si_size : size (tickets s) = length (started s);
  si_ticket w x t : workers s !! w = Some x -> ticket x = Some t ->
    (t ∉ tickets s) /\ is_Some (Budget.threads (gate s) !! t)
    /\ (admitted x = true -> Budget.threads (gate s) !! t = Some (Returned true));
  si_apart w1 w2 x1 x2 t : workers s !! w1 = Some x1 -> workers s !! w2 = Some x2 ->
    ticket x1 = Some t -> ticket x2 = Some t -> w1 = w2;
  si_closed w : workers s !! w = Some (Exited Closed) -> drained (line s);
}.

(** What may happen to the gate while a worker looks elsewhere. *)
Definition gate_grows (g g' : Gate) : Prop :=
  (forall t pc, Budget.threads g !! t = Some pc -> finished pc = true -> Budget.threads g' !! t = Some pc)
  /\ (forall t, is_Some (Budget.threads g !! t) -> is_Some (Budget.threads g' !! t)).

Lemma gate_step_grows g g' : Budget.step g g' -> gate_grows g g'.
Proof. intros Hs. split; [intros t pc; by apply step_finished|intros t; by apply step_threads]. Qed.

Lemma gate_grows_refl g : gate_grows g g.
Proof. by split. Qed.

Lemma line_step_received q q' :
  WorkQueue.step q q' -> receiver_lock q' = receiver_lock q -> received q' = received (C := C) q.
Proof. intros Hs Hl. destruct Hs; simpl in *; congruence. Qed.

Lemma line_step_drained q q' : WorkQueue.step q q' -> drained q -> drained q'.
Proof.
  unfold drained. intros Hs [Hc Ho]. destruct Hs; simpl in *; try done; try congruence.
  - unfold insert_pending in *. case_bool_decide; simplify_eq/=; done.
  - unfold try_send in *. rewrite Ho in *. simpl in *. done.
Qed.

(** Worker [w] moves from [x] to [y], and the rest of the system from [s] to [s1]. *)
Record moves (s s1 : System) (x y : Worker) : Prop := {
  mv_workers : workers s1 = workers s;
  mv_line : TInv (line s1);
  mv_gate : GInv (gate s1);
  mv_counted : counted (gate s1);
  mv_grows : gate_grows (gate s) (gate s1);
  mv_received rest : received (line s) ≡ₚ (before x ++ rest) ++ started s ->
    received (line s1) ≡ₚ (before y ++ rest) ++ started s1;
  mv_started rest : started s ≡ₚ (after x ++ rest) ++ map fst (reported s) ->
    started s1 ≡ₚ (after y ++ rest) ++ map fst (reported s1);
  mv_outcomes : delivered s ++ outbox s = map snd (reported s) ->
    delivered s1 ++ outbox s1 = map snd (reported s1);
  mv_produced : holds_outcome x -> Forall (fun jo => produced (fst jo) (snd jo)) (reported s) ->
    Forall (fun jo => produced (fst jo) (snd jo)) (reported s1);
  mv_holds : holds_outcome x -> holds_outcome y;
  mv_tickets t : t ∈ tickets s1 ->
    t ∈ tickets s \/ (ticket x = Some t /\ admitted x = true /\ ticket y = None);
  mv_size : (forall t, ticket x = Some t -> t ∉ tickets s) -> size (tickets s) = length (started s) ->
    size (tickets s1) = length (started s1);
  mv_ticket t : ticket y = Some t ->
    (ticket x = Some t \/ (Budget.threads (gate s) !! t = None /\ is_Some (Budget.threads (gate s1) !! t)))
    /\ (admitted y = true -> Budget.threads (gate s1) !! t = Some (Returned true));
  mv_drained : drained (line s) -> drained (line s1);
  mv_closed : y = Exited Closed -> drained (line s1);
}.

Lemma SInv_move s s1 w x y :
  SInv s -> workers s !! w = Some x -> moves s s1 x y -> SInv (set_worker s1 w y).
Proof.
  intros HI Hx [Hw Hl Hg Hco [Hfin Hthr] Hrec Hst Hout Hpro Hho Htk Hsz Hty Hdr Hcl].
  destruct HI as [_ _ _ Irec Ist Iout Ipro Iho Iu Isz Itk Iap Icl].
  assert (Hused : forall t, t ∈ tickets s1 -> Budget.threads (gate s1) !! t = Some (Returned true)).
  { intros t [Ht|(Ht&Ha&_)]%Htk; eapply Hfin; try done; [by apply Iu|]. by apply (Itk w x t Hx Ht). }
  assert (Hother : forall w' x' t, w' <> w -> workers s !! w' = Some x' -> ticket x' = Some t -> t ∉ tickets s1).
  { intros w' x' t Hne Hx' Ht' [Ht|(Ht&_)]%Htk; [by eapply (Itk w' x')|]. by apply Hne, (Iap w' w x' x t). }
  assert (Hfresh : forall w' x' t, w' <> w -> workers s !! w' = Some x' -> ticket x' = Some t -> ticket y <> Some t).
  { intros w' x' t Hne Hx' Ht' [[Ht|[Ht _]] _]%Hty; [by apply Hne, (Iap w' w x' x t)|].
    destruct (Itk w' x' t Hx' Ht') as (_&[pc Hpc]&_). congruence. }
  split; simpl; rewrite ?Hw; try done; auto.
  - destruct (gather_move before (workers s) w x y Hx) as (rest&H1&->). apply Hrec. by rewrite <- H1.
  - destruct (gather_move after (workers s) w x y Hx) as (rest&H1&->). apply Hst. by rewrite <- H1.
  - eapply Hpro; [|done]. by eapply Iho.
  - intros w' x' [[<- <-]|[_ Hx']]%lookup_insert_Some; [by eapply Hho, Iho|by eapply Iho].
  - apply Hsz; [|done]. intros t Ht. by apply (Itk w x t).
  - intros w' x' t [[<- <-]|[Hne Hx']]%lookup_insert_Some Ht.
    + destruct (Hty t Ht) as [Hold Hadm]. split_and!; [| |done].
      * intros [Hin|(_&_&Hn)]%Htk; [|congruence]. destruct Hold as [Hold|[Hold _]]; [by eapply (Itk w x)|].
        apply Iu in Hin. congruence.
      * destruct Hold as [Hold|[_ Hold]]; [|done]. apply Hthr. by apply (Itk w x t).
    + destruct (Itk w' x' t Hx' Ht) as (_&Hs&Ha). split_and!; [by eapply (Hother w' x')|by apply Hthr|].
      intros Ha'. by eapply Hfin; [apply Ha|].
  - intros w1 w2 x1 x2 t [[<- <-]|[Hn1 H1]]%lookup_insert_Some [[<- <-]|[Hn2 H2]]%lookup_insert_Some Ht1 Ht2; try done.
    + by destruct (Hfresh w2 x2 t).
    + by destruct (Hfresh w1 x1 t).
    + by eapply (Iap w1 w2 x1 x2 t).
  - intros w' [[<- Hy]|[_ Hx']]%lookup_insert_Some; [by apply Hcl|]. by eapply Hdr, Icl.
Qed.

(** The steps that a worker makes the queue and the gate take. *)
Ltac line_step := first [by eapply step_TInv; [|by eapply deq_receive] | by eapply step_TInv; [|by eapply deq_remove]
                        |by eapply line_step_drained; eapply deq_receive | by eapply line_step_drained; eapply deq_remove].
Ltac gate_step := first [by eapply step_GInv; [|by apply do_acquire] | by eapply step_GInv; [|by apply do_refund]
                        |by eapply step_counted; [|by apply do_acquire] | by eapply step_counted; [|by apply do_refund]
                        |by apply gate_step_grows, do_acquire | by apply gate_step_grows, do_refund].

Ltac solve_moves :=
  try done; try (by auto);
  try (intros ? Hperm; rewrite ?map_app; simpl; rewrite Hperm; solve_Permutation);
  try (by intros ? [= <-]; auto);
  try (by intros ? ?; left);
  try line_step; try gate_step.

(** A permit is used once. *)
Lemma ticket_used s t j (f : nat -> Prop) :
  f t -> (forall t0, t0 ∈ tickets (begin s j t) -> t0 ∈ tickets s \/ f t0)
  /\ ((t ∉ tickets s) -> size (tickets s) = length (started s) ->
      size (tickets (begin s j t)) = length (started (begin s j t))).
Proof.
  intros Hf. simpl. split.
  - intros t0 [->%elem_of_singleton|?]%elem_of_union; auto.
  - intros Ht Hs. rewrite size_union, size_singleton by set_solver. rewrite length_app. simpl. lia.
Qed.

Lemma wstep_SInv s w s' : SInv s -> wstep s w s' -> SInv s'.
Proof.
  intros HI Hs. pose proof (si_line _ HI) as Hl. pose proof (si_gate _ HI) as Hg.
  pose proof (si_counted _ HI) as Hc. pose proof (gate_grows_refl (gate s)) as Hgr.
  destruct Hs as [i j rest Hw ? ? ?|Hw ? ? ?|i j t Hw Hi Hr Ht|j t Hw Ht|j t Hw Ht|j t Hw Ht|j t Hw ?|j t Hw ?
                 |j t Hw ?|j e d o Hw He Ho Hf|j e d o t Hw He Ho Hf Ht|j e d Hw He Ho|j o t Hw Ht|j o Hw Hop Hn|j o Hw Hop].
  7: destruct Hw as [Hw|Hw].
  all: eapply SInv_move; [exact HI|exact Hw|]; split; simpl; solve_moves.
  - intros t0 [= <-]. split; [right; split; [done|]|done]. by rewrite lookup_insert_eq.
  - apply (ticket_used s t j (fun t0 => Some t = Some t0 /\ true = true /\ None = None)). done.
  - intros Hn. apply (ticket_used s t j (fun _ => True)); [done|by apply Hn].
  - apply (ticket_used s t j (fun t0 => Some t = Some t0 /\ true = true /\ None = None)). done.
  - intros Hn. apply (ticket_used s t j (fun _ => True)); [done|by apply Hn].
  - intros t0 [= <-]. split; [by left|]. intros _. by apply (si_ticket _ HI w _ t Hw).
  - intros _. by exists e, d.
  - intros _. by exists e, d.
  - intros Hout. by rewrite map_app, <- Hout, app_assoc.
  - intros Hp Hall. apply Forall_app. split; [done|]. by apply Forall_singleton.
Qed.

Lemma sys_step_SInv s s' : SInv s -> sys_step s s' -> SInv s'.
Proof.
  intros HI [w s1 Hs|q Hs Hlock|g Hs|b|o rest Ho|]; [by eapply wstep_SInv|..]; destruct HI.
  - split; simpl; try done.
    + by eapply step_TInv.
    + by rewrite (line_step_received _ _ Hs Hlock).
    + intros w Hw. by eapply line_step_drained, si_closed0.
  - destruct (gate_step_grows _ _ Hs) as [Hfin Hthr]. split; simpl; try done.
    + by eapply step_GInv.
    + by eapply step_counted.
    + intros t Ht. by eapply Hfin; [apply si_used0|].
    + intros w x t Hw Ht. destruct (si_ticket0 w x t Hw Ht) as (?&?&Ha). split_and!; [done|by apply Hthr|].
      intros Hx. by eapply Hfin; [apply Ha|].
  - by split.
  - split; simpl; try done. rewrite <- app_assoc. simpl. by rewrite <- Ho.
  - by split.
Qed.

Lemma idle_workers n w x : (gset_to_gmap Idle (set_seq 0 n) : gmap nat Worker) !! w = Some x -> x = Idle.
Proof. by intros [_ <-]%lookup_gset_to_gmap_Some. Qed.

Lemma start_SInv n qc el s : start n qc el = Some s -> SInv s.
Proof.
  unfold start. destruct (n =? 0)%nat; [done|]. destruct (WorkQueue.new qc) as [q|] eqn:Hq; [|done].
  destruct (Budget.new el) as [g|] eqn:Hg; [|done]. simpl. intros [= <-].
  assert (Hnil : forall f : Worker -> list (JobSpec C), f Idle = [] -> gather f (gset_to_gmap Idle (set_seq 0 n)) = []).
  { intros f Hf. apply gather_nil. by intros i w ->%idle_workers. }
  assert (Hidle : forall w x, gset_to_gmap Idle (set_seq 0 n) !! w = Some x -> x = Idle) by apply idle_workers.
  split; simpl; rewrite ?Hnil by done; try done; try set_solver.
  - by eapply threads_init_inv.
  - by eapply new_GInv.
  - unfold Budget.new in Hg. destruct (0 <? el); [|done]. by injection Hg as <-.
Qed.

Lemma workers_stay w s s' : is_Some (workers s !! w) -> sys_step s s' -> is_Some (workers s' !! w).
Proof.
  intros Hw Hs. destruct Hs as [w' s' Hs| | | | |]; try done.
  destruct Hs; simpl; by apply lookup_insert_is_Some'; right.
Qed.

Lemma first_worker n qc el s0 s : start n qc el = Some s0 -> rtc sys_step s0 s -> is_Some (workers s !! 0%nat).
Proof.
  intros Hs0 Hs. eapply (rtc_invariant _ _ (workers_stay 0)); [exact Hs|]. revert Hs0.
  unfold start. destruct (Nat.eqb_spec n 0) as [|Hn]; [done|]. destruct (WorkQueue.new qc); [|done].
  destruct (Budget.new el); [|done]. intros [= <-]. exists Idle.
  apply lookup_gset_to_gmap_Some. split; [|done]. apply elem_of_set_seq. lia.
Qed.

(** ** No worker is stuck *)

(** A worker that waits for the gate has a call there. *)
Definition calls_gate (g : Gate) (x : Worker) : Prop :=
  match x with
  | Acquiring _ t => exists pc, Budget.threads g !! t = Some pc /\ call_of pc = AcquireCall
  | Settling _ _ t => exists pc, Budget.threads g !! t = Some pc /\ call_of pc = RefundCall
  | _ => True
  end.

(** The receiver lock is held by the worker between taking a job and its first call
    of the gate. *)
Record LInv (s : System) : Prop := {
  li_dequeue w j i : workers s !! w = Some (Dequeuing j i) ->
    WorkQueue.calls (line s) !! i = Some (DReceived j) /\ receiver_lock (line s) = Some i;
  li_lock i : receiver_lock (line s) = Some i -> exists w j, workers s !! w = Some (Dequeuing j i);
  li_one w w' j j' i i' : workers s !! w = Some (Dequeuing j i) -> workers s !! w' = Some (Dequeuing j' i') -> w = w';
  li_gate w x : workers s !! w = Some x -> calls_gate (gate s) x;
}.

(** The calls of the gate are still there, and still what they were. *)
Definition calls_kept (g g' : Gate) : Prop :=
  forall t pc, Budget.threads g !! t = Some pc ->
  exists pc', Budget.threads g' !! t = Some pc' /\ call_of pc' = call_of pc.

Lemma calls_kept_refl g : calls_kept g g.
Proof. intros t pc Ht. by exists pc. Qed.

Lemma calls_kept_step g g' : Budget.step g g' -> calls_kept g g'.
Proof. intros Hs t pc. by apply step_call. Qed.

Lemma calls_gate_kept g g' x : calls_kept g g' -> calls_gate g x -> calls_gate g' x.
Proof.
  intros Hk. destruct x; simpl; try done; intros (pc&Ht&Hc); destruct (Hk _ _ Ht) as (pc'&Ht'&Hc'); exists pc'; by rewrite Hc'.
Qed.

Definition dequeuing (x : Worker) : bool := match x with Dequeuing _ _ => true | _ => false end.

(** A worker moves without the receiver lock. *)
Lemma LInv_move s s1 w x y :
  LInv s -> workers s !! w = Some x -> dequeuing x = false -> dequeuing y = false ->
  workers s1 = workers s -> line s1 = line s -> calls_kept (gate s) (gate s1) -> calls_gate (gate s1) y ->
  LInv (set_worker s1 w y).
Proof.
  intros [Hd Hl Ho Hg] Hx Dx Dy Ew El Hk Hy. split; simpl; rewrite ?Ew, ?El.
  - intros w' j i [[_ ->]|[_ H]]%lookup_insert_Some; [done|by eapply Hd].
  - intros i (w'&j&Hw')%Hl. exists w', j. rewrite lookup_insert_ne; [done|]. intros <-. rewrite Hx in Hw'. by injection Hw' as ->.
  - intros w1 w2 j1 j2 i1 i2 [[_ ->]|[_ H1]]%lookup_insert_Some; [done|].
    intros [[_ ->]|[_ H2]]%lookup_insert_Some; [done|by eapply Ho].
  - intros w' x' [[_ <-]|[_ H]]%lookup_insert_Some; [done|]. eapply calls_gate_kept; [done|by eapply Hg].
Qed.

Lemma wstep_LInv s w s' : LInv s -> wstep s w s' -> LInv s'.
Proof.
  intros HI Hs. pose proof HI as [Hd Hl Ho Hg].
  destruct Hs as [i j rest Hw Hi Hr Hc|Hw ? ? ?|i j t Hw Hi Hr Ht|j t Hw Ht|j t Hw Ht|j t Hw Ht|j t Hw ?|j t Hw ?
                 |j t Hw ?|j e d o Hw He Hou Hf|j e d o t Hw He Hou Hf Ht|j e d Hw He Hou|j o t Hw Ht|j o Hw Hop Hn|j o Hw Hop].
  - assert (Hnone : forall w' j' i', workers s !! w' <> Some (Dequeuing j' i')).
    { intros w' j' i' Hw'. destruct (Hd _ _ _ Hw') as [_ ?]. congruence. }
    split; simpl.
    + intros w' j' i' [[_ [= <- <-]]|[_ H]]%lookup_insert_Some; [by rewrite lookup_insert_eq|by destruct (Hnone w' j' i')].
    + intros i' [= <-]. exists w, j. by rewrite lookup_insert_eq.
    + intros w1 w2 j1 j2 i1 i2 [[<- _]|[_ H1]]%lookup_insert_Some [[<- _]|[_ H2]]%lookup_insert_Some; try done;
        [by destruct (Hnone _ _ _ H2)|by destruct (Hnone _ _ _ H1)..].
    + intros w' x' [[_ <-]|[_ H]]%lookup_insert_Some; [done|by eapply Hg].
  - eapply LInv_move; try done. apply calls_kept_refl.
  - assert (Hothers : forall w' j' i', workers s !! w' = Some (Dequeuing j' i') -> w = w').
    { intros w' j' i' Hw'. by eapply Ho. }
    assert (Hk : calls_kept (gate s) (at_pc (gate s) t Start)) by by apply calls_kept_step, do_acquire.
    split; simpl.
    + intros w' j' i' [[_ ?]|[Hne H]]%lookup_insert_Some; [done|]. by destruct Hne; eapply Hothers.
    + done.
    + intros w1 w2 j1 j2 i1 i2 [[_ ?]|[Hne H1]]%lookup_insert_Some; [done|]. by destruct Hne; eapply Hothers.
    + intros w' x' [[_ <-]|[_ H]]%lookup_insert_Some; [exists Start; simpl; by rewrite lookup_insert_eq|].
      eapply calls_gate_kept; [done|by eapply Hg].
  - eapply LInv_move; try done. apply calls_kept_refl.
  - eapply LInv_move; try done. apply calls_kept_refl.
  - eapply LInv_move; try done. apply calls_kept_refl.
  - destruct Hw as [Hw|Hw]; (eapply LInv_move; try done; apply calls_kept_refl).
  - eapply LInv_move; try done. apply calls_kept_refl.
  - eapply LInv_move; try done. apply calls_kept_refl.
  - eapply LInv_move; try done. apply calls_kept_refl.
  - eapply LInv_move; try done; simpl; [by apply calls_kept_step, do_refund|].
    exists RefundStart. simpl. by rewrite lookup_insert_eq.
  - eapply LInv_move; try done. apply calls_kept_refl.
  - eapply LInv_move; try done. apply calls_kept_refl.
  - eapply LInv_move; try done. apply calls_kept_refl.
  - eapply LInv_move; try done. apply calls_kept_refl.
Qed.

(** The queue's steps leave a received job with the call that received it. *)
Lemma line_step_call (q q' : Threads (C := C)) i j :
  WorkQueue.step q q' -> receiver_lock q' = receiver_lock q -> receiver_lock q = Some i ->
  WorkQueue.calls q !! i = Some (DReceived j) -> WorkQueue.calls q' !! i = Some (DReceived j).
Proof.
  intros Hs Hl Hi Hc. destruct Hs as [k j0 now q0 Hk _| |k j0 q0 Hk|k j0 Hk|k key Hk|k j0 rest Hk Hr|k j0 Hk Hr|];
    simpl in *; try done; try congruence.
  - rewrite lookup_insert_ne; [done|congruence].
  - rewrite lookup_delete_ne; [done|congruence].
  - rewrite lookup_insert_ne; [done|congruence].
  - rewrite lookup_delete_ne; [done|congruence].
Qed.

Lemma sys_step_LInv s s' : LInv s -> sys_step s s' -> LInv s'.
Proof.
  intros HI [w s1 Hs|q Hs Hlock|g Hs|b|o rest Ho|]; [by eapply wstep_LInv|..]; destruct HI as [Hd Hl Ho' Hg].
  - split; simpl; try done.
    + intros w j i Hw. destruct (Hd _ _ _ Hw) as [Hc Hr]. rewrite Hlock. split; [|done]. by eapply line_step_call.
    + intros i. rewrite Hlock. apply Hl.
  - split; simpl; try done. intros w x Hw. eapply calls_gate_kept; [by apply calls_kept_step|by eapply Hg].
  - by split.
  - by split.
  - by split.
Qed.

Lemma start_LInv n qc el s : start n qc el = Some s -> LInv s.
Proof.
  unfold start. destruct (n =? 0)%nat; [done|]. destruct (WorkQueue.new qc) as [q|]; [|done].
  destruct (Budget.new el) as [g|]; [|done]. simpl. intros [= <-].
  split; simpl; try done; try (by intros * ?%idle_workers). by intros w x ->%idle_workers.
Qed.

(** What a worker may wait for: a job, an answer of the gate (whose call can go on, or
    is parked), the rate-limit window, the executor (any answer of which lets it go
    on), or room for its outcome. *)
Inductive waits (s : System) (w : nat) : Worker -> Prop :=
| waits_job : channel (queue (line s)) = [] -> sender_open (queue (line s)) = true -> waits s w Idle
| waits_permit j t pc : Budget.threads (gate s) !! t = Some pc ->
    goes_on (gate s) t pc \/ (exists l n, pc = Parked l n /\ (notifications (gate s) <= n)%nat) -> waits s w (Acquiring j t)
| waits_window j t : halted s = true -> Budget.cancelled (gate s) = false -> waits s w (Halted j t)
| waits_executor j : (forall e, executes j e -> exists s', wstep s w s') -> waits s w (Executing j)
| waits_refund j o t pc : Budget.threads (gate s) !! t = Some pc -> goes_on (gate s) t pc -> waits s w (Settling j o t)
| waits_room j o : outbox_open s = true -> outbox_capacity <= Z.of_nat (length (outbox s)) -> waits s w (Sending j o).

Definition exited (x : Worker) : bool := match x with Exited _ => true | _ => false end.

(** The calls of a queue or gate that nobody has made yet. *)
Lemma fresh_call {V} (m : gmap nat V) : exists i, m !! i = None.
Proof. exists (fresh (dom m)). apply not_elem_of_dom, is_fresh. Qed.

(** A worker that has not ended can step, or waits, or the worker that holds the
    receiver can step and let go of it. *)
Lemma worker_progress s w x :
  SInv s -> LInv s -> workers s !! w = Some x -> exited x = false ->
  waits s w x \/ (exists s', wstep s w s')
  \/ (x = Idle /\ exists w' s', wstep s w' s' /\ receiver_lock (line s') = None).
Proof.
  intros HS HL Hx Hn.
  assert (Hacquire : forall w' j i, workers s !! w' = Some (Dequeuing j i) ->
    exists s', wstep s w' s' /\ receiver_lock (line s') = None).
  { intros w' j i Hw'. destruct (li_dequeue _ HL _ _ _ Hw') as [Hc Hr]. destruct (fresh_call (Budget.threads (gate s))) as [t Ht].
    eexists. split; [by eapply w_acquire|done]. }
  destruct x as [|j i|j t|j t|j t|j|j o t|j o|e]; try done.
  - destruct (receiver_lock (line s)) as [i|] eqn:Hl.
    { destruct (li_lock _ HL _ Hl) as (w'&j&Hw'). right; right. split; [done|]. destruct (Hacquire _ _ _ Hw') as (s'&?&?).
      by exists w', s'. }
    destruct (channel (queue (line s))) as [|j rest] eqn:Hc.
    + destruct (sender_open (queue (line s))) eqn:Ho; [by left; constructor|]. right; left. eexists. by eapply w_closed.
    + destruct (fresh_call (WorkQueue.calls (line s))) as [i Hi]. right; left. eexists. by eapply w_receive.
  - destruct (Hacquire _ _ _ Hx) as (s'&?&_). right; left. by exists s'.
  - destruct (li_gate _ HL _ _ Hx) as (pc&Hpc&Hcall). destruct (thread_goes_on _ _ _ Hpc) as [Hf|[(l&n&Hp&Hle&_)|Hgo]].
    + destruct pc as [| | | | | | | | | | | | | | | |b| | | | | | |]; try done; right; left; [|by eexists; eapply w_unwound].
      destruct b; eexists; [by eapply w_granted|by eapply w_refused].
    + left. eapply waits_permit; [done|]. right. eauto.
    + left. eapply waits_permit; [done|]. by left.
  - right; left. destruct (halted s) eqn:Hh; eexists; [by eapply w_halt|eapply w_begin; [by left|done]].
  - destruct (halted s) eqn:Hh; [|right; left; eexists; eapply w_begin; [by right|done]].
    destruct (Budget.cancelled (gate s)) eqn:Hc; [|by left; constructor]. right; left. eexists. by eapply w_halt_cancelled.
  - left. apply waits_executor. intros e He. destruct (outcome j e 0) as [o|] eqn:Ho; [|eexists; by eapply w_died].
    destruct (refunds_permit o) eqn:Hr; [|eexists; by eapply w_executed].
    destruct (fresh_call (Budget.threads (gate s))) as [t Ht]. eexists. by eapply w_refund.
  - destruct (li_gate _ HL _ _ Hx) as (pc&Hpc&Hcall). destruct (thread_goes_on _ _ _ Hpc) as [Hf|[(l&n&->&_)|Hgo]]; [|done|].
    + destruct pc; try done. right; left. eexists. by eapply w_settled.
    + left. by eapply waits_refund.
  - destruct (outbox_open s) eqn:Ho; [|right; left; eexists; by eapply w_unsent].
    destruct (Z.lt_ge_cases (Z.of_nat (length (outbox s))) outbox_capacity); [|by left; constructor].
    right; left. eexists. by eapply w_send.
Qed.

(** ** Properties *)

(** C8: The pool accounts for every job.  In every run of producers, workers, gate
    and observer, with any executor, any cancellation and any panic: the accepted
    jobs are, in order, those the workers took and those still queued; every job
    that was taken is in the hands of one worker that has not begun it (or ended
    with it: a worker loses at most one job), or its execution began, once; every
    execution that began is in the hands of one worker or its outcome was sent,
    once, and the outcome is one of that job; the outcomes are received in the
    order in which they were sent; and every execution used a permit of its own.
    If all workers ended because the queue was closed and drained, every accepted
    job has exactly one outcome.  And no worker is stuck: one that has not ended can
    go on, at once or after the worker that holds the receiver, or it waits for a
    job, for the gate (where its call can go on or is parked), for the rate-limit
    window, for its executor or for room for its outcome. *)
Theorem pool_accounts n qc el s0 s :
  start n qc el = Some s0 -> rtc sys_step s0 s ->
  sent (line s) = received (line s) ++ channel (queue (line s))
  /\ received (line s) ≡ₚ gather before (workers s) ++ started s
  /\ started s ≡ₚ gather after (workers s) ++ map fst (reported s)
  /\ Forall (fun jo => produced (fst jo) (snd jo)) (reported s)
  /\ delivered s ++ outbox s = map snd (reported s)
  /\ Z.of_nat (length (started s)) <= granted (gate s)
  /\ ((forall w x, workers s !! w = Some x -> x = Exited Closed) -> sent (line s) ≡ₚ map fst (reported s))
  /\ (forall w x, workers s !! w = Some x -> exited x = false ->
        waits s w x \/ (exists s', wstep s w s')
        \/ (x = Idle /\ exists w' s', wstep s w' s' /\ receiver_lock (line s') = None)).
Proof.
  intros Hs0 Hs. assert (HI : SInv s).
  { eapply (rtc_invariant _ _ sys_step_SInv); [exact Hs|by eapply start_SInv]. }
  assert (Hfifo : sent (line s) = received (line s) ++ channel (queue (line s))) by apply (si_line _ HI).
  assert (HL : LInv s) by (eapply (rtc_invariant _ _ sys_step_LInv); [exact Hs|by eapply start_LInv]).
  split_and!; [exact Hfifo|apply HI..| | |by intros w x; apply worker_progress].
  - rewrite <- (si_size _ HI). apply tickets_bound; apply HI.
  - intros Hall. destruct (first_worker _ _ _ _ _ Hs0 Hs) as [x Hx]. rewrite (Hall _ _ Hx) in Hx.
    destruct (si_closed _ HI _ Hx) as [Hch _].
    rewrite Hfifo, Hch, app_nil_r, (si_received _ HI), (si_started _ HI).
    by rewrite !gather_nil by by intros i w ->%Hall.
Qed.

(** ** An executable scheduler

    One step of worker [w], when it has one: [t] is the call or the gate's thread
    it opens, and the executor does [e] in time [d]. *)

Context `{EqDecision C}.

#[local] Instance JobSource_eq_dec : EqDecision JobSource.
Proof. solve_decision. Defined.
#[local] Instance CorrelationContext_eq_dec : EqDecision CorrelationContext.
Proof. solve_decision. Defined.
#[local] Instance JobSpec_eq_dec : EqDecision (JobSpec C).
Proof. solve_decision. Defined.
#[local] Instance Call_eq_dec : EqDecision (Call (C := C)).
Proof. solve_decision. Defined.

Definition wexec (s : System) (w t : nat) (e : Executed R) (d : Z) : option System :=
  let open_thread := bool_decide (Budget.threads (gate s) !! t = None) in
  match workers s !! w with
  | Some Idle =>
      if bool_decide (receiver_lock (line s) = None) && bool_decide (WorkQueue.calls (line s) !! t = None) then
        match channel (queue (line s)) with
        | j :: rest => Some (set_worker (set_line s
            (mkThreads (mkQueue (capacity (queue (line s))) rest (sender_open (queue (line s))) (pending (queue (line s))))
               (<[t := DReceived j]> (WorkQueue.calls (line s))) (sender_lock (line s)) (Some t) (sent (line s))
               (received (line s) ++ [j]) (results (line s)))) w (Dequeuing j t))
        | [] => if sender_open (queue (line s)) then None else Some (set_worker s w (Exited Closed))
        end
      else None
  | Some (Dequeuing j i) =>
      if bool_decide (WorkQueue.calls (line s) !! i = Some (DReceived j))
         && bool_decide (receiver_lock (line s) = Some i) && open_thread
      then Some (set_worker (set_gate (set_line s
             (mkThreads (remove_pending (queue (line s)) (domain_key j)) (delete i (WorkQueue.calls (line s)))
                (sender_lock (line s)) None (sent (line s)) (received (line s)) (results (line s))))
             (at_pc (gate s) t Start)) w (Acquiring j t))
      else None
  | Some (Acquiring j u) =>
      match Budget.threads (gate s) !! u with
      | Some (Returned true) => Some (set_worker s w (Permitted j u))
      | Some (Returned false) => Some (set_worker s w (Exited (Refused j)))
      | Some Unwound => Some (set_worker s w (Exited (GateUnwound j)))
      | _ => None
      end
  | Some (Permitted j u) =>
      if halted s then Some (set_worker s w (Halted j u)) else Some (set_worker (begin s j u) w (Executing j))
  | Some (Halted j u) =>
      if halted s then if Budget.cancelled (gate s) then Some (set_worker s w (Exited (HaltCancelled j))) else None
      else Some (set_worker (begin s j u) w (Executing j))
  | Some (Executing j) =>
      match outcome j e d with
      | None => Some (set_worker s w (Exited (Died j)))
      | Some o => if refunds_permit o
                  then if open_thread then Some (set_worker (set_gate s (at_pc (gate s) t RefundStart)) w (Settling j o t)) else None
                  else Some (set_worker s w (Sending j o))
      end
  | Some (Settling j o u) =>
      match Budget.threads (gate s) !! u with Some Refunded => Some (set_worker s w (Sending j o)) | _ => None end
  | Some (Sending j o) =>
      if outbox_open s
      then if Z.of_nat (length (outbox s)) <? outbox_capacity then Some (set_worker (post s j o) w Idle) else None
      else Some (set_worker s w (Exited (Unsent j o)))
  | _ => None
  end.

Lemma wexec_sound s w t e d s' : (forall j, executes j e) -> wexec s w t e d = Some s' -> wstep s w s'.
Proof using Type.
  intros He. unfold wexec. destruct (workers s !! w) as [x|] eqn:Hw; [|done].
  destruct x as [|j i|j u|j u|j u|j|j o u|j o|en]; intros Hx; try done;
    repeat (first [case_match | case_bool_decide]; simplify_eq/=; to_prop);
    try solve [eapply w_receive; eauto | eapply w_closed; eauto | eapply w_acquire; eauto | eapply w_granted; eauto
      | eapply w_refused; eauto | eapply w_unwound; eauto | eapply w_halt; eauto | eapply w_begin; eauto
      | eapply w_halt_cancelled; eauto | eapply w_executed; eauto | eapply w_refund; eauto | eapply w_died; eauto
      | eapply w_settled; eauto | eapply w_send; eauto | eapply w_unsent; eauto].
Qed.

(** A producer enqueues a job or closes the queue, the gate runs a thread, a
    worker takes a step. *)
Inductive Action := Produce (j : JobSpec C) | CloseQueue | RunGate (t : nat) | RunWorker (w t : nat).

(** [enqueue] in one go, when no other call of it is under way. *)
Definition produce (q : Threads (C := C)) (j : JobSpec C) : option (Threads (C := C)) :=
  if bool_decide (WorkQueue.calls q !! 0%nat = None) && bool_decide (sender_lock q = None) then
    q1 ← insert_pending (queue q) (domain_key j);
    q2 ← try_send q1 (stamp j 0);
    Some (mkThreads q2 (delete 0%nat (<[0%nat := EInserted (stamp j 0)]> (WorkQueue.calls q))) None (receiver_lock q)
            (sent q ++ [stamp j 0]) (received q) (results q ++ [(domain_key j, Accepted)]))
  else None.

Lemma produce_sound s j q : produce (line s) j = Some q -> rtc sys_step s (set_line s q).
Proof using Type.
  unfold produce. do 2 (case_bool_decide; [|done]). simpl.
  destruct (insert_pending _ _) as [q1|] eqn:H1; [|done]. simpl.
  destruct (try_send _ _) as [q2|] eqn:H2; [|done]. simpl. intros [= <-].
  set (q0 := mkThreads q1 (<[0%nat := EInserted (stamp j 0)]> (WorkQueue.calls (line s))) (sender_lock (line s))
               (receiver_lock (line s)) (sent (line s)) (received (line s)) (results (line s))).
  assert (Hin : WorkQueue.step (line s) q0) by by apply enq_insert.
  assert (Hout : WorkQueue.step q0 (mkThreads q2 (delete 0%nat (WorkQueue.calls q0)) None (receiver_lock q0)
                   (sent q0 ++ [stamp j 0]) (received q0) (results q0 ++ [(domain_key (stamp j 0), Accepted)]))).
  { apply enq_send; [|done|done]. by apply lookup_insert_eq. }
  eapply rtc_l; [exact (sys_line s q0 Hin eq_refl)|]. exact (rtc_once _ _ (sys_line (set_line s q0) _ Hout eq_refl)).
Qed.

Definition act (e : Executed R) (s : System) (a : Action) : option System :=
  match a with
  | Produce j => set_line s <$> produce (line s) j
  | CloseQueue =>
      if bool_decide (sender_lock (line s) = None)
      then Some (set_line s (mkThreads (close (queue (line s))) (WorkQueue.calls (line s)) None (receiver_lock (line s))
                               (sent (line s)) (received (line s)) (results (line s))))
      else None
  | RunGate t => set_gate s <$> Budget.exec (gate s) t
  | RunWorker w t => wexec s w t e 0
  end.
Fixpoint run (e : Executed R) (s : System) (l : list Action) : option System :=
  match l with [] => Some s | a :: l => s' ← act e s a; run e s' l end.

Lemma pool_run_sound e s l s' : (forall j, executes j e) -> run e s l = Some s' -> rtc sys_step s s'.
Proof using Type.
  intros He. revert s. induction l as [|a l IH]; intros s; simpl; [intros [= <-]; apply rtc_refl|].
  intros (s1&Ha&Hr)%bind_Some. transitivity s1; [|by apply IH]. destruct a as [j| |t|w t]; simpl in Ha.
  - apply fmap_Some in Ha as (q&Hq&->). by apply produce_sound in Hq.
  - case_bool_decide; [|done]. injection Ha as <-. apply rtc_once. eapply sys_line; [by eapply do_close|done].
  - apply fmap_Some in Ha as (g&Hg&->). apply rtc_once, sys_gate. eapply do_thread, exec_sound, Hg.
  - apply rtc_once. eapply sys_worker, wexec_sound; done.
Qed.
End Pipeline.

(** *** Witness: two jobs, one call per epoch, one worker *)

Definition returns_one (_ : JobSpec unit) (e : Executed Z) : Prop := e = ExecOk 1.
Definition always_charged (_ : DomainKey) (_ : Z) : SettleOutcome := Charged.

Definition one_worker : System (C := unit) (R := Z) :=
  mkSystem (threads_init (mkQueue 2 [] true ∅)) (mkGate 0 0 1 false 0 false 0 false false ∅ 0 0 0 1 false)
    false (gset_to_gmap Idle (set_seq 0 1)) [] true [] [] [] ∅.

Definition two_jobs_run : option System :=
  run always_charged 4 false (ExecOk 1) one_worker
    ([Produce (demo_job "a"); Produce (demo_job "b"); CloseQueue; RunWorker 0 1; RunWorker 0 0]
     ++ repeat (RunGate 0) 4 ++ repeat (RunWorker 0 0) 4 ++ [RunWorker 0 1; RunWorker 0 1]
     ++ repeat (RunGate 1) 14 ++ repeat (RunWorker 0 0) 5)%nat.

Lemma pool_accounts_witness :
  exists s, two_jobs_run = Some s
    /\ map domain_key (sent (line s)) = ["a"; "b"]%string /\ sent (line s) ≡ₚ map fst (reported s).
Proof.
  destruct two_jobs_run as [s|] eqn:Hr; [|vm_compute in Hr; discriminate Hr]. exists s. split; [reflexivity|].
  assert (Hall : forall w x, workers s !! w = Some x -> x = Exited Closed).
  { assert (Hw : workers s = {[0%nat := Exited Closed]}) by (revert Hr; vm_compute; intros [= <-]; reflexivity).
    intros w x. rewrite Hw. by intros [_ <-]%lookup_singleton_Some. }
  split; [revert Hr; vm_compute; intros [= <-]; reflexivity|].
  apply (pool_accounts returns_one always_charged 4 false 1 2 1 one_worker s); [reflexivity| |exact Hall].
  eapply (pool_run_sound returns_one always_charged 4 false (ExecOk 1)); [reflexivity|exact Hr].
Defined.
