(* ===== verification/Chars.v ===== *)
(** * Text

    Strings as lists of Unicode scalar values, and the operations of [str] and of
    the integer parsers that the storage and web crates use, with the lemmas
    their clients need. *)

From Stdlib Require Import Ascii.
From S2P Require Import Prelude.

Definition Text : Type := list Z.

(** The code points of an ASCII literal. *)
Fixpoint txt (s : string) : Text :=
  match s with
  | EmptyString => []
  | String c rest => Z.of_nat (nat_of_ascii c) :: txt rest
  end.

(** [char::is_control]: the category Cc. *)
Definition is_control (c : Z) : bool := ((0 <=? c) && (c <=? 31)) || ((127 <=? c) && (c <=? 159)).

(** [char::is_whitespace]: the property White_Space. *)
Definition is_whitespace (c : Z) : bool :=
  ((9 <=? c) && (c <=? 13)) || (c =? 32) || (c =? 133) || (c =? 160) || (c =? 5760)
  || ((8192 <=? c) && (c <=? 8202)) || (c =? 8232) || (c =? 8233) || (c =? 8239) || (c =? 8287)
  || (c =? 12288).

(** [str::to_ascii_lowercase]. *)
Definition ascii_lower (c : Z) : Z := if (65 <=? c) && (c <=? 90) then c + 32 else c.
Definition to_ascii_lowercase (t : Text) : Text := map ascii_lower t.

(** [t.contains(c)] for a character. *)
Definition contains_char (c : Z) (t : Text) : bool := existsb (Z.eqb c) t.

(** [t.strip_prefix(p)], [t.starts_with(p)], [t.contains(p)] for a string. *)
Fixpoint strip_prefix (p t : Text) : option Text :=
  match p, t with
  | [], _ => Some t
  | x :: p', y :: t' => if x =? y then strip_prefix p' t' else None
  | _, [] => None
  end.
Definition starts_with (p t : Text) : bool := bool_decide (is_Some (strip_prefix p t)).
Fixpoint contains_str (p t : Text) : bool :=
  starts_with p t || match t with [] => false | _ :: t' => contains_str p t' end.

(** [t.strip_suffix(s)], [t.ends_with(s)]. *)
Definition strip_suffix (s t : Text) : option Text :=
  match strip_prefix (rev s) (rev t) with Some r => Some (rev r) | None => None end.
Definition ends_with (s t : Text) : bool := bool_decide (is_Some (strip_suffix s t)).

(** [t.split(c)]: never empty. *)
Fixpoint split (c : Z) (t : Text) : list Text :=
  match t with
  | [] => [[]]
  | x :: t' =>
      if x =? c then [] :: split c t'
      else match split c t' with
           | [] => [[x]]
           | seg :: rest => (x :: seg) :: rest
           end
  end.

(** [t.split_once(c)], [t.rsplit_once(c)] for a character, [t.split_once(p)] for a string. *)
Fixpoint split_once (c : Z) (t : Text) : option (Text * Text) :=
  match t with
  | [] => None
  | x :: t' =>
      if x =? c then Some ([], t')
      else match split_once c t' with Some (a, b) => Some (x :: a, b) | None => None end
  end.
Definition rsplit_once (c : Z) (t : Text) : option (Text * Text) :=
  match split_once c (rev t) with Some (b, a) => Some (rev a, rev b) | None => None end.
Fixpoint split_once_str (p t : Text) : option (Text * Text) :=
  match strip_prefix p t with
  | Some rest => Some ([], rest)
  | None =>
      match t with
      | [] => None
      | x :: t' => match split_once_str p t' with Some (a, b) => Some (x :: a, b) | None => None end
      end
  end.

(** [segments.join(sep)]. *)
Fixpoint join (sep : Z) (l : list Text) : Text :=
  match l with
  | [] => []
  | [x] => x
  | x :: rest => x ++ sep :: join sep rest
  end.

(** [t.trim()], [t.trim_end_matches(c)]. *)
Fixpoint drop_while (p : Z -> bool) (t : Text) : Text :=
  match t with
  | [] => []
  | x :: t' => if p x then drop_while p t' else t
  end.
Definition trim (t : Text) : Text := rev (drop_while is_whitespace (rev (drop_while is_whitespace t))).
Definition trim_end_matches (c : Z) (t : Text) : Text := rev (drop_while (Z.eqb c) (rev t)).

(** [char::to_digit(radix)]. *)
Definition to_digit (radix c : Z) : option Z :=
  let d := if (48 <=? c) && (c <=? 57) then c - 48
           else if (97 <=? c) && (c <=? 122) then c - 87
           else if (65 <=? c) && (c <=? 90) then c - 55
           else radix in
  if d <? radix then Some d else None.

(** The digits of a number, most significant first, with the overflow check of
    every step. *)
Fixpoint digits (max radix acc : Z) (t : Text) : option Z :=
  match t with
  | [] => Some acc
  | c :: t' =>
      match to_digit radix c with
      | None => None
      | Some d => if acc * radix + d <=? max then digits max radix (acc * radix + d) t' else None
      end
  end.

(** [uN::from_str_radix(t, radix)], and [t.parse::<uN>()] with radix 10: a
    leading [+] is allowed. *)
Definition from_str_radix (max radix : Z) (t : Text) : option Z :=
  match t with
  | [] => None
  | c :: t' => if c =? 43 then (match t' with [] => None | _ => digits max radix 0 t' end)
               else digits max radix 0 t
  end.

(** A hexadecimal digit in lower case, and [n] of them. *)
Definition hex_digit (d : Z) : Z := if d <? 10 then 48 + d else 87 + d.
Fixpoint hex (n : nat) (x : Z) : Text :=
  match n with
  | O => []
  | S n' => hex n' (x / 16) ++ [hex_digit (x mod 16)]
  end.

(** ** Lemmas *)

Lemma contains_char_false c t : contains_char c t = false <-> c ∉ t.
Proof.
  unfold contains_char. induction t as [|x t IH]; simpl; [split; [by intros _ ?%not_elem_of_nil|done]|].
  rewrite orb_false_iff, IH, not_elem_of_cons, Z.eqb_neq. done.
Qed.

Lemma contains_char_true c t : contains_char c t = true <-> c ∈ t.
Proof.
  pose proof (contains_char_false c t) as H. destruct (contains_char c t); [|naive_solver].
  split; [|done]. intros _. destruct (decide (c ∈ t)); naive_solver.
Qed.

Lemma split_nonempty c t : split c t <> [].
Proof. destruct t as [|x t]; simpl; [done|]. destruct (x =? c); [done|]. by destruct (split c t). Qed.

Lemma split_cons c x t : x <> c ->
  exists seg rest, split c t = seg :: rest /\ split c (x :: t) = (x :: seg) :: rest.
Proof.
  intros Hx. destruct (split c t) as [|seg rest] eqn:Hs; [by destruct (split_nonempty c t)|].
  exists seg, rest. split; [done|]. simpl. by rewrite (proj2 (Z.eqb_neq x c)), Hs.
Qed.

Lemma join_cons sep (x : Text) l : l <> [] -> join sep (x :: l) = x ++ sep :: join sep l.
Proof. by destruct l. Qed.

Lemma join_split c t : join c (split c t) = t.
Proof.
  induction t as [|x t IH]; [done|]. destruct (Z.eqb_spec x c) as [->|Hx].
  - simpl. rewrite Z.eqb_refl, join_cons by apply split_nonempty. simpl. by rewrite IH.
  - destruct (split_cons c x t Hx) as (seg&rest&Hs&->). rewrite Hs in IH. rewrite <- IH. by destruct rest.
Qed.

(** Splitting a text at its first separator. *)
Lemma split_app c seg t : c ∉ seg -> split c (seg ++ c :: t) = seg :: split c t.
Proof.
  induction seg as [|x seg IH]; intros Hn; simpl; [by rewrite Z.eqb_refl|].
  apply not_elem_of_cons in Hn as [Hx Hn]. rewrite IH by done. by rewrite (proj2 (Z.eqb_neq x c)).
Qed.

Lemma split_single c seg : c ∉ seg -> split c seg = [seg].
Proof.
  induction seg as [|x seg IH]; intros Hn; simpl; [done|].
  apply not_elem_of_cons in Hn as [Hx Hn]. rewrite IH by done. by rewrite (proj2 (Z.eqb_neq x c)).
Qed.

Lemma split_join c l : l <> [] -> Forall (fun seg => c ∉ seg) l -> split c (join c l) = l.
Proof.
  intros Hne Hl. induction Hl as [|seg l Hseg Hl IH]; [done|]. destruct l as [|seg' l].
  - simpl. by apply split_single.
  - rewrite join_cons, split_app by done. by rewrite IH.
Qed.

(** The pieces do not contain the separator, nor anything the text did not. *)
Lemma split_pieces c t seg : seg ∈ split c t -> (c ∉ seg) /\ (forall x, x ∈ seg -> x ∈ t).
Proof.
  revert seg. induction t as [|x t IH]; intros seg; simpl.
  { intros ->%list_elem_of_singleton. split; [apply not_elem_of_nil|]. by intros x ?%not_elem_of_nil. }
  destruct (Z.eqb_spec x c) as [->|Hx].
  - intros [->|Hin]%elem_of_cons.
    + split; [apply not_elem_of_nil|]. by intros x ?%not_elem_of_nil.
    + destruct (IH _ Hin) as [Hn Hsub]. split; [done|]. intros y Hy. apply elem_of_cons. auto.
  - destruct (split c t) as [|s rest] eqn:Hs; [by destruct (split_nonempty c t)|].
    intros [->|Hin]%elem_of_cons.
    + destruct (IH s) as [Hn Hsub]; [apply elem_of_cons; auto|]. split.
      * rewrite not_elem_of_cons. split; [congruence|done].
      * intros y [->|Hy]%elem_of_cons; apply elem_of_cons; auto.
    + destruct (IH seg) as [Hn Hsub]; [apply elem_of_cons; auto|]. split; [done|].
      intros y Hy. apply elem_of_cons. auto.
Qed.

Lemma split_snoc c t : split c (t ++ [c]) = split c t ++ [[]].
Proof.
  induction t as [|x t IH]; simpl; [by rewrite Z.eqb_refl|]. rewrite IH. destruct (x =? c); [done|].
  destruct (split c t) as [|seg rest] eqn:Hs; [by destruct (split_nonempty c t)|]. done.
Qed.

(** Every character is the separator or in a piece. *)
Lemma split_covers c t x : x ∈ t -> x = c \/ exists seg, seg ∈ split c t /\ x ∈ seg.
Proof.
  induction t as [|y t IH]; [by intros ?%not_elem_of_nil|]. destruct (Z.eqb_spec y c) as [->|Hy].
  - intros [->|Hx]%elem_of_cons; [by left|]. destruct (IH Hx) as [->|(seg&Hs&Hin)]; [by left|]. right.
    exists seg. simpl. rewrite Z.eqb_refl. split; [by apply elem_of_cons; right|done].
  - destruct (split_cons c y t Hy) as (s&rest&Hs&->). rewrite Hs in IH.
    intros [->|Hx]%elem_of_cons.
    { right. exists (y :: s). split; apply elem_of_cons; by left. }
    destruct (IH Hx) as [->|(seg&Hin&Hxs)]; [by left|]. right.
    apply elem_of_cons in Hin as [->|Hin].
    + exists (y :: s). split; apply elem_of_cons; auto.
    + exists seg. split; [apply elem_of_cons; by right|done].
Qed.

(** *** Hexadecimal *)

Lemma hex_length n x : length (hex n x) = n.
Proof. revert x. induction n as [|n IH]; intros x; simpl; [done|]. rewrite length_app, IH. simpl. lia. Qed.

Lemma to_digit_hex d : 0 <= d < 16 -> to_digit 16 (hex_digit d) = Some d.
Proof.
  intros H. assert (Hd : d ∈ seqZ 0 16) by (apply elem_of_seqZ; lia). clear H.
  revert d Hd. apply Forall_forall. vm_compute. repeat constructor.
Qed.

Lemma digits_app max radix acc t u :
  digits max radix acc (t ++ u) =
  match digits max radix acc t with Some a => digits max radix a u | None => None end.
Proof.
  revert acc. induction t as [|c t IH]; intros acc; simpl; [done|].
  destruct (to_digit radix c); [|done]. by destruct (_ <=? _).
Qed.

Lemma digits_hex max n x acc :
  0 <= acc -> 0 <= x < 16 ^ Z.of_nat n -> acc * 16 ^ Z.of_nat n + x <= max ->
  digits max 16 acc (hex n x) = Some (acc * 16 ^ Z.of_nat n + x).
Proof.
  revert x. induction n as [|n IH]; intros x Ha Hx Hmax.
  { simpl in *. f_equal. lia. }
  rewrite Nat2Z.inj_succ, Z.pow_succ_r in * by lia. cbn [hex]. rewrite digits_app.
  assert (Hq : x = 16 * (x / 16) + x mod 16) by (apply Z.div_mod; lia).
  pose proof (Z.mod_pos_bound x 16 ltac:(lia)) as Hm.
  assert (Hpow : 0 <= 16 ^ Z.of_nat n) by (apply Z.pow_nonneg; lia).
  rewrite IH by nia. cbn [digits]. rewrite to_digit_hex by done.
  rewrite (proj2 (Z.leb_le _ _)) by nia. f_equal. nia.
Qed.

Lemma hex_plain n x c : c ∈ hex n x -> 48 <= c <= 57 \/ 97 <= c <= 102.
Proof.
  revert x. induction n as [|n IH]; intros x; simpl; [by intros ?%not_elem_of_nil|].
  intros [H| ->%list_elem_of_singleton]%elem_of_app; [by eapply IH|].
  pose proof (Z.mod_pos_bound x 16 ltac:(lia)) as Hm. unfold hex_digit.
  destruct (Z.ltb_spec (x mod 16) 10); lia.
Qed.

(** What is printed in [n] hexadecimal digits is read back. *)
Lemma from_str_radix_hex max n x :
  n <> 0%nat -> 0 <= x < 16 ^ Z.of_nat n -> x <= max -> from_str_radix max 16 (hex n x) = Some x.
Proof.
  intros Hn Hx Hmax. destruct (hex n x) as [|c t] eqn:Hh.
  { apply (f_equal length) in Hh. rewrite hex_length in Hh. done. }
  unfold from_str_radix. rewrite (proj2 (Z.eqb_neq c 43)).
  - rewrite <- Hh, digits_hex by lia. done.
  - intros ->. assert (Hc : 43 ∈ hex n x) by (rewrite Hh; apply elem_of_cons; auto).
    apply hex_plain in Hc. lia.
Qed.

(** A value that was read is in range. *)
Lemma digits_range max radix acc t x :
  0 <= radix -> 0 <= acc <= max -> digits max radix acc t = Some x -> 0 <= x <= max.
Proof.
  intros Hr. revert acc. induction t as [|c t IH]; intros acc Ha; simpl; [by intros [= <-]|].
  destruct (to_digit radix c) as [d|] eqn:Hd; [|done]. destruct (Z.leb_spec (acc * radix + d) max); [|done].
  apply IH. unfold to_digit in Hd. revert Hd. repeat case_match; intros; simplify_eq; to_prop; nia.
Qed.

Lemma from_str_radix_range max radix t x :
  0 <= radix -> 0 <= max -> from_str_radix max radix t = Some x -> 0 <= x <= max.
Proof.
  intros Hr Hm. unfold from_str_radix. destruct t as [|c t]; [done|].
  destruct (c =? 43); [destruct t; [done|]|]; apply digits_range; lia.
Qed.

(** A text that is read as a number has only digits and a sign. *)
Lemma digits_chars max acc t x c : digits max 10 acc t = Some x -> c ∈ t -> 48 <= c <= 57.
Proof.
  revert acc. induction t as [|y t IH]; intros acc H; [by intros ?%not_elem_of_nil|]. simpl in H.
  destruct (to_digit 10 y) as [d|] eqn:Hd; [|done]. destruct (_ <=? max); [|done].
  intros [->|Hin]%elem_of_cons; [|by eapply IH]. unfold to_digit in Hd.
  revert Hd. repeat case_match; intros; simplify_eq; to_prop; lia.
Qed.

Lemma from_str_radix_chars max t x c : from_str_radix max 10 t = Some x -> c ∈ t -> c = 43 \/ 48 <= c <= 57.
Proof.
  unfold from_str_radix. destruct t as [|y t]; [done|]. destruct (Z.eqb_spec y 43) as [->|Hy].
  - destruct t as [|z t]; [done|]. intros H [->|Hin]%elem_of_cons; [by left|]. right. by eapply digits_chars.
  - intros H Hin. right. by eapply digits_chars.
Qed.

(** *** Cutting a text *)

Lemma strip_prefix_Some p t r : strip_prefix p t = Some r <-> t = p ++ r.
Proof.
  revert t. induction p as [|x p IH]; intros [|y t]; simpl; try (split; congruence).
  destruct (Z.eqb_spec x y) as [->|Hne]; [rewrite IH|]; split; congruence.
Qed.

Lemma split_once_Some c t a b : split_once c t = Some (a, b) <-> t = a ++ c :: b /\ (c ∉ a).
Proof.
  revert a. induction t as [|x t IH]; intros a; simpl.
  { split; [done|]. intros [H _]. by destruct a. }
  destruct (Z.eqb_spec x c) as [->|Hx].
  - split.
    + intros [= <- <-]. split; [done|apply not_elem_of_nil].
    + intros [H Hn]. destruct a as [|y a]; simplify_eq/=; [done|]. destruct Hn. by left.
  - destruct (split_once c t) as [[a' b']|].
    + split.
      * intros [= <- <-]. destruct (proj1 (IH a') eq_refl) as [-> Hn]. split; [done|].
        apply not_elem_of_cons. split; [congruence|done].
      * intros [H Hn]. destruct a as [|y a]; simplify_eq/=. apply not_elem_of_cons in Hn as [_ Hn].
        by injection (proj2 (IH a) (conj eq_refl Hn)) as -> ->.
    + split; [done|]. intros [H Hn]. destruct a as [|y a]; simplify_eq/=.
      apply not_elem_of_cons in Hn as [_ Hn]. by discriminate (proj2 (IH a) (conj eq_refl Hn)).
Qed.

Lemma split_once_None c t : split_once c t = None <-> c ∉ t.
Proof.
  split.
  - intros H Hin. apply list_elem_of_split in Hin as (a&b&->).
    revert H. induction a as [|x a IH]; simpl; [by rewrite Z.eqb_refl|].
    destruct (x =? c); [done|]. destruct (split_once c (a ++ c :: b)) as [[]|]; [done|auto].
  - intros Hn. destruct (split_once c t) as [[a b]|] eqn:E; [|done].
    apply split_once_Some in E as [-> _]. destruct Hn. apply elem_of_app. right. by left.
Qed.

Lemma elem_of_rev c (t : Text) : c ∈ rev t <-> c ∈ t.
Proof. rewrite rev_alt. apply elem_of_reverse. Qed.

Lemma rsplit_once_Some c t a b : rsplit_once c t = Some (a, b) <-> t = a ++ c :: b /\ (c ∉ b).
Proof.
  unfold rsplit_once. split.
  - destruct (split_once c (rev t)) as [[b' a']|] eqn:E; [|done]. intros [= <- <-].
    apply split_once_Some in E as [E Hn]. apply (f_equal (@rev Z)) in E.
    rewrite rev_involutive, rev_app_distr in E. simpl in E. rewrite <- app_assoc in E.
    split; [done|]. by rewrite elem_of_rev.
  - intros [-> Hn]. rewrite rev_app_distr. simpl. rewrite <- app_assoc. simpl.
    rewrite (proj2 (split_once_Some c (rev b ++ c :: rev a) (rev b) (rev a))).
    + by rewrite !rev_involutive.
    + split; [done|]. by rewrite elem_of_rev.
Qed.

Lemma rsplit_once_None c t : rsplit_once c t = None <-> c ∉ t.
Proof.
  unfold rsplit_once. rewrite <- (elem_of_rev c t), <- split_once_None.
  by destruct (split_once c (rev t)) as [[]|].
Qed.

Lemma strip_suffix_Some s t r : strip_suffix s t = Some r <-> t = r ++ s.
Proof.
  unfold strip_suffix. split.
  - destruct (strip_prefix (rev s) (rev t)) as [u|] eqn:E; [|done]. intros [= <-].
    apply strip_prefix_Some in E. apply (f_equal (@rev Z)) in E.
    by rewrite rev_involutive, rev_app_distr, rev_involutive in E.
  - intros ->. rewrite rev_app_distr. rewrite (proj2 (strip_prefix_Some (rev s) _ (rev r)) eq_refl).
    by rewrite rev_involutive.
Qed.

Lemma ends_with_true s t : ends_with s t = true <-> exists r, t = r ++ s.
Proof.
  unfold ends_with. rewrite bool_decide_eq_true. split.
  - intros [r H]. exists r. by apply strip_suffix_Some.
  - intros [r H]. exists r. by apply strip_suffix_Some.
Qed.
