(* ===== verification/Lock.v ===== *)
(** * Locks and atomic writes (crate [cherry-pit-storage])

    [error.rs], [fs.rs] and [lock.rs].  The model holds the one path a lock lives
    at: what is there and whether it is on the disk, what the operating system
    answers to each call ([fault]), and the clock.  A temporary file is a value
    that its calls update, and the rename installs what it holds.  A function of
    the source is a computation in the small monad [IO]; the calls that other
    processes can interleave with are, in addition, the steps of a transition
    system over the same path. *)

From Stdlib Require Import Ascii.
From S2P Require Import Prelude Core.

(** ** Errors ([error.rs]) *)

(** The kinds of [std::io::Error] the code tells apart. *)
Inductive ErrorKind := AlreadyExists | NotFound | OtherKind.
Record IoError := mkIo { io_kind : ErrorKind; io_message : string }.

Inductive PersistenceError :=
| PeIndeterminate (source : Boxed)
| LockFailed (reason : string)
| AtomicWriteFailed (reason : string)
| LoadFailed (reason : string)
| TornWriteRecovery (source : Boxed)
| FencedConflict (expected_seq actual_seq : option Z) (source : Boxed)
| BackendUnavailable (source : Boxed)
| InvariantViolation (reason : string)
| PoisonedState
| Io (error : IoError).

Module RetryClass.
Inductive RetryClass := ReconciliationRequired | Retryable | Terminal.
Definition is_retryable (c : RetryClass) : bool := match c with Retryable => true | _ => false end.
Definition is_terminal (c : RetryClass) : bool := match c with Terminal => true | _ => false end.
End RetryClass.

Definition retry_class (e : PersistenceError) : RetryClass.RetryClass :=
  match e with
  | PeIndeterminate _ => RetryClass.ReconciliationRequired
  | BackendUnavailable _ => RetryClass.Retryable
  | LockFailed _ | AtomicWriteFailed _ | LoadFailed _ | TornWriteRecovery _
  | FencedConflict _ _ _ | InvariantViolation _ | PoisonedState | Io _ => RetryClass.Terminal
  end.

(** ** The path and the operating system *)

(** What a file holds: text, or bytes that are not UTF-8. *)
Inductive Contents := Text (text : string) | Binary (len : Z).

Definition contents_len (c : Contents) : Z :=
  match c with Text t => Z.of_nat (String.length t) | Binary n => n end.

(** [file] is what is at the path, and [on_disk] whether all of it has reached
    the disk; [fault n] is the failure of the [n]-th call, if it fails for a
    reason that has nothing to do with what is at the path; [clock n] is the
    [n]-th reading of the clock, in nanoseconds; [gone host pid] is the answer
    [ESRCH] of [kill(pid, 0)] on [host]. *)
Record Os := mkOs {
  file : option Contents;
  on_disk : bool;
  fault : nat -> option string;
  ops : nat;
  clock : nat -> Z;
  readings : nat;
  gone : string -> Z -> bool;
}.

Definition with_on_disk (b : bool) (o : Os) : Os :=
  mkOs (file o) b (fault o) (ops o) (clock o) (readings o) (gone o).

Definition IO (A E : Type) : Type := Os -> Os * result A E.

Definition pure {A E} (a : A) : IO A E := fun o => (o, Ok a).
Definition throw {A E} (e : E) : IO A E := fun o => (o, Err e).
Definition bind {A B E} (m : IO A E) (k : A -> IO B E) : IO B E := fun o =>
  match m o with
  | (o', Ok a) => k a o'
  | (o', Err e) => (o', Err e)
  end.
(** [match r { Ok(..) => .., Err(..) => .. }]. *)
Definition attempt {A E E'} {B} (m : IO A E) (k : result A E -> IO B E') : IO B E' := fun o =>
  let '(o', r) := m o in k r o'.
Definition map_err_io {A E F} (f : E -> F) (m : IO A E) : IO A F := fun o =>
  let '(o', r) := m o in (o', map_err f r).
(** [serde_json::to_string_pretty(..).map_err(..)?] and the like. *)
Definition lift {A E} (r : result A E) : IO A E := fun o => (o, r).

Declare Scope io_scope.
Delimit Scope io_scope with io.
Notation "'do!' x '<-' m 'in' k" := (bind m (fun x => k))
  (at level 10, x name, m at level 100, k at level 200) : io_scope.
Notation "'try!' x '<-' m 'in' k" := (attempt m (fun x => k))
  (at level 10, x name, m at level 100, k at level 200) : io_scope.
Open Scope io_scope.

(** A call to the operating system. *)
Definition sys {A} (effect : option Contents -> option Contents * result A IoError) : IO A IoError :=
  fun o =>
    match fault o (ops o) with
    | Some m => (mkOs (file o) (on_disk o) (fault o) (S (ops o)) (clock o) (readings o) (gone o),
                 Err (mkIo OtherKind m))
    | None =>
        let '(f, r) := effect (file o) in
        (mkOs f (on_disk o) (fault o) (S (ops o)) (clock o) (readings o) (gone o), r)
    end.

Definition not_found : IoError := mkIo NotFound "No such file or directory (os error 2)".
Definition file_exists : IoError := mkIo AlreadyExists "File exists (os error 17)".
Definition not_utf8 : IoError := mkIo OtherKind "stream did not contain valid UTF-8".

(** A call on a directory. *)
Definition elsewhere : IO unit IoError := sys (fun f => (f, Ok tt)).
Definition metadata_len : IO Z IoError := sys (fun f =>
  (f, match f with Some c => Ok (contents_len c) | None => Err not_found end)).
Definition read_to_string : IO string IoError := sys (fun f =>
  (f, match f with
      | Some (Text t) => Ok t
      | Some (Binary _) => Err not_utf8
      | None => Err not_found
      end)).
Definition remove_file : IO unit IoError := sys (fun f =>
  (None, match f with Some _ => Ok tt | None => Err not_found end)).
(** [tempfile::NamedTempFile]: a file of its own, at a name nobody else knows.
    [bytes] is what the file holds and [synced] what of it is on the disk.  A
    [std::fs::File] keeps no bytes back, so that [flush] has none to hand over.
    A call that fails ends the function, and the file is deleted when it is
    dropped: what it then holds does not matter. *)
Record NamedTempFile := mkTemp { bytes : string; synced : string }.

Definition on_temp (t : NamedTempFile) : IO NamedTempFile IoError := sys (fun f => (f, Ok t)).
Definition new_in : IO NamedTempFile IoError := on_temp (mkTemp "" "").
Definition write_all (data : string) (t : NamedTempFile) : IO NamedTempFile IoError :=
  on_temp (mkTemp (bytes t +:+ data) (synced t)).
Definition flush (t : NamedTempFile) : IO NamedTempFile IoError := on_temp t.
Definition sync_all (t : NamedTempFile) : IO NamedTempFile IoError := on_temp (mkTemp (bytes t) (bytes t)).

(** The temporary file takes the path: what it holds is then there, on the disk
    as far as it was synced. *)
Definition install (t : NamedTempFile) (call : IO unit IoError) : IO unit IoError := fun o =>
  match call o with
  | (o', Ok _) => (with_on_disk (bool_decide (synced t = bytes t)) o', Ok tt)
  | (o', Err e) => (o', Err e)
  end.
(** [NamedTempFile::persist_noclobber] and [persist]: link and rename. *)
Definition persist_noclobber (t : NamedTempFile) : IO unit IoError := install t (sys (fun f =>
  match f with
  | Some c => (Some c, Err file_exists)
  | None => (Some (Text (bytes t)), Ok tt)
  end)).
Definition persist (t : NamedTempFile) : IO unit IoError :=
  install t (sys (fun _ => (Some (Text (bytes t)), Ok tt))).
(** [path.exists()]: false when the call fails. *)
Definition exists_ : IO bool PersistenceError :=
  try! r <- metadata_len in pure (match r with Ok _ => true | Err _ => false end).
Definition now {E} : IO Z E := fun o =>
  (mkOs (file o) (on_disk o) (fault o) (ops o) (clock o) (S (readings o)) (gone o), Ok (clock o (readings o))).

(** ** Atomic writes ([fs.rs]) *)

Definition write_failed (what : string) (e : IoError) : PersistenceError :=
  AtomicWriteFailed ("failed to " +:+ what +:+ ": " +:+ io_message e).

Definition fsync_parent_dir : IO unit PersistenceError :=
  do! _ <- map_err_io (write_failed "open parent dir for fsync") elsewhere in
  map_err_io (write_failed "fsync parent dir") elsewhere.

Definition atomic_write_bytes (data : string) : IO unit PersistenceError :=
  do! _ <- map_err_io Io elsewhere in
  do! temp <- map_err_io (write_failed "create temp file") new_in in
  do! temp <- map_err_io (write_failed "write temp file") (write_all data temp) in
  do! temp <- map_err_io (write_failed "flush temp file") (flush temp) in
  do! temp <- map_err_io (write_failed "fsync temp file") (sync_all temp) in
  do! _ <- map_err_io (write_failed "persist temp file") (persist temp) in
  fsync_parent_dir.

Definition atomic_write_text (content : string) : IO unit PersistenceError :=
  atomic_write_bytes content.

(** ** Lemmas on the calls *)

(** [m] leaves alone what [obs] observes. *)
Definition keeps {X A E} (obs : Os -> X) (m : IO A E) : Prop :=
  forall o o' r, m o = (o', r) -> obs o' = obs o.
(** [m] leaves the path alone. *)
Abbreviation quiet := (keeps file).

Lemma quiet_sys {A} (answer : option Contents -> result A IoError) : quiet (sys (fun f => (f, answer f))).
Proof. intros o o' r. unfold sys. destruct (fault _ _); by intros [= <- _]. Qed.

Lemma sys_keeps_fault {A} (effect : option Contents -> option Contents * result A IoError) :
  keeps fault (sys effect).
Proof.
  intros o o' r. unfold sys. destruct (fault _ _); [by intros [= <- _]|].
  destruct (effect _); by intros [= <- _].
Qed.

Section Keeps.
Context {X : Type} (obs : Os -> X).

Lemma keeps_lift {A E} (r : result A E) : keeps obs (lift r).
Proof. intros o o' r'. by intros [= <- _]. Qed.

Lemma keeps_map_err {A E F} (f : E -> F) (m : IO A E) : keeps obs m -> keeps obs (map_err_io f m).
Proof.
  intros Hm o o' r. unfold map_err_io. destruct (m o) as [o1 r1] eqn:E1. intros [= <- _]. by eapply Hm.
Qed.

Lemma keeps_bind {A B E} (m : IO A E) (k : A -> IO B E) :
  keeps obs m -> (forall a, keeps obs (k a)) -> keeps obs (bind m k).
Proof.
  intros Hm Hk o o' r. unfold bind. destruct (m o) as [o1 [a|e]] eqn:E1.
  - intros H. rewrite (Hk _ _ _ _ H). by eapply Hm.
  - intros [= <- _]. by eapply Hm.
Qed.

Lemma keeps_attempt {A B E E'} (m : IO A E) (k : result A E -> IO B E') :
  keeps obs m -> (forall a, keeps obs (k a)) -> keeps obs (attempt m k).
Proof.
  intros Hm Hk o o' r. unfold attempt. destruct (m o) as [o1 r1] eqn:E1.
  intros H. rewrite (Hk _ _ _ _ H). by eapply Hm.
Qed.
End Keeps.

Lemma now_keeps_file {E} : quiet (now (E := E)).
Proof. intros o o' r. by intros [= <- _]. Qed.
Lemma now_keeps_fault {E} : keeps fault (now (E := E)).
Proof. intros o o' r. by intros [= <- _]. Qed.
Lemma quiet_elsewhere : quiet elsewhere.
Proof. apply (quiet_sys (fun _ => Ok tt)). Qed.

Lemma quiet_on_temp t : quiet (on_temp t).
Proof. apply (quiet_sys (fun _ => Ok t)). Qed.

Lemma install_keeps_fault t call : keeps fault call -> keeps fault (install t call).
Proof.
  intros Hc o o' r. unfold install. destruct (call o) as [o1 [[]|e]] eqn:E; intros [= <- _]; by apply Hc in E.
Qed.

Lemma quiet_metadata_len : quiet metadata_len.
Proof. apply (quiet_sys (fun f => match f with Some c => Ok (contents_len c) | None => Err not_found end)). Qed.
Lemma quiet_read_to_string : quiet read_to_string.
Proof. intros o o' r. apply quiet_sys. Qed.

Create HintDb keeps.
#[export] Hint Resolve quiet_elsewhere quiet_on_temp install_keeps_fault quiet_sys sys_keeps_fault now_keeps_file now_keeps_fault keeps_lift
  keeps_map_err keeps_bind keeps_attempt : keeps.
#[export] Hint Extern 1 (keeps _ (pure _)) => exact (keeps_lift _ (Ok _)) : keeps.
#[export] Hint Extern 1 (keeps _ (throw _)) => exact (keeps_lift _ (Err _)) : keeps.
#[export] Hint Extern 2 (keeps _ (if ?b then _ else _)) => destruct b : keeps.
#[export] Hint Extern 2 (keeps _ (match ?b with _ => _ end)) => destruct b : keeps.

Lemma remove_file_cases o o' r :
  remove_file o = (o', r) -> file o' = None \/ (file o' = file o /\ exists m, r = Err (mkIo OtherKind m)).
Proof.
  unfold remove_file, sys. destruct (fault _ _); intros [= <- <-]; simpl; eauto.
Qed.

Lemma persist_noclobber_cases t o o' r :
  persist_noclobber t o = (o', r) ->
  match r with Ok _ => file o = None /\ file o' = Some (Text (bytes t)) | Err _ => file o' = file o end.
Proof.
  unfold persist_noclobber, install, sys. destruct (fault o _); [by intros [= <- <-]|].
  destruct (file o); by intros [= <- <-].
Qed.

Lemma on_temp_inv t o o' r : on_temp t o = (o', r) -> file o' = file o /\ forall t', r = Ok t' -> t' = t.
Proof. unfold on_temp, sys. destruct (fault _ _); intros [= <- <-]; (split; [done|]); intros; congruence. Qed.

(** ** Atomic writes are all or nothing *)

Lemma bind_inv {A B E} (m : IO A E) (k : A -> IO B E) o o' r :
  bind m k o = (o', r) ->
  (exists e, m o = (o', Err e) /\ r = Err e) \/ (exists o1 a, m o = (o1, Ok a) /\ k a o1 = (o', r)).
Proof.
  unfold bind. destruct (m o) as [o1 [a|e]]; [intros H; right; eauto|intros [= <- <-]; left; eauto].
Qed.

Lemma map_err_inv {A E F} (f : E -> F) (m : IO A E) o o' r :
  map_err_io f m o = (o', r) -> exists r0, m o = (o', r0) /\ r = map_err f r0.
Proof. unfold map_err_io. destruct (m o) as [o1 r1]. intros [= <- <-]. eauto. Qed.

(** No call fails for a reason of its own. *)
Definition works (o : Os) : Prop := forall n, fault o n = None.

Lemma keeps_works {A E} (m : IO A E) o o' r : keeps fault m -> works o -> m o = (o', r) -> works o'.
Proof. intros Hk Hw H n. by rewrite (Hk _ _ _ H). Qed.

(** [o'] comes after [o]: no faults, the same clock and the same processes. *)
Record calm (o o' : Os) : Prop := {
  calm_works : works o';
  calm_gone : gone o' = gone o;
  calm_clock : clock o' = clock o;
  calm_readings : readings o' = readings o;
}.

Lemma calm_trans o o1 o2 : calm o o1 -> calm o1 o2 -> calm o o2.
Proof. intros [] []. split; congruence. Qed.

Lemma sys_works {A} (effect : option Contents -> option Contents * result A IoError) o :
  works o ->
  exists o', sys effect o = (o', snd (effect (file o)))
    /\ file o' = fst (effect (file o)) /\ calm o o'.
Proof.
  intros Hw. unfold sys. rewrite (Hw _). destruct (effect (file o)) as [f r]. by eexists.
Qed.

Lemma atomic_write_works data o :
  works o -> exists o', atomic_write_bytes data o = (o', Ok tt) /\ file o' = Some (Text data) /\ calm o o'.
Proof.
  intros Hw. unfold atomic_write_bytes, fsync_parent_dir, bind, map_err_io, elsewhere, persist, install, sync_all,
    flush, write_all, new_in, on_temp, sys.
  repeat (rewrite Hw; simpl). by eexists.
Qed.

(** The calls of an atomic write, in order, each with the error its failure is
    turned into; the sixth is the rename. *)
Definition write_calls : list (IoError -> PersistenceError) :=
  [Io; write_failed "create temp file"; write_failed "write temp file"; write_failed "flush temp file";
   write_failed "fsync temp file"; write_failed "persist temp file";
   write_failed "open parent dir for fsync"; write_failed "fsync parent dir"].

(** The [k]-th call from [o] on is the first that fails, with the reason [m]. *)
Definition first_fault (o : Os) (k : nat) (m : string) : Prop :=
  fault o (k + ops o) = Some m /\ forall j, (j < k)%nat -> fault o (j + ops o) = None.

(** The path holds [data], all of it and nothing else, and all of it is on the disk. *)
Definition in_place (data : string) (o : Os) : Prop := file o = Some (Text data) /\ on_disk o = true.
(** The path is as it was. *)
Definition untouched (o o' : Os) : Prop := file o' = file o /\ on_disk o' = on_disk o.

Lemma in_place_after data o : file o = Some (Text data) -> on_disk o = bool_decide (data = data) -> in_place data o.
Proof. intros ? E. split; [done|]. rewrite E. by apply bool_decide_eq_true. Qed.

(** One case of the eight: the [k]-th call is the first that fails. *)
Ltac stops_at k :=
  exists k; do 2 eexists; split_and!;
  [split; [eassumption|]; intros j Hj; repeat (destruct j as [|j]; [done|]); lia
  |reflexivity|reflexivity|reflexivity|first [done|by apply in_place_after]].

(** C36: An atomic write, whichever call fails.  It succeeds exactly when none
    of its eight calls fails, and then the path holds the new bytes, all of them
    and nothing else, synced to the disk before the rename put them there.
    Otherwise the error is that of the first call that fails, with its reason,
    and the calls after it are not made: when that is the directory's creation,
    the temporary file's creation, write, flush or sync, or the rename, the path
    is as it was; when it is the opening or the sync of the parent directory,
    the new bytes are in place, whole and synced, although the caller is told
    that the write failed. *)
Theorem atomic_write_all_or_nothing data o o' r :
  atomic_write_bytes data o = (o', r) ->
  (forall k, (k < length write_calls)%nat -> fault o (k + ops o) = None) /\ r = Ok tt /\ in_place data o'
  \/ exists k m err, first_fault o k m /\ write_calls !! k = Some err /\ r = Err (err (mkIo OtherKind m))
       /\ ops o' = (S k + ops o)%nat
       /\ if (k <? 6)%nat then untouched o o' else in_place data o'.
Proof.
  unfold atomic_write_bytes, fsync_parent_dir, bind, map_err_io, elsewhere, persist, install, sync_all,
    flush, write_all, new_in, on_temp, sys. simpl.
  repeat match goal with
  | |- context [match fault o ?n with _ => _ end] => destruct (fault o n) eqn:?; simpl
  end; intros [= <- <-].
  9:{ left. split_and!; [|done|by apply in_place_after]. intros k Hk. do 8 (destruct k as [|k]; [done|]). simpl in Hk. lia. }
  all: right.
  - stops_at 0%nat.
  - stops_at 1%nat.
  - stops_at 2%nat.
  - stops_at 3%nat.
  - stops_at 4%nat.
  - stops_at 5%nat.
  - stops_at 6%nat.
  - stops_at 7%nat.
Qed.

(** ** The lock ([lock.rs]) *)

Definition NANOS_PER_SEC : Z := 1000000000.
Definition DEFAULT_LOCK_TTL : Z := 15 * 60 * NANOS_PER_SEC.
Definition DEFAULT_LOCK_FILENAME : string := "collector.lock".
Definition MAX_ACQUIRE_ATTEMPTS : nat := 3.
Definition MAX_LOCK_FILE_BYTES : Z := 1048576.

Record LockMetadata := mkMetadata {
  run_id : string;
  pid : Z;
  hostname : string;
  created_at : Z;
}.

#[global] Instance LockMetadata_eq_dec : EqDecision LockMetadata.
Proof. solve_decision. Defined.

Record RunLock := mkLock { metadata : LockMetadata }.

(** The process a call runs in. *)
Record Process := mkProcess { current_hostname : string; process_id : Z }.

Inductive ReclaimReason := TtlExpired | DeadHolderSameHost.
Definition ReclaimReason_as_str (r : ReclaimReason) : string :=
  match r with
  | TtlExpired => "ttl-expired"
  | DeadHolderSameHost => "dead-holder-same-host"
  end.

Section Lock.
(** Serde's JSON on the metadata, and jiff's rendering of a timestamp. *)
Context (to_string_pretty : LockMetadata -> result string string).
Context (from_str : string -> result LockMetadata string).
Context (show_timestamp : Z -> string).

Definition current_with_clock (p : Process) (run : string) : IO LockMetadata PersistenceError :=
  do! t <- now in pure (mkMetadata run (process_id p) (current_hostname p) t).

Definition serialize (m : LockMetadata) : result string PersistenceError :=
  map_err (fun e => LockFailed ("failed to serialize lock metadata: " +:+ e)) (to_string_pretty m).

Definition renew_with_clock (l : RunLock) : IO RunLock PersistenceError :=
  do! t <- now in
  let refreshed := mkMetadata (run_id (metadata l)) (pid (metadata l)) (hostname (metadata l)) t in
  do! json <- lift (serialize refreshed) in
  do! _ <- atomic_write_text json in
  pure (mkLock refreshed).

Definition delete_lock_file : IO unit PersistenceError :=
  try! r <- remove_file in
  match r with
  | Ok _ => pure tt
  | Err e => match io_kind e with NotFound => pure tt | _ => throw (Io e) end
  end.

(** [Drop]: a failure is logged. *)
Definition drop_lock {E} : IO unit E := try! _ <- remove_file in pure tt.

(** [release(self)] deletes the file; the guard is then dropped. *)
Definition release : IO unit PersistenceError :=
  try! r <- delete_lock_file in
  do! _ <- drop_lock in
  lift r.

Definition read_lock : IO LockMetadata PersistenceError :=
  do! len <- map_err_io Io metadata_len in
  if MAX_LOCK_FILE_BYTES <? len then
    throw (LockFailed ("lock file too large: " +:+ show_Z len +:+ " bytes (max "
                       +:+ show_Z MAX_LOCK_FILE_BYTES +:+ ")"))
  else
    do! content <- map_err_io Io read_to_string in
    lift (map_err (fun e => LockFailed ("lock file is corrupt: " +:+ e)) (from_str content)).

(** The previous holder is only logged; a failed removal too. *)
Definition force_remove_lock : IO unit PersistenceError :=
  try! _ <- read_lock in
  try! _ <- remove_file in
  pure tt.

(** [i32::try_from], [Pid::from_raw], then [kill(pid, 0)]. *)
Definition pid_is_alive (host : string) (raw : Z) (o : Os) : bool :=
  if 2 ^ 31 - 1 <? raw then true
  else if raw =? 0 then true
  else negb (gone o host raw).

Definition same_host_dead_holder (p : Process) (m : LockMetadata) (o : Os) : bool :=
  negb (bool_decide (hostname m = ""))
  && bool_decide (hostname m = current_hostname p)
  && negb (pid_is_alive (current_hostname p) (pid m) o).

(** [SignedDuration::try_from(ttl)] fails when the seconds exceed [i64]. *)
Definition signed_ttl (ttl : Z) : Z :=
  if ttl / NANOS_PER_SEC <=? I64_MAX then ttl else DEFAULT_LOCK_TTL.

Definition ttl_expired (m : LockMetadata) (ttl : Z) (at_ : Z) : bool :=
  signed_ttl ttl <? at_ - created_at m.

Definition reclaim_reason (p : Process) (m : LockMetadata) (ttl : Z)
    : IO (option ReclaimReason) PersistenceError := fun o =>
  if same_host_dead_holder p m o then (o, Ok (Some DeadHolderSameHost))
  else (do! t <- now in
        pure (if ttl_expired m ttl t then Some TtlExpired else None)) o.

Definition create_lock_exclusive (m : LockMetadata) : IO unit IoError :=
  do! json <- lift (map_err (mkIo OtherKind) (to_string_pretty m)) in
  do! tmp <- new_in in
  do! tmp <- write_all json tmp in
  do! tmp <- sync_all tmp in
  persist_noclobber tmp.

Definition held_by (existing : LockMetadata) : PersistenceError :=
  LockFailed ("lock held by run " +:+ run_id existing +:+ " (pid " +:+ show_Z (pid existing)
              +:+ ", since " +:+ show_timestamp (created_at existing) +:+ ")").

Definition create_failed (e : IoError) : PersistenceError :=
  LockFailed ("failed to create lock file: " +:+ io_message e).

Definition too_many_attempts : PersistenceError :=
  LockFailed "lock acquisition failed after max retries (concurrent stale-lock race)".

(** The file was there: reclaim it, fail, or remove what cannot be read. *)
Definition examine (p : Process) (stale_ttl : Z) (retry : IO RunLock PersistenceError)
    : IO RunLock PersistenceError :=
  try! read <- read_lock in
  match read with
  | Ok existing =>
      do! reason <- reclaim_reason p existing stale_ttl in
      match reason with
      | Some _ => try! _ <- remove_file in retry
      | None => throw (held_by existing)
      end
  | Err _ =>
      try! stat <- metadata_len in
      match stat with
      | Err (mkIo NotFound _) => retry
      | _ => try! _ <- remove_file in retry
      end
  end.

(** The attempts that are left. *)
Fixpoint acquire_loop (attempts : nat) (p : Process) (m : LockMetadata) (stale_ttl : Z)
    : IO RunLock PersistenceError :=
  match attempts with
  | O => throw too_many_attempts
  | S attempts' =>
      try! created <- create_lock_exclusive m in
      match created with
      | Ok _ => pure (mkLock m)
      | Err e =>
          match io_kind e with
          | AlreadyExists => examine p stale_ttl (acquire_loop attempts' p m stale_ttl)
          | _ => throw (create_failed e)
          end
      end
  end.

Definition acquire_with_clock (p : Process) (run : string) (stale_ttl : Z) (force : bool)
    : IO RunLock PersistenceError :=
  do! _ <- map_err_io Io elsewhere in
  do! present <- (if force then exists_ else pure false) in
  do! _ <- (if (present : bool) then force_remove_lock else pure tt) in
  do! m <- current_with_clock p run in
  acquire_loop MAX_ACQUIRE_ATTEMPTS p m stale_ttl.

(** ** Interleaved acquisition

    [acquire] as the calls it makes, one step each, so that other processes can
    act in between.  The calls on a process's own temporary file are part of the
    step that publishes it. *)

Record Job := mkJob {
  job_process : Process;
  job_run : string;
  job_ttl : Z;
  job_force : bool;
}.

Inductive Pc :=
| AtDir
| AtExists
| AtForceStat
| AtForceRead
| AtForceRemove
| AtClock
| AtCreate (attempts : nat) (m : LockMetadata)
| AtStat (attempts : nat) (m : LockMetadata)
| AtRead (attempts : nat) (m : LockMetadata)
| AtJudge (attempts : nat) (m existing : LockMetadata)
| AtStatAgain (attempts : nat) (m : LockMetadata)
| AtRemove (attempts : nat) (m : LockMetadata)
| Done (r : result RunLock PersistenceError)
| Dropping
| Over.

(** The next step of a call that is not [Done]; the last two are those of
    [release] and of the drop that follows it. *)
Definition pstep (j : Job) (pc : Pc) (o : Os) : Os * Pc :=
  match pc with
  | AtDir =>
      match elsewhere o with
      | (o', Ok _) => (o', if job_force j then AtExists else AtClock)
      | (o', Err e) => (o', Done (Err (Io e)))
      end
  | AtExists =>
      match metadata_len o with
      | (o', Ok _) => (o', AtForceStat)
      | (o', Err _) => (o', AtClock)
      end
  | AtForceStat =>
      match metadata_len o with
      | (o', Ok len) => (o', if MAX_LOCK_FILE_BYTES <? len then AtForceRemove else AtForceRead)
      | (o', Err _) => (o', AtForceRemove)
      end
  | AtForceRead => (fst (read_to_string o), AtForceRemove)
  | AtForceRemove => (fst (remove_file o), AtClock)
  | AtClock =>
      match current_with_clock (job_process j) (job_run j) o with
      | (o', Ok m) => (o', AtCreate MAX_ACQUIRE_ATTEMPTS m)
      | (o', Err e) => (o', Done (Err e))
      end
  | AtCreate O _ => (o, Done (Err too_many_attempts))
  | AtCreate (S n) m =>
      match create_lock_exclusive m o with
      | (o', Ok _) => (o', Done (Ok (mkLock m)))
      | (o', Err e) =>
          (o', match io_kind e with AlreadyExists => AtStat n m | _ => Done (Err (create_failed e)) end)
      end
  | AtStat n m =>
      match metadata_len o with
      | (o', Ok len) => (o', if MAX_LOCK_FILE_BYTES <? len then AtStatAgain n m else AtRead n m)
      | (o', Err _) => (o', AtStatAgain n m)
      end
  | AtRead n m =>
      match read_to_string o with
      | (o', Ok content) =>
          (o', match from_str content with Ok existing => AtJudge n m existing | Err _ => AtStatAgain n m end)
      | (o', Err _) => (o', AtStatAgain n m)
      end
  | AtJudge n m existing =>
      match reclaim_reason (job_process j) existing (job_ttl j) o with
      | (o', Ok (Some _)) => (o', AtRemove n m)
      | (o', Ok None) => (o', Done (Err (held_by existing)))
      | (o', Err e) => (o', Done (Err e))
      end
  | AtStatAgain n m =>
      match metadata_len o with
      | (o', Err (mkIo NotFound _)) => (o', AtCreate n m)
      | (o', _) => (o', AtRemove n m)
      end
  | AtRemove n m => (fst (remove_file o), AtCreate n m)
  | Done _ => (fst (delete_lock_file o), Dropping)
  | Dropping => (fst (drop_lock (E := unit) o), Over)
  | Over => (o, Over)
  end.

(** Processes that acquire and release at the path.  [owner] is the holder whose
    file is there; [robbed] collects the holders whose file another process
    took away. *)
Record System := mkSystem {
  os : Os;
  calls : gmap nat (Job * Pc);
  owner : option nat;
  robbed : gset nat;
}.

Definition holds (y : System) (i : nat) (l : RunLock) : Prop :=
  exists j, calls y !! i = Some (j, Done (Ok l)).

(** What a step of process [i] does to the ownership of the file. *)
Definition took (y : System) (i : nat) : gset nat :=
  match owner y with
  | Some k => if bool_decide (k = i) then robbed y else {[ k ]} ∪ robbed y
  | None => robbed y
  end.

Definition account (y : System) (i : nat) (j : Job) (pc pc' : Pc) (o' : Os) : System :=
  match pc, pc' with
  | AtCreate _ _, Done (Ok _) => mkSystem o' (<[i := (j, pc')]> (calls y)) (Some i) (robbed y)
  | (AtForceRemove | AtRemove _ _ | Done _ | Dropping), _ =>
      mkSystem o' (<[i := (j, pc')]> (calls y))
        (if bool_decide (owner y = Some i) then None
         else match file o' with None => None | Some _ => owner y end)
        (match file o' with None => took y i | Some _ => robbed y end)
  | _, _ => mkSystem o' (<[i := (j, pc')]> (calls y)) (owner y) (robbed y)
  end.

Inductive sys_step (y : System) : System -> Prop :=
| sys_start i j : calls y !! i = None ->
    sys_step y (mkSystem (os y) (<[i := (j, AtDir)]> (calls y)) (owner y) (robbed y))
| sys_advance i j pc o' pc' :
    calls y !! i = Some (j, pc) -> (forall e, pc <> Done (Err e)) -> pstep j pc (os y) = (o', pc') ->
    sys_step y (account y i j pc pc' o').

(** ** Acquisition *)

Lemma create_exclusive_inv m o o' r :
  create_lock_exclusive m o = (o', r) ->
  match r with
  | Ok _ => exists json, to_string_pretty m = Ok json /\ file o = None /\ file o' = Some (Text json)
  | Err e => file o' = file o
  end.
Proof using Type.
  unfold create_lock_exclusive. intros H.
  apply bind_inv in H as [(e&H&->)|(o0&json&H&Hk)].
  { by apply (keeps_lift file) in H. }
  injection H as <- Hj. destruct (to_string_pretty m) as [json'|] eqn:Ej; simplify_eq/=.
  do 3 (apply bind_inv in Hk as [(?&[? _]%on_temp_inv&->)|(?&t&[? Ht]%on_temp_inv&Hk)];
        [congruence|specialize (Ht t eq_refl); subst t]).
  apply persist_noclobber_cases in Hk. destruct r as [u|e]; [|congruence].
  exists json. destruct Hk. split_and!; [done|congruence|done].
Qed.

Lemma create_exclusive_works m json o :
  works o -> to_string_pretty m = Ok json ->
  exists o', create_lock_exclusive m o = (o', match file o with None => Ok tt | Some _ => Err file_exists end)
    /\ file o' = Some (default (Text json) (file o)) /\ calm o o'.
Proof using Type.
  intros Hw Hj. unfold create_lock_exclusive, bind, lift. rewrite Hj. simpl.
  unfold new_in, write_all, sync_all, on_temp, persist_noclobber, install, sys. repeat (rewrite Hw; simpl).
  destruct (file o); by eexists.
Qed.

(** What can be read at the path. *)
Definition readable (f : option Contents) : option LockMetadata :=
  match f with
  | Some (Text t) =>
      if MAX_LOCK_FILE_BYTES <? contents_len (Text t) then None
      else match from_str t with Ok m => Some m | Err _ => None end
  | _ => None
  end.

Lemma read_lock_works o :
  works o ->
  exists o' r, read_lock o = (o', r) /\ file o' = file o /\ calm o o'
    /\ match readable (file o) with Some m => r = Ok m | None => exists e, r = Err e end.
Proof using Type.
  intros Hw. unfold read_lock, bind, map_err_io, metadata_len, read_to_string, lift, throw, sys.
  rewrite Hw. unfold readable. destruct (file o) as [[t|n]|] eqn:Hf; simpl.
  - destruct (_ <? _); [by repeat eexists|]. simpl. rewrite Hw. simpl.
    destruct (from_str t); by repeat eexists.
  - destruct (_ <? _); [by repeat eexists|]. simpl. rewrite Hw. simpl. by repeat eexists.
  - by repeat eexists.
Qed.

(** Whether [p] may take over the lock [m] at time [t]. *)
Definition reclaimable (p : Process) (m : LockMetadata) (ttl : Z) (o : Os) (t : Z) : bool :=
  same_host_dead_holder p m o || ttl_expired m ttl t.

Lemma acquire_loop_free n p m json ttl o :
  works o -> to_string_pretty m = Ok json -> file o = None ->
  exists o', acquire_loop (S n) p m ttl o = (o', Ok (mkLock m)) /\ file o' = Some (Text json).
Proof using Type.
  intros Hw Hj Hf. simpl. unfold attempt.
  destruct (create_exclusive_works m json o Hw Hj) as (o1&->&Hf1&_). rewrite Hf in *. by exists o1.
Qed.

Lemma examine_works p ttl retry o c :
  works o -> file o = Some c ->
  match readable (file o) with
  | Some ex =>
      if reclaimable p ex ttl o (clock o (readings o))
      then exists o', examine p ttl retry o = retry o' /\ file o' = None /\ works o'
      else exists o', examine p ttl retry o = (o', Err (held_by ex)) /\ file o' = file o
  | None => exists o', examine p ttl retry o = retry o' /\ file o' = None /\ works o'
  end.
Proof using Type.
  intros Hw Hf. destruct (read_lock_works o Hw) as (o1&r1&Hread&Hf1&[Hw1 Hg1 Hk1 Hr1]&Hr).
  assert (Hrm : forall o2, works o2 ->
    exists o', (try! _ <- remove_file in retry) o2 = retry o' /\ file o' = None /\ works o').
  { intros o2 Hw2. unfold attempt, remove_file, sys. rewrite Hw2. by eexists. }
  assert (Hdead : forall ex, same_host_dead_holder p ex o = same_host_dead_holder p ex o1).
  { intros ex. unfold same_host_dead_holder, pid_is_alive. by rewrite Hg1. }
  unfold examine. unfold reclaimable.
  destruct (readable (file o)) as [ex|]; [|destruct Hr as [e ->]].
  - rewrite Hdead. destruct (same_host_dead_holder p ex o1) eqn:Hd; simpl.
    { unfold attempt at 1, bind, reclaim_reason. rewrite Hread, Hr, Hd. by apply Hrm. }
    destruct (ttl_expired _ _ _) eqn:Ht; unfold attempt at 1, bind at 1, reclaim_reason;
      rewrite Hread, Hr, Hd; unfold bind, now, pure; rewrite Hk1, Hr1, Ht.
    + by apply Hrm.
    + by eexists.
  - unfold attempt at 1. rewrite Hread. unfold attempt at 1, metadata_len, sys.
    rewrite Hw1, Hf1, Hf. by apply Hrm.
Qed.

Lemma acquire_loop_works n p m json ttl o :
  works o -> to_string_pretty m = Ok json ->
  exists o' r, acquire_loop (S (S n)) p m ttl o = (o', r)
    /\ r = match readable (file o) with
           | Some ex => if reclaimable p ex ttl o (clock o (readings o)) then Ok (mkLock m) else Err (held_by ex)
           | None => Ok (mkLock m)
           end
    /\ file o' = match r with Ok _ => Some (Text json) | Err _ => file o end.
Proof using Type.
  intros Hw Hj. destruct (file o) as [c|] eqn:Hf.
  2:{ destruct (acquire_loop_free (S n) p m json ttl o Hw Hj Hf) as (o1&->&Hf1). by do 2 eexists. }
  cbn [acquire_loop]. unfold attempt at 1.
  destruct (create_exclusive_works m json o Hw Hj) as (o1&->&Hf1&[Hw1 Hg1 Hk1 Hr1]). rewrite Hf in *.
  simpl in Hf1. cbn [io_kind file_exists].
  pose proof (examine_works p ttl (acquire_loop (S n) p m ttl) o1 c Hw1 Hf1) as He.
  assert (Hfree : forall o2, file o2 = None -> works o2 ->
    exists o' r, acquire_loop (S n) p m ttl o2 = (o', r) /\ r = Ok (mkLock m) /\ file o' = Some (Text json)).
  { intros o2 Hf2 Hw2. destruct (acquire_loop_free n p m json ttl o2 Hw2 Hj Hf2) as (o3&?&?). eauto. }
  cbn [acquire_loop] in *. rewrite Hf1, Hk1, Hr1 in He.
  unfold reclaimable, same_host_dead_holder, pid_is_alive in *. rewrite Hg1 in He.
  destruct (readable (Some c)) as [ex|]; [destruct (_ || _)|].
  - destruct He as (o2&->&Hf2&Hw2). destruct (Hfree o2 Hf2 Hw2) as (o3&r&->&->&Hf3). by do 2 eexists.
  - destruct He as (o2&->&Hf2). by do 2 eexists.
  - destruct He as (o2&->&Hf2&Hw2). destruct (Hfree o2 Hf2 Hw2) as (o3&r&->&->&Hf3). by do 2 eexists.
Qed.

(** The metadata a call writes, and when it looks at an existing lock. *)
Definition written (p : Process) (run : string) (o : Os) : LockMetadata :=
  mkMetadata run (process_id p) (current_hostname p) (clock o (readings o)).
Definition judged_at (o : Os) : Z := clock o (S (readings o)).

(** What [acquire] answers when no call fails. *)
Definition acquire_answer (p : Process) (run : string) (ttl : Z) (force : bool) (o : Os)
    : result RunLock PersistenceError :=
  match (if force then None else readable (file o)) with
  | Some ex => if reclaimable p ex ttl o (judged_at o) then Ok (mkLock (written p run o)) else Err (held_by ex)
  | None => Ok (mkLock (written p run o))
  end.

Lemma force_remove_works o :
  works o -> exists o', force_remove_lock o = (o', Ok tt) /\ file o' = None /\ calm o o'.
Proof using Type.
  intros Hw. unfold force_remove_lock, attempt.
  destruct (read_lock_works o Hw) as (o1&r1&->&_&[Hw1 ???]&_).
  unfold remove_file, sys. rewrite Hw1. eexists. split_and!; [done..|]. by split.
Qed.

(** The part of [acquire] before the loop. *)
Lemma acquire_prefix p run ttl force o :
  works o ->
  exists o1, acquire_with_clock p run ttl force o = acquire_loop MAX_ACQUIRE_ATTEMPTS p (written p run o) ttl o1
    /\ works o1 /\ gone o1 = gone o /\ clock o1 = clock o /\ readings o1 = S (readings o)
    /\ file o1 = if force then None else file o.
Proof using Type.
  intros Hw. unfold acquire_with_clock, bind at 1, map_err_io, elsewhere, sys. rewrite Hw. simpl.
  destruct force; [|by eexists].
  unfold bind at 1, exists_, attempt, metadata_len, sys. simpl. rewrite Hw. simpl.
  destruct (file o) as [c|] eqn:Hf; simpl.
  - unfold bind at 1. set (o0 := mkOs (Some c) _ _ _ _ _ _).
    destruct (force_remove_works o0) as (o1&->&Hf1&[Hw1 Hg1 Hk1 Hr1]); [intros k; apply Hw|].
    unfold bind at 1, current_with_clock, bind at 1, now, pure. rewrite Hk1, Hr1. simpl. by eexists.
  - by eexists.
Qed.

(** Acquisition, when no call fails and nobody interferes: a lock that can be
    read and is neither expired nor held by a dead process of the same host is
    refused with its holder's identity and left alone; any other file (stale,
    oversized, not UTF-8, not a lock) is replaced, and so is every file when
    [force] is set.  Success leaves exactly the metadata of this process at the
    path. *)
Theorem acquire_outcome p run ttl force o json :
  works o -> to_string_pretty (written p run o) = Ok json ->
  exists o', acquire_with_clock p run ttl force o = (o', acquire_answer p run ttl force o)
    /\ file o' = match acquire_answer p run ttl force o with Ok _ => Some (Text json) | Err _ => file o end.
Proof using Type.
  intros Hw Hj. destruct (acquire_prefix p run ttl force o Hw) as (o1&->&Hw1&Hg1&Hk1&Hr1&Hf1).
  destruct (acquire_loop_works 1 p (written p run o) json ttl o1 Hw1 Hj) as (o2&r&Hl&->&Hf2).
  exists o2. unfold MAX_ACQUIRE_ATTEMPTS. rewrite Hl. unfold acquire_answer, judged_at.
  revert Hf2. unfold reclaimable, same_host_dead_holder, pid_is_alive. rewrite Hf1, Hg1, Hk1, Hr1.
  destruct force; simpl; [done|].
  destruct (readable (file o)) as [ex|]; [destruct (_ || _)|]; simpl; done.
Qed.

(** *** Calls that do not overlap *)

(** [holders] are the processes that were given the lock and have not given it
    up; [ousted] those of them whose file another process has since replaced or
    removed, which they are not told. *)
Record Site := mkSite { site_os : Os; holders : gmap nat RunLock; ousted : gset nat }.

(** A lock file with this metadata is small enough to be read back. *)
Definition small (m : LockMetadata) : Prop :=
  forall json, to_string_pretty m = Ok json -> Z.of_nat (String.length json) <= MAX_LOCK_FILE_BYTES.

(** The other holders, once [i] has written or removed the file. *)
Definition others (s : Site) (i : nat) : gset nat := dom (holders s) ∖ {[ i ]}.

(** The end of an acquisition by [i]: a forced one has removed the file whatever
    comes after. *)
Definition acquired (s : Site) (i : nat) (force : bool) (o' : Os) (r : result RunLock PersistenceError) : Site :=
  match r with
  | Ok l => mkSite o' (<[i := l]> (holders s)) (others s i)
  | Err _ => mkSite o' (holders s) (if force then dom (holders s) else ousted s)
  end.

Definition with_gone (g : string -> Z -> bool) (o : Os) : Os :=
  mkOs (file o) (on_disk o) (fault o) (ops o) (clock o) (readings o) g.

(** Whole calls, one after the other, with any arguments and by any process,
    those that were ousted included.  [call_crash] is the end of a process that
    leaves its file behind, and any change of the processes that are alive. *)
Inductive call (s : Site) : Site -> Prop :=
| call_acquire i p run ttl force o' r :
    holders s !! i = None ->
    acquire_with_clock p run ttl force (site_os s) = (o', r) ->
    call s (acquired s i force o' r)
| call_renew i l o' r :
    holders s !! i = Some l -> renew_with_clock l (site_os s) = (o', r) ->
    call s (match r with
            | Ok l' => mkSite o' (<[i := l']> (holders s)) (others s i)
            | Err _ => mkSite o' (holders s) (ousted s)
            end)
| call_release i l o' r :
    holders s !! i = Some l -> release (site_os s) = (o', r) ->
    call s (mkSite o' (delete i (holders s)) (others s i))
| call_drop i l o' r :
    holders s !! i = Some l -> drop_lock (E := unit) (site_os s) = (o', r) ->
    call s (mkSite o' (delete i (holders s)) (others s i))
| call_crash i g : call s (mkSite (with_gone g (site_os s)) (delete i (holders s)) (ousted s ∖ {[ i ]})).

(** An acquisition that may take the lock away from a holder: it is forced, or
    the holder's lock can be reclaimed by the caller, or the holder's file is
    too large to be read back. *)
Inductive seizes (s : Site) : Site -> Prop :=
| seizes_from k l i p run ttl force o' r :
    holders s !! k = Some l ->
    force = true \/ ~ small (metadata l)
      \/ reclaimable p (metadata l) ttl (site_os s) (judged_at (site_os s)) = true ->
    holders s !! i = None -> acquire_with_clock p run ttl force (site_os s) = (o', r) ->
    seizes s (acquired s i force o' r).

Lemma renew_keeps_fault l : keeps fault (renew_with_clock l).
Proof using Type.
  unfold renew_with_clock, atomic_write_text, atomic_write_bytes, fsync_parent_dir, elsewhere, new_in, write_all,
    flush, sync_all, on_temp, persist.
  auto 20 with keeps.
Qed.

Lemma read_lock_keeps_fault : keeps fault read_lock.
Proof using Type.
  unfold read_lock, metadata_len, read_to_string. apply keeps_bind; auto with keeps.
Qed.

Lemma create_keeps_fault m : keeps fault (create_lock_exclusive m).
Proof using Type. 
  unfold create_lock_exclusive, new_in, write_all, sync_all, on_temp, persist_noclobber. auto 12 with keeps.
 Qed.

Lemma reclaim_keeps_fault p m ttl : keeps fault (reclaim_reason p m ttl).
Proof using Type.
  intros o o' r. unfold reclaim_reason. destruct (same_host_dead_holder _ _ _); [by intros [= <- _]|].
  apply keeps_bind; auto with keeps.
Qed.

Lemma acquire_loop_keeps_fault n p m ttl : keeps fault (acquire_loop n p m ttl).
Proof using Type.
  induction n as [|n IH]; simpl; [auto with keeps|].
  apply keeps_attempt; [apply create_keeps_fault|]. intros [[]|e]; [auto with keeps|].
  destruct (io_kind e); [|auto with keeps..]. unfold examine, remove_file, metadata_len.
  apply keeps_attempt; [apply read_lock_keeps_fault|]. intros [ex|e'].
  - apply keeps_bind; [apply reclaim_keeps_fault|]. intros [reason|]; auto with keeps.
  - apply keeps_attempt; [auto with keeps|]. intros [len|[[] msg]]; auto with keeps.
Qed.

Lemma release_keeps_fault : keeps fault release.
Proof using Type. unfold release, delete_lock_file, drop_lock, remove_file. auto 10 with keeps. Qed.

Lemma drop_keeps_fault {E} : keeps fault (drop_lock (E := E)).
Proof using Type. unfold drop_lock, remove_file. auto 10 with keeps. Qed.

(** The file of [m] is at the path. *)
Definition at_path (m : LockMetadata) (o : Os) : Prop :=
  exists json, to_string_pretty m = Ok json /\ file o = Some (Text json).

(** [i] holds the lock and nobody took its file away. *)
Definition undisturbed (s : Site) (i : nat) (l : RunLock) : Prop :=
  holders s !! i = Some l /\ i ∉ ousted s.

(** No faults; at most one undisturbed holder, whose file is at the path. *)
Record SiteInv (s : Site) : Prop := {
  si_works : works (site_os s);
  si_one i k l l' : undisturbed s i l -> undisturbed s k l' -> i = k;
  si_path i l : undisturbed s i l -> at_path (metadata l) (site_os s);
}.

Lemma acquire_keeps_works p run ttl force o o' r :
  works o -> acquire_with_clock p run ttl force o = (o', r) -> works o'.
Proof using Type.
  intros Hw H. destruct (acquire_prefix p run ttl force o Hw) as (o1&Hp&Hw1&_). rewrite Hp in H.
  by eapply keeps_works; [apply acquire_loop_keeps_fault|..].
Qed.

(** A process that cannot serialise its metadata fails before it looks. *)
Lemma acquire_unserialisable p run ttl force o o' r e :
  works o -> to_string_pretty (written p run o) = Err e ->
  acquire_with_clock p run ttl force o = (o', r) ->
  file o' = (if force then None else file o) /\ exists e', r = Err e'.
Proof using Type.
  intros Hw He H. destruct (acquire_prefix p run ttl force o Hw) as (o1&Hp&_&_&_&_&Hf). rewrite Hp in H.
  unfold MAX_ACQUIRE_ATTEMPTS in H. simpl in H. unfold attempt, create_lock_exclusive, bind, lift in H.
  rewrite He in H. simpl in H. injection H as <- <-. eauto.
Qed.

(** What an acquisition leaves at the path. *)
Lemma acquire_path p run ttl force o o' r :
  works o -> acquire_with_clock p run ttl force o = (o', r) ->
  match r with
  | Ok l => at_path (metadata l) o' /\ acquire_answer p run ttl force o = Ok l
  | Err _ => force = false -> file o' = file o
  end.
Proof using Type.
  intros Hw H. destruct (to_string_pretty (written p run o)) as [json|e] eqn:Hj.
  - destruct (acquire_outcome p run ttl force o json Hw Hj) as (o2&Ha&Hf). rewrite Ha in H.
    injection H as <- <-. destruct (acquire_answer p run ttl force o) as [l|e] eqn:Hr; [|done].
    split; [|done]. exists json. split; [|done]. rewrite <- Hj. f_equal.
    revert Hr. unfold acquire_answer. repeat case_match; by intros [= <-].
  - destruct (acquire_unserialisable _ _ _ _ _ _ _ _ Hw Hj H) as [Hf [e' ->]]. by intros ->.
Qed.

(** What a renewal leaves there. *)
Lemma renew_path l o o' r :
  works o -> renew_with_clock l o = (o', r) ->
  match r with Ok l' => at_path (metadata l') o' | Err _ => file o' = file o end.
Proof using Type.
  intros Hw H. unfold renew_with_clock, bind at 1, now in H. simpl in H. unfold bind at 1, lift, serialize in H.
  destruct (to_string_pretty _) as [json|e] eqn:Hj; simpl in H; [|by injection H as <- <-].
  unfold bind, atomic_write_text in H. set (o1 := mkOs _ _ _ _ _ _ _) in H.
  destruct (atomic_write_works json o1) as (o2&Ha&Hf2&_); [done|]. rewrite Ha in H.
  injection H as <- <-. by exists json.
Qed.

Lemma others_not_undisturbed s o i : forall k l, ~ undisturbed (mkSite o (delete i (holders s)) (others s i)) k l.
Proof using Type.
  intros k l [Hk Hn]. cbn [holders ousted] in *. apply lookup_delete_Some in Hk as [Hne Hk].
  apply Hn. unfold others. apply elem_of_dom_2 in Hk. set_solver.
Qed.

Lemma inv_alone s : works (site_os s) -> (forall k l, ~ undisturbed s k l) -> SiteInv s.
Proof using Type. intros Hw Hn. split; [done|intros i k l l' Hi; by apply Hn in Hi|intros i l Hi; by apply Hn in Hi]. Qed.

(** [i] has just written its file. *)
Lemma inv_wrote s i l o' :
  works o' -> at_path (metadata l) o' -> SiteInv (mkSite o' (<[i := l]> (holders s)) (others s i)).
Proof using Type.
  intros Hw Hp. assert (Hu : forall k l', undisturbed (mkSite o' (<[i := l]> (holders s)) (others s i)) k l' ->
    k = i /\ l' = l).
  { intros k l' [Hk Hn]. cbn [holders ousted] in *. apply lookup_insert_Some in Hk as [[<- <-]|[Hne Hk]]; [done|].
    destruct Hn. unfold others. apply elem_of_dom_2 in Hk. set_solver. }
  split; [done| |].
  - intros k1 k2 l1 l2 [-> _]%Hu [-> _]%Hu. done.
  - intros k l' [-> ->]%Hu. done.
Qed.

(** Fewer undisturbed holders, and the path as it was. *)
Lemma inv_fewer s s' :
  SiteInv s -> works (site_os s') -> file (site_os s') = file (site_os s) ->
  (forall i l, undisturbed s' i l -> undisturbed s i l) -> SiteInv s'.
Proof using Type.
  intros [Hw H1 Hp] Hw' Hf Hu. split; [done|by eauto|]. intros i l Hi. destruct (Hp i l (Hu i l Hi)) as (json&?&?).
  exists json. by rewrite Hf.
Qed.

Lemma call_inv s s' : SiteInv s -> call s s' -> SiteInv s'.
Proof using Type.
  intros HI [i p run ttl force o' r Hi H|i l o' r Hi H|i l o' r Hi H|i l o' r Hi H|i g]; pose proof (si_works _ HI) as Hw.
  - pose proof (acquire_keeps_works _ _ _ _ _ _ _ Hw H) as Hw'. apply acquire_path in H; [|done].
    destruct r as [l|e]; cbn [acquired]; [by apply inv_wrote, H|]. destruct force.
    + apply inv_alone; [done|]. intros k l [Hk Hn]. cbn [holders ousted] in *. by apply elem_of_dom_2 in Hk.
    + apply (inv_fewer s); auto.
  - pose proof (keeps_works _ _ _ _ (renew_keeps_fault l) Hw H). apply renew_path in H; [|done].
    destruct r; [by apply inv_wrote|]. by apply (inv_fewer s).
  - apply inv_alone; [|apply others_not_undisturbed]. by eapply keeps_works; [apply release_keeps_fault|..].
  - apply inv_alone; [|apply others_not_undisturbed]. by eapply keeps_works; [apply drop_keeps_fault|..].
  - apply (inv_fewer s); [done..|]. intros k l [Hk Hn]. cbn [holders ousted] in *.
    apply lookup_delete_Some in Hk as [Hne Hk]. split; [done|]. set_solver.
Qed.

Section Serial.
Context (codec : forall m json, to_string_pretty m = Ok json -> from_str json = Ok m).

Lemma at_path_readable m o : at_path m o -> small m -> readable (file o) = Some m.
Proof using codec.
  intros (json&Hj&->) Hs. unfold readable. pose proof (Hs json Hj).
  simpl. rewrite (proj2 (Z.ltb_ge _ _)) by done. by rewrite (codec _ _ Hj).
Qed.

(** An acquisition that succeeds over an undisturbed holder. *)
Lemma acquire_over p run ttl force o m l :
  at_path m o -> acquire_answer p run ttl force o = Ok l ->
  force = true \/ ~ small m \/ reclaimable p m ttl o (judged_at o) = true.
Proof using codec.
  intros Hp Ha. destruct force; [by left|]. right. unfold acquire_answer in Ha.
  destruct (readable (file o)) as [ex|] eqn:Hr.
  - destruct Hp as (json&Hj&Hf). rewrite Hf in Hr. simpl in Hr. rewrite (codec _ _ Hj) in Hr.
    destruct (_ <? _) in Hr; [done|]. injection Hr as <-. right. by destruct (reclaimable _ _ _ _ _).
  - left. intros Hs. by rewrite (at_path_readable _ _ Hp Hs) in Hr.
Qed.

(** As long as nobody was ousted, a call ousts somebody only by seizing. *)
Lemma first_ousting s s' : SiteInv s -> ousted s = ∅ -> call s s' -> ousted s' = ∅ \/ seizes s s'.
Proof using codec.
  intros HI He Hc.
  assert (Hu : forall i l, holders s !! i = Some l -> undisturbed s i l) by (intros i l Hi; split; [done|set_solver]).
  assert (Hone : forall i l, holders s !! i = Some l -> others s i = ∅).
  { intros i l Hi. unfold others. apply set_eq. intros k. split; [|set_solver].
    intros [[l' Hk]%elem_of_dom Hne]%elem_of_difference. destruct Hne.
    rewrite (si_one _ HI i k l l') by auto. set_solver. }
  destruct Hc as [i p run ttl force o' r Hi H|i l o' r Hi H|i l o' r Hi H|i l o' r Hi H|i g]; cbn [ousted].
  - destruct (decide (holders s = ∅)) as [Hn|[k [l Hk]]%map_choose].
    { left. unfold acquired, others. rewrite Hn, dom_empty_L. destruct r, force; cbn [ousted]; set_solver. }
    pose proof (acquire_path _ _ _ _ _ _ _ (si_works _ HI) H) as Hp.
    destruct force; [right; by eapply seizes_from; eauto|]. destruct r as [l'|e]; [|by left].
    right. eapply seizes_from; eauto. apply (acquire_over p run ttl false _ (metadata l) l'); [|apply Hp].
    by apply (si_path _ HI k), Hu.
  - left. destruct r; cbn [ousted]; eauto.
  - left. eauto.
  - left. eauto.
  - left. set_solver.
Qed.

(** C34: The lock when calls do not overlap and no system call fails: any run of
    acquisitions, with any TTL and forced or not, renewals, releases, drops and
    crashes, from a path with any contents.  Among the holders that were not
    ousted (whose file no other process replaced or removed) there is at most
    one, and its file is at the path.  While it is small enough to be read back
    (1 MiB), an unforced acquisition by a process to which the lock is neither
    expired nor held by a dead process of the same host is refused with the
    holder's identity and changes nothing.  A forced one always succeeds, and its
    own file is then at the path.  No holder is ousted before such a forced
    acquisition, or one to which a holder's lock can be reclaimed or is too large
    to be read: until then at most one process holds the lock. *)
Theorem lock_exclusive_serial s0 s :
  works (site_os s0) -> holders s0 = ∅ -> ousted s0 = ∅ -> rtc call s0 s ->
  (forall i l, undisturbed s i l ->
     (forall k l', undisturbed s k l' -> k = i) /\ at_path (metadata l) (site_os s)
     /\ forall p run ttl json,
          to_string_pretty (written p run (site_os s)) = Ok json -> small (metadata l) ->
          reclaimable p (metadata l) ttl (site_os s) (judged_at (site_os s)) = false ->
          exists o', acquire_with_clock p run ttl false (site_os s) = (o', Err (held_by (metadata l)))
                     /\ file o' = file (site_os s))
  /\ (forall p run ttl json, to_string_pretty (written p run (site_os s)) = Ok json ->
       exists o', acquire_with_clock p run ttl true (site_os s) = (o', Ok (mkLock (written p run (site_os s))))
                  /\ file o' = Some (Text json))
  /\ (ousted s = ∅ \/ exists s1 s2, rtc call s0 s1 /\ seizes s1 s2 /\ rtc call s2 s).
Proof using codec.
  intros Hw Hh He Hrun.
  assert (HI0 : SiteInv s0) by (apply inv_alone; [done|]; intros k l [Hk _]; by rewrite Hh in Hk).
  pose proof (rtc_invariant call SiteInv call_inv _ _ Hrun HI0) as HI. split_and!.
  - intros i l Hi. pose proof (si_path _ HI _ _ Hi) as Hp. split_and!; [|done|].
    { intros k l' Hk. by eapply (si_one _ HI). }
    intros p run ttl json Hj Hs Hrec.
    destruct (acquire_outcome p run ttl false _ json (si_works _ HI) Hj) as (o'&Ha&Hf). exists o'.
    revert Ha Hf. unfold acquire_answer. by rewrite (at_path_readable _ _ Hp Hs), Hrec.
  - intros p run ttl json Hj. by apply (acquire_outcome p run ttl true _ json (si_works _ HI)).
  - clear HI. revert s Hrun. apply rtc_ind_r; [by left|]. intros s1 s2 Hrun Hc IH.
    destruct IH as [IH|(a&b&Ha&Hs&Hb)].
    + pose proof (rtc_invariant call SiteInv call_inv _ _ Hrun HI0) as HI.
      destruct (first_ousting _ _ HI IH Hc) as [|Hs]; [by left|]. right. exists s1, s2. by split_and!.
    + right. exists a, b. split_and!; [done..|]. by eapply rtc_r.
Qed.

End Serial.

(** *** Calls that overlap *)

(** The steps of one call with nothing in between. *)
Inductive alone (j : Job) : Os * Pc -> Os * Pc -> Prop :=
| alone_step o pc o' pc' :
    (forall r, pc <> Done r) -> pstep j pc o = (o', pc') -> alone j (o, pc) (o', pc').

Lemma alone_next j o pc o1 pc1 z :
  (forall r, pc <> Done r) -> pstep j pc o = (o1, pc1) -> rtc (alone j) (o1, pc1) z -> rtc (alone j) (o, pc) z.
Proof using Type. intros. eapply rtc_l; [by apply alone_step|done]. Qed.

(** The loop from its head, for a given number of attempts left. *)
Definition loop_steps (j : Job) (n : nat) (m : LockMetadata) : Prop :=
  forall o o' r, acquire_loop n (job_process j) m (job_ttl j) o = (o', r) ->
    rtc (alone j) (o, AtCreate n m) (o', Done r).

Lemma remove_steps j n m o o' r :
  loop_steps j n m ->
  (try! _ <- remove_file in acquire_loop n (job_process j) m (job_ttl j)) o = (o', r) ->
  rtc (alone j) (o, AtRemove n m) (o', Done r).
Proof using Type.
  intros IH H. eapply alone_next; [done|reflexivity|]. apply IH. revert H. unfold attempt.
  by destruct (remove_file o).
Qed.

Lemma stat_again_steps j n m o o' r :
  loop_steps j n m ->
  (try! stat <- metadata_len in
   match stat with
   | Err (mkIo NotFound _) => acquire_loop n (job_process j) m (job_ttl j)
   | _ => try! _ <- remove_file in acquire_loop n (job_process j) m (job_ttl j)
   end) o = (o', r) ->
  rtc (alone j) (o, AtStatAgain n m) (o', Done r).
Proof using Type.
  intros IH H. unfold attempt at 1 in H. destruct (metadata_len o) as [o1 r1] eqn:E1.
  destruct r1 as [len|[[] msg]].
  all: eapply alone_next; [done|simpl; rewrite E1; reflexivity|].
  all: first [by eapply remove_steps|by apply IH].
Qed.

Lemma examine_steps j n m o o' r :
  loop_steps j n m ->
  examine (job_process j) (job_ttl j) (acquire_loop n (job_process j) m (job_ttl j)) o = (o', r) ->
  rtc (alone j) (o, AtStat n m) (o', Done r).
Proof using Type.
  intros IH H. unfold examine in H. unfold attempt at 1, read_lock, bind at 1, map_err_io at 1 in H.
  destruct (metadata_len o) as [o1 [len|e]] eqn:E1; simpl in H.
  2:{ eapply alone_next; [done|simpl; rewrite E1; reflexivity|]. by apply stat_again_steps. }
  destruct (MAX_LOCK_FILE_BYTES <? len) eqn:El; simpl in H.
  { eapply alone_next; [done|simpl; rewrite E1, El; reflexivity|]. by apply stat_again_steps. }
  eapply alone_next; [done|simpl; rewrite E1, El; reflexivity|].
  unfold bind at 1, map_err_io at 1 in H. destruct (read_to_string o1) as [o2 [content|e]] eqn:E2; simpl in H.
  2:{ eapply alone_next; [done|simpl; rewrite E2; reflexivity|]. by apply stat_again_steps. }
  unfold lift in H. destruct (from_str content) as [ex|e] eqn:E3; simpl in H.
  2:{ eapply alone_next; [done|simpl; rewrite E2, E3; reflexivity|]. by apply stat_again_steps. }
  eapply alone_next; [done|simpl; rewrite E2, E3; reflexivity|].
  unfold bind at 1 in H. destruct (reclaim_reason _ _ _ o2) as [o3 [[reason|]|e]] eqn:E4.
  - eapply alone_next; [done|simpl; rewrite E4; reflexivity|]. by apply remove_steps.
  - eapply alone_next; [done|simpl; rewrite E4; reflexivity|]. injection H as <- <-. constructor.
  - eapply alone_next; [done|simpl; rewrite E4; reflexivity|]. injection H as <- <-. constructor.
Qed.

Lemma acquire_loop_steps j n m : loop_steps j n m.
Proof using Type.
  induction n as [|n IH]; intros o o' r H; simpl in H.
  { injection H as <- <-. eapply alone_next; [done|reflexivity|constructor]. }
  unfold attempt at 1 in H. destruct (create_lock_exclusive m o) as [o1 [[]|e]] eqn:E1.
  { injection H as <- <-. eapply alone_next; [done|simpl; rewrite E1; reflexivity|constructor]. }
  eapply alone_next; [done|simpl; rewrite E1; reflexivity|].
  destruct (io_kind e); [by apply examine_steps|..]; injection H as <- <-; constructor.
Qed.

(** The steps of an acquisition that is left alone are the function [acquire_with_clock]. *)
Lemma acquire_steps j o o' r :
  acquire_with_clock (job_process j) (job_run j) (job_ttl j) (job_force j) o = (o', r) ->
  rtc (alone j) (o, AtDir) (o', Done r).
Proof using Type.
  intros H. unfold acquire_with_clock in H. unfold bind at 1, map_err_io at 1 in H.
  destruct (elsewhere o) as [o1 [[]|e]] eqn:E1; simpl in H.
  2:{ injection H as <- <-. eapply alone_next; [done|simpl; rewrite E1; reflexivity|constructor]. }
  eapply alone_next; [done|simpl; rewrite E1; reflexivity|].
  assert (Hrest : forall o2, (do! m <- current_with_clock (job_process j) (job_run j) in
      acquire_loop MAX_ACQUIRE_ATTEMPTS (job_process j) m (job_ttl j)) o2 = (o', r) ->
      rtc (alone j) (o2, AtClock) (o', Done r)).
  { intros o2 H2. eapply alone_next; [done|reflexivity|]. by apply acquire_loop_steps. }
  destruct (job_force j); [|by apply Hrest].
  unfold bind at 1, exists_, attempt in H. destruct (metadata_len o1) as [o2 [len|e]] eqn:E2; simpl in H.
  2:{ eapply alone_next; [done|simpl; rewrite E2; reflexivity|]. by apply Hrest. }
  eapply alone_next; [done|simpl; rewrite E2; reflexivity|].
  assert (Hrm : forall o3, (try! _ <- remove_file in pure tt) o3 = (fst (remove_file o3), @Ok unit PersistenceError tt)).
  { intros o3. unfold attempt. by destruct (remove_file o3). }
  unfold bind at 1, force_remove_lock, attempt at 1, read_lock, bind at 1, map_err_io at 1 in H.
  destruct (metadata_len o2) as [o3 [len'|e]] eqn:E3; simpl in H.
  2:{ eapply alone_next; [done|simpl; rewrite E3; reflexivity|]. eapply alone_next; [done|reflexivity|].
      apply Hrest. revert H. by rewrite Hrm. }
  destruct (MAX_LOCK_FILE_BYTES <? len') eqn:El.
  { eapply alone_next; [done|simpl; rewrite E3, El; reflexivity|]. eapply alone_next; [done|reflexivity|].
    apply Hrest. revert H. simpl. by rewrite Hrm. }
  eapply alone_next; [done|simpl; rewrite E3, El; reflexivity|].
  eapply alone_next; [done|reflexivity|]. eapply alone_next; [done|reflexivity|]. apply Hrest.
  revert H. unfold bind at 1, map_err_io at 1. destruct (read_to_string o3) as [o4 [c|e]]; simpl; by rewrite Hrm.
Qed.

(** *** Ownership of the file *)

Definition sys_init (o : Os) : System := mkSystem o ∅ None ∅.

Record OwnInv (y : System) : Prop := {
  own_file i : owner y = Some i -> exists j l json, calls y !! i = Some (j, Done (Ok l))
                 /\ to_string_pretty (metadata l) = Ok json /\ file (os y) = Some (Text json);
  own_holder i l : holds y i l -> owner y = Some i \/ i ∈ robbed y;
}.

(** The steps that can change the path. *)
Definition touches (pc : Pc) : bool :=
  match pc with
  | AtForceRemove | AtCreate (S _) _ | AtRemove _ _ | Done _ | Dropping => true
  | _ => false
  end.

Lemma reclaim_reason_quiet p m ttl : quiet (reclaim_reason p m ttl).
Proof using Type.
  intros o o' r. unfold reclaim_reason. destruct (same_host_dead_holder _ _ _); [by intros [= <- _]|].
  apply keeps_bind; auto with keeps.
Qed.

Lemma pstep_quiet j pc o o' pc' :
  touches pc = false -> pstep j pc o = (o', pc') ->
  file o' = file o /\ forall l, pc' <> Done (Ok l).
Proof using Type.
  intros Ht H.
  destruct pc as [| | | | | |[|n] m|n m|n m|n m ex|n m|n m|r| |]; try discriminate Ht; simpl in H.
  all: simplify_eq/=; repeat (case_match; simplify_eq/=).
  all: split; [|done]; try done.
  all: try (by eapply quiet_elsewhere); try (by eapply quiet_metadata_len);
    try (by eapply quiet_read_to_string); try (by eapply reclaim_reason_quiet).
  destruct (read_to_string o) eqn:E. by apply quiet_read_to_string in E.
Qed.

(** A process that does not hold moves on; the path is as it was. *)
Lemma own_move y i j pc pc' o' :
  OwnInv y -> calls y !! i = Some (j, pc) -> (forall r, pc <> Done r) -> (forall l, pc' <> Done (Ok l)) ->
  file o' = file (os y) ->
  OwnInv (mkSystem o' (<[i := (j, pc')]> (calls y)) (owner y) (robbed y)).
Proof using Type.
  clear from_str show_timestamp.
  intros [Hf Hh] Hi Hpc Hpc' Hfile. split; cbn [owner calls os robbed].
  - intros k Hk. destruct (Hf k Hk) as (jk&l&json&Hc&Hj&Hl). exists jk, l, json.
    rewrite lookup_insert_ne, Hfile by (intros ->; rewrite Hi in Hc; naive_solver). done.
  - intros k l [jk Hk]. cbn [calls] in Hk. destruct (decide (i = k)) as [<-|Hne].
    + rewrite lookup_insert_eq in Hk. naive_solver.
    + rewrite lookup_insert_ne in Hk by done. apply (Hh k l). by exists jk.
Qed.

(** A process creates the file: nobody owned one. *)
Lemma own_create y i j n m o' :
  OwnInv y -> calls y !! i = Some (j, AtCreate (S n) m) ->
  create_lock_exclusive m (os y) = (o', Ok tt) ->
  OwnInv (mkSystem o' (<[i := (j, Done (Ok (mkLock m)))]> (calls y)) (Some i) (robbed y)).
Proof using Type.
  clear from_str show_timestamp.
  intros [Hf Hh] Hi Hc. apply create_exclusive_inv in Hc as (json&Hj&Hnone&Hfile).
  split; cbn [owner calls os robbed].
  - intros k [= <-]. exists j, (mkLock m), json. by rewrite lookup_insert_eq.
  - intros k l [jk Hk]. cbn [calls] in Hk. destruct (decide (i = k)) as [<-|Hne]; [by left|]. right.
    rewrite lookup_insert_ne in Hk by done. destruct (Hh k l) as [Ho|?]; [by exists jk| |done].
    destruct (Hf k Ho) as (?&?&?&_&_&?). congruence.
Qed.

(** A process removes what is at the path, or fails to. *)
Lemma own_remove y i j pc pc' o' :
  OwnInv y -> calls y !! i = Some (j, pc) -> (forall l, pc' <> Done (Ok l)) ->
  file o' = None \/ file o' = file (os y) ->
  OwnInv (mkSystem o' (<[i := (j, pc')]> (calls y))
            (if bool_decide (owner y = Some i) then None
             else match file o' with None => None | Some _ => owner y end)
            (match file o' with None => took y i | Some _ => robbed y end)).
Proof using Type.
  clear from_str show_timestamp.
  intros [Hf Hh] Hi Hpc' Hfile. split; cbn [owner calls os robbed].
  - intros k Hk. case_bool_decide; [done|]. destruct (file o') as [c|] eqn:Ho'; [|done].
    destruct Hfile as [|Hfile]; [done|]. destruct (Hf k Hk) as (jk&l&json&Hc&Hj&Hl). exists jk, l, json.
    rewrite lookup_insert_ne by congruence. split_and!; congruence.
  - intros k l [jk Hk]. cbn [calls] in Hk. destruct (decide (i = k)) as [<-|Hne].
    { rewrite lookup_insert_eq in Hk. naive_solver. }
    rewrite lookup_insert_ne in Hk by done.
    destruct (Hh k l) as [Ho|Hr]; [by exists jk|..].
    + unfold took. rewrite Ho. rewrite !bool_decide_eq_false_2 by congruence.
      destruct (file o'); [by left|right; set_solver].
    + right. destruct (file o'); [done|]. unfold took. destruct (owner y); [|done].
      case_bool_decide; [done|set_solver].
Qed.

Lemma delete_lock_cases o o' r :
  delete_lock_file o = (o', r) -> file o' = None \/ file o' = file o.
Proof using Type.
  unfold delete_lock_file, attempt. destruct (remove_file o) as [o1 r1] eqn:E.
  apply remove_file_cases in E as [E|[E _]]; destruct r1 as [|[[] ?]]; simpl; intros [= <- _]; auto.
Qed.

Lemma own_step y y' : OwnInv y -> sys_step y y' -> OwnInv y'.
Proof using Type.
  intros HI [i j Hi|i j pc o' pc' Hi Herr Hp].
  { destruct HI as [Hf Hh]. split; cbn [owner calls os robbed].
    - intros k Hk. destruct (Hf k Hk) as (jk&l&json&Hc&?&?). exists jk, l, json.
      rewrite lookup_insert_ne by congruence. done.
    - intros k l [jk Hk]. cbn [calls] in Hk. apply lookup_insert_Some in Hk as [[_ ?]|[_ Hk]]; [done|].
      apply (Hh k l). by exists jk. }
  destruct (touches pc) eqn:Ht.
  2:{ destruct (pstep_quiet _ _ _ _ _ Ht Hp) as [Hq Hd].
      replace (account y i j pc pc' o') with (mkSystem o' (<[i := (j, pc')]> (calls y)) (owner y) (robbed y)).
      { apply (own_move y i j pc); [done..| |done|done]. by intros r ->. }
      destruct pc; try done. destruct pc'; try done. destruct r; [by destruct (Hd a)|done]. }
  assert (Hrm : forall o1 r1, remove_file (os y) = (o1, r1) -> file o1 = None \/ file o1 = file (os y)).
  { intros o1 r1 E. apply remove_file_cases in E as [E|[E _]]; auto. }
  destruct pc as [| | | | | |[|n] m|n m|n m|n m ex|n m|n m|r| |]; try discriminate Ht; simpl in Hp.
  - injection Hp as <- <-. destruct (remove_file (os y)) as [o1 r1] eqn:E. by eapply own_remove; eauto.
  - destruct (create_lock_exclusive m (os y)) as [o1 [[]|e]] eqn:E; injection Hp as <- <-.
    + by eapply own_create.
    + assert (Hkeep : forall pc1, (forall l, pc1 <> Done (Ok l)) ->
        OwnInv (mkSystem o1 (<[i := (j, pc1)]> (calls y)) (owner y) (robbed y))).
      { intros pc1 Hpc1. eapply own_move; [done..|]. by apply create_exclusive_inv in E. }
      destruct (io_kind e); by apply Hkeep.
  - injection Hp as <- <-. destruct (remove_file (os y)) as [o1 r1] eqn:E. by eapply own_remove; eauto.
  - injection Hp as <- <-. destruct (delete_lock_file (os y)) as [o1 r1] eqn:E.
    apply delete_lock_cases in E. by eapply own_remove; eauto.
  - injection Hp as <- <-. unfold drop_lock, attempt. destruct (remove_file (os y)) as [o1 r1] eqn:E.
    by eapply own_remove; eauto.
Qed.

(** C35: What the exclusive creation gives under any interleaving of acquisitions,
    forced or not, releases and drops, with any failures: among the holders
    whose file no other process has removed there is at most one, and its
    metadata is at the path.  Two processes can hold the lock at once only after
    one of them lost its file to a removal that was not its own. *)
Theorem lock_interleaved_owner o y i k l l' :
  rtc sys_step (sys_init o) y -> holds y i l -> holds y k l' -> i ∉ robbed y -> k ∉ robbed y ->
  i = k /\ exists json, to_string_pretty (metadata l) = Ok json /\ file (os y) = Some (Text json).
Proof using Type.
  intros Hrun Hi Hk Hri Hrk. assert (HI : OwnInv y).
  { eapply (rtc_invariant sys_step OwnInv own_step); [done|]. split; [done|]. by intros ?? [??]. }
  destruct (own_holder _ HI _ _ Hi) as [Hoi|]; [|done]. destruct (own_holder _ HI _ _ Hk) as [Hok|]; [|done].
  split; [congruence|]. destruct (own_file _ HI _ Hoi) as (j&l1&json&Hc&?&?). destruct Hi as [ji Hi].
  rewrite Hi in Hc. simplify_eq. eauto.
Qed.

(** *** Scripted runs *)

Inductive Action := Start (i : nat) (j : Job) | Step (i : nat).

Definition act (y : System) (a : Action) : option System :=
  match a with
  | Start i j =>
      match calls y !! i with
      | None => Some (mkSystem (os y) (<[i := (j, AtDir)]> (calls y)) (owner y) (robbed y))
      | Some _ => None
      end
  | Step i =>
      match calls y !! i with
      | None | Some (_, Done (Err _)) => None
      | Some (j, pc) => let '(o', pc') := pstep j pc (os y) in Some (account y i j pc pc' o')
      end
  end.

Fixpoint script (y : System) (acts : list Action) : option System :=
  match acts with
  | [] => Some y
  | a :: rest => match act y a with Some y' => script y' rest | None => None end
  end.

Lemma script_sound acts y y' : script y acts = Some y' -> rtc sys_step y y'.
Proof using Type.
  revert y. induction acts as [|a acts IH]; intros y H; simpl in H; [by injection H as <-|].
  destruct (act y a) as [y1|] eqn:Ha; [|done]. eapply rtc_l; [|by apply IH]. clear IH H.
  destruct a as [i j|i]; simpl in Ha; destruct (calls y !! i) as [[j' pc]|] eqn:Hi; try done.
  - injection Ha as <-. by constructor.
  - destruct (pstep j' pc (os y)) as [o' pc'] eqn:Hp.
    assert (Hne : forall e, pc <> Done (Err e)) by (intros e ->; done).
    destruct pc as [| | | | | | | | | | | |[]| |]; simplify_eq; by eapply sys_advance.
Qed.

End Lock.

(** ** A concrete codec, and two races *)

#[global] Instance LockMetadata_countable : Countable LockMetadata.
Proof.
  apply (inj_countable' (fun m => (run_id m, pid m, hostname m, created_at m))
           (fun '(r, p, h, t) => mkMetadata r p h t)).
  by intros [].
Defined.

Fixpoint pos_text (p : positive) : string :=
  match p with
  | xH => ""
  | xO q => String "0"%char (pos_text q)
  | xI q => String "1"%char (pos_text q)
  end.

Fixpoint text_pos (s : string) : positive :=
  match s with
  | EmptyString => xH
  | String c rest => if Ascii.eqb c "1"%char then xI (text_pos rest) else xO (text_pos rest)
  end.

Lemma text_pos_text p : text_pos (pos_text p) = p.
Proof. induction p; simpl; congruence. Qed.

Definition demo_encode (m : LockMetadata) : result string string := Ok (pos_text (encode m)).
Definition demo_decode (s : string) : result LockMetadata string :=
  match decode (text_pos s) with Some m => Ok m | None => Err "bad text" end.

Lemma demo_codec m json : demo_encode m = Ok json -> demo_decode json = Ok m.
Proof. intros [= <-]. unfold demo_decode. by rewrite text_pos_text, decode_encode. Qed.

(** A calm machine at a fixed time, and three processes of one host, all alive. *)
Definition demo_os : Os := mkOs None true (fun _ => None) 0 (fun _ => 1000) 0 (fun _ _ => false).
Definition demo_job (n : Z) (run : string) : Job := mkJob (mkProcess "h" n) run DEFAULT_LOCK_TTL false.
Definition demo_script := script demo_encode demo_decode show_Z.
Definition demo_sys_step := sys_step demo_encode demo_decode show_Z.

Definition steps (i : nat) (n : nat) : list Action := repeat (Step i) n.

(** Acquisition by [i] on a free path: directory, clock, creation. *)
Definition acquires (i : nat) (n : Z) (run : string) : list Action := Start i (demo_job n run) :: steps i 3.

(** 0 holds; 1 finds the file; 0 releases and is dropped; 1 fails to read; 2
    acquires; 1 sees a file it could not read, removes it and creates its own. *)
Definition vanished : list Action :=
  acquires 0 10 "a" ++ Start 1 (demo_job 11 "b") :: steps 1 3 ++ steps 0 2 ++ steps 1 1
  ++ acquires 2 12 "c" ++ steps 1 3.

(** 0 acquires and releases; 1 acquires between the deletion and the drop; the
    drop of 0 deletes the file of 1; 2 acquires. *)
Definition dropped : list Action :=
  acquires 0 10 "a" ++ steps 0 1 ++ acquires 1 11 "b" ++ steps 0 1 ++ acquires 2 12 "c".

Definition held (y : System) (i : nat) : option RunLock :=
  match calls y !! i with Some (_, Done (Ok l)) => Some l | _ => None end.

Lemma held_holds y i l : held y i = Some l -> holds y i l.
Proof.
  unfold held, holds. destruct (calls y !! i) as [[j pc]|]; [|done].
  destruct pc as [| | | | | | | | | | | |[l0|]| |]; try done. intros [= ->]. by exists j.
Qed.

Definition end_of (acts : list Action) : option (option RunLock * option RunLock) :=
  match demo_script (sys_init demo_os) acts with
  | Some y => Some (held y 1, held y 2)
  | None => None
  end.

Lemma end_of_holds acts l1 l2 :
  end_of acts = Some (Some l1, Some l2) ->
  exists y, demo_script (sys_init demo_os) acts = Some y
    /\ rtc demo_sys_step (sys_init demo_os) y /\ holds y 1 l1 /\ holds y 2 l2.
Proof.
  unfold end_of. destruct (demo_script _ _) as [y|] eqn:Hs; [|done]. intros [= H1 H2].
  exists y. split; [done|]. split; [by eapply script_sound|]. split; by apply held_holds.
Qed.

(** Two processes can hold the lock at once although no lock was ever stale,
    no call failed and nobody forced anything.  In the first run a caller that
    found a file fails to read it because its holder has just released it; when
    it looks again a third process has created a valid lock there, which it
    removes as corrupt.  In the second run [release] deletes the file and the
    drop that ends it deletes it again: a process that acquired in between loses
    its file, and the next one acquires too. *)
Theorem lock_two_holders :
  Forall (fun acts => exists y l1 l2, demo_script (sys_init demo_os) acts = Some y
            /\ rtc demo_sys_step (sys_init demo_os) y /\ holds y 1 l1 /\ holds y 2 l2
            /\ run_id (metadata l1) = "b" /\ run_id (metadata l2) = "c")
    [vanished; dropped].
Proof.
  assert (H : forall acts, end_of acts = Some (Some (mkLock (mkMetadata "b" 11 "h" 1000)),
                                               Some (mkLock (mkMetadata "c" 12 "h" 1000))) ->
    exists y l1 l2, demo_script (sys_init demo_os) acts = Some y
            /\ rtc demo_sys_step (sys_init demo_os) y /\ holds y 1 l1 /\ holds y 2 l2
            /\ run_id (metadata l1) = "b" /\ run_id (metadata l2) = "c").
  { intros acts (y&Hs&Hr&H1&H2)%end_of_holds. do 3 eexists. by split_and!. }
  repeat constructor; apply H; vm_compute; reflexivity.
Qed.

(** ** Witnesses *)

(** The sync of the directory fails: the new contents are there. *)
Definition late_fault : Os :=
  mkOs (Some (Text "old")) true (fun n => if decide (n = 7%nat) then Some "EIO" else None) 0 (fun _ => 0) 0
    (fun _ _ => false).

Lemma atomic_write_all_or_nothing_witness :
  exists o', atomic_write_bytes "new" late_fault
             = (o', Err (AtomicWriteFailed "failed to fsync parent dir: EIO"))
    /\ in_place "new" o'.
Proof.
  destruct (atomic_write_bytes "new" late_fault) as [o' r] eqn:H. exists o'.
  destruct (atomic_write_all_or_nothing "new" late_fault o' r H)
    as [[Hn _]|(k&m&err&[Hk Hfirst]&He&->&_&Hp)].
  - discriminate (Hn 7%nat ltac:(simpl; lia)).
  - simpl in Hk. rewrite Nat.add_0_r in Hk. destruct (decide (k = 7%nat)) as [->|]; [|discriminate Hk].
    injection He as <-. injection Hk as <-. split; [reflexivity|exact Hp].
Defined.

Definition demo_acquire := acquire_with_clock demo_encode demo_decode show_Z.

(** A free path; then the same path with the lock of a live process on it. *)
Definition demo_held : Os := fst (demo_acquire (mkProcess "h" 10) "a" DEFAULT_LOCK_TTL false demo_os).

Lemma acquire_outcome_witness :
  exists o', demo_acquire (mkProcess "h" 11) "b" DEFAULT_LOCK_TTL false demo_held
             = (o', Err (held_by show_Z (mkMetadata "a" 10 "h" 1000)))
             /\ file o' = file demo_held.
Proof.
  destruct (acquire_outcome demo_encode demo_decode show_Z (mkProcess "h" 11) "b" DEFAULT_LOCK_TTL false
              demo_held (pos_text (encode (mkMetadata "b" 11 "h" 1000)))) as (o'&Ha&Hf).
  - intros n. reflexivity.
  - vm_compute. reflexivity.
  - exists o'. split.
    + unfold demo_acquire. rewrite Ha. f_equal.
    + rewrite Hf. vm_compute. reflexivity.
Defined.

Definition demo_lock : RunLock := mkLock (mkMetadata "a" 10 "h" 1000).

(** 0 acquires; 1 is refused; 1 takes the lock by force. *)
Definition forced_os : Os := fst (demo_acquire (mkProcess "h" 11) "b" DEFAULT_LOCK_TTL true demo_held).
Definition forced_lock : RunLock := mkLock (mkMetadata "b" 11 "h" 1000).
Definition demo_call := call demo_encode demo_decode show_Z.
Definition free_site : Site := mkSite demo_os ∅ ∅.
Definition held_site : Site := acquired free_site 0 false demo_held (Ok demo_lock).
Definition forced_site : Site := acquired held_site 1 true forced_os (Ok forced_lock).

Lemma demo_held_run : rtc demo_call free_site held_site.
Proof.
  apply rtc_once. eapply (call_acquire _ _ _ free_site 0 (mkProcess "h" 10) "a" DEFAULT_LOCK_TTL false);
    [reflexivity|]. vm_compute. reflexivity.
Qed.

Lemma demo_forced_run : rtc demo_call free_site forced_site.
Proof.
  eapply rtc_r; [exact demo_held_run|].
  eapply (call_acquire _ _ _ held_site 1 (mkProcess "h" 11) "b" DEFAULT_LOCK_TTL true);
    [reflexivity|]. vm_compute. reflexivity.
Qed.

Lemma lock_exclusive_serial_witness :
  (exists o', demo_acquire (mkProcess "h" 11) "b" DEFAULT_LOCK_TTL false demo_held
              = (o', Err (held_by show_Z (mkMetadata "a" 10 "h" 1000))))
  /\ rtc demo_call free_site forced_site
  /\ at_path demo_encode (metadata forced_lock) (site_os forced_site).
Proof.
  split_and!; [|exact demo_forced_run|].
  - destruct (lock_exclusive_serial demo_encode demo_decode show_Z demo_codec free_site held_site) as [Hu _];
      [intros n; reflexivity|reflexivity|reflexivity|exact demo_held_run|].
    destruct (Hu 0%nat demo_lock) as (_&_&Hr); [split; [reflexivity|vm_compute; done]|].
    destruct (Hr (mkProcess "h" 11) "b" DEFAULT_LOCK_TTL (pos_text (encode (mkMetadata "b" 11 "h" 1000))))
      as (o'&Ho&_); [vm_compute; reflexivity| |vm_compute; reflexivity|exists o'; exact Ho].
    intros json [= <-]. vm_compute. discriminate.
  - destruct (lock_exclusive_serial demo_encode demo_decode show_Z demo_codec free_site forced_site) as [Hu _];
      [intros n; reflexivity|reflexivity|reflexivity|exact demo_forced_run|].
    destruct (Hu 1%nat forced_lock) as (_&Hp&_); [split; [reflexivity|vm_compute; done]|exact Hp].
Defined.

Lemma lock_interleaved_owner_witness :
  exists y, demo_script (sys_init demo_os) (acquires 0 10 "a") = Some y
    /\ holds y 0 demo_lock /\ exists json, file (os y) = Some (Text json).
Proof.
  destruct (demo_script (sys_init demo_os) (acquires 0 10 "a")) as [y|] eqn:Hs;
    [|vm_compute in Hs; discriminate Hs].
  assert (Hh : holds y 0 demo_lock).
  { apply held_holds. transitivity (match demo_script (sys_init demo_os) (acquires 0 10 "a") with
                                    | Some y => held y 0 | None => None end);
      [by rewrite Hs|vm_compute; reflexivity]. }
  assert (Hn : 0%nat ∉ robbed y).
  { assert (Hr : match demo_script (sys_init demo_os) (acquires 0 10 "a") with
                 | Some y => bool_decide (0%nat ∉ robbed y) | None => false end = true)
      by (vm_compute; reflexivity).
    rewrite Hs in Hr. by apply bool_decide_eq_true in Hr. }
  exists y. split; [reflexivity|]. split; [exact Hh|].
  destruct (lock_interleaved_owner demo_encode demo_decode show_Z demo_os y 0 0 demo_lock demo_lock)
    as [_ (json&_&Hf)]; [by eapply script_sound|exact Hh|exact Hh|exact Hn|exact Hn|]. by exists json.
Defined.

(** ** Evidence of a stale store lock (crate [cherry-pit-gateway], [recovery.rs]) *)

Module Recovery.

Record StaleLockEvidence := mkEvidence { lock_path : string; lock_mtime : Z; lock_size : Z }.

(** [stat] is [std::fs::metadata]: the time of the last change, which some file
    systems do not report, and the size. *)
Definition stale_lock_evidence (stat : string -> result (result Z IoError * Z) IoError) (store_dir : string)
    : result (option StaleLockEvidence) IoError :=
  let path := store_dir +:+ "/.lock" in
  match stat path with
  | Ok (Ok mtime, len) => Ok (Some (mkEvidence path mtime len))
  | Ok (Err e, _) => Err e
  | Err e => match io_kind e with NotFound => Ok None | _ => Err e end
  end.

(** Evidence is what the file system says of the sentinel; it is absent exactly
    when the sentinel is, and every other failure is returned. *)
Lemma stale_lock_evidence_spec stat store_dir :
  let path := store_dir +:+ "/.lock" in
  (forall ev, stale_lock_evidence stat store_dir = Ok (Some ev) <->
     lock_path ev = path /\ stat path = Ok (Ok (lock_mtime ev), lock_size ev))
  /\ (stale_lock_evidence stat store_dir = Ok None <-> exists e, stat path = Err e /\ io_kind e = NotFound).
Proof.
  cbv zeta. unfold stale_lock_evidence. set (path := store_dir +:+ "/.lock"). clearbody path.
  destruct (stat path) as [[[mtime|e] len]|e].
  - split; [|split; [done|by intros (?&?&_)]]. intros [p m l]. simpl. split; [by intros [= <- <- <-]|by intros [-> [= -> ->]]].
  - split; [|split; [done|by intros (?&?&_)]]. intros [p m l]. split; [done|by intros [_ ?]].
  - split; [intros [p m l]; destruct (io_kind e); (split; [done|by intros [_ ?]])|].
    destruct (io_kind e) eqn:E; (split; [try done; eauto|]); intros (e'&[= <-]&He); congruence.
Qed.

End Recovery.
