(* ===== verification/Signature.v ===== *)
(** * Content signatures (crate [cherry-pit-storage], [signature.rs])

    The canonical JSON text of a value and the signature of a snapshot.  A string
    is the list of its Unicode scalar values ([Chars]); [str] order, bytewise on UTF-8, is
    the lexicographic order of these lists.  An object is the list of its members
    in any order; serde's map gives them distinct keys ([wf]). *)

From stdpp Require Import sorting.
From S2P Require Import Prelude Chars.

Set Warnings "-register-all".

Definition QUOTE : Z := 34.
Definition COMMA : Z := 44.
Definition COLON : Z := 58.
Definition BACKSLASH : Z := 92.
Definition OPEN_ARRAY : Z := 91.
Definition CLOSE_ARRAY : Z := 93.
Definition OPEN_OBJECT : Z := 123.
Definition CLOSE_OBJECT : Z := 125.

(** [{:04x}] on a value below [16^4]. *)
Definition hex4 (c : Z) : Text := hex 4 c.
(** [{:02x}] on a byte. *)
Definition hex2 (b : Z) : Text := hex 2 b.

Definition escape_char (c : Z) : Text :=
  if c =? QUOTE then [BACKSLASH; QUOTE]
  else if c =? BACKSLASH then [BACKSLASH; BACKSLASH]
  else if c =? 10 then BACKSLASH :: txt "n"
  else if c =? 13 then BACKSLASH :: txt "r"
  else if c =? 9 then BACKSLASH :: txt "t"
  else if is_control c then BACKSLASH :: txt "u" ++ hex4 c
  else [c].

Definition escape_json_string (s : Text) : Text := flat_map escape_char s.

(** [keys.sort_unstable()], carrying what belongs to each key. *)
Fixpoint key_leb (a b : Text) : bool :=
  match a, b with
  | [], _ => true
  | _, [] => false
  | x :: a', y :: b' => if x <? y then true else if y <? x then false else key_leb a' b'
  end.

Fixpoint insert_entry {V} (e : Text * V) (l : list (Text * V)) : list (Text * V) :=
  match l with
  | [] => [e]
  | e' :: rest => if key_leb (fst e) (fst e') then e :: l else e' :: insert_entry e rest
  end.

Definition sort_entries {V} (l : list (Text * V)) : list (Text * V) := foldr insert_entry [] l.

Section Signature.
(** [serde_json::Number] and its rendering. *)
Context {Num : Type} (show_number : Num -> Text).

Inductive Value :=
| Null
| Bool (b : bool)
| Number (n : Num)
| JString (s : Text)
| Array (arr : list Value)
| Object (map : list (Text * Value)).

(** [format!("\"{}\":{v}", escape_json_string(k))]. *)
Definition member (e : Text * Text) : Text :=
  QUOTE :: escape_json_string (fst e) ++ QUOTE :: COLON :: snd e.

Fixpoint canonical_json (value : Value) : Text :=
  match value with
  | Object map =>
      let entries := sort_entries (List.map (fun kv => (fst kv, canonical_json (snd kv))) map) in
      OPEN_OBJECT :: join COMMA (List.map member entries) ++ [CLOSE_OBJECT]
  | Array arr => OPEN_ARRAY :: join COMMA (List.map canonical_json arr) ++ [CLOSE_ARRAY]
  | JString s => QUOTE :: escape_json_string s ++ [QUOTE]
  | Number n => show_number n
  | Bool true => txt "true"
  | Bool false => txt "false"
  | Null => txt "null"
  end.

Definition RUN_TIMESTAMP : Text := txt "run_timestamp".

Definition canonical_snapshot (snapshot : option Value) : Text :=
  match snapshot with
  | Some (Object map) =>
      let kept := filter (fun kv : Text * Value => fst kv <> RUN_TIMESTAMP) map in
      let entries := sort_entries (List.map (fun kv => (fst kv, canonical_json (snd kv))) kept) in
      OPEN_OBJECT :: join COMMA (List.map member entries) ++ [CLOSE_OBJECT]
  | Some other => canonical_json other
  | None => txt "{}"
  end.

(** [str::as_bytes]. *)
Definition utf8_char (c : Z) : list Z :=
  if c <? 128 then [c]
  else if c <? 2048 then [192 + c / 64; 128 + c mod 64]
  else if c <? 65536 then [224 + c / 4096; 128 + c / 64 mod 64; 128 + c mod 64]
  else [240 + c / 262144; 128 + c / 4096 mod 64; 128 + c / 64 mod 64; 128 + c mod 64].
Definition as_bytes (t : Text) : list Z := flat_map utf8_char t.

(** [sha256] is the [sha2] crate's digest. *)
Definition build_snapshot_signature (sha256 : list Z -> list Z) (snapshot : option Value) : Text :=
  flat_map hex2 (sha256 (as_bytes (canonical_snapshot snapshot))).

(** ** What a signature means *)

(** Two values with the same data: members of objects in any order. *)
Inductive same : Value -> Value -> Prop :=
| same_null : same Null Null
| same_bool b : same (Bool b) (Bool b)
| same_number n : same (Number n) (Number n)
| same_string s : same (JString s) (JString s)
| same_array l l' : Forall2 same l l' -> same (Array l) (Array l')
| same_object m m1 m' :
    m ≡ₚ m1 -> Forall2 (fun e e' => fst e = fst e' /\ same (snd e) (snd e')) m1 m' ->
    same (Object m) (Object m').

(** Distinct keys in every object. *)
Inductive wf : Value -> Prop :=
| wf_null : wf Null
| wf_bool b : wf (Bool b)
| wf_number n : wf (Number n)
| wf_string s : wf (JString s)
| wf_array l : Forall wf l -> wf (Array l)
| wf_object m : NoDup (List.map fst m) -> Forall (fun e => wf (snd e)) m -> wf (Object m).

(** What is signed: a snapshot without its time. *)
Definition signed (snapshot : option Value) : Value :=
  match snapshot with
  | Some (Object m) => Object (filter (fun kv : Text * Value => fst kv <> RUN_TIMESTAMP) m)
  | Some other => other
  | None => Object []
  end.

Lemma value_induction (P : Value -> Prop) :
  P Null -> (forall b, P (Bool b)) -> (forall n, P (Number n)) -> (forall s, P (JString s)) ->
  (forall l, Forall P l -> P (Array l)) ->
  (forall m, Forall (fun e => P (snd e)) m -> P (Object m)) ->
  forall v, P v.
Proof using Type.
  intros Hnull Hbool Hnum Hstr Harr Hobj. fix IH 1.
  intros [|b|n|s|l|m]; [exact Hnull|apply Hbool|apply Hnum|apply Hstr|..].
  - apply Harr. induction l as [|v l IHl]; constructor; [apply IH|exact IHl].
  - apply Hobj. induction m as [|[k v] m IHm]; constructor; [apply IH|exact IHm].
Qed.

(** The value with the members of every object in key order, and its text. *)
Fixpoint normal (v : Value) : Value :=
  match v with
  | Object m => Object (sort_entries (List.map (fun kv => (fst kv, normal (snd kv))) m))
  | Array l => Array (List.map normal l)
  | _ => v
  end.

Fixpoint print (v : Value) : Text :=
  match v with
  | Object m =>
      OPEN_OBJECT :: join COMMA (List.map (fun kv => member (fst kv, print (snd kv))) m) ++ [CLOSE_OBJECT]
  | Array arr => OPEN_ARRAY :: join COMMA (List.map print arr) ++ [CLOSE_ARRAY]
  | JString s => QUOTE :: escape_json_string s ++ [QUOTE]
  | Number n => show_number n
  | Bool true => txt "true"
  | Bool false => txt "false"
  | Null => txt "null"
  end.

(** *** Sorting by key *)

Lemma key_leb_total a b : key_leb a b = true \/ key_leb b a = true.
Proof using Type.
  revert b. induction a as [|x a IH]; intros [|y b]; simpl; auto.
  destruct (Z.ltb_spec x y); [by left|]. destruct (Z.ltb_spec y x); [by right|]. apply IH.
Qed.

Lemma key_leb_antisym a b : key_leb a b = true -> key_leb b a = true -> a = b.
Proof using Type.
  revert b. induction a as [|x a IH]; intros [|y b]; simpl; try done.
  destruct (Z.ltb_spec x y), (Z.ltb_spec y x); try done; try lia.
  intros H1 H2. f_equal; [lia|auto].
Qed.

Lemma key_leb_trans a b c : key_leb a b = true -> key_leb b c = true -> key_leb a c = true.
Proof using Type.
  revert b c. induction a as [|x a IH]; intros [|y b] [|z c]; simpl; try done.
  destruct (Z.ltb_spec x y), (Z.ltb_spec y x), (Z.ltb_spec y z), (Z.ltb_spec z y), (Z.ltb_spec x z),
    (Z.ltb_spec z x); try done; try lia. apply IH.
Qed.

Section Sorting.
Context {V W : Type}.
Local Definition le (e e' : Text * V) : Prop := key_leb (fst e) (fst e') = true.

Lemma insert_entry_perm e (l : list (Text * V)) : insert_entry e l ≡ₚ e :: l.
Proof using Type.
  induction l as [|e' l IH]; simpl; [done|]. destruct (key_leb _ _); [done|].
  by rewrite IH, Permutation_swap.
Qed.

Lemma sort_entries_perm (l : list (Text * V)) : sort_entries l ≡ₚ l.
Proof using Type. induction l as [|e l IH]; simpl; [done|]. by rewrite insert_entry_perm, IH. Qed.

Lemma insert_entry_sorted e (l : list (Text * V)) : StronglySorted le l -> StronglySorted le (insert_entry e l).
Proof using Type.
  induction 1 as [|e' l Hs IH Hall]; simpl; [by repeat constructor|].
  destruct (key_leb (fst e) (fst e')) eqn:Hle.
  - constructor; [by constructor|]. constructor; [done|].
    eapply Forall_impl; [done|]. intros x Hx. by eapply key_leb_trans.
  - constructor; [done|]. rewrite insert_entry_perm. constructor; [|done].
    destruct (key_leb_total (fst e) (fst e')) as [H|H]; [congruence|done].
Qed.

Lemma sort_entries_sorted (l : list (Text * V)) : StronglySorted le (sort_entries l).
Proof using Type. induction l; simpl; [constructor|by apply insert_entry_sorted]. Qed.

Lemma sort_entries_unique (l l' : list (Text * V)) :
  NoDup (List.map fst l) -> l ≡ₚ l' -> sort_entries l = sort_entries l'.
Proof using Type.
  intros Hnd Hp. apply (StronglySorted_unique_strong le).
  - intros [k v] [k' v'] H1 H2 Hle Hle'. unfold le in *. simpl in *.
    pose proof (key_leb_antisym _ _ Hle Hle') as <-.
    rewrite sort_entries_perm in H1. rewrite sort_entries_perm, <- Hp in H2.
    f_equal. clear -Hnd H1 H2. induction l as [|[k0 v0] l IH]; [by apply not_elem_of_nil in H1|].
    simpl in Hnd. apply NoDup_cons in Hnd as [Hni Hnd].
    assert (Hin : forall u, (k, u) ∈ l -> k ∈ List.map fst l) by (intros u; apply (list_elem_of_fmap_2 fst)).
    rewrite elem_of_cons in H1. rewrite elem_of_cons in H2.
    destruct H1 as [H1|H1], H2 as [H2|H2]; simplify_eq; [done|..|by apply IH].
    + by destruct Hni; eapply Hin.
    + by destruct Hni; eapply Hin.
  - apply sort_entries_sorted.
  - apply sort_entries_sorted.
  - by rewrite !sort_entries_perm.
Qed.

Lemma insert_entry_map (f : V -> W) e l :
  insert_entry (fst e, f (snd e)) (List.map (fun kv => (fst kv, f (snd kv))) l)
  = List.map (fun kv => (fst kv, f (snd kv))) (insert_entry e l).
Proof using Type.
  induction l as [|e' l IH]; simpl; [done|]. destruct (key_leb _ _); simpl; [done|]. by rewrite IH.
Qed.

Lemma sort_entries_map (f : V -> W) l :
  sort_entries (List.map (fun kv => (fst kv, f (snd kv))) l)
  = List.map (fun kv => (fst kv, f (snd kv))) (sort_entries l).
Proof using Type. induction l as [|e l IH]; simpl; [done|]. by rewrite IH, insert_entry_map. Qed.

End Sorting.

(** *** The canonical text is the text of the normal form *)

Lemma map_ext_Forall {A B} (f g : A -> B) l : Forall (fun x => f x = g x) l -> List.map f l = List.map g l.
Proof using Type. induction 1; simpl; congruence. Qed.

Lemma canonical_normal v : canonical_json v = print (normal v).
Proof using Type.
  induction v as [| | | |l IH|m IH] using value_induction; try done; simpl.
  - rewrite List.map_map. do 2 f_equal. by rewrite (map_ext_Forall _ _ _ IH).
  - do 2 f_equal. rewrite <- (List.map_map (fun kv => (fst kv, print (snd kv))) member).
    rewrite <- sort_entries_map, List.map_map. simpl.
    do 3 f_equal. apply map_ext_Forall. eapply Forall_impl; [done|]. intros [k v] Hv. simpl in *. congruence.
Qed.

Lemma same_normal v w : wf v -> same v w -> normal v = normal w.
Proof using Type.
  intros Hwf. revert w. induction v as [| | | |l IH|m IH] using value_induction; intros w Hs;
    inversion Hs as [| | | |? l' Hl|? m1 m' Hp Hm]; subst; try done; simpl.
  - inversion Hwf as [| | | |? Hwl|]; subst. f_equal. clear Hs Hwf.
    induction Hl as [|v w l l' Hv Hl IHl]; simpl; [done|]. inversion IH; inversion Hwl; subst.
    f_equal; auto.
  - inversion Hwf as [| | | | |? Hnd Hwm]; subst. f_equal.
    transitivity (sort_entries (List.map (fun kv => (fst kv, normal (snd kv))) m1)).
    + apply sort_entries_unique; [|by rewrite Hp]. rewrite List.map_map. simpl. done.
    + f_equal. rewrite Hp in IH, Hwm. clear -IH Hwm Hm.
      induction Hm as [|[k v] [k' w] m1 m' [Hk Hv] Hm IHm]; simpl in *; [done|].
      inversion IH; inversion Hwm; subst. f_equal; [|by apply IHm]. f_equal. auto.
Qed.

Lemma normal_same v w : normal v = normal w -> same v w.
Proof using Type.
  revert w. induction v as [|b|n|s|l IH|m IH] using value_induction; intros [|b'|n'|s'|l'|m'] H;
    simpl in H; try discriminate; try (injection H as ->; constructor); [constructor| |].
  - injection H as H. constructor. revert l' H. induction IH as [|v l Hv IH IHl]; intros [|w l'] H;
      simpl in H; try discriminate; constructor; injection H as H1 H2; auto.
  - injection H as H.
    assert (Hp : List.map (fun kv => (fst kv, normal (snd kv))) m
                 ≡ₚ List.map (fun kv => (fst kv, normal (snd kv))) m').
    { by rewrite <- sort_entries_perm, H, sort_entries_perm. }
    symmetry in Hp. apply Permutation_map_inv in Hp as (m1&Hm1&Hp).
    econstructor; [done|]. rewrite Hp in IH. clear -IH Hm1.
    revert m' Hm1. induction IH as [|[k v] m1 Hv IH IHm]; intros [|[k' w] m'] H; simpl in H;
      try discriminate; constructor; [|apply IHm; congruence]. simpl. split; [congruence|]. apply Hv. simpl. congruence.
Qed.

(** *** The text determines the value *)

(** The characters of a JSON number. *)
Definition num_char (c : Z) : bool :=
  ((48 <=? c) && (c <=? 57)) || (c =? 43) || (c =? 45) || (c =? 46) || (c =? 69) || (c =? 101).

(** A text that cannot go on a number. *)
Definition delim (r : Text) : Prop := match r with [] => True | c :: _ => num_char c = false end.

(** A printer whose output determines what it printed and where it stops. *)
Definition decodable {A} (pr : A -> Text) (a : A) : Prop :=
  forall b r r', delim r -> delim r' -> pr a ++ r = pr b ++ r' -> a = b /\ r = r'.

Lemma escape_char_head c : exists x rest, escape_char c = x :: rest /\ x <> QUOTE.
Proof using Type.
  unfold escape_char. repeat case_match; to_prop; do 2 eexists; split; try reflexivity; unfold QUOTE, BACKSLASH in *; lia.
Qed.

(** Reading one character back. *)
Definition unhex (d : Z) : Z := if d <? 58 then d - 48 else d - 87.
Definition unescape_char (t : Text) : option (Z * Text) :=
  match t with
  | [] => None
  | c :: rest =>
      if c =? BACKSLASH then
        match rest with
        | [] => None
        | x :: rest' =>
            if x =? 110 then Some (10, rest')
            else if x =? 114 then Some (13, rest')
            else if x =? 116 then Some (9, rest')
            else if x =? 117 then
              match rest' with
              | _ :: _ :: d1 :: d0 :: rest'' => Some (16 * unhex d1 + unhex d0, rest'')
              | _ => None
              end
            else Some (x, rest')
        end
      else Some (c, rest)
  end.

Lemma unhex_digit d : 0 <= d < 16 -> unhex (hex_digit d) = d.
Proof using Type.
  intros H. unfold hex_digit, unhex. destruct (Z.ltb_spec d 10), (Z.ltb_spec (48 + d) 58), (Z.ltb_spec (87 + d) 58); lia.
Qed.

Lemma unescape_escape c r : unescape_char (escape_char c ++ r) = Some (c, r).
Proof using Type.
  clear show_number.
  unfold escape_char, is_control, BACKSLASH, QUOTE.
  destruct (Z.eqb_spec c 34); [by subst|]. destruct (Z.eqb_spec c 92); [by subst|].
  destruct (Z.eqb_spec c 10); [by subst|]. destruct (Z.eqb_spec c 13); [by subst|].
  destruct (Z.eqb_spec c 9); [by subst|]. destruct (_ || _) eqn:Hc.
  - simpl. do 2 f_equal. rewrite !unhex_digit by (apply Z.mod_pos_bound; lia). to_prop.
    Z.to_euclidean_division_equations. lia.
  - simpl. unfold BACKSLASH. by rewrite (proj2 (Z.eqb_neq c 92)).
Qed.

Lemma escape_char_inj c c' r r' : escape_char c ++ r = escape_char c' ++ r' -> c = c' /\ r = r'.
Proof using Type. intros H. apply (f_equal unescape_char) in H. rewrite !unescape_escape in H. by simplify_eq. Qed.

Lemma escape_string_inj s s' r r' :
  escape_json_string s ++ QUOTE :: r = escape_json_string s' ++ QUOTE :: r' -> s = s' /\ r = r'.
Proof using Type.
  revert s'. induction s as [|c s IH]; intros [|c' s'] H; simpl in H.
  - by simplify_eq.
  - destruct (escape_char_head c') as (x&rest&Hx&?). rewrite Hx in H. by simplify_eq/=.
  - destruct (escape_char_head c) as (x&rest&Hx&?). rewrite Hx in H. by simplify_eq/=.
  - rewrite <- !app_assoc in H. apply escape_char_inj in H as [<- H]. apply IH in H as [-> ->]. done.
Qed.

(** Joined items, up to a closing character. *)
Lemma join_inj {A} (pr : A -> Text) close l :
  num_char close = false -> close <> COMMA -> Forall (decodable pr) l ->
  (forall a, exists x rest, pr a = x :: rest /\ x <> close) ->
  forall l' r r', join COMMA (List.map pr l) ++ close :: r = join COMMA (List.map pr l') ++ close :: r' ->
  l = l' /\ r = r'.
Proof using Type.
  intros Hc Hcomma Hl Hhead.
  assert (Hcons : forall a m, exists s, join COMMA (List.map pr (a :: m)) = pr a ++ s
    /\ (s = [] /\ m = [] \/ s = COMMA :: join COMMA (List.map pr m) /\ m <> [])).
  { intros a [|b m]; [exists []; rewrite app_nil_r; auto|]. eexists. split; [done|]. by right. }
  induction Hl as [|a l Ha Hl IH]; intros [|a' l'] r r' H.
  - by simplify_eq/=.
  - destruct (Hcons a' l') as (s&Hs&_). destruct (Hhead a') as (x&rest&Hx&?).
    rewrite Hs, Hx in H. by simplify_eq/=.
  - destruct (Hcons a l) as (s&Hs&_). destruct (Hhead a) as (x&rest&Hx&?).
    rewrite Hs, Hx in H. by simplify_eq/=.
  - destruct (Hcons a l) as (s&Hs&Hcase). destruct (Hcons a' l') as (s'&Hs'&Hcase').
    rewrite Hs, Hs', <- !app_assoc in H.
    assert (Hd : forall z, delim (close :: z) /\ delim (COMMA :: z)) by done.
    apply Ha in H as [<- H].
    2:{ destruct Hcase as [[-> _]|[-> _]]; simpl; done. }
    2:{ destruct Hcase' as [[-> _]|[-> _]]; simpl; done. }
    destruct Hcase as [[-> ->]|[-> Hne]], Hcase' as [[-> ->]|[-> Hne']]; simplify_eq/=; try done.
    apply IH in H as [-> ->]. done.
Qed.

Context (show_inj : forall n n', show_number n = show_number n' -> n = n').
Context (show_chars : forall n, Forall (fun c => num_char c = true) (show_number n)).
Context (show_some : forall n, show_number n <> []).

Lemma number_decodable n n' r r' :
  delim r -> delim r' -> show_number n ++ r = show_number n' ++ r' -> n = n' /\ r = r'.
Proof using show_inj show_chars.
  intros Hr Hr' H. enough (show_number n = show_number n' /\ r = r') as [?%show_inj ?] by done.
  pose proof (show_chars n) as Hn. pose proof (show_chars n') as Hn'. clear show_inj show_chars.
  revert H Hn Hn'. generalize (show_number n) (show_number n'). clear n n'.
  intros a. induction a as [|x a IH]; intros [|y b] H Ha Hb; simpl in H.
  - done.
  - subst r. inversion Hb. simpl in Hr. congruence.
  - subst r'. inversion Ha. simpl in Hr'. congruence.
  - injection H as -> H. inversion Ha; inversion Hb; subst. destruct (IH b) as [-> ->]; done.
Qed.

(** The first character tells the kind of a value. *)
Definition kind_of (v : Value) (c : Z) : Prop :=
  match v with
  | Null => c = 110
  | Bool true => c = 116
  | Bool false => c = 102
  | Number _ => num_char c = true
  | JString _ => c = QUOTE
  | Array _ => c = OPEN_ARRAY
  | Object _ => c = OPEN_OBJECT
  end.

Lemma print_head v : exists c rest, print v = c :: rest /\ kind_of v c.
Proof using show_chars show_some.
  destruct v as [|[]|n|s|l|m]; simpl; try (do 2 eexists; by split).
  destruct (show_number n) as [|c rest] eqn:Hn; [by destruct (show_some n)|].
  exists c, rest. split; [done|]. pose proof (show_chars n) as H. rewrite Hn in H. by inversion H.
Qed.

(** Two values whose texts start alike are of the same kind. *)
Lemma print_kind v w r r' : print v ++ r = print w ++ r' -> exists c, kind_of v c /\ kind_of w c.
Proof using show_chars show_some.
  destruct (print_head v) as (c&rest&->&Hk), (print_head w) as (c'&rest'&->&Hk').
  intros [= -> _]. by exists c'.
Qed.

Lemma member_decodable (k : Text) v : decodable print v -> decodable (fun kv => member (fst kv, print (snd kv))) (k, v).
Proof using Type.
  intros Hv [k' w] r r' Hr Hr' H. simpl in H. injection H as H. rewrite <- !app_assoc in H. simpl in H.
  apply escape_string_inj in H as [-> H]. injection H as H. apply Hv in H as [-> ->]; done.
Qed.

Lemma print_decodable v : decodable print v.
Proof using show_inj show_chars show_some.
  induction v as [|b|n|s|l IH|m IH] using value_induction; intros w r r' Hr Hr' H;
    destruct (print_kind _ _ _ _ H) as (c&Hc&Hc'); destruct w as [|b'|n'|s'|l'|m'];
    try destruct b; try destruct b'; simpl in Hc, Hc'; subst; try done; simpl in H.
  all: try (injection H as ->; done).
  - by apply number_decodable in H as [-> ->].
  - injection H as H. rewrite <- !app_assoc in H. by apply escape_string_inj in H as [-> ->].
  - injection H as H. rewrite <- !app_assoc in H. apply join_inj in H as [-> ->]; try done.
    intros a. destruct (print_head a) as (x&rest&->&Hk). do 2 eexists. split; [done|].
    intros ->. by destruct a as [|[]| | | |].
  - injection H as H. rewrite <- !app_assoc in H. apply join_inj in H as [-> ->]; try done.
    + eapply Forall_impl; [done|]. intros [k v] Hv. by apply member_decodable.
    + intros a. by do 2 eexists.
Qed.

Lemma canonical_json_iff v w : wf v -> canonical_json v = canonical_json w <-> same v w.
Proof using show_inj show_chars show_some.
  intros Hv. rewrite !canonical_normal. split.
  - intros H. apply normal_same. apply (f_equal (fun t => t ++ [])) in H.
    by apply print_decodable in H as [-> _].
  - intros Hs. by rewrite (same_normal v w).
Qed.

Lemma canonical_snapshot_signed snapshot : canonical_snapshot snapshot = canonical_json (signed snapshot).
Proof using Type. by destruct snapshot as [[]|]. Qed.

Lemma signed_wf snapshot : (forall v, snapshot = Some v -> wf v) -> wf (signed snapshot).
Proof using Type.
  destruct snapshot as [v|]; intros H; [|by constructor; constructor]. specialize (H v eq_refl).
  destruct v as [| | | | |m]; try done. inversion H as [| | | | |? Hnd Hm]; subst. simpl. constructor.
  - clear -Hnd. induction m as [|[k v] m IH]; [constructor|]. simpl in Hnd. apply NoDup_cons in Hnd as [Hni Hnd].
    rewrite filter_cons. destruct (decide _); [|by apply IH]. simpl. constructor; [|by apply IH].
    intros ([k' v']&->&Hin)%list_elem_of_fmap. apply Hni. apply list_elem_of_filter in Hin as [_ Hin].
    by apply (list_elem_of_fmap_2 fst) in Hin.
  - rewrite Forall_forall in Hm |- *. intros e He. apply list_elem_of_filter in He as [_ He]. by apply Hm.
Qed.

(** C37: The text that is signed is canonical: two snapshots have the same text
    exactly when they hold the same data, at every depth and in whatever order
    their members come, the top-level [run_timestamp] apart; an absent snapshot
    counts as an empty object.  Equal data therefore give equal signatures, and
    different data different inputs of the hash. *)
Theorem snapshot_signature_canonical sha256 a b :
  (forall v, a = Some v -> wf v) ->
  (canonical_snapshot a = canonical_snapshot b <-> same (signed a) (signed b))
  /\ (same (signed a) (signed b) -> build_snapshot_signature sha256 a = build_snapshot_signature sha256 b).
Proof using show_inj show_chars show_some.
  intros Ha. assert (Hiff : canonical_snapshot a = canonical_snapshot b <-> same (signed a) (signed b)).
  { rewrite !canonical_snapshot_signed. by apply canonical_json_iff, signed_wf. }
  split; [done|]. intros Hs. unfold build_snapshot_signature. by rewrite (proj2 Hiff).
Qed.

End Signature.

(** ** A witness: numbers written in unary *)

Definition unary (n : nat) : Text := repeat 49 (S n).

Lemma unary_inj n n' : unary n = unary n' -> n = n'.
Proof. intros H. apply (f_equal length) in H. unfold unary in H. rewrite !repeat_length in H. lia. Qed.

Lemma unary_chars n : Forall (fun c => num_char c = true) (unary n).
Proof. unfold unary. induction (S n); simpl; by constructor. Qed.

(** The same data on two days, members in two orders. *)
Definition monday : Value (Num := nat) :=
  Object [(txt "z", Array [Number 1%nat; Object [(txt "b", Null); (txt "a", JString [34; 10])]]);
          (RUN_TIMESTAMP, JString (txt "mon")); (txt "k", Bool true)].
Definition tuesday : Value (Num := nat) :=
  Object [(RUN_TIMESTAMP, JString (txt "tue")); (txt "k", Bool true);
          (txt "z", Array [Number 1%nat; Object [(txt "a", JString [34; 10]); (txt "b", Null)]])].

Lemma monday_wf : wf monday.
Proof.
  repeat match goal with
  | |- wf (Object _) => apply wf_object
  | |- NoDup _ => apply (bool_decide_eq_true_1 _); vm_compute; reflexivity
  | _ => constructor
  end.
Qed.

Lemma snapshot_signature_canonical_witness :
  same (signed (Some monday)) (signed (Some tuesday)) /\ ~ same (signed (Some monday)) (signed None).
Proof.
  pose proof (fun b => proj1 (snapshot_signature_canonical unary unary_inj unary_chars (fun n => ltac:(discriminate))
                                (fun x => x) (Some monday) b
                                (fun v H => match H in _ = o return match o with Some u => wf u | None => True end
                                            with eq_refl => monday_wf end))) as H.
  split.
  - apply (H (Some tuesday)). vm_compute. reflexivity.
  - intros Hs. apply (H None) in Hs. vm_compute in Hs. discriminate Hs.
Defined.
