(* ===== verification/Web.v ===== *)
(** * The web edge (crate [cherry-pit-web], [middleware/])

    The pure decisions taken on a request before anything else happens: cache
    keys from paths ([path.rs]), the origin check of a WebSocket upgrade
    ([ws_auth.rs]), correlation from trace headers ([correlation.rs]), encoding
    negotiation and conditional requests ([compression.rs], [http.rs]), and the
    response for an error ([error.rs]); and what the hooks of the tracing layer
    record of a request ([trace.rs]). *)

From S2P Require Import Prelude Core Chars.

(** The values of a request header, in order; [None] is a value that is not
    visible ASCII, for which [to_str] fails. *)
Definition HeaderMap : Type := string -> list (option Text).

(** [headers.get(name)]. *)
Definition get (headers : HeaderMap) (name : string) : option (option Text) := head (headers name).

(** [headers.get(name).and_then(|h| h.to_str().ok())]. *)
Definition get_str (headers : HeaderMap) (name : string) : option Text :=
  match get headers name with Some (Some v) => Some v | _ => None end.

Lemma get_str_Some headers name v : get_str headers name = Some v <-> get headers name = Some (Some v).
Proof. unfold get_str. destruct (get headers name) as [[w|]|]; split; congruence. Qed.

(** [o.and_then(f)]. *)
Definition and_then {A B} (o : option A) (f : A -> option B) : option B :=
  match o with Some a => f a | None => None end.

(** ** Paths ([path.rs]) *)

Module Path.

Definition SLASH : Z := 47.
Definition BACKSLASH : Z := 92.
Definition DOT : Z := 46.

Record PathSegmentError := mkSegmentError { field : Text; reason : Text }.

Definition sanitize_path_segment (value field_name : Text) : result Text PathSegmentError :=
  if bool_decide (value = []) then Err (mkSegmentError field_name (field_name ++ txt " is empty"))
  else if contains_str (txt "..") value || contains_char SLASH value || contains_char BACKSLASH value
          || contains_char 63 value || contains_char 35 value then
    Err (mkSegmentError field_name
           (field_name ++ txt " contains invalid path characters: " ++ take 100 value))
  else if existsb is_control value then
    Err (mkSegmentError field_name (field_name ++ txt " contains control characters"))
  else Ok value.

Record NormalizedPath := mkNormalized { key : Text; has_trailing_slash : bool }.

(** The loop over the components. *)
Fixpoint clean_segments (segs : list Text) : option (list Text) :=
  match segs with
  | [] => Some []
  | seg :: rest =>
      if bool_decide (seg = []) || bool_decide (seg = [DOT]) then clean_segments rest
      else if contains_str (txt "..") seg then None
      else match clean_segments rest with Some l => Some (seg :: l) | None => None end
  end.

Section Path.
(** [percent_decode_str(raw).decode_utf8().ok()] of the [percent_encoding] crate. *)
Context (percent_decode : Text -> option Text).

Definition normalize_request_path (raw : Text) : option NormalizedPath :=
  match percent_decode raw with
  | None => None
  | Some decoded =>
      if contains_char 0 decoded || contains_char BACKSLASH decoded then None
      else
        let trailing := ends_with [SLASH] decoded && (1 <? Z.of_nat (length decoded)) in
        match clean_segments (split SLASH decoded) with
        | None => None
        | Some segments =>
            let joined := join SLASH segments in
            if bool_decide (joined = []) then Some (mkNormalized (txt "index.html") true)
            else Some (mkNormalized joined trailing)
        end
  end.
End Path.

(** A component that cannot leave the directory it is looked up in. *)
Definition safe_segment (seg : Text) : Prop :=
  seg <> [] /\ seg <> [DOT] /\ contains_str (txt "..") seg = false
  /\ (SLASH ∉ seg) /\ (BACKSLASH ∉ seg) /\ (0 ∉ seg).

Definition kept (seg : Text) : Prop := seg <> [] /\ seg <> [DOT].

#[global] Instance kept_dec seg : Decision (kept seg).
Proof. unfold kept. apply _. Defined.

Lemma clean_segments_spec segs :
  match clean_segments segs with
  | Some l => l = filter kept segs /\ Forall (fun seg => contains_str (txt "..") seg = false) l
  | None => Exists (fun seg => contains_str (txt "..") seg = true) segs
  end.
Proof.
  induction segs as [|seg segs IH]; [by simpl|]. cbn [clean_segments]. rewrite filter_cons.
  destruct (decide (kept seg)) as [[H1 H2]|Hn].
  - rewrite !bool_decide_eq_false_2 by done. cbn [orb].
    destruct (contains_str (txt "..") seg) eqn:Hd; [by left|].
    destruct (clean_segments segs) as [l|]; [|by right].
    destruct IH as [-> Hl]. split; [done|by constructor].
  - replace (bool_decide (seg = []) || bool_decide (seg = [DOT])) with true.
    2:{ symmetry. apply orb_true_iff. rewrite !bool_decide_eq_true. unfold kept in Hn.
        destruct (decide (seg = [])), (decide (seg = [DOT])); tauto. }
    destruct (clean_segments segs); [done|by right].
Qed.

Lemma clean_clean segs :
  Forall (fun seg => kept seg /\ contains_str (txt "..") seg = false) segs ->
  clean_segments segs = Some segs.
Proof.
  induction 1 as [|seg segs [[H1 H2] Hd] Hs IH]; [done|]. cbn [clean_segments].
  by rewrite !bool_decide_eq_false_2, Hd, IH.
Qed.

Lemma join_empty sep l : Forall (fun seg : Text => seg <> []) l -> join sep l = [] -> l = [].
Proof.
  destruct 1 as [|seg l Hseg Hl]; [done|]. destruct l; simpl; [done|]. by destruct seg.
Qed.

(** The segments of a decoded path are safe once they are kept and have no dots. *)
Lemma kept_safe d seg :
  0 ∉ d -> BACKSLASH ∉ d -> seg ∈ split SLASH d -> kept seg -> contains_str (txt "..") seg = false ->
  safe_segment seg.
Proof.
  intros H0 H92 Hin [Hne Hdot] Hdd. destruct (split_pieces _ _ _ Hin) as [Hs Hsub].
  repeat split; try done; auto.
Qed.

Lemma safe_fixed k :
  Forall safe_segment (split SLASH k) -> key <$> normalize_request_path Some k = Some k.
Proof.
  intros Hk. rewrite Forall_forall in Hk.
  assert (Hno : forall x, x <> SLASH -> (forall seg, safe_segment seg -> x ∉ seg) -> contains_char x k = false).
  { intros x Hx Hs. apply contains_char_false. intros [->|(seg&Hin&Hxs)]%(split_covers SLASH); [done|].
    by eapply Hs; [apply Hk|]. }
  unfold normalize_request_path. rewrite !Hno; [|done|by intros seg (?&?&?&?&?&?)|done|by intros seg (?&?&?&?&?&?)].
  cbn [orb]. rewrite clean_clean, join_split.
  - destruct k as [|x k]; [|done]. destruct (Hk []) as [? _]; [by left|done].
  - apply Forall_forall. intros seg Hin. destruct (Hk seg Hin) as (?&?&?&_). done.
Qed.

(** C38: A cache key cannot escape the cache.  A request path is rejected exactly
    when it does not decode, or contains a NUL, a backslash or a component with
    two dots in a row; otherwise the key is the non-empty components, without the
    single dots, joined by slashes ([index.html] when there are none).  Every
    component of the key is safe, and a key that is normalised again stays as it
    is. *)
Theorem normalize_request_path_safe percent_decode raw :
  match normalize_request_path percent_decode raw with
  | Some n =>
      exists d, percent_decode raw = Some d
        /\ key n = (match filter kept (split SLASH d) with [] => txt "index.html" | l => join SLASH l end)
        /\ Forall safe_segment (split SLASH (key n))
        /\ key <$> normalize_request_path Some (key n) = Some (key n)
  | None =>
      percent_decode raw = None
      \/ exists d, percent_decode raw = Some d
           /\ (0 ∈ d \/ BACKSLASH ∈ d
               \/ Exists (fun seg => contains_str (txt "..") seg = true) (split SLASH d))
  end.
Proof.
  unfold normalize_request_path at 1. destruct (percent_decode raw) as [d|]; [|by left].
  destruct (contains_char 0 d) eqn:H0; simpl.
  { right. exists d. split; [done|]. left. by apply contains_char_true. }
  destruct (contains_char BACKSLASH d) eqn:H92.
  { right. exists d. split; [done|]. right. left. by apply contains_char_true. }
  apply contains_char_false in H0, H92. pose proof (clean_segments_spec (split SLASH d)) as Hc.
  destruct (clean_segments (split SLASH d)) as [l|]; [|by right; exists d; auto].
  destruct Hc as [-> Hdots]. set (l := filter kept (split SLASH d)) in *.
  assert (Hsafe : Forall safe_segment l).
  { apply Forall_forall. intros seg Hin. rewrite Forall_forall in Hdots. pose proof (Hdots seg Hin).
    apply list_elem_of_filter in Hin as [Hk Hin]. by eapply kept_safe. }
  assert (Hl : l <> [] -> split SLASH (join SLASH l) = l).
  { intros Hne. apply split_join; [done|]. eapply Forall_impl; [apply Hsafe|]. by intros seg (?&?&?&?&?). }
  case_bool_decide as Hj.
  - apply join_empty in Hj; [|eapply Forall_impl; [apply Hsafe|]; by intros seg (?&_)].
    exists d. fold l. rewrite Hj. split_and!; try done. cbn [key].
    apply (bool_decide_eq_true_1 _). vm_compute. reflexivity.
  - assert (Hne : l <> []) by (intros E; rewrite E in Hj; done).
    exists d. fold l. cbn [key]. rewrite Hl by done. split_and!; [done|by destruct l|done|].
    apply safe_fixed. by rewrite Hl.
Qed.

(** A segment is accepted, unchanged, exactly when it is not empty and has no
    traversal, separator, query, fragment or control character. *)
Lemma sanitize_path_segment_spec value field_name :
  (exists v, sanitize_path_segment value field_name = Ok v) <->
  value <> [] /\ contains_str (txt "..") value = false
  /\ Forall (fun c => (c ∉ [SLASH; BACKSLASH; 63; 35]) /\ is_control c = false) value.
Proof.
  assert (Hf : Forall (fun c => (c ∉ [SLASH; BACKSLASH; 63; 35]) /\ is_control c = false) value
    <-> (SLASH ∉ value) /\ (BACKSLASH ∉ value) /\ (63 ∉ value) /\ (35 ∉ value) /\ existsb is_control value = false).
  { induction value as [|c value IH]; simpl.
    - split; [intros _|by constructor]. split_and!; try apply not_elem_of_nil. done.
    - rewrite Forall_cons, IH, orb_false_iff, !not_elem_of_cons.
      split; [intros [[(?&?&?&?&?) ?] (?&?&?&?&?)]|intros ([? ?]&[? ?]&[? ?]&[? ?]&[? ?])];
        split_and!; try congruence; try done. apply not_elem_of_nil. }
  rewrite Hf, <- !contains_char_false. unfold sanitize_path_segment.
  case_bool_decide; [split; [by intros [v ?]|tauto]|].
  destruct (contains_str _ value), (contains_char SLASH value), (contains_char BACKSLASH value),
    (contains_char 63 value), (contains_char 35 value), (existsb is_control value); simpl;
    split; try (by intros [v ?]); try (by intros (?&?&?&?&?&?&?)); eauto 10.
Qed.

End Path.

(** ** The origin of a WebSocket upgrade ([ws_auth.rs]) *)

Module WsAuth.

Definition AT : Z := 64.
Definition COLON : Z := 58.
Definition OPEN : Z := 91.
Definition CLOSE : Z := 93.

Inductive WebSocketOriginPolicy := Strict | AllowAbsent.

Record WsPolicy := mkWsPolicy { max_connections : Z; origin_policy : WebSocketOriginPolicy }.
Definition WsPolicy_new (max_connections : Z) : WsPolicy := mkWsPolicy max_connections Strict.
Definition permissive_for_tests : WsPolicy := mkWsPolicy 1024 AllowAbsent.

Record Authority := mkAuthority { host : Text; port : option Z }.

#[global] Instance Authority_eq_dec : EqDecision Authority.
Proof. solve_decision. Defined.

(** The host and the text of the port. *)
Definition split_authority (raw : Text) : option (Text * option Text) :=
  match strip_prefix [OPEN] raw with
  | Some rest =>
      match split_once CLOSE rest with
      | None => None
      | Some (inner, after) =>
          if bool_decide (inner = []) || contains_char OPEN inner then None
          else if bool_decide (after = []) then Some (inner, None)
          else match strip_prefix [COLON] after with
               | Some p => Some (inner, Some p)
               | None => None
               end
      end
  | None =>
      if contains_char OPEN raw || contains_char CLOSE raw then None
      else
        let '(h, p) := match rsplit_once COLON raw with
                       | Some (h, p) => (h, Some p)
                       | None => (raw, None)
                       end in
        if bool_decide (h = []) || contains_char COLON h then None else Some (h, p)
  end.

Definition Authority_parse (raw : Text) (default_port : Z) : option Authority :=
  if bool_decide (raw = []) || contains_char AT raw then None
  else
    match split_authority raw with
    | None => None
    | Some (h, port_str) =>
        match port_str with
        | None => Some (mkAuthority (to_ascii_lowercase h) None)
        | Some p =>
            match from_str_radix U16_MAX 10 p with
            | None => None
            | Some parsed =>
                Some (mkAuthority (to_ascii_lowercase h)
                        (if parsed =? default_port then None else Some parsed))
            end
        end
    end.

Definition default_port (scheme : Text) : option Z :=
  let s := to_ascii_lowercase scheme in
  if bool_decide (s = txt "https") then Some 443
  else if bool_decide (s = txt "http") then Some 80
  else None.

Definition validate_ws_origin (headers : HeaderMap) (policy : WebSocketOriginPolicy) : bool :=
  match get headers "origin" with
  | None => match policy with AllowAbsent => true | Strict => false end
  | Some None => false
  | Some (Some origin_str) =>
      match split_once_str (txt "://") origin_str with
      | None => false
      | Some (scheme, after_scheme) =>
          match default_port scheme with
          | None => false
          | Some d =>
              let origin_authority :=
                match split_once 47 after_scheme with Some (h, _) => h | None => after_scheme end in
              match get headers "host" with
              | None | Some None => false
              | Some (Some host_str) =>
                  match Authority_parse origin_authority d, Authority_parse host_str d with
                  | Some origin, Some host => bool_decide (origin = host)
                  | _, _ => false
                  end
              end
          end
      end
  end.

(** How an authority can be written. *)
Definition plain (h : Text) : Prop := h <> [] /\ (AT ∉ h) /\ (COLON ∉ h) /\ (OPEN ∉ h) /\ (CLOSE ∉ h).
Definition bracketed (h : Text) : Prop := h <> [] /\ (AT ∉ h) /\ (OPEN ∉ h) /\ (CLOSE ∉ h).
Definition port_text (d : Z) (ds : Text) (p : option Z) : Prop :=
  exists n, from_str_radix U16_MAX 10 ds = Some n /\ p = if n =? d then None else Some n.

Inductive written (d : Z) : Text -> Authority -> Prop :=
| written_host h : plain h -> written d h (mkAuthority (to_ascii_lowercase h) None)
| written_host_port h ds p : plain h -> port_text d ds p ->
    written d (h ++ COLON :: ds) (mkAuthority (to_ascii_lowercase h) p)
| written_v6 h : bracketed h -> written d (OPEN :: h ++ [CLOSE]) (mkAuthority (to_ascii_lowercase h) None)
| written_v6_port h ds p : bracketed h -> port_text d ds p ->
    written d (OPEN :: h ++ CLOSE :: COLON :: ds) (mkAuthority (to_ascii_lowercase h) p).

Lemma not_in_app (c : Z) (a b : Text) : c ∉ a ++ b <-> (c ∉ a) /\ (c ∉ b).
Proof. rewrite elem_of_app. tauto. Qed.

(** The text of a port has none of the characters that structure an authority. *)
Lemma port_text_plain d ds p : port_text d ds p -> Forall (fun c => c ∉ ds) [AT; COLON; OPEN; CLOSE].
Proof.
  intros (n&Hn&_). repeat constructor; intros Hc; pose proof (from_str_radix_chars _ _ _ _ Hn Hc) as H;
    unfold AT, COLON, OPEN, CLOSE in H; lia.
Qed.

Lemma split_authority_plain h p raw :
  plain h -> Forall (fun c => c ∉ default [] p) [AT; COLON; OPEN; CLOSE] ->
  raw = h ++ match p with Some ds => COLON :: ds | None => [] end ->
  split_authority raw = Some (h, p) /\ (AT ∉ raw) /\ raw <> [].
Proof.
  intros (Hne&Hat&Hco&Hop&Hcl) Hp ->. inversion_clear Hp as [|?? Pat P1]. inversion_clear P1 as [|?? Pco P2].
  inversion_clear P2 as [|?? Pop P3]. inversion_clear P3 as [|?? Pcl _].
  assert (Hno : forall c, c ∉ h -> c ∉ default [] p -> c <> COLON ->
    c ∉ h ++ match p with Some ds => COLON :: ds | None => [] end).
  { intros c H1 H2 H3. apply not_in_app. split; [done|]. destruct p as [ds|]; simpl in *; [|apply not_elem_of_nil].
    by apply not_elem_of_cons. }
  split; [|split; [by apply Hno|by destruct h]].
  unfold split_authority. destruct h as [|x h]; [done|].
  destruct (strip_prefix [OPEN] _) as [r|] eqn:Hs.
  { apply strip_prefix_Some in Hs. simplify_eq/=. destruct Hop. by left. }
  rewrite !(proj2 (contains_char_false _ _)) by (apply Hno; done). cbn [orb].
  destruct p as [ds|]; simpl in Pco.
  - rewrite (proj2 (rsplit_once_Some COLON _ (x :: h) ds)) by done.
    rewrite bool_decide_eq_false_2 by done. by rewrite (proj2 (contains_char_false _ _)).
  - rewrite app_nil_r. rewrite (proj2 (rsplit_once_None COLON _)) by done.
    rewrite bool_decide_eq_false_2 by done. by rewrite (proj2 (contains_char_false _ _)).
Qed.

Lemma split_authority_v6 h p raw :
  bracketed h -> AT ∉ default [] p ->
  raw = OPEN :: h ++ CLOSE :: match p with Some ds => COLON :: ds | None => [] end ->
  split_authority raw = Some (h, p) /\ (AT ∉ raw) /\ raw <> [].
Proof.
  intros (Hne&Hat&Hop&Hcl) Hp ->. split.
  - unfold split_authority. rewrite (proj2 (strip_prefix_Some [OPEN] _ (h ++ CLOSE :: _))) by done.
    rewrite (proj2 (split_once_Some CLOSE _ h _)) by done.
    rewrite bool_decide_eq_false_2 by done. rewrite (proj2 (contains_char_false _ _)) by done. cbn [orb].
    by destruct p.
  - split; [|done]. apply not_elem_of_cons. split; [done|]. apply not_in_app. split; [done|].
    apply not_elem_of_cons. split; [done|]. destruct p; simpl in *; [by apply not_elem_of_cons|apply not_elem_of_nil].
Qed.

Lemma split_authority_inv raw h p :
  AT ∉ raw -> split_authority raw = Some (h, p) ->
  (plain h /\ raw = h ++ match p with Some ds => COLON :: ds | None => [] end)
  \/ (bracketed h /\ raw = OPEN :: h ++ CLOSE :: match p with Some ds => COLON :: ds | None => [] end).
Proof.
  intros Hat H. unfold split_authority in H. destruct (strip_prefix [OPEN] raw) as [rest|] eqn:Hs.
  - right. apply strip_prefix_Some in Hs as ->. destruct (split_once CLOSE rest) as [[inner after]|] eqn:Hc; [|done].
    apply split_once_Some in Hc as [-> Hcl]. case_bool_decide as Hne; [done|]. cbn [orb] in H.
    destruct (contains_char OPEN inner) eqn:Ho; [done|]. apply contains_char_false in Ho.
    assert (Hb : bracketed inner).
    { split_and!; try done. intros Hin. apply Hat. apply elem_of_cons. right. apply elem_of_app. by left. }
    case_bool_decide as Ha; [subst; by simplify_eq|].
    destruct (strip_prefix [COLON] after) as [ds|] eqn:Hd; [|done].
    apply strip_prefix_Some in Hd as ->. by simplify_eq.
  - left. destruct (contains_char OPEN raw) eqn:Ho; [done|]. destruct (contains_char CLOSE raw) eqn:Hcl; [done|].
    cbn [orb] in H. apply contains_char_false in Ho, Hcl.
    destruct (rsplit_once COLON raw) as [[h' p']|] eqn:Hr.
    + apply rsplit_once_Some in Hr as [-> Hn]. case_bool_decide; [done|]. cbn [orb] in H.
      destruct (contains_char COLON h') eqn:Hco; [done|]. apply contains_char_false in Hco. simplify_eq.
      apply not_in_app in Hat as [? _], Ho as [? _], Hcl as [? _]. done.
    + apply rsplit_once_None in Hr. case_bool_decide; [done|]. cbn [orb] in H.
      rewrite (proj2 (contains_char_false _ _)) in H by done. simplify_eq. by rewrite app_nil_r.
Qed.

Lemma parse_split d raw h p :
  split_authority raw = Some (h, p) /\ (AT ∉ raw) /\ raw <> [] ->
  Authority_parse raw d =
    match p with
    | None => Some (mkAuthority (to_ascii_lowercase h) None)
    | Some ds => match from_str_radix U16_MAX 10 ds with
        | None => None
        | Some n => Some (mkAuthority (to_ascii_lowercase h) (if n =? d then None else Some n))
        end
    end.
Proof.
  intros (Hs&Hat&Hne). unfold Authority_parse. rewrite bool_decide_eq_false_2 by done.
  rewrite (proj2 (contains_char_false _ _)) by done. simpl. by rewrite Hs.
Qed.

Lemma written_iff d raw a : Authority_parse raw d = Some a <-> written d raw a.
Proof.
  split.
  - unfold Authority_parse. case_bool_decide as Hne; [done|]. cbn [orb].
    destruct (contains_char AT raw) eqn:Hat; [done|].
    apply contains_char_false in Hat. destruct (split_authority raw) as [[h p]|] eqn:Hs; [|done].
    destruct (split_authority_inv _ _ _ Hat Hs) as [[Hh ->]|[Hh ->]]; destruct p as [ds|].
    + destruct (from_str_radix _ _ ds) as [n|] eqn:Hn; [|done]. intros [= <-]. constructor; [done|]. by exists n.
    + intros [= <-]. rewrite app_nil_r. by constructor.
    + destruct (from_str_radix _ _ ds) as [n|] eqn:Hn; [|done]. intros [= <-]. constructor; [done|]. by exists n.
    + intros [= <-]. by constructor.
  - intros [h Hh|h ds p Hh Hp|h Hh|h ds p Hh Hp].
    + apply (parse_split d h h None). apply (split_authority_plain h None); [done| |by rewrite app_nil_r].
      repeat constructor; apply not_elem_of_nil.
    + pose proof (port_text_plain _ _ _ Hp) as Hc. destruct Hp as (n&Hn&->).
      rewrite (parse_split d _ h (Some ds)); [by rewrite Hn|]. by apply (split_authority_plain h (Some ds)).
    + apply (parse_split d _ h None). by apply (split_authority_v6 h None); [|apply not_elem_of_nil|].
    + pose proof (port_text_plain _ _ _ Hp) as Hc. destruct Hp as (n&Hn&->).
      rewrite (parse_split d _ h (Some ds)); [by rewrite Hn|]. inversion_clear Hc.
      by apply (split_authority_v6 h (Some ds)).
Qed.

(** An origin [scheme://authority], with or without a path, and the port its
    scheme stands for. *)
Definition origin_of (o : Text) (d : Z) (authority : Text) : Prop :=
  exists scheme rest, split_once_str (txt "://") o = Some (scheme, rest)
    /\ ((to_ascii_lowercase scheme = txt "https" /\ d = 443)
        \/ (to_ascii_lowercase scheme = txt "http" /\ d = 80))
    /\ (47 ∉ authority) /\ (rest = authority \/ exists path, rest = authority ++ 47 :: path).

Lemma default_port_Some scheme d :
  default_port scheme = Some d <->
  (to_ascii_lowercase scheme = txt "https" /\ d = 443) \/ (to_ascii_lowercase scheme = txt "http" /\ d = 80).
Proof.
  unfold default_port. case_bool_decide as H1; [|case_bool_decide as H2].
  - split; [intros [= <-]; by left|]. intros [[_ ->]|[H _]]; [done|]. by rewrite H in H1.
  - split; [intros [= <-]; by right|]. by intros [[? _]|[_ ->]].
  - split; [done|]. by intros [[? _]|[? _]].
Qed.

(** C39: No cross-site WebSocket.  An upgrade is accepted exactly when the policy
    lets an absent [Origin] through and there is none, or when the [Origin] is an
    http(s) origin whose authority and the [Host] header are two ways to write
    one authority: the same host up to ASCII case and the same port, the scheme's
    own when it is left out.  Anything ambiguous (user information, stray
    brackets or colons, a bad port, another scheme, text that is not ASCII) is
    refused under every policy. *)
Theorem ws_origin_same_authority headers policy :
  validate_ws_origin headers policy = true <->
  (get headers "origin" = None /\ policy = AllowAbsent)
  \/ (exists o host_str d authority a,
        get headers "origin" = Some (Some o) /\ get headers "host" = Some (Some host_str)
        /\ origin_of o d authority /\ written d authority a /\ written d host_str a).
Proof.
  unfold validate_ws_origin. destruct (get headers "origin") as [[o|]|] eqn:Ho.
  - split.
    + intros H. right. destruct (split_once_str _ o) as [[scheme rest]|] eqn:Hs; [|done].
      destruct (default_port scheme) as [d|] eqn:Hd; [|done]. apply default_port_Some in Hd.
      destruct (get headers "host") as [[h|]|]; try done.
      destruct (Authority_parse _ d) as [a|] eqn:Ha; [|done].
      destruct (Authority_parse h d) as [b|] eqn:Hb; [|done]. apply bool_decide_eq_true in H as <-.
      apply written_iff in Ha, Hb. exists o, h, d, (match split_once 47 rest with Some (x, _) => x | None => rest end), a.
      split_and!; try done. exists scheme, rest. split_and!; try done.
      * destruct (split_once 47 rest) as [[x y]|] eqn:E; [by apply split_once_Some in E as [_ ?]|].
        by apply split_once_None.
      * destruct (split_once 47 rest) as [[x y]|] eqn:E; [|by left]. right.
        apply split_once_Some in E as [-> _]. by eexists.
    + intros [[? _]|(o'&h&d&au&a&[= <-]&->&(scheme&rest&->&Hd&Hn&Hrest)&Ha&Hb)]; [done|].
      apply default_port_Some in Hd. rewrite Hd. apply written_iff in Ha, Hb.
      assert (match split_once 47 rest with Some (h, _) => h | None => rest end = au) as ->.
      { destruct Hrest as [->|[path ->]]; [by rewrite (proj2 (split_once_None 47 au) Hn)|].
        by rewrite (proj2 (split_once_Some 47 _ au path) (conj eq_refl Hn)). }
      rewrite Ha, Hb. by apply bool_decide_eq_true.
  - split; [done|]. intros [[? _]|(?&?&?&?&?&?&_)]; done.
  - split; [intros H; left; by destruct policy|]. by intros [[_ ->]|(?&?&?&?&?&?&_)].
Qed.

End WsAuth.

(** ** Correlation from request headers ([correlation.rs]) *)

Module TraceContext.

Definition DASH : Z := 45.

Definition parse_traceparent (value : Text) : option CorrelationContext :=
  if negb (Z.of_nat (length value) =? 55) then None
  else
    match split DASH value with
    | [version; trace_id_hex; parent_span_hex; flags] =>
        if negb (bool_decide (version = txt "00")) then None
        else if negb (Z.of_nat (length trace_id_hex) =? 32)
                || negb (Z.of_nat (length parent_span_hex) =? 16)
                || negb (Z.of_nat (length flags) =? 2) then None
        else
          match from_str_radix U128_MAX 16 trace_id_hex, from_str_radix U64_MAX 16 parent_span_hex,
                from_str_radix U8_MAX 16 flags with
          | Some trace_id, Some parent_span, Some _ =>
              if (trace_id =? 0) || (parent_span =? 0) then None
              else Some (Correlation.new trace_id parent_span)
          | _, _, _ => None
          end
    | _ => None
    end.

Section Extract.
(** [Uuid::parse_str] of the [uuid] crate. *)
Context (uuid_parse_str : Text -> option Uuid).

Definition extract_correlation (headers : HeaderMap) : CorrelationContext :=
  match and_then (get_str headers "traceparent") parse_traceparent with
  | Some ctx => ctx
  | None =>
      match and_then (get_str headers "x-correlation-id") (fun s => uuid_parse_str (trim s)) with
      | Some uuid => Correlation.correlated uuid
      | None => Correlation.none
      end
  end.
End Extract.

(** [IdempotencyKey::from_header_value]. *)
Definition from_header_value (raw : Text) : option Text :=
  let trimmed := trim raw in if bool_decide (trimmed = []) then None else Some trimmed.

Definition extract_idempotency_key (headers : HeaderMap) : option Text :=
  and_then (get_str headers "idempotency-key") from_header_value.

(** A [traceparent] of version 00. *)
Definition traceparent (trace_id parent_span flags : Z) : Text :=
  txt "00" ++ DASH :: hex 32 trace_id ++ DASH :: hex 16 parent_span ++ DASH :: hex 2 flags.

Lemma hex_no_dash n x : DASH ∉ hex n x.
Proof. intros H%hex_plain. unfold DASH in H. lia. Qed.

Lemma parse_traceparent_inv value ctx :
  parse_traceparent value = Some ctx ->
  exists trace_id parent_span, ctx = Correlation.new trace_id parent_span
    /\ 1 <= trace_id <= U128_MAX /\ 1 <= parent_span <= U64_MAX.
Proof.
  unfold parse_traceparent. destruct (_ =? 55); [|done]. cbn [negb].
  destruct (split DASH value) as [|v [|t [|p [|f [|]]]]]; try done.
  destruct (negb _); [done|]. destruct (_ || _); [done|].
  destruct (from_str_radix U128_MAX 16 t) as [x|] eqn:Hx; [|done].
  destruct (from_str_radix U64_MAX 16 p) as [y|] eqn:Hy; [|done].
  destruct (from_str_radix U8_MAX 16 f); [|done].
  destruct (Z.eqb_spec x 0), (Z.eqb_spec y 0); simpl; try done. intros [= <-]. exists x, y.
  pose proof (from_str_radix_range U128_MAX 16 t x ltac:(lia) ltac:(unfold U128_MAX; lia) Hx).
  pose proof (from_str_radix_range U64_MAX 16 p y ltac:(lia) ltac:(unfold U64_MAX; lia) Hy). split; [done|]. lia.
Qed.

(** The correlation of a request is what its headers say.  A well-formed
    [traceparent] gives back exactly its trace id and its span id; whatever is
    accepted as one has non-zero identifiers that fit their widths; anything else
    is as if it were absent, in which case the correlation header decides alone,
    and without it there is no correlation: nothing is made up. *)
Theorem correlation_from_headers uuid_parse_str headers :
  (forall trace_id parent_span flags,
     1 <= trace_id <= U128_MAX -> 1 <= parent_span <= U64_MAX -> 0 <= flags <= U8_MAX ->
     get headers "traceparent" = Some (Some (traceparent trace_id parent_span flags)) ->
     extract_correlation uuid_parse_str headers = Correlation.new trace_id parent_span)
  /\ (let ctx := extract_correlation uuid_parse_str headers in
      (exists value trace_id parent_span, get headers "traceparent" = Some (Some value)
         /\ parse_traceparent value = Some ctx /\ ctx = Correlation.new trace_id parent_span
         /\ 1 <= trace_id <= U128_MAX /\ 1 <= parent_span <= U64_MAX)
      \/ ((forall value, get headers "traceparent" = Some (Some value) -> parse_traceparent value = None)
          /\ ((exists value uuid, get headers "x-correlation-id" = Some (Some value)
                 /\ uuid_parse_str (trim value) = Some uuid /\ ctx = Correlation.correlated uuid)
              \/ ctx = Correlation.none))).
Proof.
  split.
  - intros t p f Ht Hp Hf Hh. unfold extract_correlation. apply get_str_Some in Hh. rewrite Hh. cbn [and_then].
    unfold parse_traceparent, traceparent.
    assert (Hlen : Z.of_nat (length (txt "00" ++ DASH :: hex 32 t ++ DASH :: hex 16 p ++ DASH :: hex 2 f)) = 55).
    { rewrite length_app. cbn [length]. rewrite length_app. cbn [length]. rewrite length_app. cbn [length].
      rewrite !hex_length. done. }
    rewrite Hlen. cbn [negb Z.eqb]. rewrite split_app by (apply (bool_decide_eq_true_1 _); vm_compute; reflexivity).
    rewrite !split_app by apply hex_no_dash. rewrite split_single by apply hex_no_dash.
    rewrite !hex_length. cbn [negb bool_decide]. rewrite bool_decide_eq_true_2 by done. cbn -[hex from_str_radix U128_MAX U64_MAX U8_MAX Z.eqb].
    unfold U128_MAX, U64_MAX, U8_MAX in *.
    rewrite !from_str_radix_hex by lia. destruct (Z.eqb_spec t 0), (Z.eqb_spec p 0); [lia..|]. done.
  - cbn zeta. unfold extract_correlation.
    destruct (and_then (get_str headers "traceparent") parse_traceparent) as [ctx|] eqn:Htp.
    + left. destruct (get_str headers "traceparent") as [value|] eqn:Hv; [|done]. apply get_str_Some in Hv.
      cbn in Htp.
      destruct (parse_traceparent_inv _ _ Htp) as (t&p&->&?&?). eauto 10.
    + right. split; [intros value Hv%get_str_Some; by rewrite Hv in Htp|].
      destruct (and_then (get_str headers "x-correlation-id") _) as [uuid|] eqn:Hx; [left|by right].
      destruct (get_str headers "x-correlation-id") as [value|] eqn:Hv; [|done]. apply get_str_Some in Hv.
      cbn in Hx. eauto.
Qed.

End TraceContext.

(** ** Encodings and conditional requests ([compression.rs], [http.rs]) *)

Module Negotiation.

Definition COMMA : Z := 44.
Definition SEMICOLON : Z := 59.

Inductive Encoding := Zstd | Identity.

(** The digits at the front of a text. *)
Definition is_digit (c : Z) : bool := (48 <=? c) && (c <=? 57).
Fixpoint span_digits (t : Text) : Text * Text :=
  match t with
  | c :: t' => if is_digit c then let '(a, b) := span_digits t' in (c :: a, b) else ([], t)
  | [] => ([], [])
  end.
Definition number (ds : Text) : Z := fold_left (fun acc c => acc * 10 + (c - 48)) ds 0.

(** The sign of a number: whether it is negative, and the rest. *)
Definition sign (t : Text) : bool * Text :=
  match t with
  | c :: t' => if c =? 45 then (true, t') else if c =? 43 then (false, t') else (false, t)
  | [] => (false, [])
  end.

(** The exponent of a decimal literal. *)
Definition exponent (t : Text) : option Z :=
  match t with
  | [] => Some 0
  | c :: t' =>
      if (c =? 101) || (c =? 69) then
        let '(neg, ds) := sign t' in
        match span_digits ds with
        | (x :: l, []) => Some (if neg then - number (x :: l) else number (x :: l))
        | _ => None
        end
      else None
  end.

(** [t.parse::<f32>().ok().map(|q| q > 0.0)].  A positive decimal [m * 10^e] rounds
    to zero up to half the smallest subnormal, 2^-150. *)
Definition parse_f32_positive (t : Text) : option bool :=
  let '(neg, u) := sign t in
  let l := to_ascii_lowercase u in
  if bool_decide (l = txt "inf") || bool_decide (l = txt "infinity") then Some (negb neg)
  else if bool_decide (l = txt "nan") then Some false
  else
    let '(ip, rest) := span_digits u in
    let '(fp, rest') := match rest with
                        | c :: r => if c =? 46 then span_digits r else ([], rest)
                        | [] => ([], [])
                        end in
    if bool_decide (ip = []) && bool_decide (fp = []) then None
    else
      match exponent rest' with
      | None => None
      | Some e =>
          let m := number (ip ++ fp) in
          let e' := e - Z.of_nat (length fp) in
          Some (negb neg && (if 0 <=? e' then 0 <? m else 10 ^ (- e') <? m * 2 ^ 150))
      end.

(** [p.split(';').find_map(..)], then whether the quality is positive; 1.0 when
    there is none. *)
Definition quality_positive (params : option Text) : bool :=
  match params with
  | None => true
  | Some p =>
      let q param := and_then (strip_prefix (txt "q=") (trim param)) (fun v => parse_f32_positive (trim v)) in
      default true (head (omap q (split SEMICOLON p)))
  end.

(** The name and the parameters of an entry. *)
Definition entry (part : Text) : Text * option Text :=
  let part := trim part in
  match split_once SEMICOLON part with
  | Some (n, p) => (trim n, Some (trim p))
  | None => (part, None)
  end.

(** The loop over the entries. *)
Fixpoint scan (parts : list Text) (zstd_acceptable : bool) : Encoding :=
  match parts with
  | [] => if zstd_acceptable then Zstd else Identity
  | part :: rest =>
      let '(name, params) := entry part in
      if negb (bool_decide (name = txt "zstd")) then scan rest zstd_acceptable
      else if quality_positive params then scan rest true
      else Identity
  end.

Definition negotiate_encoding (accept : option Text) : Encoding :=
  match accept with
  | None => Identity
  | Some s =>
      if bool_decide (s = txt "zstd") then Zstd
      else if negb (contains_char SEMICOLON s) then
        if existsb (fun part => bool_decide (trim part = txt "zstd")) (split COMMA s) then Zstd else Identity
      else scan (split COMMA s) false
  end.

(** [etag_weak_match]. *)
Definition strip_weak (v : Text) : Text := default v (strip_prefix (txt "W/") v).
Definition etag_weak_match (client_val server_val : Text) : bool :=
  if bool_decide (client_val = txt "*") then true
  else bool_decide (strip_weak client_val = strip_weak server_val).

Definition if_none_match_matches (headers : HeaderMap) (server_etag : Text) : bool :=
  existsb (fun candidate => etag_weak_match (trim candidate) server_etag)
    (flat_map (split COMMA) (omap id (headers "if-none-match"))).

(** An entry that asks for zstd, and one that takes it. *)
Definition names_zstd (part : Text) : Prop := fst (entry part) = txt "zstd".
Definition takes (part : Text) : Prop := quality_positive (snd (entry part)) = true.

Lemma scan_spec parts b :
  scan parts b = Zstd <->
  (b = true \/ Exists names_zstd parts) /\ Forall (fun part => names_zstd part -> takes part) parts.
Proof.
  revert b. induction parts as [|part parts IH]; intros b; simpl.
  { rewrite Exists_nil. destruct b; split; try done; [split; [by left|done]|by intros [[|] _]]. }
  rewrite Exists_cons, Forall_cons. unfold names_zstd at 1 3, takes at 1.
  destruct (entry part) as [name params]. simpl. case_bool_decide as Hn; simpl.
  - destruct (quality_positive params); [rewrite IH|split; [done|naive_solver]]. naive_solver.
  - rewrite IH. naive_solver.
Qed.

Lemma drop_while_sub p t c : c ∈ drop_while p t -> c ∈ t.
Proof.
  induction t as [|x t IH]; simpl; [done|]. destruct (p x); [|done]. intros H. apply elem_of_cons. auto.
Qed.

Lemma trim_sub t c : c ∈ trim t -> c ∈ t.
Proof. unfold trim. intros H%elem_of_rev%drop_while_sub%elem_of_rev%drop_while_sub. done. Qed.

(** Without a semicolon an entry is its name. *)
Lemma entry_plain s part :
  SEMICOLON ∉ s -> part ∈ split COMMA s -> entry part = (trim part, None).
Proof.
  intros Hn Hin. unfold entry. rewrite (proj2 (split_once_None SEMICOLON (trim part))); [done|].
  intros Hc%trim_sub. by apply (split_pieces _ _ _ Hin) in Hc.
Qed.

(** Encoding negotiation, the two fast paths included, is what the header's
    list says: zstd is chosen exactly when some entry names it and no entry that
    names it refuses it with a quality that is not positive, wherever the entries
    stand. *)
Theorem negotiate_encoding_spec s :
  negotiate_encoding (Some s) = Zstd <->
  Exists names_zstd (split COMMA s) /\ Forall (fun part => names_zstd part -> takes part) (split COMMA s).
Proof.
  unfold negotiate_encoding. case_bool_decide as Hs.
  { subst s. split; [|done]. intros _. split; repeat constructor. }
  destruct (contains_char SEMICOLON s) eqn:Hc; simpl.
  { rewrite scan_spec. naive_solver. }
  apply contains_char_false in Hc.
  assert (Hiff : Exists names_zstd (split COMMA s)
    <-> existsb (fun part => bool_decide (trim part = txt "zstd")) (split COMMA s) = true).
  { rewrite Exists_exists, existsb_exists. unfold names_zstd. split.
    - intros (part&Hin&Hz). exists part. rewrite (entry_plain _ _ Hc Hin) in Hz.
      split; [by apply list_elem_of_In|]. by apply bool_decide_eq_true.
    - intros (part&Hin&Hz). apply list_elem_of_In in Hin. exists part. rewrite (entry_plain _ _ Hc Hin).
      split; [done|]. by apply bool_decide_eq_true in Hz. }
  rewrite Hiff. destruct (existsb _ _); [|split; [done|by intros [? _]]]. split; [|done]. intros _.
  split; [done|]. apply Forall_forall. intros part Hin _. unfold takes. by rewrite (entry_plain _ _ Hc Hin).
Qed.

End Negotiation.

(** ** Errors as responses ([error.rs]) *)

Module ErrorMap.

Inductive OpaqueCode :=
| OcIndeterminate | OcConcurrencyConflict | OcAggregateNotFound | OcInfrastructure
| OcStoreLocked | OcCorruptData | OcBus | OcAcceptedUnknown.

Definition wire (c : OpaqueCode) : string :=
  match c with
  | OcIndeterminate => "indeterminate"
  | OcConcurrencyConflict => "concurrency_conflict"
  | OcAggregateNotFound => "aggregate_not_found"
  | OcInfrastructure => "infrastructure"
  | OcStoreLocked => "store_locked"
  | OcCorruptData => "corrupt_data"
  | OcBus => "bus"
  | OcAcceptedUnknown => "accepted_unknown"
  end.

Definition message (c : OpaqueCode) : string :=
  match c with
  | OcIndeterminate => "operation outcome unknown; reconciliation required before further action"
  | OcConcurrencyConflict => "the aggregate changed concurrently; reload and retry"
  | OcAggregateNotFound => "aggregate not found"
  | OcInfrastructure => "infrastructure failure; retry is safe"
  | OcStoreLocked => "store temporarily unavailable; retry is safe"
  | OcCorruptData => "the stored data failed validation"
  | OcBus => "event publication failed; retry is safe"
  | OcAcceptedUnknown => "command persisted; outcome delivery cancelled — replay is safe"
  end.

Record ErrorBody := mkBody { body_code : string; body_message : string; body_correlation : option string }.

Definition domain (code message : string) : ErrorBody := mkBody code message None.
Definition opaque (c : OpaqueCode) : ErrorBody := mkBody (wire c) (message c) None.
Definition with_correlation (show_uuid : Uuid -> string) (b : ErrorBody) (ctx : CorrelationContext) : ErrorBody :=
  mkBody (body_code b) (body_message b) (show_uuid <$> correlation_id ctx).

(** Status, the seconds of [Retry-After] when there is one, body. *)
Record ErrorResponse := mkResponse { status : Z; retry_after : option string; body : ErrorBody }.

Definition RETRY_AFTER_SECONDS : string := "1".
Definition UNAVAILABLE : Z := 503.

Definition final (s : Z) (c : OpaqueCode) : ErrorResponse := mkResponse s None (opaque c).
Definition unavailable (c : OpaqueCode) : ErrorResponse :=
  mkResponse UNAVAILABLE (Some RETRY_AFTER_SECONDS) (opaque c).

Definition map_dispatch_error {E} (show_uuid : Uuid -> string) (show_E : E -> string) (err : DispatchError E)
    : ErrorResponse :=
  match err with
  | D_Indeterminate _ => final 500 OcIndeterminate
  | D_Rejected _ => mkResponse 422 None (domain "rejected" (DispatchError_display show_uuid show_E err))
  | D_ConcurrencyConflict _ _ _ => final 409 OcConcurrencyConflict
  | D_AggregateNotFound _ => final 404 OcAggregateNotFound
  | D_Infrastructure _ => unavailable OcInfrastructure
  end.

Definition map_store_error (err : StoreError) : ErrorResponse :=
  match err with
  | Indeterminate _ => final 500 OcIndeterminate
  | ConcurrencyConflict _ _ _ => final 409 OcConcurrencyConflict
  | StoreLocked _ => unavailable OcStoreLocked
  | CorruptData _ => final 500 OcCorruptData
  | Infrastructure _ | JoinFailure _ => unavailable OcInfrastructure
  end.

Definition map_bus_error (err : BusError) : ErrorResponse := unavailable OcBus.

Definition post_persist_cancellation_response : ErrorResponse := final 202 OcAcceptedUnknown.

(** A response that tells the client to repeat the request. *)
Definition invites_retry (r : ErrorResponse) : Prop := is_Some (retry_after r).

(** Error responses.  No detail of a failure reaches the client unless the
    domain itself rejected the command: every other body is one of the eight
    fixed ones.  A request whose outcome is unknown is answered 500 and never
    invites a retry, and neither does any terminal error, with one exception: a
    join failure of the store is terminal, and its response invites a retry and
    calls it safe.  Every retryable error but a conflict, which asks for a
    reload, is a 503 with [Retry-After]. *)
Theorem error_responses {E} show_uuid (show_E : E -> string) :
  (forall e : DispatchError E,
     let r := map_dispatch_error show_uuid show_E e in
     ((exists err, e = D_Rejected err) \/ exists c, body r = opaque c)
     /\ (invites_retry r <-> status r = UNAVAILABLE)
     /\ (invites_retry r -> DispatchError_category e = Retryable)
     /\ (DispatchError_category e = Retryable -> invites_retry r \/ status r = 409)
     /\ (DispatchError_category e = ReconciliationRequired -> r = final 500 OcIndeterminate))
  /\ (forall e : StoreError,
     let r := map_store_error e in
     (exists c, body r = opaque c)
     /\ (invites_retry r <-> status r = UNAVAILABLE)
     /\ (invites_retry r -> StoreError_category e = Retryable
                            \/ (StoreError_category e = Terminal /\ exists b, e = JoinFailure b))
     /\ (forall b, e = JoinFailure b -> invites_retry r)
     /\ (StoreError_category e = Retryable -> invites_retry r \/ status r = 409)
     /\ (StoreError_category e = ReconciliationRequired -> r = final 500 OcIndeterminate)).
Proof.
  unfold invites_retry.
  split; intros e; destruct e; simpl; split_and!; try done; eauto; try (split; [by intros []|done]);
    try (by intros []); try (split; [done|eauto]); try (by intros _; left; eauto); naive_solver.
Qed.

End ErrorMap.

(** ** The tracing layer ([middleware/trace.rs]) *)

Module Trace.

Inductive Level := DEBUG | INFO.

(** A field of a span or event: a number or what [Display] prints. *)
Inductive Field := Num (n : Z) | Shown (t : Text).

Record HttpSpan := mkSpan { span_name : string; span_level : Level; span_fields : list (string * Field) }.
Record TraceEvent := mkTraceEvent { level : Level; message : string; fields : list (string * Field) }.

(** [MakeHttpSpan::make_span]. *)
Definition make_span (method path : Text) : HttpSpan :=
  mkSpan "http" INFO [("method", Shown method); ("path", Shown path)].

(** [OnHttpRequest::on_request]. *)
Definition on_request : TraceEvent := mkTraceEvent DEBUG "request started" [].

Definition SWITCHING_PROTOCOLS : Z := 101.

(** [u64::try_from(latency.as_micros()).unwrap_or(u64::MAX)], of a duration in
    nanoseconds. *)
Definition latency_us (latency : Z) : Z :=
  clamp U64_MAX (latency / 1000).

(** [OnHttpResponse::on_response]. *)
Definition on_response (status latency : Z) : TraceEvent :=
  if status =? SWITCHING_PROTOCOLS then mkTraceEvent INFO "response" [("status", Num status)]
  else mkTraceEvent DEBUG "response" [("status", Num status); ("latency_us", Num (latency_us latency))].

(** The response to a switch of protocols is the one event of these hooks above the
    level of debugging, and leaves out how long the connection lived; any other
    carries its latency in whole microseconds, as far as 64 bits reach. *)
Lemma on_response_latency status latency :
  (level (on_response status latency) = INFO <-> status = SWITCHING_PROTOCOLS)
  /\ fields (on_response status latency)
     = ("status"%string, Num status)
       :: if bool_decide (status = SWITCHING_PROTOCOLS) then []
          else [("latency_us"%string, Num (Z.min (latency / 1000) U64_MAX))].
Proof.
  unfold on_response, latency_us, clamp. destruct (Z.eqb_spec status SWITCHING_PROTOCOLS) as [->|Hne]; simpl; [done|].
  rewrite bool_decide_false, Z.min_comm by done. split; [|done]. split; [done|by intros ->].
Qed.

End Trace.
