(* ===== verification/Pages.v ===== *)
(** * Serving pages (crate [cherry-pit-web], [serve/], [projection/])

    The page cache of [serve/state.rs] and the request handler of
    [serve/runtime.rs]; the page entries of [projection/state.rs] and the reads of
    [projection/handlers.rs].  Compression, the digest and percent-decoding come
    from crates and are parameters of the section. *)

From S2P Require Import Prelude Chars Web.

Definition Body : Type := list Z.

(** Response headers, by name. *)
Definition Headers : Type := list (string * Text).
(** [HeaderMap::insert]. *)
Definition hset (name : string) (v : Text) (h : Headers) : Headers :=
  filter (fun e : string * Text => fst e <> name) h ++ [(name, v)].
Definition hget (name : string) (h : Headers) : option Text :=
  snd <$> head (filter (fun e : string * Text => fst e = name) h).

Record Response := mkResponse { status : Z; headers : Headers; body : Body }.

(** Decimal, as in a [Content-Length]. *)
Definition decimal (n : nat) : Text := txt (show_Z (Z.of_nat n)).

(** ** Content types (the table both modules of the crate have) *)

Definition lookup_ext (ext : option Text) : option (string * bool) :=
  match ext with
  | None => None
  | Some e =>
      let lower := to_ascii_lowercase e in
      let ext_is s := bool_decide (lower = txt s) in
      if ext_is "html" then Some ("text/html; charset=utf-8", true)
      else if ext_is "css" then Some ("text/css; charset=utf-8", true)
      else if ext_is "js" || ext_is "mjs" then Some ("text/javascript; charset=utf-8", true)
      else if ext_is "json" || ext_is "map" then Some ("application/json; charset=utf-8", true)
      else if ext_is "xml" then Some ("application/xml; charset=utf-8", true)
      else if ext_is "svg" then Some ("image/svg+xml", true)
      else if ext_is "txt" then Some ("text/plain; charset=utf-8", true)
      else if ext_is "png" then Some ("image/png", false)
      else if ext_is "jpg" || ext_is "jpeg" then Some ("image/jpeg", false)
      else if ext_is "gif" then Some ("image/gif", false)
      else if ext_is "webp" then Some ("image/webp", false)
      else if ext_is "avif" then Some ("image/avif", false)
      else if ext_is "ico" then Some ("image/x-icon", false)
      else if ext_is "woff" then Some ("font/woff", false)
      else if ext_is "woff2" then Some ("font/woff2", false)
      else if ext_is "ttf" then Some ("font/ttf", false)
      else if ext_is "otf" then Some ("font/otf", false)
      else if ext_is "wasm" then Some ("application/wasm", false)
      else None
  end%string.

Definition content_type_for_ext (ext : option Text) : Text :=
  txt (match lookup_ext ext with Some (ct, _) => ct | None => "application/octet-stream" end).
Definition is_compressible_ext (ext : option Text) : bool :=
  match lookup_ext ext with Some (_, compressible) => compressible | None => false end.

(** [filename.rsplit_once('.')], when something comes before the dot. *)
Definition extension (filename : Text) : option Text :=
  match rsplit_once 46 filename with
  | Some (before, after) => if bool_decide (before = []) then None else Some after
  | None => None
  end.

Definition MAX_PRECOMPRESS_BYTES : Z := 2 ^ 20.
Definition SVG_CSP : Text := txt "default-src 'none'; style-src 'unsafe-inline'; img-src 'self'".

Section Pages.
(** The [sha2] digest; [zstd::stream::encode_all] at level 19; reading at most
    [n] bytes out of a zstd stream, [None] when it is not one. *)
Context (sha256 : Body -> list Z) (zstd_encode : Body -> option Body).
Context (zstd_read : Body -> Z -> option Body).
(** [percent_decode_str(raw).decode_utf8().ok()]. *)
Context (percent_decode : Text -> option Text).

Definition compute_etag (b : Body) : Text :=
  txt "W/" ++ [34] ++ flat_map (hex 2) (take 16 (sha256 b)) ++ [34].

Definition compress_zstd (b : Body) : option Body :=
  if MAX_PRECOMPRESS_BYTES <? Z.of_nat (length b) then None else zstd_encode b.

(** ** The page cache ([serve/state.rs]) *)

Inductive CachedBody :=
| RawOnly (body : Body)
| Compressed (zstd : Body) (raw_len : Z)
| Dual (zstd raw : Body).

Definition CachedBody_zstd (b : CachedBody) : option Body :=
  match b with Compressed z _ | Dual z _ => Some z | RawOnly _ => None end.

Definition decode_bounded (zstd : Body) (expected_len : Z) : option Body :=
  match zstd_read zstd (saturating_add U64_MAX expected_len 1) with
  | None => None
  | Some buf => if Z.of_nat (length buf) =? expected_len then Some buf else None
  end.

Definition identity_bytes (b : CachedBody) : option Body :=
  match b with
  | RawOnly body => Some body
  | Dual _ raw => Some raw
  | Compressed zstd raw_len => decode_bounded zstd raw_len
  end.

Record CachedPage := mkPage {
  page_body : CachedBody;
  content_type : Text;
  etag : Text;
  content_length : Text;
  content_length_zstd : option Text;
  headers_zstd : Headers;
  headers_raw : Headers;
  headers_304 : Headers;
}.

Definition no_cache : Text := txt "no-cache".
Definition accept_encoding : Text := txt "Accept-Encoding".

Definition when {A} (b : bool) (f : A -> A) (x : A) : A := if b then f x else x.

Definition CachedPage_new (filename : Text) (b : Body) : CachedPage :=
  let ext := extension filename in
  let ctype := content_type_for_ext ext in
  let tag := compute_etag b in
  let len := decimal (length b) in
  let body_zstd := if is_compressible_ext ext then compress_zstd b else None in
  let len_zstd := decimal ∘ length <$> body_zstd in
  let has_compressed := bool_decide (is_Some body_zstd) in
  let svg := bool_decide (ctype = txt "image/svg+xml") in
  let h304 := when has_compressed (hset "vary" accept_encoding)
                (hset "cache-control" no_cache (hset "etag" tag [])) in
  let base := hset "cache-control" no_cache (hset "etag" tag (hset "content-type" ctype [])) in
  let hraw := when svg (hset "content-security-policy" SVG_CSP)
                (when has_compressed (hset "vary" accept_encoding) (hset "content-length" len base)) in
  let hzstd := when svg (hset "content-security-policy" SVG_CSP)
                 (match len_zstd with
                  | Some l => hset "vary" accept_encoding
                                (hset "content-encoding" (txt "zstd") (hset "content-length" l base))
                  | None => hset "content-length" len base
                  end) in
  let cached_body := match body_zstd with
                     | Some z => if bool_decide (filename = txt "index.html") then Dual z b
                                 else Compressed z (Z.of_nat (length b))
                     | None => RawOnly b
                     end in
  mkPage cached_body ctype tag len len_zstd hzstd hraw h304.

(** *** Route aliases *)

(** [cache.entry(k).or_insert(v)] for each alias. *)
Definition insert_missing (aliases : list (Text * CachedPage)) (cache : gmap Text CachedPage)
    : gmap Text CachedPage :=
  fold_left (fun c kv => match c !! fst kv with Some _ => c | None => <[fst kv := snd kv]> c end)
    aliases cache.

Definition INDEX : Text := txt "index.html".
Definition SLASH_INDEX : Text := txt "/index.html".
Definition HTML : Text := txt ".html".

Definition index_alias (cache : gmap Text CachedPage) (e : Text * CachedPage) : option (Text * CachedPage) :=
  match strip_suffix SLASH_INDEX (fst e) with
  | Some dir => if negb (bool_decide (dir = [])) && bool_decide (cache !! dir = None) then Some (dir, snd e) else None
  | None => None
  end.

Definition html_alias (cache : gmap Text CachedPage) (e : Text * CachedPage) : option (Text * CachedPage) :=
  if bool_decide (fst e = INDEX) || ends_with SLASH_INDEX (fst e) then None
  else
    match strip_suffix HTML (fst e) with
    | Some name => if negb (bool_decide (name = [])) && bool_decide (cache !! name = None) then Some (name, snd e) else None
    | None => None
    end.

(** [order] is the order in which the hash map iterates. *)
Definition populate_route_aliases (order : gmap Text CachedPage -> list (Text * CachedPage))
    (cache : gmap Text CachedPage) : gmap Text CachedPage :=
  let cache1 := insert_missing (omap (index_alias cache) (order cache)) cache in
  insert_missing (omap (html_alias cache1) (order cache1)) cache1.

(** ** The handler ([serve/runtime.rs]) *)

Definition encoding_of (request_headers : HeaderMap) : Negotiation.Encoding :=
  match get request_headers "accept-encoding" with
  | Some v => Negotiation.negotiate_encoding v
  | None => Negotiation.Identity
  end.

Definition internal_error : Response := mkResponse 500 [] [].

Definition serve_page (page : CachedPage) (request_headers : HeaderMap) (st : Z) (skip_etag_check : bool)
    : Response :=
  if negb skip_etag_check && Negotiation.if_none_match_matches request_headers (etag page)
  then mkResponse 304 (headers_304 page) []
  else
    match encoding_of request_headers with
    | Negotiation.Zstd =>
        match CachedBody_zstd (page_body page) with
        | Some b => mkResponse st (headers_zstd page) b
        | None =>
            match identity_bytes (page_body page) with
            | Some b => mkResponse st (headers_raw page) b
            | None => internal_error
            end
        end
    | Negotiation.Identity =>
        match identity_bytes (page_body page) with
        | Some b => mkResponse st (headers_raw page) b
        | None => internal_error
        end
    end.

Inductive Method := GET | HEAD | OtherMethod.

Record ServeOptions := mkOptions { error_page_key : option Text; enforce_zstd : bool }.

Definition text_response (st : Z) (t : string) : Response :=
  mkResponse st [("content-type", txt "text/plain; charset=utf-8")] (txt t).

(** The page that is shown until there is a cache; the pieces are joined by the
    quotation mark. *)
Definition INITIALIZING_HTML : Body :=
  join 34 (txt <$>
    [ "<!DOCTYPE html><html lang=";
      "en";
      "><head><meta charset=";
      "utf-8";
      "><meta name=";
      "viewport";
      " content=";
      "width=device-width, initial-scale=1";
      "><meta http-equiv=";
      "refresh";
      " content=";
      "5";
      "><title>gh-report — Initializing</title><style>body { font-family: -apple-system, BlinkMacSystemFont, ";
      "Segoe UI";
      ", Roboto, sans-serif; background: #0f172a; color: #f8fafc; display: flex; align-items: center; justify-content: center; min-height: 100vh; margin: 0; }.card { background: #1e293b; padding: 2.5rem; border-radius: 1rem; border: 1px solid #334155; text-align: center; max-width: 480px; box-shadow: 0 10px 25px -5px rgba(0,0,0,0.3); }h1 { font-size: 1.5rem; margin-bottom: 0.75rem; color: #38bdf8; }p { color: #94a3b8; font-size: 1rem; line-height: 1.5; margin-bottom: 1.5rem; }.spinner { width: 40px; height: 40px; border: 3px solid #334155; border-top-color: #38bdf8; border-radius: 50%; animation: spin 1s linear infinite; margin: 0 auto 1.5rem; }@keyframes spin { to { transform: rotate(360deg); } }</style></head><body><div class=";
      "card";
      "><div class=";
      "spinner";
      "></div><h1>Initializing Report</h1><p>The initial collection is in progress. This page will automatically refresh as soon as evidence is published.</p></div></body></html>" ]%string).

Definition initializing : Response :=
  mkResponse 503 [("content-type", txt "text/html; charset=utf-8")] INITIALIZING_HTML.

Definition cache_fallback (cache : option (gmap Text CachedPage)) (options : ServeOptions)
    (method : Method) (raw_path : Text) (request_headers : HeaderMap) : Response :=
  match method with
  | OtherMethod =>
      mkResponse 405 [("allow", txt "GET, HEAD"); ("content-type", txt "text/plain; charset=utf-8")]
        (txt "method not allowed")
  | _ =>
      match Path.normalize_request_path percent_decode raw_path with
      | None => text_response 400 "bad request"
      | Some normalized =>
          let key := Path.key normalized in
          if enforce_zstd options && negb (bool_decide (key = INDEX))
             && match encoding_of request_headers with Negotiation.Zstd => false | _ => true end
          then text_response 406 "must support zstd level 19 compression"
          else
            match cache with
            | None => initializing
            | Some cache =>
                match cache !! key with
                | Some page => serve_page page request_headers 200 false
                | None =>
                    match error_page_key options ≫= (fun k => cache !! k) with
                    | Some page => serve_page page request_headers 404 true
                    | None => text_response 404 "not found"
                    end
                end
            end
      end
  end.

(** ** Route aliases *)

(** The first entry of a list with a given key. *)
Definition first_of (k : Text) (l : list (Text * CachedPage)) : option CachedPage :=
  snd <$> head (filter (fun e : Text * CachedPage => fst e = k) l).

Lemma insert_missing_lookup l c k :
  insert_missing l c !! k = match c !! k with Some p => Some p | None => first_of k l end.
Proof using Type.
  unfold insert_missing, first_of. revert c. induction l as [|[k' p'] l IH]; intros c; simpl; [by destruct (c !! k)|].
  rewrite IH, filter_cons. simpl. destruct (decide (k' = k)) as [->|Hne].
  - destruct (c !! k) as [p|] eqn:Hk; [by rewrite Hk|]. by rewrite lookup_insert_eq.
  - destruct (c !! k'); [done|]. by rewrite lookup_insert_ne.
Qed.

(** Aliases that take a suffix off the key: each comes from one entry. *)
Lemma first_alias (alias : Text * CachedPage -> option (Text * CachedPage)) (suf : Text) (admissible : Text -> Prop)
    `{!forall k, Decision (admissible k)} (c : gmap Text CachedPage) l (k : Text) :
  l ≡ₚ map_to_list c ->
  (forall e k' p, alias e = Some (k', p) <-> e = (k' ++ suf, p) /\ admissible k') ->
  first_of k (omap alias l) = if decide (admissible k) then c !! (k ++ suf) else None.
Proof using Type.
  intros Hl Ha.
  assert (Hin : forall p, (k, p) ∈ omap alias l <-> c !! (k ++ suf) = Some p /\ admissible k).
  { intros p. rewrite list_elem_of_omap, <- elem_of_map_to_list, <- Hl. split.
    - intros (e&He&[-> Hk]%Ha). done.
    - intros [He Hk]. eexists. split; [done|]. by apply Ha. }
  assert (Hf : forall e, e ∈ filter (fun e : Text * CachedPage => fst e = k) (omap alias l)
    <-> fst e = k /\ e ∈ omap alias l) by (intros e; by rewrite list_elem_of_filter).
  unfold first_of. destruct (filter _ (omap alias l)) as [|[k' p] rest]; simpl.
  - destruct (decide (admissible k)) as [Hk|]; [|done]. destruct (c !! (k ++ suf)) as [p|] eqn:Hp; [|done].
    exfalso. by apply (not_elem_of_nil (k, p)), Hf; split; [|apply Hin].
  - destruct (proj1 (Hf (k', p))) as [Hk Hm]; [by left|]. simpl in Hk. subst k'.
    apply Hin in Hm as [Hp Hk]. by rewrite decide_True.
Qed.

Definition nonempty_free (c : gmap Text CachedPage) (k : Text) : Prop := k <> [] /\ c !! k = None.
#[local] Instance nonempty_free_dec c k : Decision (nonempty_free c k).
Proof using Type. unfold nonempty_free. destruct (c !! k); [right; by intros [_ ?]|apply and_dec; [apply _|by left]]. Defined.

Lemma free_bool c k :
  negb (bool_decide (k = [])) && bool_decide (c !! k = None) = true <-> nonempty_free c k.
Proof using Type. rewrite andb_true_iff, negb_true_iff, bool_decide_eq_false, bool_decide_eq_true. done. Qed.

Lemma free_false c k :
  negb (bool_decide (k = [])) && bool_decide (c !! k = None) = false -> ~ nonempty_free c k.
Proof using Type. intros H Hf%free_bool. congruence. Qed.

Lemma index_alias_iff c e k p :
  index_alias c e = Some (k, p) <-> e = (k ++ SLASH_INDEX, p) /\ nonempty_free c k.
Proof using Type.
  destruct e as [key p']. unfold index_alias. simpl. split.
  - destruct (strip_suffix SLASH_INDEX key) as [dir|] eqn:Hs; [|done]. apply strip_suffix_Some in Hs as ->.
    destruct (negb _ && _) eqn:Hf; [|done]. apply free_bool in Hf. by intros [= <- <-].
  - intros [[= -> ->] Hf]. rewrite (proj2 (strip_suffix_Some SLASH_INDEX _ k) eq_refl).
    destruct (negb _ && _) eqn:Hb; [done|]. by apply (free_false c k) in Hb.
Qed.

(** A page that is an index keeps its own name. *)
Definition is_index (key : Text) : Prop := key = INDEX \/ exists dir, key = dir ++ SLASH_INDEX.
Lemma is_index_bool key : bool_decide (key = INDEX) || ends_with SLASH_INDEX key = true <-> is_index key.
Proof using Type. rewrite orb_true_iff, bool_decide_eq_true, ends_with_true. done. Qed.
#[global] Instance is_index_dec key : Decision (is_index key).
Proof using Type.
  destruct (bool_decide (key = INDEX) || ends_with SLASH_INDEX key) eqn:E.
  - left. by apply is_index_bool.
  - right. intros H%is_index_bool. congruence.
Defined.

Lemma html_alias_iff c e k p :
  html_alias c e = Some (k, p) <-> e = (k ++ HTML, p) /\ (nonempty_free c k /\ ~ is_index (k ++ HTML)).
Proof using Type.
  destruct e as [key p']. unfold html_alias. simpl. split.
  - destruct (bool_decide (key = INDEX) || _) eqn:Hi; [done|].
    destruct (strip_suffix HTML key) as [name|] eqn:Hs; [|done]. apply strip_suffix_Some in Hs as ->.
    destruct (negb _ && _) eqn:Hf; [|done]. apply free_bool in Hf. intros [= <- <-]. split_and!; try done; try apply Hf.
    intros H%is_index_bool. congruence.
  - intros ([= -> ->]&Hf&Hi). destruct (_ || _) eqn:E.
    { by destruct Hi; apply is_index_bool. }
    rewrite (proj2 (strip_suffix_Some HTML _ k) eq_refl).
    destruct (negb _ && _) eqn:Hb; [done|]. by apply (free_false c k) in Hb.
Qed.

(** A key, then the index of the directory of that name. *)
Definition resolved_index (c : gmap Text CachedPage) (k : Text) : option CachedPage :=
  match c !! k with
  | Some p => Some p
  | None => if decide (k = []) then None else c !! (k ++ SLASH_INDEX)
  end.

Lemma index_pass_lookup order cache j :
  (forall c, order c ≡ₚ map_to_list c) ->
  insert_missing (omap (index_alias cache) (order cache)) cache !! j = resolved_index cache j.
Proof using Type.
  intros Horder. rewrite insert_missing_lookup. unfold resolved_index. destruct (cache !! j) as [p|] eqn:Hj; [done|].
  rewrite (first_alias _ SLASH_INDEX (nonempty_free cache) cache) by (try apply Horder; apply index_alias_iff).
  destruct (decide (nonempty_free cache j)) as [[Hne _]|Hn]; [by rewrite decide_False|].
  rewrite decide_True; [done|]. destruct (decide (j = [])); [done|]. by destruct Hn.
Qed.

Lemma alias_lookup order cache k :
  (forall c, order c ≡ₚ map_to_list c) ->
  populate_route_aliases order cache !! k =
    match resolved_index cache k with
    | Some p => Some p
    | None => if decide (k <> [] /\ ~ is_index (k ++ HTML)) then resolved_index cache (k ++ HTML) else None
    end.
Proof using Type.
  intros Horder. unfold populate_route_aliases. pose proof (fun j => index_pass_lookup order cache j Horder) as H1.
  set (c1 := insert_missing _ cache) in *. rewrite insert_missing_lookup, H1.
  destruct (resolved_index cache k) as [p|] eqn:Hr; [done|].
  rewrite (first_alias _ HTML (fun k => nonempty_free c1 k /\ ~ is_index (k ++ HTML)) c1)
    by (try apply Horder; apply html_alias_iff).
  rewrite H1. destruct (decide (nonempty_free c1 k /\ _)) as [[[Hne Hc] Hi]|Hn]; [by rewrite decide_True|].
  rewrite decide_False; [done|]. intros [Hne Hi]. apply Hn. split; [|done]. split; [done|]. by rewrite H1.
Qed.

(** The aliases resolve clean URLs in one lookup, whatever the order in which
    the hash map iterates: a key finds its own page if there is one, else the
    index page of the directory of that name, else what [name.html] finds in the
    same way (unless that is itself an index page), else nothing.  No page that
    was there is replaced. *)
Theorem route_aliases_resolve order cache k :
  (forall c, order c ≡ₚ map_to_list c) ->
  populate_route_aliases order cache !! k =
    match resolved_index cache k with
    | Some p => Some p
    | None => if decide (k <> [] /\ ~ is_index (k ++ HTML)) then resolved_index cache (k ++ HTML) else None
    end
  /\ (forall p, cache !! k = Some p -> populate_route_aliases order cache !! k = Some p).
Proof using Type.
  intros Horder. rewrite alias_lookup by done. split; [done|]. intros p Hp. unfold resolved_index at 1. by rewrite Hp.
Qed.

(** ** Snapshot reads ([projection/state.rs], [projection/handlers.rs]) *)

Record PageEntry := mkEntry {
  pe_body : Body;
  pe_body_zstd : option Body;
  pe_content_type : Text;
  pe_etag : Text;
  pe_content_length : Text;
  pe_content_length_zstd : option Text;
}.

Definition PageEntry_new (filename : Text) (b : Body) : PageEntry :=
  let ext := extension filename in
  let body_zstd := if is_compressible_ext ext then compress_zstd b else None in
  mkEntry b body_zstd (content_type_for_ext ext) (compute_etag b) (decimal (length b))
    (decimal ∘ length <$> body_zstd).

(** [trimmed.rsplit('/').next().is_some_and(|last| last.contains('.'))]. *)
Definition has_ext (k : Text) : bool :=
  contains_char 46 (match rsplit_once 47 k with Some (_, last) => last | None => k end).

Definition resolve_page {A} (snapshot : gmap Text A) (key : Text) : option A :=
  match snapshot !! key with
  | Some page => Some page
  | None =>
      let trimmed := trim_end_matches 47 key in
      let trailing_slash := ends_with [47] key && (1 <? Z.of_nat (length key)) in
      let no_ext := negb (has_ext trimmed) in
      let by_index :=
        if (trailing_slash || no_ext) && negb (bool_decide (trimmed = INDEX))
           && negb (ends_with SLASH_INDEX trimmed)
        then snapshot !! (if bool_decide (trimmed = []) then INDEX else trimmed ++ SLASH_INDEX)
        else None in
      match by_index with
      | Some page => Some page
      | None =>
          if negb trailing_slash && no_ext && negb (bool_decide (trimmed = []))
          then snapshot !! (trimmed ++ HTML) else None
      end
  end.

Definition serve_entry (page : PageEntry) (request_headers : HeaderMap) (st : Z) : Response :=
  let vary := when (bool_decide (is_Some (pe_body_zstd page))) (hset "vary" accept_encoding) in
  if Negotiation.if_none_match_matches request_headers (pe_etag page)
  then mkResponse 304 (vary (hset "cache-control" no_cache (hset "etag" (pe_etag page) []))) []
  else
    let wants_zstd := match encoding_of request_headers with Negotiation.Zstd => true | _ => false end in
    let '(b, enc, len) :=
      match pe_body_zstd page with
      | Some z => if wants_zstd then (z, Some (txt "zstd"), pe_content_length_zstd page)
                  else (pe_body page, None, Some (pe_content_length page))
      | None => (pe_body page, None, Some (pe_content_length page))
      end in
    let h := hset "cache-control" no_cache
               (hset "etag" (pe_etag page) (hset "content-type" (pe_content_type page) [])) in
    let h := match len with Some l => hset "content-length" l h | None => h end in
    let h := match enc with Some e => hset "content-encoding" e h | None => h end in
    mkResponse st (vary h) b.

Definition snapshot_get (snapshot : option (gmap Text PageEntry)) (method : Method) (raw_path : Text)
    (request_headers : HeaderMap) : Response :=
  match method with
  | OtherMethod =>
      mkResponse 405 [("allow", txt "GET, HEAD"); ("content-type", txt "text/plain; charset=utf-8")]
        (txt "method not allowed")
  | _ =>
      match snapshot with
      | None => text_response 503 "snapshot not yet available"
      | Some snapshot =>
          let suffix := default raw_path (strip_prefix (txt "/v1") raw_path) in
          match Path.normalize_request_path percent_decode suffix with
          | None => text_response 404 "not found"
          | Some normalized =>
              match resolve_page snapshot (Path.key normalized) with
              | Some page => serve_entry page request_headers 200
              | None => text_response 404 "not found"
              end
          end
      end
  end.

(** A key whose components are safe does not end with a slash. *)
Lemma safe_no_slash k : Forall Path.safe_segment (split 47 k) -> ends_with [47] k = false.
Proof using Type.
  intros Hk. destruct (ends_with [47] k) eqn:He; [|done]. apply ends_with_true in He as [r ->].
  rewrite split_snoc, Forall_app in Hk. destruct Hk as [_ Hk]. inversion_clear Hk as [|?? [Hn _] _]. done.
Qed.

Lemma trim_safe k : Forall Path.safe_segment (split 47 k) -> trim_end_matches 47 k = k.
Proof using Type.
  intros Hk%safe_no_slash. unfold trim_end_matches. transitivity (rev (rev k)); [f_equal|apply rev_involutive].
  destruct (rev k) as [|x r] eqn:Hr; [done|]. cbn [drop_while]. destruct (Z.eqb_spec 47 x) as [<-|Hx]; [|done].
  assert (ends_with [47] k = true); [|congruence]. apply ends_with_true. exists (rev r).
  by rewrite <- (rev_involutive k), Hr.
Qed.

(** A last component without a dot is not the one of an index page. *)
Lemma has_ext_slash_index dir : has_ext (dir ++ SLASH_INDEX) = true.
Proof using Type.
  unfold has_ext. rewrite (proj2 (rsplit_once_Some 47 (dir ++ SLASH_INDEX) dir INDEX)); [done|]. split; [done|].
  apply contains_char_false. done.
Qed.

Lemma no_ext_not_index k : has_ext k = false -> k <> INDEX /\ ends_with SLASH_INDEX k = false.
Proof using Type.
  intros Hk. split; [intros ->; done|]. destruct (ends_with SLASH_INDEX k) eqn:He; [|done].
  apply ends_with_true in He as [dir ->]. by rewrite has_ext_slash_index in Hk.
Qed.

(** The lookup chain on a key of safe components. *)
Lemma resolve_page_safe {A} (snapshot : gmap Text A) k :
  Forall Path.safe_segment (split 47 k) ->
  resolve_page snapshot k =
    match snapshot !! k with
    | Some p => Some p
    | None =>
        if has_ext k then None
        else match snapshot !! (k ++ SLASH_INDEX) with Some p => Some p | None => snapshot !! (k ++ HTML) end
    end.
Proof using Type.
  intros Hk. assert (Hne : k <> []).
  { intros ->. inversion_clear Hk as [|?? [Hn _] _]. done. }
  unfold resolve_page. rewrite trim_safe, safe_no_slash by done. destruct (snapshot !! k); [done|]. cbn [andb orb negb].
  rewrite (bool_decide_false (k = [])) by done. destruct (has_ext k) eqn:He; [done|].
  destruct (no_ext_not_index k He) as [Hi Hs]. rewrite bool_decide_false, Hs by done. cbn [andb negb].
  done.
Qed.

(** The two surfaces resolve clean URLs alike: for a key that
    [normalize_request_path] can produce, the lookup chain of the snapshot reader
    and the alias table of the page cache find the same page, when the last
    component has no dot, the key with [.html] is not itself an index page and the
    site has no directory called [key.html].  In the first two cases they differ:
    the reader finds [index.html] under [index] and the alias table does not; the
    table finds [v1.2.html] under [v1.2] and the reader does not. *)
Theorem resolve_page_agrees (order : gmap Text CachedPage -> list (Text * CachedPage)) (cache : gmap Text CachedPage) k :
  (forall c, order c ≡ₚ map_to_list c) -> Forall Path.safe_segment (split 47 k) ->
  (has_ext k = false -> ~ is_index (k ++ HTML) -> cache !! ((k ++ HTML) ++ SLASH_INDEX) = None ->
   resolve_page cache k = populate_route_aliases order cache !! k)
  /\ (forall p, cache = {[INDEX := p]} ->
       resolve_page cache (txt "index") = Some p /\ populate_route_aliases order cache !! txt "index" = None)
  /\ (forall p, cache = {[txt "v1.2.html" := p]} ->
       resolve_page cache (txt "v1.2") = None /\ populate_route_aliases order cache !! txt "v1.2" = Some p).
Proof using Type.
  intros Horder Hk. split_and!.
  - intros He Hi Hdir. rewrite resolve_page_safe, alias_lookup by done. unfold resolved_index. rewrite He, Hdir.
    assert (Hne : k <> []) by (intros ->; inversion_clear Hk as [|?? [Hn _] _]; done).
    rewrite (decide_False (P := k = [])) by done.
    destruct (cache !! k), (cache !! (k ++ SLASH_INDEX)); try done. rewrite decide_True by done.
    by repeat case_match.
  - intros p ->. rewrite alias_lookup by done. split; [reflexivity|reflexivity].
  - intros p ->. rewrite alias_lookup by done. split; [reflexivity|reflexivity].
Qed.

(** ** The cache is faithful *)

(** What a stream says it is: decompression gives back what was compressed. *)
Context (zstd_law : forall b z n, zstd_encode b = Some z -> 0 <= n -> zstd_read z n = Some (take (Z.to_nat n) b)).

Lemma identity_of_new filename b : identity_bytes (page_body (CachedPage_new filename b)) = Some b.
Proof using zstd_law.
  unfold CachedPage_new. cbn [page_body]. destruct (is_compressible_ext _); [|done].
  unfold compress_zstd. destruct (Z.ltb_spec MAX_PRECOMPRESS_BYTES (Z.of_nat (length b))) as [|Hlen]; [done|].
  destruct (zstd_encode b) as [z|] eqn:Hz; [|done]. case_bool_decide; [done|]. cbn [identity_bytes].
  unfold decode_bounded, saturating_add. unfold MAX_PRECOMPRESS_BYTES in Hlen.
  rewrite (zstd_law b z) by (try done; unfold U64_MAX; lia).
  rewrite take_ge by (unfold U64_MAX; lia). by rewrite Z.eqb_refl.
Qed.

Lemma zstd_of_new filename b z :
  CachedBody_zstd (page_body (CachedPage_new filename b)) = Some z ->
  zstd_encode b = Some z /\ content_length_zstd (CachedPage_new filename b) = Some (decimal (length z)).
Proof using Type.
  unfold CachedPage_new. cbn [page_body content_length_zstd]. destruct (is_compressible_ext _); [|done].
  unfold compress_zstd. destruct (_ <? _); [done|]. destruct (zstd_encode b) as [z'|]; [|done].
  case_bool_decide; by intros [= <-].
Qed.

(** The headers that go with the identity body and with the compressed one. *)
Lemma headers_raw_new filename b :
  let h := headers_raw (CachedPage_new filename b) in
  hget "etag" h = Some (compute_etag b) /\ hget "content-type" h = Some (content_type_for_ext (extension filename))
  /\ hget "content-length" h = Some (decimal (length b)) /\ hget "content-encoding" h = None.
Proof using Type.
  unfold CachedPage_new. cbn [headers_raw]. cbv zeta. unfold when.
  destruct (bool_decide (is_Some _)), (bool_decide (_ = txt "image/svg+xml")); done.
Qed.

Lemma headers_zstd_new filename b z :
  CachedBody_zstd (page_body (CachedPage_new filename b)) = Some z ->
  let h := headers_zstd (CachedPage_new filename b) in
  hget "etag" h = Some (compute_etag b) /\ hget "content-type" h = Some (content_type_for_ext (extension filename))
  /\ hget "content-length" h = Some (decimal (length z)) /\ hget "content-encoding" h = Some (txt "zstd").
Proof using Type.
  intros [_ Hl]%zstd_of_new. revert Hl. unfold CachedPage_new. cbn [headers_zstd content_length_zstd]. cbv zeta.
  intros ->. unfold when. destruct (bool_decide (_ = txt "image/svg+xml")); done.
Qed.

(** C40: What a client receives is the page.  For any page and any request headers
    the answer is an empty 304 with the page's tag, only when the client sent a
    matching tag and the check is not skipped, or the page with the given status,
    its tag and type and the length of the body that is sent: the page's own
    bytes without an encoding, or, only if the client's header takes zstd, the
    compressed bytes labelled as such.  Serving never fails. *)
Theorem serve_page_faithful filename b request_headers st skip :
  let page := CachedPage_new filename b in
  let r := serve_page page request_headers st skip in
  let tag := hget "etag" (headers r) in
  (status r = 304 /\ body r = [] /\ skip = false /\ tag = Some (compute_etag b)
   /\ Negotiation.if_none_match_matches request_headers (compute_etag b) = true)
  \/ (status r = st /\ tag = Some (compute_etag b)
      /\ hget "content-type" (headers r) = Some (content_type_for_ext (extension filename))
      /\ hget "content-length" (headers r) = Some (decimal (length (body r)))
      /\ ((hget "content-encoding" (headers r) = None /\ body r = b)
          \/ (hget "content-encoding" (headers r) = Some (txt "zstd")
              /\ encoding_of request_headers = Negotiation.Zstd /\ zstd_encode b = Some (body r)))).
Proof using zstd_law.
  cbv zeta. set (page := CachedPage_new filename b). unfold serve_page.
  destruct (negb skip && _) eqn:Hm.
  { left. apply andb_true_iff in Hm as [Hs Hm]. apply negb_true_iff in Hs. cbn [status body headers].
    split_and!; try done. unfold page, CachedPage_new. cbn [headers_304]. unfold when.
    by destruct (bool_decide _). }
  right. pose proof (identity_of_new filename b) as Hid. fold page in Hid.
  destruct (headers_raw_new filename b) as (Ht&Hc&Hl&He). fold page in Ht, Hc, Hl, He.
  destruct (encoding_of request_headers) eqn:Henc; [|rewrite Hid; cbn; split_and!; auto].
  destruct (CachedBody_zstd (page_body page)) as [z|] eqn:Hz; [|rewrite Hid; cbn; split_and!; auto].
  destruct (headers_zstd_new filename b z Hz) as (Ht'&Hc'&Hl'&He'). fold page in Ht', Hc', Hl', He'.
  destruct (zstd_of_new filename b z Hz) as [Hze _]. cbn. split_and!; auto.
Qed.

(** A stream that does not hold exactly the expected bytes is never served. *)
Lemma decode_bounded_exact z n b : decode_bounded z n = Some b -> Z.of_nat (length b) = n.
Proof using Type.
  unfold decode_bounded. destruct (zstd_read z _) as [buf|]; [|done]. case (Z.eqb_spec (Z.of_nat (length buf)) n); [|done].
  by intros <- [= <-].
Qed.

End Pages.

(** ** Witnesses *)

(** A compressor that stores. *)
Definition store_read (z : Body) (n : Z) : option Body := Some (take (Z.to_nat n) z).

Definition no_header : HeaderMap := fun _ => [].
Definition one_header (name : string) (v : Text) : HeaderMap :=
  fun n => if String.eqb n name then [Some v] else [].

Lemma serve_page_faithful_witness :
  let page := CachedPage_new (fun _ => repeat 7 32) Some (txt "a.css") [1; 2; 3] in
  let zstd : HeaderMap := one_header "accept-encoding" (txt "zstd") in
  body (serve_page store_read page no_header 200 false) = [1; 2; 3]
  /\ hget "content-encoding" (headers (serve_page store_read page zstd 200 false)) = Some (txt "zstd")
  /\ status (serve_page store_read page (one_header "if-none-match" (etag page)) 200 false) = 304
  /\ hget "content-length" (headers (serve_page store_read page no_header 200 false)) = Some (txt "3").
Proof.
  cbv zeta. split_and!; [vm_compute; reflexivity..|].
  destruct (serve_page_faithful (fun _ => repeat 7 32) Some store_read
              (fun b z n E _ => ltac:(by injection E as <-)) (txt "a.css") [1; 2; 3] no_header 200 false)
    as [(Hs&_)|(_&_&_&Hl&_)]; [|exact Hl].
  exfalso. revert Hs. vm_compute. discriminate.
Defined.

Definition example_page (b : Body) : CachedPage := CachedPage_new (fun _ => repeat 7 32) Some (txt "a.html") b.

Lemma route_aliases_resolve_witness :
  populate_route_aliases map_to_list {[txt "blog/index.html" := example_page [1]]} !! txt "blog"
  = Some (example_page [1]).
Proof.
  refine (eq_trans (proj1 (route_aliases_resolve map_to_list _ (txt "blog") (fun c => Permutation_refl _))) _).
  reflexivity.
Defined.

Lemma resolve_page_agrees_witness :
  resolve_page {[txt "about.html" := example_page [1]]} (txt "about")
  = populate_route_aliases map_to_list {[txt "about.html" := example_page [1]]} !! txt "about".
Proof.
  apply (resolve_page_agrees map_to_list {[txt "about.html" := example_page [1]]} (txt "about")
           (fun c => Permutation_refl _)).
  - apply Forall_singleton. split_and!; try done; apply contains_char_false; reflexivity.
  - reflexivity.
  - intros H%is_index_bool. discriminate H.
  - reflexivity.
Defined.
