(* ===== verification/Session.v ===== *)
(** * WebSocket sessions (crate [cherry-pit-web], [projection/handlers.rs], [serve/runtime.rs])

    [Wire]: frames, sends that take time, and the environment of a session: which
    branch of the [select!] fires, when, and how long a send takes.  [ProjectionWs]:
    the keepalive state and the session loop of the projection surface, whose
    sends are bounded in time.  [ServeWs]: the session of the serving surface, whose
    sends are not.  [Pool]: upgrade requests and the permits of the connection
    semaphore, for any session.

    Instants are nanoseconds.  Waiting and sending take time and nothing else
    does.  One step of a session is one turn of its loop; after the last turn
    comes the code behind the loop. *)

From S2P Require Import Prelude Chars Web Pages.

Definition SEC : Z := 1000000000.
Definition WS_PING_INTERVAL : Z := 30 * SEC.
Definition WS_PONG_DEADLINE : Z := 10 * SEC.
Definition WS_SEND_TIMEOUT : Z := 5 * SEC.
Definition WS_CLOSE_GOING_AWAY : Z := 1001.

(** The pieces of a literal with quotation marks between them. *)
Definition quoted (l : list string) : Text := join 34 (txt <$> l).

Inductive Frame := TextFrame (t : Text) | PingFrame | CloseFrame (reason : option (Z * Text)).

(** What happens to a send: the time it takes, [None] for one that never
    finishes, and whether the sink accepts the frame. *)
Record Attempt := mkAttempt { takes : option Z; succeeds : bool }.

(** The socket as the session sees it: the time, and the frames handed to the sink. *)
Record Conn := mkConn { now : Z; frames : list Frame }.

Definition advance (t : Z) (c : Conn) : Conn := mkConn t (frames c).
Definition hand (f : Frame) (c : Conn) : Conn := mkConn (now c) (frames c ++ [f]).

(** What a branch of the [select!] yields. *)
Inductive Incoming := Pong | ClientClose | OtherMessage | StreamError | StreamEnd.
Inductive Delivery := Update (json : Text) | Lagged | Closed.
Inductive Branch := Receive (m : Incoming) | Recv (d : Delivery) | Tick | PongTimeout.

(** One turn: the branch that fires, the instant at which it does, the first send
    of the turn, and the close that may follow the loop. *)
Record Event := mkEvent { at_ : Z; branch : Branch; sending : Attempt; closing : Attempt }.

Definition lasts (a : Attempt) : bool := match takes a with Some d => 0 <=? d | None => true end.

(** [tokio::time::timeout(limit, send)]: when it is over, and whether it succeeded. *)
Definition timeout (limit : Z) (a : Attempt) (c : Conn) : Conn * bool :=
  match takes a with
  | Some d => if d <=? limit then (advance (now c + d) c, succeeds a) else (advance (now c + limit) c, false)
  | None => (advance (now c + limit) c, false)
  end.

#[global] Arguments timeout : simpl never.

Definition best_effort_close (reason : option (Z * Text)) (a : Attempt) (c : Conn) : Conn :=
  fst (timeout WS_SEND_TIMEOUT a (hand (CloseFrame reason) c)).

Definition best_effort_flush (a : Attempt) (c : Conn) : Conn := fst (timeout WS_SEND_TIMEOUT a c).

(** ** Reading frames back *)

Definition texts (fs : list Frame) : list Text := omap (fun f => match f with TextFrame t => Some t | _ => None end) fs.
Definition is_close (f : Frame) : bool := match f with CloseFrame _ => true | _ => false end.
Definition updates (evs : list Event) : list Text :=
  omap (fun ev => match branch ev with Recv (Update json) => Some json | _ => None end) evs.
Definition has_pong (ev : Event) : bool := match branch ev with Receive Pong => true | _ => false end.

Lemma timeout_time limit a c :
  lasts a = true -> 0 <= limit -> now c <= now (fst (timeout limit a c)) <= now c + limit.
Proof.
  unfold timeout, lasts. destruct (takes a) as [d|]; simpl; [|lia]. intros Hd%Z.leb_le Hl.
  destruct (Z.leb_spec d limit); simpl; lia.
Qed.

Lemma timeout_frames limit a c : frames (fst (timeout limit a c)) = frames c.
Proof. unfold timeout. destruct (takes a) as [d|]; [destruct (_ <=? _)|]; done. Qed.

Lemma texts_app a b : texts (a ++ b) = texts a ++ texts b.
Proof. unfold texts. by rewrite omap_app. Qed.

(** The frames of a session against the messages it had to forward: all of them
    while it runs; a close frame at most once, and last. *)
Definition framed (msgs : list Text) (run : bool) (fs : list Frame) : Prop :=
  exists pre cl,
    fs = pre ++ cl /\ Forall (fun f => is_close f = false) pre /\ texts pre `prefix_of` msgs
    /\ (cl = [] \/ exists reason, cl = [CloseFrame reason])
    /\ (run = true -> cl = [] /\ texts pre = msgs).

Lemma framed_end msgs more fs : framed msgs true fs -> framed (msgs ++ more) false fs.
Proof.
  intros (pre&cl&->&Hp&Ht&Hcl&Hr). exists pre, cl. split_and!; auto; [by apply prefix_app_r|done].
Qed.

Lemma framed_close msgs more fs reason :
  framed msgs true fs -> framed (msgs ++ more) false (fs ++ [CloseFrame reason]).
Proof.
  intros (pre&cl&->&Hp&Ht&Hcl&Hr). destruct (Hr eq_refl) as [-> _]. exists pre, [CloseFrame reason].
  rewrite app_nil_r. split_and!; eauto; [by apply prefix_app_r|done].
Qed.

Lemma framed_quiet msgs fs : framed msgs true fs -> framed (msgs ++ []) true fs.
Proof. by rewrite app_nil_r. Qed.

(** A frame that is not a close, with the message it carries. *)
Lemma framed_hand msgs fs f run :
  is_close f = false -> framed msgs true fs -> framed (msgs ++ texts [f]) run (fs ++ [f]).
Proof.
  intros Hf (pre&cl&->&Hp&_&Hcl&Hr). destruct (Hr eq_refl) as [-> Hs].
  exists (pre ++ [f]), []. rewrite !app_nil_r, texts_app, Hs. split_and!; auto.
  apply Forall_app. by repeat constructor.
Qed.

Lemma framed_open msgs fs : framed msgs true fs -> Forall (fun f => is_close f = false) fs.
Proof. intros (pre&cl&->&Hp&_&_&Hr). destruct (Hr eq_refl) as [-> _]. by rewrite app_nil_r. Qed.

Lemma framed_greeting msg run : framed [msg] run [TextFrame msg].
Proof. exists [TextFrame msg], []. split_and!; auto. Qed.

(** ** The projection surface *)

Module ProjectionWs.

Record KeepaliveState := mkKeepalive { pong_deadline : option Z; pong_duration : Z }.

Definition new (pong_duration : Z) : KeepaliveState := mkKeepalive None pong_duration.

Definition is_expired (k : KeepaliveState) (now : Z) : bool :=
  match pong_deadline k with Some deadline => deadline <=? now | None => false end.

Definition arm_ping (k : KeepaliveState) (now : Z) : KeepaliveState :=
  mkKeepalive (Some (now + pong_duration k)) (pong_duration k).

Definition record_pong (k : KeepaliveState) (now : Z) : KeepaliveState * bool :=
  if is_expired k now then (k, false) else (mkKeepalive None (pong_duration k), true).

Definition send_with_timeout (msg : Frame) (deadline : option Z) (a : Attempt) (c : Conn) : Conn * bool :=
  match deadline with
  | Some deadline =>
      if deadline <=? now c then (c, false)
      else timeout (Z.min (deadline - now c) WS_SEND_TIMEOUT) a (hand msg c)
  | None => timeout WS_SEND_TIMEOUT a (hand msg c)
  end.

#[global] Arguments send_with_timeout : simpl never.

Record Session := mkSession {
  conn : Conn;
  keepalive : KeepaliveState;
  next_tick : Z;
  running : bool;
}.

Definition CONNECTED : Text := quoted ["{"; "v"; ":1,"; "type"; ":"; "connected"; "}"].
Definition LAG_REASON : Text := txt "lagged; resync via snapshot".

(** The session up to its loop; the first tick of an interval is immediate. *)
Definition connect (start : Z) (a : Attempt) : Session :=
  let '(c, ok) := send_with_timeout (TextFrame CONNECTED) None a (mkConn start []) in
  mkSession c (new WS_PONG_DEADLINE) (now c + WS_PING_INTERVAL) ok.

(** [continue], and [break] with the code behind the loop. *)
Definition continue (s : Session) (c : Conn) (k : KeepaliveState) : Session := mkSession c k (next_tick s) true.
Definition break_ (s : Session) (sent_close : bool) (ev : Event) (c : Conn) : Session :=
  mkSession (if sent_close then c else best_effort_close None (closing ev) c) (keepalive s) (next_tick s) false.

Definition turn (s : Session) (ev : Event) : Session :=
  let c := advance (at_ ev) (conn s) in
  let k := keepalive s in
  match branch ev with
  | Receive Pong =>
      let '(k', in_time) := record_pong k (now c) in
      if in_time then continue s c k' else break_ s false ev c
  | Receive ClientClose => break_ s true ev (best_effort_flush (sending ev) c)
  | Receive StreamError | Receive StreamEnd => break_ s true ev c
  | Receive OtherMessage => continue s c k
  | Recv (Update json) =>
      let '(c, ok) := send_with_timeout (TextFrame json) (pong_deadline k) (sending ev) c in
      if ok then continue s c k else break_ s true ev c
  | Recv Lagged =>
      break_ s true ev (best_effort_close (Some (WS_CLOSE_GOING_AWAY, LAG_REASON)) (sending ev) c)
  | Recv Closed => break_ s false ev c
  | Tick =>
      let s := mkSession (conn s) k (next_tick s + WS_PING_INTERVAL) true in
      match pong_deadline k with
      | Some _ => continue s c k
      | None =>
          let '(c, ok) := send_with_timeout PingFrame None (sending ev) c in
          if ok then continue s c (arm_ping k (now c)) else break_ s true ev c
      end
  | PongTimeout => break_ s false ev c
  end.

(** Which turns can happen: no branch fires before the present, timers fire at
    their instant, and waiting ends when a timer does. *)
Definition may_happen (s : Session) (ev : Event) : bool :=
  running s && (now (conn s) <=? at_ ev) && lasts (sending ev) && lasts (closing ev)
  && (at_ ev <=? Z.max (now (conn s)) (next_tick s))
  && match pong_deadline (keepalive s) with Some d => at_ ev <=? Z.max (now (conn s)) d | None => true end
  && match branch ev with
     | Tick => next_tick s <=? at_ ev
     | PongTimeout => match pong_deadline (keepalive s) with Some d => d <=? at_ ev | None => false end
     | _ => true
     end.

(** The turns that lead from a session to another. *)
Inductive turns (s : Session) : list Event -> Session -> Prop :=
| turns_none : turns s [] s
| turns_more evs s1 ev : turns s evs s1 -> may_happen s1 ev = true -> turns s (evs ++ [ev]) (turn s1 ev).

(** *** Time *)

Lemma send_time msg deadline a c :
  lasts a = true -> (forall d, deadline = Some d -> now c <= d) ->
  now c <= now (fst (send_with_timeout msg deadline a c)) <= now c + WS_SEND_TIMEOUT
  /\ (forall d, deadline = Some d -> now (fst (send_with_timeout msg deadline a c)) <= d).
Proof.
  intros Ha Hd. unfold send_with_timeout. destruct deadline as [d|].
  - specialize (Hd d eq_refl). destruct (Z.leb_spec d (now c)); simpl; [split; [unfold WS_SEND_TIMEOUT, SEC; lia|]|].
    { intros ? [= <-]. lia. }
    pose proof (timeout_time (Z.min (d - now c) WS_SEND_TIMEOUT) a (hand msg c) Ha) as Ht.
    cbn [now hand] in Ht. specialize (Ht ltac:(unfold WS_SEND_TIMEOUT, SEC; lia)).
    split; [lia|]. intros ? [= <-]. lia.
  - split; [|done]. apply (timeout_time WS_SEND_TIMEOUT a (hand msg c) Ha). unfold WS_SEND_TIMEOUT, SEC. lia.
Qed.

Lemma close_time reason a c :
  lasts a = true -> now c <= now (best_effort_close reason a c) <= now c + WS_SEND_TIMEOUT.
Proof.
  intros Ha. apply (timeout_time WS_SEND_TIMEOUT a (hand (CloseFrame reason) c) Ha). unfold WS_SEND_TIMEOUT, SEC. lia.
Qed.

Lemma flush_time a c : lasts a = true -> now c <= now (best_effort_flush a c) <= now c + WS_SEND_TIMEOUT.
Proof. intros Ha. apply timeout_time; [done|]. unfold WS_SEND_TIMEOUT, SEC. lia. Qed.

Lemma break_time s sent ev c :
  lasts (closing ev) = true -> now c <= now (conn (break_ s sent ev c)) <= now c + WS_SEND_TIMEOUT.
Proof. intros Ha. destruct sent; simpl; [unfold WS_SEND_TIMEOUT, SEC; lia|]. by apply close_time. Qed.

(** What [may_happen] says. *)
Lemma may_happen_inv s ev :
  may_happen s ev = true ->
  running s = true /\ now (conn s) <= at_ ev /\ lasts (sending ev) = true /\ lasts (closing ev) = true
  /\ (forall d, pong_deadline (keepalive s) = Some d -> at_ ev <= Z.max (now (conn s)) d).
Proof.
  unfold may_happen. intros H. to_prop. split_and!; try done. intros d Hd. rewrite Hd in *. to_prop. done.
Qed.

(** An armed deadline is never in the past while the session runs. *)
Record timely (s : Session) : Prop := {
  t_duration : pong_duration (keepalive s) = WS_PONG_DEADLINE;
  t_deadline d : running s = true -> pong_deadline (keepalive s) = Some d ->
    now (conn s) <= d <= now (conn s) + WS_PONG_DEADLINE;
}.

(** A pong that arrives before the deadline. *)
Definition timely_pong (d : Z) (ev : Event) : bool := has_pong ev && (at_ ev <? d).

Lemma turn_timely_pong s ev d :
  pong_deadline (keepalive s) = Some d -> timely_pong d ev = true ->
  running (turn s ev) = true /\ pong_deadline (keepalive (turn s ev)) = None.
Proof.
  intros Hd. unfold timely_pong, has_pong, turn, record_pong, is_expired. rewrite Hd.
  destruct (branch ev) as [[]|[]| |]; simpl; try done. intros Hlt%Z.ltb_lt. by rewrite (proj2 (Z.leb_gt _ _)).
Qed.

(** One turn under an armed deadline, a timely answer of the client apart. *)
Lemma turn_armed s ev d :
  timely s -> may_happen s ev = true -> pong_deadline (keepalive s) = Some d -> timely_pong d ev = false ->
  now (conn s) <= now (conn (turn s ev))
  /\ (running (turn s ev) = true -> keepalive (turn s ev) = keepalive s /\ now (conn (turn s ev)) <= d)
  /\ (running (turn s ev) = false -> now (conn (turn s ev)) <= d + WS_SEND_TIMEOUT).
Proof.
  intros [_ Ht] Hm Hd Hp. destruct (may_happen_inv _ _ Hm) as (Hr&Hat&Hs&Hc&Hw). specialize (Ht d Hr Hd). specialize (Hw d Hd).
  set (c := advance (at_ ev) (conn s)). assert (Hnow : now c = at_ ev) by done.
  assert (Hbreak : forall sent c', now c <= now c' <= d ->
    now (conn s) <= now (conn (break_ s sent ev c')) <= d + WS_SEND_TIMEOUT).
  { intros sent c' Hc'. pose proof (break_time s sent ev c' Hc). lia. }
  unfold turn. fold c. unfold timely_pong, has_pong in Hp. destruct (branch ev) as [[]|[json| |]| |]; simpl; try done.
  - unfold record_pong, is_expired. rewrite Hd. simpl in Hp |- *. rewrite (proj2 (Z.leb_le d (at_ ev))) by (by apply Z.ltb_ge).
    pose proof (Hbreak false c ltac:(lia)). split_and!; [lia|done|lia].
  - pose proof (flush_time (sending ev) c Hs). split_and!; [lia|done|lia].
  - split_and!; [lia|intros; split; [done|lia]|done].
  - split_and!; [lia|done|unfold WS_SEND_TIMEOUT, SEC; lia].
  - split_and!; [lia|done|unfold WS_SEND_TIMEOUT, SEC; lia].
  - rewrite Hd. pose proof (send_time (TextFrame json) (Some d) (sending ev) c Hs) as [Hb Hle].
    { intros ? [= <-]. lia. }
    specialize (Hle d eq_refl). destruct (send_with_timeout _ _ _ c) as [c' ok]. simpl in *.
    destruct ok; simpl; split_and!; try lia; try done; unfold WS_SEND_TIMEOUT, SEC; lia.
  - pose proof (close_time (Some (WS_CLOSE_GOING_AWAY, LAG_REASON)) (sending ev) c Hs). split_and!; [lia|done|lia].
  - pose proof (Hbreak false c ltac:(lia)). split_and!; [simpl in *; lia|done|simpl in *; lia].
  - rewrite Hd. simpl. split_and!; [lia|intros; split; [done|lia]|done].
  - pose proof (Hbreak false c ltac:(lia)). split_and!; [simpl in *; lia|done|simpl in *; lia].
Qed.

(** Without an armed deadline only a ping that was sent arms one. *)
Lemma turn_unarmed s ev d :
  pong_deadline (keepalive s) = None -> pong_deadline (keepalive (turn s ev)) = Some d ->
  running (turn s ev) = true ->
  d = now (conn (turn s ev)) + pong_duration (keepalive s) /\ branch ev = Tick.
Proof.
  intros Hd. unfold turn, record_pong, is_expired. rewrite Hd.
  destruct (branch ev) as [[]|[json| |]| |]; simpl; try congruence.
  - destruct (send_with_timeout _ _ _ _) as [c []]; simpl; congruence.
  - destruct (send_with_timeout _ _ _ _) as [c []]; simpl; [|congruence]. by intros [= <-] _.
Qed.

Lemma turn_duration s ev : pong_duration (keepalive (turn s ev)) = pong_duration (keepalive s).
Proof.
  unfold turn, record_pong.
  destruct (branch ev) as [[]|[json| |]| |]; simpl; try done.
  - by destruct (is_expired _ _).
  - by destruct (send_with_timeout _ _ _ _) as [c []].
  - destruct (pong_deadline _); [done|]. by destruct (send_with_timeout _ _ _ _) as [c []].
Qed.

Lemma timely_turn s ev : timely s -> may_happen s ev = true -> timely (turn s ev).
Proof.
  intros Ht Hm. split; [rewrite turn_duration; apply Ht|]. intros d Hr Hd.
  destruct (pong_deadline (keepalive s)) as [d0|] eqn:Hd0.
  - destruct (timely_pong d0 ev) eqn:Hp.
    + destruct (turn_timely_pong _ _ _ Hd0 Hp). congruence.
    + destruct (turn_armed s ev d0 Ht Hm Hd0 Hp) as (Hmono&Hk&_). destruct (Hk Hr) as [Heq Hle].
      rewrite Heq, Hd0 in Hd. injection Hd as <-.
      pose proof (t_deadline _ Ht d0 (proj1 (may_happen_inv _ _ Hm)) Hd0). lia.
  - destruct (turn_unarmed s ev d Hd0 Hd Hr) as [-> _]. rewrite (t_duration _ Ht). unfold WS_PONG_DEADLINE, SEC. lia.
Qed.

Lemma timely_connect start a : timely (connect start a).
Proof. unfold connect. destruct (send_with_timeout _ _ _ _) as [c ok]. by split. Qed.

Lemma timely_turns s evs s' : turns s evs s' -> timely s -> timely s'.
Proof. induction 1 as [|evs s1 ev _ IH Hm]; [done|]. intros Ht. apply timely_turn; [by apply IH|done]. Qed.

(** C24: A client that does not answer a ping in time is gone.  While a session runs,
    an armed deadline lies at most ten seconds ahead and never in the past.  A pong
    before it keeps the session and disarms the deadline; from there on, whatever
    else the client and the update channel send, a pong that comes at the deadline
    or later included, and however slow every send is, the session either still
    runs, before the same deadline, or has ended at most the five seconds of its
    closing frame after it. *)
Theorem ws_session_keepalive start a evs0 s d :
  turns (connect start a) evs0 s -> running s = true -> pong_deadline (keepalive s) = Some d ->
  now (conn s) <= d <= now (conn s) + WS_PONG_DEADLINE
  /\ (forall ev, may_happen s ev = true -> timely_pong d ev = true ->
       running (turn s ev) = true /\ pong_deadline (keepalive (turn s ev)) = None)
  /\ (forall evs s', turns s evs s' -> Forall (fun ev => timely_pong d ev = false) evs ->
       if running s' then pong_deadline (keepalive s') = Some d /\ now (conn s) <= now (conn s') <= d
       else now (conn s) <= now (conn s') <= d + WS_SEND_TIMEOUT).
Proof.
  intros Hrun Hr Hd. assert (Ht : timely s) by (eapply timely_turns; [done|apply timely_connect]).
  pose proof (t_deadline _ Ht d Hr Hd) as Hb. split; [done|]. split; [intros ev _; by apply turn_timely_pong|].
  intros evs s' Hs'.
  induction Hs' as [|evs s1 ev Hs1 IH Hm]; [rewrite Hr; intros _; split; [done|lia]|]. intros [Hp1 Hp]%Forall_app.
  rewrite Forall_singleton in Hp. specialize (IH Hp1). rewrite (proj1 (may_happen_inv _ _ Hm)) in IH.
  destruct IH as [Hd1 Hb1]. assert (Ht1 : timely s1) by (by eapply timely_turns).
  destruct (turn_armed s1 ev d Ht1 Hm Hd1 Hp) as (Hmono&Hk&He).
  destruct (running (turn s1 ev)); [|split; [lia|by apply He]]. destruct (Hk eq_refl) as [-> Hle]. split; [done|lia].
Qed.

(** *** Frames *)

Lemma send_frames msg deadline a c :
  let '(c', ok) := send_with_timeout msg deadline a c in
  frames c' = frames c ++ [msg] \/ (ok = false /\ frames c' = frames c).
Proof.
  unfold send_with_timeout. destruct deadline as [d|]; [destruct (d <=? now c); [by right|]|].
  all: destruct (timeout _ _ _) as [c' ok] eqn:E; left; apply (f_equal fst) in E; simpl in E; subst;
    by rewrite timeout_frames.
Qed.

Lemma close_frames reason a c : frames (best_effort_close reason a c) = frames c ++ [CloseFrame reason].
Proof. unfold best_effort_close. by rewrite timeout_frames. Qed.

Lemma flush_frames a c : frames (best_effort_flush a c) = frames c.
Proof. apply timeout_frames. Qed.

Lemma framed_turn evs s ev :
  framed (CONNECTED :: updates evs) true (frames (conn s)) ->
  framed (CONNECTED :: updates (evs ++ [ev])) (running (turn s ev)) (frames (conn (turn s ev))).
Proof.
  unfold updates. rewrite omap_app, app_comm_cons. fold (updates evs). intros Hf. unfold turn.
  set (c := advance (at_ ev) (conn s)). change (framed (CONNECTED :: updates evs) true (frames c)) in Hf.
  set (msgs := CONNECTED :: updates evs) in *. clearbody msgs. csimpl.
  destruct (branch ev) as [[]|[json| |]| |]; cbn [conn running continue break_];
    rewrite ?flush_frames, ?close_frames;
    try (by apply framed_quiet); try (by apply framed_end); try (by apply framed_close).
  - destruct (record_pong _ _) as [k' []]; [by apply framed_quiet|]. cbn [conn running break_].
    rewrite close_frames. by apply framed_close.
  - pose proof (send_frames (TextFrame json) (pong_deadline (keepalive s)) (sending ev) c) as Hs.
    destruct (send_with_timeout _ _ _ c) as [c' ok]. destruct Hs as [Hs|[-> Hs]].
    + destruct ok; cbn [conn running continue break_]; rewrite Hs; by apply (framed_hand _ _ (TextFrame json)).
    + cbn [conn running break_]. rewrite Hs. by apply framed_end.
  - destruct (pong_deadline (keepalive s)); [by apply framed_quiet|].
    pose proof (send_frames PingFrame None (sending ev) c) as Hs.
    destruct (send_with_timeout _ _ _ c) as [c' ok]. destruct Hs as [Hs|[-> Hs]].
    + destruct ok; cbn [conn running continue break_]; rewrite Hs; by apply (framed_hand _ _ PingFrame).
    + cbn [conn running break_]. rewrite Hs. by apply framed_end.
Qed.

Lemma framed_connect start a : framed [CONNECTED] (running (connect start a)) (frames (conn (connect start a))).
Proof.
  unfold connect. destruct (send_with_timeout _ _ _ _) as [c ok] eqn:E. cbn [conn running].
  assert (Hc : frames c = [TextFrame CONNECTED]); [|rewrite Hc; apply framed_greeting].
  apply (f_equal fst) in E. unfold send_with_timeout in E. simpl in E. subst. by rewrite timeout_frames.
Qed.

(** The close frame that goes with the way a session ended. *)
Definition farewell (ev : Event) (fs : list Frame) : Prop :=
  match branch ev with
  | Recv Lagged => last fs = Some (CloseFrame (Some (WS_CLOSE_GOING_AWAY, LAG_REASON)))
  | Recv Closed | PongTimeout | Receive Pong => last fs = Some (CloseFrame None)
  | Receive _ | Recv (Update _) | Tick => Forall (fun f => is_close f = false) fs
  end.

Lemma turn_farewell s ev :
  Forall (fun f => is_close f = false) (frames (conn s)) -> running (turn s ev) = false ->
  farewell ev (frames (conn (turn s ev))).
Proof.
  intros Hf. unfold turn, farewell. set (c := advance (at_ ev) (conn s)).
  assert (Hsend : forall msg deadline a c' ok, is_close msg = false -> send_with_timeout msg deadline a c = (c', ok) ->
    Forall (fun f => is_close f = false) (frames c')).
  { intros msg deadline a c' ok Hmsg E. pose proof (send_frames msg deadline a c) as Hs. rewrite E in Hs.
    destruct Hs as [->|[_ ->]]; [|done]. apply Forall_app. by repeat constructor. }
  destruct (branch ev) as [[]|[json| |]| |]; cbn [conn running continue break_]; try done;
    rewrite ?flush_frames, ?close_frames, ?last_snoc; try done.
  - destruct (record_pong _ _) as [k' []]; [done|]. cbn [conn break_]. by rewrite close_frames, last_snoc.
  - destruct (send_with_timeout _ _ _ c) as [c' []] eqn:E; [done|]. intros _. eapply Hsend; [|exact E]. done.
  - destruct (pong_deadline _); [done|].
    destruct (send_with_timeout _ _ _ c) as [c' []] eqn:E; [done|]. intros _. eapply Hsend; [|exact E]. done.
Qed.

(** The frames of a session, and that a lag ends it. *)
Lemma session_framed start a evs s :
  turns (connect start a) evs s -> framed (CONNECTED :: updates evs) (running s) (frames (conn s)).
Proof.
  induction 1 as [|evs s1 ev Hrun IH Hm]; [apply framed_connect|].
  rewrite (proj1 (may_happen_inv _ _ Hm)) in IH. by apply framed_turn.
Qed.

Lemma lag_stops s0 evs s ev : turns s0 evs s -> ev ∈ evs -> branch ev = Recv Lagged -> running s = false.
Proof.
  induction 1 as [|evs s1 e Hrun IH Hm]; [by intros ?%not_elem_of_nil|].
  intros [Hin| ->%list_elem_of_singleton]%elem_of_app Hb; [|unfold turn; by rewrite Hb].
  exfalso. pose proof (IH Hin Hb). pose proof (proj1 (may_happen_inv _ _ Hm)). congruence.
Qed.

(** What a client of the projection surface receives: the greeting, then the
    updates of the channel in order and without a gap, all of them while the
    session runs; no close frame while it runs, at most one in all, and nothing
    after it.  A session whose receiver lagged ends there, with code 1001; one
    that ended because the channel closed or a pong is late ends with a plain
    close; a client that closed or vanished, or to which a send failed, gets none. *)
Theorem ws_session_frames start a evs s :
  turns (connect start a) evs s ->
  framed (CONNECTED :: updates evs) (running s) (frames (conn s))
  /\ (forall evs' ev, evs = evs' ++ [ev] -> running s = false -> farewell ev (frames (conn s)))
  /\ (forall ev, ev ∈ evs -> branch ev = Recv Lagged -> running s = false).
Proof.
  intros Hrun. split_and!; [by eapply session_framed| |intros ev Hin Hb; by eapply lag_stops].
  intros evs' ev ->. inversion Hrun as [Hnil|evs1 s1 ev1 Hrun1 Hm Hsnoc]; [by destruct evs'|].
  apply app_inj_tail in Hsnoc as [-> ->]. subst. intros Hr. apply turn_farewell; [|done].
  pose proof (session_framed _ _ _ _ Hrun1) as Hf. rewrite (proj1 (may_happen_inv _ _ Hm)) in Hf. by eapply framed_open.
Qed.

End ProjectionWs.

(** ** The serving surface *)

Module ServeWs.

(** [sender.send(..).await]; [None] when it never returns. *)
Definition send (msg : Frame) (a : Attempt) (c : Conn) : option (Conn * bool) :=
  match takes a with
  | Some d => Some (mkConn (now c + d) (frames c ++ [msg]), succeeds a)
  | None => None
  end.

Inductive Phase := Running | Stalled | Ended.

Record Session := mkSession {
  conn : Conn;
  awaiting_pong : bool;
  pong_timeout : Z;
  far_future : Z;
  next_tick : Z;
  phase : Phase;
}.

Definition CONNECTED : Text := quoted ["{"; "type"; ":"; "connected"; "}"].
Definition RELOAD : Text := quoted ["{"; "type"; ":"; "reload"; "}"].

(** The session up to its loop. *)
Definition connect (start : Z) (a : Attempt) : Session :=
  match send (TextFrame CONNECTED) a (mkConn start []) with
  | None => mkSession (hand (TextFrame CONNECTED) (mkConn start [])) false start start start Stalled
  | Some (c, false) => mkSession c false (now c) (now c) (now c) Ended
  | Some (c, true) =>
      let far := now c + 24 * 3600 * SEC in
      mkSession c false far far (now c + WS_PING_INTERVAL) Running
  end.

Definition with_conn (c : Conn) (p : Phase) (s : Session) : Session :=
  mkSession c (awaiting_pong s) (pong_timeout s) (far_future s) (next_tick s) p.

(** A send that never returns leaves the session where it is; after [break] the
    close frame is sent, however long that takes. *)
Definition break_ (s : Session) (ev : Event) (c : Conn) : Session :=
  match send (CloseFrame None) (closing ev) c with
  | Some (c, _) => with_conn c Ended s
  | None => with_conn (hand (CloseFrame None) c) Stalled s
  end.

Definition send_or_break (s : Session) (ev : Event) (msg : Frame) (c : Conn) (k : Conn -> Session) : Session :=
  match send msg (sending ev) c with
  | Some (c, true) => k c
  | Some (c, false) => break_ s ev c
  | None => with_conn (hand msg c) Stalled s
  end.

Definition turn (s : Session) (ev : Event) : Session :=
  let c := advance (at_ ev) (conn s) in
  let continue c := with_conn c Running s in
  match branch ev with
  | Receive Pong => mkSession c false (far_future s) (far_future s) (next_tick s) Running
  | Receive ClientClose | Receive StreamError | Receive StreamEnd => break_ s ev c
  | Receive OtherMessage => continue c
  | Recv (Update json) => send_or_break s ev (TextFrame json) c continue
  | Recv Lagged => send_or_break s ev (TextFrame RELOAD) c continue
  | Recv Closed => break_ s ev c
  | Tick =>
      let next := next_tick s + WS_PING_INTERVAL in
      let s := mkSession (conn s) (awaiting_pong s) (pong_timeout s) (far_future s) next Running in
      if awaiting_pong s then with_conn c Running s
      else send_or_break s ev PingFrame c
             (fun c => mkSession c true (now c + WS_PONG_DEADLINE) (far_future s) next Running)
  | PongTimeout => break_ s ev c
  end.

Definition is_running (s : Session) : bool := match phase s with Running => true | _ => false end.

Definition may_happen (s : Session) (ev : Event) : bool :=
  is_running s && (now (conn s) <=? at_ ev) && lasts (sending ev) && lasts (closing ev)
  && (at_ ev <=? Z.max (now (conn s)) (next_tick s))
  && (if awaiting_pong s then at_ ev <=? Z.max (now (conn s)) (pong_timeout s) else true)
  && match branch ev with
     | Tick => next_tick s <=? at_ ev
     | PongTimeout => awaiting_pong s && (pong_timeout s <=? at_ ev)
     | _ => true
     end.

Inductive turns (s : Session) : list Event -> Session -> Prop :=
| turns_none : turns s [] s
| turns_more evs s1 ev : turns s evs s1 -> may_happen s1 ev = true -> turns s (evs ++ [ev]) (turn s1 ev).

(** The messages the channel gave the session: a lag becomes a reload. *)
Definition forwarded (evs : list Event) : list Text :=
  omap (fun ev => match branch ev with
                  | Recv (Update json) => Some json
                  | Recv Lagged => Some RELOAD
                  | _ => None
                  end) evs.

(** An execution of a script of turns, when each may happen. *)
Fixpoint run (s : Session) (evs : list Event) : option Session :=
  match evs with
  | [] => Some s
  | ev :: evs => if may_happen s ev then run (turn s ev) evs else None
  end.

Lemma turns_trans s evs s1 evs' s2 : turns s evs s1 -> turns s1 evs' s2 -> turns s (evs ++ evs') s2.
Proof.
  intros H1 H2. induction H2 as [|evs' s2 ev H2 IH Hm]; [by rewrite app_nil_r|]. rewrite app_assoc. by constructor.
Qed.

Lemma run_turns evs : forall s s', run s evs = Some s' -> turns s evs s'.
Proof.
  induction evs as [|ev evs IH]; intros s s'; simpl; [intros [= <-]; constructor|].
  destruct (may_happen s ev) eqn:Hm; [|done]. intros H%IH.
  apply (turns_trans s [ev] (turn s ev)); [|done]. by apply (turns_more s [] s ev); [constructor|].
Qed.

Lemma break_frames s ev c : frames (conn (break_ s ev c)) = frames c ++ [CloseFrame None] /\ is_running (break_ s ev c) = false.
Proof. unfold break_, send. by destruct (takes (closing ev)). Qed.

(** The frames after a send that the session may not survive. *)
Lemma framed_send msgs s ev f c k :
  is_close f = false -> framed msgs true (frames c) ->
  (forall c', frames (conn (k c')) = frames c' /\ is_running (k c') = true) ->
  let s' := send_or_break s ev f c k in framed (msgs ++ texts [f]) (is_running s') (frames (conn s')).
Proof.
  intros Hf Hc Hk. cbv zeta. unfold send_or_break, send.
  destruct (takes (sending ev)) as [d|]; [destruct (succeeds (sending ev))|].
  - destruct (Hk (mkConn (now c + d) (frames c ++ [f]))) as [-> ->]. by apply framed_hand.
  - destruct (break_frames s ev (mkConn (now c + d) (frames c ++ [f]))) as [-> ->].
    rewrite <- (app_nil_r (msgs ++ texts [f])). apply framed_close. by apply framed_hand.
  - by apply framed_hand.
Qed.

Lemma serve_framed_turn evs s ev :
  framed (CONNECTED :: forwarded evs) true (frames (conn s)) ->
  framed (CONNECTED :: forwarded (evs ++ [ev])) (is_running (turn s ev)) (frames (conn (turn s ev))).
Proof.
  unfold forwarded. rewrite omap_app, app_comm_cons. fold (forwarded evs). intros Hf. unfold turn.
  set (c := advance (at_ ev) (conn s)). change (framed (CONNECTED :: forwarded evs) true (frames c)) in Hf.
  set (msgs := CONNECTED :: forwarded evs) in *. clearbody msgs. csimpl.
  assert (Hbreak : framed (msgs ++ []) (is_running (break_ s ev c)) (frames (conn (break_ s ev c)))).
  { destruct (break_frames s ev c) as [-> ->]. by apply framed_close. }
  destruct (branch ev) as [[]|[json| |]| |]; try done; try (by apply framed_quiet).
  - by apply (framed_send _ _ _ (TextFrame json)).
  - by apply (framed_send _ _ _ (TextFrame RELOAD)).
  - destruct (awaiting_pong s); [by apply framed_quiet|]. by apply (framed_send _ _ _ PingFrame).
Qed.

(** What a client of the serving surface receives: the greeting, then the
    updates in order, with a reload message in the place of the updates its
    receiver missed; all of them while the session runs, and at most one close
    frame, at the end. *)
Theorem serve_session_frames start a evs s :
  turns (connect start a) evs s ->
  framed (CONNECTED :: forwarded evs) (is_running s) (frames (conn s)).
Proof.
  induction 1 as [|evs s1 ev Hrun IH Hm].
  - unfold connect, send. destruct (takes a); [destruct (succeeds a)|]; apply framed_greeting.
  - apply serve_framed_turn. unfold may_happen in Hm. to_prop. by rewrite H in IH.
Qed.

(** A ping at thirty seconds, then an update whose send takes [t]. *)
Definition slow_update (t : Z) : list Event :=
  [mkEvent (30 * SEC) Tick (mkAttempt (Some 0) true) (mkAttempt (Some 0) true);
   mkEvent (31 * SEC) (Recv (Update [])) (mkAttempt (Some t) true) (mkAttempt (Some 0) true)].

(** On the serving surface the deadline of a pong is not enforced while a send
    waits: for any [t] a session whose client never answered a ping still runs
    [t] after the deadline, and there is one that never ends, so that its permit
    is never given back. *)
Theorem serve_session_outlives_deadline t :
  0 <= t ->
  let start := connect 0 (mkAttempt (Some 0) true) in
  (exists s, turns start (slow_update (t + 9 * SEC)) s /\ is_running s = true /\ awaiting_pong s = true
             /\ now (conn s) = pong_timeout s + t /\ Forall (fun ev => has_pong ev = false) (slow_update (t + 9 * SEC)))
  /\ (exists evs s, turns start evs s /\ phase s = Stalled /\ awaiting_pong s = true
                    /\ forall evs' s', turns s evs' s' -> s' = s).
Proof.
  intros Ht. cbv zeta. split.
  - eexists. split_and!.
    + apply run_turns. unfold slow_update, run.
      replace (may_happen _ _) with true by (vm_compute; reflexivity).
      replace (may_happen _ _) with true; [reflexivity|].
      unfold may_happen, lasts. cbn [takes sending]. rewrite (proj2 (Z.leb_le 0 (t + 9 * SEC))) by (unfold SEC; lia).
      vm_compute. reflexivity.
    + reflexivity.
    + reflexivity.
    + cbn. unfold SEC, WS_PONG_DEADLINE, SEC. lia.
    + by repeat constructor.
  - exists [mkEvent (30 * SEC) Tick (mkAttempt (Some 0) true) (mkAttempt (Some 0) true);
            mkEvent (31 * SEC) (Recv (Update [])) (mkAttempt None true) (mkAttempt (Some 0) true)].
    eexists. split_and!; [apply run_turns; vm_compute; reflexivity|reflexivity|reflexivity|].
    intros evs' s' H. induction H as [|evs' s1 ev _ IH Hm]; [done|]. subst. vm_compute in Hm. done.
Qed.

End ServeWs.

(** ** Upgrades and permits *)

Module Pool.

(** The answers of [ws_handler]: a status, or the upgrade with the permit it took
    from the semaphore. *)
Inductive Handled := Refused (status : Z) | Upgraded (left_ : Z).

Definition ws_handler (headers : HeaderMap) (policy : WsAuth.WsPolicy) (available : Z) : Handled :=
  if negb (WsAuth.validate_ws_origin headers (WsAuth.origin_policy policy)) then Refused 403
  else if available <=? 0 then Refused 503
  else Upgraded (available - 1).

(** Any session: how it starts, its turns, and when it is over. *)
Class SessionKind (S : Type) := {
  starts : S -> Prop;
  steps : S -> S -> Prop;
  over : S -> bool;
}.

#[global] Instance projection_session : SessionKind ProjectionWs.Session := {
  starts s := exists start a, lasts a = true /\ s = ProjectionWs.connect start a;
  steps s s' := exists ev, ProjectionWs.may_happen s ev = true /\ s' = ProjectionWs.turn s ev;
  over s := negb (ProjectionWs.running s);
}.

#[global] Instance serve_session : SessionKind ServeWs.Session := {
  starts s := exists start a, lasts a = true /\ s = ServeWs.connect start a;
  steps s s' := exists ev, ServeWs.may_happen s ev = true /\ s' = ServeWs.turn s ev;
  over s := match ServeWs.phase s with ServeWs.Ended => true | _ => false end;
}.

Section Pool.
Context {S : Type} `{!SessionKind S}.

(** The semaphore and the sessions that hold one of its permits. *)
Record Server := mkServer { policy : WsAuth.WsPolicy; available : Z; live : gmap nat S }.

Inductive server_step (v : Server) : Server -> Prop :=
| v_refuse headers status :
    ws_handler headers (policy v) (available v) = Refused status -> server_step v v
| v_upgrade i headers n s :
    ws_handler headers (policy v) (available v) = Upgraded n -> live v !! i = None -> starts s ->
    server_step v (mkServer (policy v) n (<[i := s]> (live v)))
| v_turn i s s' :
    live v !! i = Some s -> steps s s' -> server_step v (mkServer (policy v) (available v) (<[i := s']> (live v)))
| v_drop i s :
    live v !! i = Some s -> over s = true ->
    server_step v (mkServer (policy v) (available v + 1) (delete i (live v))).

Definition initial (p : WsAuth.WsPolicy) : Server := mkServer p (WsAuth.max_connections p) ∅.

(** [cap] permits, free or with a session that a run of its kind reaches. *)
Definition accounted (p : WsAuth.WsPolicy) (cap : Z) (v : Server) : Prop :=
  policy v = p /\ 0 <= available v
  /\ available v + Z.of_nat (size (live v)) = cap
  /\ (forall i s, live v !! i = Some s -> exists s0, starts s0 /\ rtc steps s0 s).

Lemma handler_upgraded headers p n m : ws_handler headers p n = Upgraded m -> m = n - 1 /\ 0 < n.
Proof.
  unfold ws_handler. destruct (negb _); [done|]. destruct (Z.leb_spec n 0); [done|]. intros [= <-]. lia.
Qed.

Lemma accounted_step p cap v v' : accounted p cap v -> server_step v v' -> accounted p cap v'.
Proof.
  intros (Hp&Ha&Hs&Hl) [headers status _|i headers n s H Hi Hst|i s s' Hi Hst|i s Hi _]; [done|..]; unfold accounted; simpl.
  - apply handler_upgraded in H as [-> ?]. rewrite map_size_insert_None by done. split_and!; [done|lia|lia|].
    intros j s'. rewrite lookup_insert_Some. intros [[-> <-]|[_ Hj]]; [eauto using rtc_refl|by eapply Hl].
  - rewrite map_size_insert_Some by eauto. split_and!; [done|lia|lia|].
    intros j t. rewrite lookup_insert_Some. intros [[-> <-]|[_ Hj]]; [|by eapply Hl].
    destruct (Hl j s Hi) as (s0&H0&Hr). exists s0. split; [done|]. by eapply rtc_r.
  - rewrite map_size_delete_Some by eauto. assert (size (live v) <> 0%nat).
    { intros E%map_size_empty_inv. by rewrite E in Hi. }
    split_and!; [done|lia|lia|]. intros j t. rewrite lookup_delete_Some. intros [_ Hj]. by eapply Hl.
Qed.

(** The connection cap holds and no permit is lost.  In every run of upgrade
    requests, turns of sessions and ends of sessions the free permits and the
    live sessions add up to the cap of the policy; so at most that many sessions
    are open, a request with an acceptable origin is refused, with 503, exactly
    when all permits are in use, and one with another origin always, with 403. *)
Theorem ws_permits p v headers :
  1 <= WsAuth.max_connections p -> rtc server_step (initial p) v ->
  available v + Z.of_nat (size (live v)) = WsAuth.max_connections p /\ 0 <= available v
  /\ (ws_handler headers p (available v) = Refused 403 <-> WsAuth.validate_ws_origin headers (WsAuth.origin_policy p) = false)
  /\ (ws_handler headers p (available v) = Refused 503 <->
      WsAuth.validate_ws_origin headers (WsAuth.origin_policy p) = true
      /\ Z.of_nat (size (live v)) = WsAuth.max_connections p).
Proof using Type.
  intros Hp Hrun. assert (HI : accounted p (WsAuth.max_connections p) v).
  { eapply (rtc_invariant server_step _ (accounted_step p _)); [done|].
    split_and!; simpl; [done|lia| |by intros i s ?%lookup_empty_Some]. rewrite map_size_empty. lia. }
  destruct HI as (_&Ha&Hs&_). split; [done|]. split; [done|]. unfold ws_handler.
  destruct (WsAuth.validate_ws_origin _ _); simpl; [|by split; split; [..|intros []]].
  destruct (Z.leb_spec (available v) 0); split; split; try done; intros; try lia; try (split; [done|lia]).
Qed.

End Pool.
End Pool.

(** ** Witnesses *)

Definition at_once : Attempt := mkAttempt (Some 0) true.
Definition never : Attempt := mkAttempt None true.

Definition ping_turn : Event := mkEvent (30 * SEC) Tick at_once at_once.
Definition stuck_turn : Event := mkEvent (35 * SEC) (Recv (Update [])) never at_once.

Definition late_pong : Event := mkEvent (40 * SEC) (Receive Pong) at_once at_once.

Definition pinged : ProjectionWs.Session := ProjectionWs.turn (ProjectionWs.connect 0 at_once) ping_turn.

Lemma pinged_turns : ProjectionWs.turns (ProjectionWs.connect 0 at_once) [ping_turn] pinged.
Proof. apply (ProjectionWs.turns_more _ [] _ ping_turn); [constructor|vm_compute; reflexivity]. Qed.

Lemma stuck_turns : ProjectionWs.turns pinged [stuck_turn] (ProjectionWs.turn pinged stuck_turn).
Proof. apply (ProjectionWs.turns_more _ [] _ stuck_turn); [constructor|vm_compute; reflexivity]. Qed.

Lemma late_turns : ProjectionWs.turns pinged [late_pong] (ProjectionWs.turn pinged late_pong).
Proof. apply (ProjectionWs.turns_more _ [] _ late_pong); [constructor|vm_compute; reflexivity]. Qed.

(** A session that has sent a ping and whose next send hangs, and one that gets its
    pong at the deadline. *)
Lemma ws_session_keepalive_witness :
  ProjectionWs.running (ProjectionWs.turn pinged stuck_turn) = false
  /\ now (ProjectionWs.conn (ProjectionWs.turn pinged stuck_turn)) = 40 * SEC
  /\ now (ProjectionWs.conn (ProjectionWs.turn pinged stuck_turn)) <= 40 * SEC + WS_SEND_TIMEOUT
  /\ ProjectionWs.running (ProjectionWs.turn pinged late_pong) = false
  /\ now (ProjectionWs.conn (ProjectionWs.turn pinged late_pong)) <= 40 * SEC + WS_SEND_TIMEOUT.
Proof.
  split; [vm_compute; reflexivity|]. split; [vm_compute; reflexivity|].
  destruct (ProjectionWs.ws_session_keepalive 0 at_once [ping_turn] pinged (40 * SEC) pinged_turns eq_refl eq_refl)
    as (_&_&H).
  split; [exact (proj2 (H [stuck_turn] _ stuck_turns ltac:(by repeat constructor)))|].
  split; [vm_compute; reflexivity|].
  exact (proj2 (H [late_pong] _ late_turns ltac:(by repeat constructor))).
Defined.

Lemma ws_session_frames_witness :
  framed [ProjectionWs.CONNECTED] true (frames (ProjectionWs.conn pinged))
  /\ frames (ProjectionWs.conn pinged) = [TextFrame ProjectionWs.CONNECTED; PingFrame].
Proof.
  split; [|vm_compute; reflexivity].
  exact (proj1 (ProjectionWs.ws_session_frames 0 at_once [ping_turn] pinged pinged_turns)).
Defined.

Definition lag_turn : Event := mkEvent SEC (Recv Lagged) at_once at_once.

Lemma serve_session_frames_witness :
  framed [ServeWs.CONNECTED; ServeWs.RELOAD] true
    (frames (ServeWs.conn (ServeWs.turn (ServeWs.connect 0 at_once) lag_turn))).
Proof.
  refine (ServeWs.serve_session_frames 0 at_once [lag_turn] _ _).
  apply ServeWs.run_turns. vm_compute. reflexivity.
Defined.

Lemma serve_session_outlives_deadline_witness :
  exists s, ServeWs.is_running s = true /\ now (ServeWs.conn s) = ServeWs.pong_timeout s + 3600 * SEC.
Proof.
  destruct (ServeWs.serve_session_outlives_deadline (3600 * SEC) ltac:(unfold SEC; lia)) as [(s&_&H1&_&H2&_) _].
  by exists s.
Defined.

Lemma ws_permits_witness :
  Pool.ws_handler (fun _ => []) (WsAuth.mkWsPolicy 1 WsAuth.AllowAbsent) 1 = Pool.Upgraded 0
  /\ exists v : Pool.Server (S := ProjectionWs.Session),
       rtc Pool.server_step (Pool.initial (WsAuth.mkWsPolicy 1 WsAuth.AllowAbsent)) v
       /\ size (Pool.live v) = 1%nat
       /\ Pool.ws_handler (fun _ => []) (WsAuth.mkWsPolicy 1 WsAuth.AllowAbsent) (Pool.available v) = Pool.Refused 503.
Proof.
  split; [vm_compute; reflexivity|].
  assert (Hstep : rtc Pool.server_step (Pool.initial (WsAuth.mkWsPolicy 1 WsAuth.AllowAbsent))
    (Pool.mkServer (WsAuth.mkWsPolicy 1 WsAuth.AllowAbsent) 0 {[0%nat := ProjectionWs.connect 0 at_once]})).
  { apply rtc_once.
    refine (Pool.v_upgrade (Pool.initial (WsAuth.mkWsPolicy 1 WsAuth.AllowAbsent)) 0%nat (fun _ => []) 0
              (ProjectionWs.connect 0 at_once) _ _ _); [vm_compute; reflexivity|reflexivity|].
    by exists 0, at_once. }
  exists (Pool.mkServer (WsAuth.mkWsPolicy 1 WsAuth.AllowAbsent) 0 {[0%nat := ProjectionWs.connect 0 at_once]}).
  split; [exact Hstep|]. split; [reflexivity|].
  apply (Pool.ws_permits (S := ProjectionWs.Session) (WsAuth.mkWsPolicy 1 WsAuth.AllowAbsent) _ (fun _ => []) ltac:(vm_compute; discriminate) Hstep).
  split; reflexivity.
Defined.
