(* ===== verification/Updates.v ===== *)
(** * Page updates (crate [cherry-pit-web], [serve/state.rs], [projection/state.rs])

    The two update events with the JSON text they carry, and their way to the
    clients: through a [tokio::sync::broadcast] channel, which may drop old
    messages for a slow receiver and then says so, and through the WebSocket
    sessions of [Session]. *)

From S2P Require Import Prelude Core Chars Signature Session.

(** ** JSON objects *)

Section Objects.
Context {Num : Type}.

(** The members of a [serde_json::Map], in any order. *)
Notation Members := (list (Text * Value (Num := Num))).

Fixpoint field (k : Text) (m : Members) : option Value :=
  match m with
  | [] => None
  | (k', v) :: m => if bool_decide (k' = k) then Some v else field k m
  end.

(** [Map::insert]: replaces what the key had. *)
Fixpoint insert_member (k : Text) (v : Value) (m : Members) : Members :=
  match m with
  | [] => [(k, v)]
  | (k', v') :: m => if bool_decide (k' = k) then (k, v) :: m else (k', v') :: insert_member k v m
  end.

Lemma field_insert k k' v m : field k' (insert_member k v m) = if bool_decide (k = k') then Some v else field k' m.
Proof.
  induction m as [|[a w] m IH]; simpl; [done|]. destruct (bool_decide_reflect (a = k)) as [->|Hk]; simpl.
  - by destruct (bool_decide_reflect (k = k')).
  - rewrite IH. destruct (bool_decide_reflect (a = k')) as [->|]; [|done]. by rewrite bool_decide_false.
Qed.

Lemma insert_keys k v m : forall a, a ∈ map fst (insert_member k v m) <-> a = k \/ a ∈ map fst m.
Proof.
  intros a. induction m as [|[a' w] m IH]; simpl; [set_solver|].
  destruct (bool_decide_reflect (a' = k)) as [->|Hk]; simpl; [set_solver|]. rewrite !elem_of_cons, IH. tauto.
Qed.

Lemma insert_nodup k v m : NoDup (map fst m) -> NoDup (map fst (insert_member k v m)).
Proof.
  induction m as [|[a w] m IH]; simpl; intros Hm; [by repeat constructor; apply not_elem_of_nil|].
  apply NoDup_cons in Hm as [Ha Hm]. destruct (bool_decide_reflect (a = k)) as [->|Hk]; simpl; apply NoDup_cons; [done|].
  split; [|by apply IH]. rewrite insert_keys. naive_solver.
Qed.

Lemma insert_members k v (P : Value -> Prop) (m : Members) :
  P v -> Forall (fun e => P (snd e)) m -> Forall (fun e => P (snd e)) (insert_member k v m).
Proof.
  intros Hv. induction 1 as [|[a w] m Ha Hm IH]; simpl; [by repeat constructor|].
  destruct (bool_decide _); by constructor.
Qed.

Lemma wf_insert k v m : wf v -> wf (Object m) -> wf (Object (insert_member k v m)).
Proof.
  intros Hv Hm. inversion_clear Hm. constructor; [by apply insert_nodup|by apply insert_members].
Qed.
End Objects.
Notation Members Num := (list (Text * Value (Num := Num))).

(** ** The two events *)

Section Updates.
Context {Num : Type} (one : Num).
(** [serde_json::Value::to_string], and the parser of a client. *)
Context (to_string : Value (Num := Num) -> Text) (from_str : Text -> option (Value (Num := Num))).

Record PageUpdateEvent := mkPageUpdateEvent {
  pages : list Text;
  metadata : Members Num;
  timestamp : Text;
  json : Text;
}.

(** The object that is sent: the metadata, with the three keys of its own. *)
Definition event_payload (pages : list Text) (metadata : Members Num) (timestamp : Text) : Members Num :=
  let page_values := map JString pages in
  let payload := insert_member (txt "type") (JString (txt "update")) metadata in
  let payload := insert_member (txt "pages") (Array page_values) payload in
  insert_member (txt "timestamp") (JString timestamp) payload.

Definition with_metadata (pages : list Text) (metadata : Members Num) (timestamp : Text) : PageUpdateEvent :=
  mkPageUpdateEvent pages metadata timestamp (to_string (Object (event_payload pages metadata timestamp))).

Definition PageUpdateEvent_new (pages : list Text) (timestamp : Text) : PageUpdateEvent :=
  with_metadata pages [] timestamp.

Record PageUpdate := mkPageUpdate {
  pu_pages : list Text;
  repo : Text;
  pu_timestamp : Text;
  pu_json : Text;
  correlation : CorrelationContext;
}.

(** [json!({...})]. *)
Definition update_payload (pages : list Text) (repo timestamp : Text) : Members Num :=
  [(txt "v", Number one); (txt "type", JString (txt "update")); (txt "pages", Array (map JString pages));
   (txt "repo", JString repo); (txt "timestamp", JString timestamp)].

Definition PageUpdate_new (pages : list Text) (repo timestamp : Text) (correlation : CorrelationContext) : PageUpdate :=
  mkPageUpdate pages repo timestamp (to_string (Object (update_payload pages repo timestamp))) correlation.

(** ** The channel *)

(** What a receiver gets of the messages sent after it subscribed: each one in
    order, or, when the buffer overran it, one notice for the messages it missed;
    and the end of the channel after the last one. *)
Inductive delivers : list Text -> list Delivery -> Prop :=
| dl_wait sent : delivers sent []
| dl_update m sent ds : delivers sent ds -> delivers (m :: sent) (Update m :: ds)
| dl_lagged missed sent ds : missed <> [] -> delivers sent ds -> delivers (missed ++ sent) (Lagged :: ds)
| dl_closed : delivers [] [Closed].

Definition deliveries (evs : list Event) : list Delivery :=
  omap (fun ev => match branch ev with Recv d => Some d | _ => None end) evs.

Definition delivered (ds : list Delivery) : list Text :=
  omap (fun d => match d with Update m => Some m | _ => None end) ds.

Lemma updates_delivered evs : updates evs = delivered (deliveries evs).
Proof using Type.
  unfold updates, delivered, deliveries. induction evs as [|ev evs IH]; csimpl; [done|]. rewrite IH.
  by destruct (branch ev) as [|[]| |].
Qed.

(** Without a notice before the end nothing is missing. *)
Lemma delivered_prefix sent ds :
  delivers sent ds -> (forall ds1 ds2, ds = ds1 ++ Lagged :: ds2 -> ds2 = []) -> delivered ds `prefix_of` sent.
Proof using Type.
  induction 1 as [sent|m sent ds Hd IH|missed sent ds Hne Hd IH|]; intros Hlast; csimpl.
  - apply prefix_nil.
  - apply prefix_cons, IH. intros ds1 ds2 ->. by apply (Hlast (Update m :: ds1)).
  - rewrite (Hlast [] ds eq_refl). apply prefix_nil.
  - done.
Qed.

(** The messages with some runs of them replaced by a reload. *)
Inductive spliced : list Text -> list Text -> Prop :=
| sl_rest sent : spliced sent []
| sl_keep m sent ms : spliced sent ms -> spliced (m :: sent) (m :: ms)
| sl_gap missed sent ms : missed <> [] -> spliced sent ms -> spliced (missed ++ sent) (ServeWs.RELOAD :: ms).

Lemma forwarded_spliced sent evs : delivers sent (deliveries evs) -> spliced sent (ServeWs.forwarded evs).
Proof using Type.
  unfold deliveries, ServeWs.forwarded. revert sent. induction evs as [|ev evs IH]; csimpl; intros sent; [constructor|].
  destruct (branch ev) as [|[m| |]| |]; csimpl; try apply IH.
  - inversion 1; subst. constructor. by apply IH.
  - inversion 1; subst. constructor; [done|]. by apply IH.
  - inversion 1; subst. by apply IH; rewrite <- H2; constructor.
Qed.

(** ** The clients *)

Lemma framed_texts msgs run fs :
  framed msgs run fs -> texts fs `prefix_of` msgs /\ (run = true -> texts fs = msgs).
Proof using Type.
  intros (pre&cl&->&_&Hp&Hcl&Hr). assert (E : texts (pre ++ cl) = texts pre).
  { rewrite texts_app. destruct Hcl as [->|[reason ->]]; apply app_nil_r. }
  rewrite E. split; [done|]. intros Hrun. by destruct (Hr Hrun).
Qed.

Lemma lagged_event evs : Lagged ∈ deliveries evs -> exists ev, ev ∈ evs /\ branch ev = Recv Lagged.
Proof using Type.
  unfold deliveries. intros (ev&Hin&Hb)%list_elem_of_omap. exists ev. split; [done|].
  destruct (branch ev); by simplify_eq.
Qed.

Lemma lag_last s0 evs s ds1 ds2 :
  ProjectionWs.turns s0 evs s -> deliveries evs = ds1 ++ Lagged :: ds2 -> ds2 = [].
Proof using Type.
  intros Hrun. revert ds2. induction Hrun as [|evs s1 ev Hrun IH Hm]; intros ds2 E; [by destruct ds1|].
  unfold deliveries in E. rewrite omap_app in E. fold (deliveries evs) in E.
  destruct ds2 as [|d ds2 _] using rev_ind; [done|]. exfalso.
  rewrite app_comm_cons, app_assoc in E. revert E. csimpl. destruct (branch ev) as [m|d'| |]; rewrite ?app_nil_r; intros E.
  1,3,4: rewrite <- app_assoc in E; apply IH in E; by destruct ds2.
  apply app_inj_tail in E as [E _]. destruct (lagged_event evs) as (e&He&Hb); [rewrite E; set_solver|].
  pose proof (ProjectionWs.lag_stops _ _ _ e Hrun He Hb). pose proof (proj1 (ProjectionWs.may_happen_inv _ _ Hm)). congruence.
Qed.

(** A text that a client reads as the object [m]. *)
Definition reads_as (t : Text) (m : Members Num) : Prop :=
  exists v, from_str t = Some v /\ same (Object m) v.

(** What is printed is read back, up to the order of the members. *)
Definition json_law : Prop := forall v, wf v -> exists v', from_str (to_string v) = Some v' /\ same v v'.

Lemma strings_wf l : Forall (wf (Num := Num)) (map JString l).
Proof using Type. induction l; repeat constructor; done. Qed.

Lemma update_payload_wf pages repo timestamp : wf (Object (update_payload pages repo timestamp)).
Proof using Type.
  constructor; [|repeat constructor; apply strings_wf].
  apply (bool_decide_unpack (NoDup (map txt ["v"; "type"; "pages"; "repo"; "timestamp"]%string))). vm_compute. done.
Qed.

Lemma event_payload_wf pages m timestamp : wf (Object m) -> wf (Object (event_payload pages m timestamp)).
Proof using Type. intros Hm. repeat (apply wf_insert; [repeat constructor; apply strings_wf|]). done. Qed.

Lemma event_payload_fields pages m timestamp :
  field (txt "type") (event_payload pages m timestamp) = Some (JString (txt "update"))
  /\ field (txt "pages") (event_payload pages m timestamp) = Some (Array (map JString pages))
  /\ field (txt "timestamp") (event_payload pages m timestamp) = Some (JString timestamp)
  /\ (forall k, k <> txt "type" -> k <> txt "pages" -> k <> txt "timestamp" ->
        field k (event_payload pages m timestamp) = field k m).
Proof using Type.
  unfold event_payload. split_and!; intros; rewrite !field_insert; rewrite ?bool_decide_false by done; done.
Qed.

(** The events a publisher sends. *)
Definition is_update (u : PageUpdate) : Prop := exists p r t c, u = PageUpdate_new p r t c.
Definition is_event (u : PageUpdateEvent) : Prop := exists p m t, wf (Object m) /\ u = with_metadata p m t.

(** C27: No update is lost silently.  Over any run of a session and of the channel
    behind it, whatever the client and the network do: a client of the projection
    surface has received, after the greeting, the updates published since it
    subscribed, in order and without a gap, and all that its receiver was given as
    long as the session runs; a client of the serving surface likewise, except
    that a run of updates may be replaced by one reload message.  What it reads in
    an update are its pages, its time and the other fields, and in an event also
    the metadata of the publisher, whose keys cannot shadow those of the event. *)
Theorem updates_reach_clients start a evs :
  json_law ->
  (forall s us, ProjectionWs.turns (ProjectionWs.connect start a) evs s -> Forall is_update us ->
     delivers (map pu_json us) (deliveries evs) ->
     texts (frames (ProjectionWs.conn s)) `prefix_of` ProjectionWs.CONNECTED :: map pu_json us
     /\ (ProjectionWs.running s = true ->
         texts (frames (ProjectionWs.conn s)) = ProjectionWs.CONNECTED :: map pu_json (take (length (updates evs)) us))
     /\ Forall (fun u => reads_as (pu_json u) (update_payload (pu_pages u) (repo u) (pu_timestamp u))) us)
  /\ (forall s us, ServeWs.turns (ServeWs.connect start a) evs s -> Forall is_event us ->
       delivers (map json us) (deliveries evs) ->
       (exists msgs, spliced (map json us) msgs /\ texts (frames (ServeWs.conn s)) `prefix_of` ServeWs.CONNECTED :: msgs
                     /\ (ServeWs.is_running s = true -> texts (frames (ServeWs.conn s)) = ServeWs.CONNECTED :: msgs))
       /\ Forall (fun u => exists m, reads_as (json u) m
            /\ field (txt "type") m = Some (JString (txt "update"))
            /\ field (txt "pages") m = Some (Array (map JString (pages u)))
            /\ field (txt "timestamp") m = Some (JString (timestamp u))
            /\ forall k, k <> txt "type" -> k <> txt "pages" -> k <> txt "timestamp" -> field k m = field k (metadata u)) us).
Proof using Type.
  intros Hjson. split; intros s us Hrun Hus Hd.
  - assert (Hp : updates evs `prefix_of` map pu_json us).
    { rewrite updates_delivered. apply delivered_prefix; [done|]. intros ds1 ds2. by apply (lag_last _ _ _ _ _ Hrun). }
    destruct (framed_texts _ _ _ (ProjectionWs.session_framed _ _ _ _ Hrun)) as [Ht Hr]. split_and!.
    + etrans; [done|]. by apply prefix_cons.
    + intros Hrunning. rewrite (Hr Hrunning). f_equal. destruct Hp as [rest E].
      rewrite <- firstn_map, E. symmetry. apply take_app_length.
    + eapply Forall_impl; [exact Hus|]. intros u (p&r&t&c&->). apply Hjson, update_payload_wf.
  - destruct (framed_texts _ _ _ (ServeWs.serve_session_frames _ _ _ _ Hrun)) as [Ht Hr]. split.
    + exists (ServeWs.forwarded evs). split_and!; [by apply forwarded_spliced|done|done].
    + eapply Forall_impl; [exact Hus|]. intros u (p&m&t&Hm&->). exists (event_payload p m t). split; [|apply event_payload_fields].
      by apply Hjson, event_payload_wf.
Qed.
End Updates.

(** ** Witness

    A printer and a parser that keep the law: values in prefix form. *)

Fixpoint flat (v : Value (Num := unit)) : Text :=
  match v with
  | Null => [0]
  | Bool b => [1; if b then 1 else 0]
  | Number _ => [2]
  | JString s => 3 :: Z.of_nat (length s) :: s
  | Array l => 4 :: Z.of_nat (length l) :: flat_map flat l
  | Object m => 5 :: Z.of_nat (length m)
                  :: flat_map (fun kv => Z.of_nat (length (fst kv)) :: fst kv ++ flat (snd kv)) m
  end.

Definition take_text (r : Text) : option (Text * Text) :=
  match r with k :: r => Some (take (Z.to_nat k) r, drop (Z.to_nat k) r) | [] => None end.

(** [n] items, each read by [d]. *)
Fixpoint items {A} (d : Text -> option (A * Text)) (n : nat) (r : Text) : option (list A * Text) :=
  match n with
  | O => Some ([], r)
  | S n => '(x, r) ← d r; '(xs, r) ← items d n r; Some (x :: xs, r)
  end.

Fixpoint unflat (fuel : nat) (r : Text) : option (Value (Num := unit) * Text) :=
  match fuel with
  | O => None
  | S fuel =>
      match r with
      | 0 :: r => Some (Null, r)
      | 1 :: b :: r => Some (Bool (b =? 1), r)
      | 2 :: r => Some (Number tt, r)
      | 3 :: r => '(s, r) ← take_text r; Some (JString s, r)
      | 4 :: n :: r => '(l, r) ← items (unflat fuel) (Z.to_nat n) r; Some (Array l, r)
      | 5 :: n :: r =>
          '(m, r) ← items (fun r => '(k, r) ← take_text r; '(v, r) ← unflat fuel r; Some ((k, v), r)) (Z.to_nat n) r;
          Some (Object m, r)
      | _ => None
      end
  end.

Lemma take_text_flat s r : take_text (Z.of_nat (length s) :: s ++ r) = Some (s, r).
Proof. unfold take_text. by rewrite Nat2Z.id, take_app_length, drop_app_length. Qed.

Lemma items_flat {A} (d : Text -> option (A * Text)) (f : A -> Text) l r :
  Forall (fun x => forall r, d (f x ++ r) = Some (x, r)) l -> items d (length l) (flat_map f l ++ r) = Some (l, r).
Proof. induction 1 as [|x l Hx Hl IH]; simpl; [done|]. by rewrite <- app_assoc, Hx; simpl; rewrite IH. Qed.

Lemma flat_map_length {A} (f : A -> Text) l x : x ∈ l -> (length (f x) <= length (flat_map f l))%nat.
Proof.
  induction 1 as [x l|x y l Hx IH]; simpl; rewrite length_app; lia.
Qed.

Lemma unflat_flat v : forall fuel r, (length (flat v) <= fuel)%nat -> unflat fuel (flat v ++ r) = Some (v, r).
Proof.
  induction v as [|b|[]|s|l IH|m IH] using value_induction; intros [|fuel] r Hf; simpl in Hf; try lia; try done.
  - by destruct b.
  - cbn [flat unflat app]. by rewrite take_text_flat.
  - cbn [flat unflat app]. rewrite Nat2Z.id, items_flat; [done|]. rewrite Forall_forall in IH |- *. intros x Hx r'.
    apply IH; [done|]. pose proof (flat_map_length flat l x Hx). lia.
  - cbn [flat unflat app]. rewrite Nat2Z.id, items_flat; [done|]. rewrite Forall_forall in IH |- *. intros [k v] Hx r'.
    pose proof (flat_map_length (fun kv => Z.of_nat (length (fst kv)) :: fst kv ++ flat (snd kv)) m (k, v) Hx) as Hl.
    cbn [fst snd length] in Hl |- *. rewrite length_app in Hl. rewrite <- app_comm_cons, <- app_assoc, take_text_flat.
    cbn [mbind option_bind]. rewrite (IH (k, v) Hx); [done|]. cbn [snd]. lia.
Qed.

Definition flat_parse (t : Text) : option (Value (Num := unit)) := fst <$> unflat (length t) t.

Lemma same_reflexive (v : Value (Num := unit)) : same v v.
Proof.
  induction v as [|b|n|s|l IH|m IH] using value_induction; try constructor.
  - induction IH; by constructor.
  - apply (same_object m m m); [done|]. induction IH; by repeat constructor.
Qed.

Lemma flat_law : json_law flat flat_parse.
Proof.
  intros v _. exists v. split; [|apply same_reflexive].
  unfold flat_parse. pose proof (unflat_flat v (length (flat v)) [] (le_n _)) as H. rewrite app_nil_r in H. by rewrite H.
Qed.

(** An update published and delivered, on both surfaces; on the serving one after
    a lag that hid another. *)
Definition quick : Attempt := mkAttempt (Some 0) true.
Definition demo_update : PageUpdate := PageUpdate_new tt flat [txt "a.html"] [] (txt "now") Correlation.none.
Definition demo_event : PageUpdateEvent := PageUpdateEvent_new (Num := unit) flat [txt "a.html"] (txt "now").
Definition update_turns : list Event := [mkEvent SEC (Recv (Update (pu_json demo_update))) quick quick].
Definition lag_turns : list Event :=
  [mkEvent SEC (Recv Lagged) quick quick; mkEvent (2 * SEC) (Recv (Update (json demo_event))) quick quick].

Lemma updates_reach_clients_witness :
  (exists s, ProjectionWs.turns (ProjectionWs.connect 0 quick) update_turns s
     /\ texts (frames (ProjectionWs.conn s)) = [ProjectionWs.CONNECTED; pu_json demo_update])
  /\ (exists s msgs, ServeWs.turns (ServeWs.connect 0 quick) lag_turns s
       /\ spliced (map json [demo_event; demo_event]) msgs
       /\ texts (frames (ServeWs.conn s)) = ServeWs.CONNECTED :: msgs).
Proof.
  destruct (updates_reach_clients tt flat flat_parse 0 quick update_turns flat_law) as [Hp _].
  destruct (updates_reach_clients tt flat flat_parse 0 quick lag_turns flat_law) as [_ Hs]. split.
  - eexists. assert (Ht : ProjectionWs.turns (ProjectionWs.connect 0 quick) update_turns
                            (ProjectionWs.turn (ProjectionWs.connect 0 quick)
                               (mkEvent SEC (Recv (Update (pu_json demo_update))) quick quick))).
    { apply (ProjectionWs.turns_more _ []); [constructor|vm_compute; reflexivity]. }
    split; [exact Ht|]. destruct (Hp _ [demo_update] Ht) as (_&Hr&_).
    + constructor; [|constructor]. by do 4 eexists.
    + apply dl_update, dl_wait.
    + apply Hr. vm_compute. reflexivity.
  - eexists. assert (Ht : ServeWs.run (ServeWs.connect 0 quick) lag_turns = Some _) by (vm_compute; reflexivity).
    apply ServeWs.run_turns in Ht. destruct (Hs _ [demo_event; demo_event] Ht) as ((msgs&Hm&_&Hr)&_).
    + repeat constructor; do 3 eexists; (split; [|reflexivity]); repeat constructor.
    + apply (dl_lagged [json demo_event] [json demo_event]); [discriminate|]. apply dl_update, dl_wait.
    + exists msgs. split; [exact Ht|]. split; [exact Hm|]. apply Hr. reflexivity.
Defined.
