(* ===== verification/Server.v ===== *)
(** * The servers (crate [cherry-pit-web], [serve/], [projection/], [middleware/])

    [ServeConfig] and [ProjectionConfig]: the two builders of [serve/config.rs] and
    [projection/config.rs].  [Layers]: the response layers and the request limits
    of [middleware/].  [ProjectionRouter] and [ServeRouter]: the routers of
    [projection/mod.rs] and [serve/runtime.rs], from the path of a request to the
    response that leaves the process.  [Start]: how the serving surface comes up. *)

From S2P Require Import Prelude Core Chars Web Pages Session.

(** ** Options of the serving surface *)

Module ServeConfig.

Inductive ConfigError :=
| ErrorPageKeyEmpty
| ErrorPageKeyLeadingSlash
| ErrorPageKeyTraversal
| ErrorPageKeyNullByte
| ErrorPageKeyBackslash
| CspNotAscii
| CspContainsCrlf.

(** [ServeOptionsBuilder] and [ServeOptions] have the same fields. *)
Record ServeOptionsBuilder := mkBuilder {
  b_csp_override : option Text;
  b_error_page_key : option Text;
  b_enforce_zstd : bool;
}.

Record ServeOptions := mkOptions {
  csp_override : option Text;
  error_page_key : option Text;
  enforce_zstd : bool;
}.

Definition builder : ServeOptionsBuilder := mkBuilder None None false.
Definition set_csp_override (csp : Text) (b : ServeOptionsBuilder) : ServeOptionsBuilder :=
  mkBuilder (Some csp) (b_error_page_key b) (b_enforce_zstd b).
Definition set_error_page_key (key : Text) (b : ServeOptionsBuilder) : ServeOptionsBuilder :=
  mkBuilder (b_csp_override b) (Some key) (b_enforce_zstd b).
Definition set_enforce_zstd (enforce : bool) (b : ServeOptionsBuilder) : ServeOptionsBuilder :=
  mkBuilder (b_csp_override b) (b_error_page_key b) enforce.

(** [csp.is_ascii()]. *)
Definition is_ascii (t : Text) : bool := forallb (fun c => (0 <=? c) && (c <? 128)) t.

Definition check_key (key : option Text) : option ConfigError :=
  match key with
  | None => None
  | Some key =>
      if bool_decide (key = []) then Some ErrorPageKeyEmpty
      else if starts_with [47] key then Some ErrorPageKeyLeadingSlash
      else if contains_str (txt "..") key then Some ErrorPageKeyTraversal
      else if contains_char 0 key then Some ErrorPageKeyNullByte
      else if contains_char 92 key then Some ErrorPageKeyBackslash
      else None
  end.

Definition check_csp (csp : option Text) : option ConfigError :=
  match csp with
  | None => None
  | Some csp =>
      if negb (is_ascii csp) then Some CspNotAscii
      else if contains_char 13 csp || contains_char 10 csp then Some CspContainsCrlf
      else None
  end.

Definition build (b : ServeOptionsBuilder) : result ServeOptions ConfigError :=
  match check_key (b_error_page_key b) with
  | Some e => Err e
  | None =>
      match check_csp (b_csp_override b) with
      | Some e => Err e
      | None => Ok (mkOptions (b_csp_override b) (b_error_page_key b) (b_enforce_zstd b))
      end
  end.

(** A key that names a page inside the site. *)
Definition page_key (key : Text) : Prop :=
  key <> [] /\ (forall r, key <> 47 :: r) /\ contains_str (txt "..") key = false /\ (0 ∉ key) /\ (92 ∉ key).

(** Text without line breaks, in ASCII. *)
Definition one_ascii_line (t : Text) : Prop := Forall (fun c => 0 <= c < 128 /\ c <> 13 /\ c <> 10) t.

Lemma starts_with_slash key : starts_with [47] key = true <-> exists r, key = 47 :: r.
Proof.
  unfold starts_with. rewrite bool_decide_eq_true. split.
  - intros [r H]. exists r. by apply strip_prefix_Some in H.
  - intros [r ->]. exists r. by apply strip_prefix_Some.
Qed.

Lemma check_key_None key : check_key (Some key) = None <-> page_key key.
Proof.
  unfold check_key, page_key. rewrite <- !contains_char_false. case_bool_decide as Hne; [by split; [|intros [? _]]|].
  destruct (starts_with [47] key) eqn:Hs.
  { apply starts_with_slash in Hs as [r ->]. split; [done|]. intros (_&H'&_). by destruct (H' r). }
  destruct (contains_str _ key); [by split; [|intros (_&_&?&_)]|].
  destruct (contains_char 0 key); [by split; [|intros (_&_&_&?&_)]|].
  destruct (contains_char 92 key); [by split; [|intros (_&_&_&_&?)]|].
  split; [|done]. intros _. split_and!; try done. intros r ->. by rewrite (proj2 (starts_with_slash (47 :: r))) in Hs by eauto.
Qed.

Lemma check_csp_None csp : check_csp (Some csp) = None <-> one_ascii_line csp.
Proof.
  unfold check_csp, one_ascii_line. destruct (is_ascii csp) eqn:Ha; simpl.
  - unfold is_ascii in Ha. rewrite forallb_forall in Ha.
    destruct (contains_char 13 csp || contains_char 10 csp) eqn:Hc.
    + split; [done|]. rewrite Forall_forall. intros H.
      apply orb_true_iff in Hc as [Hc%contains_char_true|Hc%contains_char_true]; by destruct (H _ Hc) as (_&?&?).
    + apply orb_false_iff in Hc as [H13%contains_char_false H10%contains_char_false].
      split; [|done]. intros _. apply Forall_forall. intros c Hin.
      pose proof (Ha c (proj1 (list_elem_of_In _ _) Hin)). to_prop. split_and!; try lia; by intros ->.
  - split; [done|]. intros H. assert (is_ascii csp = true); [|congruence].
    apply forallb_forall. intros c Hin%list_elem_of_In. rewrite Forall_forall in H. destruct (H c Hin).
    apply andb_true_iff. split; [apply Z.leb_le|apply Z.ltb_lt]; lia.
Qed.

Lemma key_checked key : check_key key = None <-> forall k, key = Some k -> page_key k.
Proof.
  destruct key as [k|]; [|by split]. rewrite check_key_None. split; [by intros ? ? [= <-]|by intros H; apply H].
Qed.

Lemma csp_checked csp : check_csp csp = None <-> forall c, csp = Some c -> one_ascii_line c.
Proof.
  destruct csp as [c|]; [|by split]. rewrite check_csp_None. split; [by intros ? ? [= <-]|by intros H; apply H].
Qed.

Lemma serve_options_iff b o :
  build b = Ok o <->
  o = mkOptions (b_csp_override b) (b_error_page_key b) (b_enforce_zstd b)
  /\ (forall key, b_error_page_key b = Some key -> page_key key)
  /\ (forall csp, b_csp_override b = Some csp -> one_ascii_line csp).
Proof.
  destruct b as [csp key z]. unfold build. simpl.
  rewrite <- key_checked, <- csp_checked. destruct (check_key key); [split; [done|by intros (_&?&_)]|].
  destruct (check_csp csp); [split; [done|by intros (_&_&?)]|]. split; [by intros [= <-]|by intros [-> _]].
Qed.

End ServeConfig.

(** ** Configuration of the projection server *)

Module ProjectionConfig.

(** The five errors of its own, and those it shares with the serving surface. *)
Inductive ConfigError :=
| ConcurrencyLimitZero
| ConcurrencyLimitOverflow
| WsMaxConnectionsZero
| WsMaxConnectionsOverflow
| MaxRequestBodyBytesZero
| Presentation (e : ServeConfig.ConfigError).

Record ServerConfigBuilder := mkBuilder {
  concurrency_limit : Z;
  max_request_body_bytes : Z;
  ws_max_connections : Z;
  csp_override : option Text;
  error_page_key : option Text;
}.

(** [ValidatedConfig] has the fields of the builder and no other constructor. *)
Definition ValidatedConfig : Type := ServerConfigBuilder.

Definition builder : ServerConfigBuilder := mkBuilder 1024 1024 200 None None.

Definition set_concurrency_limit (limit : Z) (b : ServerConfigBuilder) : ServerConfigBuilder :=
  mkBuilder limit (max_request_body_bytes b) (ws_max_connections b) (csp_override b) (error_page_key b).
Definition set_max_request_body_bytes (limit : Z) (b : ServerConfigBuilder) : ServerConfigBuilder :=
  mkBuilder (concurrency_limit b) limit (ws_max_connections b) (csp_override b) (error_page_key b).
Definition set_ws_max_connections (limit : Z) (b : ServerConfigBuilder) : ServerConfigBuilder :=
  mkBuilder (concurrency_limit b) (max_request_body_bytes b) limit (csp_override b) (error_page_key b).
Definition set_csp_override (csp : Text) (b : ServerConfigBuilder) : ServerConfigBuilder :=
  mkBuilder (concurrency_limit b) (max_request_body_bytes b) (ws_max_connections b) (Some csp) (error_page_key b).
Definition set_error_page_key (key : Text) (b : ServerConfigBuilder) : ServerConfigBuilder :=
  mkBuilder (concurrency_limit b) (max_request_body_bytes b) (ws_max_connections b) (csp_override b) (Some key).

(** [max_permits] is [tokio::sync::Semaphore::MAX_PERMITS]. *)
Definition build (max_permits : Z) (b : ServerConfigBuilder) : result ValidatedConfig ConfigError :=
  if concurrency_limit b =? 0 then Err ConcurrencyLimitZero
  else if max_permits <? concurrency_limit b then Err ConcurrencyLimitOverflow
  else if ws_max_connections b =? 0 then Err WsMaxConnectionsZero
  else if max_permits <? ws_max_connections b then Err WsMaxConnectionsOverflow
  else if max_request_body_bytes b <? 1 then Err MaxRequestBodyBytesZero
  else
    match ServeConfig.check_key (error_page_key b) with
    | Some e => Err (Presentation e)
    | None =>
        match ServeConfig.check_csp (csp_override b) with
        | Some e => Err (Presentation e)
        | None => Ok b
        end
    end.

(** What a validated configuration satisfies. *)
Definition wellformed (max_permits : Z) (c : ServerConfigBuilder) : Prop :=
  1 <= concurrency_limit c <= max_permits /\ 1 <= ws_max_connections c <= max_permits /\ 1 <= max_request_body_bytes c
  /\ (forall key, error_page_key c = Some key -> ServeConfig.page_key key)
  /\ (forall csp, csp_override c = Some csp -> ServeConfig.one_ascii_line csp).

End ProjectionConfig.

(** C32: The builders let exactly the well-formed configurations through and keep
    them as they were set.  Both require an error page key, if set, that is not
    empty, does not start with a slash and holds no [..], NUL or backslash, and a
    CSP override, if set, that is one line of ASCII; the projection server also
    requires limits between one and what a semaphore holds. *)
Theorem config_wellformed b o max_permits c c' :
  0 <= ProjectionConfig.concurrency_limit c -> 0 <= ProjectionConfig.ws_max_connections c ->
  (ServeConfig.build b = Ok o <->
   o = ServeConfig.mkOptions (ServeConfig.b_csp_override b) (ServeConfig.b_error_page_key b) (ServeConfig.b_enforce_zstd b)
   /\ (forall key, ServeConfig.b_error_page_key b = Some key -> ServeConfig.page_key key)
   /\ (forall csp, ServeConfig.b_csp_override b = Some csp -> ServeConfig.one_ascii_line csp))
  /\ (ProjectionConfig.build max_permits c = Ok c' <-> c' = c /\ ProjectionConfig.wellformed max_permits c).
Proof.
  intros Hc Hw. split; [apply ServeConfig.serve_options_iff|].
  unfold ProjectionConfig.build, ProjectionConfig.wellformed.
  rewrite <- ServeConfig.key_checked, <- ServeConfig.csp_checked.
  destruct c as [cl mb wm csp key]. simpl in *.
  destruct (Z.eqb_spec cl 0); [naive_solver lia|]. destruct (Z.ltb_spec max_permits cl); [naive_solver lia|].
  destruct (Z.eqb_spec wm 0); [naive_solver lia|]. destruct (Z.ltb_spec max_permits wm); [naive_solver lia|].
  destruct (Z.ltb_spec mb 1); [naive_solver lia|].
  destruct (ServeConfig.check_key key); [naive_solver|]. destruct (ServeConfig.check_csp csp); [naive_solver|].
  split; [intros [= <-]; split_and!; done || lia|by intros [-> _]].
Qed.

Lemma config_wellformed_witness :
  ServeConfig.build (ServeConfig.set_error_page_key (txt "404.html") ServeConfig.builder)
  = Ok (ServeConfig.mkOptions None (Some (txt "404.html")) false)
  /\ ServeConfig.build (ServeConfig.set_error_page_key (txt "../x") ServeConfig.builder)
     = Err ServeConfig.ErrorPageKeyTraversal
  /\ ProjectionConfig.wellformed 4096 ProjectionConfig.builder.
Proof.
  split; [vm_compute; reflexivity|]. split; [vm_compute; reflexivity|].
  destruct (config_wellformed ServeConfig.builder (ServeConfig.mkOptions None None false) 4096
              ProjectionConfig.builder ProjectionConfig.builder ltac:(vm_compute; discriminate)
              ltac:(vm_compute; discriminate)) as [_ [H _]].
  apply H. vm_compute. reflexivity.
Defined.

(** ** Layers *)

Module Layers.

(** A request as the layers and the built-in routes see it. *)
Record Request := mkRequest {
  method : Method;
  path : Text;
  request_headers : HeaderMap;
}.

Record LayerLimits := mkLimits { max_body_bytes : Z; max_inflight_requests : Z }.
Definition permissive_for_tests : LayerLimits := mkLimits (1024 * 1024 * 1024) 1024.

Definition path_is (request : Request) (p : string) : bool := bool_decide (path request = txt p).

(** [get(handler)]: a [HEAD] request has the body of the response removed, and
    [na] answers the other methods. *)
Definition without_body (r : Response) : Response := mkResponse (status r) (headers r) [].
Definition method_get (na : Response) (handler : Request -> Response) (request : Request) : Response :=
  match method request with
  | GET => handler request
  | HEAD => without_body (handler request)
  | OtherMethod => na
  end.

(** What a read gets to see of the response of its handler. *)
Definition seen_by (request : Request) (r : Response) : Response :=
  match method request with HEAD => without_body r | _ => r end.

Lemma method_get_handler na handler request :
  method request <> OtherMethod -> method_get na handler request = seen_by request (handler request).
Proof. unfold method_get, seen_by. by destruct (method request). Qed.

Lemma seen_by_head request r :
  status (seen_by request r) = status r /\ headers (seen_by request r) = headers r
  /\ (method request <> HEAD -> body (seen_by request r) = body r)
  /\ (method request = HEAD -> body (seen_by request r) = []).
Proof. unfold seen_by. by destruct (method request). Qed.

(** *** The routes of the consumer

    A route is a method and a path; [conflict] says which two routes axum does not
    let into one router: its documentation names two routes with the same method
    and path.  [takes] is the answer of the consumer's route, when one of its
    routes is the match of the request in the merged router; [fallback] is the
    fallback of the consumer's router, if it set one. *)
Record Route := mkRoute { route_method : string; route_path : string }.
Record Router := mkRouter {
  declared : list Route;
  takes : Request -> option Response;
  fallback : option (Request -> Response);
}.
Definition Router_new : Router := mkRouter [] (fun _ => None) None.

Definition overlapping (conflict : Route -> Route -> bool) (l l' : list Route) : bool :=
  existsb (fun r => existsb (conflict r) l') l.
Definition conflict_law (conflict : Route -> Route -> bool) : Prop := forall r, conflict r r = true.

Lemma overlapping_same conflict r l l' :
  conflict_law conflict -> r ∈ l -> r ∈ l' -> overlapping conflict l l' = true.
Proof.
  intros Hc Hl Hl'. apply existsb_exists. exists r. split; [by apply list_elem_of_In|].
  apply existsb_exists. exists r. split; [by apply list_elem_of_In|apply Hc].
Qed.

(** A built-in [get] route at [q] is the match of the request, in a router that
    the consumer may have given other methods of the same path. *)
Definition at_route (taken : option Response) (q : string) (request : Request) : bool :=
  path_is request q && match method request, taken with GET, _ | _, None => true | _, Some _ => false end.

Definition json_response (st : Z) (b : Text) : Response := mkResponse st [("content-type", txt "application/json")] b.

Definition DEFAULT_CSP : Text :=
  txt "default-src 'self'; style-src 'self'; script-src 'self'; connect-src 'self'; base-uri 'none'; form-action 'none'".

Definition on_headers (f : Headers -> Headers) (r : Response) : Response :=
  mkResponse (status r) (f (headers r)) (body r).

(** Sets the policy of a response that has none. *)
Definition default_csp (csp : Text) (h : Headers) : Headers :=
  match hget "content-security-policy" h with Some _ => h | None => hset "content-security-policy" csp h end.

(** [security_headers], on the response of the inner service. *)
Definition security_headers (csp : Text) : Response -> Response :=
  on_headers (fun h =>
    hset "strict-transport-security" (txt "max-age=63072000; includeSubDomains")
      (hset "permissions-policy" (txt "camera=(), microphone=(), geolocation=()")
         (hset "referrer-policy" (txt "no-referrer")
            (default_csp csp
               (hset "x-content-type-options" (txt "nosniff")
                  (hset "x-frame-options" (txt "DENY") h)))))).

(** [projection_default_csp]. *)
Definition projection_default_csp : Response -> Response := on_headers (default_csp DEFAULT_CSP).

(** [Semaphore::try_acquire] on the free permits, and the drop of a permit. *)
Definition try_acquire (permits : Z) : option Z := if permits <=? 0 then None else Some (permits - 1).
Definition release (permits : Z) : Z := permits + 1.

(** [http_concurrency_limit]: the inner service runs only with a permit. *)
Definition http_concurrency_limit (permits : Z) (next : Request -> Response) (request : Request) : Response :=
  match try_acquire permits with None => mkResponse 503 [] [] | Some _ => next request end.

Lemma limit_sheds permits next request :
  permits <= 0 -> http_concurrency_limit permits next request = mkResponse 503 [] [].
Proof. intros H. unfold http_concurrency_limit, try_acquire. by rewrite (proj2 (Z.leb_le _ _)). Qed.

Lemma limit_passes permits next request :
  1 <= permits -> http_concurrency_limit permits next request = next request.
Proof. intros H. unfold http_concurrency_limit, try_acquire. by rewrite (proj2 (Z.leb_gt _ _)) by lia. Qed.

(** [Semaphore::new]: panics above [max_permits]. *)
Definition semaphore (max_permits permits : Z) : option Z :=
  if permits <=? max_permits then Some permits else None.

Definition clamp_permits (max_permits requested : Z) : Z := Z.min requested max_permits.

(** The layer that limits the size of a body passes on a request that declares none. *)
Definition body_limit_law (body_limit : Z -> (Request -> Response) -> Request -> Response) : Prop :=
  forall n next request, 1 <= n -> get (request_headers request) "content-length" = None ->
  body_limit n next request = next request.

Lemma hget_hset_eq name v h : hget name (hset name v h) = Some v.
Proof.
  unfold hget, hset, Headers in *. rewrite filter_app.
  assert (E : filter (fun e : string * Text => fst e = name) (filter (fun e : string * Text => fst e <> name) h) = []).
  { induction h as [|[n w] h IH]; [done|]. rewrite !filter_cons. simpl.
    destruct (decide (n <> name)); [|done]. rewrite filter_cons. simpl. by rewrite decide_False. }
  rewrite E. simpl. rewrite filter_cons. simpl. by rewrite decide_True.
Qed.

Lemma hget_hset_ne name name' v h : name <> name' -> hget name' (hset name v h) = hget name' h.
Proof.
  intros Hne. unfold hget, hset, Headers in *. rewrite filter_app. f_equal.
  assert (E : filter (fun e : string * Text => fst e = name') [(name, v)] = []).
  { rewrite filter_cons. simpl. by rewrite decide_False. }
  rewrite E, app_nil_r. f_equal. induction h as [|[n w] h IH]; [done|]. rewrite !filter_cons. simpl.
  destruct (decide (n <> name)) as [Hn|Hn].
  - rewrite filter_cons. simpl. by destruct (decide (n = name')); rewrite IH.
  - rewrite (decide_False (P := n = name')); [done|]. intros <-. apply Hn. congruence.
Qed.

(** The policy of a page that set one survives, and the others get the default. *)
Lemma hget_default_csp csp h :
  hget "content-security-policy" (default_csp csp h) = Some (default csp (hget "content-security-policy" h)).
Proof. unfold default_csp. destruct (hget _ h) eqn:E; [by rewrite E|]. by rewrite hget_hset_eq. Qed.

Lemma hget_default_csp_ne csp h name :
  name <> "content-security-policy" -> hget name (default_csp csp h) = hget name h.
Proof. intros Hne. unfold default_csp. destruct (hget _ h); [done|]. by rewrite hget_hset_ne. Qed.




End Layers.

(** ** The router of the projection surface *)

Module ProjectionRouter.
Import Layers.

Section ProjectionRouter.
(** The parameters are those of the other router, and the answer of axum's default
    fallback, to a path that no route has. *)
Context (max_permits : Z) (body_limit : Z -> (Request -> Response) -> Request -> Response).
Context (method_not_allowed : Response) (not_an_upgrade : Request -> option Response) (switching : Request -> Response).
Context (conflict : Route -> Route -> bool) (extra_routes : Router) (unmatched : Request -> Response).
Context (percent_decode : Text -> option Text).

(** What the handlers read of the [ProjectionSource], and the free permits. *)
Record View := mkView {
  snapshot : option (gmap Text PageEntry);
  is_ready : bool;
  http_permits : Z;
  ws_permits : Z;
}.

Definition healthz (request : Request) : Response :=
  json_response 200 (quoted ["{"; "v"; ":1,"; "status"; ":"; "ok"; "}"]).
Definition readyz (v : View) (request : Request) : Response :=
  if is_ready v then json_response 200 (quoted ["{"; "v"; ":1,"; "status"; ":"; "ready"; "}"])
  else json_response 503 (quoted ["{"; "v"; ":1,"; "status"; ":"; "not_ready"; "}"]).

Definition ws_route (p : WsAuth.WsPolicy) (v : View) (request : Request) : Response :=
  match not_an_upgrade request with
  | Some rejection => rejection
  | None =>
      match Pool.ws_handler (request_headers request) p (ws_permits v) with
      | Pool.Refused st => mkResponse st [] []
      | Pool.Upgraded _ => switching request
      end
  end.

(** The route [/v1/{*path}]: something must follow the slash. *)
Definition below_v1 (request : Request) : bool :=
  match strip_prefix (txt "/v1/") (path request) with Some (_ :: _) => true | _ => false end.

Definition at_own (q : string) (request : Request) : bool := at_route (takes extra_routes request) q request.

(** [handlers::build] merged with the routes of the consumer. *)
Definition data_routes : list Route := [mkRoute "GET" "/ws"; mkRoute "GET" "/v1/{*path}"].
Definition build (p : WsAuth.WsPolicy) (v : View) (request : Request) : Response :=
  if at_own "/ws" request then method_get method_not_allowed (ws_route p v) request
  else
    match takes extra_routes request with
    | Some r => r
    | None =>
        if below_v1 request
        then method_get method_not_allowed
               (fun r => snapshot_get percent_decode (snapshot v) (method r) (path r) (request_headers r)) request
        else default unmatched (fallback extra_routes) request
    end.

Definition is_probe (request : Request) : bool := at_own "/v1/healthz" request || at_own "/v1/readyz" request.

(** [handlers::build_probes]. *)
Definition probe_routes : list Route := [mkRoute "GET" "/v1/healthz"; mkRoute "GET" "/v1/readyz"].
Definition build_probes (v : View) (request : Request) : Response :=
  method_get method_not_allowed (if path_is request "/v1/healthz" then healthz else readyz v) request.

(** A route of the data plane, or a fallback that the consumer set, is there for
    the request. *)
Definition in_data_plane (request : Request) : bool :=
  at_own "/ws" request || bool_decide (is_Some (takes extra_routes request)) || below_v1 request
  || bool_decide (is_Some (fallback extra_routes)).

(** Inside the body limit.  The data plane is inside the concurrency limit; the
    probes are merged afterwards, and so is the default fallback that comes with
    them: of two routers without a fallback of their own the merged one's default
    stays.  The policy is set outside of all of them. *)
Definition planes (p : WsAuth.WsPolicy) (v : View) (request : Request) : Response :=
  projection_default_csp
    (if is_probe request then build_probes v request
     else if in_data_plane request then http_concurrency_limit (http_permits v) (build p v) request
     else unmatched request).

Record App := mkApp { http_semaphore : Z; ws_semaphore : Z; service : View -> Request -> Response }.

(** [None] is a panic, of [Semaphore::new] or of [Router::merge]. *)
Definition build_projection_router (limits : LayerLimits) (p : WsAuth.WsPolicy) : option App :=
  match semaphore max_permits (max_inflight_requests limits), semaphore max_permits (WsAuth.max_connections p) with
  | Some http, Some ws =>
      if overlapping conflict (data_routes ++ probe_routes) (declared extra_routes) then None
      else Some (mkApp http ws (fun v => body_limit (max_body_bytes limits) (planes p v)))
  | _, _ => None
  end.

Lemma build_projection_router_none limits p :
  build_projection_router limits p = None <->
  max_permits < max_inflight_requests limits \/ max_permits < WsAuth.max_connections p
  \/ overlapping conflict (data_routes ++ probe_routes) (declared extra_routes) = true.
Proof using Type.
  unfold build_projection_router, semaphore.
  destruct (Z.leb_spec (max_inflight_requests limits) max_permits), (Z.leb_spec (WsAuth.max_connections p) max_permits),
    (overlapping _ _ _); split; try done; try lia; intros _; auto.
Qed.

Lemma default_csp_response r :
  status (projection_default_csp r) = status r /\ body (projection_default_csp r) = body r
  /\ hget "content-security-policy" (headers (projection_default_csp r))
     = Some (default DEFAULT_CSP (hget "content-security-policy" (headers r)))
  /\ (forall name, name <> "content-security-policy" ->
        hget name (headers (projection_default_csp r)) = hget name (headers r)).
Proof using Type.
  unfold projection_default_csp, on_headers. simpl. split_and!; [done|done|apply hget_default_csp|].
  intros name Hn. by apply hget_default_csp_ne.
Qed.

Lemma projection_service limits p app v request :
  build_projection_router limits p = Some app -> body_limit_law body_limit -> 1 <= max_body_bytes limits ->
  get (request_headers request) "content-length" = None -> service app v request = planes p v request.
Proof using Type.
  unfold build_projection_router. destruct (semaphore _ (max_inflight_requests limits)); [|done].
  destruct (semaphore _ _); [|done]. destruct (overlapping _ _ _); [done|]. intros [= <-] Hlaw Hmax Hcl. by apply Hlaw.
Qed.

(** A read of the data plane: the answer of the handler, with a policy. *)
Lemma planes_read p v request :
  is_probe request = false -> 1 <= http_permits v -> method request <> OtherMethod ->
  path_is request "/ws" = false -> takes extra_routes request = None -> below_v1 request = true ->
  planes p v request
  = projection_default_csp (seen_by request
      (snapshot_get percent_decode (snapshot v) (method request) (path request) (request_headers request))).
Proof using Type.
  intros Hp Hn Hm Hws He Hb. unfold planes, in_data_plane, at_own, at_route.
  rewrite Hp, limit_passes, Hws, He, Hb by lia. cbn [andb]. rewrite orb_true_r. cbn [orb].
  unfold build, at_own, at_route. rewrite Hws, He, Hb. cbn [andb]. by rewrite method_get_handler.
Qed.

Lemma planes_shed p v request :
  is_probe request = false -> in_data_plane request = true -> http_permits v <= 0 -> status (planes p v request) = 503.
Proof using Type.
  intros Hp Hd Hn. unfold planes. by rewrite Hp, Hd, (proj1 (default_csp_response _)), limit_sheds.
Qed.

Lemma planes_ws p v request :
  at_own "/ws" request = true -> 1 <= http_permits v -> method request <> OtherMethod -> not_an_upgrade request = None ->
  status (planes p v request)
  = if negb (WsAuth.validate_ws_origin (request_headers request) (WsAuth.origin_policy p)) then 403
    else if ws_permits v <=? 0 then 503 else status (switching request).
Proof using Type.
  intros Hws Hn Hm Hup. assert (Hpr : is_probe request = false).
  { unfold is_probe, at_own, at_route, path_is in *. apply andb_true_iff in Hws as [->%bool_decide_eq_true _]. done. }
  unfold planes, in_data_plane. rewrite Hpr, (proj1 (default_csp_response _)), limit_passes, Hws by done. cbn [orb].
  unfold build. rewrite Hws, method_get_handler, (proj1 (seen_by_head _ _)) by done. unfold ws_route. rewrite Hup. unfold Pool.ws_handler.
  destruct (WsAuth.validate_ws_origin _ _); simpl; [|done]. by destruct (ws_permits v <=? 0).
Qed.

(** C28: What the projection surface answers to a request without a body.  Every
    response carries a policy, its own or the default one.  The probes answer
    however many requests are in flight; liveness is always 200 and readiness that
    of the source.  Without a permit every other request that a route, or a
    fallback of the consumer, takes is shed with 503; one that nothing takes is
    answered by the default fallback, permits or not.  With a permit, a read below
    [/v1/] that no route of the consumer takes is answered with the page of the
    current snapshot, unchanged but for the policy and without its body for
    [HEAD], and with 503 as long as there is none; and a WebSocket request is
    refused with 403 for its origin or with 503 at the cap, in that order, and
    otherwise upgraded. *)
Theorem projection_responses limits p app v request :
  build_projection_router limits p = Some app -> body_limit_law body_limit -> 1 <= max_body_bytes limits ->
  get (request_headers request) "content-length" = None ->
  let r := service app v request in
  is_Some (hget "content-security-policy" (headers r))
  /\ (is_probe request = true -> method request <> OtherMethod ->
      status r = if path_is request "/v1/healthz" || is_ready v then 200 else 503)
  /\ (is_probe request = false -> in_data_plane request = true -> http_permits v <= 0 -> status r = 503)
  /\ (is_probe request = false -> in_data_plane request = false ->
      status r = status (unmatched request) /\ body r = body (unmatched request))
  /\ (is_probe request = false -> 1 <= http_permits v -> method request <> OtherMethod ->
      path_is request "/ws" = false -> takes extra_routes request = None -> below_v1 request = true ->
      let page := snapshot_get percent_decode (snapshot v) (method request) (path request) (request_headers request) in
      status r = status page /\ body r = body (seen_by request page)
      /\ (forall name, name <> "content-security-policy" -> hget name (headers r) = hget name (headers page))
      /\ (snapshot v = None -> status r = 503))
  /\ (at_own "/ws" request = true -> 1 <= http_permits v -> method request <> OtherMethod ->
      not_an_upgrade request = None ->
      status r = if negb (WsAuth.validate_ws_origin (request_headers request) (WsAuth.origin_policy p)) then 403
                 else if ws_permits v <=? 0 then 503 else status (switching request)).
Proof using Type.
  intros Happ Hlaw Hmax Hcl. cbv zeta. rewrite (projection_service limits p app) by done. split_and!.
  - unfold planes. rewrite (proj1 (proj2 (proj2 (default_csp_response _)))). by eexists.
  - intros Hp Hm. unfold planes. rewrite Hp, (proj1 (default_csp_response _)). unfold build_probes.
    rewrite method_get_handler, (proj1 (seen_by_head _ _)) by done.
    destruct (path_is request "/v1/healthz"); [done|]. unfold readyz. by destruct (is_ready v).
  - apply planes_shed.
  - intros Hp Hd. unfold planes. rewrite Hp, Hd.
    by rewrite (proj1 (default_csp_response _)), (proj1 (proj2 (default_csp_response _))).
  - intros Hp Hn Hm Hws He Hb. rewrite planes_read by done.
    set (page := snapshot_get percent_decode (snapshot v) (method request) (path request) (request_headers request)).
    destruct (default_csp_response (seen_by request page)) as (->&->&_&Hh).
    destruct (seen_by_head request page) as (Hst&Hhd&_&_). rewrite Hst, Hhd in *.
    split_and!; [done|done|done|]. intros Hnone. unfold page. rewrite Hnone. by destruct (method request).
  - apply planes_ws.
Qed.

End ProjectionRouter.
End ProjectionRouter.

(** ** The router of the serving surface *)

Module ServeRouter.
Import Layers.

Section ServeRouter.
(** What the router takes from crates: [Semaphore::MAX_PERMITS];
    [HeaderValue::from_str]; the layer that limits the size of a body; the answer
    of axum to a method a route does not have, to a request that is not an
    upgrade, and to one that is; which routes it does not merge; the router the
    consumer adds.  And the parameters of the page cache. *)
Context (max_permits : Z) (HeaderValue_from_str : Text -> option Text).
Context (body_limit : Z -> (Request -> Response) -> Request -> Response).
Context (method_not_allowed : Response) (not_an_upgrade : Request -> option Response) (switching : Request -> Response).
Context (conflict : Route -> Route -> bool) (extra_routes : option Router).
Context (zstd_read : Body -> Z -> option Body) (percent_decode : Text -> option Text).

(** What the handlers read: the state of the consumer and the free permits. *)
Record View := mkView {
  html_cache : option (gmap Text CachedPage);
  is_ready : bool;
  http_permits : Z;
  ws_permits : Z;
}.

Definition BUILTIN_MAX_BODY_BYTES : Z := 1024.

Notation get_ := (method_get method_not_allowed).

Definition favicon (request : Request) : Response := mkResponse 204 [] [].
Definition healthz (request : Request) : Response :=
  json_response 200 (quoted ["{"; "status"; ":"; "ok"; "}"]).
Definition readyz (v : View) (request : Request) : Response :=
  if is_ready v then json_response 200 (quoted ["{"; "status"; ":"; "ready"; "}"])
  else json_response 503
         (quoted ["{"; "status"; ":"; "not_ready"; ","; "reason"; ":"; "no content published yet"; "}"]).

Definition ws_route (p : WsAuth.WsPolicy) (v : View) (request : Request) : Response :=
  match not_an_upgrade request with
  | Some rejection => rejection
  | None =>
      match Pool.ws_handler (request_headers request) p (ws_permits v) with
      | Pool.Refused st => mkResponse st [] []
      | Pool.Upgraded _ => switching request
      end
  end.

(** The consumer's answer, if one of its routes is the match. *)
Definition extra_takes (request : Request) : option Response :=
  match extra_routes with Some extra => takes extra request | None => None end.
Definition at_own (q : string) (request : Request) : bool := at_route (extra_takes request) q request.

Definition is_probe (request : Request) : bool := at_own "/healthz" request || at_own "/readyz" request.

Definition cache_route (o : ServeConfig.ServeOptions) (v : View) (request : Request) : Response :=
  cache_fallback zstd_read percent_decode (html_cache v)
    (mkOptions (ServeConfig.error_page_key o) (ServeConfig.enforce_zstd o))
    (method request) (path request) (request_headers request).

(** [builtin_routes] merged with those of the consumer. *)
Definition builtin_routes : list Route := [mkRoute "GET" "/favicon.ico"; mkRoute "GET" "/ws"].
Definition data_plane (o : ServeConfig.ServeOptions) (p : WsAuth.WsPolicy) (v : View) (request : Request) : Response :=
  if at_own "/favicon.ico" request then body_limit BUILTIN_MAX_BODY_BYTES (get_ favicon) request
  else if at_own "/ws" request then body_limit BUILTIN_MAX_BODY_BYTES (get_ (ws_route p v)) request
  else
    match extra_takes request with
    | Some r => r
    | None => body_limit BUILTIN_MAX_BODY_BYTES (cache_route o v) request
    end.

Definition probe_routes : list Route := [mkRoute "GET" "/healthz"; mkRoute "GET" "/readyz"].
Definition probes (v : View) (request : Request) : Response :=
  body_limit BUILTIN_MAX_BODY_BYTES
    (get_ (if path_is request "/healthz" then healthz else readyz v)) request.

(** Inside the security headers. *)
Definition routed (limits : LayerLimits) (o : ServeConfig.ServeOptions) (p : WsAuth.WsPolicy) (v : View)
    : Request -> Response :=
  body_limit (max_body_bytes limits) (fun request =>
    if is_probe request then probes v request
    else http_concurrency_limit (http_permits v) (data_plane o p v) request).

(** What [build_router] makes: the two semaphores and the service; [None] is a panic. *)
Record App := mkApp { http_semaphore : Z; ws_semaphore : Z; service : View -> Request -> Response }.

(** [Router::merge] refuses overlapping routes and a second fallback, next to that
    of the page cache. *)
Definition merges (extra : Router) : bool :=
  negb (overlapping conflict (builtin_routes ++ probe_routes) (declared extra))
  && bool_decide (fallback extra = None).

Definition build_router (limits : LayerLimits) (p : WsAuth.WsPolicy) (o : ServeConfig.ServeOptions) : option App :=
  match semaphore max_permits (clamp_permits max_permits (max_inflight_requests limits)),
        semaphore max_permits (clamp_permits max_permits (WsAuth.max_connections p)),
        HeaderValue_from_str (default DEFAULT_CSP (ServeConfig.csp_override o)) with
  | Some http, Some ws, Some csp =>
      if from_option merges true extra_routes
      then Some (mkApp http ws (fun v request => security_headers csp (routed limits o p v request)))
      else None
  | _, _, _ => None
  end.

Lemma clamp_semaphore n : semaphore max_permits (clamp_permits max_permits n) = Some (Z.min n max_permits).
Proof using Type. unfold semaphore, clamp_permits. destruct (Z.leb_spec (Z.min n max_permits) max_permits); [done|lia]. Qed.

Lemma build_router_inv limits p o app :
  build_router limits p o = Some app ->
  exists csp, HeaderValue_from_str (default DEFAULT_CSP (ServeConfig.csp_override o)) = Some csp
    /\ app = mkApp (Z.min (max_inflight_requests limits) max_permits) (Z.min (WsAuth.max_connections p) max_permits)
               (fun v request => security_headers csp (routed limits o p v request)).
Proof using Type.
  unfold build_router. rewrite !clamp_semaphore. destruct (HeaderValue_from_str _) as [csp|]; [|done].
  destruct (from_option _ _ _); [|done]. intros [= <-]. by exists csp.
Qed.

(** A character that a header value may hold. *)
Definition header_char (c : Z) : Prop := 32 <= c <= 126 \/ c = 9.

(** The documented behaviour of [HeaderValue::from_str]: visible ASCII and tabs. *)
Definition header_value_law : Prop :=
  forall t, HeaderValue_from_str t = Some t /\ Forall header_char t
            \/ HeaderValue_from_str t = None /\ ~ Forall header_char t.

Lemma header_char_bool t : Forall header_char t <-> forallb (fun c => ((32 <=? c) && (c <=? 126)) || (c =? 9)) t = true.
Proof using Type.
  rewrite forallb_forall, Forall_forall. setoid_rewrite list_elem_of_In.
  split; intros H c Hc; specialize (H c Hc); unfold header_char in *.
  - apply orb_true_iff. rewrite andb_true_iff, Z.leb_le, Z.leb_le, Z.eqb_eq. done.
  - apply orb_true_iff in H. by rewrite andb_true_iff, Z.leb_le, Z.leb_le, Z.eqb_eq in H.
Qed.

Lemma default_csp_valid : Forall header_char DEFAULT_CSP.
Proof using Type. apply header_char_bool. vm_compute. reflexivity. Qed.

Lemma default_from_str : header_value_law -> HeaderValue_from_str DEFAULT_CSP = Some DEFAULT_CSP.
Proof using Type. intros Hlaw. destruct (Hlaw DEFAULT_CSP) as [[? _]|[_ []]]; [done|apply default_csp_valid]. Qed.

Lemma not_header_chars t : ~ Forall header_char t -> exists c, c ∈ t /\ ~ header_char c.
Proof using Type.
  intros H. apply not_Forall_Exists in H; [|intros c; unfold Decision, header_char; destruct (decide (32 <= c <= 126)), (decide (c = 9)); [left|left|left|right]; lia].
  apply Exists_exists in H as (c&Hc&Hn). by exists c.
Qed.

(** The CSP override is one that no header may hold. *)
Definition bad_override (o : ServeConfig.ServeOptions) : Prop :=
  exists csp c, ServeConfig.csp_override o = Some csp /\ c ∈ csp /\ c <> 9 /\ (0 <= c < 32 \/ c = 127).

Lemma override_from_str b o :
  header_value_law -> ServeConfig.build b = Ok o ->
  HeaderValue_from_str (default DEFAULT_CSP (ServeConfig.csp_override o)) = None <-> bad_override o.
Proof using Type.
  intros Hlaw (->&_&Hcsp)%ServeConfig.serve_options_iff. unfold bad_override. cbn [ServeConfig.csp_override].
  destruct (ServeConfig.b_csp_override b) as [csp|]; simpl.
  - specialize (Hcsp csp eq_refl). unfold ServeConfig.one_ascii_line in Hcsp. rewrite Forall_forall in Hcsp.
    destruct (Hlaw csp) as [[-> Hok]|[-> Hbad]].
    + split; [done|]. intros (? & c & [= <-] & Hin & Hc). rewrite Forall_forall in Hok.
      destruct (Hok c Hin) as [?|?]; lia.
    + split; [|done]. intros _. apply not_header_chars in Hbad as (c&Hin&Hn). exists csp, c.
      destruct (Hcsp c Hin) as [? _]. unfold header_char in Hn. split_and!; [done|done|lia|lia].
  - rewrite default_from_str by done. split; [done|]. by intros (?&?&?&_).
Qed.

Lemma merges_false extra :
  merges extra = false <->
  overlapping conflict (builtin_routes ++ probe_routes) (declared extra) = true \/ is_Some (fallback extra).
Proof using Type.
  unfold merges. rewrite andb_false_iff, negb_false_iff, bool_decide_eq_false, <- not_eq_None_Some. done.
Qed.

(** C33: When the routers can be built.  For options that their builder let through,
    [build_router] of the serving surface fails, by a panic, exactly when the CSP
    override holds a control character that a header may not (the builder checks
    for ASCII and line breaks only), or when the router of the consumer has a route
    that overlaps a built-in one, or a fallback of its own; a [GET] route at a
    built-in path always overlaps.  Its semaphores are clamped, so no limit makes
    it fail.  The projection router does not clamp: it panics exactly when a limit
    is above what a semaphore can hold or the routes overlap. *)
Theorem router_construction b o limits p :
  header_value_law -> conflict_law conflict -> ServeConfig.build b = Ok o ->
  (build_router limits p o = None <->
   bad_override o
   \/ exists extra, extra_routes = Some extra
      /\ (overlapping conflict (builtin_routes ++ probe_routes) (declared extra) = true \/ is_Some (fallback extra)))
  /\ (forall extra q, extra_routes = Some extra -> q ∈ ["/favicon.ico"; "/ws"; "/healthz"; "/readyz"]%string ->
       mkRoute "GET" q ∈ declared extra -> build_router limits p o = None)
  /\ (forall app, build_router limits p o = Some app ->
       http_semaphore app = Z.min (max_inflight_requests limits) max_permits
       /\ ws_semaphore app = Z.min (WsAuth.max_connections p) max_permits)
  /\ (forall extra unmatched,
       ProjectionRouter.build_projection_router max_permits body_limit method_not_allowed not_an_upgrade switching
         conflict extra unmatched percent_decode limits p = None <->
       max_permits < max_inflight_requests limits \/ max_permits < WsAuth.max_connections p
       \/ overlapping conflict (ProjectionRouter.data_routes ++ ProjectionRouter.probe_routes) (declared extra) = true).
Proof using Type.
  intros Hlaw Hconf Hb.
  assert (Hnone : build_router limits p o = None <->
    bad_override o \/ exists extra, extra_routes = Some extra /\ merges extra = false).
  { rewrite <- (override_from_str b o) by done. unfold build_router. rewrite !clamp_semaphore.
    destruct (HeaderValue_from_str _) as [csp|]; [|split; [by left|done]].
    destruct extra_routes as [extra|]; simpl; [destruct (merges extra) eqn:Hm|]; split; try done; try (by right; eauto);
      intros [?|(?&[= <-]&?)]; congruence. }
  split_and!.
  - rewrite Hnone. setoid_rewrite merges_false. done.
  - intros extra q He Hq Hin. apply Hnone. right. exists extra. split; [done|]. apply merges_false. left.
    apply (overlapping_same _ (mkRoute "GET" q)); [done| |done]. set_solver.
  - intros app (csp&_&->)%build_router_inv. done.
  - intros extra unmatched. apply ProjectionRouter.build_projection_router_none.
Qed.






End ServeRouter.
End ServeRouter.

(** ** Starting the serving surface *)

Module Start.
Import Layers.
Section Start.
(** Addresses and their parser, the socket calls, and the run of the server until
    its shutdown are the runtime's. *)
Context {Addr ParseError Listener IoError App : Type}.
Context (parse_addr : Text -> result Addr ParseError) (bind : Addr -> result Listener IoError).
Context (local_addr : Listener -> option Addr) (serve : Listener -> App -> result unit IoError).

Inductive ServerError :=
| InvalidAddress (address : Text) (source : ParseError)
| BindFailed (address : Addr) (source : IoError)
| RuntimeFailed (source : IoError).

Definition bind_serving_port (addr : Addr) : result Listener ServerError := map_err (BindFailed addr) (bind addr).

Definition address_text (bind_address : Text) (port : Z) : Text := bind_address ++ [58] ++ txt (show_Z port).

(** [app] is what [build_router] made, [None] when it panicked.  The result is
    the address sent to [addr_tx], if any, and what [start] returns; [None] is a
    panic. *)
Definition start (port : Z) (bind_address : Text) (listener : option Listener) (app : option App) (addr_tx : bool)
    : option (option Addr * result unit ServerError) :=
  match app with
  | None => None
  | Some app =>
      let run l := map_err RuntimeFailed (serve l app) in
      match listener with
      | Some l => Some (None, run l)
      | None =>
          match parse_addr (address_text bind_address port) with
          | Err e => Some (None, Err (InvalidAddress (address_text bind_address port) e))
          | Ok addr =>
              match bind_serving_port addr with
              | Err e => Some (None, Err e)
              | Ok l =>
                  if addr_tx then
                    match local_addr l with
                    | None => None
                    | Some bound => Some (Some bound, run l)
                    end
                  else Some (None, run l)
              end
          end
      end
  end.

(** Of the syntax of socket addresses: an IPv6 address stands in brackets. *)
Definition socket_syntax : Prop :=
  forall t addr, parse_addr t = Ok addr -> starts_with [91] t = true \/ count_occ Z.eq_dec t 58 = 1%nat.

(** Every outcome of [start]: a listener that is passed in is served as it is and
    its address is never reported; otherwise the address is parsed, bound and
    reported before the server runs, or the failure of the step is returned. *)
Lemma start_outcome port bind_address listener app addr_tx :
  match start port bind_address listener (Some app) addr_tx with
  | None => listener = None /\ addr_tx = true
            /\ exists addr l, parse_addr (address_text bind_address port) = Ok addr /\ bind addr = Ok l /\ local_addr l = None
  | Some (notified, r) =>
      (is_Some notified -> listener = None /\ addr_tx = true)
      /\ (r = Ok tt -> exists l, serve l app = Ok tt
                        /\ (listener = Some l \/ exists addr, parse_addr (address_text bind_address port) = Ok addr /\ bind addr = Ok l))
  end.
Proof using Type.
  unfold start, bind_serving_port. destruct listener as [l|].
  - split; [by intros []|]. destruct (serve l app) as [[]|] eqn:E; [|done]. eauto.
  - destruct (parse_addr _) as [addr|e] eqn:Hp; [|by split; [intros []|]].
    destruct (bind addr) as [l|e] eqn:Hb; simpl; [|by split; [intros []|]]. destruct addr_tx.
    + destruct (local_addr l) as [a|] eqn:Hl; [|by eauto 10].
      split; [done|]. destruct (serve l app) as [[]|] eqn:E; [|done]. eauto 10.
    + split; [by intros []|]. destruct (serve l app) as [[]|] eqn:E; [|done]. eauto 10.
Qed.

(** The check for local addresses names one that cannot be started: without
    brackets an IPv6 address does not parse. *)
Lemma start_ipv6_loopback port app addr_tx :
  socket_syntax -> exists e, start port (txt "::1") None (Some app) addr_tx = Some (None, Err (InvalidAddress (address_text (txt "::1") port) e)).
Proof using Type.
  intros Hs. unfold start. destruct (parse_addr (address_text (txt "::1") port)) as [addr|e] eqn:Hp; [|by eexists].
  exfalso. destruct (Hs _ _ Hp) as [H|H]; [done|].
  unfold address_text in H. rewrite !count_occ_app in H. simpl in H. lia.
Qed.
End Start.
End Start.

(** ** Witnesses *)

Definition from_str_ascii (t : Text) : option Text :=
  if forallb (fun c => ((32 <=? c) && (c <=? 126)) || (c =? 9)) t then Some t else None.

Lemma from_str_ascii_law : ServeRouter.header_value_law from_str_ascii.
Proof.
  intros t. unfold from_str_ascii. pose proof (ServeRouter.header_char_bool t) as H.
  destruct (forallb _ t); [left|right]; split; try done; [by apply H|]. intros Hf%H. done.
Qed.

Definition nul_builder : ServeConfig.ServeOptionsBuilder := ServeConfig.set_csp_override [0] ServeConfig.builder.
Definition nul_options : ServeConfig.ServeOptions := ServeConfig.mkOptions (Some [0]) None false.

(** The layer, for the requests of the witness. *)
Definition pass_limit (n : Z) (next : Layers.Request -> Response) (request : Layers.Request) : Response := next request.

(** Two routes conflict when they are the same. *)
Definition same_route (r r' : Layers.Route) : bool :=
  bool_decide (Layers.route_method r = Layers.route_method r' /\ Layers.route_path r = Layers.route_path r').

Lemma same_route_law : Layers.conflict_law same_route.
Proof. intros r. by apply bool_decide_eq_true. Qed.

Definition demo_router (extra : option Layers.Router) (o : ServeConfig.ServeOptions) : option ServeRouter.App :=
  ServeRouter.build_router 4096 from_str_ascii pass_limit (mkResponse 405 [] []) (fun _ => None)
    (fun _ => mkResponse 101 [] []) same_route extra store_read Some
    Layers.permissive_for_tests WsAuth.permissive_for_tests o.

(** A consumer that shadows a probe. *)
Definition shadowing : Layers.Router :=
  Layers.mkRouter [Layers.mkRoute "GET" "/healthz"] (fun _ => None) None.

Definition demo_options : ServeConfig.ServeOptions := ServeConfig.mkOptions None None false.

(** A NUL passes the builder and not the router; nor does a second [/healthz]. *)
Lemma router_construction_witness :
  ServeConfig.build nul_builder = Ok nul_options
  /\ demo_router None nul_options = None /\ demo_router (Some shadowing) demo_options = None.
Proof.
  assert (Hb : ServeConfig.build nul_builder = Ok nul_options) by (vm_compute; reflexivity).
  split; [exact Hb|]. split.
  - apply (ServeRouter.router_construction 4096 from_str_ascii pass_limit (mkResponse 405 [] []) (fun _ => None)
      (fun _ => mkResponse 101 [] []) same_route None store_read Some nul_builder nul_options
      Layers.permissive_for_tests WsAuth.permissive_for_tests from_str_ascii_law same_route_law Hb).
    left. exists [0], 0. split; [reflexivity|]. split; [by left|]. split; [discriminate|]. left. lia.
  - destruct (ServeRouter.router_construction 4096 from_str_ascii pass_limit (mkResponse 405 [] []) (fun _ => None)
      (fun _ => mkResponse 101 [] []) same_route (Some shadowing) store_read Some ServeConfig.builder demo_options
      Layers.permissive_for_tests WsAuth.permissive_for_tests from_str_ascii_law same_route_law eq_refl) as (_&H&_).
    apply (H shadowing "/healthz"); [reflexivity|by right; right; left|by left].
Defined.

(** The projection surface with one page, no free permit, and a client that asks
    for readiness and for the page. *)
Definition demo_pages : gmap Text PageEntry := {[txt "a.txt" := PageEntry_new (fun _ => repeat 7 32) Some (txt "a.txt") [65]]}.
Definition demo_projection : option ProjectionRouter.App :=
  ProjectionRouter.build_projection_router 4096 pass_limit (mkResponse 405 [] []) (fun _ => None)
    (fun _ => mkResponse 101 [] []) same_route Layers.Router_new (fun _ => mkResponse 404 [] []) Some
    Layers.permissive_for_tests WsAuth.permissive_for_tests.
Definition get_request (p : string) : Layers.Request := Layers.mkRequest GET (txt p) (fun _ => []).

Lemma demo_projection_built : demo_projection <> None.
Proof. intros E. apply ProjectionRouter.build_projection_router_none in E as [E|[E|E]]; discriminate E. Qed.

Lemma projection_responses_witness :
  match demo_projection with
  | Some app =>
      status (ProjectionRouter.service app (ProjectionRouter.mkView (Some demo_pages) true 0 0) (get_request "/v1/readyz")) = 200
      /\ status (ProjectionRouter.service app (ProjectionRouter.mkView (Some demo_pages) true 0 0) (get_request "/v1/a.txt")) = 503
      /\ status (ProjectionRouter.service app (ProjectionRouter.mkView (Some demo_pages) true 0 0) (get_request "/x")) = 404
      /\ body (ProjectionRouter.service app (ProjectionRouter.mkView (Some demo_pages) true 1 0) (get_request "/v1/a.txt")) = [65]
  | None => False
  end.
Proof.
  destruct demo_projection as [app|] eqn:E; [|by apply demo_projection_built in E].
  pose proof (fun v request => ProjectionRouter.projection_responses 4096 pass_limit (mkResponse 405 [] []) (fun _ => None)
    (fun _ => mkResponse 101 [] []) same_route Layers.Router_new (fun _ => mkResponse 404 [] []) Some
    Layers.permissive_for_tests WsAuth.permissive_for_tests app v request E
    (fun n next request _ _ => eq_refl) ltac:(vm_compute; discriminate)) as H.
  split_and!.
  - destruct (H (ProjectionRouter.mkView (Some demo_pages) true 0 0) (get_request "/v1/readyz") eq_refl) as (_&Hp&_).
    etransitivity; [apply Hp; [vm_compute; reflexivity|discriminate]|vm_compute; reflexivity].
  - destruct (H (ProjectionRouter.mkView (Some demo_pages) true 0 0) (get_request "/v1/a.txt") eq_refl) as (_&_&Hs&_).
    apply Hs; [vm_compute; reflexivity|vm_compute; reflexivity|simpl; lia].
  - destruct (H (ProjectionRouter.mkView (Some demo_pages) true 0 0) (get_request "/x") eq_refl) as (_&_&_&Hu&_).
    apply Hu; vm_compute; reflexivity.
  - destruct (H (ProjectionRouter.mkView (Some demo_pages) true 1 0) (get_request "/v1/a.txt") eq_refl) as (_&_&_&_&Hd&_).
    destruct Hd as (_&Hb&_); [vm_compute; reflexivity|simpl; lia|discriminate|vm_compute; reflexivity|reflexivity|vm_compute; reflexivity|].
    etransitivity; [exact Hb|vm_compute; reflexivity].
Defined.


