(* ===== verification/Traffic.v ===== *)
(** * The servers under load (crate [cherry-pit-web])

    Both HTTP surfaces with the two semaphores that bound them: the permits of the
    requests in flight, taken by [http_concurrency_limit], and those of the open
    WebSocket connections, taken by [ws_handler] and held by the sessions.  Server
    answers a request for given numbers of free permits; here these numbers are
    what the requests and sessions of a run leave.

    [SurfaceLaws] states what the run needs of a router; the routers of the
    projection surface and of the serving surface discharge it, and the theorem is
    about these two. *)

From S2P Require Import Prelude Core Chars Web Pages Session Server.
Import Layers.
Local Open Scope Z_scope.

(** ** What a run needs of a surface *)

(** [respond w http ws] is the answer when [w] is what the handlers read and
    [http] and [ws] permits are free; [limited] tells the requests inside the
    concurrency limit and [opens] those that reach [ws_handler]. *)
Record Surface (W : Type) := mkSurface {
  respond : W -> Z -> Z -> Request -> Response;
  limited : Request -> bool;
  opens : Request -> bool;
}.
Arguments respond {W}. Arguments limited {W}. Arguments opens {W}.

(** The layer that limits the size of a body stays out of the way of these. *)
Definition bare (request : Request) : Prop := get (request_headers request) "content-length" = None.

Class SurfaceLaws {W} (F : Surface W) (p : WsAuth.WsPolicy) : Prop := {
  surface_outside w h k h' k' r : bare r -> limited F r = false -> respond F w h k r = respond F w h' k' r;
  surface_shed w h k r : bare r -> limited F r = true -> h <= 0 -> status (respond F w h k r) = 503;
  surface_permit w h h' k r : bare r -> limited F r = true -> 1 <= h -> 1 <= h' ->
    respond F w h k r = respond F w h' k r;
  surface_limited r : opens F r = true -> limited F r = true;
  surface_refuse w h k r st : bare r -> 1 <= h -> opens F r = true ->
    Pool.ws_handler (request_headers r) p k = Pool.Refused st -> status (respond F w h k r) = st;
}.

(** ** The run of a server *)

Section Traffic.
Context {W S : Type} `{!Pool.SessionKind S} (F : Surface W).

(** [answered] is not state of the server: the responses it gave. *)
Record Traffic := mkTraffic {
  http_free : Z;
  in_flight : gmap nat Request;
  sockets : Pool.Server (S := S);
  answered : list (Request * Response);
}.

Definition answer (t : Traffic) (r : Request) (a : Response) : Traffic :=
  mkTraffic (http_free t) (in_flight t) (sockets t) (answered t ++ [(r, a)]).

(** [http_concurrency_limit] up to its [await]: without a permit it returns, with
    one the request is in flight and holds it. *)
Definition enter (w : W) (t : Traffic) (i : nat) (r : Request) : Traffic :=
  match try_acquire (http_free t) with
  | None => answer t r (respond F w (http_free t) (Pool.available (sockets t)) r)
  | Some n => mkTraffic n (<[i := r]> (in_flight t)) (sockets t) (answered t)
  end.

(** Its end, by its return or because the future is dropped: the permit goes. *)
Definition leave (t : Traffic) (i : nat) : Traffic :=
  mkTraffic (release (http_free t)) (delete i (in_flight t)) (sockets t) (answered t).
Definition set_sockets (t : Traffic) (v : Pool.Server) : Traffic :=
  mkTraffic (http_free t) (in_flight t) v (answered t).

(** A request arrives; outside the limit it is answered, inside it enters.  In
    flight, it is answered or its connection goes away.  The answer depends on the
    state at that time; an upgrade starts a session. *)
Inductive traffic_step (t : Traffic) : Traffic -> Prop :=
| t_outside w r : bare r -> limited F r = false ->
    traffic_step t (answer t r (respond F w (http_free t) (Pool.available (sockets t)) r))
| t_enter w i r : bare r -> limited F r = true -> in_flight t !! i = None ->
    traffic_step t (enter w t i r)
| t_answer w i r : in_flight t !! i = Some r ->
    (opens F r = true ->
     exists st, Pool.ws_handler (request_headers r) (Pool.policy (sockets t)) (Pool.available (sockets t)) = Pool.Refused st) ->
    traffic_step t (answer (leave t i) r (respond F w 1 (Pool.available (sockets t)) r))
| t_upgrade w i r k n s : in_flight t !! i = Some r -> opens F r = true ->
    Pool.ws_handler (request_headers r) (Pool.policy (sockets t)) (Pool.available (sockets t)) = Pool.Upgraded n ->
    Pool.live (sockets t) !! k = None -> Pool.starts s ->
    traffic_step t (answer
      (set_sockets (leave t i) (Pool.mkServer (Pool.policy (sockets t)) n (<[k := s]> (Pool.live (sockets t)))))
      r (respond F w 1 (Pool.available (sockets t)) r))
| t_gone i r : in_flight t !! i = Some r -> traffic_step t (leave t i)
| t_turn k s s' : Pool.live (sockets t) !! k = Some s -> Pool.steps s s' ->
    traffic_step t (set_sockets t
      (Pool.mkServer (Pool.policy (sockets t)) (Pool.available (sockets t)) (<[k := s']> (Pool.live (sockets t)))))
| t_close k s : Pool.live (sockets t) !! k = Some s -> Pool.over s = true ->
    traffic_step t (set_sockets t
      (Pool.mkServer (Pool.policy (sockets t)) (Pool.available (sockets t) + 1) (delete k (Pool.live (sockets t))))).

(** A router with its two semaphores, before its first request. *)
Definition idle (http ws : Z) (p : WsAuth.WsPolicy) : Traffic := mkTraffic http ∅ (Pool.mkServer p ws ∅) [].

(** *** Invariant *)

Record TrafficInv (http ws : Z) (p : WsAuth.WsPolicy) (t : Traffic) : Prop := {
  ti_http : http_free t + Z.of_nat (size (in_flight t)) = http;
  ti_free : 0 <= http_free t;
  ti_sockets : Pool.accounted p ws (sockets t);
  ti_in_flight i r : in_flight t !! i = Some r -> bare r /\ limited F r = true;
  ti_answered : Forall (fun ra => exists w h k, snd ra = respond F w h k (fst ra)
                                  /\ 0 <= h <= http /\ 0 <= k <= ws) (answered t);
}.

Lemma inv_answer http ws p t r w h :
  TrafficInv http ws p t -> 0 <= h <= http ->
  TrafficInv http ws p (answer t r (respond F w h (Pool.available (sockets t)) r)).
Proof.
  intros [H1 H2 H3 H4 H5] Hh. split; simpl; try done. apply Forall_app. split; [done|]. apply Forall_singleton.
  destruct H3 as (_&Ha&Hs&_). exists w, h, (Pool.available (sockets t)). simpl. split; [done|]. lia.
Qed.

Lemma inv_enter http ws p t w i r :
  TrafficInv http ws p t -> bare r -> limited F r = true -> in_flight t !! i = None ->
  TrafficInv http ws p (enter w t i r).
Proof.
  intros HI Hb Hl Hi. unfold enter, try_acquire. destruct (Z.leb_spec (http_free t) 0).
  { apply inv_answer; [done|]. destruct HI. lia. }
  destruct HI as [H1 H2 H3 H4 H5]. split; simpl; try done; [rewrite map_size_insert_None by done; lia|lia|].
  intros j r' [[-> <-]|[_ Hj]]%lookup_insert_Some; [done|by eapply H4].
Qed.

Lemma inv_leave http ws p t i r :
  TrafficInv http ws p t -> in_flight t !! i = Some r -> TrafficInv http ws p (leave t i) /\ 1 <= http.
Proof.
  intros [H1 H2 H3 H4 H5] Hi. assert (Hpos : size (in_flight t) <> 0%nat).
  { intros E%map_size_empty_inv. by rewrite E in Hi. }
  split; [|lia]. unfold leave, release.
  split; simpl; try done; [rewrite map_size_delete_Some by eauto; lia|lia|].
  intros j r' [_ Hj]%lookup_delete_Some. by eapply H4.
Qed.

Lemma inv_sockets http ws p t v :
  TrafficInv http ws p t -> Pool.server_step (sockets t) v -> TrafficInv http ws p (set_sockets t v).
Proof. intros [H1 H2 H3 H4 H5] Hs. split; simpl; try done. by eapply Pool.accounted_step. Qed.

Lemma traffic_step_inv http ws p t t' : TrafficInv http ws p t -> traffic_step t t' -> TrafficInv http ws p t'.
Proof.
  intros HI Hs. pose proof HI as [H1 H2 _ _ _].
  destruct Hs as [w r Hb Hp|w i r Hb Hl Hi|w i r Hi _|w i r k n s Hi Ho Hu Hk Hst|i r Hi|k s s' Hk Hst|k s Hk Hov].
  - apply inv_answer; [done|lia].
  - by apply inv_enter.
  - destruct (inv_leave _ _ _ _ _ _ HI Hi) as [HI' ?].
    apply (inv_answer _ _ _ (leave t i) r w 1); [done|lia].
  - destruct (inv_leave _ _ _ _ _ _ HI Hi) as [HI' ?].
    pose proof (inv_answer _ _ _ (leave t i) r w 1 HI' ltac:(lia)) as HA.
    apply (inv_sockets _ _ _ (answer (leave t i) r (respond F w 1 (Pool.available (sockets t)) r))); [done|].
    by eapply Pool.v_upgrade.
  - by eapply inv_leave.
  - apply inv_sockets; [done|]. by eapply Pool.v_turn.
  - apply inv_sockets; [done|]. by eapply Pool.v_drop.
Qed.

Lemma idle_inv http ws p : 0 <= http -> 0 <= ws -> TrafficInv http ws p (idle http ws p).
Proof.
  intros Hh Hw. split; simpl; try done; [rewrite map_size_empty; lia|].
  split_and!; simpl; try done. rewrite map_size_empty. lia.
Qed.

(** What a request meets at time [t], of a server with [http] and [ws] permits. *)
Definition meets (p : WsAuth.WsPolicy) (http ws : Z) (t : Traffic) (w : W) (r : Request) : Prop :=
  let full := Z.of_nat (size (in_flight t)) = http in
  let a := respond F w (http_free t) (Pool.available (sockets t)) r in
  (limited F r = false -> a = respond F w http ws r)
  /\ (limited F r = true -> full -> status a = 503 /\ forall i, in_flight t !! i = None -> enter w t i r = answer t r a)
  /\ (limited F r = true -> ~ full ->
      a = respond F w 1 (Pool.available (sockets t)) r
      /\ exists i, traffic_step t (enter w t i r) /\ in_flight (enter w t i r) = <[i := r]> (in_flight t))
  /\ (opens F r = true -> ~ full ->
      (WsAuth.validate_ws_origin (request_headers r) (WsAuth.origin_policy p) = false -> status a = 403)
      /\ (WsAuth.validate_ws_origin (request_headers r) (WsAuth.origin_policy p) = true ->
          if bool_decide (Z.of_nat (size (Pool.live (sockets t))) = ws) then status a = 503
          else exists n, Pool.ws_handler (request_headers r) p (Pool.available (sockets t)) = Pool.Upgraded n)).

Context (p : WsAuth.WsPolicy) {laws : SurfaceLaws F p}.

Lemma invariant_meets http ws t w r : TrafficInv http ws p t -> bare r -> meets p http ws t w r.
Proof using laws.
  intros [H1 H2 (Hp&Ha&Hs&_) _ H5] Hb. unfold meets. cbv zeta. split_and!.
  - intros Hpr. by apply (surface_outside (p := p)).
  - intros Hpr Hfull. split; [apply (surface_shed (p := p)); [done|done|lia]|]. intros i _. unfold enter, try_acquire.
    by rewrite (proj2 (Z.leb_le _ _)) by lia.
  - intros Hpr Hn. split; [apply (surface_permit (p := p)); try done; lia|].
    exists (fresh (dom (in_flight t))). split; [apply t_enter; [done|done|]; apply not_elem_of_dom, is_fresh|].
    unfold enter, try_acquire. by rewrite (proj2 (Z.leb_gt _ _)) by lia.
  - intros Ho Hn. assert (1 <= http_free t) by lia.
    assert (Href : forall st, Pool.ws_handler (request_headers r) p (Pool.available (sockets t)) = Pool.Refused st ->
      status (respond F w (http_free t) (Pool.available (sockets t)) r) = st) by (intros st; by apply surface_refuse).
    unfold Pool.ws_handler in *. split; intros Hv; rewrite Hv in Href; simpl in Href; [by apply Href|].
    rewrite Hv. simpl. destruct (Z.leb_spec (Pool.available (sockets t)) 0).
    + rewrite bool_decide_true by lia. by apply Href.
    + rewrite bool_decide_false by lia. eauto.
Qed.
End Traffic.

(** ** The two surfaces *)

Definition has_route (request : Request) : bool := match method request with OtherMethod => false | _ => true end.

Section Surfaces.
Context (max_permits : Z) (HeaderValue_from_str : Text -> option Text).
Context (body_limit : Z -> (Request -> Response) -> Request -> Response).
Context (method_not_allowed : Response) (not_an_upgrade : Request -> option Response) (switching : Request -> Response).
Context (conflict : Route -> Route -> bool) (unmatched : Request -> Response).
Context (zstd_read : Body -> Z -> option Body) (percent_decode : Text -> option Text).
Context (limits : LayerLimits) (p : WsAuth.WsPolicy).
Context (passes : body_limit_law body_limit) (some_bytes : 1 <= max_body_bytes limits).

(** A [GET] of [/ws] that is an upgrade. *)
Definition opens_socket (at_ws : Request -> bool) (request : Request) : bool :=
  at_ws request && has_route request && bool_decide (not_an_upgrade request = None).

Lemma opens_inv at_ws request : opens_socket at_ws request = true ->
  at_ws request = true /\ method request <> OtherMethod /\ not_an_upgrade request = None.
Proof using Type.
  unfold opens_socket, has_route. rewrite !andb_true_iff. intros [[Hp Hm] Hu%bool_decide_eq_true].
  split_and!; [done| |done]. by intros E; rewrite E in Hm.
Qed.

Lemma at_one_route taken q q' request :
  at_route taken q request = true -> txt q <> txt q' -> at_route taken q' request = false.
Proof using Type.
  unfold at_route, path_is. intros [->%bool_decide_eq_true _]%andb_true_iff Hne. by rewrite bool_decide_false.
Qed.

Notation build_projection_router extra := (ProjectionRouter.build_projection_router max_permits body_limit
  method_not_allowed not_an_upgrade switching conflict extra unmatched percent_decode).
Notation build_router extra := (ServeRouter.build_router max_permits HeaderValue_from_str body_limit
  method_not_allowed not_an_upgrade switching conflict extra zstd_read percent_decode).

Definition projection_surface (extra : Router) (app : ProjectionRouter.App)
    : Surface (option (gmap Text PageEntry) * bool) :=
  mkSurface _ (fun w h k => ProjectionRouter.service app (ProjectionRouter.mkView (fst w) (snd w) h k))
    (fun r => negb (ProjectionRouter.is_probe extra r) && ProjectionRouter.in_data_plane extra r)
    (opens_socket (ProjectionRouter.at_own extra "/ws")).

Lemma projection_surface_laws extra app :
  build_projection_router extra limits p = Some app -> SurfaceLaws (projection_surface extra app) p.
Proof using passes some_bytes.
  intros Hb. assert (Hserve : forall v r, bare r -> ProjectionRouter.service app v r
    = ProjectionRouter.planes method_not_allowed not_an_upgrade switching extra unmatched percent_decode p v r).
  { intros v r Hr. by eapply ProjectionRouter.projection_service. }
  assert (Hws : forall r, ProjectionRouter.at_own extra "/ws" r = true ->
    negb (ProjectionRouter.is_probe extra r) && ProjectionRouter.in_data_plane extra r = true).
  { intros r Hws. unfold ProjectionRouter.is_probe, ProjectionRouter.in_data_plane. rewrite Hws.
    unfold ProjectionRouter.at_own in *. by rewrite !(at_one_route _ "/ws" _ _ Hws) by done. }
  split; simpl.
  - intros w h k h' k' r Hr Hl. rewrite !Hserve by done. unfold ProjectionRouter.planes.
    destruct (ProjectionRouter.is_probe extra r); [done|]. simpl in Hl. by rewrite Hl.
  - intros w h k r Hr [Hp%negb_true_iff Hd]%andb_true_iff Hh. rewrite Hserve by done. by apply ProjectionRouter.planes_shed.
  - intros w h h' k r Hr [Hp%negb_true_iff Hd]%andb_true_iff Hh Hh'. rewrite !Hserve by done.
    unfold ProjectionRouter.planes. rewrite Hp, Hd. cbn [ProjectionRouter.http_permits]. by rewrite !limit_passes.
  - intros r (Hat&_&_)%opens_inv. by apply Hws.
  - intros w h k r st Hr Hh (Hat&Hm&Hu)%opens_inv Href. rewrite Hserve by done.
    rewrite ProjectionRouter.planes_ws by done. revert Href. unfold Pool.ws_handler. cbn [ProjectionRouter.ws_permits].
    destruct (WsAuth.validate_ws_origin _ _); simpl; [|congruence]. destruct (k <=? 0); congruence.
Qed.

Definition serving_surface (extra : option Router) (app : ServeRouter.App)
    : Surface (option (gmap Text CachedPage) * bool) :=
  mkSurface _ (fun w h k => ServeRouter.service app (ServeRouter.mkView (fst w) (snd w) h k))
    (fun r => negb (ServeRouter.is_probe extra r)) (opens_socket (ServeRouter.at_own extra "/ws")).

Lemma serving_surface_laws extra o app :
  build_router extra limits p o = Some app -> SurfaceLaws (serving_surface extra app) p.
Proof using passes some_bytes.
  intros (csp&_&->)%ServeRouter.build_router_inv.
  assert (Hin : forall n next r, bare r -> 1 <= n -> body_limit n next r = next r) by (intros; by apply passes).
  split; simpl; unfold ServeRouter.routed.
  - intros w h k h' k' r Hr Hp%negb_false_iff. rewrite !Hin by done. by rewrite Hp.
  - intros w h k r Hr Hp%negb_true_iff Hh. rewrite Hin by done. by rewrite Hp, limit_sheds.
  - intros w h h' k r Hr Hp%negb_true_iff Hh Hh'. rewrite !Hin by done. rewrite Hp. simpl. by rewrite !limit_passes.
  - intros r (Hws&_&_)%opens_inv. unfold ServeRouter.is_probe, ServeRouter.at_own in *.
    by rewrite !(at_one_route _ "/ws" _ _ Hws) by done.
  - intros w h k r st Hr Hh (Hws&Hm&Hu)%opens_inv Href. rewrite Hin by done. unfold ServeRouter.is_probe.
    unfold ServeRouter.at_own in *. rewrite !(at_one_route _ "/ws" _ _ Hws) by done. cbn [orb].
    rewrite limit_passes by done. unfold ServeRouter.data_plane, ServeRouter.at_own.
    rewrite (at_one_route _ "/ws" "/favicon.ico" _ Hws), Hws, Hin by done.
    rewrite method_get_handler by done. unfold ServeRouter.ws_route. simpl. rewrite Hu, Href.
    by destruct (seen_by_head r (mkResponse st [] [])).
Qed.

Lemma projection_semaphores extra app :
  build_projection_router extra limits p = Some app ->
  ProjectionRouter.http_semaphore app = max_inflight_requests limits
  /\ ProjectionRouter.ws_semaphore app = WsAuth.max_connections p.
Proof using Type.
  unfold ProjectionRouter.build_projection_router, semaphore. do 2 (destruct (_ <=? _); [|done]).
  destruct (overlapping _ _ _); [done|]. by intros [= <-].
Qed.

(** A server that one of the two routers made, with its semaphores. *)
Inductive built : forall W, Surface W -> Z -> Z -> Prop :=
| built_projection extra app : build_projection_router extra limits p = Some app ->
    built _ (projection_surface extra app) (ProjectionRouter.http_semaphore app) (ProjectionRouter.ws_semaphore app)
| built_serving extra o app : build_router extra limits p o = Some app ->
    built _ (serving_surface extra app) (ServeRouter.http_semaphore app) (ServeRouter.ws_semaphore app).

Lemma built_laws W (F : Surface W) http ws :
  0 <= max_permits -> 1 <= max_inflight_requests limits -> 1 <= WsAuth.max_connections p ->
  built W F http ws ->
  SurfaceLaws F p /\ 0 <= http <= max_inflight_requests limits /\ 0 <= ws <= WsAuth.max_connections p.
Proof using passes some_bytes.
  intros Hm Hi Hc [extra app Hb|extra o app Hb].
  - split; [by apply projection_surface_laws|]. destruct (projection_semaphores _ _ Hb). lia.
  - split; [by eapply serving_surface_laws|]. apply ServeRouter.build_router_inv in Hb as (csp&_&->). simpl. lia.
Qed.

(** C30: A server sheds load when it is full and only then, and recovers.  For every
    router that [build_projection_router] or [build_router] of the serving surface
    makes, and in every run of requests without a body that arrive, are answered or
    lose their connection, and of WebSocket sessions that open, take turns and end:
    each permit of its semaphores is free or held by one request in flight, or by
    one session, so no more requests and sessions than the limits are ever open and
    none of the permits is lost.  A request outside the concurrency limit, a probe
    in particular, is answered the same whatever the load.  Any other request is
    shed with 503 exactly when all permits are in use, and otherwise admitted, to
    an answer that no longer depends on the requests in flight.  A WebSocket
    request is refused with 403 for its origin, with 503 when the connection limit
    is reached, and no sooner. *)
Theorem server_load {W S} `{!Pool.SessionKind S} (F : Surface W) http ws (t : Traffic (S := S)) :
  0 <= max_permits -> 1 <= max_inflight_requests limits -> 1 <= WsAuth.max_connections p ->
  built W F http ws -> rtc (traffic_step F) (idle http ws p) t ->
  http <= max_inflight_requests limits /\ ws <= WsAuth.max_connections p
  /\ http_free t + Z.of_nat (size (in_flight t)) = http /\ 0 <= http_free t
  /\ Pool.available (sockets t) + Z.of_nat (size (Pool.live (sockets t))) = ws /\ 0 <= Pool.available (sockets t)
  /\ Forall (fun ra => exists w h k, snd ra = respond F w h k (fst ra) /\ 0 <= h <= http /\ 0 <= k <= ws) (answered t)
  /\ (forall w r, bare r -> meets F p http ws t w r).
Proof using passes some_bytes.
  intros Hm Hi Hc Hb Hrun. destruct (built_laws W F http ws Hm Hi Hc Hb) as (Hlaws&Hh&Hw).
  assert (HI : TrafficInv F http ws p t).
  { eapply (rtc_invariant (traffic_step F) _ (traffic_step_inv F http ws p)); [exact Hrun|apply idle_inv; lia]. }
  pose proof HI as [H1 H2 (_&Ha&Hs&_) _ H5]. split_and!; try done; try lia.
  intros w r Hr. by apply invariant_meets.
Qed.
End Surfaces.

(** ** Witness: one request in flight, where one is the limit *)

Definition one_at_a_time : LayerLimits := mkLimits 1024 1.
Definition one_socket : WsAuth.WsPolicy := WsAuth.mkWsPolicy 1 WsAuth.AllowAbsent.
Definition small_router : option ProjectionRouter.App :=
  ProjectionRouter.build_projection_router 4096 pass_limit (mkResponse 405 [] []) (fun _ => None)
    (fun _ => mkResponse 101 [] []) same_route Router_new (fun _ => mkResponse 404 [] []) Some one_at_a_time one_socket.

Lemma server_load_witness :
  match small_router with
  | Some app =>
      let surface := projection_surface (fun _ => None) Router_new app in
      let t := enter (S := ProjectionWs.Session) surface (None, true) (idle 1 1 one_socket) 0 (get_request "/v1/a.txt") in
      rtc (traffic_step surface) (idle 1 1 one_socket) t
      /\ status (respond surface (None, true) (http_free t) (Pool.available (sockets t)) (get_request "/v1/b.txt")) = 503
      /\ respond surface (None, true) (http_free t) (Pool.available (sockets t)) (get_request "/v1/readyz")
         = respond surface (None, true) 1 1 (get_request "/v1/readyz")
  | None => False
  end.
Proof.
  destruct small_router as [app|] eqn:E;
    [|apply ProjectionRouter.build_projection_router_none in E as [E|[E|E]]; discriminate E].
  cbv zeta. set (surface := projection_surface (fun _ => None) Router_new app).
  assert (Hb : built 4096 from_str_ascii pass_limit (mkResponse 405 [] []) (fun _ => None)
    (fun _ => mkResponse 101 [] []) same_route (fun _ => mkResponse 404 [] []) store_read Some one_at_a_time one_socket
    _ surface 1 1).
  { assert (ProjectionRouter.http_semaphore app = 1 /\ ProjectionRouter.ws_semaphore app = 1) as [Eh Ew].
    { exact (projection_semaphores _ _ _ _ _ _ _ _ _ _ _ _ E). }
    rewrite <- Eh at 1. rewrite <- Ew. by apply built_projection. }
  set (t := enter (S := ProjectionWs.Session) surface (None, true) (idle 1 1 one_socket) 0 (get_request "/v1/a.txt")).
  assert (Hstep : rtc (traffic_step surface) (idle 1 1 one_socket) t).
  { apply rtc_once. apply t_enter; [reflexivity|vm_compute; reflexivity|reflexivity]. }
  split; [exact Hstep|].
  destruct (server_load 4096 from_str_ascii pass_limit (mkResponse 405 [] []) (fun _ => None)
    (fun _ => mkResponse 101 [] []) same_route (fun _ => mkResponse 404 [] []) store_read Some one_at_a_time one_socket
    (fun n next request _ _ => eq_refl) ltac:(vm_compute; discriminate) surface 1 1 t ltac:(lia)
    ltac:(vm_compute; discriminate) ltac:(vm_compute; discriminate) Hb Hstep) as (_&_&_&_&_&_&_&H).
  split.
  - exact (proj1 (proj1 (proj2 (H (None, true) (get_request "/v1/b.txt") eq_refl)) eq_refl eq_refl)).
  - exact (proj1 (H (None, true) (get_request "/v1/readyz") eq_refl) eq_refl).
Defined.
