(* ===== verification/Api.v ===== *)
(** * The command surface (crate [cherry-pit-web], [router.rs], [command_router.rs], [state.rs])

    The routes under [/v1]: creating an aggregate, sending it a command and
    loading its events, with the extractors that run before the handlers, the
    routes that the consumer merges with them, and the correlation layer of
    [middleware/mod.rs] that runs around all of them.  The gateway, its replay
    store for idempotency keys and the translation of wire DTOs belong to the
    consumer: they are the class [CommandRouter] and what its documentation asks
    of it is [RouterContract]; the store is any [EventStore] that keeps its
    contract. *)

From S2P Require Import Prelude Core Store Chars Web Pages Session Server.
Import Envelope EnvelopeFacts.

Inductive DispatchOutcome := Created (id : AggregateId) | Sent.

(** The port of [command_router.rs], over the state [W] of the store and of what
    the consumer keeps beside it. *)
Class CommandRouter (W Wire : Type) := {
  dispatch : W -> CorrelationContext -> option Text -> Wire -> W * result DispatchOutcome ErrorMap.ErrorResponse;
  target_aggregate_id : Wire -> option AggregateId;
}.

Record LoadedEvent (Ev : Type) := mkLoaded {
  le_event_id : Uuid;
  le_sequence : Z;
  le_event_type : string;
  le_payload : Ev;
}.
Arguments mkLoaded {Ev}. Arguments le_event_id {Ev}. Arguments le_sequence {Ev}.
Arguments le_event_type {Ev}. Arguments le_payload {Ev}.

Inductive Content (Ev : Type) :=
| NoContent
| CreatedBody (id : AggregateId)
| LoadedBody (id : AggregateId) (events : list (LoadedEvent Ev))
| ErrorContent (b : ErrorMap.ErrorBody).
Arguments NoContent {Ev}. Arguments CreatedBody {Ev}. Arguments LoadedBody {Ev}. Arguments ErrorContent {Ev}.

Record ApiResponse (Ev : Type) := mkApi {
  code : Z;
  retry_after : option string;
  correlation_header : option string;
  content : Content Ev;
}.
Arguments mkApi {Ev}. Arguments code {Ev}. Arguments retry_after {Ev}.
Arguments correlation_header {Ev}. Arguments content {Ev}.

Inductive Verb := Post | Get | Head | OtherVerb.
Record ApiRequest := mkApiRequest { verb : Verb; path : Text; request_headers : HeaderMap; payload_text : Text }.

Inductive PathBodyAgreement := Agrees | Mismatch | BodyDeclaresNoTarget.

Definition resolve (path : AggregateId) (body : option AggregateId) : PathBodyAgreement :=
  match body with
  | Some target => if decide (target = path) then Agrees else Mismatch
  | None => BodyDeclaresNoTarget
  end.


Section Api.
(** [Gs] is the state of the consumer beside the store. *)
Context {Ev Wire Gs : Type} (St : EventStore Ev) `{!CommandRouter (es_state St * Gs) Wire}.
(** [DomainEvent::event_type]; the rendering and parsing of UUIDs; the
    deserialization of a body, with the status of a rejection; percent-decoding. *)
Context (event_type : Ev -> string) (show_uuid : Uuid -> string) (uuid_parse_str : Text -> option Uuid).
Context (parse_json : Text -> result Wire Z) (percent_decode : Text -> option Text).
(** The answer of the body-limit layer to a request that declares too large a body. *)
Context (too_large : ApiRequest -> option Z).

(** [Semaphore::MAX_PERMITS], and which routes axum does not merge. *)
Context (max_permits : Z) (conflict : Layers.Route -> Layers.Route -> bool).

#[local] Abbreviation W := (es_state St * Gs)%type.
#[local] Abbreviation Answer := (W * ApiResponse Ev)%type.

(** The router of the consumer: its routes, which may do anything, and its
    fallback, if it set one. *)
Record ExtraRoutes := mkExtra {
  declared : list Layers.Route;
  takes : W -> ApiRequest -> option Answer;
  fallback : option (W -> ApiRequest -> Answer);
}.
Context (extra_routes : ExtraRoutes).

Definition plain (st : Z) (c : Content Ev) : ApiResponse Ev := mkApi st None None c.
Definition mapped (e : ErrorMap.ErrorResponse) : ApiResponse Ev :=
  mkApi (ErrorMap.status e) (ErrorMap.retry_after e) None (ErrorContent (ErrorMap.body e)).
Definition refusal (code message : string) (ctx : CorrelationContext) : Content Ev :=
  ErrorContent (ErrorMap.with_correlation show_uuid (ErrorMap.mkBody code message None) ctx).

Definition create_handler (w : W) (headers : HeaderMap) (wire : Wire) : Answer :=
  let ctx := TraceContext.extract_correlation uuid_parse_str headers in
  let idempotency := TraceContext.extract_idempotency_key headers in
  let '(w', outcome) := dispatch w ctx idempotency wire in
  (w', match outcome with
       | Ok (Created id) => plain 201 (CreatedBody id)
       | Ok Sent => plain 500 (refusal "router_misroute" "router returned Sent on create endpoint" ctx)
       | Err e => mapped e
       end).

Definition send_handler (w : W) (id : AggregateId) (headers : HeaderMap) (wire : Wire) : Answer :=
  let ctx := TraceContext.extract_correlation uuid_parse_str headers in
  match resolve id (target_aggregate_id wire) with
  | Mismatch =>
      (w, plain 400 (refusal "path_body_target_mismatch"
                       "path aggregate id disagrees with the command's target aggregate" ctx))
  | BodyDeclaresNoTarget =>
      (w, plain 400 (refusal "path_body_target_absent"
                       "command names no target aggregate, so the path aggregate id cannot be confirmed" ctx))
  | Agrees =>
      let idempotency := TraceContext.extract_idempotency_key headers in
      let '(w', outcome) := dispatch w ctx idempotency wire in
      (w', match outcome with
           | Ok Sent => plain 200 NoContent
           | Ok (Created a) =>
               plain 500 (refusal "router_misroute"
                            ("router returned Created(" +:+ AggregateId_display a +:+ ") on send endpoint") ctx)
           | Err e => mapped e
           end)
  end.

Definition loaded (env : EventEnvelope Ev) : LoadedEvent Ev :=
  mkLoaded (event_id env) (sequence env) (event_type (payload env)) (payload env).

Definition load_handler (w : W) (id : AggregateId) : Answer :=
  let '(s', r) := es_load St (fst w) id in
  ((s', snd w), match r with
       | Ok envelopes => plain 200 (LoadedBody id (map loaded envelopes))
       | Err err => mapped (ErrorMap.map_store_error err)
       end).

(** [Path<NonZeroU64>]: a rejection is a 400. *)
Definition path_id (segment : Text) : option AggregateId :=
  match percent_decode segment with
  | Some t =>
      match from_str_radix U64_MAX 10 t with
      | Some n => AggregateId_new <$> NonZeroU64_new n
      | None => None
      end
  | None => None
  end.

(** A [HEAD] request is served by the handler of [get], without its body. *)
Definition without_body (a : Answer) : Answer :=
  (fst a, mkApi (code (snd a)) (retry_after (snd a)) (correlation_header (snd a)) NoContent).

Definition v1_paths : list Layers.Route :=
  [Layers.mkRoute "POST" "/v1/aggregates"; Layers.mkRoute "GET" "/v1/aggregates/{id}";
   Layers.mkRoute "POST" "/v1/aggregates/{id}/commands"].

(** The built-in handler for the path, by method: [v1_routes], the extractors of
    each handler in their order. *)
Definition v1_routes (w : W) (r : ApiRequest) : option Answer :=
  let with_id segment (k : AggregateId -> Answer) : Answer :=
    match path_id segment with Some id => k id | None => (w, plain 400 NoContent) end in
  let with_wire (k : Wire -> Answer) : Answer :=
    match parse_json (payload_text r) with Ok wire => k wire | Err st => (w, plain st NoContent) end in
  let post (k : Answer) : Answer := match verb r with Post => k | _ => (w, plain 405 NoContent) end in
  let get (k : Answer) : Answer :=
    match verb r with Get => k | Head => without_body k | _ => (w, plain 405 NoContent) end in
  match split 47 (path r) with
  | [e; v1; aggregates] =>
      if bool_decide (e = [] /\ v1 = txt "v1" /\ aggregates = txt "aggregates")
      then Some (post (with_wire (create_handler w (request_headers r)))) else None
  | [e; v1; aggregates; id] =>
      if bool_decide (e = [] /\ v1 = txt "v1" /\ aggregates = txt "aggregates" /\ id <> [])
      then Some (get (with_id id (load_handler w))) else None
  | [e; v1; aggregates; id; commands] =>
      if bool_decide (e = [] /\ v1 = txt "v1" /\ aggregates = txt "aggregates" /\ id <> [] /\ commands = txt "commands")
      then Some (post (with_id id (fun id => with_wire (send_handler w id (request_headers r))))) else None
  | _ => None
  end.

(** The path of [create] is the only one without a parameter: no route of another
    path can come before it. *)
Definition creates (r : ApiRequest) : bool := bool_decide (path r = txt "/v1/aggregates") &&
  match verb r with Post => true | _ => false end.

(** The consumer's answer, when one of its routes is the match. *)
Definition extra_takes (w : W) (r : ApiRequest) : option Answer :=
  if creates r then None else takes extra_routes w r.

(** The merged router: a route of the consumer that matches is either more specific
    than a built-in one or has another method. *)
Definition routes (w : W) (r : ApiRequest) : Answer :=
  match extra_takes w r with
  | Some a => a
  | None =>
      match v1_routes w r with
      | Some a => a
      | None => default (fun w _ => (w, plain 404 NoContent)) (fallback extra_routes) w r
      end
  end.

(** [correlation_layer] around the routes. *)
Definition serve (w : W) (r : ApiRequest) : Answer :=
  let ctx := TraceContext.extract_correlation uuid_parse_str (request_headers r) in
  let '(w', a) := routes w r in
  (w', mkApi (code a) (retry_after a) (show_uuid <$> correlation_id ctx) (content a)).

(** The layers of [build_router] around that: the body limit, and the concurrency
    limit with [permits] free. *)
Definition service (permits : Z) (w : W) (r : ApiRequest) : Answer :=
  match Layers.try_acquire permits with
  | None => (w, plain 503 NoContent)
  | Some _ => match too_large r with Some st => (w, plain st NoContent) | None => serve w r end
  end.

(** [build_router]: the semaphore and the service; [None] is a panic, of
    [Semaphore::new] or of [Router::merge]. *)
Definition build_router (limits : Layers.LayerLimits) : option (Z * (Z -> W -> ApiRequest -> Answer)) :=
  match Layers.semaphore max_permits (Layers.max_inflight_requests limits) with
  | Some http_semaphore =>
      if Layers.overlapping conflict v1_paths (declared extra_routes) then None
      else Some (http_semaphore, service)
  | None => None
  end.

(** ** What a request can do *)

(** The consumer answers the request itself, by a route or by its fallback. *)
Definition consumer_answer (w : W) (r : ApiRequest) : option Answer :=
  match extra_takes w r with
  | Some a => Some a
  | None => match v1_routes w r with
            | Some _ => None
            | None => (fun f => f w r) <$> fallback extra_routes
            end
  end.

(** The state after a request, by the handler that ran. *)
Definition effect (w : W) (r : ApiRequest) (w' : W) : Prop :=
  let ctx := TraceContext.extract_correlation uuid_parse_str (request_headers r) in
  let key := TraceContext.extract_idempotency_key (request_headers r) in
  w' = w
  \/ ((verb r = Get \/ verb r = Head) /\ exists id, w' = (fst (es_load St (fst w) id), snd w))
  \/ (verb r = Post /\ exists wire, parse_json (payload_text r) = Ok wire /\ w' = fst (dispatch w ctx key wire)
      /\ (length (split 47 (path r)) = 3%nat
          \/ exists segment id, split 47 (path r) !! 3%nat = Some segment /\ path_id segment = Some id
                               /\ target_aggregate_id wire = Some id)).

Lemma send_effect w id headers wire :
  (exists t, target_aggregate_id wire = Some t /\ t = id
     /\ fst (send_handler w id headers wire)
        = fst (dispatch w (TraceContext.extract_correlation uuid_parse_str headers)
                 (TraceContext.extract_idempotency_key headers) wire))
  \/ fst (send_handler w id headers wire) = w.
Proof using Type.
  unfold send_handler, resolve. destruct (target_aggregate_id wire) as [t|]; [|by right].
  destruct (decide (t = id)) as [->|]; [|by right]. left. exists id. split; [done|]. split; [done|].
  by destruct (dispatch _ _ _ wire).
Qed.

Lemma load_effect w id : fst (load_handler w id) = (fst (es_load St (fst w) id), snd w).
Proof using Type. unfold load_handler. by destruct (es_load St (fst w) id). Qed.

Lemma v1_routes_effect w r a : v1_routes w r = Some a -> effect w r (fst a).
Proof using Type.
  unfold effect, v1_routes. destruct (split 47 (path r)) as [|e [|v1 [|ag [|id [|cmd [|]]]]]]; try done.
  - destruct (bool_decide _); [|done]. intros [= <-]. destruct (verb r) eqn:Hv; try (by left).
    destruct (parse_json (payload_text r)) as [wire|st]; [|by left]. right; right. split; [done|]. exists wire.
    split; [done|]. split; [|by left]. unfold create_handler. by destruct (dispatch _ _ _ wire).
  - destruct (bool_decide _); [|done]. intros [= <-]. destruct (verb r) eqn:Hv; try (by left).
    all: destruct (path_id id) as [i|]; [|by left]; right; left; (split; [by auto|]); exists i; apply load_effect.
  - destruct (bool_decide _); [|done]. intros [= <-]. destruct (verb r) eqn:Hv; try (by left).
    destruct (path_id id) as [i|] eqn:Ha; [|by left]. destruct (parse_json (payload_text r)) as [wire|st]; [|by left].
    destruct (send_effect w i (request_headers r) wire) as [(t&Ht&->&->)| ->]; [|by left].
    right; right. split; [done|]. exists wire. split; [done|]. split; [done|]. right. by exists id, i.
Qed.

Lemma routes_effect w r :
  consumer_answer w r = Some (routes w r) \/ consumer_answer w r = None /\ effect w r (fst (routes w r)).
Proof using Type.
  unfold consumer_answer, routes. destruct (extra_takes w r); [by left|].
  destruct (v1_routes w r) as [a|] eqn:Hv; [right; split; [done|by apply v1_routes_effect]|].
  destruct (fallback extra_routes); [by left|]. right. split; [done|by left].
Qed.

(** C26: What a request to the command surface can change, for any gateway, any
    store and any routes of the consumer.  If the consumer answers it, by a route
    of its own or its fallback, what that does; otherwise nothing, or what loading
    one aggregate changes, or what one dispatch of the decoded command does, with
    the correlation and the idempotency key of its headers; and a command posted to
    an aggregate is dispatched only if the body names that same aggregate.  A
    request that was let in is answered with the correlation id it carries, and one
    that was shed changes nothing and is answered without it.  The router can be
    built unless its limit exceeds what a semaphore holds or a route of the
    consumer overlaps a built-in one. *)
Theorem api_dispatch_guarded limits permits w r :
  (build_router limits = None <-> max_permits < Layers.max_inflight_requests limits
     \/ Layers.overlapping conflict v1_paths (declared extra_routes) = true)
  /\ forall n app, build_router limits = Some (n, app) ->
     let '(w', a) := app permits w r in
     n = Layers.max_inflight_requests limits
     /\ (effect w r w' \/ exists c, consumer_answer w r = Some c /\ w' = fst c)
     /\ (consumer_answer w r = None -> effect w r w')
     /\ (1 <= permits -> too_large r = None ->
         correlation_header a
         = (show_uuid <$> correlation_id (TraceContext.extract_correlation uuid_parse_str (request_headers r))))
     /\ (permits <= 0 -> w' = w /\ code a = 503 /\ correlation_header a = None).
Proof using Type.
  unfold build_router, Layers.semaphore. split.
  { destruct (Z.leb_spec (Layers.max_inflight_requests limits) max_permits), (Layers.overlapping _ _ _);
      split; try done; try lia; intros _; auto. }
  destruct (_ <=? max_permits); [|done]. destruct (Layers.overlapping _ _ _); [done|]. intros n app [= <- <-].
  unfold service, Layers.try_acquire.
  destruct (Z.leb_spec permits 0) as [Hp|Hp]; [split_and!; [done|by left; left|by left|lia|done]|].
  destruct (too_large r) as [st|]; [split_and!; [done|by left; left|by left|done|lia]|].
  pose proof (routes_effect w r) as He. unfold serve. destruct (routes w r) as [w' a]. split_and!; [done| | |done|lia].
  - destruct He as [He|[_ He]]; [right; by exists (w', a)|by left].
  - by destruct He as [->|[_ He]].
Qed.

(** ** Reading what was created *)







Context (Inv : es_state St -> Prop) (view : es_state St -> AggregateId -> list (EventEnvelope Ev))
        {laws : EventStoreLaws St Inv view}.

(** One call of the store. *)
Inductive store_step (s : es_state St) : es_state St -> Prop :=
| store_creates events ctx : store_step s (fst (es_create St s events ctx))
| store_appends id expected events ctx : store_step s (fst (es_append St s id expected events ctx))
| store_loads id : store_step s (fst (es_load St s id)).






(** What the consumer's replay store holds under an idempotency key. *)
Context (replayed : Gs -> Text -> option AggregateId).

(** What the documentation of the port asks of a consumer's router.  It reaches the
    store only through the calls of the port; an aggregate it reports as created was
    created there by this call, with the correlation it was given, or, for a
    duplicate under an idempotency key, is what the replay store holds; and the
    replay store holds under a key what a call with that key reported. *)
Class RouterContract : Prop := {
  router_stores w ctx key wire : rtc store_step (fst w) (fst (fst (dispatch w ctx key wire)));
  router_created w ctx key wire w' id : dispatch w ctx key wire = (w', Ok (Created id)) ->
    (exists s s' events envs, rtc store_step (fst w) s /\ es_create St s events ctx = (s', Ok (id, envs))
       /\ rtc store_step s' (fst w'))
    \/ exists k, key = Some k /\ replayed (snd w) k = Some id;
  router_replays w ctx key wire w' o k id : dispatch w ctx key wire = (w', o) ->
    replayed (snd w') k = Some id -> replayed (snd w) k = Some id \/ key = Some k /\ o = Ok (Created id);
}.
Context {contract : RouterContract}.











End Api.

(** ** Witness *)

(** A router over the in-memory store: a wire DTO is one event to create with, and
    an association list is the replay store. *)
Definition Replays : Type := list (Text * AggregateId).
Fixpoint replay_of (l : Replays) (k : Text) : option AggregateId :=
  match l with [] => None | (k', id) :: l => if decide (k' = k) then Some id else replay_of l k end.

Definition create_new (w : InMemory.InMemoryEventStore Z * Replays) (ctx : CorrelationContext) (key : option Text) (wire : Z)
    : (InMemory.InMemoryEventStore Z * Replays) * result DispatchOutcome ErrorMap.ErrorResponse :=
  let '(s', r) := InMemory.create (fst w) [wire] ctx in
  match r with
  | Ok (id, _) => ((s', match key with Some k => (k, id) :: snd w | None => snd w end), Ok (Created id))
  | Err e => ((s', snd w), Err (ErrorMap.map_store_error e))
  end.

#[local] Instance demo_router : CommandRouter (es_state (InMemory.store Z) * Replays) Z := {
  dispatch w ctx key wire :=
    match key ≫= replay_of (snd w) with Some id => (w, Ok (Created id)) | None => create_new w ctx key wire end;
  target_aggregate_id wire := None;
}.

Lemma create_new_step (s : InMemory.InMemoryEventStore Z) (l : Replays) ctx key wire :
  store_step (InMemory.store Z) s (fst (fst (create_new (s, l) ctx key wire))).
Proof.
  pose proof (store_creates (InMemory.store Z) s [wire] ctx) as H. unfold create_new. cbn [fst].
  change (es_create (InMemory.store Z)) with (InMemory.create (Ev := Z)) in H. revert H.
  by destruct (InMemory.create s [wire] ctx) as [s' [[id envs]|e]].
Qed.

#[local] Instance demo_contract : RouterContract (InMemory.store Z) replay_of.
Proof.
  split.
  - intros [s l] ctx key wire. cbn [dispatch demo_router]. destruct (key ≫= _); [done|]. apply rtc_once, create_new_step.
  - intros [s l] ctx key wire w' id. cbn [dispatch demo_router fst snd]. destruct (key ≫= _) as [i|] eqn:Hk.
    { intros [= <- <-]. right. destruct key as [k|]; [|done]. by exists k. }
    unfold create_new. cbn [fst snd]. destruct (InMemory.create s [wire] ctx) as [s' [[i envs]|e]] eqn:E; [|by intros [=]].
    intros [= <- <-]. left. by exists s, s', [wire], envs.
  - intros [s l] ctx key wire w' o k id. cbn [dispatch demo_router fst snd]. destruct (key ≫= _) as [i|] eqn:Hk.
    { intros [= <- <-]. by left. }
    unfold create_new. cbn [fst snd]. destruct (InMemory.create s [wire] ctx) as [s' [[i envs]|e]]; [|intros [= <- <-]; by left].
    intros [= <- <-]. destruct key as [k'|]; simpl; [|by left].
    destruct (decide (k' = k)) as [->|]; [|by left]. intros [= ->]. by right.
Qed.

(** The consumer has no routes of its own. *)
Definition no_extra : ExtraRoutes (Gs := Replays) (InMemory.store Z) :=
  mkExtra (InMemory.store Z) [] (fun _ _ => None) None.


(** A create under a key, the same again, and the load of the aggregate. *)
Definition keyed : HeaderMap := fun name => if String.eqb name "idempotency-key" then [Some (txt "k1")] else [].
Definition post_request : ApiRequest := mkApiRequest Post (txt "/v1/aggregates") keyed (txt "abc").
Definition demo_start : InMemory.InMemoryEventStore Z * Replays := (two_events, []).



(** A request that finds no permit changes nothing. *)
Lemma api_dispatch_guarded_witness :
  exists n app, build_router (InMemory.store Z) show_Z show_Z (fun _ => None) (fun t => Ok (Z.of_nat (length t))) Some
                  (fun _ => None) 4096 same_route no_extra Layers.permissive_for_tests = Some (n, app)
    /\ n = 1024 /\ fst (app 0 demo_start post_request) = demo_start.
Proof.
  destruct (api_dispatch_guarded (InMemory.store Z) show_Z show_Z (fun _ => None) (fun t => Ok (Z.of_nat (length t)))
              Some (fun _ => None) 4096 same_route no_extra Layers.permissive_for_tests 0 demo_start post_request)
    as [Hnone H].
  destruct (build_router _ _ _ _ _ _ _ _ _ _ _) as [[n app]|] eqn:E.
  - exists n, app. split; [reflexivity|]. specialize (H n app eq_refl). destruct (app 0 demo_start post_request) as [w' a].
    destruct H as (Hn&_&_&_&Hshed). split; [exact Hn|]. exact (proj1 (Hshed (Z.le_refl 0))).
  - exfalso. destruct (proj1 Hnone eq_refl) as [Hl|Hl]; discriminate Hl.
Defined.
