(* ===== verification/Lint.v ===== *)
(** * The error-enum gate (crate [non-exhaustive-check], [main.rs])

    The check that no public error enum of the library crates is
    [#[non_exhaustive]].  [Cfg]: the three-valued reading of a [cfg] predicate, as
    a parser over token trees, against the two-valued meaning of the predicate in
    every build without tests.  [Scan]: finding the workspace, walking the source
    directories, items, enums, violations and the exit status.

    The file system is a parameter that gives what is at a path, a directory with
    everything below it.  Parsing a file into items and the arguments of [derive]
    into paths belongs to the [syn] crate: [parse_file] is a parameter, and the
    paths of an attribute are part of it.  Of the cursor of [syn] the model uses
    peeking, taking a token and entering a parenthesis. *)

From S2P Require Import Prelude Chars.

Module Cfg.

Inductive Token :=
| TBool (b : bool)
| TIdent (name : string)
| TEq
| TStr (value : string)
| TComma
| TParen (inner : list Token)
| TOther.

Inductive CfgTruth := False_ | True_ | Unknown.

#[global] Instance CfgTruth_eq_dec : EqDecision CfgTruth.
Proof. solve_decision. Defined.

(** What a parse returns: the value and the tokens that are left, or an error;
    [OutOfFuel] is not a result of the program. *)
Inductive Parsed (A : Type) := Parsed_ok (a : A) (rest : list Token) | SynError | OutOfFuel.
Arguments Parsed_ok {A}. Arguments SynError {A}. Arguments OutOfFuel {A}.

(** The value of [name(values)]; [None] is an error. *)
Definition combine (name : string) (values : list CfgTruth) : option CfgTruth :=
  if bool_decide (name = "all" \/ name = "any")%string then
    let decisive := if bool_decide (name = "all")%string then False_ else True_ in
    Some (if existsb (fun v => bool_decide (v = decisive)) values then decisive
          else if existsb (fun v => bool_decide (v = Unknown)) values then Unknown
          else if bool_decide (name = "all")%string then True_ else False_)
  else if bool_decide (name = "not")%string then
    match values with
    | [False_] => Some True_
    | [True_] => Some False_
    | [Unknown] => Some Unknown
    | _ => None
    end
  else None.

(** [CfgTruth::parse], and [parse_terminated] over the inside of a parenthesis. *)
Fixpoint parse (fuel : nat) (input : list Token) : Parsed CfgTruth :=
  match fuel with
  | O => OutOfFuel
  | S fuel =>
      match input with
      | TBool b :: rest => Parsed_ok (if b then True_ else False_) rest
      | TIdent name :: TEq :: rest =>
          match rest with TStr _ :: rest => Parsed_ok Unknown rest | _ => SynError end
      | TIdent name :: TParen inner :: rest =>
          match parse_terminated fuel inner with
          | Parsed_ok values _ =>
              match combine name values with Some v => Parsed_ok v rest | None => SynError end
          | SynError => SynError
          | OutOfFuel => OutOfFuel
          end
      | TIdent name :: rest => Parsed_ok (if bool_decide (name = "test")%string then False_ else Unknown) rest
      | _ => SynError
      end
  end
with parse_terminated (fuel : nat) (content : list Token) : Parsed (list CfgTruth) :=
  match fuel with
  | O => OutOfFuel
  | S fuel =>
      match content with
      | [] => Parsed_ok [] []
      | _ =>
          match parse fuel content with
          | Parsed_ok v [] => Parsed_ok [v] []
          | Parsed_ok v (TComma :: rest) =>
              match parse_terminated fuel rest with
              | Parsed_ok vs rest => Parsed_ok (v :: vs) rest
              | SynError => SynError
              | OutOfFuel => OutOfFuel
              end
          | Parsed_ok _ _ => SynError
          | SynError => SynError
          | OutOfFuel => OutOfFuel
          end
      end
  end.

(** The number of calls a parse of these tokens can need. *)
Fixpoint weight (t : Token) : nat :=
  match t with
  | TParen inner => (2 + list_sum (map weight inner))%nat
  | _ => 2
  end.
Definition weigh (ts : list Token) : nat := list_sum (map weight ts).

(** The arguments of an attribute: a predicate, a comma if there is one, and
    nothing more. *)
Definition parse_args (input : list Token) : option CfgTruth :=
  match parse (S (weigh input)) input with
  | Parsed_ok v [] | Parsed_ok v [TComma] => Some v
  | _ => None
  end.

(** ** Predicates and what they mean *)

Inductive Pred :=
| PBool (b : bool)
| PName (name : string)
| PNameValue (name value : string)
| PAll (l : list Pred)
| PAny (l : list Pred)
| PNot (p : Pred).

(** A build: the names that are set, and the pairs. *)
Record Build := mkBuild { name_set : string -> bool; pair_set : string -> string -> bool }.
Definition without_tests (b : Build) : Prop := name_set b "test" = false.

Fixpoint eval (b : Build) (p : Pred) : bool :=
  match p with
  | PBool v => v
  | PName n => name_set b n
  | PNameValue n v => pair_set b n v
  | PAll l => forallb (eval b) l
  | PAny l => existsb (eval b) l
  | PNot q => negb (eval b q)
  end.

(** How predicates are written, with or without a comma at the end of a list. *)
Inductive spelled : Pred -> list Token -> Prop :=
| sp_bool b : spelled (PBool b) [TBool b]
| sp_name n : spelled (PName n) [TIdent n]
| sp_pair n v : spelled (PNameValue n v) [TIdent n; TEq; TStr v]
| sp_all l ts : spelled_list l ts -> spelled (PAll l) [TIdent "all"; TParen ts]
| sp_any l ts : spelled_list l ts -> spelled (PAny l) [TIdent "any"; TParen ts]
| sp_not p ts : spelled_list [p] ts -> spelled (PNot p) [TIdent "not"; TParen ts]
with spelled_list : list Pred -> list Token -> Prop :=
| sl_nil : spelled_list [] []
| sl_last p ts : spelled p ts -> spelled_list [p] ts
| sl_cons p ts l rest : spelled p ts -> spelled_list l rest -> spelled_list (p :: l) (ts ++ TComma :: rest).

Scheme spelled_ind' := Induction for spelled Sort Prop
with spelled_list_ind' := Induction for spelled_list Sort Prop.
Combined Scheme spelled_mutind from spelled_ind', spelled_list_ind'.

(** The three-valued value of a predicate. *)
Fixpoint value (p : Pred) : CfgTruth :=
  match p with
  | PBool b => if b then True_ else False_
  | PName n => if bool_decide (n = "test")%string then False_ else Unknown
  | PNameValue _ _ => Unknown
  | PAll l => default Unknown (combine "all" (map value l))
  | PAny l => default Unknown (combine "any" (map value l))
  | PNot q => default Unknown (combine "not" [value q])
  end.

(** A three-valued answer that is right in every build without tests. *)
Definition right_of (v : CfgTruth) (p : Pred) : Prop :=
  forall b, without_tests b ->
  match v with False_ => eval b p = false | True_ => eval b p = true | Unknown => True end.

Lemma weigh_app a b : weigh (a ++ b) = (weigh a + weigh b)%nat.
Proof. unfold weigh. by rewrite map_app, list_sum_app. Qed.

Lemma weigh_cons t ts : weigh (t :: ts) = (weight t + weigh ts)%nat.
Proof. done. Qed.

Lemma weight_paren inner : weight (TParen inner) = (2 + weigh inner)%nat.
Proof. done. Qed.

(** *** The parser reads predicates *)

(** A combination that has a value is one of the three. *)
Lemma combine_spelled n l inner c :
  combine n (map value l) = Some c -> spelled_list l inner ->
  exists p, spelled p [TIdent n; TParen inner] /\ c = value p.
Proof.
  intros Hc Hl. destruct (decide (n = "all")) as [->|Hall].
  { exists (PAll l). split; [by constructor|]. cbn [value]. by rewrite Hc. }
  destruct (decide (n = "any")) as [->|Hany].
  { exists (PAny l). split; [by constructor|]. cbn [value]. by rewrite Hc. }
  unfold combine in Hc. rewrite bool_decide_false in Hc by (by intros [?|?]).
  destruct (decide (n = "not")) as [->|Hnot]; [|by rewrite bool_decide_false in Hc].
  rewrite bool_decide_true in Hc by done. destruct l as [|p [|q l]]; [done| |by simpl in Hc; destruct (value p)].
  exists (PNot p). split; [by constructor|]. simpl in Hc. cbn [value]. unfold combine.
  rewrite bool_decide_false by (by intros [?|?]). rewrite bool_decide_true by done. by rewrite Hc.
Qed.

Lemma parse_sound fuel :
  (forall ts v rest, parse fuel ts = Parsed_ok v rest ->
     exists p used, ts = used ++ rest /\ spelled p used /\ v = value p)
  /\ (forall ts vs rest, parse_terminated fuel ts = Parsed_ok vs rest ->
     rest = [] /\ exists l, spelled_list l ts /\ vs = map value l).
Proof.
  induction fuel as [|fuel [IHp IHt]]; [done|]. split.
  - intros ts v rest. simpl. destruct ts as [|[b|n| |v0| |inner|] ts]; try done.
    { intros [= <- <-]. exists (PBool b), [TBool b]. split_and!; [done|constructor|done]. }
    destruct ts as [|[b|n2| |v0| |inner|] ts];
      try (intros [= <- <-]; exists (PName n), [TIdent n]; split_and!; [done|constructor|done]).
    { destruct ts as [|[] ts]; try done. intros [= <- <-]. exists (PNameValue n value0), [TIdent n; TEq; TStr value0].
      split_and!; [done|constructor|done]. }
    destruct (parse_terminated fuel inner) as [vs r| |] eqn:E; try done. destruct (IHt _ _ _ E) as (_&l&Hl&->).
    destruct (combine n (map value l)) as [c|] eqn:Hc; [|done]. intros [= <- <-].
    destruct (combine_spelled n l inner c Hc Hl) as (p&Hp&Hv). exists p, [TIdent n; TParen inner]. by split_and!.
  - intros ts vs rest. simpl. destruct ts as [|t ts]; [intros [= <- <-]; split; [done|]; exists []; by split; [constructor|]|].
    destruct (parse fuel (t :: ts)) as [v r| |] eqn:E; try done. destruct (IHp _ _ _ E) as (p&used&Heq&Hp&->).
    destruct r as [|[] r]; try done.
    { intros [= <- <-]. split; [done|]. exists [p]. rewrite Heq, app_nil_r. by split; [constructor|]. }
    destruct (parse_terminated fuel r) as [vs' r'| |] eqn:Et; try done. destruct (IHt _ _ _ Et) as (->&l&Hl&->).
    intros [= <- <-]. split; [done|]. exists (p :: l). rewrite Heq. by split; [constructor|].
Qed.

(** The fuel is enough for any input. *)
Lemma parse_total fuel :
  (forall ts, (weigh ts < fuel)%nat -> parse fuel ts <> OutOfFuel)
  /\ (forall ts, (S (weigh ts) < fuel)%nat -> parse_terminated fuel ts <> OutOfFuel).
Proof.
  induction fuel as [|fuel [IHp IHt]]; [split; intros; lia|]. split.
  - intros ts Hf. simpl. destruct ts as [|[b|n| |v0| |inner|] ts]; try done.
    destruct ts as [|[b|n2| |v0| |inner|] ts]; try done; [by destruct ts as [|[] ts]|].
    rewrite !weigh_cons, weight_paren in Hf. simpl in Hf.
    pose proof (IHt inner ltac:(lia)). destruct (parse_terminated fuel inner) as [vs r| |]; try done.
    by destruct (combine n vs).
  - intros ts Hf. simpl. destruct ts as [|t ts]; [done|].
    pose proof (IHp (t :: ts) ltac:(lia)). destruct (parse fuel (t :: ts)) as [v r| |] eqn:E; try done.
    destruct (proj1 (parse_sound fuel) _ _ _ E) as (p&used&Heq&Hp&_). rewrite Heq, weigh_app in Hf.
    destruct r as [|[] r]; try done. rewrite weigh_cons in Hf. simpl in Hf.
    pose proof (IHt r ltac:(lia)). by destruct (parse_terminated fuel r).
Qed.

(** What may follow a predicate. *)
Definition ends (rest : list Token) : Prop := rest = [] \/ exists r, rest = TComma :: r.

Lemma combine_not p : combine "not" [value p] = Some (value (PNot p)).
Proof. cbn [value]. unfold combine. simpl. by destruct (value p). Qed.

Lemma parse_complete :
  (forall p ts, spelled p ts -> forall fuel rest, ends rest -> (weigh ts < fuel)%nat ->
     parse fuel (ts ++ rest) = Parsed_ok (value p) rest /\ ts <> [])
  /\ (forall l ts, spelled_list l ts -> forall fuel, (S (weigh ts) < fuel)%nat ->
     parse_terminated fuel ts = Parsed_ok (map value l) []).
Proof.
  apply spelled_mutind.
  - intros b [|fuel] rest _ Hf; [lia|]. done.
  - intros n [|fuel] rest He Hf; [lia|]. split; [|done]. by destruct He as [->|[r ->]].
  - intros n v [|fuel] rest _ Hf; [lia|]. done.
  - intros l ts _ IH [|fuel] rest _ Hf; [lia|]. rewrite !weigh_cons, weight_paren in Hf. simpl in Hf.
    simpl. rewrite IH by lia. done.
  - intros l ts _ IH [|fuel] rest _ Hf; [lia|]. rewrite !weigh_cons, weight_paren in Hf. simpl in Hf.
    simpl. rewrite IH by lia. done.
  - intros p ts _ IH [|fuel] rest _ Hf; [lia|]. rewrite !weigh_cons, weight_paren in Hf. simpl in Hf.
    cbn [app parse]. rewrite IH by lia. cbn [map]. by rewrite combine_not.
  - intros [|fuel] Hf; [lia|]. done.
  - intros p ts _ IH [|fuel] Hf; [lia|]. destruct (IH fuel [] ltac:(by left) ltac:(lia)) as [Hp Hne].
    rewrite app_nil_r in Hp. destruct ts; [done|]. simpl. by rewrite Hp.
  - intros p ts l rest _ IHp _ IHl [|fuel] Hf; [lia|]. rewrite weigh_app, weigh_cons in Hf. simpl in Hf.
    destruct (IHp fuel (TComma :: rest) ltac:(right; by eexists) ltac:(lia)) as [Hp Hne].
    destruct ts as [|t ts]; [done|]. cbn [app parse_terminated] in *. rewrite Hp, IHl by lia. done.
Qed.

(** The arguments of an attribute that parse are the spelling of a predicate, and
    the value is that of the predicate. *)
Lemma parse_args_iff ts v :
  parse_args ts = Some v <-> exists p, v = value p /\ (spelled p ts \/ exists ts', ts = ts' ++ [TComma] /\ spelled p ts').
Proof.
  unfold parse_args. split.
  - destruct (parse _ ts) as [w rest| |] eqn:E; try done. destruct (proj1 (parse_sound _) _ _ _ E) as (p&used&->&Hp&->).
    destruct rest as [|[] [|]]; try done; intros [= <-]; exists p; split; try done.
    + left. by rewrite app_nil_r.
    + right. by exists used.
  - intros (p&->&[Hp|(ts'&->&Hp)]).
    + destruct (proj1 parse_complete p ts Hp (S (weigh ts)) [] ltac:(by left) ltac:(lia)) as [H _].
      rewrite app_nil_r in H. by rewrite H.
    + destruct (proj1 parse_complete p ts' Hp (S (weigh (ts' ++ [TComma]))) [TComma]
                  ltac:(right; by eexists) ltac:(rewrite weigh_app; lia)) as [H _]. by rewrite H.
Qed.

(** *** Three values and two *)

Lemma pred_ind' (P : Pred -> Prop) :
  (forall b, P (PBool b)) -> (forall n, P (PName n)) -> (forall n v, P (PNameValue n v)) ->
  (forall l, Forall P l -> P (PAll l)) -> (forall l, Forall P l -> P (PAny l)) -> (forall p, P p -> P (PNot p)) ->
  forall p, P p.
Proof.
  intros Hb Hn Hv Hall Hany Hnot. fix IH 1. intros [b|n|n v|l|l|p]; [apply Hb|apply Hn|apply Hv| | |apply Hnot, IH].
  - apply Hall. induction l as [|p l IHl]; constructor; [apply IH|apply IHl].
  - apply Hany. induction l as [|p l IHl]; constructor; [apply IH|apply IHl].
Qed.

Lemma value_right p : right_of (value p) p.
Proof.
  intros b Hb. induction p as [v|n|n v|l IH|l IH|p IH] using pred_ind'.
  - by destruct v.
  - simpl. case_bool_decide as Hn; [by rewrite Hn|done].
  - done.
  - cbn [value eval]. unfold combine. simpl. induction IH as [|p l Hp _ IHl]; simpl; [done|].
    destruct (value p) eqn:Ev; simpl; [by rewrite Hp|rewrite Hp; simpl|].
    + done.
    + repeat case_match; simpl; try done; by rewrite IHl, andb_false_r.
  - cbn [value eval]. unfold combine. simpl. induction IH as [|p l Hp _ IHl]; simpl; [done|].
    destruct (value p) eqn:Ev; simpl; [rewrite Hp; simpl; done|by rewrite Hp|].
    repeat case_match; simpl; try done; by rewrite IHl, orb_true_r.
  - cbn [value eval]. unfold combine. simpl.
    destruct (value p); simpl; try done; by rewrite IH.
Qed.

(** *** How exact the three values are *)

(** The readings of a predicate without tests, when every occurrence of another
    name may be set or not on its own. *)
Inductive reads : Pred -> bool -> Prop :=
| r_bool b : reads (PBool b) b
| r_test : reads (PName "test") false
| r_name n v : n <> "test"%string -> reads (PName n) v
| r_pair n x v : reads (PNameValue n x) v
| r_all l vs : Forall2 reads l vs -> reads (PAll l) (forallb id vs)
| r_any l vs : Forall2 reads l vs -> reads (PAny l) (existsb id vs)
| r_not p v : reads p v -> reads (PNot p) (negb v).

(** A build without tests is one of the readings. *)
Lemma eval_reads b p : without_tests b -> reads p (eval b p).
Proof.
  intros Hb. induction p as [v|n|n v|l IH|l IH|p IH] using pred_ind'; cbn [eval]; try (by constructor).
  - destruct (decide (n = "test")%string) as [->|Hn]; [rewrite Hb|]; by constructor.
  - replace (forallb (eval b) l) with (forallb id (map (eval b) l)); [apply r_all|].
    + induction IH; simpl; by constructor.
    + clear IH. induction l as [|q l IHl]; simpl; [done|]. by rewrite IHl.
  - replace (existsb (eval b) l) with (existsb id (map (eval b) l)); [apply r_any|].
    + induction IH; simpl; by constructor.
    + clear IH. induction l as [|q l IHl]; simpl; [done|]. by rewrite IHl.
Qed.

Lemma existsb_value (v : CfgTruth) (vs : list CfgTruth) : existsb (fun w => bool_decide (w = v)) vs = bool_decide (v ∈ vs).
Proof.
  apply eq_bool_prop_intro. rewrite !Is_true_true, bool_decide_eq_true, existsb_exists. split.
  - intros (w&Hw&->%bool_decide_eq_true). by apply list_elem_of_In.
  - intros Hv%list_elem_of_In. exists v. by rewrite bool_decide_eq_true.
Qed.

(** A list of values under [all] and [any]. *)
Definition decisive (all : bool) : CfgTruth := if all then False_ else True_.
Definition neutral (all : bool) : CfgTruth := if all then True_ else False_.
Definition group (all : bool) : string := if all then "all" else "any".

Lemma combine_group all vs :
  combine (group all) vs
  = Some (if bool_decide (decisive all ∈ vs) then decisive all
          else if bool_decide (Unknown ∈ vs) then Unknown else neutral all).
Proof. destruct all; unfold combine; simpl; by rewrite !existsb_value. Qed.

Lemma combine_decisive all vs : default Unknown (combine (group all) vs) = decisive all <-> decisive all ∈ vs.
Proof. rewrite combine_group. simpl. repeat case_bool_decide; destruct all; by split. Qed.

Lemma combine_neutral all vs :
  default Unknown (combine (group all) vs) = neutral all <-> Forall (fun v => v = neutral all) vs.
Proof.
  rewrite combine_group. simpl. rewrite Forall_forall. case_bool_decide as Hd.
  { split; [by destruct all|]. intros H. apply H in Hd. by destruct all. }
  case_bool_decide as Hu.
  { split; [by destruct all|]. intros H. apply H in Hu. by destruct all. }
  split; [|done]. intros _ v Hv. destruct all, v; simpl in *; done.
Qed.

(** Some list of readings, all of them [v], or one of them. *)
Lemma reads_each v l : Forall (fun p => reads p v) l -> exists vs, Forall2 reads l vs /\ Forall (fun w => w = v) vs.
Proof.
  induction 1 as [|p l Hp _ (vs&Hvs&Hall)]; [by exists []|]. exists (v :: vs). by split; constructor.
Qed.

Lemma reads_one v l p :
  p ∈ l -> reads p v -> Forall (fun q => exists w, reads q w) l -> exists vs, Forall2 reads l vs /\ v ∈ vs.
Proof.
  intros Hin Hp Hl. induction Hl as [|q l [w Hq] Hl IH]; [by apply not_elem_of_nil in Hin|].
  apply elem_of_cons in Hin as [->|Hin].
  - assert (exists vs, Forall2 reads l vs) as [vs Hvs].
    { clear -Hl. induction Hl as [|q l [w Hq] _ [vs Hvs]]; [by exists []|]. exists (w :: vs). by constructor. }
    exists (v :: vs). split; [by constructor|left].
  - destruct (IH Hin) as (vs&Hvs&Hv). exists (w :: vs). split; [by constructor|by right].
Qed.

(** The readings that a three-valued answer leaves open. *)
Definition open_to (t : CfgTruth) (v : bool) : Prop := t <> decisive v.

(** What a group says, in terms of its members: [all] groups are true when every
    member is, [any] groups false when every member is. *)
Lemma group_reads (all : bool) l vs :
  Forall2 reads l vs -> reads (if all then PAll l else PAny l) (if all then forallb id vs else existsb id vs).
Proof. destruct all; by constructor. Qed.

Lemma group_inv (all : bool) l v :
  reads (if all then PAll l else PAny l) v ->
  exists vs, Forall2 reads l vs /\ v = if all then forallb id vs else existsb id vs.
Proof. destruct all; inversion 1; eauto. Qed.

Lemma group_all (all : bool) vs :
  (if all then forallb id vs else existsb id vs) = all <-> Forall (fun w => w = all) vs.
Proof.
  induction vs as [|w vs IH]; [by destruct all|]. rewrite Forall_cons, <- IH. destruct all, w; simpl; try tauto; naive_solver.
Qed.

Lemma group_exact (all : bool) l v :
  Forall (fun p => forall v, reads p v <-> open_to (value p) v) l ->
  reads (if all then PAll l else PAny l) v <-> open_to (default Unknown (combine (group all) (map value l))) v.
Proof.
  intros IH. rewrite Forall_forall in IH. unfold open_to in *. destruct (decide (v = all)) as [->|Hv].
  - rewrite combine_decisive. split.
    + intros (vs&Hvs&Hall)%group_inv (p&Hp&Hin)%list_elem_of_fmap. symmetry in Hall. apply group_all in Hall.
      apply list_elem_of_lookup in Hin as [i Hi]. destruct (Forall2_lookup_l _ _ _ _ _ Hvs Hi) as (w&Hw&Hr).
      rewrite Forall_lookup in Hall. rewrite (Hall i w Hw) in Hr. apply IH in Hr; [by destruct all|by eapply list_elem_of_lookup_2].
    + intros Hno. destruct (reads_each all l) as (vs&Hvs&Hall).
      { apply Forall_forall. intros p Hp. apply IH; [done|]. intros Hd. apply Hno. rewrite <- Hd. by apply list_elem_of_fmap_2. }
      apply group_all in Hall. rewrite <- Hall at 2. by apply group_reads.
  - assert (Hd : decisive v = neutral all) by (by destruct v, all). rewrite Hd, combine_neutral, Forall_fmap. split.
    + intros (vs&Hvs&Heq)%group_inv Hall. apply Hv. rewrite Heq. apply group_all, Forall_lookup. intros i w Hw.
      destruct (Forall2_lookup_r _ _ _ _ _ Hvs Hw) as (p&Hp&Hr). rewrite Forall_lookup in Hall. specialize (Hall i p Hp).
      apply IH in Hr; [|by eapply list_elem_of_lookup_2]. simpl in Hall. rewrite Hall in Hr. by destruct all, w.
    + intros Hno. apply not_Forall_Exists in Hno; [|intros p; simpl; apply _].
      apply Exists_exists in Hno as (p&Hp&Hn). simpl in Hn.
      destruct (reads_one v l p Hp) as (vs&Hvs&Hin).
      { apply IH; [done|]. by rewrite Hd. }
      { apply Forall_forall. intros q Hq. destruct (value q) eqn:Ev;
          [exists false|exists true|exists true]; apply IH; try done; by rewrite Ev. }
      replace v with (if all then forallb id vs else existsb id vs); [by apply group_reads|].
      destruct (decide ((if all then forallb id vs else existsb id vs) = all)) as [Hall|Hall].
      * apply group_all in Hall. rewrite Forall_forall in Hall. by rewrite (Hall v Hin) in Hv.
      * destruct all, v; try done; [by apply not_true_is_false|by apply not_false_is_true].
Qed.

(** The three-valued value of a predicate is exact for these readings. *)
Lemma value_exact p v : reads p v <-> open_to (value p) v.
Proof.
  revert v. unfold open_to. induction p as [b|n|n x|l IH|l IH|p IH] using pred_ind'; intros v; cbn [value].
  - split; [inversion 1; subst; by destruct v|]. intros H. replace v with b; [constructor|]. by destruct b, v.
  - case_bool_decide as Hn.
    + subst. split; [inversion 1; subst; done|]. intros H. destruct v; [done|constructor].
    + split; [by destruct v|]. intros _. by constructor.
  - split; [by destruct v|]. intros _. constructor.
  - apply (group_exact true l v IH).
  - apply (group_exact false l v IH).
  - assert (Hd : combine "not" [value p] = Some (value (PNot p))) by apply combine_not. rewrite Hd. simpl default.
    split.
    + inversion 1 as [| | | | | |? w Hw]; subst. apply IH in Hw. revert Hw. cbn [value]. unfold combine. simpl.
      by destruct (value p), w.
    + intros H. rewrite <- (negb_involutive v). apply r_not, IH. revert H. cbn [value]. unfold combine. simpl.
      by destruct (value p), v.
Qed.

End Cfg.

(** ** Items and violations *)

Module Scan.
Import Cfg.

(** An attribute: its path, the tokens of its arguments, and the paths between
    the commas when the arguments are such a list. *)
Record Attribute := mkAttr {
  attr_path : list string;
  attr_args : list Token;
  attr_paths : option (list (list string));
}.

Record ItemEnum := mkEnum {
  is_public : bool;
  enum_attrs : list Attribute;
  enum_name : string;
  span_line : nat;
}.

Inductive Item :=
| IEnum (e : ItemEnum)
| IMod (attrs : list Attribute) (content : option (list Item))
| IOther.

Definition attr_path_is (attr : Attribute) (name : string) : bool := bool_decide (attr_path attr = [name]).

Definition is_cfg_disabled_without_test (attr : Attribute) : bool :=
  attr_path_is attr "cfg" && bool_decide (parse_args (attr_args attr) = Some False_).

Definition derive_idents (attr : Attribute) : list string :=
  if negb (attr_path_is attr "derive") then []
  else match attr_paths attr with
       | Some paths => omap (fun segments => last segments) paths
       | None => []
       end.

Fixpoint collect_item (i : Item) : list ItemEnum :=
  match i with
  | IEnum e => [e]
  | IMod attrs content =>
      if existsb is_cfg_disabled_without_test attrs then []
      else match content with Some inner_items => flat_map collect_item inner_items | None => [] end
  | IOther => []
  end.
Definition collect_enums (items : list Item) : list ItemEnum := flat_map collect_item items.

Definition is_violation (e : ItemEnum) : bool :=
  if negb (is_public e) || existsb is_cfg_disabled_without_test (enum_attrs e) then false
  else
    let has_non_exhaustive := existsb (fun a => attr_path_is a "non_exhaustive") (enum_attrs e) in
    let derives := flat_map derive_idents (enum_attrs e) in
    let is_error_type := existsb (String.eqb "Error") derives in
    is_error_type && has_non_exhaustive.

Definition enum_span_line (e : ItemEnum) : option nat :=
  if Nat.eqb (span_line e) 0 then None else Some (span_line e).

(** *** Paths and the file system *)

(** The components of a path; the root directory is the component [/]. *)
Definition Path : Type := list Text.

(** [PathBuf::from]: empty components vanish, and so do dots but for the first. *)
Definition path_from (t : Text) : Path :=
  let segs := split 47 t in
  (if starts_with [47] t then [[47]] else if bool_decide (head segs = Some (txt ".")) then [txt "."] else [])
  ++ filter (fun seg => seg <> [] /\ seg <> txt ".") segs.

(** [p.strip_prefix(base)]. *)
Fixpoint strip_path (base p : Path) : option Path :=
  match base, p with
  | [], _ => Some p
  | x :: base, y :: p => if bool_decide (x = y) then strip_path base p else None
  | _, [] => None
  end.

(** [Path::extension] on a file name. *)
Definition file_extension (name : Text) : option Text :=
  match rsplit_once 46 name with
  | Some (before, after) => if bool_decide (before = []) then None else Some after
  | None => None
  end.

(** A file and what reading it gives; a directory and its entries, in the order
    of [read_dir]; a directory that cannot be read. *)
Inductive Node :=
| NFile (content : result Text string)
| NDir (entries : list (Text * Node))
| NLocked.

Definition is_dir (n : Node) : bool := match n with NFile _ => false | _ => true end.

(** A source file that was found. *)
Definition Source : Type := Path * result Text string.

Fixpoint collect_rs_files (dir : Path) (n : Node) (out : list Source) : result (list Source) string :=
  match n with
  | NDir entries =>
      (fix go (entries : list (Text * Node)) (out : list Source) : result (list Source) string :=
         match entries with
         | [] => Ok out
         | (name, child) :: entries =>
             let path := dir ++ [name] in
             match child with
             | NFile content =>
                 if bool_decide (file_extension name = Some (txt "rs")) then go entries (out ++ [(path, content)])
                 else go entries out
             | _ =>
                 if bool_decide (name = txt "target") then go entries out
                 else match collect_rs_files path child out with
                      | Ok out => go entries out
                      | Err why => Err why
                      end
             end
         end) entries out
  | _ => Err "failed to read dir"%string
  end.

(** *** The walk *)

(** The files that count as sources: named [*.rs], with no directory called
    [target] on the way. *)
Inductive source : Node -> Path -> result Text string -> Prop :=
| src_file entries name content :
    (name, NFile content) ∈ entries -> file_extension name = Some (txt "rs") -> source (NDir entries) [name] content
| src_below entries name child p content :
    (name, child) ∈ entries -> name <> txt "target" -> source child p content -> source (NDir entries) (name :: p) content.

(** A directory on the walk cannot be read. *)
Inductive unreadable : Node -> Prop :=
| un_here : unreadable NLocked
| un_below entries name child :
    (name, child) ∈ entries -> name <> txt "target" -> unreadable child -> unreadable (NDir entries).

Lemma Node_ind' (P : Node -> Prop) :
  (forall c, P (NFile c)) -> (forall es, Forall (fun e => P (snd e)) es -> P (NDir es)) -> P NLocked -> forall n, P n.
Proof.
  intros Hf Hd Hl. fix IH 1. intros [c|es|]; [apply Hf| |apply Hl].
  apply Hd. induction es as [|[name child] es IHes]; constructor; [apply IH|apply IHes].
Qed.

(** The sources of a directory by its first entry. *)
Lemma source_cons name child es p c :
  source (NDir ((name, child) :: es)) p c <->
  (child = NFile c /\ file_extension name = Some (txt "rs") /\ p = [name])
  \/ (name <> txt "target" /\ exists q, p = name :: q /\ source child q c)
  \/ source (NDir es) p c.
Proof.
  split.
  - inversion 1 as [? ? ? Hin Hx|? ? ch q ? Hin Hx Hs]; subst; apply elem_of_cons in Hin as [[= <- <-]|Hin].
    + by left.
    + right; right. by apply src_file.
    + right; left. split; [done|]. by exists q.
    + right; right. by eapply src_below.
  - intros [(->&Hx&->)|[(Hn&q&->&Hs)|Hs]].
    + apply src_file; [left|done].
    + eapply src_below; [left|done..].
    + inversion Hs; subst; [apply src_file|eapply src_below]; try done; by right.
Qed.

Lemma source_empty p c : ~ source (NDir []) p c.
Proof. inversion 1 as [? ? ? Hin|? ? ? ? ? Hin]; by apply elem_of_nil in Hin. Qed.

Lemma source_file c0 p c : ~ source (NFile c0) p c.
Proof. inversion 1. Qed.

Lemma unreadable_cons name child es :
  unreadable (NDir ((name, child) :: es)) <-> (name <> txt "target" /\ unreadable child) \/ unreadable (NDir es).
Proof.
  split.
  - inversion 1 as [|? ? ? Hin Hn Hu]; subst. apply elem_of_cons in Hin as [[= <- <-]|Hin]; [by left|].
    right. by eapply un_below.
  - intros [[Hn Hu]|Hu]; [by eapply un_below; [left|..]|].
    inversion Hu; subst. eapply un_below; [by right|done..].
Qed.

Lemma readable_empty : ~ unreadable (NDir []).
Proof. inversion 1 as [|? ? ? Hin]; subst. by apply not_elem_of_nil in Hin. Qed.

Lemma readable_file c : ~ unreadable (NFile c).
Proof. inversion 1. Qed.

(** The walk of [n] adds exactly its sources. *)
Definition finds (dir : Path) (n : Node) (out out' : list Source) : Prop :=
  exists l, out' = out ++ l /\ forall p c, (p, c) ∈ l <-> exists q, p = dir ++ q /\ source n q c.

(** An entry that adds [l0], before the others. *)
Lemma finds_cons dir name child es l0 out out' :
  (forall p c, (p, c) ∈ l0 <->
     (child = NFile c /\ file_extension name = Some (txt "rs") /\ p = dir ++ [name])
     \/ (name <> txt "target" /\ exists r, p = (dir ++ [name]) ++ r /\ source child r c)) ->
  finds dir (NDir es) (out ++ l0) out' -> finds dir (NDir ((name, child) :: es)) out out'.
Proof.
  intros H0 (l&->&Hl). exists (l0 ++ l). split; [by rewrite app_assoc|]. intros p c.
  rewrite elem_of_app, H0, Hl. setoid_rewrite source_cons. split.
  - intros [[(->&Hx&->)|(Hn&r&->&Hs)]|(q&->&Hs)]; eauto 10. exists (name :: r). rewrite <- app_assoc. split; [done|].
    right; left. split; [done|]. by exists r.
  - intros (q&->&[(->&Hx&->)|[(Hn&r&->&Hs)|Hs]]); [by left; left| |right; by exists q].
    left; right. split; [done|]. exists r. by rewrite <- app_assoc.
Qed.

(** The walk finds exactly the sources, after what it had found, or stops at a
    directory that cannot be read. *)
Lemma collect_rs_files_spec n : is_dir n = true -> forall dir out,
  match collect_rs_files dir n out with Ok out' => finds dir n out out' /\ ~ unreadable n | Err _ => unreadable n end.
Proof.
  induction n as [c0|es IH|] using Node_ind'; [done| |intros; constructor]. intros _ dir out. simpl.
  revert out. induction IH as [|[name child] es Hc _ IHes]; intros out.
  { split; [|apply readable_empty]. exists []. split; [by rewrite app_nil_r|]. intros p c.
    split; [by intros ?%not_elem_of_nil|by intros (q&_&?%source_empty)]. }
  simpl in Hc. pose proof (unreadable_cons name child es) as Hun. destruct (is_dir child) eqn:Hd.
  - assert (Hne : forall c, child <> NFile c) by (by intros c ->). specialize (Hc eq_refl (dir ++ [name]) out).
    destruct child as [|sub|]; [done| |]; (case_bool_decide as Hn;
      [specialize (IHes out); case_match; [destruct IHes as [Hf Hu]; split; [|tauto]|apply Hun; by right];
       apply (finds_cons _ _ _ _ []); [clear - Hne Hn; set_solver|by rewrite app_nil_r]|]).
    + destruct (collect_rs_files (dir ++ [name]) (NDir sub) out) as [out1|why]; [|apply Hun; by left].
      destruct Hc as [(l&->&Hl) Hu]. specialize (IHes (out ++ l)). case_match; [|apply Hun; by right].
      destruct IHes as [Hf Hu']. split; [|tauto].
      apply (finds_cons _ _ _ _ l); [|done]. intros p c. rewrite Hl. naive_solver.
    + apply Hun. left. by split; [|constructor].
  - destruct child as [content| |]; [|done..]. pose proof (readable_file content).
    case_bool_decide as Hx; [specialize (IHes (out ++ [(dir ++ [name], content)]))|specialize (IHes out)];
      (case_match; [destruct IHes as [Hf Hu]; split; [|tauto]|apply Hun; by right]).
    + apply (finds_cons _ _ _ _ [(dir ++ [name], content)]); [|done]. intros p c. rewrite list_elem_of_singleton.
      split; [intros [= -> ->]; by left|by intros [([= ->]&_&->)|(_&r&_&?%source_file)]].
    + apply (finds_cons _ _ _ _ []); [|by rewrite app_nil_r]. intros p c.
      split; [by intros ?%not_elem_of_nil|by intros [(_&?&_)|(_&r&_&?%source_file)]].
Qed.

Record Violation := mkViolation { v_path : Path; v_line : option nat; v_enum : string }.

(** How the program ends: the help text, an exit status with the report, a panic. *)
Inductive Run := Help | Exit (code : Z) (violations : list Violation) (enums_scanned : nat) | Panic (why : string).

Definition LIBRARY_CRATES : list Path :=
  map (fun name => [txt "crates"; txt name])
    ["cherry-pit-core"; "cherry-pit-app"; "cherry-pit-gateway"; "cherry-pit-merger"; "cherry-pit-projection";
     "cherry-pit-storage"; "cherry-pit-web"; "cherry-pit-wq"; "pardosa-cherry-pit-projection";
     "pardosa-cherry-pit-test-support"]%string.

Section Scan.
(** [rs_files.sort()] and [violations.sort_by_key(..)]; what is at a path;
    [syn::parse_file]. *)
Context (sort_files : list Source -> list Source) (sort_violations : list Violation -> list Violation).
Context (fs : Path -> option Node) (parse_file : Text -> result (list Item) string).

(** The loop of [default_root], the candidate with its last component first. *)
Fixpoint default_root_from (candidate : list Text) : result Path string :=
  let up := match candidate with
            | [] | [_] => Err "no workspace root (Cargo.toml with [workspace]) found"%string
            | _ :: parent => default_root_from parent
            end in
  match fs (rev candidate ++ [txt "Cargo.toml"]) with
  | Some (NFile (Err why)) => Err why
  | Some (NFile (Ok content)) => if contains_str (txt "[workspace]") content then Ok (rev candidate) else up
  | _ => up
  end.
Definition default_root (current_dir : option Path) : result Path string :=
  match current_dir with
  | None => Err "current directory must be readable"%string
  | Some start => default_root_from (rev start)
  end.

Definition report (path : Path) (e : ItemEnum) : Violation := mkViolation path (enum_span_line e) (enum_name e).

Definition of_enum (path : Path) (e : ItemEnum) : option Violation :=
  if is_violation e then Some (report path e) else None.

(** The items of a file, or why there are none. *)
Definition read_items (f : Source) : result (list Item) string :=
  match snd f with Ok content => parse_file content | Err why => Err why end.

(** The loops over the files of a crate and over the crates. *)
Fixpoint scan_files (root : Path) (files : list Source) (acc : list Violation * nat)
    : result (list Violation * nat) string :=
  match files with
  | [] => Ok acc
  | f :: files =>
      match read_items f with
      | Err why => Err why
      | Ok items =>
          let enums := collect_enums items in
          let rel := default (fst f) (strip_path root (fst f)) in
          scan_files root files (fst acc ++ omap (of_enum rel) enums, (snd acc + length enums)%nat)
      end
  end.

Definition src_dir (root crate_rel : Path) : Path := root ++ crate_rel ++ [txt "src"].

Definition scan_crate (root crate_rel : Path) (acc : list Violation * nat) : result (list Violation * nat) string :=
  let dir := src_dir root crate_rel in
  match fs dir with
  | None => Err "missing source directory"%string
  | Some n =>
      if negb (is_dir n) then Err "missing source directory"%string
      else match collect_rs_files dir n [] with
           | Err why => Err why
           | Ok rs_files =>
               match sort_files rs_files with
               | [] => Err "no Rust sources"%string
               | rs_files => scan_files root rs_files acc
               end
           end
  end.

Fixpoint scan_crates (root : Path) (crates : list Path) (acc : list Violation * nat)
    : result (list Violation * nat) string :=
  match crates with
  | [] => Ok acc
  | crate_rel :: crates =>
      match scan_crate root crate_rel acc with Ok acc => scan_crates root crates acc | Err why => Err why end
  end.

Definition main (current_dir : option Path) (args : list Text) : Run :=
  if existsb (fun a => bool_decide (a = txt "--help" \/ a = txt "-h")) args then Help
  else
    match match args with r :: _ => Ok (path_from r) | [] => default_root current_dir end with
    | Err why => Panic why
    | Ok root =>
        match scan_crates root LIBRARY_CRATES ([], 0%nat) with
        | Err why => Panic why
        | Ok ([], n) => Exit 0 [] n
        | Ok (violations, n) => Exit 1 (sort_violations violations) n
        end
    end.

(** ** What the gate means *)

(** The predicate of a [cfg] attribute holds in a build. *)
Definition admits (b : Build) (attr : Attribute) : Prop :=
  attr_path attr = ["cfg"%string] ->
  forall p, spelled p (attr_args attr) \/ (exists ts, attr_args attr = ts ++ [TComma] /\ spelled p ts) -> eval b p = true.

(** Some reading of the predicate of a [cfg] attribute without tests holds. *)
Definition may_hold (attr : Attribute) : Prop :=
  attr_path attr = ["cfg"%string] ->
  forall p, spelled p (attr_args attr) \/ (exists ts, attr_args attr = ts ++ [TComma] /\ spelled p ts) -> reads p true.

(** The enums that no [cfg] on the way rules out without tests. *)
Inductive may_compile : list Item -> ItemEnum -> Prop :=
| mc_enum items e : IEnum e ∈ items -> Forall may_hold (enum_attrs e) -> may_compile items e
| mc_mod items attrs inner e :
    IMod attrs (Some inner) ∈ items -> Forall may_hold attrs -> may_compile inner e -> may_compile items e.

(** The enums that a build compiles. *)
Inductive compiled (b : Build) : list Item -> ItemEnum -> Prop :=
| c_enum items e : IEnum e ∈ items -> Forall (admits b) (enum_attrs e) -> compiled b items e
| c_mod items attrs inner e :
    IMod attrs (Some inner) ∈ items -> Forall (admits b) attrs -> compiled b inner e -> compiled b items e.

(** A public enum that derives [Error] and is open. *)
Definition offends (e : ItemEnum) : Prop :=
  is_public e = true
  /\ (exists a, a ∈ enum_attrs e /\ attr_path a = ["non_exhaustive"%string])
  /\ (exists a paths segments, a ∈ enum_attrs e /\ attr_path a = ["derive"%string] /\ attr_paths a = Some paths
                               /\ segments ∈ paths /\ last segments = Some "Error"%string).

Lemma may_hold_iff attr : may_hold attr <-> is_cfg_disabled_without_test attr = false.
Proof using Type.
  unfold may_hold, is_cfg_disabled_without_test, attr_path_is. case_bool_decide as Hp; [|done]. simpl.
  rewrite bool_decide_eq_false. split.
  - intros H Hv. apply parse_args_iff in Hv as (p&Hv&Hs). apply (value_exact p true); [by apply H|done].
  - intros H _ p Hs. apply value_exact. intros Hv. apply H, parse_args_iff. by exists p.
Qed.

Lemma all_may_hold attrs : Forall may_hold attrs <-> existsb is_cfg_disabled_without_test attrs = false.
Proof using Type.
  induction attrs as [|a attrs IH]; simpl; [by split|]. by rewrite Forall_cons, IH, may_hold_iff, orb_false_iff.
Qed.

Lemma admits_may_hold b attr : without_tests b -> admits b attr -> may_hold attr.
Proof using Type. intros Hb Ha Hp p Hs. rewrite <- (Ha Hp p Hs). by apply eval_reads. Qed.

Lemma compiled_may b items e : without_tests b -> compiled b items e -> may_compile items e.
Proof using Type.
  assert (Hall : forall attrs, without_tests b -> Forall (admits b) attrs -> Forall may_hold attrs).
  { intros attrs Hb H. eapply Forall_impl; [exact H|]. intros a. by apply admits_may_hold. }
  intros Hb. induction 1; [apply mc_enum|eapply mc_mod]; eauto.
Qed.

Lemma may_compile_inv items e :
  may_compile items e <->
  exists i, i ∈ items /\ match i with
    | IEnum e' => e' = e /\ Forall may_hold (enum_attrs e)
    | IMod attrs (Some inner) => Forall may_hold attrs /\ may_compile inner e
    | _ => False
    end.
Proof using Type.
  split.
  - inversion 1; subst; eexists; (split; [done|]); done.
  - intros ([e'|attrs [inner|]|]&Hin&H); try done; [destruct H as [-> ?]; by apply mc_enum|].
    destruct H. by eapply mc_mod.
Qed.

Lemma Item_ind' (P : Item -> Prop) :
  (forall e, P (IEnum e)) -> (forall attrs, P (IMod attrs None)) ->
  (forall attrs inner, Forall P inner -> P (IMod attrs (Some inner))) -> P IOther -> forall i, P i.
Proof using Type.
  intros He Hn Hm Ho. fix IH 1. intros [e|attrs [inner|]|]; [apply He| |apply Hn|apply Ho].
  apply Hm. induction inner as [|i inner IHi]; constructor; [apply IH|apply IHi].
Qed.

Lemma item_collected i e :
  e ∈ collect_item i /\ Forall may_hold (enum_attrs e) <-> may_compile [i] e.
Proof using Type.
  rewrite may_compile_inv. setoid_rewrite list_elem_of_singleton. revert e.
  induction i as [e0|attrs|attrs inner IH|] using Item_ind'; intros e; simpl.
  - rewrite list_elem_of_singleton. naive_solver.
  - split; [destruct (existsb _ attrs); by intros [?%not_elem_of_nil _]|by intros (i&->&?)].
  - transitivity (Forall may_hold attrs /\ may_compile inner e).
    2:{ split; [intros H; by exists (IMod attrs (Some inner))|by intros (i&->&?)]. }
    rewrite (all_may_hold attrs). destruct (existsb _ attrs); [split; [by intros [?%not_elem_of_nil _]|by intros [? _]]|].
    rewrite list_elem_of_In, in_flat_map, may_compile_inv. setoid_rewrite <- list_elem_of_In. rewrite Forall_forall in IH.
    split.
    + intros [(i&Hi&He) Hh]. split; [done|]. destruct (proj1 (IH i Hi e) (conj He Hh)) as (i'&->&Hc). by exists i.
    + intros (_&i&Hi&Hc). destruct (proj2 (IH i Hi e)) as [He Hh]; [by exists i|]. split; [by exists i|done].
  - split; [by intros [?%not_elem_of_nil _]|by intros (i&->&?)].
Qed.

Lemma collected_iff items e :
  e ∈ collect_enums items /\ existsb is_cfg_disabled_without_test (enum_attrs e) = false <-> may_compile items e.
Proof using Type.
  rewrite <- all_may_hold, may_compile_inv. unfold collect_enums. rewrite list_elem_of_In, in_flat_map.
  setoid_rewrite <- list_elem_of_In. split.
  - intros [(i&Hi&He) Hh]. pose proof (proj1 (item_collected i e) (conj He Hh)) as Hm.
    apply may_compile_inv in Hm as (i'&->%list_elem_of_singleton&Hm). by exists i.
  - intros (i&Hi&Hc). destruct (proj2 (item_collected i e)) as [He Hh].
    { apply may_compile_inv. exists i. by rewrite list_elem_of_singleton. }
    split; [by exists i|done].
Qed.

Lemma existsb_elem {A} (f : A -> bool) l : existsb f l = true <-> exists x, x ∈ l /\ f x = true.
Proof using Type. rewrite existsb_exists. by setoid_rewrite list_elem_of_In. Qed.

Lemma derive_idents_elem x a :
  x ∈ derive_idents a <->
  exists paths segments, attr_path a = ["derive"%string] /\ attr_paths a = Some paths
                         /\ segments ∈ paths /\ last segments = Some x.
Proof using Type.
  unfold derive_idents, attr_path_is. split.
  - case_bool_decide as Hp; simpl; [|by intros ?%not_elem_of_nil].
    destruct (attr_paths a) as [paths|]; [|by intros ?%not_elem_of_nil].
    intros (segments&Hs&Hl)%list_elem_of_omap. by exists paths, segments.
  - intros (paths&segments&Hp&->&Hs&Hl). rewrite bool_decide_true by done. apply list_elem_of_omap. by exists segments.
Qed.

Lemma derives_error attrs :
  existsb (String.eqb "Error") (flat_map derive_idents attrs) = true <->
  exists a paths segments, a ∈ attrs /\ attr_path a = ["derive"%string] /\ attr_paths a = Some paths
                           /\ segments ∈ paths /\ last segments = Some "Error"%string.
Proof using Type.
  rewrite existsb_exists. split.
  - intros (x&Hx&<-%String.eqb_eq). apply in_flat_map in Hx as (a&Ha&Hx).
    apply list_elem_of_In, derive_idents_elem in Hx as (paths&segments&Hd).
    exists a, paths, segments. by rewrite list_elem_of_In.
  - intros (a&paths&segments&Ha&Hd). exists "Error"%string. split; [|done]. apply in_flat_map. exists a.
    split; [by apply list_elem_of_In|]. apply list_elem_of_In, derive_idents_elem. by exists paths, segments.
Qed.

Lemma marked_open attrs :
  existsb (fun a => attr_path_is a "non_exhaustive") attrs = true <->
  exists a, a ∈ attrs /\ attr_path a = ["non_exhaustive"%string].
Proof using Type.
  rewrite existsb_elem. unfold attr_path_is. split; intros (a&Ha&H); exists a; split; try done.
  - by apply bool_decide_eq_true in H.
  - by apply bool_decide_eq_true.
Qed.

Lemma is_violation_iff e :
  is_violation e = true <-> offends e /\ existsb is_cfg_disabled_without_test (enum_attrs e) = false.
Proof using Type.
  unfold is_violation, offends. destruct (is_public e); simpl; [|by split; [|intros ((?&_)&_)]].
  destruct (existsb is_cfg_disabled_without_test _); [by split; [|intros [_ ?]]|].
  rewrite andb_true_iff, derives_error, marked_open. split; [intros [? ?]|intros ((_&?&?)&_)]; by split_and!.
Qed.

(** *** The report *)

(** What is found in a file under the path [rel], and whether it can be read. *)
Definition found (rel : Path) (f : Source) : list Violation :=
  match read_items f with Ok items => omap (of_enum rel) (collect_enums items) | Err _ => [] end.
Definition readable (f : Source) : Prop := is_ok (read_items f) = true.

Definition relative (root : Path) (f : Source) : Path := default (fst f) (strip_path root (fst f)).

Lemma scan_files_spec root files : forall acc,
  match scan_files root files acc with
  | Ok acc' => Forall readable files /\ fst acc' = fst acc ++ flat_map (fun f => found (relative root f) f) files
  | Err _ => Exists (fun f => ~ readable f) files
  end.
Proof using Type.
  induction files as [|f files IH]; intros acc; simpl; [by rewrite app_nil_r|].
  unfold found at 1. destruct (read_items f) as [items|why] eqn:E.
  - fold (relative root f).
    specialize (IH (fst acc ++ omap (of_enum (relative root f)) (collect_enums items), (snd acc + length (collect_enums items))%nat)).
    destruct (scan_files root files _) as [acc'|why]; [|by right]. destruct IH as [Hr ->]. simpl.
    split; [|by rewrite app_assoc]. constructor; [|done]. unfold readable. by rewrite E.
  - left. unfold readable. by rewrite E.
Qed.

Lemma strip_path_app base p : strip_path base (base ++ p) = Some p.
Proof using Type. induction base as [|x base IH]; simpl; [done|]. by rewrite bool_decide_true. Qed.

(** The crates that the program can scan. *)
Definition scannable (root crate_rel : Path) : Prop :=
  exists n, fs (src_dir root crate_rel) = Some n /\ is_dir n = true /\ ~ unreadable n
    /\ (exists p c, source n p c) /\ (forall p c, source n p c -> readable (p, c)).

(** What is to be reported of a crate. *)
Definition reported (root crate_rel : Path) (v : Violation) : Prop :=
  exists n p c items e, fs (src_dir root crate_rel) = Some n /\ source n p c /\ read_items (p, c) = Ok items
    /\ e ∈ collect_enums items /\ is_violation e = true /\ v = report (crate_rel ++ txt "src" :: p) e.

Hypothesis sort_files_perm : forall l, sort_files l ≡ₚ l.

Lemma found_iff rel f v :
  v ∈ found rel f <-> exists items e, read_items f = Ok items /\ e ∈ collect_enums items /\ is_violation e = true /\ v = report rel e.
Proof using Type.
  unfold found, of_enum. destruct (read_items f) as [items|why]; [|by split; [intros ?%not_elem_of_nil|intros (?&?&?&_)]].
  rewrite list_elem_of_omap. split.
  - intros (e&He&Hv). destruct (is_violation e) eqn:E; [|done]. injection Hv as <-. by exists items, e.
  - intros (items'&e&[= <-]&He&E&->). exists e. by rewrite E.
Qed.

(** What the files of a crate contribute, in any order. *)
Lemma found_in_crate root crate_rel n files v :
  fs (src_dir root crate_rel) = Some n -> finds (src_dir root crate_rel) n [] files ->
  v ∈ flat_map (fun f => found (relative root f) f) (sort_files files) <-> reported root crate_rel v.
Proof using sort_files_perm.
  intros Hn (l&->&Hl). simpl. rewrite list_elem_of_In, in_flat_map. split.
  - intros (f&Hf&Hv). apply list_elem_of_In in Hf, Hv. rewrite sort_files_perm in Hf. destruct f as [path c].
    apply Hl in Hf as (q&->&Hs). apply found_iff in Hv as (items&e&Hi&He&Hv&->).
    exists n, q, c, items, e. split_and!; try done. unfold relative, src_dir. cbn [fst].
    by rewrite <- app_assoc, strip_path_app, <- app_assoc.
  - intros (n'&p&c&items&e&Hn'&Hs&Hi&He&Hv&->). assert (n' = n) as -> by congruence.
    exists (src_dir root crate_rel ++ p, c). split.
    + apply list_elem_of_In. rewrite sort_files_perm. apply Hl. by exists p.
    + apply list_elem_of_In, found_iff. exists items, e. split_and!; try done. unfold relative, src_dir. cbn [fst].
      by rewrite <- app_assoc, strip_path_app, <- app_assoc.
Qed.

(** The files of a crate, read or not. *)
Lemma files_readable root crate_rel n files :
  finds (src_dir root crate_rel) n [] files ->
  (Forall readable (sort_files files) <-> forall p c, source n p c -> readable (p, c)).
Proof using sort_files_perm.
  intros (l&->&Hl). simpl. rewrite sort_files_perm, Forall_forall. split.
  - intros H p c Hs. apply (H (src_dir root crate_rel ++ p, c)). apply Hl. by exists p.
  - intros H [path c] (q&->&Hs)%Hl. by apply (H q c).
Qed.

Lemma some_sources root crate_rel n files :
  finds (src_dir root crate_rel) n [] files -> sort_files files <> [] <-> exists p c, source n p c.
Proof using sort_files_perm.
  intros (l&->&Hl). simpl. split.
  - intros Hne. destruct (sort_files l) as [|[path c] l'] eqn:Hs; [done|].
    assert (Hin : (path, c) ∈ l) by (rewrite <- (sort_files_perm l), Hs; left).
    apply Hl in Hin as (q&_&?). by exists q, c.
  - intros (p&c&Hp) Hs. assert (Hin : (src_dir root crate_rel ++ p, c) ∈ l) by (apply Hl; by exists p).
    rewrite <- (sort_files_perm l), Hs in Hin. by apply not_elem_of_nil in Hin.
Qed.

Lemma scan_crate_spec root rel acc :
  match scan_crate root rel acc with
  | Ok acc' => scannable root rel
      /\ exists vs, fst acc' = fst acc ++ vs /\ forall v, v ∈ vs <-> reported root rel v
  | Err _ => ~ scannable root rel
  end.
Proof using sort_files_perm.
  unfold scan_crate. destruct (fs (src_dir root rel)) as [n|] eqn:Hn; [|intros (n&?&_); congruence].
  assert (Hthe : scannable root rel -> is_dir n = true /\ ~ unreadable n
      /\ (exists p c, source n p c) /\ (forall p c, source n p c -> readable (p, c))).
  { intros (n'&Hn'&H). rewrite Hn in Hn'. by injection Hn' as ->. }
  destruct (is_dir n) eqn:Hd; cbn [negb]; [|by intros [? _]%Hthe].
  pose proof (collect_rs_files_spec n Hd (src_dir root rel) []) as Hc.
  destruct (collect_rs_files (src_dir root rel) n []) as [files|why]; [|by intros (_&?&_)%Hthe].
  destruct Hc as [Hc Hu]. pose proof (some_sources root rel n files Hc) as Hsome.
  pose proof (files_readable root rel n files Hc) as Hread.
  pose proof (fun v => found_in_crate root rel n files v Hn Hc) as Hfound. clear Hc.
  destruct (sort_files files) as [|f fl]; [by intros (_&_&?%Hsome&_)%Hthe|].
  pose proof (scan_files_spec root (f :: fl) acc) as Hs. destruct (scan_files root (f :: fl) acc) as [acc'|why].
  - destruct Hs as [Hr Hacc]. split; [|by eexists]. exists n.
    split_and!; [done|done|done|by apply Hsome|by apply Hread].
  - intros (_&_&_&Hr)%Hthe. apply Hread in Hr. apply Exists_exists in Hs as (g&Hg&Hng).
    rewrite Forall_forall in Hr. by apply Hng, Hr.
Qed.

Lemma scan_crates_spec root crates : forall acc,
  match scan_crates root crates acc with
  | Ok acc' => Forall (scannable root) crates
      /\ exists vs, fst acc' = fst acc ++ vs /\ forall v, v ∈ vs <-> exists rel, rel ∈ crates /\ reported root rel v
  | Err _ => Exists (fun rel => ~ scannable root rel) crates
  end.
Proof using sort_files_perm.
  induction crates as [|rel crates IH]; intros acc; simpl.
  { split; [done|]. exists []. rewrite app_nil_r. split; [done|].
    intros v. split; [by intros ?%not_elem_of_nil|by intros (r&?%not_elem_of_nil&_)]. }
  pose proof (scan_crate_spec root rel acc) as Hc. destruct (scan_crate root rel acc) as [acc1|why]; [|by left].
  destruct Hc as [Hs (vs1&Hacc1&Hv1)]. specialize (IH acc1).
  destruct (scan_crates root crates acc1) as [acc2|why]; [|by right]. destruct IH as [Hss (vs2&Hacc2&Hv2)].
  split; [by constructor|]. exists (vs1 ++ vs2). split; [by rewrite Hacc2, Hacc1, app_assoc|].
  intros v. rewrite elem_of_app, Hv1, Hv2. setoid_rewrite elem_of_cons.
  split; [intros [H|(r&Hr&H)]|intros (r&[->|Hr]&H)]; eauto.
Qed.

(** *** Finding the workspace *)

(** A directory with the manifest of a workspace, and one that the search passes. *)
Definition workspace (dir : Path) : Prop :=
  exists content, fs (dir ++ [txt "Cargo.toml"]) = Some (NFile (Ok content))
                  /\ contains_str (txt "[workspace]") content = true.
Definition passed (dir : Path) : Prop :=
  forall c, fs (dir ++ [txt "Cargo.toml"]) = Some (NFile c) ->
  exists content, c = Ok content /\ contains_str (txt "[workspace]") content = false.

(** The root is the nearest directory above the start that holds a workspace. *)
Lemma default_root_nearest start root :
  default_root (Some start) = Ok root ->
  exists below, start = root ++ below /\ workspace root
    /\ forall below', below' `prefix_of` below -> below' <> [] -> passed (root ++ below').
Proof using Type.
  unfold default_root. rewrite <- (rev_involutive start). rewrite rev_involutive.
  generalize (rev start) as c. clear start.
  induction c as [|x c IH]; intros H; cbn [default_root_from] in H.
  { destruct (fs _) as [[[content|]| |]|] eqn:Hf; try done. destruct (contains_str _ _) eqn:Hw; [|done].
    injection H as <-. exists []. split; [done|]. split; [by exists content|]. by intros ? ->%prefix_nil_inv. }
  assert (Hup : passed (rev (x :: c)) -> match c with [] => Err "no"%string | _ => default_root_from c end = Ok root ->
    exists below, rev (x :: c) = root ++ below /\ workspace root
      /\ forall below', below' `prefix_of` below -> below' <> [] -> passed (root ++ below')).
  { intros Hp Hr. destruct c as [|y c]; [done|]. destruct (IH Hr) as (below&Heq&Hw&Hb). exists (below ++ [x]).
    cbn [rev] in Heq |- *. rewrite Heq, app_assoc. split; [done|]. split; [done|]. intros below' [k Hk] Hne.
    destruct k as [|z k _] using rev_ind.
    - rewrite app_nil_r in Hk. subst below'. rewrite app_assoc, <- Heq. exact Hp.
    - rewrite app_assoc in Hk. apply app_inj_tail in Hk as [-> _]. apply Hb; [by apply prefix_app_r|done]. }
  destruct (fs (rev (x :: c) ++ _)) as [[[content|]| |]|] eqn:Hf; try done.
  all: try (apply Hup; [intros c0 Hc0; congruence|by destruct c]).
  destruct (contains_str _ _) eqn:Hw.
  - injection H as <-. exists []. rewrite app_nil_r. split; [done|]. split; [by exists content|]. by intros ? ->%prefix_nil_inv.
  - apply Hup; [|by destruct c]. intros c0 Hc0. exists content. by split; [congruence|].
Qed.

(** What the report holds. *)
Lemma reported_iff root rel v :
  reported root rel v <-> exists n p content items e, fs (src_dir root rel) = Some n /\ source n p (Ok content)
    /\ parse_file content = Ok items /\ may_compile items e /\ offends e /\ v = report (rel ++ txt "src" :: p) e.
Proof using Type.
  split.
  - intros (n&p&[content|why]&items&e&Hn&Hs&Hp&He&Hv&->); [|done]. apply is_violation_iff in Hv as [Ho Hc].
    exists n, p, content, items, e. split_and!; try done. by apply collected_iff.
  - intros (n&p&content&items&e&Hn&Hs&Hp&[He Hc]%collected_iff&Ho&->). exists n, p, (Ok content), items, e.
    split_and!; try done. by apply is_violation_iff.
Qed.

Hypothesis sort_violations_perm : forall l, sort_violations l ≡ₚ l.

(** Where the program looks. *)
Definition root_of (current_dir : option Path) (args : list Text) : result Path string :=
  match args with r :: _ => Ok (path_from r) | [] => default_root current_dir end.

(** C31: What the gate guarantees, from its arguments and the file system to its
    exit status.  It prints the help text exactly when it is asked to.  It panics
    only if there is no root, or one of the library crates has no source
    directory, no source, a directory that cannot be listed or a file that cannot
    be read or parsed.  Otherwise every crate was walked, and it exits with 0
    exactly when it reports nothing.  It reports exactly the public enums of the
    sources that derive [Error] and are non-exhaustive, and that no [cfg] on them or
    on a module around them rules out without tests, each occurrence of a name
    other than [test] read on its own; so it reports every such enum that some
    build without tests compiles, whatever features that build has, and none that
    is behind [cfg(test)]. *)
Theorem gate_sound_and_complete current_dir args :
  (main current_dir args = Help <-> exists a, a ∈ args /\ (a = txt "--help" \/ a = txt "-h"))
  /\ match main current_dir args with
  | Help => True
  | Panic _ => forall root, root_of current_dir args = Ok root -> Exists (fun rel => ~ scannable root rel) LIBRARY_CRATES
  | Exit code vs _ => exists root, root_of current_dir args = Ok root
      /\ Forall (scannable root) LIBRARY_CRATES /\ (code = 0 <-> vs = [])
      /\ (forall v, v ∈ vs <-> exists rel n p content items e, rel ∈ LIBRARY_CRATES /\ fs (src_dir root rel) = Some n
           /\ source n p (Ok content) /\ parse_file content = Ok items
           /\ may_compile items e /\ offends e /\ v = report (rel ++ txt "src" :: p) e)
      /\ (forall rel n p content items b e, rel ∈ LIBRARY_CRATES -> fs (src_dir root rel) = Some n ->
           source n p (Ok content) -> parse_file content = Ok items ->
           without_tests b -> compiled b items e -> offends e -> report (rel ++ txt "src" :: p) e ∈ vs)
  end.
Proof using sort_files_perm sort_violations_perm.
  unfold main. destruct (existsb _ args) eqn:Hh.
  { apply existsb_elem in Hh as (a&Ha&Hb%bool_decide_eq_true). split; [|done]. split; [|done]. by exists a. }
  split.
  { split; [by repeat case_match|]. intros (a&Ha&Hb). apply not_true_iff_false in Hh. destruct Hh.
    apply existsb_elem. exists a. by rewrite bool_decide_eq_true. }
  fold (root_of current_dir args). destruct (root_of current_dir args) as [root|why]; [|done].
  pose proof (scan_crates_spec root LIBRARY_CRATES ([], 0%nat)) as Hs.
  destruct (scan_crates root LIBRARY_CRATES ([], 0%nat)) as [[vs n]|why]; [|by intros ? [= <-]].
  destruct Hs as [Hs (vs0&Hvs&Hv)]. simpl in Hvs. subst vs0.
  assert (Hall : forall vs', vs' ≡ₚ vs -> forall v, v ∈ vs' <-> exists rel n p content items e, rel ∈ LIBRARY_CRATES
    /\ fs (src_dir root rel) = Some n /\ source n p (Ok content) /\ parse_file content = Ok items
    /\ may_compile items e /\ offends e /\ v = report (rel ++ txt "src" :: p) e).
  { intros vs' Hp v. rewrite Hp, Hv. setoid_rewrite reported_iff. naive_solver. }
  assert (Hrep : forall vs', vs' ≡ₚ vs -> forall rel n p content items b e,
    rel ∈ LIBRARY_CRATES -> fs (src_dir root rel) = Some n -> source n p (Ok content) -> parse_file content = Ok items ->
    without_tests b -> compiled b items e -> offends e -> report (rel ++ txt "src" :: p) e ∈ vs').
  { intros vs' Hp rel n' p content items b e Hr Hn Hsrc Hpf Hb Hc Ho. apply (Hall vs' Hp).
    exists rel, n', p, content, items, e. split_and!; try done. by eapply compiled_may. }
  destruct vs as [|v vs]; exists root; (split; [done|]); (split; [done|]).
  - split; [done|]. split; [by apply Hall|by apply Hrep].
  - pose proof (sort_violations_perm (v :: vs)) as Hp. split; [|split; [by apply Hall|by apply Hrep]].
    split; [done|]. intros Hn. rewrite Hn in Hp. by apply Permutation_nil_cons in Hp.
Qed.

End Scan.
End Scan.

(** ** Witness *)

Definition open_error (name : string) : Scan.Item :=
  Scan.IEnum (Scan.mkEnum true
    [Scan.mkAttr ["derive"] [] (Some [["Debug"]; ["thiserror"; "Error"]]); Scan.mkAttr ["non_exhaustive"] [] None]
    name 7)%string.

(** One open error enum, and one more behind [cfg(all(test, feature = "x"))]. *)
Definition demo_items (_ : Text) : result (list Scan.Item) string :=
  Ok [open_error "Outer";
      Scan.IMod [Scan.mkAttr ["cfg"]
                   [Cfg.TIdent "all"; Cfg.TParen [Cfg.TIdent "test"; Cfg.TComma; Cfg.TIdent "feature"; Cfg.TEq; Cfg.TStr "x"]]
                   None]
        (Some [open_error "Inner"])]%string.

(** A workspace at [/w], each of whose crates has a source in a subdirectory, a
    note, and a directory called [target] with one more source. *)
Definition demo_fs (p : Scan.Path) : option Scan.Node :=
  if bool_decide (p = [[47]; txt "w"; txt "Cargo.toml"]) then Some (Scan.NFile (Ok (txt "[workspace]")))
  else if bool_decide (last p = Some (txt "src"))
  then Some (Scan.NDir [(txt "notes.md", Scan.NFile (Err "not text"%string));
                        (txt "target", Scan.NDir [(txt "old.rs", Scan.NFile (Ok []))]);
                        (txt "a", Scan.NDir [(txt "b.rs", Scan.NFile (Ok []))])])
  else None.

Lemma gate_sound_and_complete_witness :
  (exists vs, Scan.main id id demo_fs demo_items (Some [[47]; txt "w"; txt "crates"]) [] = Scan.Exit 1 vs 10
     /\ head vs = Some (Scan.mkViolation [txt "crates"; txt "cherry-pit-core"; txt "src"; txt "a"; txt "b.rs"] (Some 7%nat) "Outer"%string))
  /\ Forall (Scan.scannable demo_fs demo_items [[47]; txt "w"]) Scan.LIBRARY_CRATES.
Proof.
  split; [eexists; split; vm_compute; reflexivity|].
  destruct (Scan.gate_sound_and_complete id id demo_fs demo_items (fun l => Permutation_refl l) (fun l => Permutation_refl l)
              (Some [[47]; txt "w"; txt "crates"]) []) as [_ (root&Hr&Hs&_)].
  vm_compute in Hr. injection Hr as <-. exact Hs.
Defined.
