(* ===== verification/Source.v ===== *)
(** * From events to pages (crates [cherry-pit-app], [cherry-pit-projection], [cherry-pit-web])

    The in-memory projection of [cherry-pit-projection/src/lib.rs], the source of
    [cherry-pit-app/src/projection_source.rs] that renders it for the projection
    surface, and the way from the history of an aggregate to the bytes that a
    client reads. *)

From S2P Require Import Prelude Core Store Projection Chars Web Pages Session Server.

(** ** [InMemoryProjection] and [InMemoryProjectionSource] *)

Section Source.
Context {Ev P : Type} (init : P) (apply : P -> EventEnvelope Ev -> P).
Context (sha256 : Body -> list Z) (zstd_encode : Body -> option Body) (percent_decode : Text -> option Text).

Record InMemoryProjection := mkProjection { projection : P }.
Definition InMemoryProjection_new : InMemoryProjection := mkProjection init.
Definition get (v : InMemoryProjection) : P := projection v.
Definition replace (v : InMemoryProjection) (p : P) : InMemoryProjection := mkProjection p.

(** Nothing sends on the channel of updates: a subscriber receives none. *)
Record InMemoryProjectionSource := mkSource {
  source_projection : InMemoryProjection;
  render : P -> gmap Text PageEntry;
}.
Definition rendered_snapshot (s : InMemoryProjectionSource) : gmap Text PageEntry :=
  render s (get (source_projection s)).
Definition snapshot (s : InMemoryProjectionSource) : option (gmap Text PageEntry) := Some (rendered_snapshot s).
Definition is_ready (s : InMemoryProjectionSource) : bool := true.

(** ** Faithful answers *)

(** A response that is the page [b], or that tells the client it has it. *)
Definition answers (b : Body) (request_headers : HeaderMap) (r : Response) : Prop :=
  hget "etag" (headers r) = Some (compute_etag sha256 b)
  /\ ((status r = 304 /\ body r = []
       /\ Negotiation.if_none_match_matches request_headers (compute_etag sha256 b) = true)
      \/ (status r = 200 /\ hget "content-length" (headers r) = Some (decimal (length (body r)))
          /\ ((hget "content-encoding" (headers r) = None /\ body r = b)
              \/ (hget "content-encoding" (headers r) = Some (txt "zstd")
                  /\ encoding_of request_headers = Negotiation.Zstd /\ zstd_encode b = Some (body r))))).

Lemma serve_entry_answers filename b request_headers :
  answers b request_headers (serve_entry (PageEntry_new sha256 zstd_encode filename b) request_headers 200).
Proof using Type.
  set (page := PageEntry_new sha256 zstd_encode filename b). unfold answers, serve_entry.
  change (pe_etag page) with (compute_etag sha256 b).
  destruct (Negotiation.if_none_match_matches _ _) eqn:Hm.
  { destruct (bool_decide _); simpl; auto 10. }
  assert (Hz : forall z, pe_body_zstd page = Some z ->
    zstd_encode b = Some z /\ pe_content_length_zstd page = Some (decimal (length z))).
  { unfold page, PageEntry_new. cbn [pe_body_zstd pe_content_length_zstd]. intros z.
    destruct (is_compressible_ext _); [|done]. unfold compress_zstd. destruct (_ <? _); [done|].
    intros Hz. rewrite Hz. done. }
  destruct (pe_body_zstd page) as [z|] eqn:Hb.
  - destruct (Hz z eq_refl) as [Henc ->]. destruct (encoding_of request_headers) eqn:He; simpl.
    + split; [done|]. right. split_and!; [done..|]. right. by split_and!.
    + split; [done|]. right. split_and!; [done..|]. by left.
  - simpl. split; [done|]. right. split_and!; [done..|]. by left.
Qed.

Context (St : EventStore Ev) (Inv : es_state St -> Prop) (view : es_state St -> AggregateId -> list (EventEnvelope Ev))
        {laws : EventStoreLaws St Inv view}.

(** The layer that adds a policy leaves a faithful answer one. *)
Lemma answers_with_policy b request_headers r :
  answers b request_headers r -> answers b request_headers (Layers.projection_default_csp r).
Proof using Type.
  unfold answers. destruct (ProjectionRouter.default_csp_response r) as (->&->&_&Hh). by rewrite !Hh.
Qed.

(** The router, with the parameters of [Server]. *)
Context (max_permits : Z) (body_limit : Z -> (Layers.Request -> Response) -> Layers.Request -> Response).
Context (method_not_allowed : Response) (not_an_upgrade : Layers.Request -> option Response) (switching : Layers.Request -> Response).
Context (conflict : Layers.Route -> Layers.Route -> bool) (extra_routes : Layers.Router) (unmatched : Layers.Request -> Response).

Notation build_projection_router := (ProjectionRouter.build_projection_router max_permits body_limit method_not_allowed
  not_an_upgrade switching conflict extra_routes unmatched percent_decode).

(** A read that reaches the snapshot: a [GET] or [HEAD] below [/v1/] without a
    body that is not a probe and that no route of the consumer takes. *)
Definition reads (request : Layers.Request) : Prop :=
  ProjectionRouter.is_probe extra_routes request = false /\ Layers.method request <> OtherMethod
  /\ Layers.path_is request "/ws" = false /\ Layers.takes extra_routes request = None /\ ProjectionRouter.below_v1 request = true
  /\ Web.get (Layers.request_headers request) "content-length" = None.

(** A read is answered with the page [b]: a [HEAD] request sees the same response
    without its body. *)
Definition reads_page (b : Body) (request : Layers.Request) (r : Response) : Prop :=
  exists r0, answers b (Layers.request_headers request) r0
    /\ status r = status r0 /\ headers r = headers r0 /\ body r = body (Layers.seen_by request r0).

(** C25: From the history to the page.  After a replay of an aggregate its source
    publishes exactly the pages that the renderer makes of the fold of the whole
    history.  A read that the server lets in and whose path resolves to a page that
    the renderer built with [PageEntry::new] is answered with that page, compressed
    only for a client that takes it and without its body for [HEAD], or with 304 to
    a client that named its tag; a path that cannot be normalised or resolves to
    none is answered 404. *)
Theorem page_of_history s id s' p rendering limits policy app http_permits ws_permits request :
  Inv s -> Driver.replay init apply St s id = (s', Ok p) ->
  build_projection_router limits policy = Some app -> Layers.body_limit_law body_limit -> 1 <= Layers.max_body_bytes limits ->
  1 <= http_permits -> reads request ->
  let src := mkSource (replace InMemoryProjection_new p) rendering in
  let pages := rendering (fold_left apply (view s id) init) in
  let r := ProjectionRouter.service app (ProjectionRouter.mkView (snapshot src) (is_ready src) http_permits ws_permits) request in
  snapshot src = Some pages
  /\ match Path.normalize_request_path percent_decode (default (Layers.path request) (strip_prefix (txt "/v1") (Layers.path request))) with
     | None => status r = 404
     | Some n =>
         match resolve_page pages (Path.key n) with
         | None => status r = 404
         | Some page => forall filename b, page = PageEntry_new sha256 zstd_encode filename b ->
                        reads_page b request r
         end
     end.
Proof using laws.
  intros HI Hrep Happ Hlaw Hmax Hn (Hp&Hm&Hws&He&Hv1&Hcl). cbv zeta. unfold Driver.replay in Hrep.
  destruct (Driver.replay_inner init apply St s id) as [s1 r1] eqn:Hin.
  destruct (Driver.replay_inner_spec init apply St Inv view s id s1 r1 HI Hin) as (_&_&Hok).
  destruct r1 as [[p1 q]|e]; simpl in Hrep; [|done]. injection Hrep as <- <-. destruct (Hok p1 q eq_refl) as [-> _].
  split; [done|].
  erewrite ProjectionRouter.projection_service, ProjectionRouter.planes_read by done.
  unfold snapshot_get. cbn [ProjectionRouter.snapshot snapshot]. unfold rendered_snapshot.
  cbn [render source_projection get replace projection].
  assert (E : forall r1 r2 : Response, match Layers.method request with OtherMethod => r1 | _ => r2 end = r2).
  { intros. by destruct (Layers.method request). }
  rewrite E. destruct (Path.normalize_request_path _ _) as [n|].
  2:{ rewrite (proj1 (ProjectionRouter.default_csp_response _)). apply Layers.seen_by_head. }
  destruct (resolve_page _ (Path.key n)) as [page|].
  2:{ rewrite (proj1 (ProjectionRouter.default_csp_response _)). apply Layers.seen_by_head. }
  intros filename b ->.
  set (r0 := serve_entry _ _ _). exists (Layers.projection_default_csp r0).
  split; [apply answers_with_policy, serve_entry_answers|].
  destruct (Layers.seen_by_head request r0) as (Hs&Hh&_&_). unfold Layers.projection_default_csp, Layers.on_headers. simpl.
  rewrite Hs, Hh. unfold Layers.seen_by. by destruct (Layers.method request).
Qed.

End Source.

(** ** Witness *)

(** A projection that lists the payloads, rendered as one page. *)
Definition list_page (p : list Z) : gmap Text PageEntry :=
  {[INDEX := PageEntry_new (fun _ => repeat 7 32) Some INDEX p]}.

Lemma page_of_history_witness :
  let src := mkSource (replace (InMemoryProjection_new []) [10; 20]) list_page in
  match demo_projection with
  | Some app =>
      snapshot src = Some (list_page (fold_left (fun l env => l ++ [payload env])
                                       (InMemory.stream_of two_events (AggregateId_new 1)) []))
      /\ reads_page (fun _ => repeat 7 32) Some [10; 20] (get_request "/v1/index.html")
           (ProjectionRouter.service app (ProjectionRouter.mkView (snapshot src) (is_ready src) 1 1) (get_request "/v1/index.html"))
  | None => False
  end.
Proof.
  cbv zeta. destruct demo_projection as [app|] eqn:E;
    [|by apply demo_projection_built in E].
  destruct (page_of_history [] (fun l env => l ++ [payload env]) (fun _ => repeat 7 32) Some Some
              (InMemory.store Z) InMemory.Inv InMemory.stream_of 4096 pass_limit (mkResponse 405 [] []) (fun _ => None)
              (fun _ => mkResponse 101 [] []) same_route Layers.Router_new (fun _ => mkResponse 404 [] [])
              two_events (AggregateId_new 1) two_events [10; 20] list_page Layers.permissive_for_tests
              WsAuth.permissive_for_tests app 1 1 (get_request "/v1/index.html") two_events_inv
              ltac:(vm_compute; reflexivity) E (fun n next request _ _ => eq_refl) ltac:(vm_compute; discriminate)
              ltac:(lia) ltac:(by split_and!; vm_compute)) as [Hs Hr].
  split; [exact Hs|]. revert Hr.
  replace (Path.normalize_request_path _ _) with (Some (Path.mkNormalized INDEX false)) by (vm_compute; reflexivity).
  replace (resolve_page _ _) with (Some (PageEntry_new (fun _ => repeat 7 32) Some INDEX [10; 20])) by (vm_compute; reflexivity).
  intros Hr. exact (Hr INDEX [10; 20] eq_refl).
Defined.
